(* ===== verification/_CoqProject ===== *)
-Q . S2P
Prelude.v
Text.v
HostPort.v
ProxyTypes.v
Errors.v
Floats.v
Rating.v
Select.v
Quarantine.v
Ratings.v
Sticky.v
Rotator.v
ChainPlan.v
Tls.v
Sni.v
TextFmt.v
Stream.v
StrictHttp.v
Server.v
Handshake.v
Upstream.v
Clients.v
Users.v
UsersFile.v
Alone.v
Auth.v
Dial.v
Pool.v
PoolProofs.v
PoolDial.v
Hedged.v
Probes.v
Establish.v
Fragment.v
Tunnel.v
Recovery.v
Handle.v
Egress.v
Health.v
Startup.v
RunServer.v
Logger.v
ConfigFiles.v
Wrappers.v
Windows.v
