(* ===== verification/Prelude.v ===== *)
(** * resocks5: a verification library

    resocks5 is a proxy server: clients speak SOCKS5 or HTTP CONNECT to it, and it takes
    their connections out through a changing set of upstream proxies, alone or in chains,
    or directly for the users who may. This library models its two crates,
    src/crates/resocks5-net (called [net] below) and src/crates/resocks5 ([bin]), and
    proves what makes them correct. This file holds what all the others share.

    ** The program and its model

    A connection's way through the program, and the files that model it:

    - [ConfigFiles] (bin config/load_or_init.rs, config/main/) reads the configuration, or
      creates it at a first run, over the system calls of [UsersFile], run as [Alone] says.
      [Windows] is the same write on that system.
    - Start-up ([Startup]: bin server/bootstrap/startup.rs) reads the lists of upstreams
      ([ProxyTypes], [HostPort]: net types/, connect/util/), builds a rotator for the exits
      of each address family and for each level of gates, and refuses to serve nobody.
      [Health] (bin server/health/mod.rs) puts back what was dead when the last process
      ended, and keeps the file of it current. [Logger] (bin logger/,
      server/bootstrap/log_drain.rs) writes the log.
    - [RunServer] (bin server/run_server.rs) accepts connections, within its permits and
      the rule for addresses ([Clients]: bin config/allowed_clients.rs), and shuts down.
    - [Handle] (bin server/handle/, http_proxy/, server/connect/establish_direct.rs) serves
      one client: [Server], with [StrictHttp] and [Handshake] (net server/), accepts the
      request; [Auth] (bin auth/state/) admits the user, of the accounts of [Users] and
      [UsersFile] (bin config/users/, cli/run_user_command.rs); [Recovery] (bin
      server/tunnel/recovery.rs) looks for a name in the first bytes, with [Tls] and [Sni]
      (net connect/tls/tls_records.rs, connect/util/recover_host.rs).
    - [Establish] (bin server/connect/establish_connection/) finds a connection: the sticky
      routes ([Sticky]), the plan of chains ([ChainPlan]: net session/chain/), and a race of
      direct upstreams ([Hedged]: net connect/proxy_connect/hedged.rs). The order and the
      quarantine of the upstreams are those of a [Rotator] (net session/rotator/) over its
      [Ratings] ([Rating], [Select], [Quarantine], on the numbers of [Floats]: net
      session/rating/); [Probes] (bin .../probes.rs) bring the quarantined back. [Errors]
      (net error/) says what a failure tells of an upstream.
    - [Dial] and [PoolDial] (net connect/dial/, connect/proxy_connect/) make a connection
      through the nodes of a chain with the handshakes of [Upstream] (net
      connect/util/handshake_over_stream.rs), within the permits of the pool ([Pool],
      [PoolProofs]: net session/pool/).
    - [Tunnel] and [Fragment] (bin server/tunnel/, net connect/tunnel/,
      connect/tls/tls_fragment/) carry the bytes, through the layers of [Wrappers] (net
      connect/stream.rs, connect/util/any_upstream.rs, session/progress.rs).

    [Text], [TextFmt] and [Stream] are the language's strings, addresses and asynchronous
    byte streams as far as the program uses them. Each file but this one has a module of
    its name or of its component's, with the definitions under the names of the source.

    ** How it is modelled

    - Pure code is functions; fallible code returns [result] or [option]; a machine integer
      is a [Z] with its wrapping or saturation written out; a duration or an instant is a
      [Z] of nanoseconds, bounded by [DURATION_MAX] and [INSTANT_MAX] where that shows.
    - Code that reads and writes a socket is a program over a [Stream.conn]: what the peer
      will send, cut into reads, and how it ends. Code that dials is a program over a world
      with a clock; code that serves a client, over a session with its log ([Recovery]).
    - Code whose interleaving matters is a transition system: the pool, the race, the
      logins over the users file, the accept loop. A step is one access to what is shared;
      what the environment may do (answers, failures, panics, crashes, time) are events.
    - Rotators are mutable and shared: a store, named by handles, that others may change at
      every await ([Establish.sound] is what they keep). A request that is dropped leaves
      in it what it had done by then ([Establish.establish_until]).
    - Interfaces are classes: [Floats.Float] with its laws; [PoolDial.PoolOps], what a dial
      takes of a pool; [Recovery.Egress], what a session takes of the way out, which
      [Egress] instantiates with [Establish]; [Startup.GateSplit], the source's own trait.
    - What is not under src/ is a parameter: TCP, TLS, base64, regular expressions, Argon2
      and HMAC, the configuration format, the platform's [exp] and [ln]. The hypotheses
      about them are named where they are used; each is met by a concrete instance in a
      witness.

    ** What is proved

    - Who gets in: [Server.accept_auth_gate], [Handle.only_admitted], [Auth.login_sound],
      [Auth.claim_durable], [RunServer.server_limits].
    - What a client gets: [Handle.session_protocol] (a state machine every session
      refines), [Handle.tunnel_bytes], [Handle.routes_kept], [Recovery.peek_exact],
      [Handle.recovery_in_budget]; [Server.accept_chunking], [Upstream.socks_interop].
    - How a connection is found: [Establish.establish_total], [Establish.establish_budget],
      [ChainPlan.chain_plan_refines], [ChainPlan.record_failure_attribution],
      [Hedged.hedged_exclusive], [Hedged.hedged_result],
      [Probes.probe_settlement], [Sticky.sticky_refines_lru],
      [Egress.session_keeps_rotators].
    - How it is made: [Dial.dial_chain_outcome], [Dial.chain_interop],
      [PoolProofs.pool_accounting].
    - What it carries: [Tunnel.payload_exact], [Tunnel.hello_held],
      [Tunnel.tunnel_exact_timeouts], [Tunnel.forward_lifetime], [Fragment.send_exact],
      [Sni.sni_roundtrip].
    - What is kept: [UsersFile.users_file_updates], [UsersFile.users_file_outcomes],
      [Users.command_preserves_accounts], [Startup.restart_resumes], [Health.saver_file],
      [ConfigFiles.config_files].
    - The server as a whole: [Startup.startup_routes], [RunServer.shutdown_bounded],
      [Auth.logins_progress], [Logger.log_history].

    Many more theorems of the same kind support these in their files.

    ** Bounds and fuel

    Recursion that is not structural has fuel, and a theorem that it is enough:

    - reading a header stops at its maximum size, which is the fuel ([Server.read_header],
      [Upstream]); every pass reads a byte or ends;
    - [ChainPlan]: as many passes as there are picks left, which each pass lowers;
      [Establish.plan_loop] likewise, by picks and attempts ([establish_total]), also for a
      request that is dropped ([establish_until_total]);
    - [UsersFile.LOCK_FUEL], 1001 polls: one, and one per 10 ms of the 10 s that a lock is
      waited for;
    - [Quarantine.doubling_fuel], 96: a duration has less than 2^95 nanoseconds;
    - [Hedged]: eight moves per candidate and its ticks bound a race ([hedged_ends]);
    - [Fragment]: two windows more than there are confirmations ([send_stalls]);
    - [Recovery.read_prefix]: one more than [PEEK_MAX], since a read that is not the end
      brings a byte.

    ** What is idealised

    Deadlines are looked at when the clock reaches them, and a reply takes no time. An
    [io::Error] is its text. A hasher is an arbitrary function. HMAC is taken to be free of
    collisions where a cached login is compared, and Argon2 to accept what it hashed.
    Memory order is sequentially consistent. Paths, file locks and renames are unix's. Of
    what is logged only the log's own behaviour, the lines for skipped upstreams, the
    saver's errors and the accept loop's lines are modelled.

    ** Not modelled

    - The set-up of the TLS client (net connect/tls/upstream_tls.rs apart from
      [https_on_stream]) and keepalive (connect/util/tcp_keepalive.rs) configure libraries.
    - The terminal side of the commands (bin cli/app.rs, command.rs, print_config_docs.rs)
      is text and prompts; what a command does to the accounts is in [Users] and
      [UsersFile].
    - How a configuration looks as text (the format is a parameter), with the defaults of
      single fields that a file may leave out; which are those of the records, in
      [ConfigFiles].
    - The runtime's construction and bounded teardown (bin server/bootstrap/runtime.rs),
      and on windows the lock calls and the encoding of paths, are the platform's. *)
From stdpp Require Export base tactics option list numbers strings gmap sorting.
From Stdlib Require Export ZArith Lia Ascii.

#[global] Open Scope Z_scope.

(** ** Results *)

Inductive result (E A : Type) : Type :=
| Ok (a : A)
| Err (e : E).
Arguments Ok {E A} a.
Arguments Err {E A} e.

#[export] Instance result_ret E : MRet (result E) := fun A a => Ok a.
#[export] Instance result_bind E : MBind (result E) :=
  fun A B f r => match r with Ok a => f a | Err e => Err e end.
#[export] Instance result_fmap E : FMap (result E) :=
  fun A B f r => match r with Ok a => Ok (f a) | Err e => Err e end.

(** [Option::ok_or]. *)
Definition ok_or {E A} (e : E) (o : option A) : result E A :=
  match o with Some a => Ok a | None => Err e end.

(** [Result::map_err]. *)
Definition map_err {E E' A} (f : E -> E') (r : result E A) : result E' A :=
  match r with Ok a => Ok a | Err e => Err (f e) end.

Definition is_ok {E A} (r : result E A) : bool :=
  match r with Ok _ => true | Err _ => false end.

#[export] Instance result_eq_dec E A `{EqDecision E} `{EqDecision A} :
  EqDecision (result E A).
Proof. solve_decision. Defined.

(** ** Bytes

    A byte is an [ascii]: exactly 256 values, so no side condition is needed.
    Byte slices, [Vec<u8>] and the UTF-8 contents of [str]/[String] are lists. *)

Abbreviation byte := ascii (only parsing).
Abbreviation bytes := (list ascii) (only parsing).

Definition byte_val (c : byte) : Z := Z.of_N (N_of_ascii c).
Definition byte_of (z : Z) : byte := ascii_of_N (Z.to_N z).

(** A byte-string literal of the source. *)
Definition lit (s : string) : bytes := String.list_ascii_of_string s.
Arguments lit s%_string_scope.

Definition CR : byte := byte_of 13.
Definition LF : byte := byte_of 10.
Definition HTAB : byte := byte_of 9.
Definition SP : byte := byte_of 32.

(** ** Machine integers *)

Definition U8_MAX : Z := 255.
Definition U16_MAX : Z := 65535.
Definition U32_MAX : Z := 4294967295.
Definition U64_MAX : Z := 18446744073709551615.

Definition wrap (w x : Z) : Z := x mod 2 ^ w.
Definition wrapping_add64 (x y : Z) : Z := wrap 64 (x + y).
Definition wrapping_mul64 (x y : Z) : Z := wrap 64 (x * y).
Definition saturating_add32 (x y : Z) : Z := Z.min (x + y) U32_MAX.
Definition saturating_sub (x y : Z) : Z := Z.max (x - y) 0.

(** ** Time

    A [Duration] is its number of nanoseconds, at most [u64::MAX] seconds and
    999999999 ns.  An [Instant] is a number of nanoseconds on the monotonic
    clock; on Unix its seconds are an [i64], which bounds [checked_add]. *)

Definition NANOS : Z := 1000000000.
Definition DURATION_MAX : Z := U64_MAX * NANOS + 999999999.
Definition INSTANT_MAX : Z := (2 ^ 63 - 1) * NANOS + 999999999.

Definition from_secs (s : Z) : Z := s * NANOS.
Definition dur_saturating_mul2 (d : Z) : Z := Z.min (2 * d) DURATION_MAX.
Definition instant_checked_add (t d : Z) : option Z :=
  if t + d <=? INSTANT_MAX then Some (t + d) else None.
Definition saturating_duration_since (t earlier : Z) : Z := Z.max (t - earlier) 0.

(** ** Orders as Rust's [Ord]

    [Cmp] is [Ord::cmp]; [CmpOrder] are the laws every [Ord] of the source's
    key types satisfies. *)

Class Cmp (K : Type) := cmp : K -> K -> comparison.

Class CmpOrder (K : Type) `{Cmp K} : Prop := {
  cmp_eq : forall x y : K, cmp x y = Eq <-> x = y;
  cmp_opp : forall x y : K, cmp y x = CompOpp (cmp x y);
  cmp_lt_trans : forall x y z : K, cmp x y = Lt -> cmp y z = Lt -> cmp x z = Lt
}.

#[export] Instance Z_cmp : Cmp Z := Z.compare.
#[export] Instance ascii_cmp : Cmp ascii := fun a b => Z.compare (byte_val a) (byte_val b).
#[export] Instance pair_cmp {A B} `{Cmp A} `{Cmp B} : Cmp (A * B) := fun p q =>
  match cmp p.1 q.1 with Eq => cmp p.2 q.2 | c => c end.

Fixpoint list_cmp_body {A} (f : A -> A -> comparison) (l k : list A) : comparison :=
  match l, k with
  | [], [] => Eq
  | [], _ :: _ => Lt
  | _ :: _, [] => Gt
  | x :: l', y :: k' => match f x y with Eq => list_cmp_body f l' k' | c => c end
  end.
#[export] Instance list_cmp {A} `{Cmp A} : Cmp (list A) := list_cmp_body cmp.

(** [x <= y] in the order. *)
Definition cmp_le {K} `{Cmp K} (x y : K) : Prop := cmp x y <> Gt.

(** [BTreeSet::first] of a set. *)
Definition least_step {K} `{Cmp K} (x : K) (acc : option K) : option K :=
  match acc with
  | None => Some x
  | Some y => match cmp x y with Gt => Some y | _ => Some x end
  end.
Definition bt_first {K} `{Countable K} `{Cmp K} (X : gset K) : option K :=
  foldr least_step None (elements X).

(** ** Proof automation *)

(** Splits the boolean tests of hypotheses and goal into propositions. *)
Ltac zify_bools :=
  repeat match goal with
  | H : (_ && _) = true |- _ => apply andb_true_iff in H; destruct H
  | H : (_ || _) = false |- _ => apply orb_false_iff in H; destruct H
  | H : negb _ = true |- _ => apply negb_true_iff in H
  | H : negb _ = false |- _ => apply negb_false_iff in H
  | H : (_ <? _) = true |- _ => apply Z.ltb_lt in H
  | H : (_ <? _) = false |- _ => apply Z.ltb_ge in H
  | H : (_ <=? _) = true |- _ => apply Z.leb_le in H
  | H : (_ <=? _) = false |- _ => apply Z.leb_gt in H
  | H : (_ =? _) = true |- _ => apply Z.eqb_eq in H
  | H : (_ =? _) = false |- _ => apply Z.eqb_neq in H
  | H : bool_decide _ = true |- _ => apply bool_decide_eq_true in H
  | H : bool_decide _ = false |- _ => apply bool_decide_eq_false in H
  end.

(** Case analysis on the innermost test of the goal, with its equation. *)
Ltac split_ifs :=
  repeat match goal with
  | |- context [if ?c then _ else _] =>
      lazymatch c with
      | context [if _ then _ else _] => fail
      | _ => let E := fresh "Eif" in destruct c eqn:E
      end
  end.

(** Case analysis on a [match] scrutinee of a hypothesis. *)
Ltac case_hyp H :=
  repeat match type of H with
  | context [match ?c with _ => _ end] =>
      lazymatch c with
      | context [match _ with _ => _ end] => fail
      | _ => let E := fresh "Ecase" in destruct c eqn:E; simplify_eq/=
      end
  end.

(** Proves a closed decidable proposition by evaluation. *)
Ltac decide_now := refine (bool_decide_unpack _ _); vm_compute; exact I.

Create HintDb resocks.
Create HintDb resocks_rw.

(** ** Generic lemmas *)

Lemma byte_val_range c : 0 <= byte_val c < 256.
Proof.
  unfold byte_val. pose proof (N_ascii_bounded c). lia.
Qed.

Lemma byte_val_of z : 0 <= z < 256 -> byte_val (byte_of z) = z.
Proof.
  intros Hz. unfold byte_val, byte_of. rewrite N_ascii_embedding; lia.
Qed.

Lemma byte_of_val c : byte_of (byte_val c) = c.
Proof.
  unfold byte_val, byte_of. rewrite N2Z.id. apply ascii_N_embedding.
Qed.

Lemma byte_val_inj a b : byte_val a = byte_val b -> a = b.
Proof.
  intros E. rewrite <- (byte_of_val a), <- (byte_of_val b). by rewrite E.
Qed.

#[export] Instance Z_cmp_order : CmpOrder Z.
Proof.
  split; unfold cmp, Z_cmp; intros.
  - apply Z.compare_eq_iff.
  - by rewrite Z.compare_antisym.
  - rewrite Z.compare_lt_iff in *. lia.
Qed.

#[export] Instance ascii_cmp_order : CmpOrder ascii.
Proof.
  split; unfold cmp, ascii_cmp; intros.
  - rewrite Z.compare_eq_iff. split; [apply byte_val_inj | by intros ->].
  - by rewrite Z.compare_antisym.
  - rewrite Z.compare_lt_iff in *. lia.
Qed.

Lemma cmp_refl {K} `{CmpOrder K} (x : K) : cmp x x = Eq.
Proof. by apply cmp_eq. Qed.

Lemma cmp_gt_lt {K} `{CmpOrder K} (x y : K) : cmp x y = Gt <-> cmp y x = Lt.
Proof. rewrite (cmp_opp x y). destruct (cmp x y); simpl; split; congruence. Qed.

#[export] Instance pair_cmp_order {A B} `{CmpOrder A} `{CmpOrder B} : CmpOrder (A * B).
Proof.
  split.
  - intros [a1 b1] [a2 b2]. unfold cmp, pair_cmp; simpl.
    destruct (cmp a1 a2) eqn:E; [apply cmp_eq in E; subst| |].
    + rewrite cmp_eq. split; [by intros -> | congruence].
    + split; [done|]. intros [= -> ->]. by rewrite cmp_refl in E.
    + split; [done|]. intros [= -> ->]. by rewrite cmp_refl in E.
  - intros [a1 b1] [a2 b2]. unfold cmp, pair_cmp; simpl.
    rewrite (cmp_opp a1 a2), (cmp_opp b1 b2). by destruct (cmp a1 a2).
  - intros [a1 b1] [a2 b2] [a3 b3]. unfold cmp, pair_cmp; simpl.
    destruct (cmp a1 a2) eqn:E1; try done.
    + apply cmp_eq in E1 as ->. destruct (cmp a2 a3) eqn:E2; try done.
      apply cmp_lt_trans.
    + intros _. destruct (cmp a2 a3) eqn:E2; try done.
      * apply cmp_eq in E2 as ->. by rewrite E1.
      * by rewrite (cmp_lt_trans _ _ _ E1 E2).
Qed.

#[export] Instance list_cmp_order {A} `{CmpOrder A} : CmpOrder (list A).
Proof.
  split; unfold cmp, list_cmp.
  - induction x as [|a l IH]; intros [|b k]; simpl; try (split; congruence).
    destruct (cmp a b) eqn:E; [apply cmp_eq in E; subst| |].
    + rewrite IH. split; [by intros -> | congruence].
    + split; [done|]. intros [= -> ->]. by rewrite cmp_refl in E.
    + split; [done|]. intros [= -> ->]. by rewrite cmp_refl in E.
  - induction x as [|a l IH]; intros [|b k]; simpl; try done.
    rewrite (cmp_opp a b). destruct (cmp a b); simpl; auto.
  - induction x as [|a l IH]; intros [|b k] [|c m]; simpl; try done.
    destruct (cmp a b) eqn:E1; try done.
    + apply cmp_eq in E1 as ->. destruct (cmp b c) eqn:E2; try done. apply IH.
    + intros _. destruct (cmp b c) eqn:E2; try done.
      * apply cmp_eq in E2 as ->. by rewrite E1.
      * by rewrite (cmp_lt_trans _ _ _ E1 E2).
Qed.

Lemma cmp_le_refl {K} `{CmpOrder K} (x : K) : cmp_le x x.
Proof. unfold cmp_le. by rewrite cmp_refl. Qed.

Lemma cmp_le_trans {K} `{CmpOrder K} (x y z : K) : cmp_le x y -> cmp_le y z -> cmp_le x z.
Proof.
  unfold cmp_le. destruct (cmp x y) eqn:E1; try done.
  - by apply cmp_eq in E1 as ->.
  - intros _. destruct (cmp y z) eqn:E2; try done.
    + apply cmp_eq in E2 as ->. by rewrite E1.
    + by rewrite (cmp_lt_trans _ _ _ E1 E2).
Qed.

Lemma cmp_le_total {K} `{CmpOrder K} (x y : K) : cmp_le x y \/ cmp_le y x.
Proof.
  unfold cmp_le. rewrite (cmp_opp x y). destruct (cmp x y); simpl; auto.
Qed.

(** Assembling an integer from a high and a low part. *)
Lemma lor_shiftl a b n : 0 <= n -> 0 <= b < 2 ^ n -> Z.lor (Z.shiftl a n) b = a * 2 ^ n + b.
Proof.
  intros Hn Hb.
  assert (Hl : Z.land (Z.shiftl a n) b = 0).
  { apply Z.bits_inj'. intros k Hk. rewrite Z.land_spec, Z.shiftl_spec, Z.bits_0 by done.
    destruct (Z.ltb_spec k n); [by rewrite Z.testbit_neg_r by lia|].
    rewrite (Z.testbit_eqb b k) by done. rewrite Z.div_small; [by rewrite andb_false_r|].
    pose proof (Z.pow_le_mono_r 2 n k). lia. }
  rewrite <- Z.shiftl_mul_pow2 by done. pose proof (Z.add_lor_land (Z.shiftl a n) b). lia.
Qed.

Lemma omap_lookup_seq {A} (l : list A) : omap (fun j => l !! j) (seq 0 (length l)) = l.
Proof.
  enough (H : forall pre, omap (fun j => (pre ++ l) !! j) (seq (length pre) (length l)) = l)
    by apply (H []).
  induction l as [|a l IH]; intros pre; [done|]. cbn [length seq omap list_omap].
  rewrite list_lookup_middle by done. f_equal.
  specialize (IH (pre ++ [a])). rewrite <- app_assoc, length_app, Nat.add_comm in IH. exact IH.
Qed.

Lemma omap_Permutation {A B} (f : A -> option B) l k : l ≡ₚ k -> omap f l ≡ₚ omap f k.
Proof. intros H. by rewrite H. Qed.

(** Looking every element of a list of valid indices up loses none of them. *)
Lemma length_omap_total {A B} (f : A -> option B) l :
  (forall x, x ∈ l -> is_Some (f x)) -> length (omap f l) = length l.
Proof.
  induction l as [|a l IH]; intros H; [done|]. cbn.
  destruct (H a) as [b E]; [by left|]. cbn in *. rewrite E. cbn. f_equal.
  apply IH. intros x Hx. apply H. by right.
Qed.

Lemma Forall_lookup_Some {A} (P : A -> Prop) l i x : Forall P l -> l !! i = Some x -> P x.
Proof. intros H Hx. by eapply Forall_lookup_1. Qed.

Lemma Forall2_impl_elem {A B} (R S : A -> B -> Prop) l k :
  Forall2 R l k -> (forall x y, x ∈ l -> R x y -> S x y) -> Forall2 S l k.
Proof.
  induction 1 as [|x y l k Hxy _ IH]; intros HS; [constructor|]. constructor.
  - apply HS; [by left|done].
  - apply IH. intros x' y' Hx. apply HS. by right.
Qed.

#[export] Hint Resolve cmp_le_refl byte_val_range : resocks.

Section Least.
Context {K : Type} `{Countable K} `{!Cmp K} `{!CmpOrder K}.

Lemma least_fold_spec (l : list K) :
  match foldr least_step None l with
  | None => l = []
  | Some x => x ∈ l /\ forall y, y ∈ l -> cmp_le x y
  end.
Proof.
  induction l as [|a l IH]; simpl; [done|].
  destruct (foldr least_step None l) as [y|]; simpl.
  - destruct IH as [Hy Hmin].
    assert (Ha : cmp_le a y \/ cmp a y = Gt) by (unfold cmp_le; destruct (cmp a y); auto).
    destruct (cmp a y) eqn:E.
    3: { split; [by right|]. intros z [->|Hz]%elem_of_cons; [|auto].
         unfold cmp_le. by rewrite (proj1 (cmp_gt_lt _ _) E). }
    all: split; [by left|]; intros z [->|Hz]%elem_of_cons; auto with resocks.
    all: destruct Ha as [Ha|]; [|done]; eapply cmp_le_trans; eauto.
  - subst l. split; [by left|]. intros z [->|Hz%elem_of_nil]%elem_of_cons; [|done].
    apply cmp_le_refl.
Qed.

Lemma bt_first_Some (X : gset K) x :
  bt_first X = Some x -> x ∈ X /\ forall y, y ∈ X -> cmp_le x y.
Proof.
  unfold bt_first. intros E. pose proof (least_fold_spec (elements X)) as Hs.
  rewrite E in Hs. destruct Hs as [Hx Hmin].
  split; [by apply elem_of_elements|]. intros y Hy. by apply Hmin, elem_of_elements.
Qed.

Lemma bt_first_None (X : gset K) : bt_first X = None -> X = ∅.
Proof.
  unfold bt_first. intros E. pose proof (least_fold_spec (elements X)) as Hs.
  rewrite E in Hs. by apply elements_empty_inv, leibniz_equiv in Hs.
Qed.
End Least.
