(* ===== verification/Text.v ===== *)
(** * Text: the part of Rust's [str], [u8] and [std::net] the program relies on

    Strings are their UTF-8 bytes.  This file holds the UTF-8 decoder behind
    [chars]/[from_utf8], the splitting and trimming operations, decimal parsing
    and printing of unsigned integers, and the [Ipv6Addr]/[Ipv4Addr] text
    grammar of the standard library. *)
From S2P Require Import Prelude.

(** ** ASCII classes of a byte *)

Definition in_range (lo hi : Z) (c : byte) : bool :=
  (lo <=? byte_val c) && (byte_val c <=? hi).
Definition is_ascii_digit (c : byte) : bool := in_range 48 57 c.
Definition is_ascii_uppercase (c : byte) : bool := in_range 65 90 c.
Definition is_ascii_lowercase (c : byte) : bool := in_range 97 122 c.
Definition is_ascii_alphabetic (c : byte) : bool :=
  is_ascii_uppercase c || is_ascii_lowercase c.
Definition is_ascii_alphanumeric (c : byte) : bool :=
  is_ascii_alphabetic c || is_ascii_digit c.
Definition is_ascii_hexdigit (c : byte) : bool :=
  is_ascii_digit c || in_range 65 70 c || in_range 97 102 c.
Definition is_ascii_control (c : byte) : bool :=
  in_range 0 31 c || in_range 127 127 c.
(** [u8::is_ascii_whitespace]: space, HT, LF, FF, CR (not VT). *)
Definition is_ascii_whitespace (c : byte) : bool :=
  in_range 32 32 c || in_range 9 10 c || in_range 12 13 c.

Definition to_lower (c : byte) : byte :=
  if is_ascii_uppercase c then byte_of (byte_val c + 32) else c.
Definition to_ascii_lowercase (s : bytes) : bytes := map to_lower s.
Definition eq_ignore_ascii_case (a b : bytes) : bool :=
  bool_decide (to_ascii_lowercase a = to_ascii_lowercase b).

(** ** UTF-8 *)

Definition cont_byte (c : byte) : bool := in_range 128 191 c.
Definition second_ok3 (x y : Z) : bool :=
  if x =? 224 then (160 <=? y) && (y <=? 191)
  else if x =? 237 then (128 <=? y) && (y <=? 159)
  else (128 <=? y) && (y <=? 191).
Definition second_ok4 (x y : Z) : bool :=
  if x =? 240 then (144 <=? y) && (y <=? 191)
  else if x =? 244 then (128 <=? y) && (y <=? 143)
  else (128 <=? y) && (y <=? 191).

(** The characters of a byte string, each with its encoding; [None] when the
    bytes are not well-formed UTF-8. *)
Fixpoint utf8_chars (s : bytes) : option (list (Z * bytes)) :=
  match s with
  | [] => Some []
  | a :: s1 =>
    let x := byte_val a in
    if x <? 128 then cons (x, [a]) <$> utf8_chars s1
    else match s1 with
    | [] => None
    | b :: s2 =>
      let y := byte_val b in
      if (194 <=? x) && (x <=? 223) then
        if cont_byte b
        then cons ((x - 192) * 64 + (y - 128), [a; b]) <$> utf8_chars s2
        else None
      else match s2 with
      | [] => None
      | c :: s3 =>
        if (224 <=? x) && (x <=? 239) then
          if second_ok3 x y && cont_byte c
          then cons ((x - 224) * 4096 + (y - 128) * 64 + (byte_val c - 128), [a; b; c])
                 <$> utf8_chars s3
          else None
        else match s3 with
        | [] => None
        | d :: s4 =>
          if (240 <=? x) && (x <=? 244) then
            if second_ok4 x y && cont_byte c && cont_byte d
            then cons ((x - 240) * 262144 + (y - 128) * 4096 + (byte_val c - 128) * 64
                       + (byte_val d - 128), [a; b; c; d]) <$> utf8_chars s4
            else None
          else None
        end
      end
    end
  end.

(** [std::str::from_utf8] / [String::from_utf8]. *)
Definition from_utf8 (s : bytes) : option bytes :=
  match utf8_chars s with Some _ => Some s | None => None end.

(** [str::chars] (a [str] is well-formed by construction). *)
Definition chars (s : bytes) : list Z :=
  match utf8_chars s with Some l => map fst l | None => [] end.

(** [char::is_whitespace]: the Unicode property White_Space. *)
Definition char_is_whitespace (c : Z) : bool :=
  ((9 <=? c) && (c <=? 13)) || (c =? 32) || (c =? 133) || (c =? 160) || (c =? 5760)
  || ((8192 <=? c) && (c <=? 8202)) || (c =? 8232) || (c =? 8233) || (c =? 8239)
  || (c =? 8287) || (c =? 12288).
Definition char_is_ascii_control (c : Z) : bool := (c <=? 31) || (c =? 127).

Fixpoint drop_while {A} (p : A -> bool) (l : list A) : list A :=
  match l with
  | [] => []
  | x :: l' => if p x then drop_while p l' else l
  end.
Fixpoint take_while {A} (p : A -> bool) (l : list A) : list A :=
  match l with
  | [] => []
  | x :: l' => if p x then x :: take_while p l' else []
  end.
Definition trim_by {A} (p : A -> bool) (l : list A) : list A :=
  rev (drop_while p (rev (drop_while p l))).

(** [str::trim] and [<[u8]>::trim_ascii]. *)
Definition str_trim (s : bytes) : bytes :=
  match utf8_chars s with
  | Some l => concat (map snd (trim_by (fun c => char_is_whitespace c.1) l))
  | None => s
  end.
Definition trim_ascii (s : bytes) : bytes := trim_by is_ascii_whitespace s.

(** ** Splitting *)

Definition contains (c : byte) (s : bytes) : bool := existsb (Ascii.eqb c) s.

Fixpoint split_once (c : byte) (s : bytes) : option (bytes * bytes) :=
  match s with
  | [] => None
  | x :: s' =>
      if Ascii.eqb x c then Some ([], s')
      else '(a, r) ← split_once c s'; Some (x :: a, r)
  end.
(** Splits at the last occurrence. *)
Fixpoint rsplit_once (c : byte) (s : bytes) : option (bytes * bytes) :=
  match s with
  | [] => None
  | x :: s' =>
      match rsplit_once c s' with
      | Some (a, r) => Some (x :: a, r)
      | None => if Ascii.eqb x c then Some ([], s') else None
      end
  end.
Definition strip_prefix1 (c : byte) (s : bytes) : option bytes :=
  match s with
  | x :: s' => if Ascii.eqb x c then Some s' else None
  | [] => None
  end.
Definition strip_suffix1 (c : byte) (s : bytes) : option bytes :=
  match last s with
  | Some x => if Ascii.eqb x c then Some (removelast s) else None
  | None => None
  end.
Fixpoint starts_with (p s : bytes) : bool :=
  match p, s with
  | [], _ => true
  | a :: p', b :: s' => Ascii.eqb a b && starts_with p' s'
  | _ :: _, [] => false
  end.
Definition ends_with (p s : bytes) : bool := starts_with (rev p) (rev s).
(** [s.windows(p.len()).position(|w| w == p)], for a non-empty pattern [p]. *)
Fixpoint find_sub (p s : bytes) : option nat :=
  match s with
  | [] => None
  | _ :: s' => if starts_with p s then Some 0%nat else S <$> find_sub p s'
  end.
(** [iter().position(|b| b == c)]. *)
Fixpoint position (c : byte) (s : bytes) : option nat :=
  match s with
  | [] => None
  | x :: s' => if Ascii.eqb x c then Some 0%nat else S <$> position c s'
  end.
(** [str::split(c)] collected. *)
Fixpoint split_all (c : byte) (s : bytes) : list bytes :=
  match s with
  | [] => [[]]
  | x :: s' =>
      if Ascii.eqb x c then [] :: split_all c s'
      else match split_all c s' with
           | w :: ws => (x :: w) :: ws
           | [] => [[x]]
           end
  end.

(** ** Unsigned decimal integers *)

Definition digit_val (c : byte) : Z := byte_val c - 48.

Fixpoint parse_digits (max acc : Z) (s : bytes) : option Z :=
  match s with
  | [] => Some acc
  | c :: s' =>
      if is_ascii_digit c then
        let acc' := acc * 10 + digit_val c in
        if acc' <=? max then parse_digits max acc' s' else None
      else None
  end.
(** [str::parse::<uN>] for an unsigned type with maximum [max]: one leading
    [+] is allowed, the empty string and a lone sign are not. *)
Definition parse_unsigned (max : Z) (s : bytes) : option Z :=
  match s with
  | [] => None
  | c :: s' =>
      if Ascii.eqb c "+"%char
      then match s' with [] => None | _ => parse_digits max 0 s' end
      else parse_digits max 0 s
  end.
Definition parse_u16 : bytes -> option Z := parse_unsigned U16_MAX.
Definition parse_u32 : bytes -> option Z := parse_unsigned U32_MAX.

(** [{}] of an unsigned integer. *)
Fixpoint dec_digits (fuel : nat) (n : Z) (acc : bytes) : bytes :=
  match fuel with
  | O => acc
  | S fuel' =>
      let acc' := byte_of (48 + n mod 10) :: acc in
      if n <? 10 then acc' else dec_digits fuel' (n / 10) acc'
  end.
Definition fmt_dec (n : Z) : bytes := dec_digits (S (Z.to_nat (Z.log2 n))) n [].

(** [{:x}] and [{:02x}] of an unsigned integer. *)
Definition hex_digit (d : Z) : byte := byte_of (if d <? 10 then 48 + d else 87 + d).
Fixpoint hex_digits (fuel : nat) (n : Z) (acc : bytes) : bytes :=
  match fuel with
  | O => acc
  | S fuel' =>
      let acc' := hex_digit (n mod 16) :: acc in
      if n <? 16 then acc' else hex_digits fuel' (n / 16) acc'
  end.
Definition fmt_hex (n : Z) : bytes := hex_digits (S (Z.to_nat (Z.log2 n))) n [].
Definition fmt_hex02 (n : Z) : bytes := if n <? 16 then lit "0" ++ fmt_hex n else fmt_hex n.

(** ** IP address literals

    The recursive-descent parser of [core::net::parser]; a parser returns the
    value and the remaining input, and its caller keeps the old input on [None]. *)

Definition to_digit (radix : Z) (c : byte) : option Z :=
  let v := if is_ascii_digit c then byte_val c - 48
           else if in_range 97 102 c then byte_val c - 87
           else if in_range 65 70 c then byte_val c - 55
           else 99 in
  if v <? radix then Some v else None.

(** Digits of a number, with how many were read; [None] past [max_digits]. *)
Fixpoint read_digits (radix : Z) (max_digits : nat) (s : bytes) (count : nat) (acc : Z)
    : option (nat * Z * bytes) :=
  match s with
  | c :: s' =>
      match to_digit radix c with
      | Some d =>
          if (max_digits <? S count)%nat then None
          else read_digits radix max_digits s' (S count) (acc * radix + d)
      | None => Some (count, acc, s)
      end
  | [] => Some (count, acc, [])
  end.
Definition read_number (radix : Z) (max_digits : nat) (allow_zero_prefix : bool) (max : Z)
    (s : bytes) : option (Z * bytes) :=
  let has_leading_zero := starts_with (lit "0") s in
  '(count, v, rest) ← read_digits radix max_digits s 0%nat 0;
  if (count =? 0)%nat then None
  else if negb allow_zero_prefix && has_leading_zero && (1 <? count)%nat then None
  else if v <=? max then Some (v, rest) else None.
Definition read_separator {A} (sep : byte) (index : nat)
    (inner : bytes -> option (A * bytes)) (s : bytes) : option (A * bytes) :=
  if (index =? 0)%nat then inner s else strip_prefix1 sep s ≫= inner.

Fixpoint read_ipv4_octets (k index : nat) (s : bytes) : option (list Z * bytes) :=
  match k with
  | O => Some ([], s)
  | S k' =>
      '(o, s1) ← read_separator "."%char index (read_number 10 3 false U8_MAX) s;
      '(os, s2) ← read_ipv4_octets k' (S index) s1;
      Some (o :: os, s2)
  end.
Definition read_ipv4_addr (s : bytes) : option (list Z * bytes) := read_ipv4_octets 4 0 s.

(** [k] slots left of the group array, the next one at [index]: the groups read,
    whether they end with an embedded IPv4 address, and the remaining input. *)
Fixpoint read_groups (k index : nat) (s : bytes) : list Z * bool * bytes :=
  match k with
  | O => ([], false, s)
  | S k' =>
      match (if (1 <=? k')%nat then read_separator ":"%char index read_ipv4_addr s
             else None) with
      | Some ([o1; o2; o3; o4], s1) => ([o1 * 256 + o2; o3 * 256 + o4], true, s1)
      | _ =>
          match read_separator ":"%char index (read_number 16 4 true U16_MAX) s with
          | Some (g, s1) =>
              let '(gs, v4, s2) := read_groups k' (S index) s1 in (g :: gs, v4, s2)
          | None => ([], false, s)
          end
      end
  end.
Definition read_ipv6_addr (s : bytes) : option (list Z * bytes) :=
  let '(head, v4, s1) := read_groups 8 0 s in
  if (length head =? 8)%nat then Some (head, s1)
  else if v4 then None
  else
    s2 ← strip_prefix1 ":"%char s1;
    s3 ← strip_prefix1 ":"%char s2;
    let '(tail, _, s4) := read_groups (8 - (length head + 1)) 0 s3 in
    Some (head ++ replicate (8 - length head - length tail) 0 ++ tail, s4).

(** [s.parse::<Ipv6Addr>()]: the eight segments. *)
Definition parse_ipv6 (s : bytes) : option (list Z) :=
  match read_ipv6_addr s with Some (a, []) => Some a | _ => None end.
Definition is_ipv6 (s : bytes) : bool :=
  match parse_ipv6 s with Some _ => true | None => false end.

(** ** Lemmas *)

Lemma ascii_eqb_refl c : Ascii.eqb c c = true.
Proof. apply Ascii.eqb_refl. Qed.

Lemma ascii_eqb_ne a c : a <> c -> Ascii.eqb a c = false.
Proof. apply Ascii.eqb_neq. Qed.

Lemma contains_true c s : contains c s = true <-> c ∈ s.
Proof.
  unfold contains. rewrite existsb_exists. split.
  - intros (x & Hx & <-%Ascii.eqb_eq). by apply list_elem_of_In.
  - intros Hc. exists c. split; [by apply list_elem_of_In | apply ascii_eqb_refl].
Qed.

Lemma contains_false c s : contains c s = false <-> c ∉ s.
Proof. rewrite <- contains_true. by destruct (contains c s). Qed.

Lemma split_once_Some c s a r :
  split_once c s = Some (a, r) <-> s = a ++ c :: r /\ c ∉ a.
Proof.
  revert a r; induction s as [|x s IH]; intros a r; simpl.
  - split; [done|]. intros [E _]. by destruct a.
  - destruct (Ascii.eqb_spec x c) as [->|Hne].
    + split; [intros [= <- <-]; split; [done | set_solver]|].
      intros [E Ha]. destruct a; simplify_eq/=; [done | set_solver].
    + destruct (split_once c s) as [[a' r']|] eqn:E; simpl.
      * split.
        -- intros [= <- <-]. destruct (proj1 (IH _ _) eq_refl) as [-> Hc].
           split; [done | set_solver].
        -- intros [E2 Ha]. destruct a as [|y a]; simplify_eq/=.
           assert (Some (a', r') = Some (a, r)) as [= -> ->]; [|done].
           apply IH. split; [done | set_solver].
      * split; [done|]. intros [E2 Ha]. destruct a as [|y a]; simplify_eq/=.
        assert (@None (bytes * bytes) = Some (a, r)); [|done].
        apply IH. split; [done | set_solver].
Qed.

Lemma split_once_None c s : split_once c s = None <-> c ∉ s.
Proof.
  induction s as [|x s IH]; simpl; [set_solver|].
  destruct (Ascii.eqb_spec x c) as [->|Hne]; [set_solver|].
  destruct (split_once c s) as [[a r]|]; simpl; set_solver.
Qed.

Lemma rsplit_once_None c s : rsplit_once c s = None <-> c ∉ s.
Proof.
  induction s as [|x s IH]; simpl; [set_solver|].
  destruct (rsplit_once c s) as [[a r]|]; [set_solver|].
  destruct (Ascii.eqb_spec x c) as [->|Hne]; set_solver.
Qed.

Lemma rsplit_once_Some c s a r :
  rsplit_once c s = Some (a, r) <-> s = a ++ c :: r /\ c ∉ r.
Proof.
  revert a r; induction s as [|x s IH]; intros a r; simpl.
  - split; [done|]. intros [E _]. by destruct a.
  - destruct (rsplit_once c s) as [[a' r']|] eqn:E; simpl.
    + destruct (proj1 (IH _ _) eq_refl) as [-> Hc]. split.
      * intros [= <- <-]. done.
      * intros [E2 Hr]. destruct a as [|y a]; simplify_eq/=; [set_solver|].
        assert (Some (a', r') = Some (a, r)) as [= -> ->]; [|done].
        apply IH. done.
    + apply rsplit_once_None in E.
      destruct (Ascii.eqb_spec x c) as [->|Hne].
      * split; [intros [= <- <-]; done|].
        intros [E2 Hr]. destruct a as [|y a]; simplify_eq/=; [done | set_solver].
      * split; [done|]. intros [E2 Hr]. destruct a as [|y a]; simplify_eq/=. set_solver.
Qed.

Lemma is_ascii_digit_spec c : is_ascii_digit c = true <-> 48 <= byte_val c <= 57.
Proof. unfold is_ascii_digit, in_range. rewrite andb_true_iff, !Z.leb_le. lia. Qed.

(** Printing and re-reading an unsigned integer. *)
Lemma parse_digits_app max s : forall acc n,
  0 <= acc -> forallb is_ascii_digit s = true ->
  n = foldl (fun a c => a * 10 + digit_val c) acc s -> n <= max ->
  parse_digits max acc s = Some n.
Proof.
  induction s as [|c s IH]; intros acc n Hacc Hd -> Hle; simpl in *; [done|].
  apply andb_true_iff in Hd as [Hc Hd]. rewrite Hc.
  apply is_ascii_digit_spec in Hc.
  assert (Hmono : forall s acc, 0 <= acc -> forallb is_ascii_digit s = true ->
            acc <= foldl (fun a c => a * 10 + digit_val c) acc s).
  { clear. induction s as [|c s IH]; intros acc Hacc Hd; simpl in *; [lia|].
    apply andb_true_iff in Hd as [Hc Hd]. apply is_ascii_digit_spec in Hc.
    etrans; [|apply IH; auto]; unfold digit_val; lia. }
  assert (Hn : 0 <= acc * 10 + digit_val c) by (unfold digit_val; lia).
  specialize (Hmono s _ Hn Hd).
  replace (acc * 10 + digit_val c <=? max) with true by (symmetry; apply Z.leb_le; lia).
  by apply IH.
Qed.

Lemma dec_digits_spec fuel : forall n acc,
  0 <= n < 10 ^ Z.of_nat fuel -> (0 < fuel)%nat ->
  exists ds, dec_digits fuel n acc = ds ++ acc /\ ds <> [] /\
    forallb is_ascii_digit ds = true /\
    foldl (fun a c => a * 10 + digit_val c) 0 ds = n.
Proof.
  induction fuel as [|fuel IH]; intros n acc Hn Hf; [lia|].
  assert (Hd : byte_val (byte_of (48 + n mod 10)) = 48 + n mod 10).
  { apply byte_val_of. pose proof (Z.mod_pos_bound n 10). lia. }
  assert (Hdig : is_ascii_digit (byte_of (48 + n mod 10)) = true).
  { apply is_ascii_digit_spec. rewrite Hd. pose proof (Z.mod_pos_bound n 10). lia. }
  cbn [dec_digits]. destruct (n <? 10) eqn:E; zify_bools.
  - exists [byte_of (48 + n mod 10)]. repeat split; [done| |].
    + cbn [forallb]. by rewrite Hdig.
    + simpl. unfold digit_val. rewrite Hd, Z.mod_small; lia.
  - destruct fuel as [|fuel]; [simpl in Hn; lia|].
    destruct (IH (n / 10) (byte_of (48 + n mod 10) :: acc)) as (ds & -> & Hne & Hall & Hfold).
    + split; [apply Z.div_pos; lia|]. apply Z.div_lt_upper_bound; [lia|].
      rewrite Nat2Z.inj_succ, Z.pow_succ_r in Hn; lia.
    + lia.
    + exists (ds ++ [byte_of (48 + n mod 10)]). split; [by rewrite <- app_assoc|].
      split; [by destruct ds|]. rewrite forallb_app, foldl_app, Hfold, Hall. cbn [forallb].
      rewrite Hdig. split; [done|]. simpl. unfold digit_val. rewrite Hd.
      pose proof (Z.div_mod n 10). lia.
Qed.

Lemma fmt_dec_spec n : 0 <= n ->
  fmt_dec n <> [] /\ forallb is_ascii_digit (fmt_dec n) = true /\
  foldl (fun a c => a * 10 + digit_val c) 0 (fmt_dec n) = n.
Proof.
  intros Hn. unfold fmt_dec.
  destruct (dec_digits_spec (S (Z.to_nat (Z.log2 n))) n []) as (ds & -> & Hne & Hall & Hf).
  - split; [done|]. rewrite Nat2Z.inj_succ, Z2Nat.id by apply Z.log2_nonneg.
    destruct (decide (n = 0)) as [->|]; [done|].
    pose proof (Z.log2_spec n ltac:(lia)) as [_ Hlog].
    eapply Z.lt_le_trans; [exact Hlog|]. apply Z.pow_le_mono_l. lia.
  - lia.
  - rewrite app_nil_r. done.
Qed.

Lemma digit_not_plus s : forallb is_ascii_digit s = true ->
  match s with c :: _ => Ascii.eqb c "+"%char = false | [] => True end.
Proof.
  destruct s as [|c s]; [done|]. cbn [forallb]. intros [Hc _]%andb_true_iff.
  destruct (Ascii.eqb_spec c "+"%char) as [->|]; [by vm_compute in Hc | done].
Qed.

Lemma parse_fmt_dec max n : 0 <= n <= max -> parse_unsigned max (fmt_dec n) = Some n.
Proof.
  intros Hn. destruct (fmt_dec_spec n) as (Hne & Hd & Hf); [lia|].
  pose proof (digit_not_plus _ Hd) as Hp. unfold parse_unsigned.
  destruct (fmt_dec n) as [|c s] eqn:E; [done|]. rewrite Hp.
  apply (parse_digits_app max (c :: s)); auto; lia.
Qed.

Lemma parse_u16_fmt n : 0 <= n <= U16_MAX -> parse_u16 (fmt_dec n) = Some n.
Proof. apply parse_fmt_dec. Qed.

Lemma parse_digits_bound max s : forall acc n,
  0 <= acc <= max -> parse_digits max acc s = Some n -> 0 <= n <= max.
Proof.
  induction s as [|c s IH]; intros acc n Hacc; simpl; [by intros [= <-]|].
  destruct (is_ascii_digit c) eqn:Hc; [|done]. apply is_ascii_digit_spec in Hc.
  destruct (_ <=? max) eqn:Hle; [|done]. zify_bools.
  apply IH. unfold digit_val in *. lia.
Qed.

Lemma parse_unsigned_bound max s n :
  0 <= max -> parse_unsigned max s = Some n -> 0 <= n <= max.
Proof.
  intros Hm. unfold parse_unsigned. destruct s as [|c s]; [done|].
  destruct (Ascii.eqb c "+"%char).
  - destruct s; [done|]. apply parse_digits_bound; lia.
  - apply parse_digits_bound; lia.
Qed.

(** Every byte an IPv6 literal may hold. *)
Definition ip_char (c : byte) : bool :=
  is_ascii_hexdigit c || Ascii.eqb c ":"%char || Ascii.eqb c "."%char.

(** The parser returned [rest] after reading only address characters. *)
Definition consumes (s rest : bytes) : Prop :=
  exists used, s = used ++ rest /\ forallb ip_char used = true.

Lemma consumes_refl s : consumes s s.
Proof. by exists []. Qed.

Lemma consumes_trans a b c : consumes a b -> consumes b c -> consumes a c.
Proof.
  intros (u & -> & Hu) (v & -> & Hv). exists (u ++ v).
  rewrite forallb_app, Hu, Hv, <- app_assoc. done.
Qed.

Lemma consumes_cons c s rest : ip_char c = true -> consumes s rest -> consumes (c :: s) rest.
Proof.
  intros Hc (u & -> & Hu). exists (c :: u). split; [done|]. cbn [forallb]. by rewrite Hc.
Qed.

#[export] Hint Resolve consumes_refl : resocks.

Lemma to_digit_ip_char radix c d : to_digit radix c = Some d -> radix <= 99 -> ip_char c = true.
Proof.
  unfold to_digit, ip_char, is_ascii_hexdigit. intros H Hr.
  destruct (is_ascii_digit c); [done|]. destruct (in_range 97 102 c); [by rewrite orb_true_r|].
  destruct (in_range 65 70 c); [done|].
  destruct (99 <? radix) eqn:E; zify_bools; [lia | done].
Qed.

Lemma read_digits_consumes radix m s : radix <= 99 -> forall count acc r,
  read_digits radix m s count acc = Some r -> consumes s r.2.
Proof.
  intros Hr. induction s as [|c s IH]; intros count acc r; simpl.
  - intros [= <-]. apply consumes_refl.
  - destruct (to_digit radix c) eqn:E.
    + destruct (_ <? _)%nat; [done|]. intros H%IH.
      apply consumes_cons; [by eapply to_digit_ip_char | done].
    + intros [= <-]. apply consumes_refl.
Qed.

Lemma read_number_consumes radix m z mx s r :
  radix <= 99 -> read_number radix m z mx s = Some r -> consumes s r.2.
Proof.
  intros Hr. unfold read_number. intros H.
  destruct (read_digits radix m s 0 0) as [[[cnt v] rest]|] eqn:E; simplify_eq/=.
  apply read_digits_consumes in E; [|done].
  destruct (cnt =? 0)%nat; [done|]. destruct (negb z && _ && _)%bool; [done|].
  destruct (v <=? mx); by simplify_eq/=.
Qed.

Lemma read_separator_consumes {A} sep i (p : bytes -> option (A * bytes)) s r :
  ip_char sep = true -> (forall s r, p s = Some r -> consumes s r.2) ->
  read_separator sep i p s = Some r -> consumes s r.2.
Proof.
  intros Hs Hp. unfold read_separator. destruct (i =? 0)%nat; [apply Hp|].
  destruct s as [|c s]; simpl; [done|]. destruct (Ascii.eqb_spec c sep) as [->|]; simpl; [|done].
  intros H%Hp. by apply consumes_cons.
Qed.

Lemma read_ipv4_octets_consumes k : forall i s r,
  read_ipv4_octets k i s = Some r -> consumes s r.2.
Proof.
  induction k as [|k IH]; intros i s r; simpl.
  - intros [= <-]. apply consumes_refl.
  - intros H.
    destruct (read_separator "." i (read_number 10 3 false U8_MAX) s) as [[o s1]|] eqn:E1;
      simplify_eq/=.
    apply read_separator_consumes in E1; [|done|intros; eapply read_number_consumes; [|eassumption]; lia].
    destruct (read_ipv4_octets k (S i) s1) as [[os s2]|] eqn:E2; simplify_eq/=.
    apply IH in E2. by eapply consumes_trans.
Qed.

Lemma read_groups_consumes k : forall i s,
  consumes s (read_groups k i s).2.
Proof.
  induction k as [|k IH]; intros i s; cbn [read_groups]; [apply consumes_refl|].
  destruct (if (1 <=? k)%nat then read_separator ":" i read_ipv4_addr s else None)
    as [[os s1]|] eqn:E4; [destruct (1 <=? k)%nat; [|done]|].
  1: apply read_separator_consumes in E4;
       [|done|intros ? ? ?; by eapply read_ipv4_octets_consumes].
  1: destruct os as [|o1 [|o2 [|o3 [|o4 [|]]]]]; try exact E4.
  all: destruct (read_separator ":" i (read_number 16 4 true U16_MAX) s)
    as [[g s2]|] eqn:E6; [|apply consumes_refl].
  all: apply read_separator_consumes in E6; [|done|intros; eapply read_number_consumes; [|eassumption]; lia].
  all: specialize (IH (S i) s2); destruct (read_groups k (S i) s2) as [[gs v4] s3].
  all: by eapply consumes_trans.
Qed.

#[local] Opaque read_groups.

Lemma is_ipv6_chars s : is_ipv6 s = true -> forallb ip_char s = true.
Proof.
  unfold is_ipv6, parse_ipv6. destruct (read_ipv6_addr s) as [[a [|]]|] eqn:E; try done.
  intros _. enough (consumes s []) as (u & -> & Hu) by by rewrite app_nil_r.
  unfold read_ipv6_addr in E. pose proof (read_groups_consumes 8 0 s) as H1.
  destruct (read_groups 8 0 s) as [[head v4] s1]. cbn [snd] in H1.
  destruct (length head =? 8)%nat; [by simplify_eq/=|]. destruct v4; [done|].
  destruct s1 as [|c1 [|c2 s3]]; simpl in E; try done.
  1: by destruct (Ascii.eqb c1 ":").
  destruct (Ascii.eqb_spec c1 ":") as [->|]; simpl in E; [|done].
  destruct (Ascii.eqb_spec c2 ":") as [->|]; simpl in E; [|done].
  pose proof (read_groups_consumes (8 - (length head + 1)) 0 s3) as H2.
  destruct (read_groups (8 - (length head + 1)) 0 s3) as [[tail v4'] s4]. simplify_eq/=.
  eapply consumes_trans; [exact H1|]. by do 2 (apply consumes_cons; [done|]).
Qed.

Lemma is_ipv6_not_in c s : is_ipv6 s = true -> ip_char c = false -> c ∉ s.
Proof.
  intros H%is_ipv6_chars Hc Hin. rewrite forallb_forall in H.
  rewrite H in Hc; [done | by apply list_elem_of_In].
Qed.

Lemma not_digit_not_in c s : forallb is_ascii_digit s = true -> is_ascii_digit c = false -> c ∉ s.
Proof.
  intros H Hc Hin. rewrite forallb_forall in H.
  rewrite H in Hc; [done | by apply list_elem_of_In].
Qed.

(** ** Searching for a byte string *)

Lemma starts_with_spec p s : starts_with p s = true <-> take (length p) s = p.
Proof.
  revert s. induction p as [|a p IH]; intros [|b s]; cbn; try done.
  rewrite andb_true_iff, IH, Ascii.eqb_eq. split; [by intros [-> ->] | by intros [= -> ->]].
Qed.

Lemma starts_with_length p s : starts_with p s = true -> (length p <= length s)%nat.
Proof. rewrite starts_with_spec. intros <-. rewrite length_take. lia. Qed.

Lemma starts_with_app_le p s x : (length p <= length s)%nat ->
  starts_with p (s ++ x) = starts_with p s.
Proof.
  intros Hl. apply eq_true_iff_eq. rewrite !starts_with_spec. by rewrite take_app_le.
Qed.

Lemma starts_with_app p s x : starts_with p s = true -> starts_with p (s ++ x) = true.
Proof. intros H. rewrite starts_with_app_le; [done | by apply starts_with_length]. Qed.

(** Nothing occurs before [k]: the search may start there. *)
Lemma find_sub_skip p s k : (k <= length s)%nat ->
  (forall m, (m < k)%nat -> starts_with p (drop m s) = false) ->
  find_sub p s = Nat.add k <$> find_sub p (drop k s).
Proof.
  revert s. induction k as [|k IH]; intros s Hk H; [rewrite drop_0; by destruct (find_sub p s)|].
  destruct s as [|c s]; simpl in Hk; [lia|]. cbn [find_sub].
  pose proof (H 0%nat ltac:(lia)) as H0. rewrite drop_0 in H0. rewrite H0. cbn [drop].
  rewrite (IH s); [by destruct (find_sub p (drop k s)) | lia |].
  intros m Hm. exact (H (S m) ltac:(lia)).
Qed.

Lemma find_sub_Some p s n : find_sub p s = Some n ->
  starts_with p (drop n s) = true /\ (n + length p <= length s)%nat /\
  forall m, (m < n)%nat -> starts_with p (drop m s) = false.
Proof.
  revert n. induction s as [|c s IH]; intros n; [done|]. cbn [find_sub].
  destruct (starts_with p (c :: s)) eqn:E.
  - intros [= <-]. rewrite drop_0. split_and!; [done | by apply starts_with_length | lia].
  - destruct (find_sub p s) as [k|]; [|done]. intros [= <-].
    destruct (IH k eq_refl) as (H1 & H2 & H3). cbn [drop length]. split_and!; [done | lia |].
    intros [|m] Hm; [by rewrite drop_0 | apply H3; lia].
Qed.

Lemma find_sub_None p s : p <> [] -> find_sub p s = None -> forall m, starts_with p (drop m s) = false.
Proof.
  intros Hp. induction s as [|c s IH]; cbn [find_sub].
  { intros _ m. rewrite drop_nil. by destruct p. }
  destruct (starts_with p (c :: s)) eqn:E; [done|].
  destruct (find_sub p s); [done|]. intros _ [|m]; [done | by apply IH].
Qed.

(** An occurrence is found at the same place whatever follows it. *)
Lemma find_sub_app p s x n :
  find_sub p s = Some n -> find_sub p (s ++ x) = Some n /\ (n + length p <= length s)%nat.
Proof.
  revert n. induction s as [|c s IH]; intros n; [done|]. cbn [find_sub app].
  destruct (starts_with p (c :: s)) eqn:E.
  - intros [= <-]. rewrite (starts_with_app p (c :: s) x E : starts_with p (c :: s ++ x) = true).
    split; [done|]. by apply starts_with_length in E.
  - destruct (find_sub p s) as [m|] eqn:Em; [|done]. intros [= <-].
    destruct (IH m eq_refl) as [Hf Hl]. cbn [length]. split; [|lia].
    change (c :: s ++ x) with ((c :: s) ++ x).
    rewrite starts_with_app_le, E, Hf by (cbn; lia). done.
Qed.

(** Searching again from just before what arrived finds what a full search finds:
    the last [length p - 1] bytes are all an occurrence can reach back into. *)
Lemma find_sub_extend p s x : p <> [] -> find_sub p s = None ->
  let k := (length s - (length p - 1))%nat in
  find_sub p (s ++ x) = Nat.add k <$> find_sub p (drop k (s ++ x)).
Proof.
  intros Hp Hs k. apply find_sub_skip; [unfold k; rewrite length_app; lia|]. intros m Hm.
  assert (Hl : (0 < length p)%nat) by (destruct p; simpl; [done|lia]).
  unfold k in Hm. rewrite drop_app_le by lia.
  rewrite starts_with_app_le by (rewrite length_drop; lia). by apply find_sub_None.
Qed.

Example ipv6_ok : parse_ipv6 (lit "2001:db8::1") = Some [8193; 3512; 0; 0; 0; 0; 0; 1].
Proof. reflexivity. Qed.
Example ipv6_v4 : parse_ipv6 (lit "::ffff:1.2.3.4") = Some [0; 0; 0; 0; 0; 65535; 258; 772].
Proof. reflexivity. Qed.
Example ipv6_bad : map (is_ipv6 ∘ lit)
  ["1:2:3:4:5:6:7"; "1::2::3"; ":::"; "12345::"; "::1]"; ""; "1.2.3.4"; "1:2:3:4:5:6:7:8:9"]
  = repeat false 8.
Proof. reflexivity. Qed.
Example ipv6_good : map (is_ipv6 ∘ lit)
  ["::"; "1::"; "1:2:3:4:5:6:7:8"; "1:2:3:4:5:6:7::"; "1:2:3:4:5:6:1.2.3.4"; "fe80::1"]
  = repeat true 6.
Proof. reflexivity. Qed.
Example utf8_ex : chars (map byte_of [208; 159; 226; 130; 172; 240; 159; 152; 128]) =
  [1055; 8364; 128512].
Proof. reflexivity. Qed.
Example dec_ex : fmt_dec 65535 = lit "65535" /\ fmt_dec 0 = lit "0" /\ fmt_dec 443 = lit "443".
Proof. repeat split. Qed.
