(* ===== verification/HostPort.v ===== *)
(** * HostPort: canonical [host:port] pairs

    Model of [connect/util/host_port.rs].  The host is stored without brackets;
    [parse] accepts [[ipv6]:port], bare [ipv6:port], [ipv4:port] and
    [domain:port], and [format] writes the bracketed form for IPv6 hosts. *)
From S2P Require Import Prelude Text.

Module HostPort.

Record t := mk { host : bytes; port : Z }.

#[export] Instance t_eq_dec : EqDecision t.
Proof. solve_decision. Defined.

Definition parse (s : bytes) : option t :=
  match strip_prefix1 "["%char s with
  | Some rest =>
      '(host, after) ← split_once "]"%char rest;
      if is_ipv6 host then
        port ← strip_prefix1 ":"%char after;
        p ← parse_u16 port;
        Some (mk host p)
      else None
  | None =>
      '(host, port) ← rsplit_once ":"%char s;
      if (if contains ":"%char host then is_ipv6 host else negb (bool_decide (host = [])))
      then p ← parse_u16 port; Some (mk host p)
      else None
  end.

Definition format (host : bytes) (port : Z) : bytes :=
  if is_ipv6 host then lit "[" ++ host ++ lit "]:" ++ fmt_dec port
  else host ++ lit ":" ++ fmt_dec port.

(** What a stored host looks like: an IPv6 literal, or a non-empty name that
    holds no colon and does not open with a bracket. *)
Definition host_ok (h : bytes) : bool :=
  is_ipv6 h ||
  (negb (bool_decide (h = [])) && negb (contains ":"%char h)
   && negb (starts_with (lit "[") h)).

Lemma strip_prefix1_Some c s r : strip_prefix1 c s = Some r <-> s = c :: r.
Proof.
  destruct s as [|x s]; simpl; [done|].
  destruct (Ascii.eqb_spec x c) as [->|Hne]; naive_solver.
Qed.

Lemma strip_prefix1_None c s : strip_prefix1 c s = None <-> starts_with [c] s = false.
Proof.
  destruct s as [|x s]; simpl; [done|]. rewrite andb_true_r, (Ascii.eqb_sym c x).
  by destruct (Ascii.eqb x c).
Qed.

Lemma parse_ok s hp : parse s = Some hp -> host_ok (host hp) = true /\ 0 <= port hp <= U16_MAX.
Proof.
  unfold parse. destruct (strip_prefix1 "[" s) as [rest|] eqn:Epre.
  - destruct (split_once "]" rest) as [[h after]|]; [|done]. simpl.
    destruct (is_ipv6 h) eqn:Eip; [|done].
    destruct (strip_prefix1 ":" after) as [p|]; [|done]. simpl.
    destruct (parse_u16 p) as [v|] eqn:Ep; [|done]. intros [= <-].
    unfold host_ok. simpl. rewrite Eip. split; [done|].
    by apply parse_unsigned_bound in Ep.
  - apply strip_prefix1_None in Epre.
    destruct (rsplit_once ":" s) as [[h p]|] eqn:Es; [|done]. simpl.
    apply rsplit_once_Some in Es as [-> _].
    assert (Hgoal : (if contains ":" h then is_ipv6 h else negb (bool_decide (h = []))) = true ->
              host_ok h = true).
    { unfold host_ok. destruct (contains ":" h); [by intros ->|].
      destruct h as [|x h]; [done|].
      change (starts_with (lit "[") (x :: h)) with (Ascii.eqb "[" x && true).
      change (Ascii.eqb "[" x && true = false) in Epre. rewrite Epre. by rewrite orb_true_r. }
    destruct (contains ":" h);
      [destruct (is_ipv6 h) eqn:Eg | destruct (bool_decide (h = [])) eqn:Eg]; try done.
    all: cbn [negb]; destruct (parse_u16 p) as [v|] eqn:Ep; [|done]; intros [= <-]; simpl.
    all: split; [auto | by apply parse_unsigned_bound in Ep].
Qed.

Lemma parse_bracketed h p : is_ipv6 h = true -> 0 <= p <= U16_MAX ->
  parse (lit "[" ++ h ++ lit "]:" ++ fmt_dec p) = Some (mk h p).
Proof.
  intros Eip Hp. destruct (fmt_dec_spec p) as (Hne & Hd & _); [lia|]. unfold parse.
  change (lit "[" ++ h ++ lit "]:" ++ fmt_dec p)
    with ("["%char :: h ++ "]"%char :: ":"%char :: fmt_dec p).
  rewrite (proj2 (strip_prefix1_Some _ _ _) eq_refl).
  rewrite (proj2 (split_once_Some _ _ h (":"%char :: fmt_dec p))).
  2: { split; [done | by apply is_ipv6_not_in]. }
  simpl. rewrite Eip. simpl. by rewrite (parse_u16_fmt p Hp).
Qed.

Lemma parse_plain h p : h <> [] -> contains ":"%char h = false ->
  starts_with (lit "[") h = false -> 0 <= p <= U16_MAX ->
  parse (h ++ lit ":" ++ fmt_dec p) = Some (mk h p).
Proof.
  intros Hh Hc Hb Hp. destruct (fmt_dec_spec p) as (Hne & Hd & _); [lia|]. unfold parse.
  rewrite (proj2 (strip_prefix1_None _ _)).
  2: { destruct h; [done|]. done. }
  rewrite (proj2 (rsplit_once_Some _ _ h (fmt_dec p))).
  2: { split; [done | by apply not_digit_not_in]. }
  simpl. rewrite Hc. rewrite bool_decide_eq_false_2 by done. simpl.
  by rewrite (parse_u16_fmt p Hp).
Qed.

Lemma parse_format h p :
  host_ok h = true -> 0 <= p <= U16_MAX -> parse (format h p) = Some (mk h p).
Proof.
  intros Hh Hp. unfold format, host_ok in *.
  destruct (is_ipv6 h) eqn:Eip; [by apply parse_bracketed|].
  simpl in Hh. zify_bools. apply parse_plain; try done.
Qed.

#[local] Opaque is_ipv6.

(** A parsed pair survives printing: [HostPort::format] of what
    [HostPort::parse] returned parses back to the same host and port. *)
Theorem format_parse_roundtrip s hp :
  parse s = Some hp -> parse (format (host hp) (port hp)) = Some hp.
Proof.
  intros [Hh Hp]%parse_ok. destruct hp as [h p]. by apply parse_format.
Qed.

Lemma format_parse_roundtrip_witness :
  parse (lit "2001:db8::1:443") = Some (mk (lit "2001:db8::1") 443) /\
  format (lit "2001:db8::1") 443 = lit "[2001:db8::1]:443" /\
  parse (format (lit "2001:db8::1") 443) = Some (mk (lit "2001:db8::1") 443).
Proof.
  split; [reflexivity|]. split; [reflexivity|].
  apply (format_parse_roundtrip (lit "2001:db8::1:443") (mk (lit "2001:db8::1") 443)).
  reflexivity.
Defined.

End HostPort.
