(* ===== verification/ProxyTypes.v ===== *)
(** * ProxyTypes: proxy descriptors, chains, validation and list lines

    Model of [types/proxy_protocol.rs], [types/proxy_config.rs],
    [types/chain.rs], [types/validate.rs] and
    [connect/util/parse_proxy_str.rs].  An [Arc<ProxyConfig>] is the value it
    points to: configurations are never mutated behind an [Arc]. *)
From S2P Require Import Prelude Text HostPort.

Inductive ProxyProtocol := Socks5 | Http | Https.

#[export] Instance ProxyProtocol_eq_dec : EqDecision ProxyProtocol.
Proof. solve_decision. Defined.

(** [{:?}] of the protocol. *)
Definition protocol_debug (p : ProxyProtocol) : bytes :=
  match p with Socks5 => lit "Socks5" | Http => lit "Http" | Https => lit "Https" end.

Inductive ProxyConfig := mkProxyConfig {
  protocol : ProxyProtocol;
  host : bytes;
  port : Z;
  user : option bytes;
  password : option bytes;
  gate_level : Z;
  is_gate : bool;
  gate : option ProxyConfig
}.

(** ** Construction *)

Definition set_gate (g : option ProxyConfig) (p : ProxyConfig) : ProxyConfig :=
  mkProxyConfig (protocol p) (host p) (port p) (user p) (password p) (gate_level p)
    (is_gate p) g.

(** [ProxyConfig::new]: surrounding brackets are stripped from the host. *)
Definition new (protocol : ProxyProtocol) (host : bytes) (port : Z) : ProxyConfig :=
  let host :=
    if (2 <=? length host)%nat && starts_with (lit "[") host && ends_with (lit "]") host
    then tail (removelast host) else host in
  mkProxyConfig protocol host port None None 0 false None.

Definition with_auth (p : ProxyConfig) (user password : bytes) : ProxyConfig :=
  mkProxyConfig (protocol p) (host p) (port p) (Some user) (Some password) (gate_level p)
    (is_gate p) (gate p).
Definition with_gate (p g : ProxyConfig) : ProxyConfig := set_gate (Some g) p.
Definition set_gate_marks (level : Z) (flag : bool) (p : ProxyConfig) : ProxyConfig :=
  mkProxyConfig (protocol p) (host p) (port p) (user p) (password p) level flag (gate p).
Definition as_gate (p : ProxyConfig) : ProxyConfig :=
  set_gate_marks (Z.max (gate_level p) 1) true p.
Definition with_gate_level (p : ProxyConfig) (level : Z) : ProxyConfig :=
  set_gate_marks level (0 <? level) p.

(** ** Chains *)

(** The nodes met by following [gate] links, this entry first. *)
Fixpoint gate_walk (p : ProxyConfig) : list ProxyConfig :=
  p :: match gate p with Some g => gate_walk g | None => [] end.

(** [ProxyConfig::nodes]: outermost first, exit last. *)
Definition nodes (p : ProxyConfig) : list ProxyConfig := rev (gate_walk p).
Definition chain_nodes (p : ProxyConfig) : list ProxyConfig := nodes p.

Fixpoint chain_len (p : ProxyConfig) : nat :=
  S match gate p with Some g => chain_len g | None => 0%nat end.
Fixpoint outermost (p : ProxyConfig) : ProxyConfig :=
  match gate p with Some g => outermost g | None => p end.

(** [ProxyConfig::chain]: links nodes given outermost first. *)
Definition chain (ns : list ProxyConfig) : option ProxyConfig :=
  foldl (fun acc node => Some (set_gate acc node)) None ns.

(** ** Identity keys *)

(** The fields [ChainKey] compares and hashes for one node. *)
Definition ident (p : ProxyConfig)
    : ProxyProtocol * bytes * Z * option bytes * option bytes * Z :=
  (protocol p, host p, port p, user p, password p, gate_level p).

(** [same_node] of [session/chain/mod.rs]. *)
Definition same_node (a b : ProxyConfig) : bool :=
  bool_decide (protocol a = protocol b) && bool_decide (host a = host b)
  && (port a =? port b) && bool_decide (user a = user b)
  && bool_decide (password a = password b) && (gate_level a =? gate_level b).

(** [ChainKey]: the exit configuration, compared along the whole chain. *)
Inductive ChainKey := mkChainKey { exit : ProxyConfig }.

Fixpoint key_eq_from (a : ProxyConfig) (b : ProxyConfig) : bool :=
  if negb (bool_decide (protocol a = protocol b)) || negb (bool_decide (host a = host b))
     || negb (port a =? port b) || negb (bool_decide (user a = user b))
     || negb (bool_decide (password a = password b))
     || negb (gate_level a =? gate_level b)
  then false
  else match gate a, gate b with
       | Some a', Some b' => key_eq_from a' b'
       | None, None => true
       | _, _ => false
       end.
Definition key_eqb (a b : ChainKey) : bool := key_eq_from (exit a) (exit b).

(** What [Hash for ChainKey] feeds to the hasher. *)
Definition key_hash_input (k : ChainKey) :=
  let ns := nodes (exit k) in
  (length ns,
   map (fun n => (protocol n, host n, port n, user n, password n, gate_level n)) ns).

(** ** Validation *)

Inductive CredentialField := Username | Password.

Inductive ProxyConfigError :=
| EmptyHost
| InvalidHost
| ZeroPort
| IncompleteCredentials
| EmptyCredential (field : CredentialField)
| CredentialTooLong (field : CredentialField) (len : nat)
| UsernameContainsColon
| ControlCharacter (field : CredentialField)
| InconsistentGateFlag.

Inductive ChainConfigError := mkChainConfigError { node : nat; kind : ProxyConfigError }.

Definition check_socks_field (f : CredentialField) (value : bytes)
    : result ProxyConfigError unit :=
  let len := length value in
  if (len =? 0)%nat then Err (EmptyCredential f)
  else if (255 <? len)%nat then Err (CredentialTooLong f len)
  else Ok tt.
Definition check_http_field (f : CredentialField) (value : bytes)
    : result ProxyConfigError unit :=
  if existsb char_is_ascii_control (chars value) then Err (ControlCharacter f) else Ok tt.

Definition validate_pair (protocol : ProxyProtocol) (user password : bytes)
    : result ProxyConfigError unit :=
  match protocol with
  | Socks5 =>
      _ ← check_socks_field Username user;
      check_socks_field Password password
  | Http | Https =>
      if contains ":"%char user then Err UsernameContainsColon
      else
        _ ← check_http_field Username user;
        check_http_field Password password
  end.

Definition is_host_char_forbidden (c : Z) : bool :=
  char_is_ascii_control c || char_is_whitespace c || (c =? 47) || (c =? 64).

Definition validate_node (p : ProxyConfig) : result ProxyConfigError unit :=
  if bool_decide (host p = []) then Err EmptyHost
  else if existsb is_host_char_forbidden (chars (host p)) then Err InvalidHost
  else if port p =? 0 then Err ZeroPort
  else if negb (Bool.eqb (is_gate p) (0 <? gate_level p)) then Err InconsistentGateFlag
  else match user p, password p with
       | None, None => Ok tt
       | Some _, None | None, Some _ => Err IncompleteCredentials
       | Some u, Some w => validate_pair (protocol p) u w
       end.

(** The loop of [ProxyConfig::validate] over the remaining nodes. *)
Fixpoint validate_nodes (index : nat) (ns : list ProxyConfig)
    : result ChainConfigError unit :=
  match ns with
  | [] => Ok tt
  | n :: ns' =>
      match validate_node n with
      | Err k => Err (mkChainConfigError index k)
      | Ok _ => validate_nodes (S index) ns'
      end
  end.
Definition validate (p : ProxyConfig) : result ChainConfigError unit :=
  validate_nodes 0 (nodes p).

Definition try_with_auth (p : ProxyConfig) (user password : bytes)
    : result ProxyConfigError ProxyConfig :=
  _ ← validate_pair (protocol p) user password;
  Ok (with_auth p user password).

(** ** Upstream-list lines *)

Inductive ParseProxyError := Empty | Comment | BadHostPort | BadGate.

(** The [creds@rest] split of a line whose markers are gone. *)
Definition split_creds (conn_str : bytes) : result ParseProxyError (option bytes * bytes) :=
  match split_once "@"%char conn_str with
  | Some (creds, rest) =>
      if negb (contains "@"%char rest) then Ok (Some creds, rest) else Err BadHostPort
  | None => Ok (None, conn_str)
  end.
Definition split_user (creds : option bytes)
    : result ParseProxyError (option bytes * option bytes) :=
  match creds with
  | Some creds =>
      '(u, w) ← ok_or BadHostPort (split_once ":"%char creds);
      Ok (Some u, Some w)
  | None => Ok (None, None)
  end.

Definition parse_proxy_str (conn_str : bytes) (protocol : ProxyProtocol)
    : result ParseProxyError ProxyConfig :=
  if bool_decide (str_trim conn_str = []) then Err Empty
  else if starts_with (lit "#") conn_str then Err Comment
  else
    let marker_count := length (take_while (Ascii.eqb "*"%char) conn_str) in
    if (255 <? marker_count)%nat then Err BadGate
    else
      let gate_level := Z.of_nat marker_count in
      let conn_str := drop marker_count conn_str in
      if (0 <? marker_count)%nat && bool_decide (conn_str = []) then Err BadGate
      else
        let is_gate := 0 <? gate_level in
        '(creds, host_port) ← split_creds conn_str;
        '(user, password) ← split_user creds;
        hp ← ok_or BadHostPort (HostPort.parse host_port);
        let cfg := new protocol (HostPort.host hp) (HostPort.port hp) in
        Ok (mkProxyConfig protocol (host cfg) (port cfg) user password gate_level is_gate
              (gate cfg)).

Example parse_ex :
  parse_proxy_str (lit "**bob:a:b@[2001:db8::1]:1080") Socks5 =
  Ok (mkProxyConfig Socks5 (lit "2001:db8::1") 1080 (Some (lit "bob")) (Some (lit "a:b"))
        2 true None).
Proof. reflexivity. Qed.
Example parse_ex_err :
  map (fun s => parse_proxy_str (lit s) Http)
    ["  "; "# x"; "**"; "a@b@c:1"; "nocolon@h:1"; "h:99999"; "*:80"] =
  [Err Empty; Err Comment; Err BadGate; Err BadHostPort; Err BadHostPort; Err BadHostPort;
   Err BadHostPort].
Proof. reflexivity. Qed.

(** ** Lemmas *)

(** Induction along the [gate] links. *)
Lemma proxy_ind (P : ProxyConfig -> Prop) :
  (forall p, (forall g, gate p = Some g -> P g) -> P p) -> forall p, P p.
Proof.
  intros Hstep. fix IH 1. intros p. apply Hstep.
  destruct p as [pr h po u w l f g]. simpl. intros g' Hg.
  destruct g as [g0|]; [|discriminate Hg]. injection Hg as <-. apply IH.
Qed.

Lemma gate_walk_eq p :
  gate_walk p = p :: match gate p with Some g => gate_walk g | None => [] end.
Proof. by destruct p. Qed.

Lemma chain_len_eq p :
  chain_len p = S match gate p with Some g => chain_len g | None => 0%nat end.
Proof. by destruct p. Qed.

Lemma outermost_eq p :
  outermost p = match gate p with Some g => outermost g | None => p end.
Proof. by destruct p. Qed.

Lemma key_eq_from_eq a b :
  key_eq_from a b =
  same_node a b &&
  match gate a, gate b with
  | Some a', Some b' => key_eq_from a' b'
  | None, None => true
  | _, _ => false
  end.
Proof.
  destruct a as [pa ha oa ua wa la fa ga]. cbn [key_eq_from gate]. unfold same_node.
  cbn [protocol host port user password gate_level].
  repeat match goal with |- context [bool_decide ?P] => destruct (bool_decide P) end.
  all: destruct (oa =? port b); destruct (la =? gate_level b); try done.
Qed.

Lemma ident_set_gate g p : ident (set_gate g p) = ident p.
Proof. done. Qed.

Lemma same_node_spec a b : same_node a b = true <-> ident a = ident b.
Proof.
  unfold same_node, ident. rewrite !andb_true_iff, !bool_decide_eq_true, !Z.eqb_eq.
  split; [intros [[[[[-> ->] ->] ->] ->] ->]; done | by intros [= -> -> -> -> -> ->]].
Qed.

Lemma set_gate_self p : set_gate (gate p) p = p.
Proof. by destruct p. Qed.

Lemma nodes_nonempty p : nodes p <> [].
Proof.
  unfold nodes. rewrite gate_walk_eq. simpl. intros H. by apply app_eq_nil in H as [_ ?].
Qed.

Lemma nodes_snoc p :
  nodes p = match gate p with Some g => nodes g | None => [] end ++ [p].
Proof. unfold nodes. rewrite gate_walk_eq. simpl. by destruct (gate p). Qed.

Lemma chain_snoc ns n : chain (ns ++ [n]) = Some (set_gate (chain ns) n).
Proof. unfold chain. by rewrite foldl_app. Qed.

(** [chain] and [nodes] are inverse: re-linking the nodes of any
    configuration gives it back. *)
Theorem chain_of_nodes p : chain (nodes p) = Some p.
Proof.
  induction p as [p IH] using proxy_ind. rewrite nodes_snoc, chain_snoc.
  rewrite <- (set_gate_self p) at 3. do 2 f_equal.
  destruct (gate p) as [g|] eqn:E; [|done]. by apply IH.
Qed.

(** The nodes of a linked chain are the given nodes, in order, up to the gate
    link that [chain] overwrites. *)
Lemma nodes_of_chain ns p :
  chain ns = Some p -> map (set_gate None) (nodes p) = map (set_gate None) ns.
Proof.
  revert p. induction ns as [|n ns IH] using rev_ind; intros p; [done|].
  rewrite chain_snoc. intros [= <-]. rewrite nodes_snoc, !map_app. cbn [gate set_gate].
  destruct (chain ns) as [q|] eqn:E.
  - f_equal. by apply IH.
  - destruct ns as [|m ns] using rev_ind; [done|]. by rewrite chain_snoc in E.
Qed.

Lemma chain_Some ns : ns <> [] -> is_Some (chain ns).
Proof.
  destruct ns as [|n ns] using rev_ind; [done|]. rewrite chain_snoc. eauto.
Qed.

Lemma nodes_of_chain_ident ns p : chain ns = Some p -> map ident (nodes p) = map ident ns.
Proof.
  intros H%nodes_of_chain. apply (f_equal (map ident)) in H.
  by rewrite !map_map in H.
Qed.

Lemma chain_len_nodes p : chain_len p = length (nodes p).
Proof.
  unfold nodes. rewrite length_rev. induction p as [p IH] using proxy_ind.
  rewrite chain_len_eq, gate_walk_eq. destruct (gate p) as [g|]; simpl; [|done].
  by rewrite (IH g).
Qed.

Lemma outermost_nodes p : head (nodes p) = Some (outermost p).
Proof.
  induction p as [p IH] using proxy_ind. rewrite nodes_snoc, outermost_eq.
  destruct (gate p) as [g|] eqn:E; [|done].
  specialize (IH g eq_refl). pose proof (nodes_nonempty g). by destruct (nodes g).
Qed.

Lemma key_eq_from_spec a b :
  key_eq_from a b = true <-> map ident (gate_walk a) = map ident (gate_walk b).
Proof.
  revert b. induction a as [a IH] using proxy_ind. intros b.
  rewrite key_eq_from_eq, (gate_walk_eq a), (gate_walk_eq b). cbn [map].
  rewrite andb_true_iff, same_node_spec.
  destruct (gate a) as [ga|] eqn:Ea; destruct (gate b) as [gb|] eqn:Eb.
  - rewrite (IH ga eq_refl gb). split; [intros [-> ->]; done | intros [= H1 H2]]. split; [|done].
    unfold ident. congruence.
  - rewrite (gate_walk_eq ga). split; [by intros [_ ?] | by intros [=]].
  - rewrite (gate_walk_eq gb). split; [by intros [_ ?] | by intros [=]].
  - cbn [map]. split; [intros [-> _]; done | intros H]. split; [|done].
    unfold ident in *. congruence.
Qed.

(** Keys are equal exactly when the two chains have the same node identities in
    the same order. *)
Lemma key_eqb_spec a b :
  key_eqb a b = true <-> map ident (nodes (exit a)) = map ident (nodes (exit b)).
Proof.
  unfold key_eqb, nodes. rewrite key_eq_from_spec, !map_rev. split; [by intros ->|].
  intros H. by rewrite <- (rev_involutive (map ident (gate_walk (exit a)))), H,
    rev_involutive.
Qed.

Definition key_equiv (a b : ChainKey) : Prop := key_eqb a b = true.

#[export] Instance key_equiv_equivalence : Equivalence key_equiv.
Proof.
  split; unfold key_equiv.
  - intros a. by apply key_eqb_spec.
  - intros a b. rewrite !key_eqb_spec. done.
  - intros a b c. rewrite !key_eqb_spec. congruence.
Qed.

#[export] Instance key_eqb_proper : Proper (key_equiv ==> key_equiv ==> eq) key_eqb.
Proof.
  intros a a' Ha b b' Hb. apply eq_true_iff_eq. split; intros H.
  - change (key_equiv a' b'). by rewrite <- Ha, <- Hb.
  - change (key_equiv a b). by rewrite Ha, Hb.
Qed.

(** [ChainKey] satisfies the contract hash maps rely on: its [Eq] is
    exactly equality of the hasher's input, so equal keys always hash equally
    and, for a collision-free hasher, only they do. *)
Lemma chain_key_hash_consistent a b :
  key_eqb a b = true <-> key_hash_input a = key_hash_input b.
Proof.
  rewrite key_eqb_spec. unfold key_hash_input. fold ident. split.
  - intros H. f_equal; [|exact H].
    by rewrite <- (length_map ident), H, length_map.
  - by intros [= _ H].
Qed.

Lemma validate_nodes_spec i ns :
  match validate_nodes i ns with
  | Ok _ => Forall (fun n => validate_node n = Ok tt) ns
  | Err e => (i <= node e)%nat /\ exists n, ns !! (node e - i)%nat = Some n /\
      validate_node n = Err (kind e) /\
      Forall (fun m => validate_node m = Ok tt) (take (node e - i) ns)
  end.
Proof.
  revert i. induction ns as [|n ns IH]; intros i; simpl; [by constructor|].
  destruct (validate_node n) as [[]|k] eqn:E.
  - specialize (IH (S i)). destruct (validate_nodes (S i) ns) as [[]|e]; [by constructor|].
    destruct IH as (Hi & m & Hm & Hk & Hall). split; [lia|]. exists m.
    replace (node e - i)%nat with (S (node e - S i))%nat by lia. simpl. eauto.
  - simpl. split; [lia|]. exists n. rewrite Nat.sub_diag. simpl. eauto.
Qed.

(** [validate] accepts a chain exactly when every node is valid on its own,
    and otherwise reports the first bad node, outermost first, with that node's
    own error. *)
Lemma validate_first_bad_node p :
  match validate p with
  | Ok _ => Forall (fun n => validate_node n = Ok tt) (nodes p)
  | Err e => exists n, nodes p !! node e = Some n /\ validate_node n = Err (kind e) /\
      Forall (fun m => validate_node m = Ok tt) (take (node e) (nodes p))
  end.
Proof.
  unfold validate. pose proof (validate_nodes_spec 0 (nodes p)) as H.
  destruct (validate_nodes 0 (nodes p)) as [[]|e]; [done|].
  destruct H as [_ H]. by rewrite Nat.sub_0_r in H.
Qed.

(** What every parsed list line guarantees. *)
Definition line_wf (p : ProxyConfig) : Prop :=
  0 <= port p <= U16_MAX /\ 0 <= gate_level p <= U8_MAX /\
  is_gate p = (0 <? gate_level p) /\ gate p = None /\
  (is_Some (user p) <-> is_Some (password p)) /\ host p <> [] /\
  (forall u, user p = Some u -> ":"%char ∉ u /\ "@"%char ∉ u).

#[local] Opaque is_ipv6.

Lemma new_bare protocol hp :
  HostPort.host_ok hp = true -> host (new protocol hp 0) = hp.
Proof.
  intros Hok. unfold new. cbn [host].
  destruct (starts_with (lit "[") hp) eqn:E; [|by rewrite andb_false_r].
  exfalso. unfold HostPort.host_ok in Hok. rewrite E in Hok.
  rewrite andb_false_r, orb_false_r in Hok. destruct hp as [|c h]; [done|].
  apply is_ipv6_not_in with (c := "["%char) in Hok; [|done].
  change (Ascii.eqb "[" c && true = true) in E.
  destruct (Ascii.eqb_spec "["%char c) as [<-|]; [|done]. set_solver.
Qed.

Lemma split_creds_spec s c r :
  split_creds s = Ok (c, r) -> match c with Some c => "@"%char ∉ c | None => True end.
Proof.
  unfold split_creds. destruct (split_once "@" s) as [[a b]|] eqn:E; [|by intros [= <- <-]].
  apply split_once_Some in E as [_ Ha]. destruct (negb _); by intros [= <- <-].
Qed.

Lemma split_user_spec c u w :
  match c with Some c => "@"%char ∉ c | None => True end ->
  split_user c = Ok (u, w) ->
  (is_Some u <-> is_Some w) /\ (forall x, u = Some x -> ":"%char ∉ x /\ "@"%char ∉ x).
Proof.
  intros Hc. unfold split_user. destruct c as [c|].
  - destruct (split_once ":" c) as [[a b]|] eqn:E; [|done].
    apply split_once_Some in E as [-> Ha]. intros [= <- <-].
    split; [split; eauto|]. intros x [= <-]. split; [done | set_solver].
  - intros [= <- <-]. split; [done | by intros x [=]].
Qed.

(** A list line that parses gives a well-formed, gate-less descriptor: the
    port is a [u16], the level a [u8] that agrees with the gate flag, the
    credentials come in pairs, and the host is never empty. *)
Theorem parse_proxy_str_wf s proto p : parse_proxy_str s proto = Ok p -> line_wf p.
Proof.
  unfold parse_proxy_str. intros H.
  destruct (bool_decide (str_trim s = [])); [done|].
  destruct (starts_with (lit "#") s); [done|].
  destruct (255 <? _)%nat eqn:Hm in H; [done|]. destruct (_ && _)%bool in H; [done|].
  destruct (split_creds _) as [[c hp]|] eqn:Ec in H; [|done].
  destruct (split_user c) as [[u w]|] eqn:Eu; cbn in H; [|by rewrite Eu in H].
  rewrite Eu in H. cbn in H.
  destruct (HostPort.parse hp) as [[h po]|] eqn:Eh; [|done]. cbn in H. injection H as <-.
  apply HostPort.parse_ok in Eh as [Hh Hp].
  apply split_creds_spec in Ec. destruct (split_user_spec _ _ _ Ec Eu) as [Hpair Huser].
  pose proof (new_bare proto h Hh) as Hnew. cbn in Hnew, Hh, Hp.
  apply Nat.ltb_ge in Hm.
  repeat split; cbn; try apply Hpair; try (unfold U8_MAX; lia); try by apply Huser.
  rewrite Hnew. by destruct h.
Qed.

Lemma parse_proxy_str_wf_witness :
  parse_proxy_str (lit "*u:p@h:1080") Http =
    Ok (mkProxyConfig Http (lit "h") 1080 (Some (lit "u")) (Some (lit "p")) 1 true None) /\
  line_wf (mkProxyConfig Http (lit "h") 1080 (Some (lit "u")) (Some (lit "p")) 1 true None).
Proof.
  split; [reflexivity|]. apply (parse_proxy_str_wf (lit "*u:p@h:1080") Http). reflexivity.
Defined.
