(* ===== verification/Errors.v ===== *)
(** * Errors: typed connect errors and their classification

    Model of [error/mod.rs], [error/classify.rs] and
    [session/pool/proxy_pool/error.rs], built with the [tls] and [pool]
    features.  An [io::Error] is represented by its display text. *)
From S2P Require Import Prelude Text ProxyTypes.

Inductive Stage := StageConnect | StageHandshake | StageTotal.

Inductive TimeoutKind :=
| TcpConnect | Socks5Handshake | HttpHandshake | HttpsTlsHandshake
| HttpsConnectHandshake | Total.

Inductive ProtocolViolation :=
| Socks5BadVersion (got : Z)
| Socks5BadAuthVersion (got : Z)
| Socks5UnknownAddressType (got : Z)
| Socks5BadReserved (got : Z)
| Socks5EmptyBoundDomain
| Socks5DomainTooLong (len : nat)
| Socks5CredentialsTooLong (username_len password_len : nat)
| HttpInvalidConnectTarget
| HttpResponseTooLarge
| HttpClosedEarly.

(** The pool's [AtCapacity]: host and port of the upstream whose cap was hit. *)
Record AtCapacity := mkAtCapacity { cap_host : bytes; cap_port : Z }.

Record IoError := mkIoError { io_text : bytes }.

Inductive ConnectError :=
| Timeout (stage : Stage) (kind : TimeoutKind) (endpoint : bytes) (after : Z)
| Io (stage : Stage) (endpoint : option bytes) (source : IoError)
| ProxyRejected (protocol : ProxyProtocol) (code : option Z) (response : bytes)
| AuthFailed (status : Z)
| MethodUnsupported (got : Z) (with_auth : bool)
| Protocol (violation : ProtocolViolation)
| InvalidTarget (target : bytes)
| TlsFeatureMissing (host : bytes)
| Tls (message : bytes) (source : option IoError)
| AtCapacityError (cap : AtCapacity).

#[export] Instance Stage_eq_dec : EqDecision Stage.
Proof. solve_decision. Defined.
#[export] Instance TimeoutKind_eq_dec : EqDecision TimeoutKind.
Proof. solve_decision. Defined.
#[export] Instance ProtocolViolation_eq_dec : EqDecision ProtocolViolation.
Proof. solve_decision. Defined.
#[export] Instance AtCapacity_eq_dec : EqDecision AtCapacity.
Proof. solve_decision. Defined.
#[export] Instance IoError_eq_dec : EqDecision IoError.
Proof. solve_decision. Defined.
#[export] Instance ConnectError_eq_dec : EqDecision ConnectError.
Proof. solve_decision. Defined.

(** ** Display *)

Definition at_capacity_display (c : AtCapacity) : bytes :=
  lit "upstream cap reached for " ++ cap_host c ++ lit ":" ++ fmt_dec (cap_port c).

Definition violation_display (v : ProtocolViolation) : bytes :=
  match v with
  | Socks5BadVersion _ => lit "[SOCKS5] Invalid proxy response version"
  | Socks5BadAuthVersion _ => lit "[SOCKS5] Invalid authentication response version"
  | Socks5UnknownAddressType _ => lit "[SOCKS5] Unknown address type in response"
  | Socks5BadReserved _ => lit "[SOCKS5] Invalid reserved byte in response"
  | Socks5EmptyBoundDomain => lit "[SOCKS5] Empty bound domain in response"
  | Socks5DomainTooLong _ => lit "[SOCKS5] Domain name too long"
  | Socks5CredentialsTooLong _ _ => lit "[SOCKS5] Username or password too long"
  | HttpInvalidConnectTarget => lit "[HTTP] invalid CONNECT target"
  | HttpResponseTooLarge => lit "[HTTP] upstream proxy response too large"
  | HttpClosedEarly => lit "[HTTP] upstream proxy closed before completing response"
  end.

Definition as_secs (d : Z) : Z := d / NANOS.

Definition timeout_display (kind : TimeoutKind) (endpoint : bytes) (after : Z) : bytes :=
  let tail := lit " (" ++ fmt_dec (as_secs after) ++ lit "s) to " ++ endpoint in
  match kind with
  | TcpConnect => lit "connect timeout" ++ tail
  | Socks5Handshake => lit "[SOCKS5] handshake timeout" ++ tail
  | HttpHandshake => lit "[HTTP] handshake timeout" ++ tail
  | HttpsTlsHandshake => lit "[HTTPS] TLS handshake timeout" ++ tail
  | HttpsConnectHandshake => lit "[HTTPS] CONNECT handshake timeout" ++ tail
  | Total => lit "total timeout" ++ tail
  end.

Definition display (e : ConnectError) : bytes :=
  match e with
  | Timeout _ kind endpoint after => timeout_display kind endpoint after
  | Io _ (Some endpoint) source => lit "connect to " ++ endpoint ++ lit ": " ++ io_text source
  | Io _ None source => io_text source
  | ProxyRejected Socks5 (Some code) _ =>
      lit "[SOCKS5] CONNECT request error, error code: " ++ fmt_hex02 code
  | ProxyRejected Socks5 None _ => lit "[SOCKS5] CONNECT request error"
  | ProxyRejected (Http | Https) _ response =>
      lit "[HTTP] upstream proxy rejected CONNECT: " ++ response
  | AuthFailed status =>
      lit "[SOCKS5] Authentication failed (status " ++ fmt_hex02 status ++ lit ")"
  | MethodUnsupported got true =>
      lit "[SOCKS5] Proxy does not support username/password authentication (received: "
      ++ fmt_hex02 got ++ lit ")"
  | MethodUnsupported got false =>
      lit "[SOCKS5] Proxy does not support no-authentication method (received: "
      ++ fmt_hex02 got ++ lit ")"
  | Protocol violation => violation_display violation
  | InvalidTarget target => lit "[SOCKS5] Invalid target address format: " ++ target
  | TlsFeatureMissing host =>
      lit "HTTPS upstream to " ++ host ++
      lit " requested, but resocks5-net was built without the `tls` feature; enable it (`features = ["
      ++ [byte_of 34] ++ lit "tls" ++ [byte_of 34] ++
      lit "]`, on by default) to dial TLS-wrapped CONNECT upstreams — refusing to fall back to plaintext"
  | Tls message _ => message
  | AtCapacityError cap => at_capacity_display cap
  end.

Definition socks5_rep_description (code : Z) : bytes :=
  match code with
  | 0 => lit "succeeded"
  | 1 => lit "general SOCKS server failure"
  | 2 => lit "connection not allowed by ruleset"
  | 3 => lit "network unreachable"
  | 4 => lit "host unreachable"
  | 5 => lit "connection refused"
  | 6 => lit "TTL expired"
  | 7 => lit "command not supported"
  | 8 => lit "address type not supported"
  | _ => lit "unassigned"
  end.

(** [From<io::Error>]. *)
Definition from_io (source : IoError) : ConnectError := Io StageHandshake None source.

(** ** Classification *)

Definition is_upstream_down (e : ConnectError) : bool :=
  match e with
  | Timeout _ kind _ _ =>
      match kind with TcpConnect | HttpsTlsHandshake => true | _ => false end
  | Io stage _ _ => match stage with StageConnect => true | _ => false end
  | AuthFailed _ | MethodUnsupported _ _ => true
  | Protocol (Socks5BadVersion _ | Socks5BadAuthVersion _) => true
  | Tls _ _ => true
  | _ => false
  end.

Definition counts_against_upstream (e : ConnectError) : bool :=
  match e with AtCapacityError _ => false | _ => true end.

(** ** Lemmas *)

(** An error that means the upstream is down always counts against it. *)
Lemma down_counts e : is_upstream_down e = true -> counts_against_upstream e = true.
Proof. by destruct e. Qed.

#[export] Hint Resolve down_counts : resocks.
