(* ===== verification/Floats.v ===== *)
(** * Floats: the [f64] operations the rating model uses

    [Float] is the interface the rating code is written against.  It has two
    instances: [F64], bit-exact IEEE binary64 arithmetic ([SpecFloat]) with the
    platform's [exp] and [ln] as parameters, on which the definitions execute;
    and [Real], exact real arithmetic, on which the quantitative theorems (decay,
    weight bounds) are proved.  Theorems that hold for every [Float] do not
    depend on rounding at all. *)
From Stdlib Require Import Reals Lra SpecFloat.
From S2P Require Import Prelude.

Class Float (F : Type) := {
  of_Z : Z -> F;
  fadd : F -> F -> F;
  fsub : F -> F -> F;
  fmul : F -> F -> F;
  fdiv : F -> F -> F;
  fneg : F -> F;
  fmin : F -> F -> F;
  fmax : F -> F -> F;
  fexp : F -> F;
  fln : F -> F;
  flt : F -> F -> bool;
  fle : F -> F -> bool;
  is_finite : F -> bool;
  infinity : F;
  LN_2 : F;
  MIN_POSITIVE : F;
  (** [f64::total_cmp(a, b) != Greater]. *)
  total_le : F -> F -> bool
}.

(** What the selection code relies on: [total_cmp] is a total order (a sort key),
    and a maximum with a positive weight is positive. *)
Class FloatLaws (F : Type) `{Float F} : Prop := {
  total_le_total : forall a b : F, total_le a b = true \/ total_le b a = true;
  total_le_trans : forall a b c : F,
    total_le a b = true -> total_le b c = true -> total_le a c = true;
  flt_zero : flt (of_Z 0) (of_Z 0) = false;
  fmax_pos : forall m w : F, flt (of_Z 0) w = true -> fle (fmax m w) (of_Z 0) = false
}.

(** The literal [n / d] of the source, [n] and [d] exact: binary64 division is
    correctly rounded, so this is the nearest double, as the compiler's. *)
Definition ratio {F} `{Float F} (n d : Z) : F := fdiv (of_Z n) (of_Z d).

(** [Duration::as_secs_f64]. *)
Definition as_secs_f64 {F} `{Float F} (d : Z) : F :=
  fadd (of_Z (d / NANOS)) (fdiv (of_Z (d mod NANOS)) (of_Z NANOS)).

(** ** IEEE binary64 *)

Section Binary64.
  Variables exp_impl ln_impl : spec_float -> spec_float.

Local Abbreviation prec := 53%Z.
Local Abbreviation emax := 1024%Z.

Definition f64_of_Z (z : Z) : spec_float := binary_normalize prec emax z 0 false.

Definition f64_is_finite (x : spec_float) : bool :=
  match x with S754_zero _ | S754_finite _ _ _ => true | _ => false end.
Definition f64_is_nan (x : spec_float) : bool :=
  match x with S754_nan => true | _ => false end.

(** [f64::min]/[f64::max]: a NaN operand loses. *)
Definition f64_min (x y : spec_float) : spec_float :=
  if f64_is_nan x then y else if f64_is_nan y then x else if SFltb y x then y else x.
Definition f64_max (x y : spec_float) : spec_float :=
  if f64_is_nan x then y else if f64_is_nan y then x else if SFltb x y then y else x.

(** Key of the total order: -inf < negatives < -0 < +0 < positives < +inf < NaN
    (the model's one NaN is the positive one). *)
Definition f64_total_le (x y : spec_float) : bool :=
  match x, y with
  | _, S754_nan => true
  | S754_nan, _ => false
  | S754_zero s, S754_zero s' => s || negb s'
  | _, _ => SFleb x y
  end.

#[export] Instance F64 : Float spec_float := {|
  of_Z := f64_of_Z;
  fadd := SFadd prec emax;
  fsub := SFsub prec emax;
  fmul := SFmul prec emax;
  fdiv := SFdiv prec emax;
  fneg := SFopp;
  fmin := f64_min;
  fmax := f64_max;
  fexp := exp_impl;
  fln := ln_impl;
  flt := SFltb;
  fle := SFleb;
  is_finite := f64_is_finite;
  infinity := S754_infinity false;
  LN_2 := S754_finite false 6243314768165359 (-53);
  MIN_POSITIVE := S754_finite false 4503599627370496 (-1074);
  total_le := f64_total_le
|}.

End Binary64.

(** ** Real arithmetic *)

Definition Rltb (x y : R) : bool := if Rlt_dec x y then true else false.
Definition Rleb (x y : R) : bool := if Rle_dec x y then true else false.

Definition Real : Float R := {|
  of_Z := IZR;
  fadd := Rplus;
  fsub := Rminus;
  fmul := Rmult;
  fdiv := Rdiv;
  fneg := Ropp;
  fmin := Rmin;
  fmax := Rmax;
  fexp := exp;
  fln := ln;
  flt := Rltb;
  fle := Rleb;
  is_finite := fun _ => true;
  infinity := 0%R;
  LN_2 := ln 2;
  MIN_POSITIVE := 0%R;
  total_le := Rleb
|}.

(** ** Lemmas *)

Lemma Rltb_true x y : Rltb x y = true <-> (x < y)%R.
Proof. unfold Rltb. destruct (Rlt_dec x y); intuition congruence. Qed.

Lemma Rltb_false x y : Rltb x y = false <-> (y <= x)%R.
Proof. unfold Rltb. destruct (Rlt_dec x y); split; intros; try done; lra. Qed.

Lemma Rleb_true x y : Rleb x y = true <-> (x <= y)%R.
Proof. unfold Rleb. destruct (Rle_dec x y); intuition congruence. Qed.

Lemma Rleb_false x y : Rleb x y = false <-> (y < x)%R.
Proof. unfold Rleb. destruct (Rle_dec x y); split; intros; try done; lra. Qed.

Lemma Real_laws : @FloatLaws R Real.
Proof.
  split; cbn.
  - intros a b. rewrite !Rleb_true. lra.
  - intros a b c. rewrite !Rleb_true. lra.
  - apply Rltb_false. lra.
  - intros m w. rewrite Rltb_true, Rleb_false. intros Hw.
    pose proof (Rmax_r m w). lra.
Qed.

(** The order of binary64 data as a key: sign, then exponent, then mantissa. *)
Definition f64_key (x : spec_float) : Z * (Z * Z) :=
  match x with
  | S754_infinity true => (-3, (0, 0))
  | S754_finite true m e => (-2, (- e, - Zpos m))
  | S754_zero true => (-1, (0, 0))
  | S754_zero false => (0, (0, 0))
  | S754_finite false m e => (1, (e, Zpos m))
  | S754_infinity false => (2, (0, 0))
  | S754_nan => (3, (0, 0))
  end.

Lemma f64_total_le_key x y : f64_total_le x y = true <-> cmp_le (f64_key x) (f64_key y).
Proof.
  unfold cmp_le, cmp, pair_cmp, cmp, Z_cmp.
  destruct x as [[]|[]| |[] m e]; destruct y as [[]|[]| |[] m' e']; cbn; try done.
  - unfold SFleb. cbn. rewrite Z.compare_opp, (Z.compare_antisym e e').
    destruct (e ?= e'); cbn; try done.
    fold (Pos.compare m m').
    change (- Z.pos m ?= - Z.pos m') with (CompOpp (m ?= m')%positive).
    by destruct (m ?= m')%positive.
  - unfold SFleb. cbn. destruct (e ?= e'); cbn; try done.
    fold (Pos.compare m m'). by destruct (m ?= m')%positive.
Qed.

Lemma f64_max_pos m w :
  SFltb (S754_zero false) w = true -> SFleb (f64_max m w) (S754_zero false) = false.
Proof.
  unfold f64_max, SFltb, SFleb.
  destruct w as [| [] | |[] mw ew]; try done; intros _; destruct m as [|[]| |[] mm em]; try done.
  cbn. destruct (em ?= ew); [destruct (Pos.compare_cont Eq mm mw)| |]; done.
Qed.

#[export] Instance F64_laws exp_impl ln_impl : @FloatLaws spec_float (F64 exp_impl ln_impl).
Proof.
  split; cbn.
  - intros a b. rewrite !f64_total_le_key. apply cmp_le_total.
  - intros a b c. rewrite !f64_total_le_key. apply cmp_le_trans.
  - done.
  - apply f64_max_pos.
Qed.

(** 0.05 as the compiler reads it. *)
Example f64_literal : @ratio _ (F64 (fun x => x) (fun x => x)) 5 100 = S754_finite false 7205759403792794 (-57).
Proof. reflexivity. Qed.
