(* ===== verification/Rating.v ===== *)
(** * Rating: the sand model and weighted selection

    Model of [session/rating/policy.rs], [rng.rs], [sand.rs] and [select.rs].
    Everything is written against the [Float] interface; the decay and weight
    theorems are about its exact-real instance, the selection theorems hold for
    every instance satisfying [FloatLaws]. *)
From Stdlib Require Import Reals Lra.
From S2P Require Import Prelude Text Floats.

#[local] Open Scope Z_scope.

(** ** Policies *)

Module Policy.

(** The knob of [RatingPolicy] a finiteness complaint names. *)
Inductive Knob := half_life_sec_k | fail_penalty_k | sand_max_k | min_weight_k | success_factor_k.

(** One constructor per message of [RatingError::InvalidPolicy], with the values
    the message prints. *)
Inductive Fault (F : Type) :=
| NotFinite (name : Knob) (value : F)
| HalfLifeNotPositive (value : F)
| TauNotFinite
| SandMaxNotPositive (value : F)
| MinWeightOutOfRange (value : F)
| MinWeightSubnormal (value : F)
| SuccessFactorOutOfRange (value : F)
| FailPenaltyNegative (value : F)
| KNotFinite (k min_weight sand_max : F)
| FreshWeightNotFinite (weight k : F)
| SaturatedWeightNotFinite (weight k sand_max : F)
| QuarantineInitialZero
| QuarantineMaxBelowInitial (max initial : Z)
| QuarantineLeaseZero.

Inductive RatingError (F : Type) := InvalidPolicy (msg : Fault F).

Record RatingPolicy (F : Type) := mkRatingPolicy {
  half_life_sec : F;
  fail_penalty : F;
  sand_max : F;
  min_weight : F;
  success_factor : F
}.

Arguments NotFinite {F}.
Arguments HalfLifeNotPositive {F}.
Arguments TauNotFinite {F}.
Arguments SandMaxNotPositive {F}.
Arguments MinWeightOutOfRange {F}.
Arguments MinWeightSubnormal {F}.
Arguments SuccessFactorOutOfRange {F}.
Arguments FailPenaltyNegative {F}.
Arguments KNotFinite {F}.
Arguments FreshWeightNotFinite {F}.
Arguments SaturatedWeightNotFinite {F}.
Arguments QuarantineInitialZero {F}.
Arguments QuarantineMaxBelowInitial {F}.
Arguments QuarantineLeaseZero {F}.
Arguments InvalidPolicy {F}.
Arguments mkRatingPolicy {F}.
Arguments half_life_sec {F}.
Arguments fail_penalty {F}.
Arguments sand_max {F}.
Arguments min_weight {F}.
Arguments success_factor {F}.

Section Ops.
  Context {F : Type} `{Float F}.

Definition default : RatingPolicy F :=
  mkRatingPolicy (of_Z 30) (of_Z 1) (of_Z 8) (ratio 5 100) (ratio 5 10).

Definition enabled (p : RatingPolicy F) : bool := flt (of_Z 0) (fail_penalty p).
Definition tau (p : RatingPolicy F) : F := fdiv (half_life_sec p) LN_2.
Definition k (p : RatingPolicy F) : F :=
  fdiv (fln (fdiv (of_Z 1) (min_weight p))) (sand_max p).

(** The loop over the five named fields. *)
Fixpoint check_finite (fields : list (Knob * F)) : result (RatingError F) unit :=
  match fields with
  | [] => Ok tt
  | (name, value) :: rest =>
      if negb (is_finite value) then Err (InvalidPolicy (NotFinite name value))
      else check_finite rest
  end.

Definition check_fields (p : RatingPolicy F) : result (RatingError F) unit :=
  _ ← check_finite
        [(half_life_sec_k, half_life_sec p); (fail_penalty_k, fail_penalty p);
         (sand_max_k, sand_max p); (min_weight_k, min_weight p);
         (success_factor_k, success_factor p)];
  if fle (half_life_sec p) (of_Z 0)
  then Err (InvalidPolicy (HalfLifeNotPositive (half_life_sec p)))
  else if negb (is_finite (tau p)) then Err (InvalidPolicy TauNotFinite)
  else if fle (sand_max p) (of_Z 0)
  then Err (InvalidPolicy (SandMaxNotPositive (sand_max p)))
  else if fle (min_weight p) (of_Z 0) || flt (of_Z 1) (min_weight p)
  then Err (InvalidPolicy (MinWeightOutOfRange (min_weight p)))
  else if flt (min_weight p) MIN_POSITIVE
  then Err (InvalidPolicy (MinWeightSubnormal (min_weight p)))
  else if negb (fle (of_Z 0) (success_factor p) && fle (success_factor p) (of_Z 1))
  then Err (InvalidPolicy (SuccessFactorOutOfRange (success_factor p)))
  else if flt (fail_penalty p) (of_Z 0)
  then Err (InvalidPolicy (FailPenaltyNegative (fail_penalty p)))
  else Ok tt.

Definition check_derived (p : RatingPolicy F) : result (RatingError F) unit :=
  let k := k p in
  if negb (is_finite k)
  then Err (InvalidPolicy (KNotFinite k (min_weight p) (sand_max p)))
  else
    let fresh_weight := fexp (fmul (fneg k) (of_Z 0)) in
    if negb (is_finite fresh_weight)
    then Err (InvalidPolicy (FreshWeightNotFinite fresh_weight k))
    else
      let saturated_weight := fexp (fmul (fneg k) (sand_max p)) in
      if negb (is_finite saturated_weight)
      then Err (InvalidPolicy (SaturatedWeightNotFinite saturated_weight k (sand_max p)))
      else Ok tt.

Definition validate (p : RatingPolicy F) : result (RatingError F) unit :=
  _ ← check_fields p; check_derived p.

End Ops.

(** The ranges the sand model's maths requires, over exact reals. *)
Definition in_ranges (p : RatingPolicy R) : Prop :=
  (0 < half_life_sec p /\ 0 < sand_max p /\ 0 < min_weight p <= 1 /\
   0 <= success_factor p <= 1 /\ 0 <= fail_penalty p)%R.

Lemma validate_in_ranges (p : RatingPolicy R) :
  @validate R Real p = Ok tt -> in_ranges p.
Proof.
  unfold validate, check_fields. cbn. unfold in_ranges.
  destruct (Rleb (half_life_sec p) 0) eqn:E1; [done|].
  destruct (Rleb (sand_max p) 0) eqn:E2; [done|].
  destruct (Rleb (min_weight p) 0) eqn:E3; [done|].
  destruct (Rltb 1 (min_weight p)) eqn:E4; [done|]. cbn.
  destruct (Rltb (min_weight p) 0) eqn:E5; [done|].
  destruct (Rleb 0 (success_factor p)) eqn:E6; [|done].
  destruct (Rleb (success_factor p) 1) eqn:E7; [|done]. cbn.
  destruct (Rltb (fail_penalty p) 0) eqn:E8; [done|]. intros _.
  rewrite Rleb_false in E1, E2, E3. rewrite Rltb_false in E4, E5, E8.
  rewrite Rleb_true in E6, E7. lra.
Qed.

Lemma default_in_ranges : in_ranges (@default R Real).
Proof. unfold in_ranges, default, ratio. cbn. lra. Qed.

End Policy.

(** ** Random numbers *)

Module SmallRng.

Record t := mk { state : Z }.

Definition from_seed (seed : Z) : t := mk seed.

(** splitmix64. *)
Definition next_u64 (r : t) : Z * t :=
  let state := wrapping_add64 (state r) 11400714819323198485 in
  let z := wrapping_mul64 (Z.lxor state (Z.shiftr state 30)) 13787848793156543929 in
  let z := wrapping_mul64 (Z.lxor z (Z.shiftr z 27)) 10723151780598845931 in
  (Z.lxor z (Z.shiftr z 31), mk state).

Definition next_f64 {F} `{Float F} (r : t) : F * t :=
  let '(u, r') := next_u64 r in
  (fdiv (of_Z (Z.shiftr u 11)) (of_Z (Z.shiftl 1 53)), r').

Example next_u64_ex : (next_u64 (from_seed 0)).1 = 16294208416658607535.
Proof. reflexivity. Qed.

End SmallRng.

(** ** The sand accumulator *)

Module Sand.
Import Policy.

Record t (F : Type) := mk { level : F; last : Z }.
Arguments mk {F}.
Arguments level {F}.
Arguments last {F}.

Section Ops.
  Context {F : Type} `{Float F}.

Definition new (now : Z) : t F := mk (of_Z 0) now.

Definition level_at (s : t F) (now : Z) (p : RatingPolicy F) : F :=
  let dt := as_secs_f64 (saturating_duration_since now (last s)) in
  let decayed := fmul (level s) (fexp (fdiv (fneg dt) (tau p))) in
  if flt decayed (fmul (sand_max p) (ratio 1 1000000)) then of_Z 0 else decayed.

Definition observe_failure (s : t F) (now : Z) (p : RatingPolicy F) : t F :=
  mk (fmin (fadd (level_at s now p) (fail_penalty p)) (sand_max p)) now.

Definition observe_success (s : t F) (now : Z) (p : RatingPolicy F) : t F :=
  mk (fmul (level_at s now p) (success_factor p)) now.

Definition weight (s : t F) (now : Z) (p : RatingPolicy F) : F :=
  fexp (fmul (fneg (k p)) (level_at s now p)).

End Ops.

(** *** The model over exact reals *)

#[local] Existing Instance Real.
#[local] Open Scope R_scope.

(** The level invariant: between nothing and the ceiling. *)
Definition bounded (p : RatingPolicy R) (s : t R) : Prop := 0 <= level s <= sand_max p.

Definition elapsed (s : t R) (now : Z) : R := as_secs_f64 (saturating_duration_since now (last s)).

Lemma as_secs_real d : as_secs_f64 d = IZR d / IZR NANOS.
Proof.
  unfold as_secs_f64. cbn. rewrite (Z.div_mod d NANOS) at 3 by done.
  rewrite plus_IZR, mult_IZR. field. apply not_0_IZR. done.
Qed.

Lemma elapsed_nonneg s now : 0 <= elapsed s now.
Proof.
  unfold elapsed. rewrite as_secs_real.
  apply Rmult_le_pos; [apply IZR_le; unfold saturating_duration_since; lia|].
  left. apply Rinv_0_lt_compat, IZR_lt. done.
Qed.

Lemma exp_mono x y : x <= y -> exp x <= exp y.
Proof. intros [H|<-]; [left; by apply exp_increasing | by right]. Qed.

Lemma level_at_unfold (p : RatingPolicy R) s now :
  level_at s now p =
  let d := level s * exp (- elapsed s now / tau p) in
  if Rltb d (sand_max p * (1 / 1000000)) then 0 else d.
Proof. reflexivity. Qed.

Lemma level_at_floor (p : RatingPolicy R) s now :
  level_at s now p = 0 \/ sand_max p * (1 / 1000000) <= level_at s now p.
Proof.
  rewrite level_at_unfold. cbv zeta. destruct (Rltb _ _) eqn:E; [by left | right].
  by apply Rltb_false.
Qed.

Lemma level_at_now (p : RatingPolicy R) l now :
  level_at (mk l now) now p = if Rltb l (sand_max p * (1 / 1000000)) then 0 else l.
Proof.
  rewrite level_at_unfold. unfold elapsed. cbn [last level].
  unfold saturating_duration_since. rewrite Z.sub_diag, as_secs_real.
  replace (- (IZR (0 `max` 0) / IZR NANOS) / tau p) with 0.
  - by rewrite exp_0, Rmult_1_r.
  - change (0 `max` 0)%Z with 0%Z. unfold Rdiv. by rewrite Rmult_0_l, Ropp_0, Rmult_0_l.
Qed.

Section WithPolicy.
  Context (p : RatingPolicy R) (Hp : in_ranges p).

Lemma tau_pos : 0 < tau p.
Proof.
  unfold tau. cbn. destruct Hp as (? & _). apply Rdiv_lt_0_compat; [done|].
  rewrite <- ln_1. apply ln_increasing; lra.
Qed.

Lemma k_nonneg : 0 <= k p.
Proof.
  unfold k. cbn. destruct Hp as (_ & Hs & [Hm0 Hm1] & _).
  apply Rmult_le_pos; [|left; by apply Rinv_0_lt_compat].
  rewrite <- ln_1. destruct (Req_dec (min_weight p) 1) as [->|Hne].
  - right. f_equal. lra.
  - left. apply ln_increasing; [lra|]. apply Rmult_lt_reg_r with (min_weight p); [done|].
    field_simplify; lra.
Qed.

Lemma k_sand_max : exp (- k p * sand_max p) = min_weight p.
Proof.
  unfold k. cbn. destruct Hp as (_ & Hs & [Hm0 _] & _).
  replace (- (ln (1 / min_weight p) / sand_max p) * sand_max p)
    with (- ln (1 / min_weight p)) by (field; lra).
  unfold Rdiv. rewrite Rmult_1_l, ln_Rinv, Ropp_involutive by done. by apply exp_ln.
Qed.

Lemma decay_factor s now : 0 < exp (- elapsed s now / tau p) <= 1.
Proof.
  split; [apply exp_pos|]. rewrite <- exp_0.
  pose proof (elapsed_nonneg s now). pose proof tau_pos.
  assert (Hx : - elapsed s now / tau p <= 0).
  { unfold Rdiv. apply Rmult_le_reg_r with (tau p); [done|].
    rewrite Rmult_assoc, Rinv_l, Rmult_1_r, Rmult_0_l; lra. }
  by apply exp_mono.
Qed.

Lemma level_at_bounded s now : bounded p s -> 0 <= level_at s now p <= level s.
Proof.
  intros [H0 _]. rewrite level_at_unfold. cbv zeta.
  destruct (decay_factor s now) as [Hd0 Hd1]. split_ifs; [lra|]. split.
  - apply Rmult_le_pos; lra.
  - rewrite <- (Rmult_1_r (level s)) at 2. by apply Rmult_le_compat_l.
Qed.

Lemma new_bounded now : bounded p (new now).
Proof. unfold bounded. cbn. destruct Hp. lra. Qed.

Lemma observe_failure_bounded s now : bounded p s -> bounded p (observe_failure s now p).
Proof.
  intros Hb. pose proof (level_at_bounded s now Hb). unfold bounded, observe_failure.
  cbn [level]. change (@fmin R _) with Rmin. change (@fadd R _) with Rplus.
  destruct Hp as (_ & ? & _ & _ & ?). split; [|apply Rmin_r].
  apply Rmin_glb; lra.
Qed.

Lemma observe_success_bounded s now : bounded p s -> bounded p (observe_success s now p).
Proof.
  intros Hb. pose proof (level_at_bounded s now Hb) as [H0 H1]. unfold bounded in *.
  cbn [level observe_success]. change (@fmul R _) with Rmult.
  destruct Hp as (_ & ? & _ & [Hs0 Hs1] & _). split; [by apply Rmult_le_pos|].
  apply Rle_trans with (level_at s now p * 1); [by apply Rmult_le_compat_l | lra].
Qed.

Lemma weight_antitone s s' now now' :
  level_at s now p <= level_at s' now' p -> weight s' now' p <= weight s now p.
Proof.
  intros Hl. unfold weight. change (@fexp R _) with exp. change (@fmul R _) with Rmult.
  change (@fneg R _) with Ropp.
  pose proof k_nonneg.
  assert (Hm : - k p * level_at s' now' p <= - k p * level_at s now p).
  { apply Ropp_le_cancel. rewrite <- !Ropp_mult_distr_l, !Ropp_involutive.
    by apply Rmult_le_compat_l. }
  by apply exp_mono.
Qed.

Lemma weight_bounds s now : bounded p s -> min_weight p <= weight s now p <= 1.
Proof.
  intros Hb. pose proof (level_at_bounded s now Hb) as [H0 H1]. destruct Hb as [_ Hmax].
  assert (Hmono : forall x y, 0 <= x <= y -> exp (- k p * y) <= exp (- k p * x)).
  { intros x y [_ Hxy]. pose proof k_nonneg.
    assert (Hm : - k p * y <= - k p * x).
    { apply Ropp_le_cancel. rewrite <- !Ropp_mult_distr_l, !Ropp_involutive.
      by apply Rmult_le_compat_l. }
    by apply exp_mono. }
  change (weight s now p) with (exp (- k p * level_at s now p)). split.
  - rewrite <- k_sand_max. apply Hmono. lra.
  - apply Rle_trans with (exp (- k p * 0)); [apply Hmono; lra|].
    right. by rewrite Rmult_0_r, exp_0.
Qed.

(** Silence for [n] half-lives divides the level by [2 ^ n]. *)
Lemma half_lives n : exp (- (INR n * half_life_sec p) / tau p) = (/ 2) ^ n.
Proof.
  unfold tau. cbn. destruct Hp as (Hh & _).
  assert (Hln : 0 < ln 2) by (rewrite <- ln_1; apply ln_increasing; lra).
  replace (- (INR n * half_life_sec p) / (half_life_sec p / ln 2)) with (INR n * - ln 2)
    by (field; lra).
  rewrite <- ln_Rinv by lra.
  induction n as [|n IH]; [by rewrite Rmult_0_l, exp_0|].
  rewrite S_INR, Rmult_plus_distr_r, exp_plus, IH, Rmult_1_l, exp_ln by lra.
  simpl. ring.
Qed.

End WithPolicy.

(** *** Histories of an upstream *)

(** The accumulators reachable from a fresh one by failures and successes
    observed at any instants. *)
Inductive reachable (p : RatingPolicy R) : t R -> Prop :=
| reach_new now : reachable p (new now)
| reach_failure s now : reachable p s -> reachable p (observe_failure s now p)
| reach_success s now : reachable p s -> reachable p (observe_success s now p).

Lemma reachable_bounded p s : in_ranges p -> reachable p s -> bounded p s.
Proof.
  intros Hp. induction 1.
  - by apply new_bounded.
  - by apply observe_failure_bounded.
  - by apply observe_success_bounded.
Qed.

(** With a policy that validates, no history of failures and successes ever
    excludes an upstream or boosts it: at every instant the sand level is in
    [0, sand_max] and the selection weight in [min_weight, 1]. *)
Theorem sand_never_excludes p s now :
  validate p = Ok tt -> reachable p s ->
  0 <= level_at s now p <= sand_max p /\ min_weight p <= weight s now p <= 1.
Proof.
  intros Hp%validate_in_ranges Hs. pose proof (reachable_bounded _ _ Hp Hs) as Hb.
  split; [|by apply weight_bounds].
  pose proof (level_at_bounded p Hp s now Hb). destruct Hb. lra.
Qed.

Lemma default_validates : validate (@default R Real) = Ok tt.
Proof.
  unfold validate, check_fields, check_derived. cbn. unfold ratio. cbn.
  rewrite !(proj2 (Rleb_false _ _)) by lra. cbn. rewrite !(proj2 (Rltb_false _ _)) by lra. cbn.
  by rewrite !(proj2 (Rleb_true _ _)) by lra.
Qed.

Lemma sand_never_excludes_witness :
  0 <= level_at (observe_failure (new 0) 0 default) (from_secs 5) default <= sand_max default /\
  min_weight default <= weight (observe_failure (new 0) 0 default) (from_secs 5) default <= 1.
Proof.
  apply sand_never_excludes; [exact default_validates|]. apply reach_failure, reach_new.
Defined.

(** An upstream recovers on its own: after twenty half-lives without a
    failure its sand is gone and its weight is back to exactly 1, whatever its
    history was. *)
Theorem sand_recovers p s now :
  validate p = Ok tt -> reachable p s ->
  20 * half_life_sec p <= elapsed s now ->
  level_at s now p = 0 /\ weight s now p = 1.
Proof.
  intros Hv Hs Hq. pose proof (validate_in_ranges _ Hv) as Hp.
  pose proof (reachable_bounded _ _ Hp Hs) as [Hb0 Hb1].
  assert (Hl : level_at s now p = 0).
  { rewrite level_at_unfold. cbv zeta. rewrite (proj2 (Rltb_true _ _)); [done|].
    assert (Hd : exp (- elapsed s now / tau p) <= (/ 2) ^ 20).
    { pose proof (tau_pos p Hp). pose proof (half_lives p Hp 20) as H20.
      apply Rle_trans with (exp (- (INR 20 * half_life_sec p) / tau p)).
      - assert (Hx : - elapsed s now / tau p <= - (INR 20 * half_life_sec p) / tau p).
        { apply Rmult_le_compat_r; [left; by apply Rinv_0_lt_compat|].
          replace (INR 20) with 20 by (simpl; ring). lra. }
        by apply exp_mono.
      - by right. }
    destruct Hp as (_ & Hsm & _). destruct (decay_factor p (validate_in_ranges _ Hv) s now).
    apply Rle_lt_trans with (sand_max p * (/ 2) ^ 20).
    - apply Rmult_le_compat; lra.
    - apply Rmult_lt_compat_l; [done | lra]. }
  split; [done|]. change (weight s now p) with (exp (- k p * level_at s now p)).
  by rewrite Hl, Rmult_0_r, exp_0.
Qed.

Lemma sand_recovers_witness :
  level_at (observe_failure (new 0) 0 default) (from_secs 600) default = 0 /\
  weight (observe_failure (new 0) 0 default) (from_secs 600) default = 1.
Proof.
  apply sand_recovers; [exact default_validates | apply reach_failure, reach_new |].
  unfold elapsed. rewrite as_secs_real.
  change (20 * 30 <= 600000000000 / 1000000000). lra.
Defined.

(** The decay law: [n] half-lives of silence divide the level by [2 ^ n], as
    long as it stays above a millionth of [sand_max], below which it is zero. *)
Lemma sand_half_life p s now n :
  in_ranges p -> elapsed s now = INR n * half_life_sec p ->
  level_at s now p =
    if Rltb (level s * (/ 2) ^ n) (sand_max p * (1 / 1000000)) then 0
    else level s * (/ 2) ^ n.
Proof.
  intros Hp Hq. rewrite level_at_unfold. cbv zeta. by rewrite Hq, half_lives.
Qed.

Lemma sand_half_life_witness :
  level_at (mk 1 0) (from_secs 60) default =
    if Rltb (1 * (/ 2) ^ 2) (8 * (1 / 1000000)) then 0 else 1 * (/ 2) ^ 2.
Proof.
  apply (sand_half_life default (mk 1 0) (from_secs 60) 2 default_in_ranges).
  unfold elapsed. rewrite as_secs_real.
  change (60000000000 / 1000000000 = INR 2 * 30). simpl INR. lra.
Defined.

(** Failures never raise an upstream's weight and successes never lower it,
    compared at the same instant with not having happened. *)
Theorem sand_monotone p s now :
  in_ranges p -> bounded p s ->
  weight (observe_failure s now p) now p <= weight s now p <=
  weight (observe_success s now p) now p.
Proof.
  intros Hp Hb. pose proof (level_at_bounded p Hp s now Hb) as [H0 H1]. destruct Hb as [Hb0 Hb1].
  split; apply weight_antitone; try done; unfold observe_failure, observe_success; rewrite level_at_now.
  - change (@fmin R _) with Rmin. change (@fadd R _) with Rplus.
    destruct Hp as (_ & Hs & _ & _ & Hf).
    assert (Hm : level_at s now p <= Rmin (level_at s now p + fail_penalty p) (sand_max p))
      by (apply Rmin_glb; lra).
    destruct (level_at_floor p s now) as [->|Hfl].
    + split_ifs; [lra|]. apply Rmin_glb; lra.
    + rewrite (proj2 (Rltb_false _ _)); [done | lra].
  - change (@fmul R _) with Rmult. destruct Hp as (_ & Hs & _ & [Hf0 Hf1] & _).
    split_ifs; [done|].
    apply Rle_trans with (level_at s now p * 1); [by apply Rmult_le_compat_l | lra].
Qed.

Lemma sand_monotone_witness :
  weight (observe_failure (new 0) 7 default) 7 default <= weight (new 0) 7 default <=
  weight (observe_success (new 0) 7 default) 7 default.
Proof.
  apply sand_monotone; [exact default_in_ranges | apply new_bounded; exact default_in_ranges].
Defined.

End Sand.
