(* ===== verification/Select.v ===== *)
(** * Select: weighted-random selection primitives

    Model of [session/rating/select.rs]: one weighted index, and a weighted
    permutation obtained by sorting random keys (Efraimidis-Spirakis). *)
From S2P Require Import Prelude Floats Rating.

Module Select.

Section Ops.
  Context {F : Type} `{Float F}.

(** Only finite positive weights are selectable. *)
Definition eligible (w : F) : bool := is_finite w && flt (of_Z 0) w.

Definition max_weight (weights : list F) : F :=
  foldl (fun m w => if eligible w then fmax m w else m) (of_Z 0) weights.

Definition weight_sum (max : F) (weights : list F) : F :=
  foldl fadd (of_Z 0) (map (fun w => fdiv w max) (List.filter eligible weights)).

(** The dart loop, from index [i]: [None] when no weight stopped the dart. *)
Fixpoint throw (max dart : F) (i : nat) (weights : list F) : option nat :=
  match weights with
  | [] => None
  | w :: ws =>
      if eligible w then
        let dart := fsub dart (fdiv w max) in
        if fle dart (of_Z 0) then Some i else throw max dart (S i) ws
      else throw max dart (S i) ws
  end.

(** [iter().rposition(eligible)]. *)
Fixpoint rposition (i : nat) (weights : list F) : option nat :=
  match weights with
  | [] => None
  | w :: ws =>
      match rposition (S i) ws with
      | Some j => Some j
      | None => if eligible w then Some i else None
      end
  end.

Definition weighted_index (weights : list F) (rng : SmallRng.t) : nat * SmallRng.t :=
  let max := max_weight weights in
  if fle max (of_Z 0) then (0%nat, rng)
  else
    let total := weight_sum max weights in
    let '(u, rng') := SmallRng.next_f64 rng in
    match throw max (fmul u total) 0 weights with
    | Some i => (i, rng')
    | None => (default 0%nat (rposition 0 weights), rng')
    end.

(** The sort key of one weight and the draw [u]. *)
Definition key (u w : F) : F :=
  if flt (of_Z 0) w && is_finite w then fsub (fln (fneg (fln u))) (fln w) else infinity.

Fixpoint weighted_keys_from (i : nat) (weights : list F) (rng : SmallRng.t)
    : list (nat * F) * SmallRng.t :=
  match weights with
  | [] => ([], rng)
  | w :: ws =>
      let '(u, rng1) := SmallRng.next_f64 rng in
      let '(rest, rng2) := weighted_keys_from (S i) ws rng1 in
      ((i, key u w) :: rest, rng2)
  end.
Definition weighted_keys (weights : list F) (rng : SmallRng.t)
    : list (nat * F) * SmallRng.t := weighted_keys_from 0 weights rng.

(** The comparator [total_cmp] then index. *)
Definition entry_leb (a b : nat * F) : bool :=
  if total_le a.2 b.2 then if total_le b.2 a.2 then (a.1 <=? b.1)%nat else true else false.
Definition entry_le (a b : nat * F) : Prop := entry_leb a b = true.

#[export] Instance entry_le_dec a b : Decision (entry_le a b).
Proof. unfold entry_le. apply _. Defined.

Definition order_keys (keyed : list (nat * F)) : list nat :=
  map fst (merge_sort entry_le keyed).

Definition weighted_order (weights : list F) (rng : SmallRng.t) : list nat * SmallRng.t :=
  let '(keyed, rng') := weighted_keys weights rng in (order_keys keyed, rng').

End Ops.

(** ** Lemmas *)

Section Laws.
  Context {F : Type} `{FloatLaws F}.

Lemma entry_le_spec (x y : nat * F) :
  entry_le x y <-> total_le x.2 y.2 = true /\ (total_le y.2 x.2 = true -> (x.1 <= y.1)%nat).
Proof.
  unfold entry_le, entry_leb. destruct (total_le x.2 y.2); [|by split; [|intros [? _]]].
  destruct (total_le y.2 x.2).
  - rewrite Nat.leb_le. split; [by split; auto | by intros [_ H1]; apply H1].
  - by split.
Qed.

#[export] Instance entry_le_total : Total entry_le.
Proof.
  intros [i a] [j b]. unfold entry_le, entry_leb. simpl.
  destruct (total_le a b) eqn:E1; destruct (total_le b a) eqn:E2; auto.
  - destruct (i <=? j)%nat eqn:E; [by left|]. right. apply Nat.leb_gt in E. apply Nat.leb_le. lia.
  - destruct (total_le_total a b); congruence.
Qed.

#[export] Instance entry_le_trans : Transitive entry_le.
Proof.
  intros [i a] [j b] [l c]. rewrite !entry_le_spec. cbn.
  intros [Hab Hi] [Hbc Hj]. split; [by apply (total_le_trans a b c)|]. intros Hca.
  assert (Hcb : total_le c b = true) by (by apply (total_le_trans c a b)).
  assert (Hba : total_le b a = true) by (by apply (total_le_trans b c a)).
  specialize (Hi Hba). specialize (Hj Hcb). lia.
Qed.

Lemma weighted_keys_from_fst i ws rng : map fst (weighted_keys_from i ws rng).1 = seq i (length ws).
Proof.
  revert i rng. induction ws as [|w ws IH]; intros i rng; [done|]. cbn [weighted_keys_from].
  destruct (SmallRng.next_f64 rng) as [u rng1]. specialize (IH (S i) rng1).
  destruct (weighted_keys_from (S i) ws rng1) as [rest rng2]. simpl in *. by rewrite IH.
Qed.

Lemma order_keys_perm keyed : order_keys keyed ≡ₚ map fst keyed.
Proof. unfold order_keys. apply Permutation_map, merge_sort_Permutation. Qed.

Lemma weighted_order_perm ws rng : (weighted_order ws rng).1 ≡ₚ seq 0 (length ws).
Proof.
  unfold weighted_order. pose proof (weighted_keys_from_fst 0 ws rng) as Hk.
  unfold weighted_keys. destruct (weighted_keys_from 0 ws rng) as [keyed rng']. simpl in *.
  by rewrite order_keys_perm, Hk.
Qed.

(** [weighted_order] visits every upstream exactly once, in ascending order
    of its random keys: the result is the first components of a sorted
    rearrangement of the keyed entries, a permutation of [0..len]. *)
Lemma weighted_order_sorted_permutation ws rng :
  (weighted_order ws rng).1 ≡ₚ seq 0 (length ws) /\
  exists keyed, StronglySorted entry_le keyed /\
    keyed ≡ₚ (weighted_keys ws rng).1 /\ (weighted_order ws rng).1 = map fst keyed.
Proof.
  split; [apply weighted_order_perm|]. unfold weighted_order.
  destruct (weighted_keys ws rng) as [keyed rng']. simpl.
  exists (merge_sort entry_le keyed). split; [apply StronglySorted_merge_sort; apply _|].
  split; [apply merge_sort_Permutation | done].
Qed.

Lemma eligible_pos w : eligible w = true -> flt (of_Z 0) w = true.
Proof. unfold eligible. by intros [_ ?]%andb_true_iff. Qed.

Lemma max_weight_spec ws m :
  fle (foldl (fun m w => if eligible w then fmax m w else m) m ws) (of_Z 0) = true ->
  existsb eligible ws = false.
Proof.
  induction ws as [|w ws IH] using rev_ind; intros Hm; [done|].
  rewrite foldl_app in Hm. rewrite existsb_app. cbn in *.
  destruct (eligible w) eqn:E.
  - rewrite fmax_pos in Hm; [done | by apply eligible_pos].
  - rewrite IH; done.
Qed.

Lemma throw_spec max ws : forall dart i j,
  throw max dart i ws = Some j ->
  exists n w, j = (i + n)%nat /\ ws !! n = Some w /\ eligible w = true.
Proof.
  induction ws as [|w ws IH]; intros dart i j; cbn [throw]; [done|].
  destruct (eligible w) eqn:E.
  - destruct (fle _ _).
    + intros [= <-]. exists 0%nat, w. split; [lia | done].
    + intros (n & w' & -> & Hw & He)%IH. exists (S n), w'. split; [lia | done].
  - intros (n & w' & -> & Hw & He)%IH. exists (S n), w'. split; [lia | done].
Qed.

Lemma rposition_spec ws : forall i,
  match rposition i ws with
  | Some j => exists n w, j = (i + n)%nat /\ ws !! n = Some w /\ eligible w = true
  | None => existsb eligible ws = false
  end.
Proof.
  induction ws as [|w ws IH]; intros i; cbn [rposition]; [done|].
  specialize (IH (S i)). destruct (rposition (S i) ws) as [j|].
  - destruct IH as (n & w' & -> & Hw & He). exists (S n), w'. split; [lia | done].
  - cbn. destruct (eligible w) eqn:E; [|done]. exists 0%nat, w. split; [lia | done].
Qed.

(** [weighted_index] never panics and never picks an ineligible upstream:
    whatever the rounding, it returns the index of a finite positive weight when
    there is one, and 0 otherwise. *)
Lemma weighted_index_eligible ws rng :
  if existsb eligible ws
  then exists w, ws !! (weighted_index ws rng).1 = Some w /\ eligible w = true
  else (weighted_index ws rng).1 = 0%nat.
Proof.
  unfold weighted_index. destruct (fle (max_weight ws) (of_Z 0)) eqn:Em.
  - by rewrite (max_weight_spec ws (of_Z 0) Em).
  - destruct (SmallRng.next_f64 rng) as [u rng']. destruct (throw _ _ _ _) as [j|] eqn:Et.
    + apply throw_spec in Et as (n & w & -> & Hw & He). simpl.
      replace (existsb eligible ws) with true; [eauto|]. symmetry. apply existsb_exists.
      exists w. split; [|done]. apply list_elem_of_In, list_elem_of_lookup. eauto.
    + pose proof (rposition_spec ws 0) as Hr. destruct (rposition 0 ws) as [j|]; simpl.
      * destruct Hr as (n & w & -> & Hw & He). simpl.
        replace (existsb eligible ws) with true; [eauto|]. symmetry. apply existsb_exists.
        exists w. split; [|done]. apply list_elem_of_In, list_elem_of_lookup. eauto.
      * by rewrite Hr.
Qed.

End Laws.

(** A concrete instance for executing the definitions: binary64 arithmetic with
    stand-ins for the platform's [exp] and [ln]. *)
#[local] Instance test_float : Float SpecFloat.spec_float := F64 (fun x => x) (fun x => x).
#[local] Instance test_laws : FloatLaws SpecFloat.spec_float := F64_laws _ _.

Lemma weighted_order_sorted_permutation_witness :
  (weighted_order [of_Z 1; of_Z 2; of_Z 3] (SmallRng.from_seed 42)).1 ≡ₚ [0; 1; 2]%nat.
Proof.
  apply (weighted_order_sorted_permutation [of_Z 1; of_Z 2; of_Z 3] (SmallRng.from_seed 42)).
Defined.

End Select.
