(* ===== verification/Quarantine.v ===== *)
(** * Quarantine: temporary removal of dead upstreams

    Model of [session/rating/quarantine.rs].  Durations and instants are
    nanosecond counts, the [u32] counters are [Z] with their saturation written
    out; [Instant::now] is the argument [now]. *)
From S2P Require Import Prelude Rating.

Module Quarantine.
Import Policy.

Record QuarantinePolicy := mkPolicy {
  threshold : Z;
  initial : Z;
  max : Z;
  probe_lease : Z
}.

Definition default : QuarantinePolicy :=
  mkPolicy 3 (from_secs 30) (from_secs 600) (from_secs 25).
Definition disabled : QuarantinePolicy :=
  mkPolicy 0 (initial default) (max default) (probe_lease default).
Definition enabled (p : QuarantinePolicy) : bool := 0 <? threshold p.

Definition with_threshold (p : QuarantinePolicy) (v : Z) : QuarantinePolicy :=
  mkPolicy v (initial p) (max p) (probe_lease p).
Definition with_initial (p : QuarantinePolicy) (v : Z) : QuarantinePolicy :=
  mkPolicy (threshold p) v (max p) (probe_lease p).
Definition with_max (p : QuarantinePolicy) (v : Z) : QuarantinePolicy :=
  mkPolicy (threshold p) (initial p) v (probe_lease p).
Definition with_probe_lease (p : QuarantinePolicy) (v : Z) : QuarantinePolicy :=
  mkPolicy (threshold p) (initial p) (max p) v.

Definition validate {F} (p : QuarantinePolicy) : result (RatingError F) unit :=
  if negb (enabled p) then Ok tt
  else if initial p =? 0 then Err (InvalidPolicy QuarantineInitialZero)
  else if max p <? initial p
  then Err (InvalidPolicy (QuarantineMaxBelowInitial (max p) (initial p)))
  else if probe_lease p =? 0 then Err (InvalidPolicy QuarantineLeaseZero)
  else Ok tt.

(** The doubling loop with [left] iterations to go.  A duration has less than
    [2 ^ 95] nanoseconds, so [doubling_fuel] passes always reach the exit. *)
Definition doubling_fuel : nat := 96.
Fixpoint doublings (fuel : nat) (left length max : Z) : Z :=
  match fuel with
  | O => length
  | S fuel' =>
      if left <=? 0 then length
      else
        let doubled := dur_saturating_mul2 length in
        let stuck := doubled =? length in
        if stuck || (max <=? doubled) then doubled
        else doublings fuel' (left - 1) doubled max
  end.
Definition duration_for (p : QuarantinePolicy) (trips : Z) : Z :=
  Z.min (doublings doubling_fuel (saturating_sub trips 1) (initial p) (max p)) (max p).

Inductive State := Healthy | Quarantined | Probation.

#[global] Instance State_eq_dec : EqDecision State.
Proof. solve_decision. Defined.

Definition FAR : Z := from_secs (100 * 365 * 24 * 3600).
Definition deadline (now length : Z) : Z :=
  match instant_checked_add now length with
  | Some t => t
  | None => match instant_checked_add now FAR with Some t => t | None => now end
  end.

Record Cell := mkCell {
  consecutive : Z;
  trips : Z;
  until : option Z;
  lease_until : option Z
}.

Definition cell_default : Cell := mkCell 0 0 None None.

Definition state (c : Cell) (now : Z) : State :=
  match until c with
  | None => Healthy
  | Some until => if now <? until then Quarantined else Probation
  end.

Definition is_tripped (c : Cell) : bool :=
  match until c with Some _ => true | None => false end.

Definition hard_failure (c : Cell) (now : Z) (p : QuarantinePolicy) : option Z * Cell :=
  if bool_decide (state c now = Quarantined) then (None, c)
  else
    let consecutive := saturating_add32 (consecutive c) 1 in
    if consecutive <? threshold p
    then (None, mkCell consecutive (trips c) (until c) None)
    else
      let trips := saturating_add32 (trips c) 1 in
      let length := duration_for p trips in
      (Some length, mkCell consecutive trips (Some (deadline now length)) None).

Definition trip_now (c : Cell) (now : Z) (p : QuarantinePolicy) : Z * Cell :=
  let trips := saturating_add32 (trips c) 1 in
  let length := duration_for p trips in
  (length, mkCell (Z.max (consecutive c) (threshold p)) trips (Some (deadline now length)) None).

Definition snapshot (c : Cell) (now : Z) : State * Z * Z * Z :=
  let st := state c now in
  let left :=
    match st, until c with
    | Quarantined, Some until => saturating_duration_since until now
    | _, _ => 0
    end in
  (st, left, trips c, consecutive c).

Definition restore (quarantined : bool) (left trips consecutive now : Z)
    (p : QuarantinePolicy) (c : Cell) : Cell :=
  let left := if quarantined then Z.min left (max p) else 0 in
  mkCell (Z.max consecutive (threshold p)) (Z.max trips 1) (Some (deadline now left)) None.

Definition success (c : Cell) : Cell := cell_default.

Definition try_lease (c : Cell) (now : Z) (p : QuarantinePolicy) : bool * Cell :=
  if negb (bool_decide (state c now = Probation)) then (false, c)
  else if match lease_until c with Some lease => now <? lease | None => false end
  then (false, c)
  else
    let lease := match instant_checked_add now (probe_lease p) with
                 | Some t => t | None => now end in
    (true, mkCell (consecutive c) (trips c) (until c) (Some lease)).

Example duration_ex :
  map (duration_for default) [1; 2; 3; 5; 6; U32_MAX] =
  map from_secs [30; 60; 120; 480; 600; 600].
Proof. reflexivity. Qed.

(** ** Backoff length *)

Lemma doublings_spec fuel : forall left length mx,
  0 < length <= DURATION_MAX -> mx <= DURATION_MAX -> 0 <= left ->
  DURATION_MAX < length * 2 ^ Z.of_nat fuel ->
  Z.min (doublings fuel left length mx) mx = Z.min (length * 2 ^ left) mx.
Proof.
  induction fuel as [|fuel IH]; intros left length mx Hl Hmx Hleft Hf.
  - simpl in Hf. lia.
  - cbn [doublings]. destruct (left <=? 0) eqn:E; zify_bools.
    { replace left with 0 by lia. by rewrite Z.pow_0_r, Z.mul_1_r. }
    assert (Hpow : length * 2 ^ left = 2 * length * 2 ^ (left - 1)).
    { rewrite <- (Z.sub_add 1 left) at 1. rewrite Z.pow_add_r by lia. ring. }
    assert (Hge : 1 <= 2 ^ (left - 1)) by (pose proof (Z.pow_pos_nonneg 2 (left - 1)); lia).
    assert (Hbig : 2 * length <= length * 2 ^ left) by (rewrite Hpow; nia).
    unfold dur_saturating_mul2.
    destruct (_ =? _) eqn:E1; cbn [orb]; zify_bools; [lia|].
    destruct (mx <=? _) eqn:E2; zify_bools; [lia|].
    replace (Z.min (2 * length) DURATION_MAX) with (2 * length) by lia.
    rewrite Hpow. apply IH; try lia. rewrite Nat2Z.inj_succ, Z.pow_succ_r in Hf by lia. lia.
Qed.

(** Knobs an accepted, enabled policy has. *)
Definition valid (p : QuarantinePolicy) : Prop :=
  0 < threshold p <= U32_MAX /\ 0 < initial p <= max p /\ max p <= DURATION_MAX /\
  0 < probe_lease p <= DURATION_MAX.

Lemma default_valid : valid default.
Proof. unfold valid. cbv. repeat split; congruence. Qed.

(** The backoff law: the [n]-th quarantine lasts [initial] doubled [n - 1]
    times, capped at [max], for every trip count, without overflow. *)
Lemma duration_for_closed_form p n :
  valid p -> 1 <= n -> duration_for p n = Z.min (initial p * 2 ^ (n - 1)) (max p).
Proof.
  intros (_ & Hi & Hm & _) Hn. unfold duration_for, saturating_sub.
  replace (Z.max (n - 1) 0) with (n - 1) by lia. apply doublings_spec; try lia.
  enough (DURATION_MAX < 2 ^ Z.of_nat doubling_fuel) by nia. reflexivity.
Qed.

Lemma duration_for_bounds p n : valid p -> 1 <= n -> initial p <= duration_for p n <= max p.
Proof.
  intros Hp Hn. rewrite duration_for_closed_form by done. destruct Hp as (_ & Hi & _).
  assert (1 <= 2 ^ (n - 1)) by (pose proof (Z.pow_pos_nonneg 2 (n - 1)); lia). nia.
Qed.

(** ** The cell as a state machine *)

(** The calls [Ratings] makes on a cell, each with its clock reading. *)
Inductive Op :=
| OpHardFailure (now : Z)
| OpTripNow (now : Z)
| OpSuccess
| OpTryLease (now : Z)
| OpRestore (quarantined : bool) (left trips consecutive now : Z).

Definition run_op (p : QuarantinePolicy) (o : Op) (c : Cell) : Cell :=
  match o with
  | OpHardFailure now => (hard_failure c now p).2
  | OpTripNow now => (trip_now c now p).2
  | OpSuccess => success c
  | OpTryLease now => (try_lease c now p).2
  | OpRestore q rem tr co now => restore q rem tr co now p c
  end.

(** Saved counters are [u32]s. *)
Definition op_ok (o : Op) : Prop :=
  match o with
  | OpRestore _ rem tr co _ =>
      0 <= rem /\ 0 <= tr <= U32_MAX /\ 0 <= co <= U32_MAX
  | _ => True
  end.

Inductive step (p : QuarantinePolicy) : Cell -> Cell -> Prop :=
| step_op o c : op_ok o -> step p c (run_op p o c).

Definition reachable (p : QuarantinePolicy) (c : Cell) : Prop :=
  rtc (step p) cell_default c.

(** Counters stay [u32]s; a cell is tripped exactly when the failure streak has
    reached the threshold, and only a tripped cell has trips or a lease. *)
Definition wf (p : QuarantinePolicy) (c : Cell) : Prop :=
  0 <= consecutive c <= U32_MAX /\ 0 <= trips c <= U32_MAX /\
  match until c with
  | None => consecutive c < threshold p /\ trips c = 0 /\ lease_until c = None
  | Some _ => threshold p <= consecutive c /\ 1 <= trips c
  end.

Lemma default_wf p : valid p -> wf p cell_default.
Proof. intros ((? & ?) & _). unfold wf, U32_MAX. cbn. repeat split; lia || done. Qed.

Lemma state_not_quarantined_tripped c now :
  state c now = Probation -> exists u, until c = Some u /\ u <= now.
Proof.
  unfold state. destruct (until c) as [u|]; [|done]. destruct (now <? u) eqn:E; [done|].
  zify_bools. eauto.
Qed.

Lemma run_op_wf p o c : valid p -> op_ok o -> wf p c -> wf p (run_op p o c).
Proof.
  intros Hp Ho (Hc & Htr & Hu). pose proof Hp as ((Ht0 & Ht1) & _). unfold wf in *.
  destruct o as [now|now| |now|q rem tr co now]; cbn [run_op].
  - unfold hard_failure. case_bool_decide; [done|].
    unfold saturating_add32. destruct (_ <? threshold p) eqn:E; zify_bools; cbn.
    + unfold U32_MAX in *. destruct (until c); [lia|]. repeat split; lia || apply Hu.
    + unfold U32_MAX in *. lia.
  - unfold trip_now, saturating_add32. cbn. unfold U32_MAX in *. lia.
  - apply default_wf, Hp.
  - unfold try_lease. case_bool_decide as Hs; cbn [negb]; [|done].
    destruct (match lease_until c with Some _ => _ | None => _ end); [done|]. cbn.
    apply state_not_quarantined_tripped in Hs as (u & E & _). rewrite E in *. done.
  - cbn in Ho. unfold restore. cbn. unfold U32_MAX in *. lia.
Qed.

(** In every history of failures, health checks, successes, probe leases and
    restores, the cell's bookkeeping stays consistent: [u32] counters, a streak
    below the threshold while healthy, and a trip count and failure streak at
    the threshold or above once tripped. *)
Lemma cell_invariant p c : valid p -> reachable p c -> wf p c.
Proof.
  intros Hp Hr. unfold reachable in Hr. pose proof (default_wf p Hp) as H0.
  revert H0. induction Hr as [|c1 c2 c3 [o c Ho] _ IH]; [done|].
  intros H. apply IH. by apply run_op_wf.
Qed.

Lemma cell_invariant_witness :
  let c := run_op default (OpTryLease 99) (run_op default (OpTripNow 5) cell_default) in
  wf default c.
Proof.
  apply cell_invariant; [exact default_valid|].
  eapply rtc_l; [by apply (step_op _ (OpTripNow 5))|].
  eapply rtc_l; [by apply (step_op _ (OpTryLease 99))|]. apply rtc_refl.
Defined.

(** ** Deadlines *)

Lemma deadline_exact now length :
  now + length <= INSTANT_MAX -> deadline now length = now + length.
Proof.
  intros H. unfold deadline, instant_checked_add.
  by rewrite (proj2 (Z.leb_le _ _) H).
Qed.

Lemma deadline_ge now length : 0 <= length -> now <= deadline now length.
Proof.
  intros H. unfold deadline, instant_checked_add. split_ifs; zify_bools; try lia.
  unfold FAR, from_secs, NANOS. lia.
Qed.

(** Even when the clock cannot represent [now + length], the stand-in keeps the
    upstream quarantined for a hundred years. *)
Lemma deadline_far now length :
  0 <= length -> now + FAR <= INSTANT_MAX ->
  Z.min (now + length) (now + FAR) <= deadline now length.
Proof.
  intros H Hf. unfold deadline, instant_checked_add. split_ifs; zify_bools; lia.
Qed.

Lemma state_until c u now :
  until c = Some u -> state c now = if now <? u then Quarantined else Probation.
Proof. unfold state. by intros ->. Qed.

(** ** What each operation does *)

(** A quarantine of [len] running from [now]. *)
Definition quarantined_during (c : Cell) (now len : Z) : Prop :=
  (forall t, t < now + len -> state c t = Quarantined) /\
  (forall t, now + len <= t -> state c t = Probation).

Lemma quarantined_during_intro co tr l now len :
  now + len <= INSTANT_MAX ->
  quarantined_during (mkCell co tr (Some (deadline now len)) l) now len.
Proof.
  intros H. unfold quarantined_during, state. cbn. rewrite deadline_exact by done.
  split; intros t Ht.
  - by rewrite (proj2 (Z.ltb_lt _ _)).
  - by rewrite (proj2 (Z.ltb_ge _ _)).
Qed.

(** The effect of a hard failure, on every branch: inside a quarantine it is
    ignored; a healthy cell short of the threshold only counts it; at the
    threshold, and for any failed probe, it starts a quarantine of the next
    backoff length, which is over exactly when that length has passed. *)
Theorem hard_failure_effect p c now :
  valid p -> wf p c -> now + max p <= INSTANT_MAX ->
  match hard_failure c now p with
  | (None, c') =>
      (state c now = Quarantined /\ c' = c) \/
      (state c now = Healthy /\ consecutive c + 1 < threshold p /\
       c' = mkCell (consecutive c + 1) 0 None None)
  | (Some len, c') =>
      state c now <> Quarantined /\
      (state c now = Healthy -> consecutive c + 1 = threshold p) /\
      trips c' = Z.min (trips c + 1) U32_MAX /\ lease_until c' = None /\
      len = Z.min (initial p * 2 ^ (trips c' - 1)) (max p) /\
      quarantined_during c' now len
  end.
Proof.
  intros Hp (Hc & Ht & Hu) Hnow. unfold hard_failure.
  case_bool_decide as Hq; [by left|].
  pose proof Hp as ((Ht0 & Ht1) & _).
  unfold saturating_add32. destruct (_ <? threshold p) eqn:E; zify_bools.
  - right. unfold state. destruct (until c) as [u|]; [unfold U32_MAX in *; lia|].
    destruct Hu as (Hlt & -> & _). repeat split; [unfold U32_MAX in *; lia|].
    f_equal. unfold U32_MAX in *. lia.
  - assert (H1 : 1 <= Z.min (trips c + 1) U32_MAX) by (unfold U32_MAX in *; lia).
    split; [done|]. split.
    { unfold state. destruct (until c) as [u|]; [by destruct (now <? u)|].
      unfold U32_MAX in *. lia. }
    cbn [trips lease_until]. repeat (split; [done|]). split.
    + by apply duration_for_closed_form.
    + apply quarantined_during_intro.
      pose proof (duration_for_bounds p _ Hp H1). lia.
Qed.

Lemma hard_failure_effect_witness :
  wf default (mkCell 2 0 None None) /\
  match hard_failure (mkCell 2 0 None None) 7 default with
  | (None, c') =>
      (state (mkCell 2 0 None None) 7 = Quarantined /\ c' = mkCell 2 0 None None) \/
      (state (mkCell 2 0 None None) 7 = Healthy /\ 2 + 1 < threshold default /\
       c' = mkCell (2 + 1) 0 None None)
  | (Some len, c') =>
      state (mkCell 2 0 None None) 7 <> Quarantined /\
      (state (mkCell 2 0 None None) 7 = Healthy -> 2 + 1 = threshold default) /\
      trips c' = Z.min (0 + 1) U32_MAX /\ lease_until c' = None /\
      len = Z.min (initial default * 2 ^ (trips c' - 1)) (max default) /\
      quarantined_during c' 7 len
  end.
Proof.
  assert (Hwf : wf default (mkCell 2 0 None None)) by (unfold wf, U32_MAX; cbn; repeat split; lia || done).
  split; [exact Hwf|].
  apply (hard_failure_effect default (mkCell 2 0 None None) 7 default_valid Hwf).
  vm_compute. congruence.
Defined.

(** Whether a probe can be claimed at [now]. *)
Definition leasable (c : Cell) (now : Z) : bool :=
  bool_decide (state c now = Probation) &&
  match lease_until c with Some l => l <=? now | None => true end.

Lemma try_lease_spec c now p :
  try_lease c now p =
  if leasable c now
  then (true, mkCell (consecutive c) (trips c) (until c)
          (Some (match instant_checked_add now (probe_lease p) with
                 | Some t => t | None => now end)))
  else (false, c).
Proof.
  unfold try_lease, leasable. case_bool_decide; cbn [negb andb]; [|done].
  destruct (lease_until c) as [l|]; [|done].
  destruct (now <? l) eqn:E1; destruct (l <=? now) eqn:E2; zify_bools; try done; lia.
Qed.

(** Probes are exclusive: after a probe of an upstream has been handed out
    at [t1], no further one is handed out before the lease has run out, and one
    is as soon as it has, unless an outcome was recorded in between. *)
Lemma lease_exclusive p c t1 c' t2 :
  try_lease c t1 p = (true, c') -> t1 <= t2 -> t1 + probe_lease p <= INSTANT_MAX ->
  (try_lease c' t2 p).1 = negb (t2 <? t1 + probe_lease p).
Proof.
  rewrite !try_lease_spec. unfold leasable.
  case_bool_decide as Hs; cbn [andb]; [|done].
  apply state_not_quarantined_tripped in Hs as (u & Hu & Hle).
  destruct (match lease_until c with Some _ => _ | None => _ end); [|done].
  intros [= <-] H12 Hmax. unfold instant_checked_add. rewrite (proj2 (Z.leb_le _ _) Hmax).
  cbn [lease_until]. rewrite bool_decide_eq_true_2.
  2: { rewrite (state_until _ u); [|done]. by rewrite (proj2 (Z.ltb_ge _ _)) by lia. }
  cbn [andb]. destruct (t1 + probe_lease p <=? t2) eqn:E; zify_bools.
  - by rewrite (proj2 (Z.ltb_ge _ _)).
  - by rewrite (proj2 (Z.ltb_lt _ _)) by lia.
Qed.

(** What [Ratings::restore_health] does with a saved, non-alive record. *)
Definition restore_snapshot (p : QuarantinePolicy) (now : Z) (s : State * Z * Z * Z)
    (c : Cell) : Cell :=
  let '(st, rem, tr, co) := s in
  restore (bool_decide (st = Quarantined)) rem tr co now p c.

(** Saving and restoring loses nothing: a tripped cell whose remaining time is
    within the policy's maximum, saved at [now] and restored into any cell at
    [now'] (of another clock), gives back the same state, time left, trips and
    streak. *)
Lemma snapshot_restore p c c0 now now' :
  valid p -> wf p c -> is_tripped c = true ->
  saturating_duration_since (from_option id 0 (until c)) now <= max p ->
  now' + max p <= INSTANT_MAX ->
  snapshot (restore_snapshot p now' (snapshot c now) c0) now' = snapshot c now.
Proof.
  intros ((Ht0 & _) & Hi & _) (Hc & Ht & Hu) Htr Hleft Hnow. unfold is_tripped in Htr.
  unfold snapshot at 2, restore_snapshot, restore. destruct (until c) as [u|] eqn:E; [|done].
  unfold snapshot. rewrite (state_until c u now E), E. cbn in Hleft.
  unfold saturating_duration_since in *. destruct (now <? u) eqn:Elt; zify_bools.
  - rewrite bool_decide_eq_true_2 by done. unfold state. cbn.
    rewrite deadline_exact by lia. rewrite (proj2 (Z.ltb_lt _ _)) by lia.
    f_equal; [f_equal; [f_equal; lia|lia]|lia].
  - rewrite bool_decide_eq_false_2 by done. unfold state. cbn.
    rewrite deadline_exact by lia. rewrite (proj2 (Z.ltb_ge _ _)) by lia.
    by rewrite !Z.max_l by lia.
Qed.

End Quarantine.
