(* ===== verification/Ratings.v ===== *)
(** * Ratings: the thread-safe integrator of sand and quarantine

    Model of [session/rating/mod.rs] and [session/rating/health.rs].  The mutex
    makes each method one atomic step on the state; [Instant::now] is the
    argument [now] and the operating-system seed is the argument [seed]. *)
From S2P Require Import Prelude Floats Rating Select Quarantine.

Module Ratings.
Import Quarantine.

(** ** State *)

Record t (F : Type) := mk {
  policy : Policy.RatingPolicy F;
  quarantine : QuarantinePolicy;
  cells : list (Sand.t F);
  qcells : list Cell;
  rng : SmallRng.t
}.
Arguments mk {F}.
Arguments policy {F}.
Arguments quarantine {F}.
Arguments cells {F}.
Arguments qcells {F}.
Arguments rng {F}.

Inductive UpstreamState := Alive | UQuarantined | UProbation.

#[global] Instance UpstreamState_eq_dec : EqDecision UpstreamState.
Proof. solve_decision. Defined.

Record Health := mkHealth {
  h_state : UpstreamState;
  remaining : Z;
  h_trips : Z;
  h_consecutive : Z
}.

Definition is_healthy (now : Z) (c : Cell) : bool := bool_decide (state c now = Healthy).

(** The mutable borrows of the locked [Inner]. *)
Definition set_cells {F} (r : t F) (x : list (Sand.t F)) : t F :=
  mk (policy r) (quarantine r) x (qcells r) (rng r).
Definition set_qcells {F} (r : t F) (x : list Cell) : t F :=
  mk (policy r) (quarantine r) (cells r) x (rng r).
Definition set_rng {F} (r : t F) (x : SmallRng.t) : t F :=
  mk (policy r) (quarantine r) (cells r) (qcells r) x.

Section Ops.
  Context {F : Type} `{Float F}.

(** ** Construction *)

Definition try_with_quarantine (n : nat) (p : Policy.RatingPolicy F) (q : QuarantinePolicy)
    (now seed : Z) : result (Policy.RatingError F) (t F) :=
  _ ← Policy.validate p;
  _ ← validate q;
  Ok (mk p q (replicate n (Sand.new now)) (replicate n cell_default) (SmallRng.from_seed seed)).

Definition try_new (n : nat) (p : Policy.RatingPolicy F) (now seed : Z)
    : result (Policy.RatingError F) (t F) :=
  try_with_quarantine n p disabled now seed.

Definition len (r : t F) : nat := length (cells r).

(** ** Outcomes *)

Definition on_failure (i : nat) (now : Z) (r : t F) : t F :=
  if negb (Policy.enabled (policy r)) then r
  else
    match cells r !! i with
    | Some s => set_cells r (<[i := Sand.observe_failure s now (policy r)]> (cells r))
    | None => r
    end.

Definition on_hard_failure (i : nat) (now : Z) (r : t F) : option Z * t F :=
  match cells r !! i with
  | None => (None, r)
  | Some s =>
      let r1 := if Policy.enabled (policy r)
                then set_cells r (<[i := Sand.observe_failure s now (policy r)]> (cells r))
                else r in
      if negb (enabled (quarantine r)) then (None, r1)
      else
        match qcells r1 !! i with
        | Some c =>
            let '(res, c') := hard_failure c now (quarantine r) in
            (res, set_qcells r1 (<[i := c']> (qcells r1)))
        | None => (None, r1)
        end
  end.

Definition quarantine_now (i : nat) (now : Z) (r : t F) : option Z * t F :=
  if negb (enabled (quarantine r)) then (None, r)
  else
    match qcells r !! i with
    | None => (None, r)
    | Some c =>
        let '(length, c') := trip_now c now (quarantine r) in
        (Some length, set_qcells r (<[i := c']> (qcells r)))
    end.

Definition on_success (i : nat) (now : Z) (r : t F) : t F :=
  match cells r !! i with
  | None => r
  | Some s =>
      let r1 := if Policy.enabled (policy r)
                then set_cells r (<[i := Sand.observe_success s now (policy r)]> (cells r))
                else r in
      set_qcells r1 (alter success i (qcells r1))
  end.

Definition is_quarantined (r : t F) (i : nat) : bool :=
  match qcells r !! i with Some c => is_tripped c | None => false end.

(** ** Selection *)

Definition weights (r : t F) (now : Z) : list F :=
  map (fun s => Sand.weight s now (policy r)) (cells r).

(** [if !ok { *w = 0.0 }] over the zipped vectors. *)
Fixpoint zero_unhealthy (ws : list F) (healthy : list bool) : list F :=
  match ws, healthy with
  | w :: ws', ok :: hs => (if ok then w else of_Z 0) :: zero_unhealthy ws' hs
  | _, _ => ws
  end.

Definition pick_weights (r : t F) (now : Z) : list F :=
  let ws := weights r now in
  if enabled (quarantine r) then
    let healthy := map (is_healthy now) (qcells r) in
    if existsb id healthy then zero_unhealthy ws healthy else ws
  else ws.

(** [None] is the panic on an empty set. *)
Definition pick (now : Z) (r : t F) : option nat * t F :=
  if bool_decide (weights r now = []) then (None, r)
  else
    let '(i, rng') := Select.weighted_index (pick_weights r now) (rng r) in
    (Some i, set_rng r rng').

(** The indices a selection is made from; [quarantine[i]] is in range. *)
Definition selectable (r : t F) (now : Z) : list nat :=
  if enabled (quarantine r) && existsb (is_healthy now) (qcells r)
  then List.filter (fun i => match qcells r !! i with Some c => is_healthy now c | None => false end)
         (seq 0 (len r))
  else seq 0 (len r).

Definition pick_order (now : Z) (r : t F) : list nat * t F :=
  let eligible := selectable r now in
  let '(keyed, rng') :=
    Select.weighted_keys
      (omap (fun i => (fun s => Sand.weight s now (policy r)) <$> cells r !! i) eligible) (rng r) in
  (omap (fun j => eligible !! j) (Select.order_keys keyed), set_rng r rng').

(** The mutating [filter_map] over the enumerated cells. *)
Fixpoint lease_all (i : nat) (now : Z) (q : QuarantinePolicy) (cs : list Cell)
    : list nat * list Cell :=
  match cs with
  | [] => ([], [])
  | c :: cs' =>
      let '(won, c') := try_lease c now q in
      let '(js, cs'') := lease_all (S i) now q cs' in
      ((if won : bool then i :: js else js), c' :: cs'')
  end.

Definition take_probes (now : Z) (r : t F) : list nat * t F :=
  if negb (enabled (quarantine r)) then ([], r)
  else let '(js, cs) := lease_all 0 now (quarantine r) (qcells r) in (js, set_qcells r cs).

(** ** Persisted health *)

Definition health_of (now : Z) (c : Cell) : Health :=
  let '(st, rem, tr, co) := snapshot c now in
  mkHealth (match st with
            | Healthy => Alive | Quarantined => UQuarantined | Probation => UProbation end)
    rem tr co.
Definition health (r : t F) (now : Z) : list Health := map (health_of now) (qcells r).

Definition restore_health (i : nat) (h : Health) (now : Z) (r : t F) : bool * t F :=
  if negb (enabled (quarantine r)) || bool_decide (h_state h = Alive) then (false, r)
  else
    match qcells r !! i with
    | None => (false, r)
    | Some c =>
        (true, set_qcells r
           (<[i := restore (bool_decide (h_state h = UQuarantined)) (remaining h) (h_trips h)
                     (h_consecutive h) now (quarantine r) c]> (qcells r)))
    end.

End Ops.

(** ** The history of a set of ratings *)

Section Laws.
  Context {F : Type} `{FloatLaws F}.
  Implicit Types r : t F.

(** The slots match, and every quarantine cell is well formed. *)
Definition wf r : Prop :=
  length (qcells r) = len r /\
  (enabled (quarantine r) = true -> valid (quarantine r)) /\
  Forall (fun c => if enabled (quarantine r) then Quarantine.wf (quarantine r) c
                   else until c = None) (qcells r).

Inductive Call :=
| CFailure (i : nat) (now : Z)
| CHardFailure (i : nat) (now : Z)
| CQuarantineNow (i : nat) (now : Z)
| CSuccess (i : nat) (now : Z)
| CPick (now : Z)
| CPickOrder (now : Z)
| CTakeProbes (now : Z)
| CRestore (i : nat) (h : Health) (now : Z).

Definition run (c : Call) r : t F :=
  match c with
  | CFailure i now => on_failure i now r
  | CHardFailure i now => (on_hard_failure i now r).2
  | CQuarantineNow i now => (quarantine_now i now r).2
  | CSuccess i now => on_success i now r
  | CPick now => (pick now r).2
  | CPickOrder now => (pick_order now r).2
  | CTakeProbes now => (take_probes now r).2
  | CRestore i h now => (restore_health i h now r).2
  end.

(** A saved record's counters are [u32]s and its time a [Duration]. *)
Definition health_ok (h : Health) : Prop :=
  0 <= remaining h /\ 0 <= h_trips h <= U32_MAX /\ 0 <= h_consecutive h <= U32_MAX.

Definition call_ok (c : Call) : Prop :=
  match c with CRestore _ h _ => health_ok h | _ => True end.

(** ** The lengths and the cells *)

Lemma insert_wf_cells r i s : wf r -> wf (set_cells r (<[i := s]> (cells r))).
Proof. unfold wf, len. cbn. by rewrite length_insert. Qed.

Lemma insert_wf_qcells r i c :
  wf r -> enabled (quarantine r) = true -> Quarantine.wf (quarantine r) c ->
  wf (set_qcells r (<[i := c]> (qcells r))).
Proof.
  unfold wf, len. cbn. rewrite length_insert. intros (? & ? & Hall) E Hc.
  split; [done|]. split; [done|]. apply Forall_insert; [done|]. by rewrite E.
Qed.

Lemma wf_qcell r i c :
  wf r -> enabled (quarantine r) = true -> qcells r !! i = Some c -> Quarantine.wf (quarantine r) c.
Proof.
  intros (_ & _ & Hall) E Hc. pose proof (Forall_lookup_Some _ _ _ _ Hall Hc) as H1.
  by rewrite E in H1.
Qed.

Lemma wf_valid r : wf r -> enabled (quarantine r) = true -> valid (quarantine r).
Proof. by intros (_ & H1 & _). Qed.

Lemma hard_failure_wf p c now : valid p -> Quarantine.wf p c -> Quarantine.wf p (hard_failure c now p).2.
Proof. intros Hp Hc. by apply (run_op_wf p (OpHardFailure now)). Qed.

Lemma lease_all_spec now q cs : forall i,
  lease_all i now q cs =
  (omap (fun '(j, c) => if leasable c now then Some j else None) (zip (seq i (length cs)) cs),
   map (fun c => (try_lease c now q).2) cs).
Proof.
  induction cs as [|c cs IH]; intros i; [done|]. cbn. rewrite (IH (S i)), try_lease_spec.
  by destruct (leasable c now).
Qed.

Lemma on_failure_wf i now r : wf r -> wf (on_failure i now r).
Proof.
  intros Hw. unfold on_failure. destruct (negb _); [done|].
  destruct (cells r !! i); [by apply insert_wf_cells | done].
Qed.

Lemma on_hard_failure_wf i now r : wf r -> wf (on_hard_failure i now r).2.
Proof.
  intros Hw. unfold on_hard_failure. destruct (cells r !! i) as [s|]; [|done].
  set (r1 := if Policy.enabled _ then _ else _).
  assert (Hr1 : wf r1) by (unfold r1; destruct (Policy.enabled _); [by apply insert_wf_cells|done]).
  assert (Hq : quarantine r1 = quarantine r) by (unfold r1; by destruct (Policy.enabled _)).
  rewrite <- Hq. clearbody r1. clear Hw Hq. destruct (enabled (quarantine r1)) eqn:E; cbn [negb]; [|done].
  destruct (qcells r1 !! i) as [c|] eqn:Ec; [|done].
  pose proof (hard_failure_wf _ c now (wf_valid _ Hr1 E) (wf_qcell _ _ _ Hr1 E Ec)) as Hc.
  destruct (hard_failure _ _ _) as [res c']. by apply insert_wf_qcells.
Qed.

Lemma quarantine_now_wf i now r : wf r -> wf (quarantine_now i now r).2.
Proof.
  intros Hw. unfold quarantine_now. destruct (enabled (quarantine r)) eqn:E; cbn [negb]; [|done].
  destruct (qcells r !! i) as [c|] eqn:Ec; [|done].
  pose proof (run_op_wf _ (OpTripNow now) c (wf_valid _ Hw E) I (wf_qcell _ _ _ Hw E Ec)) as Hc.
  cbn [run_op] in Hc. destruct (trip_now _ _ _) as [l c']. by apply insert_wf_qcells.
Qed.

Lemma on_success_wf i now r : wf r -> wf (on_success i now r).
Proof.
  intros Hw. unfold on_success. destruct (cells r !! i) as [s|]; [|done].
  set (r1 := if Policy.enabled _ then _ else _).
  assert (Hr1 : wf r1) by (unfold r1; destruct (Policy.enabled _); [by apply insert_wf_cells|done]).
  clearbody r1. clear Hw. destruct Hr1 as (Hl & Hv & Hall). unfold wf, len. cbn.
  rewrite length_alter. split; [done|]. split; [done|].
  apply Forall_alter; [done|]. intros c _ _. unfold success.
  destruct (enabled (quarantine r1)); [by apply default_wf, Hv | done].
Qed.

Lemma take_probes_wf now r : wf r -> wf (take_probes now r).2.
Proof.
  intros Hw. unfold take_probes. destruct (enabled (quarantine r)) eqn:E; cbn [negb]; [|done].
  rewrite lease_all_spec. cbn. destruct Hw as (Hl & Hv & Hall). unfold wf, len. cbn.
  rewrite length_map. split; [done|]. split; [done|]. rewrite E in *. rewrite Forall_map.
  eapply Forall_impl; [exact Hall|]. intros c Hc.
  by apply (run_op_wf _ (OpTryLease now) c (Hv eq_refl) I).
Qed.

Lemma restore_health_wf i h now r : health_ok h -> wf r -> wf (restore_health i h now r).2.
Proof.
  intros Hh Hw. unfold restore_health.
  destruct (enabled (quarantine r)) eqn:E; cbn [negb orb]; [|done].
  case_bool_decide; [done|]. destruct (qcells r !! i) as [c|] eqn:Ec; [|done]. cbn.
  apply insert_wf_qcells; try done.
  apply (run_op_wf _ (OpRestore _ (remaining h) (h_trips h) (h_consecutive h) now) c);
    [by apply wf_valid | exact Hh | by apply (wf_qcell _ i)].
Qed.

Lemma set_rng_wf r g : wf r -> wf (set_rng r g).
Proof. done. Qed.

Lemma run_wf c r : call_ok c -> wf r -> wf (run c r).
Proof.
  intros Hc Hw. destruct c; cbn [run].
  - by apply on_failure_wf.
  - by apply on_hard_failure_wf.
  - by apply quarantine_now_wf.
  - by apply on_success_wf.
  - unfold pick. case_bool_decide; [done|]. by destruct (Select.weighted_index _ _).
  - unfold pick_order. by destruct (Select.weighted_keys _ _).
  - by apply take_probes_wf.
  - by apply restore_health_wf.
Qed.

(** Construction: what the types of the arguments already bound. *)
Definition typed (q : QuarantinePolicy) : Prop :=
  0 <= threshold q <= U32_MAX /\ 0 <= initial q /\ 0 <= max q <= DURATION_MAX /\
  0 <= probe_lease q <= DURATION_MAX.

Lemma validate_valid q :
  typed q -> validate (F := F) q = Ok tt -> enabled q = true -> valid q.
Proof.
  unfold validate, typed, valid, enabled. intros Ht Hv He. rewrite He in Hv. cbn in Hv.
  case_hyp Hv; zify_bools; lia.
Qed.

Lemma Forall_replicate_same {A} (P : A -> Prop) n x : P x -> Forall P (replicate n x).
Proof. intros Hx. by apply Forall_replicate. Qed.

Lemma try_with_quarantine_wf n p q now seed r :
  typed q -> try_with_quarantine n p q now seed = Ok r -> wf r /\ len r = n /\ quarantine r = q.
Proof.
  unfold try_with_quarantine, mbind, result_bind. intros Ht.
  destruct (Policy.validate p); [|done].
  destruct (validate q) as [[]|] eqn:Hv; [|done]. intros [= <-]. unfold wf, len. cbn.
  rewrite !length_replicate. split; [|done]. split; [done|].
  split; [by apply validate_valid|]. apply Forall_replicate_same.
  destruct (enabled q) eqn:E; [by apply default_wf, validate_valid | done].
Qed.

Lemma run_policies c r :
  policy (run c r) = policy r /\ quarantine (run c r) = quarantine r /\ len (run c r) = len r.
Proof.
  destruct c; cbn [run]; unfold on_failure, on_hard_failure, quarantine_now, on_success,
    pick, pick_order, take_probes, restore_health, len;
    repeat case_match; cbn [set_cells set_qcells set_rng policy quarantine cells snd];
    simplify_eq/=; rewrite ?length_insert; done.
Qed.

(** Every history of calls keeps the bookkeeping consistent: as many sand
    cells as quarantine cells as upstreams, and every cell a reachable one. *)
Theorem ratings_invariant n p q now seed r calls :
  typed q -> try_with_quarantine n p q now seed = Ok r -> Forall call_ok calls ->
  let r' := foldl (flip run) r calls in
  wf r' /\ len r' = n /\ quarantine r' = q.
Proof.
  intros Ht Hr Hcs. cbn. pose proof (try_with_quarantine_wf _ _ _ _ _ _ Ht Hr) as H1.
  clear Ht Hr. revert r H1. induction Hcs as [|c cs Hc _ IH]; intros r (Hw & Hl & Hq); [done|].
  cbn. apply IH. destruct (run_policies c r) as (_ & -> & ->).
  split; [by apply run_wf | done].
Qed.

(** ** Selection *)

Definition healthy_at r (now : Z) (i : nat) : Prop :=
  exists c, qcells r !! i = Some c /\ state c now = Healthy.

Lemma existsb_healthy r now :
  existsb (is_healthy now) (qcells r) = true <-> exists i, healthy_at r now i.
Proof.
  rewrite existsb_exists. unfold is_healthy, healthy_at. split.
  - intros (c & Hc & E%bool_decide_eq_true). apply list_elem_of_In, list_elem_of_lookup in Hc as [i Hi].
    eauto.
  - intros (i & c & Hc & E). exists c. split; [|by apply bool_decide_eq_true].
    apply list_elem_of_In, list_elem_of_lookup. eauto.
Qed.

(** When the selection is confined to healthy upstreams. *)
Definition confined r (now : Z) : Prop :=
  enabled (quarantine r) = true /\ exists i, healthy_at r now i.

Lemma confined_test r now :
  enabled (quarantine r) && existsb (is_healthy now) (qcells r) = true <-> confined r now.
Proof. by rewrite andb_true_iff, existsb_healthy. Qed.

Lemma selectable_spec r now i :
  wf r -> i ∈ selectable r now <-> (i < len r)%nat /\ (confined r now -> healthy_at r now i).
Proof.
  intros (Hl & _). unfold selectable.
  destruct (enabled _ && existsb _ _) eqn:E.
  - apply confined_test in E. rewrite list_elem_of_In, filter_In, in_seq.
    unfold healthy_at, is_healthy. split.
    + intros [Hi Hc]. split; [lia|]. intros _. destruct (qcells r !! i) as [c|]; [|done].
      apply bool_decide_eq_true in Hc. eauto.
    + intros [Hi Hc]. split; [lia|]. destruct (Hc E) as (c & -> & Hs). by apply bool_decide_eq_true.
  - apply not_true_iff_false in E. rewrite confined_test in E.
    rewrite list_elem_of_In, in_seq. split; [|lia]. intros Hi. split; [lia|done].
Qed.

Lemma selectable_NoDup r now : NoDup (selectable r now).
Proof.
  unfold selectable. destruct (_ && _); [|apply NoDup_seq].
  apply NoDup_ListNoDup, List.NoDup_filter, NoDup_ListNoDup, NoDup_seq.
Qed.

Lemma pick_order_perm now r : wf r -> (pick_order now r).1 ≡ₚ selectable r now.
Proof.
  intros Hw. unfold pick_order.
  set (ws := omap _ (selectable r now)).
  assert (Hlen : length ws = length (selectable r now)).
  { apply length_omap_total. intros i Hi. apply selectable_spec in Hi as [Hi _]; [|done].
    apply lookup_lt_is_Some_2 in Hi as [s Hs]. unfold len in *. rewrite Hs. by eexists. }
  pose proof (Select.weighted_keys_from_fst 0 ws (rng r)) as Hk. unfold Select.weighted_keys.
  destruct (Select.weighted_keys_from 0 ws (rng r)) as [keyed rng']. cbn in *.
  etrans; [apply omap_Permutation, Select.order_keys_perm|]. rewrite Hk, Hlen.
  by rewrite omap_lookup_seq.
Qed.

(** A route order names each upstream at most once; while an upstream is
    healthy it names exactly the healthy ones, and otherwise (or without a
    quarantine) all of them, so it is never empty; only the generator's state
    changes. *)
Theorem pick_order_exact now r :
  wf r ->
  let '(order, r') := pick_order now r in
  NoDup order /\
  (forall i, i ∈ order <-> (i < len r)%nat /\ (confined r now -> healthy_at r now i)) /\
  (order = [] <-> len r = 0%nat) /\
  r' = set_rng r (rng r').
Proof.
  intros Hw. pose proof (pick_order_perm now r Hw) as Hp.
  assert (Hr : (pick_order now r).2 = set_rng r (rng (pick_order now r).2))
    by (unfold pick_order; by destruct (Select.weighted_keys _ _)).
  destruct (pick_order now r) as [order r']. cbn in Hp, Hr.
  assert (Hin : forall i, i ∈ order <-> (i < len r)%nat /\ (confined r now -> healthy_at r now i))
    by (intros i; rewrite Hp; by apply selectable_spec).
  split; [rewrite Hp; apply selectable_NoDup|]. split; [done|]. split; [|done]. split.
  - intros ->. destruct (len r) as [|n] eqn:El; [done|]. exfalso.
    destruct (enabled (quarantine r) && existsb (is_healthy now) (qcells r)) eqn:Hc; [apply confined_test in Hc | apply not_true_iff_false in Hc; rewrite confined_test in Hc].
    + destruct (proj2 Hc) as [i Hi]. apply (not_elem_of_nil i), Hin. split; [|done].
      destruct Hw as [Hl _]. destruct Hi as (c & Hc' & _). apply lookup_lt_Some in Hc'. lia.
    + apply (not_elem_of_nil 0%nat), Hin. split; [lia|done].
  - intros El. destruct order as [|i order]; [done|]. exfalso.
    destruct (proj1 (Hin i)) as [Hi _]; [by left|]. lia.
Qed.

Lemma zero_unhealthy_lookup ws : forall hs i,
  zero_unhealthy ws hs !! i =
  (fun w => match hs !! i with Some false => of_Z 0 | _ => w end) <$> ws !! i.
Proof.
  induction ws as [|w ws IH]; intros [|h hs] [|i]; try done; cbn.
  1: by destruct (ws !! i).
  all: first [apply IH | by destruct h].
Qed.

Lemma eligible_zero : Select.eligible (of_Z 0 : F) = false.
Proof. unfold Select.eligible. by rewrite flt_zero, andb_false_r. Qed.

Lemma pick_weights_length r now : length (pick_weights r now) = len r.
Proof.
  assert (Hz : forall ws hs, length (zero_unhealthy ws hs) = length ws)
    by (induction ws as [|w ws IH]; intros [|h hs]; cbn; [..|rewrite IH]; done).
  unfold pick_weights, weights, len. repeat case_match; by rewrite ?Hz, length_map.
Qed.

(** A weight the selection can hit belongs to a healthy upstream when confined. *)
Lemma pick_weights_eligible r now i w :
  wf r -> pick_weights r now !! i = Some w -> Select.eligible w = true ->
  weights r now !! i = Some w /\ (confined r now -> healthy_at r now i).
Proof.
  intros (Hl & _) Hw He. unfold pick_weights in Hw. unfold confined.
  destruct (enabled (quarantine r)) eqn:E; [|by split; [|intros []]].
  destruct (existsb id _) eqn:Ex.
  - rewrite zero_unhealthy_lookup, list_lookup_fmap in Hw. unfold healthy_at.
    destruct (weights r now !! i) as [w0|] eqn:E0; [|done]. cbn in Hw.
    destruct (qcells r !! i) as [c|] eqn:Ec; cbn in Hw.
    + unfold is_healthy in Hw. case_bool_decide as Hs; [|simplify_eq; by rewrite eligible_zero in He].
      simplify_eq. split; [done|]. eauto.
    + apply lookup_ge_None in Ec. apply lookup_lt_Some in E0. unfold weights, len in *.
      rewrite length_map in E0. lia.
  - split; [done|]. intros [_ [j Hj]]. exfalso.
    apply not_true_iff_false in Ex. apply Ex. rewrite existsb_exists. destruct Hj as (c & Hc & Hs).
    exists true. split; [|done]. apply in_map_iff. exists c. unfold is_healthy.
    rewrite bool_decide_eq_true_2 by done. split; [done|].
    apply list_elem_of_In, list_elem_of_lookup. eauto.
Qed.

(** [pick] panics on the empty set only; otherwise it returns an upstream,
    and, as long as one healthy upstream has a usable weight, a healthy one with
    a usable weight, for every rounding of the float operations. *)
Theorem pick_healthy now r :
  wf r ->
  match pick now r with
  | (None, r') => len r = 0%nat /\ r' = r
  | (Some i, r') =>
      (i < len r)%nat /\ r' = set_rng r (rng r') /\
      forall j w, weights r now !! j = Some w -> Select.eligible w = true ->
        (confined r now -> healthy_at r now j) ->
        (confined r now -> healthy_at r now i) /\
        exists w', weights r now !! i = Some w' /\ Select.eligible w' = true
  end.
Proof.
  intros Hw. unfold pick. case_bool_decide as Hn.
  { split; [|done]. unfold weights in Hn. apply map_eq_nil in Hn. unfold len. by rewrite Hn. }
  pose proof (Select.weighted_index_eligible (pick_weights r now) (rng r)) as Hs.
  pose proof (pick_weights_length r now) as Hlen.
  destruct (Select.weighted_index _ _) as [i rng']. cbn [fst] in Hs.
  destruct (existsb Select.eligible _) eqn:Ee.
  - destruct Hs as (w & Hi & He). split; [apply lookup_lt_Some in Hi; lia|]. split; [done|].
    intros _ _ _ _ _. destruct (pick_weights_eligible _ _ _ _ Hw Hi He). eauto.
  - subst i. split.
    { unfold weights, len in *. destruct (cells r); [done|cbn; lia]. }
    split; [done|]. intros j w Hj He Hc. exfalso. apply not_true_iff_false in Ee. apply Ee.
    apply existsb_exists. exists w. split; [|done]. apply list_elem_of_In, list_elem_of_lookup.
    exists j. unfold pick_weights. unfold confined in Hc.
    destruct (enabled (quarantine r)) eqn:E; [|done]. destruct (existsb id _) eqn:Ex; [|done].
    rewrite zero_unhealthy_lookup, Hj, list_lookup_fmap. cbn.
    destruct Hc as (c & -> & Hs); [|cbn; unfold is_healthy; by rewrite bool_decide_eq_true_2].
    split; [done|]. apply existsb_healthy. rewrite existsb_exists in Ex |- *.
    destruct Ex as (b & (c & <- & Hin)%in_map_iff & Hb). eauto.
Qed.

(** ** Probes *)

Lemma take_probes_spec now r :
  enabled (quarantine r) = true ->
  (forall i, i ∈ (take_probes now r).1 <-> exists c, qcells r !! i = Some c /\ leasable c now = true) /\
  (take_probes now r).2 = set_qcells r (map (fun c => (try_lease c now (quarantine r)).2) (qcells r)).
Proof.
  intros E. unfold take_probes. rewrite E, lease_all_spec. cbn. split; [|done]. intros i.
  rewrite list_elem_of_omap. split.
  - intros ([j c] & [k Hk]%list_elem_of_lookup & Hj). case_match; [|done]. simplify_eq.
    apply lookup_zip_Some in Hk as [Hseq Hc]. apply lookup_seq in Hseq as [-> _]. eauto.
  - intros (c & Hc & Hle). exists (i, c). rewrite Hle. split; [|done].
    apply list_elem_of_lookup. exists i. apply lookup_zip_Some. split; [|done].
    apply lookup_seq. split; [done|]. by apply lookup_lt_Some in Hc.
Qed.

Lemma take_probes_NoDup now r : NoDup (take_probes now r).1.
Proof.
  unfold take_probes. destruct (negb _); [constructor|]. rewrite lease_all_spec. cbn.
  generalize 0%nat. induction (qcells r) as [|c cs IH]; intros i; [constructor|].
  cbn. destruct (leasable c now); [|apply IH]. constructor; [|apply IH].
  rewrite list_elem_of_omap. intros ([j c'] & [k Hk]%list_elem_of_lookup & Hj).
  case_match; [|done]. simplify_eq. apply lookup_zip_Some in Hk as [Hseq _].
  apply lookup_seq in Hseq. lia.
Qed.

(** Probing hands out exactly the upstreams whose quarantine has ended and
    whose lease is free, each once, and none of them a second time before its
    lease has run out. *)
Theorem take_probes_exclusive r t1 t2 :
  enabled (quarantine r) = true ->
  t1 <= t2 < t1 + probe_lease (quarantine r) -> t1 + probe_lease (quarantine r) <= INSTANT_MAX ->
  let '(probes, r') := take_probes t1 r in
  NoDup probes /\
  (forall i, i ∈ probes <-> exists c, qcells r !! i = Some c /\ leasable c t1 = true) /\
  (forall i, i ∈ probes -> i ∉ (take_probes t2 r').1).
Proof.
  intros E Ht Hmax. destruct (take_probes_spec t1 r E) as [Hin Hr'].
  pose proof (take_probes_NoDup t1 r) as Hnd.
  destruct (take_probes t1 r) as [probes r']. cbn in Hin, Hr', Hnd.
  split; [done|]. split; [done|]. intros i Hi Hi2. apply Hin in Hi as (c & Hc & Hle).
  assert (E' : enabled (quarantine r') = true) by (subst r'; done).
  apply take_probes_spec in Hi2 as (c' & Hc' & Hle'); [|done]. subst r'. cbn in Hc'.
  rewrite list_lookup_fmap, Hc in Hc'. cbn in Hc'. simplify_eq.
  assert (Hl1 : try_lease c t1 (quarantine r) = (true, (try_lease c t1 (quarantine r)).2))
    by (rewrite try_lease_spec, Hle; done).
  pose proof (lease_exclusive (quarantine r) c t1 _ t2 Hl1) as Hx.
  rewrite try_lease_spec, Hle' in Hx. cbn in Hx.
  specialize (Hx ltac:(lia) Hmax). rewrite (proj2 (Z.ltb_lt _ _)) in Hx by lia. done.
Qed.

(** ** The life cycle of a dead upstream *)

Definition fail_all (i : nat) (ts : list Z) r : t F :=
  foldl (fun r t => (on_hard_failure i t r).2) r ts.

Lemma on_hard_failure_cell i now r c :
  (i < len r)%nat -> enabled (quarantine r) = true -> qcells r !! i = Some c ->
  (on_hard_failure i now r).1 = (hard_failure c now (quarantine r)).1 /\
  qcells (on_hard_failure i now r).2 = <[i := (hard_failure c now (quarantine r)).2]> (qcells r).
Proof.
  intros Hi E Hc. unfold on_hard_failure. apply lookup_lt_is_Some_2 in Hi as [s Hs]. rewrite Hs, E.
  cbn [negb]. destruct (Policy.enabled (policy r)); cbn; rewrite Hc; by destruct (hard_failure _ _ _).
Qed.

Lemma fail_all_below i ts : forall r k,
  wf r -> (i < len r)%nat -> enabled (quarantine r) = true ->
  qcells r !! i = Some (mkCell k 0 None None) -> 0 <= k ->
  k + Z.of_nat (length ts) < threshold (quarantine r) ->
  let r' := fail_all i ts r in
  wf r' /\ quarantine r' = quarantine r /\ len r' = len r /\
  qcells r' = <[i := mkCell (k + Z.of_nat (length ts)) 0 None None]> (qcells r).
Proof.
  induction ts as [|t ts IH]; intros r k Hw Hi E Hc Hk Hlt; cbn zeta; cbn [length] in Hlt.
  { cbn. rewrite Z.add_0_r. split; [done|]. split; [done|]. split; [done|].
    symmetry. by apply list_insert_id. }
  cbn [fail_all foldl]. destruct (run_policies (CHardFailure i t) r) as (_ & Hq & Hl). cbn [run] in Hq, Hl.
  pose proof (on_hard_failure_wf i t r Hw) as Hw'.
  destruct (on_hard_failure_cell i t r _ Hi E Hc) as [_ Hcells].
  set (r1 := (on_hard_failure i t r).2) in *. clearbody r1.
  pose proof (wf_valid r Hw E) as ((_ & Hthr) & _).
  unfold hard_failure in Hcells. cbn in Hcells. unfold saturating_add32 in Hcells.
  rewrite Z.min_l in Hcells by lia. rewrite (proj2 (Z.ltb_lt _ _)) in Hcells by lia.
  cbn in Hcells. apply lookup_lt_Some in Hc as Hil.
  destruct (IH r1 (k + 1)) as (Hwf & Hq1 & Hl1 & Hc1); rewrite ?Hq, ?Hl; try done; try lia.
  { rewrite Hcells. by apply list_lookup_insert_eq. }
  unfold fail_all in *. rewrite Hq1, Hl1, Hc1.
  split; [done|]. split; [done|]. split; [done|]. rewrite Hcells, list_insert_insert_eq.
  f_equal. f_equal. cbn [length]. lia.
Qed.

Lemma pick_order_in now r i :
  wf r -> i ∈ (pick_order now r).1 <-> (i < len r)%nat /\ (confined r now -> healthy_at r now i).
Proof. intros Hw. by rewrite pick_order_perm, selectable_spec. Qed.

(** The life cycle of an upstream that dies: below the threshold its
    failures leave it selectable; the [threshold]-th in a row takes it out of
    every route order while another upstream is healthy; for the initial backoff
    no probe is handed out, afterwards one is; and one success makes it selectable
    again at once. *)
Theorem quarantine_lifecycle r i ts t0 :
  wf r -> (i < len r)%nat -> enabled (quarantine r) = true ->
  qcells r !! i = Some cell_default ->
  Z.of_nat (length ts) + 1 = threshold (quarantine r) ->
  t0 + initial (quarantine r) <= INSTANT_MAX ->
  let r1 := fail_all i ts r in
  let '(tripped, r2) := on_hard_failure i t0 r1 in
  (forall t, i ∈ (pick_order t r1).1) /\
  tripped = Some (initial (quarantine r)) /\
  (forall t j, healthy_at r2 t j -> i ∉ (pick_order t r2).1) /\
  (forall t, i ∈ (take_probes t r2).1 <-> t0 + initial (quarantine r) <= t) /\
  (forall t t', i ∈ (pick_order t' (on_success i t r2)).1).
Proof.
  intros Hw Hi E Hc Hts Ht0. cbn zeta.
  destruct (fail_all_below i ts r 0 Hw Hi E Hc) as (Hw1 & Hq1 & Hl1 & Hc1); [lia..|].
  set (r1 := fail_all i ts r) in *. clearbody r1. cbn [Z.add] in Hc1.
  assert (Hc1i : qcells r1 !! i = Some (mkCell (0 + Z.of_nat (length ts)) 0 None None)).
  { rewrite Hc1. apply list_lookup_insert_eq. by apply lookup_lt_Some in Hc. }
  pose proof (wf_valid r Hw E) as Hv. pose proof Hv as ((Hthr0 & Hthr) & _).
  rewrite <- Hl1 in Hi. rewrite <- Hq1 in Hv, Hthr0, Hthr, E, Ht0, Hts |- *.
  destruct (on_hard_failure_cell i t0 r1 _ Hi E Hc1i) as [Htr Hcells].
  destruct (run_policies (CHardFailure i t0) r1) as (_ & Hq2 & Hl2). cbn [run] in Hq2, Hl2.
  pose proof (on_hard_failure_wf i t0 r1 Hw1) as Hw2.
  destruct (on_hard_failure i t0 r1) as [tripped r2]. cbn [fst snd] in *.
  assert (Hdur : duration_for (quarantine r1) 1 = initial (quarantine r1)).
  { rewrite duration_for_closed_form by (done || lia). rewrite Z.pow_0_r, Z.mul_1_r.
    destruct Hv as (_ & ? & _). lia. }
  unfold hard_failure in Htr, Hcells. cbn [state until consecutive trips] in Htr, Hcells.
  rewrite bool_decide_eq_false_2 in Htr, Hcells by done. unfold saturating_add32 in *.
  rewrite Z.min_l in Htr, Hcells by lia. rewrite (proj2 (Z.ltb_ge _ _)) in Htr, Hcells by lia.
  change (Z.min (0 + 1) U32_MAX) with 1 in *. rewrite Hdur in *. cbn [fst snd] in *.
  assert (Hc2i : qcells r2 !! i = Some (mkCell (0 + Z.of_nat (length ts) + 1) 1
            (Some (t0 + initial (quarantine r1))) None)).
  { rewrite Hcells, list_lookup_insert_eq by (by apply lookup_lt_Some in Hc1i).
    by rewrite deadline_exact. }
  assert (E2 : enabled (quarantine r2) = true) by (by rewrite Hq2).
  split; [|split; [done|split; [|split]]].
  - intros t. apply pick_order_in; [done|]. split; [done|]. intros _. by eexists.
  - intros t j Hj. rewrite pick_order_in by done. intros [_ Hh].
    destruct Hh as (c & Hc' & Hs); [by split; eauto|]. rewrite Hc2i in Hc'. simplify_eq.
    unfold state in Hs. cbn in Hs. by case_match.
  - intros t. destruct (take_probes_spec t r2 E2) as [-> _]. rewrite Hc2i. split.
    + intros (c & [= <-] & Hle). unfold leasable, state in Hle. cbn in Hle.
      destruct (t <? _) eqn:Elt; [done|]. by zify_bools.
    + intros Hge. eexists. split; [done|]. unfold leasable, state. cbn.
      by rewrite (proj2 (Z.ltb_ge _ _)).
  - intros t t'. apply pick_order_in; [by apply on_success_wf|].
    destruct (run_policies (CSuccess i t) r2) as (_ & _ & Hl3). cbn [run] in Hl3.
    rewrite Hl3, Hl2. split; [done|]. intros _. exists cell_default. split; [|done].
    unfold on_success. rewrite <- Hl2 in Hi. apply lookup_lt_is_Some_2 in Hi as [s Hs]. rewrite Hs.
    destruct (Policy.enabled (policy r2)); cbn; by rewrite list_lookup_alter_eq, Hc2i.
Qed.

(** ** Saved health *)

Lemma health_of_alive now c : h_state (health_of now c) = Alive <-> is_tripped c = false.
Proof.
  unfold health_of, snapshot, state, is_tripped. destruct (until c) as [u|]; [|done].
  by destruct (now <? u).
Qed.

Lemma health_of_restore p now now' c c0 :
  valid p -> Quarantine.wf p c -> is_tripped c = true ->
  saturating_duration_since (from_option id 0 (until c)) now <= max p ->
  now' + max p <= INSTANT_MAX ->
  let h := health_of now c in
  health_of now' (restore (bool_decide (h_state h = UQuarantined)) (remaining h) (h_trips h)
                    (h_consecutive h) now' p c0) = h.
Proof.
  intros Hp Hc Ht Hl Hn. pose proof (snapshot_restore p c c0 now now' Hp Hc Ht Hl Hn) as Hs.
  cbn zeta. unfold health_of. destruct (snapshot c now) as [[[st rem] tr] co].
  unfold restore_snapshot in Hs. cbn [h_state remaining h_trips h_consecutive].
  replace (bool_decide (match st with
                        | Healthy => Alive | Quarantined => UQuarantined | Probation => UProbation
                        end = UQuarantined)) with (bool_decide (st = Quarantined)) by (by destruct st).
  by rewrite Hs.
Qed.

End Laws.

(** ** A concrete set of ratings

    Three upstreams under the default policies, in binary64 arithmetic with
    stand-ins for the platform's [exp] and [ln]. *)
#[local] Instance demo_float : Float SpecFloat.spec_float :=
  F64 (fun _ => @ratio _ (F64 (fun x => x) (fun x => x)) 1 2) (fun x => x).
#[local] Instance demo_laws : FloatLaws SpecFloat.spec_float := F64_laws _ _.

Definition demo : t SpecFloat.spec_float :=
  mk Policy.default default (replicate 3 (Sand.new 0)) (replicate 3 cell_default)
    (SmallRng.from_seed 42).

Lemma demo_built : try_with_quarantine 3 Policy.default default 0 42 = Ok demo.
Proof. vm_compute. reflexivity. Qed.

Lemma demo_typed : typed default.
Proof. vm_compute. repeat split; congruence. Qed.

Lemma demo_wf : wf demo.
Proof. by destruct (try_with_quarantine_wf 3 _ _ 0 42 demo demo_typed demo_built). Qed.

Lemma ratings_invariant_witness :
  let calls := [CHardFailure 1 5; CQuarantineNow 2 6; CTakeProbes 7; CSuccess 2 8; CPickOrder 9] in
  let r' := foldl (flip run) demo calls in
  wf r' /\ len r' = 3%nat /\ quarantine r' = default.
Proof.
  apply (ratings_invariant 3 Policy.default default 0 42 demo _ demo_typed demo_built).
  repeat constructor.
Defined.

(** Upstream 1 quarantined at start-up: the order names 0 and 2 only. *)
Definition demo_down : t SpecFloat.spec_float := (quarantine_now 1 0 demo).2.

Lemma demo_down_wf : wf demo_down.
Proof. apply quarantine_now_wf, demo_wf. Qed.

Lemma pick_order_exact_witness :
  let '(order, r') := pick_order 5 demo_down in
  NoDup order /\
  (forall i, i ∈ order <->
     (i < len demo_down)%nat /\ (confined demo_down 5 -> healthy_at demo_down 5 i)) /\
  (order = [] <-> len demo_down = 0%nat) /\
  r' = set_rng demo_down (rng r').
Proof. exact (@pick_order_exact _ demo_float 5 demo_down demo_down_wf). Defined.

Lemma pick_healthy_witness :
  match pick 5 demo_down with
  | (None, r') => len demo_down = 0%nat /\ r' = demo_down
  | (Some i, r') =>
      (i < len demo_down)%nat /\ r' = set_rng demo_down (rng r') /\
      forall j w, weights demo_down 5 !! j = Some w -> Select.eligible w = true ->
        (confined demo_down 5 -> healthy_at demo_down 5 j) ->
        (confined demo_down 5 -> healthy_at demo_down 5 i) /\
        exists w', weights demo_down 5 !! i = Some w' /\ Select.eligible w' = true
  end.
Proof. exact (@pick_healthy _ demo_float demo_laws 5 demo_down demo_down_wf). Defined.

(** Its 30 seconds are over at [from_secs 31]: the probe is handed out once. *)
Lemma take_probes_exclusive_witness :
  let '(probes, r') := take_probes (from_secs 31) demo_down in
  NoDup probes /\
  (forall i, i ∈ probes <->
     exists c, qcells demo_down !! i = Some c /\ leasable c (from_secs 31) = true) /\
  (forall i, i ∈ probes -> i ∉ (take_probes (from_secs 40) r').1).
Proof.
  apply (take_probes_exclusive demo_down (from_secs 31) (from_secs 40));
    [reflexivity | split; vm_compute; congruence | vm_compute; congruence].
Defined.

Lemma quarantine_lifecycle_witness :
  let r1 := fail_all 1 [1; 2] demo in
  let '(tripped, r2) := on_hard_failure 1 3 r1 in
  (forall t, 1%nat ∈ (pick_order t r1).1) /\
  tripped = Some (initial (quarantine demo)) /\
  (forall t j, healthy_at r2 t j -> 1%nat ∉ (pick_order t r2).1) /\
  (forall t, 1%nat ∈ (take_probes t r2).1 <-> 3 + initial (quarantine demo) <= t) /\
  (forall t t', 1%nat ∈ (pick_order t' (on_success 1 t r2)).1).
Proof.
  apply (quarantine_lifecycle demo 1 [1; 2] 3 demo_wf); try reflexivity.
  - apply Nat.ltb_lt. reflexivity.
  - vm_compute. congruence.
Defined.

Example demo_order : map (fun i => bool_decide (i ∈ (pick_order 5 demo_down).1)) [0; 1; 2]%nat
                     = [true; false; true].
Proof. vm_compute. reflexivity. Qed.

End Ratings.
