(* ===== verification/Sticky.v ===== *)
(** * Sticky: the bounded target-to-upstream affinity cache

    Model of [StickyCache] in [session/rotator/mod.rs]: the entry map with its
    two [BTreeSet] indexes, an abstract least-recently-used list, and the proof
    that the cache implements it. *)
From S2P Require Import Prelude.

Module Sticky.

Section Cache.
  Context {P : Type}.

(** ** The cache *)

Record StickyEntry := mkEntry {
  proxy : P;
  last_used : Z;
  expires_at : Z;
  generation : Z
}.

Record t := mk {
  max_entries : nat;
  ttl : Z;
  entries : gmap (list ascii) StickyEntry;
  recency : gset (Z * Z * list ascii);
  expiry : gset (Z * list ascii);
  next_generation : Z
}.

Definition new (max_entries : nat) (ttl : Z) : t := mk max_entries ttl ∅ ∅ ∅ 0.

Definition recency_key (k : list ascii) (e : StickyEntry) : Z * Z * list ascii :=
  (last_used e, generation e, k).
Definition expiry_key (k : list ascii) (e : StickyEntry) : Z * list ascii := (expires_at e, k).

Definition remove (addr : list ascii) (c : t) : option (list ascii) * t :=
  match entries c !! addr with
  | None => (None, c)
  | Some e =>
      (Some addr,
       mk (max_entries c) (ttl c) (delete addr (entries c))
         (recency c ∖ {[recency_key addr e]}) (expiry c ∖ {[expiry_key addr e]})
         (next_generation c))
  end.

Definition get (addr : list ascii) (now : Z) (c : t) : option P * t :=
  match entries c !! addr with
  | None => (None, c)
  | Some e =>
      if expires_at e <=? now then (None, (remove addr c).2)
      else
        let e' := mkEntry (proxy e) now (expires_at e) (next_generation c) in
        (Some (proxy e),
         mk (max_entries c) (ttl c) (<[addr := e']> (entries c))
           ({[recency_key addr e']} ∪ recency c ∖ {[recency_key addr e]}) (expiry c)
           (wrapping_add64 (next_generation c) 1))
  end.

(** The entry to drop from a full cache. *)
Definition victim (now : Z) (c : t) : option (list ascii) :=
  let oldest := (fun x : Z * Z * list ascii => x.2) <$> bt_first (recency c) in
  match bt_first (expiry c) with
  | Some (deadline, key) => if deadline <=? now then Some key else oldest
  | None => oldest
  end.

Definition insert (addr : list ascii) (p : P) (now : Z) (c : t) : t :=
  if bool_decide (max_entries c = 0%nat) then c
  else
    let c1 := (remove addr c).2 in
    let c2 :=
      if (max_entries c1 <=? size (entries c1))%nat then
        match victim now c1 with Some v => (remove v c1).2 | None => c1 end
      else c1 in
    let expires_at := match instant_checked_add now (ttl c2) with Some d => d | None => now end in
    let e := mkEntry p now expires_at (next_generation c2) in
    mk (max_entries c2) (ttl c2) (<[addr := e]> (entries c2))
      ({[recency_key addr e]} ∪ recency c2) ({[expiry_key addr e]} ∪ expiry c2)
      (wrapping_add64 (next_generation c2) 1).

(** The calls the rotator makes, under its lock. *)
Inductive Op :=
| Get (addr : list ascii) (now : Z)
| Insert (addr : list ascii) (p : P) (now : Z)
| Remove (addr : list ascii).

Definition run (o : Op) (c : t) : option P * t :=
  match o with
  | Get a now => get a now c
  | Insert a p now => (None, insert a p now c)
  | Remove a => (None, (remove a c).2)
  end.

(** ** The indexes *)

(** Each entry owns exactly one recency record and one expiry record, and the
    size is within the cap. *)
Definition wf (c : t) : Prop :=
  (forall x, x ∈ recency c <-> exists e, entries c !! x.2 = Some e /\ x = recency_key x.2 e) /\
  (forall x, x ∈ expiry c <-> exists e, entries c !! x.2 = Some e /\ x = expiry_key x.2 e) /\
  (size (entries c) <= max_entries c)%nat.

Lemma new_wf m d : wf (new m d).
Proof.
  unfold wf, new. cbn. split; [|split; [|rewrite map_size_empty; lia]];
    intros x; rewrite ?lookup_empty; split; [set_solver|naive_solver|set_solver|naive_solver].
Qed.

Lemma remove_entries a c : entries (remove a c).2 = delete a (entries c).
Proof.
  unfold remove. destruct (entries c !! a) eqn:E; cbn; [done|]. by rewrite delete_id.
Qed.

Lemma remove_wf a c : wf c -> wf (remove a c).2.
Proof.
  intros (Hr & He & Hs). unfold remove. destruct (entries c !! a) as [e|] eqn:E; [|done].
  unfold wf. cbn. split; [|split].
  - intros [[u g] k]. rewrite elem_of_difference, elem_of_singleton, Hr. cbn. split.
    + intros [(e' & Hk & Hx) Hne]. exists e'. split; [|done].
      rewrite lookup_delete_ne; [done|]. intros <-. apply Hne. rewrite Hx. congruence.
    + intros (e' & [Hne Hk]%lookup_delete_Some & Hx). split; [eauto|].
      unfold recency_key. congruence.
  - intros [d k]. rewrite elem_of_difference, elem_of_singleton, He. cbn. split.
    + intros [(e' & Hk & Hx) Hne]. exists e'. split; [|done].
      rewrite lookup_delete_ne; [done|]. intros <-. apply Hne. rewrite Hx. congruence.
    + intros (e' & [Hne Hk]%lookup_delete_Some & Hx). split; [eauto|].
      unfold expiry_key. congruence.
  - rewrite map_size_delete, E. lia.
Qed.

Lemma get_wf a now c : wf c -> wf (get a now c).2.
Proof.
  intros Hw. unfold get. destruct (entries c !! a) as [e|] eqn:E; [|done].
  destruct (expires_at e <=? now); [by apply remove_wf|].
  destruct Hw as (Hr & He & Hs). unfold wf. cbn. split; [|split].
  - intros [[u g] k]. rewrite elem_of_union, elem_of_difference, !elem_of_singleton, Hr. cbn.
    split.
    + intros [[= -> -> ->]|[(e' & Hk & Hx) Hne]].
      * eexists. rewrite lookup_insert_eq. done.
      * exists e'. split; [|done]. rewrite lookup_insert_ne; [done|]. intros <-.
        apply Hne. rewrite Hx. congruence.
    + intros (e' & [[<- <-]|[Hne Hk]]%lookup_insert_Some & Hx); [by left|]. right.
      split; [eauto|]. unfold recency_key. congruence.
  - intros [d k]. rewrite He. cbn. split.
    + intros (e' & Hk & Hx). destruct (decide (a = k)) as [<-|Hne].
      * rewrite lookup_insert_eq. eexists. split; [done|]. by simplify_eq.
      * rewrite lookup_insert_ne by done. eauto.
    + intros (e' & [[<- <-]|[Hne Hk]]%lookup_insert_Some & Hx); [|eauto].
      exists e. split; [done|]. by rewrite Hx.
  - rewrite map_size_insert, E. done.
Qed.

(** The cache after the insertion has made room. *)
Definition make_room (a : list ascii) (now : Z) (c : t) : t :=
  let c1 := (remove a c).2 in
  if (max_entries c1 <=? size (entries c1))%nat then
    match victim now c1 with Some v => (remove v c1).2 | None => c1 end
  else c1.

Lemma remove_max a c : max_entries (remove a c).2 = max_entries c.
Proof. unfold remove. by destruct (entries c !! a). Qed.

Lemma remove_ttl a c : ttl (remove a c).2 = ttl c.
Proof. unfold remove. by destruct (entries c !! a). Qed.

Lemma remove_gen a c : next_generation (remove a c).2 = next_generation c.
Proof. unfold remove. by destruct (entries c !! a). Qed.

Lemma victim_live now c v : wf c -> victim now c = Some v -> is_Some (entries c !! v).
Proof.
  intros (Hr & He & _). unfold victim. intros Hv.
  assert (Ho : (fun x : Z * Z * list ascii => x.2) <$> bt_first (recency c) = Some v ->
               is_Some (entries c !! v)).
  { intros (x & [Hx _]%bt_first_Some & ->)%fmap_Some. apply Hr in Hx as (e & -> & _). by eexists. }
  destruct (bt_first (expiry c)) as [[d k]|] eqn:Ef; [|by apply Ho].
  destruct (d <=? now); [|by apply Ho]. simplify_eq.
  apply bt_first_Some in Ef as [Hx _]. apply He in Hx as (e & He' & _). by eexists.
Qed.

Lemma victim_None now c : wf c -> victim now c = None -> entries c = ∅.
Proof.
  intros (Hr & He & _). unfold victim. intros Hv.
  assert (Hn : bt_first (recency c) = None) by (repeat case_match; simplify_eq; by eapply fmap_None).
  apply bt_first_None in Hn. apply map_empty. intros k. destruct (entries c !! k) as [e|] eqn:E; [|done].
  assert (Hx : recency_key k e ∈ recency c) by (apply Hr; cbn; eauto). rewrite Hn in Hx. set_solver.
Qed.

Lemma make_room_wf a now c : wf c -> wf (make_room a now c).
Proof.
  intros Hw. unfold make_room. pose proof (remove_wf a c Hw). case_match; [|done].
  case_match; [by apply remove_wf | done].
Qed.

Lemma make_room_spec a now c :
  wf c -> max_entries c <> 0%nat ->
  max_entries (make_room a now c) = max_entries c /\ ttl (make_room a now c) = ttl c /\
  next_generation (make_room a now c) = next_generation c /\
  entries (make_room a now c) !! a = None /\
  (size (entries (make_room a now c)) < max_entries c)%nat.
Proof.
  intros Hw Hm. pose proof (remove_wf a c Hw) as Hw1. unfold make_room.
  assert (Ha : entries (remove a c).2 !! a = None) by (rewrite remove_entries; apply lookup_delete_eq).
  destruct (_ <=? _)%nat eqn:E.
  - destruct (victim now (remove a c).2) as [v|] eqn:Ev.
    + rewrite remove_max, remove_ttl, remove_gen, !remove_max, !remove_ttl, !remove_gen.
      rewrite remove_entries. apply victim_live in Ev as [e Ev]; [|done].
      split; [done|]. split; [done|]. split; [done|]. split.
      * rewrite lookup_delete_ne; [done|]. intros ->. congruence.
      * rewrite map_size_delete, Ev. destruct Hw1 as (_ & _ & Hs). rewrite remove_max in Hs. lia.
    + apply victim_None in Ev; [|done]. rewrite remove_max, remove_ttl, remove_gen.
      rewrite Ev in *. split; [done|]. split; [done|]. split; [done|]. split; [done|].
      rewrite map_size_empty. lia.
  - apply Nat.leb_gt in E. rewrite remove_max in E. rewrite remove_max, remove_ttl, remove_gen. done.
Qed.

Lemma insert_wf a p now c : wf c -> wf (insert a p now c).
Proof.
  intros Hw. unfold insert. case_bool_decide as Hm; [done|]. fold (make_room a now c).
  destruct (make_room_spec a now c Hw Hm) as (Hmax & _ & _ & Ha & Hs).
  destruct (make_room_wf a now c Hw) as (Hr & He & _).
  unfold wf. cbn. split; [|split].
  - intros [[u g] k]. rewrite elem_of_union, elem_of_singleton, Hr. cbn. split.
    + intros [[= -> -> ->]|(e' & Hk & Hx)].
      * eexists. by rewrite lookup_insert_eq.
      * exists e'. rewrite lookup_insert_ne; [done|]. congruence.
    + intros (e' & [[<- <-]|[Hne Hk]]%lookup_insert_Some & Hx); [by left|eauto].
  - intros [d k]. rewrite elem_of_union, elem_of_singleton, He. cbn. split.
    + intros [[= -> ->]|(e' & Hk & Hx)].
      * eexists. by rewrite lookup_insert_eq.
      * exists e'. rewrite lookup_insert_ne; [done|]. congruence.
    + intros (e' & [[<- <-]|[Hne Hk]]%lookup_insert_Some & Hx); [by left|eauto].
  - rewrite map_size_insert, Ha. lia.
Qed.

Lemma sticky_run_wf o c : wf c -> wf (run o c).2.
Proof. destruct o; [apply get_wf | apply insert_wf | apply remove_wf]. Qed.

(** ** The specification: a list in order of last use *)

(** An entry of the specification: target, upstream, deadline; least recently
    used first. *)
Definition item : Type := list ascii * P * Z.
Definition target (x : item) : list ascii := x.1.1.

Definition spec_remove (a : list ascii) (l : list item) : list item :=
  filter (fun x => target x <> a) l.
Definition spec_find (a : list ascii) (l : list item) : option item :=
  head (filter (fun x => target x = a) l).

Definition spec_get (a : list ascii) (now : Z) (l : list item) : option P * list item :=
  match spec_find a l with
  | None => (None, l)
  | Some x =>
      if x.2 <=? now then (None, spec_remove a l) else (Some x.1.2, spec_remove a l ++ [x])
  end.

(** An expired item, the earliest deadline first; else the least recently used. *)
Definition spec_victim (now : Z) (l : list item) : option (list ascii) :=
  let oldest := target <$> head l in
  match bt_first (list_to_set (map (fun x => (x.2, target x)) l)) with
  | Some (deadline, key) => if deadline <=? now then Some key else oldest
  | None => oldest
  end.

Definition spec_insert (max : nat) (ttl : Z) (a : list ascii) (p : P) (now : Z)
    (l : list item) : list item :=
  if bool_decide (max = 0%nat) then l
  else
    let l1 := spec_remove a l in
    let l2 := if (max <=? length l1)%nat then
                match spec_victim now l1 with Some v => spec_remove v l1 | None => l1 end
              else l1 in
    l2 ++ [(a, p, match instant_checked_add now ttl with Some d => d | None => now end)].

Definition spec_run (max : nat) (ttl : Z) (o : Op) (l : list item) : option P * list item :=
  match o with
  | Get a now => spec_get a now l
  | Insert a p now => (None, spec_insert max ttl a p now l)
  | Remove a => (None, spec_remove a l)
  end.

(** ** Simulation *)

Definition strip (x : list ascii * StickyEntry) : item := (x.1, proxy x.2, expires_at x.2).
Definition used_before (x y : list ascii * StickyEntry) : Prop :=
  last_used x.2 < last_used y.2 \/
  (last_used x.2 = last_used y.2 /\ generation x.2 < generation y.2).

(** The entries [es] of the cache in order of last use, at clock reading [clock]. *)
Definition ordered (c : t) (es : list (list ascii * StickyEntry)) (clock : Z) : Prop :=
  NoDup es.*1 /\
  (forall k e, entries c !! k = Some e <-> (k, e) ∈ es) /\
  StronglySorted used_before es /\
  Forall (fun x => last_used x.2 <= clock /\ generation x.2 < next_generation c) es.

Definition simulates (c : t) (l : list item) (clock : Z) : Prop :=
  exists es, ordered c es clock /\ l = map strip es.

Lemma strip_filter (Q : list ascii -> Prop) `{!forall k, Decision (Q k)} es :
  filter (fun x => Q (target x)) (map strip es) = map strip (filter (fun x => Q x.1) es).
Proof.
  induction es as [|[k e] es IH]; [done|]. cbn [map]. rewrite !filter_cons. cbn [target strip fst].
  destruct (decide (Q k)); cbn; by rewrite IH.
Qed.

Lemma sorted_filter {A} (R : A -> A -> Prop) (Q : A -> Prop) `{!forall x, Decision (Q x)} l :
  StronglySorted R l -> StronglySorted R (filter Q l).
Proof.
  induction 1 as [|a l _ IH Ha]; [constructor|]. rewrite filter_cons. case_decide; [|done].
  constructor; [done|]. rewrite Forall_forall in *. intros x [_ Hx]%list_elem_of_filter. auto.
Qed.

Lemma filter_none {A} (Q : A -> Prop) `{!forall x, Decision (Q x)} l :
  (forall x, x ∈ l -> ~ Q x) -> filter Q l = [].
Proof.
  induction l as [|a l IH]; intros HQ; [done|]. rewrite filter_cons, decide_False.
  - apply IH. intros x Hx. apply HQ. by right.
  - apply HQ. by left.
Qed.

Lemma NoDup_fst_filter {A B} (Q : A * B -> Prop) `{!forall x, Decision (Q x)} l :
  NoDup l.*1 -> NoDup (filter Q l).*1.
Proof.
  induction l as [|[k b] l IH]; [done|]. rewrite filter_cons. intros [Hk Hl]%NoDup_cons.
  case_decide; [|auto]. apply NoDup_cons. split; [|auto].
  change (k ∉ (filter Q l).*1). rewrite list_elem_of_fmap. intros ([k' b'] & E & [_ Hx]%list_elem_of_filter). cbn in E. subst k'.
  apply Hk, list_elem_of_fmap. by exists (k, b').
Qed.

Lemma ordered_size c es clock : ordered c es clock -> size (entries c) = length es.
Proof.
  intros (Hnd & Hm & _). replace (entries c) with (list_to_map es : gmap (list ascii) StickyEntry).
  - by apply map_size_list_to_map.
  - apply map_eq. intros k. apply option_eq. intros e. rewrite Hm.
    symmetry. by apply elem_of_list_to_map.
Qed.

Lemma ordered_remove a c es clock :
  ordered c es clock -> ordered (remove a c).2 (filter (fun x => x.1 <> a) es) clock.
Proof.
  intros (Hnd & Hm & Hs & Hf). unfold ordered. rewrite remove_entries, remove_gen.
  split; [by apply NoDup_fst_filter|]. split; [|split; [by apply sorted_filter|]].
  - intros k e. rewrite lookup_delete_Some, list_elem_of_filter, Hm. cbn. naive_solver.
  - rewrite Forall_forall in *. intros x [_ Hx]%list_elem_of_filter. auto.
Qed.

Lemma simulates_remove a c l clock :
  simulates c l clock -> simulates (remove a c).2 (spec_remove a l) clock.
Proof.
  intros (es & Hes & ->). exists (filter (fun x => x.1 <> a) es).
  split; [by apply ordered_remove|]. exact (strip_filter (fun k => k <> a) es).
Qed.

(** Appending a fresh, newest entry. *)
Lemma ordered_snoc c c' es k e clock :
  ordered c es clock -> k ∉ es.*1 ->
  entries c' = <[k := e]> (entries c) -> next_generation c' = next_generation c + 1 ->
  clock <= last_used e -> generation e = next_generation c ->
  ordered c' (es ++ [(k, e)]) (last_used e).
Proof.
  intros (Hnd & Hm & Hs & Hf) Hk Hent Hgen Hc Hg. unfold ordered. rewrite Hent, Hgen.
  rewrite Forall_forall in Hf. split; [|split; [|split]].
  - rewrite fmap_app. apply NoDup_app. split; [done|]. cbn. split; [|apply NoDup_singleton].
    intros x Hx ->%list_elem_of_singleton. done.
  - intros k' e'. rewrite lookup_insert_Some, elem_of_app, list_elem_of_singleton, Hm.
    split; [naive_solver|]. intros [Hin|[= -> ->]]; [|naive_solver]. right. split; [|done].
    intros <-. apply Hk, list_elem_of_fmap. by exists (k, e').
  - apply StronglySorted_app_2; [|done|repeat constructor]. intros x y Hx ->%list_elem_of_singleton.
    apply Hf in Hx. unfold used_before. cbn. lia.
  - apply Forall_app. split; [|repeat constructor; cbn; lia].
    apply Forall_forall. intros x Hx. apply Hf in Hx. lia.
Qed.

Lemma filter_key_unique a e es :
  NoDup es.*1 -> (a, e) ∈ es ->
  head (filter (fun x : list ascii * StickyEntry => x.1 = a) es) = Some (a, e).
Proof.
  induction es as [|[k e'] es IH]; [by intros _ ?%not_elem_of_nil|].
  intros [Hk Hnd]%NoDup_cons Hin. rewrite filter_cons. cbn in *. case_decide as Hd.
  - subst k. apply elem_of_cons in Hin as [[= <-]|Hin]; [done|]. exfalso.
    apply Hk, list_elem_of_fmap. by exists (a, e).
  - apply elem_of_cons in Hin as [[= <- <-]|Hin]; [done|auto].
Qed.

Lemma head_map_strip es : head (map strip es) = strip <$> head es.
Proof. by destruct es. Qed.

Lemma spec_find_simulates a c es clock :
  ordered c es clock -> spec_find a (map strip es) = (fun e => strip (a, e)) <$> entries c !! a.
Proof.
  intros (Hnd & Hm & _). unfold spec_find.
  etrans; [exact (f_equal head (strip_filter (fun k => k = a) es))|]. rewrite head_map_strip.
  destruct (entries c !! a) as [e|] eqn:E.
  - apply Hm in E. by rewrite (filter_key_unique a e).
  - rewrite filter_none; [done|]. intros [k e] Hin. cbn. intros ->. apply Hm in Hin. congruence.
Qed.

Lemma not_in_filtered a (es : list (list ascii * StickyEntry)) :
  a ∉ (filter (fun x : list ascii * StickyEntry => x.1 <> a) es).*1.
Proof.
  rewrite list_elem_of_fmap. intros (x & -> & [Hx _]%list_elem_of_filter). done.
Qed.

Lemma wrapping_succ g : 0 <= g -> g + 1 < 2 ^ 64 -> wrapping_add64 g 1 = g + 1.
Proof. intros ? ?. unfold wrapping_add64, wrap. apply Z.mod_small. lia. Qed.

Lemma ordered_later c es clock now : ordered c es clock -> clock <= now -> ordered c es now.
Proof.
  intros (Hnd & Hm & Hs & Hf) Hle. split; [done|]. split; [done|]. split; [done|].
  eapply Forall_impl; [exact Hf|]. cbn. lia.
Qed.

Lemma simulates_get a now c l clock :
  simulates c l clock -> clock <= now -> 0 <= next_generation c -> next_generation c + 1 < 2 ^ 64 ->
  (get a now c).1 = (spec_get a now l).1 /\ simulates (get a now c).2 (spec_get a now l).2 now.
Proof.
  intros Hsim Hnow Hg0 Hg. pose proof (simulates_remove a c l clock Hsim) as Hrem.
  destruct Hsim as (es & Hes & ->).
  unfold get, spec_get. rewrite (spec_find_simulates a c es clock Hes).
  destruct (entries c !! a) as [e|] eqn:E; cbn [fmap option_fmap option_map].
  2: { split; [done|]. exists es. split; [by eapply ordered_later|done]. }
  change (strip (a, e)).2 with (expires_at e). change (strip (a, e)).1.2 with (proxy e).
  destruct (expires_at e <=? now).
  { split; [done|]. destruct Hrem as (es' & Hes' & Heq). exists es'.
    split; [by eapply ordered_later | exact Heq]. }
  split; [done|]. cbn [fst snd].
  set (e' := mkEntry (proxy e) now (expires_at e) (next_generation c)).
  exists (filter (fun x => x.1 <> a) es ++ [(a, e')]). split.
  - pose proof (ordered_remove a c es clock Hes) as Hr.
    apply (ordered_snoc (remove a c).2 _ _ a e' clock); cbn; rewrite ?remove_gen; try done.
    + apply not_in_filtered.
    + by rewrite remove_entries, insert_delete_eq.
    + by apply wrapping_succ.
  - rewrite map_app. f_equal. exact (strip_filter (fun k => k <> a) es).
Qed.

Lemma used_before_trans x y z : used_before x y -> used_before y z -> used_before x z.
Proof. unfold used_before. lia. Qed.

Lemma recency_key_le k e k' e' :
  cmp_le (recency_key k e) (recency_key k' e') -> ~ used_before (k', e') (k, e).
Proof.
  unfold cmp_le, cmp, pair_cmp, cmp, pair_cmp, cmp, Z_cmp, used_before. cbn. intros Hle H.
  apply Hle. destruct H as [H|[H1 H2]].
  - by rewrite (proj2 (Z.compare_gt_iff _ _)).
  - rewrite H1, Z.compare_refl. by rewrite (proj2 (Z.compare_gt_iff _ _)).
Qed.

Lemma simulates_victim now c es clock :
  wf c -> ordered c es clock -> victim now c = spec_victim now (map strip es).
Proof.
  intros (Hr & He & _) (Hnd & Hm & Hs & _).
  assert (Hexp : expiry c = list_to_set (map (fun x => (x.2, target x)) (map strip es))).
  { apply set_eq. intros [d k]. rewrite He, elem_of_list_to_set, map_map. cbn. split.
    - intros (e & Hk%Hm & Hx). apply list_elem_of_fmap. exists (k, e). split; [exact Hx|done].
    - intros ([k' e] & Hx & Hin)%list_elem_of_fmap. cbn in Hx. simplify_eq.
      exists e. split; [by apply Hm | done]. }
  assert (Hold : (fun x : Z * Z * list ascii => x.2) <$> bt_first (recency c)
                 = target <$> head (map strip es)).
  { destruct (bt_first (recency c)) as [[ug k]|] eqn:Ef.
    - apply bt_first_Some in Ef as [Hin Hmin]. apply Hr in Hin as (e & Hk & Hx). cbn in *.
      apply Hm in Hk. destruct es as [|[k0 e0] es]; [by apply not_elem_of_nil in Hk|]. cbn.
      f_equal. apply elem_of_cons in Hk as [[= -> ->]|Hk]; [done|]. exfalso.
      assert (Hin0 : recency_key k0 e0 ∈ recency c).
      { apply Hr. exists e0. split; [|done]. apply Hm. by left. }
      apply Hmin in Hin0. rewrite Hx in Hin0. apply recency_key_le in Hin0. apply Hin0.
      apply StronglySorted_inv in Hs as [_ Hf]. rewrite Forall_forall in Hf. by apply Hf.
    - apply bt_first_None in Ef. destruct es as [|[k0 e0] es]; [done|]. exfalso.
      assert (Hin0 : recency_key k0 e0 ∈ recency c).
      { apply Hr. exists e0. split; [|done]. apply Hm. by left. }
      rewrite Ef in Hin0. set_solver. }
  unfold victim, spec_victim. by rewrite Hold, Hexp.
Qed.

Lemma simulates_insert a p now c l clock :
  wf c -> simulates c l clock -> clock <= now ->
  0 <= next_generation c -> next_generation c + 1 < 2 ^ 64 ->
  simulates (insert a p now c) (spec_insert (max_entries c) (ttl c) a p now l) now.
Proof.
  intros Hw Hsim Hnow Hg0 Hg. unfold spec_insert, insert. case_bool_decide as Hm.
  { destruct Hsim as (es & Hes & ->). exists es. split; [by eapply ordered_later|done]. }
  fold (make_room a now c). destruct (make_room_spec a now c Hw Hm) as (Hmax & Httl & Hgen & Ha & _).
  assert (Hroom : simulates (make_room a now c)
            (if (max_entries c <=? length (spec_remove a l))%nat
             then match spec_victim now (spec_remove a l) with
                  | Some v => spec_remove v (spec_remove a l) | None => spec_remove a l end
             else spec_remove a l) clock).
  { unfold make_room. pose proof (simulates_remove a c l clock Hsim) as H1.
    pose proof (remove_wf a c Hw) as Hw1. rewrite remove_max.
    destruct H1 as (es & Hes & Hl). rewrite Hl, length_map, <- (ordered_size _ _ _ Hes).
    destruct (_ <=? _)%nat; [|by exists es].
    rewrite (simulates_victim now _ es clock Hw1 Hes).
    destruct (spec_victim now (map strip es)) as [v|]; [|by exists es].
    apply simulates_remove. by exists es. }
  destruct Hroom as (es & Hes & ->). rewrite Httl, Hgen.
  set (e := mkEntry p now _ (next_generation c)).
  exists (es ++ [(a, e)]). split; [|by rewrite map_app].
  apply (ordered_snoc (make_room a now c) _ _ a e clock); cbn; rewrite ?Hgen; try done.
  - rewrite list_elem_of_fmap. intros ([k e0] & -> & Hin). destruct Hes as (_ & Hes & _).
    apply Hes in Hin. cbn in *. congruence.
  - by apply wrapping_succ.
Qed.

(** ** Histories *)

Fixpoint run_all {S} (f : Op -> S -> option P * S) (ops : list Op) (s : S) : list (option P) * S :=
  match ops with
  | [] => ([], s)
  | o :: ops' =>
      let '(r, s1) := f o s in
      let '(rs, s2) := run_all f ops' s1 in (r :: rs, s2)
  end.

(** The clock readings never go back from [clock] (the clock is monotonic and
    read under the lock). *)
Definition op_time (o : Op) : option Z :=
  match o with Get _ now | Insert _ _ now => Some now | Remove _ => None end.
Fixpoint monotonic (clock : Z) (ops : list Op) : Prop :=
  match ops with
  | [] => True
  | o :: ops' =>
      match op_time o with
      | Some now => clock <= now /\ monotonic now ops'
      | None => monotonic clock ops'
      end
  end.

Lemma run_limits o c : max_entries (run o c).2 = max_entries c /\ ttl (run o c).2 = ttl c.
Proof.
  destruct o as [a now|a p now|a]; cbn [run snd].
  - unfold get. repeat case_match; cbn; by rewrite ?remove_max, ?remove_ttl.
  - unfold insert. case_bool_decide; [done|].
    repeat case_match; cbn; by rewrite ?remove_max, ?remove_ttl.
  - by rewrite remove_max, remove_ttl.
Qed.

Lemma run_gen o c :
  0 <= next_generation c -> next_generation c + 1 < 2 ^ 64 ->
  next_generation c <= next_generation (run o c).2 <= next_generation c + 1.
Proof.
  intros Hg0 Hg. pose proof (wrapping_succ _ Hg0 Hg). destruct o as [a now|a p now|a]; cbn [run snd].
  - unfold get. repeat case_match; cbn; rewrite ?remove_gen; lia.
  - unfold insert. case_bool_decide; [lia|]. repeat case_match; cbn; rewrite ?remove_gen; lia.
  - rewrite remove_gen. lia.
Qed.

Lemma run_all_simulates ops : forall c l clock,
  wf c -> simulates c l clock -> monotonic clock ops ->
  0 <= next_generation c -> next_generation c + Z.of_nat (length ops) < 2 ^ 64 ->
  (run_all run ops c).1 = (run_all (spec_run (max_entries c) (ttl c)) ops l).1 /\
  exists clock', simulates (run_all run ops c).2
                   (run_all (spec_run (max_entries c) (ttl c)) ops l).2 clock'.
Proof.
  induction ops as [|o ops IH]; intros c l clock Hw Hsim Hmono Hg0 Hg; [by split; eauto|].
  cbn [length] in Hg. cbn [run_all].
  assert (Hone : (run o c).1 = (spec_run (max_entries c) (ttl c) o l).1 /\
    exists clock1, simulates (run o c).2 (spec_run (max_entries c) (ttl c) o l).2 clock1 /\
      monotonic clock1 ops).
  { destruct o as [a now|a p now|a]; cbn in Hmono |- *.
    - destruct Hmono as [Hle Hmono].
      destruct (simulates_get a now c l clock Hsim Hle Hg0 ltac:(lia)) as [-> Hs]. eauto.
    - destruct Hmono as [Hle Hmono]. split; [done|]. exists now.
      split; [apply (simulates_insert _ _ _ _ _ clock); done || lia | done].
    - split; [done|]. exists clock. split; [by apply simulates_remove | done]. }
  destruct (run_limits o c) as [Hmax Httl]. pose proof (run_gen o c Hg0 ltac:(lia)) as Hgen.
  pose proof (sticky_run_wf o c Hw) as Hw'. destruct Hone as (Hr & clock1 & Hs & Hm).
  destruct (run o c) as [r c1]. destruct (spec_run _ _ o l) as [r' l1]. cbn [fst snd] in *.
  subst r'. destruct (IH c1 l1 clock1 Hw' Hs Hm ltac:(lia) ltac:(lia)) as [Hrs Hend].
  rewrite Hmax, Httl in Hrs, Hend.
  destruct (run_all run ops c1) as [rs c2]. destruct (run_all (spec_run _ _) ops l1) as [rs' l2].
  cbn in *. by subst.
Qed.

Lemma new_simulates m d clock : simulates (new m d) [] clock.
Proof.
  exists []. split; [|done]. split; [constructor|]. split; [|split; constructor].
  intros k e. cbn. rewrite lookup_empty. split; [done|by intros ?%not_elem_of_nil].
Qed.

(** After any sequence of calls at any clock readings the cache's two
    indexes are exactly the images of its entries (one record each) and it holds
    at most [max_entries] entries. *)
Theorem sticky_invariant m d ops : wf (run_all run ops (new m d)).2.
Proof.
  pose proof (new_wf m d) as Hw. revert Hw. generalize (new m d). induction ops as [|o ops IH];
    intros c Hw; [done|]. cbn. pose proof (sticky_run_wf o c Hw) as H1.
  destruct (run o c) as [r c1]. specialize (IH c1 H1). by destruct (run_all run ops c1).
Qed.

(** C37: the cache implements its specification: with a monotonic clock, every
    sequence of fewer than [2 ^ 64] calls returns what the least-recently-used
    list returns: a live entry is found until its deadline (which use does not
    move), and room is made by dropping one expired entry, earliest deadline
    first, or else the least recently used one, ties broken by call order. *)
Theorem sticky_refines_lru m d ops clock :
  monotonic clock ops -> Z.of_nat (length ops) < 2 ^ 64 ->
  (run_all run ops (new m d)).1 = (run_all (spec_run m d) ops []).1 /\
  exists clock', simulates (run_all run ops (new m d)).2 (run_all (spec_run m d) ops []).2 clock'.
Proof.
  intros Hm Hn. apply (run_all_simulates ops (new m d) [] clock);
    [apply new_wf | apply new_simulates | done | done | done].
Qed.

End Cache.

(** The source's test of the eviction order: "A" was touched, so "B" goes. *)
Definition demo_ops : list (@Op nat) :=
  [Insert (lit "A") 1%nat 0; Insert (lit "B") 2%nat 0; Get (lit "A") 0; Insert (lit "C") 3%nat 0;
   Get (lit "B") 0; Get (lit "A") 5; Get (lit "C") 10].

Example sticky_demo_run :
  (run_all run demo_ops (new 2 10)).1 = [None; None; Some 1%nat; None; None; Some 1%nat; None].
Proof. vm_compute. reflexivity. Qed.

Lemma sticky_refines_lru_witness :
  (run_all run demo_ops (new 2 10)).1 = (run_all (spec_run 2 10) demo_ops []).1 /\
  exists clock', simulates (run_all run demo_ops (new 2 10)).2
                   (run_all (spec_run 2 10) demo_ops []).2 clock'.
Proof.
  apply (sticky_refines_lru 2 10 demo_ops 0); [cbn; lia | reflexivity].
Defined.

End Sticky.
