(* ===== verification/Rotator.v ===== *)
(** * Rotator: the upstream rotator

    Model of [session/rotator/mod.rs], [record_error.rs] and [probe.rs]: the
    deduplicated upstream list with its hash index, the sticky cache, the ratings
    and the round-robin counter.  [RandomState] is an arbitrary function of the
    hashed identity fields; each method reads the clock once, as [now]. *)
From S2P Require Import Prelude ProxyTypes Errors Floats Rating Quarantine Ratings Sticky.

Module Rotator.

Definition Identity : Type := ProxyProtocol * bytes * Z * option bytes * option bytes * Z.
Definition RandomState : Type := Identity -> Z.

Definition same_upstream (a b : ProxyConfig) : bool :=
  (port a =? port b) && bool_decide (protocol a = protocol b) &&
  (gate_level a =? gate_level b) && bool_decide (host a = host b) &&
  bool_decide (user a = user b) && bool_decide (password a = password b).

Definition upstream_hash (state : RandomState) (p : ProxyConfig) : Z := state (ident p).

Inductive RotatorError (F : Type) := Empty | InvalidPolicy (msg : Policy.Fault F).
Arguments Empty {F}.
Arguments InvalidPolicy {F}.

Definition from_rating_error {F} (e : Policy.RatingError F) : RotatorError F :=
  match e with Policy.InvalidPolicy msg => InvalidPolicy msg end.

Definition DEFAULT_STICKY_CACHE_MAX_ENTRIES : nat := 4096.
Definition DEFAULT_STICKY_CACHE_TTL : Z := from_secs 600.

Record t (F : Type) := mk {
  proxies : list ProxyConfig;
  identity_hasher : RandomState;
  by_identity : gmap Z (list nat);
  index : Z;
  sticky : Sticky.t (P := ProxyConfig);
  ratings : Ratings.t F
}.
Arguments mk {F}.
Arguments proxies {F}.
Arguments identity_hasher {F}.
Arguments by_identity {F}.
Arguments index {F}.
Arguments sticky {F}.
Arguments ratings {F}.

Record UpstreamHealth := mkUpstreamHealth { uh_proxy : ProxyConfig; uh_health : Ratings.Health }.

Definition set_index {F} (r : t F) (x : Z) : t F :=
  mk (proxies r) (identity_hasher r) (by_identity r) x (sticky r) (ratings r).
Definition set_sticky {F} (r : t F) (x : Sticky.t) : t F :=
  mk (proxies r) (identity_hasher r) (by_identity r) (index r) x (ratings r).
Definition set_ratings {F} (r : t F) (x : Ratings.t F) : t F :=
  mk (proxies r) (identity_hasher r) (by_identity r) (index r) (sticky r) x.

(** ** Construction *)

(** One pass of the deduplication loop. *)
Definition dedup_step (h : RandomState) (acc : list ProxyConfig * gmap Z (list nat))
    (proxy : ProxyConfig) : list ProxyConfig * gmap Z (list nat) :=
  let '(unique, by_id) := acc in
  let k := upstream_hash h proxy in
  let bucket := default [] (by_id !! k) in
  if existsb (fun slot => match unique !! slot with
                          | Some u => same_upstream proxy u | None => false end) bucket
  then (unique, <[k := bucket]> by_id)
  else (unique ++ [proxy], <[k := bucket ++ [length unique]]> by_id).
Definition dedup (h : RandomState) (ps : list ProxyConfig) : list ProxyConfig * gmap Z (list nat) :=
  foldl (dedup_step h) ([], ∅) ps.

Section Ops.
  Context {F : Type} `{Float F}.

Definition try_with_quarantine (ps : list ProxyConfig) (p : Policy.RatingPolicy F)
    (q : Quarantine.QuarantinePolicy) (max_entries : nat) (ttl : Z)
    (h : RandomState) (now seed : Z) : result (RotatorError F) (t F) :=
  match ps with
  | [] => Err Empty
  | _ =>
      let '(unique, by_id) := dedup h ps in
      r ← map_err from_rating_error (Ratings.try_with_quarantine (length unique) p q now seed);
      Ok (mk unique h by_id 0 (Sticky.new max_entries ttl) r)
  end.

Definition try_with_cache_limits (ps : list ProxyConfig) (p : Policy.RatingPolicy F)
    (max_entries : nat) (ttl : Z) (h : RandomState) (now seed : Z)
    : result (RotatorError F) (t F) :=
  try_with_quarantine ps p Quarantine.disabled max_entries ttl h now seed.
Definition try_with_policy (ps : list ProxyConfig) (p : Policy.RatingPolicy F)
    (h : RandomState) (now seed : Z) : result (RotatorError F) (t F) :=
  try_with_cache_limits ps p DEFAULT_STICKY_CACHE_MAX_ENTRIES DEFAULT_STICKY_CACHE_TTL h now seed.
Definition try_new (ps : list ProxyConfig) (h : RandomState) (now seed : Z)
    : result (RotatorError F) (t F) :=
  try_with_policy ps Policy.default h now seed.

(** ** Lookup *)

Definition len (r : t F) : nat := length (proxies r).

(** [self.proxies[index]] is in range for every index of a bucket. *)
Definition index_of (r : t F) (p : ProxyConfig) : option nat :=
  match by_identity r !! upstream_hash (identity_hasher r) p with
  | None => None
  | Some bucket =>
      List.find (fun i => match proxies r !! i with
                          | Some u => same_upstream p u | None => false end) bucket
  end.

Definition is_quarantined (r : t F) (p : ProxyConfig) : bool :=
  match index_of r p with Some i => Ratings.is_quarantined (ratings r) i | None => false end.

(** ** The sticky cache *)

Definition link_proxy (addr : bytes) (p : ProxyConfig) (now : Z) (r : t F) : t F :=
  set_sticky r (Sticky.insert addr p now (sticky r)).

Definition unlink_proxy (addr : bytes) (r : t F) : t F :=
  set_sticky r (Sticky.remove addr (sticky r)).2.

Definition get_linked (addr : bytes) (now : Z) (r : t F) : option ProxyConfig * t F :=
  let '(linked, s) := Sticky.get addr now (sticky r) in
  let r' := set_sticky r s in
  match linked with
  | None => (None, r')
  | Some p => if is_quarantined r' p then (None, r') else (Some p, r')
  end.

(** ** Round robin *)

(** [fetch_add] wraps a 64-bit [usize]; the list is never empty. *)
Definition get_next (r : t F) : option ProxyConfig * t F :=
  let i := Z.to_nat (index r mod Z.of_nat (len r)) in
  (proxies r !! i, set_index r (wrapping_add64 (index r) 1)).

(** ** Outcomes *)

Definition record_failure (p : ProxyConfig) (now : Z) (r : t F) : t F :=
  match index_of r p with
  | Some i => set_ratings r (Ratings.on_failure i now (ratings r))
  | None => r
  end.

Definition record_hard_failure (p : ProxyConfig) (now : Z) (r : t F) : option Z * t F :=
  match index_of r p with
  | Some i => let '(res, x) := Ratings.on_hard_failure i now (ratings r) in (res, set_ratings r x)
  | None => (None, r)
  end.

Definition record_success (p : ProxyConfig) (now : Z) (r : t F) : t F :=
  match index_of r p with
  | Some i => set_ratings r (Ratings.on_success i now (ratings r))
  | None => r
  end.

Definition quarantine_now (p : ProxyConfig) (now : Z) (r : t F) : option Z * t F :=
  match index_of r p with
  | Some i => let '(res, x) := Ratings.quarantine_now i now (ratings r) in (res, set_ratings r x)
  | None => (None, r)
  end.

Definition record_error (p : ProxyConfig) (err : ConnectError) (now : Z) (r : t F)
    : option Z * t F :=
  if negb (counts_against_upstream err) then (None, r)
  else if is_upstream_down err then record_hard_failure p now r
  else (None, record_failure p now r).

(** ** Selection and probes *)

Definition take_probes (now : Z) (r : t F) : list ProxyConfig * t F :=
  let '(ids, x) := Ratings.take_probes now (ratings r) in
  (omap (fun i => proxies r !! i) ids, set_ratings r x).

Definition pick_order (now : Z) (r : t F) : list ProxyConfig * t F :=
  let '(ids, x) := Ratings.pick_order now (ratings r) in
  (omap (fun i => proxies r !! i) ids, set_ratings r x).

(** ** Saved health *)

Definition health (r : t F) (now : Z) : list UpstreamHealth :=
  zip_with mkUpstreamHealth (proxies r) (Ratings.health (ratings r) now).

Definition restore_one (now : Z) (acc : nat * t F) (e : UpstreamHealth) : nat * t F :=
  let '(count, r) := acc in
  match index_of r (uh_proxy e) with
  | None => (count, r)
  | Some i =>
      let '(ok, x) := Ratings.restore_health i (uh_health e) now (ratings r) in
      ((if ok : bool then S count else count), set_ratings r x)
  end.
Definition restore_health (es : list UpstreamHealth) (now : Z) (r : t F) : nat * t F :=
  foldl (restore_one now) (0%nat, r) es.

(** ** Reachability probes *)

Inductive ProbeEvent :=
| Recovered (p : ProxyConfig)
| StillDown (p : ProxyConfig) (quarantined_for : Z) (reason : bytes)
| QuarantinedAtStart (p : ProxyConfig) (quarantined_for : Z) (reason : bytes).

Definition CheckResult : Type := result bytes unit.

(** The upstreams a check is started for; [reserve] decides before any
    connection. *)
Definition spawn_checks (reserve : ProxyConfig -> bool) (ps : list ProxyConfig) : list ProxyConfig :=
  List.filter reserve ps.

(** The body run for each task as it completes. *)
Definition report_due (acc : list ProbeEvent * t F) (done : ProxyConfig * CheckResult * Z)
    : list ProbeEvent * t F :=
  let '(events, r) := acc in
  let '(p, res, now) := done in
  match res with
  | Ok _ => (events ++ [Recovered p], record_success p now r)
  | Err reason =>
      let '(tripped, r') := record_hard_failure p now r in
      (match tripped with
       | Some length => events ++ [StillDown p length reason]
       | None => events
       end, r')
  end.

Definition report_start (acc : list ProbeEvent * t F) (done : ProxyConfig * CheckResult * Z)
    : list ProbeEvent * t F :=
  let '(events, r) := acc in
  let '(p, res, now) := done in
  match res with
  | Ok _ => (events, r)
  | Err reason =>
      if is_quarantined r p then (events, r)
      else
        let '(tripped, r') := quarantine_now p now r in
        (match tripped with
         | Some length => events ++ [QuarantinedAtStart p length reason]
         | None => events
         end, r')
  end.

(** [done] lists the checks that completed, with their results and times, in the
    order [join_next] yielded them; a panicked task is not in it. *)
Definition drain_due (done : list (ProxyConfig * CheckResult * Z)) (r : t F)
    : list ProbeEvent * t F := foldl report_due ([], r) done.
Definition drain_start (done : list (ProxyConfig * CheckResult * Z)) (r : t F)
    : list ProbeEvent * t F := foldl report_start ([], r) done.

(** A run of [probe_due_with] and of [probe_all_with]. *)
Inductive probe_due_with (reserve : ProxyConfig -> bool) (now : Z) (r : t F)
    : list ProbeEvent -> t F -> Prop :=
| probe_due_run ps r1 done events r2 :
    take_probes now r = (ps, r1) ->
    map (fun d => d.1.1) done ⊆+ spawn_checks reserve ps ->
    drain_due done r1 = (events, r2) ->
    probe_due_with reserve now r events r2.

Inductive probe_all_with (reserve : ProxyConfig -> bool) (r : t F)
    : list ProbeEvent -> t F -> Prop :=
| probe_all_run done events r2 :
    map (fun d => d.1.1) done ⊆+ spawn_checks reserve (proxies r) ->
    drain_start done r = (events, r2) ->
    probe_all_with reserve r events r2.

End Ops.

(** ** The identity index *)

Lemma same_upstream_spec a b : same_upstream a b = true <-> ident a = ident b.
Proof.
  unfold same_upstream, ident. rewrite !andb_true_iff, !bool_decide_eq_true, !Z.eqb_eq.
  split; [by intros [[[[[-> ->] ->] ->] ->] ->] | by intros [= -> -> -> -> -> ->]].
Qed.

Lemma existsb_elem {A} (f : A -> bool) l : existsb f l = true <-> exists x, x ∈ l /\ f x = true.
Proof. rewrite existsb_exists. by setoid_rewrite list_elem_of_In. Qed.

(** The buckets hold exactly the slots of each hash value. *)
Definition indexed (h : RandomState) (ps : list ProxyConfig) (m : gmap Z (list nat)) : Prop :=
  forall k i, i ∈ default [] (m !! k) <-> exists u, ps !! i = Some u /\ upstream_hash h u = k.

(** The reference deduplication: the first occurrence of every identity. *)
Definition first_occurrences (ps : list ProxyConfig) : list ProxyConfig :=
  foldl (fun acc p => if bool_decide (ident p ∈ map ident acc) then acc else acc ++ [p]) [] ps.

Lemma bucket_hit h unique m p :
  indexed h unique m ->
  existsb (fun slot => match unique !! slot with
                       | Some u => same_upstream p u | None => false end)
    (default [] (m !! upstream_hash h p)) = bool_decide (ident p ∈ map ident unique).
Proof.
  intros Hi. apply eq_bool_prop_intro. rewrite !Is_true_true, existsb_elem, bool_decide_eq_true.
  rewrite list_elem_of_fmap. split.
  - intros (i & _ & Hs). destruct (unique !! i) as [u|] eqn:E; [|done].
    exists u. apply same_upstream_spec in Hs. split; [done|]. apply list_elem_of_lookup. eauto.
  - intros (u & Hu & [i E]%list_elem_of_lookup). exists i. rewrite E, same_upstream_spec.
    split; [|done]. apply Hi. exists u. split; [done|]. unfold upstream_hash. by rewrite Hu.
Qed.

Lemma dedup_spec h ps :
  (dedup h ps).1 = first_occurrences ps /\ indexed h (dedup h ps).1 (dedup h ps).2 /\
  NoDup (map ident (dedup h ps).1) /\ (ps <> [] -> (dedup h ps).1 <> []).
Proof.
  unfold dedup, first_occurrences. induction ps as [|p ps IH] using rev_ind.
  { cbn. split; [done|]. split; [|split; [constructor|done]]. intros k i. rewrite lookup_empty. cbn.
    split; [by intros ?%not_elem_of_nil|]. intros (u & Hu & _). by rewrite lookup_nil in Hu. }
  rewrite !foldl_app. cbn [foldl]. destruct IH as (<- & Hi & Hnd & _).
  destruct (foldl (dedup_step h) ([], ∅) ps) as [unique m]. cbn [fst snd] in *.
  unfold dedup_step. rewrite (bucket_hit h unique m p Hi).
  case_bool_decide as Hp; cbn [fst snd].
  - split; [done|]. split; [|split; [done|]].
    + intros k i. destruct (decide (k = upstream_hash h p)) as [->|Hk].
      * rewrite lookup_insert_eq. cbn. apply Hi.
      * rewrite lookup_insert_ne by done. apply Hi.
    + intros _ ->. by apply not_elem_of_nil in Hp.
  - split; [done|]. split; [|split].
    + intros k i. destruct (decide (k = upstream_hash h p)) as [->|Hk].
      * rewrite lookup_insert_eq. cbn. rewrite elem_of_app, (Hi _ i), list_elem_of_singleton. split.
        -- intros [(u & Hu & Hh) | ->]; [exists u; split; [by apply lookup_app_l_Some|done]|].
           exists p. split; [by apply list_lookup_middle|done].
        -- intros (u & Hu & Hh). apply lookup_app_Some in Hu as [Hu|[Hge Hu]]; [eauto|]. right.
           apply list_lookup_singleton_Some in Hu as [Hz _]. lia.
      * rewrite lookup_insert_ne by done. rewrite (Hi _ i). split.
        -- intros (u & Hu & Hh). exists u. split; [by apply lookup_app_l_Some|done].
        -- intros (u & Hu & Hh). apply lookup_app_Some in Hu as [Hu|[Hge Hu]]; [eauto|]. exfalso.
           apply list_lookup_singleton_Some in Hu as [_ ->]. by symmetry in Hh.
    + rewrite map_app. apply NoDup_app. split; [done|]. split; [|apply NoDup_singleton].
      intros x Hx ->%list_elem_of_singleton. done.
    + intros _ Hn. by apply app_nil in Hn as [_ ?].
Qed.

Section Laws.
  Context {F : Type} `{FloatLaws F}.
  Implicit Types r : t F.

Definition wf r : Prop :=
  proxies r <> [] /\ NoDup (map ident (proxies r)) /\
  indexed (identity_hasher r) (proxies r) (by_identity r) /\
  Ratings.wf (ratings r) /\ Ratings.len (ratings r) = len r /\ Sticky.wf (sticky r) /\
  0 <= index r < 2 ^ 64.

Lemma ident_inj r i j u v :
  wf r -> proxies r !! i = Some u -> proxies r !! j = Some v -> ident u = ident v -> i = j.
Proof.
  intros (_ & Hnd & _) Hi Hj E. eapply (NoDup_lookup _ i j (ident u) Hnd).
  - by rewrite list_lookup_fmap, Hi.
  - by rewrite list_lookup_fmap, Hj, E.
Qed.

Lemma index_of_spec r p i :
  wf r -> index_of r p = Some i <-> exists u, proxies r !! i = Some u /\ ident u = ident p.
Proof.
  intros Hw. pose proof Hw as (_ & _ & Hi & _). unfold index_of. split.
  - destruct (by_identity r !! _) as [bucket|] eqn:Eb; [|done].
    intros [_ Hs]%find_some. destruct (proxies r !! i) as [u|]; [|done].
    exists u. by apply same_upstream_spec in Hs.
  - intros (u & Hu & Hid).
    assert (Hin : i ∈ default [] (by_identity r !! upstream_hash (identity_hasher r) p)).
    { apply Hi. exists u. split; [done|]. unfold upstream_hash. by rewrite Hid. }
    destruct (by_identity r !! _) as [bucket|] eqn:Eb; [|by apply not_elem_of_nil in Hin].
    cbn in Hin. destruct (List.find _ bucket) as [j|] eqn:Ef.
    + apply find_some in Ef as [_ Hs]. destruct (proxies r !! j) as [v|] eqn:Ej; [|done].
      apply same_upstream_spec in Hs. f_equal. apply (ident_inj r j i v u); congruence.
    + apply list_elem_of_In in Hin. pose proof (find_none _ _ Ef i Hin) as Hn.
      cbn in Hn. rewrite Hu in Hn. apply not_true_iff_false in Hn. exfalso. apply Hn.
      by apply same_upstream_spec.
Qed.

Lemma index_of_None r p : wf r -> index_of r p = None <-> ident p ∉ map ident (proxies r).
Proof.
  intros Hw. rewrite list_elem_of_fmap. split.
  - intros E (u & Hid & [i Hi]%list_elem_of_lookup).
    assert (Hs : index_of r p = Some i) by (apply index_of_spec; eauto). congruence.
  - intros Hn. destruct (index_of r p) as [i|] eqn:E; [|done]. exfalso. apply Hn.
    apply index_of_spec in E as (u & Hu & Hid); [|done]. exists u. split; [done|].
    apply list_elem_of_lookup. eauto.
Qed.

Lemma index_of_lt r p i : wf r -> index_of r p = Some i -> (i < len r)%nat.
Proof. intros Hw (u & Hu & _)%index_of_spec; [|done]. by apply lookup_lt_Some in Hu. Qed.

Lemma set_ratings_wf r x :
  wf r -> Ratings.wf x -> Ratings.len x = Ratings.len (ratings r) -> wf (set_ratings r x).
Proof.
  intros (H1 & H2 & H3 & _ & H5 & H6 & H7) Hx Hl. unfold wf, len. cbn. rewrite Hl.
  exact (conj H1 (conj H2 (conj H3 (conj Hx (conj H5 (conj H6 H7)))))).
Qed.

Lemma set_sticky_wf r s : wf r -> Sticky.wf s -> wf (set_sticky r s).
Proof. intros (H1 & H2 & H3 & H4 & H5 & _ & H7) Hs. unfold wf, len. cbn.
  exact (conj H1 (conj H2 (conj H3 (conj H4 (conj H5 (conj Hs H7)))))). Qed.

Lemma rating_call_wf r c :
  wf r -> Ratings.call_ok c -> wf (set_ratings r (Ratings.run c (ratings r))).
Proof.
  intros Hw Hc. apply set_ratings_wf; [done| |].
  - apply Ratings.run_wf; [done|]. apply Hw.
  - by destruct (Ratings.run_policies c (ratings r)) as (_ & _ & ->).
Qed.

(** ** Histories *)

Inductive Call :=
| KLink (addr : bytes) (p : ProxyConfig) (now : Z)
| KUnlink (addr : bytes)
| KGetLinked (addr : bytes) (now : Z)
| KGetNext
| KFailure (p : ProxyConfig) (now : Z)
| KHardFailure (p : ProxyConfig) (now : Z)
| KSuccess (p : ProxyConfig) (now : Z)
| KError (p : ProxyConfig) (err : ConnectError) (now : Z)
| KQuarantineNow (p : ProxyConfig) (now : Z)
| KTakeProbes (now : Z)
| KPickOrder (now : Z)
| KRestore (es : list UpstreamHealth) (now : Z).

Definition run (c : Call) r : t F :=
  match c with
  | KLink a p now => link_proxy a p now r
  | KUnlink a => unlink_proxy a r
  | KGetLinked a now => (get_linked a now r).2
  | KGetNext => (get_next r).2
  | KFailure p now => record_failure p now r
  | KHardFailure p now => (record_hard_failure p now r).2
  | KSuccess p now => record_success p now r
  | KError p e now => (record_error p e now r).2
  | KQuarantineNow p now => (quarantine_now p now r).2
  | KTakeProbes now => (take_probes now r).2
  | KPickOrder now => (pick_order now r).2
  | KRestore es now => (restore_health es now r).2
  end.

Definition call_ok (c : Call) : Prop :=
  match c with KRestore es _ => Forall (fun e => Ratings.health_ok (uh_health e)) es | _ => True end.

Lemma record_failure_wf p now r : wf r -> wf (record_failure p now r).
Proof.
  intros Hw. unfold record_failure. destruct (index_of r p) as [i|]; [|done].
  by apply (rating_call_wf r (Ratings.CFailure i now)).
Qed.

Lemma record_hard_failure_wf p now r : wf r -> wf (record_hard_failure p now r).2.
Proof.
  intros Hw. unfold record_hard_failure. destruct (index_of r p) as [i|]; [|done].
  pose proof (rating_call_wf r (Ratings.CHardFailure i now) Hw I) as H1. cbn [Ratings.run] in H1.
  by destruct (Ratings.on_hard_failure i now (ratings r)).
Qed.

Lemma record_success_wf p now r : wf r -> wf (record_success p now r).
Proof.
  intros Hw. unfold record_success. destruct (index_of r p) as [i|]; [|done].
  by apply (rating_call_wf r (Ratings.CSuccess i now)).
Qed.

Lemma rotator_quarantine_now_wf p now r : wf r -> wf (quarantine_now p now r).2.
Proof.
  intros Hw. unfold quarantine_now. destruct (index_of r p) as [i|]; [|done].
  pose proof (rating_call_wf r (Ratings.CQuarantineNow i now) Hw I) as H1. cbn [Ratings.run] in H1.
  by destruct (Ratings.quarantine_now i now (ratings r)).
Qed.

Lemma rotator_take_probes_wf now r : wf r -> wf (take_probes now r).2.
Proof.
  intros Hw. unfold take_probes. pose proof (rating_call_wf r (Ratings.CTakeProbes now) Hw I) as H1.
  cbn [Ratings.run] in H1. by destruct (Ratings.take_probes now (ratings r)).
Qed.

Lemma pick_order_wf now r : wf r -> wf (pick_order now r).2.
Proof.
  intros Hw. unfold pick_order. pose proof (rating_call_wf r (Ratings.CPickOrder now) Hw I) as H1.
  cbn [Ratings.run] in H1. by destruct (Ratings.pick_order now (ratings r)).
Qed.

Lemma get_linked_wf a now r : wf r -> wf (get_linked a now r).2.
Proof.
  intros Hw. unfold get_linked.
  pose proof (Sticky.get_wf a now (sticky r) (proj1 (proj2 (proj2 (proj2 (proj2 (proj2 Hw)))))))
    as Hs. destruct (Sticky.get a now (sticky r)) as [linked s].
  pose proof (set_sticky_wf r s Hw Hs). destruct linked as [p|]; [|done].
  by destruct (is_quarantined _ _).
Qed.

Lemma restore_one_wf now n e r :
  wf r -> Ratings.health_ok (uh_health e) -> wf (restore_one now (n, r) e).2.
Proof.
  intros Hw He. unfold restore_one. destruct (index_of r _) as [i|]; [|done].
  pose proof (rating_call_wf r (Ratings.CRestore i (uh_health e) now) Hw He) as H1.
  cbn [Ratings.run] in H1. by destruct (Ratings.restore_health i _ now (ratings r)).
Qed.

Lemma restore_one_same now (acc : nat * t F) e :
  proxies (restore_one now acc e).2 = proxies acc.2 /\
  identity_hasher (restore_one now acc e).2 = identity_hasher acc.2 /\
  by_identity (restore_one now acc e).2 = by_identity acc.2.
Proof.
  destruct acc as [n r]. unfold restore_one. destruct (index_of r _); [|done].
  by destruct (Ratings.restore_health _ _ _ _).
Qed.

Lemma rotator_restore_health_wf es now r :
  wf r -> Forall (fun e => Ratings.health_ok (uh_health e)) es ->
  wf (restore_health es now r).2 /\ proxies (restore_health es now r).2 = proxies r.
Proof.
  intros Hw He. unfold restore_health. change r with (snd (0%nat, r)) in Hw.
  change (proxies r) with (proxies (snd (0%nat, r))). revert Hw. generalize (0%nat, r). clear r.
  induction He as [|e es He _ IH]; intros [n r] Hw; [done|]. cbn [foldl].
  destruct (restore_one_same now (n, r) e) as (<- & _). apply IH. by apply restore_one_wf.
Qed.

Lemma rotator_run_wf c r : call_ok c -> wf r -> wf (run c r) /\ proxies (run c r) = proxies r.
Proof.
  intros Hc Hw. destruct c as [a p now|a|a now| |p now|p now|p now|p e now|p now|now|now|es now];
    cbn [run].
  - split; [|done]. apply set_sticky_wf; [done|]. apply Sticky.insert_wf, Hw.
  - split; [|done]. apply set_sticky_wf; [done|]. apply Sticky.remove_wf, Hw.
  - split; [by apply get_linked_wf|]. unfold get_linked.
    by destruct (Sticky.get _ _ _) as [[p|] s]; [destruct (is_quarantined _ _)|].
  - split; [|done]. destruct Hw as (H1 & H2 & H3 & H4 & H5 & H6 & H7).
    assert (0 <= wrapping_add64 (index r) 1 < 2 ^ 64) by (apply Z.mod_pos_bound; lia).
    unfold wf, len. cbn [get_next set_index snd proxies by_identity identity_hasher ratings sticky index].
    by exact (conj H1 (conj H2 (conj H3 (conj H4 (conj H5 (conj H6 H8)))))).
  - split; [by apply record_failure_wf|]. unfold record_failure. by destruct (index_of r p).
  - split; [by apply record_hard_failure_wf|]. unfold record_hard_failure.
    destruct (index_of r p); [|done]. by destruct (Ratings.on_hard_failure _ _ _).
  - split; [by apply record_success_wf|]. unfold record_success. by destruct (index_of r p).
  - unfold record_error. destruct (negb _); [done|]. destruct (is_upstream_down e).
    + split; [by apply record_hard_failure_wf|]. unfold record_hard_failure.
      destruct (index_of r p); [|done]. by destruct (Ratings.on_hard_failure _ _ _).
    + split; [by apply record_failure_wf|]. cbn. unfold record_failure. by destruct (index_of r p).
  - split; [by apply rotator_quarantine_now_wf|]. unfold quarantine_now.
    destruct (index_of r p); [|done]. by destruct (Ratings.quarantine_now _ _ _).
  - split; [by apply rotator_take_probes_wf|]. unfold take_probes. by destruct (Ratings.take_probes _ _).
  - split; [by apply pick_order_wf|]. unfold pick_order. by destruct (Ratings.pick_order _ _).
  - by apply rotator_restore_health_wf.
Qed.

Lemma built_wf ps p q m d h now seed r :
  Ratings.typed q -> try_with_quarantine ps p q m d h now seed = Ok r ->
  wf r /\ proxies r = first_occurrences ps /\ Ratings.quarantine (ratings r) = q.
Proof.
  intros Hq. unfold try_with_quarantine. destruct ps as [|p0 ps]; [done|].
  destruct (dedup_spec h (p0 :: ps)) as (Hu & Hi & Hnd & Hne).
  destruct (dedup h (p0 :: ps)) as [unique m0]. cbn [fst snd] in *.
  unfold mbind, result_bind.
  destruct (Ratings.try_with_quarantine (length unique) p q now seed) as [rr|e] eqn:Er; [|done].
  intros [= <-]. apply Ratings.try_with_quarantine_wf in Er as (Hw & Hl & Hqq); [|done].
  split; [|done]. unfold wf, len. cbn.
  exact (conj (Hne ltac:(done)) (conj Hnd (conj Hi (conj Hw (conj Hl (conj (Sticky.new_wf m d)
    (conj (Z.le_refl 0) eq_refl))))))).
Qed.

(** Construction collapses the list onto the first occurrence of every
    identity and rejects an empty one; whatever the hasher, the index then finds
    an upstream's slot exactly when the identity (gates excluded) is configured. *)
Theorem rotator_built ps p q m d h now seed :
  Ratings.typed q ->
  match try_with_quarantine ps p q m d h now seed with
  | Ok r =>
      ps <> [] /\ proxies r = first_occurrences ps /\ NoDup (map ident (proxies r)) /\
      (forall x i, index_of r x = Some i <->
         exists u, proxies r !! i = Some u /\ ident u = ident x)
  | Err Empty => ps = []
  | Err (InvalidPolicy f) =>
      ps <> [] /\ (Policy.validate p = Err (Policy.InvalidPolicy f) \/
                   Quarantine.validate q = Err (Policy.InvalidPolicy f))
  end.
Proof.
  intros Hq. destruct (try_with_quarantine ps p q m d h now seed) as [r|[|f]] eqn:E.
  - destruct (built_wf _ _ _ _ _ _ _ _ _ Hq E) as (Hw & Hp & _). split; [|split; [done|split]].
    + by intros ->.
    + apply Hw.
    + intros x i. by apply index_of_spec.
  - unfold try_with_quarantine in E. destruct ps; [done|]. destruct (dedup _ _). unfold mbind, result_bind in E.
    by destruct (Ratings.try_with_quarantine _ _ _ _ _) as [|[]].
  - unfold try_with_quarantine in E. destruct ps; [done|]. split; [done|].
    destruct (dedup _ _). unfold mbind, result_bind, Ratings.try_with_quarantine, mbind, result_bind in E.
    destruct (Policy.validate p) as [?|[]]; cbn in E; [|left; congruence].
    destruct (Quarantine.validate q) as [?|[]]; cbn in E; [done|right; congruence].
Qed.

(** Every history of calls, in any interleaving, keeps the rotator
    consistent: the same deduplicated upstreams, the exact identity index, one
    rating slot per upstream, and consistent ratings and sticky cache. *)
Theorem rotator_invariant ps p q m d h now seed r calls :
  Ratings.typed q -> try_with_quarantine ps p q m d h now seed = Ok r ->
  Forall call_ok calls ->
  wf (foldl (flip run) r calls) /\ proxies (foldl (flip run) r calls) = first_occurrences ps.
Proof.
  intros Hq Hr Hc. destruct (built_wf _ _ _ _ _ _ _ _ _ Hq Hr) as (Hw & <- & _). clear Hq Hr.
  revert r Hw. induction Hc as [|c cs Hc _ IH]; intros r Hw; [done|]. cbn [foldl].
  unfold flip at 2. unfold flip at 3. destruct (rotator_run_wf c r Hc Hw) as [Hw' <-]. by apply IH.
Qed.

(** ** Routing *)

Lemma slots_lookup r (ids : list nat) p :
  p ∈ omap (fun i => proxies r !! i) ids <-> exists i, i ∈ ids /\ proxies r !! i = Some p.
Proof. by rewrite list_elem_of_omap. Qed.

Lemma slots_NoDup r (ids : list nat) :
  wf r -> NoDup ids -> NoDup (map ident (omap (fun i => proxies r !! i) ids)).
Proof.
  intros Hw. induction ids as [|i ids IH]; [constructor|]. intros [Hi Hnd]%NoDup_cons.
  cbn. destruct (proxies r !! i) as [p|] eqn:E; [|by apply IH]. cbn. constructor; [|by apply IH].
  rewrite list_elem_of_fmap. intros (u & Hid & (j & Hj & Hu)%slots_lookup).
  assert (i = j) as -> by (by eapply ident_inj). done.
Qed.

(** Upstream [p] of the rotator has a healthy quarantine cell. *)
Definition healthy r (now : Z) (p : ProxyConfig) : Prop :=
  exists i, index_of r p = Some i /\ Ratings.healthy_at (ratings r) now i.

Lemma pick_order_members now r :
  wf r ->
  let order := (pick_order now r).1 in
  order <> [] /\ NoDup (map ident order) /\
  (forall p, p ∈ order <->
     p ∈ proxies r /\
     (Quarantine.enabled (Ratings.quarantine (ratings r)) = true ->
      (exists q, q ∈ proxies r /\ healthy r now q) -> healthy r now p)).
Proof.
  intros Hw. pose proof Hw as (Hne & _ & _ & Hrw & Hlen & _).
  pose proof (Ratings.pick_order_perm now (ratings r) Hrw) as Hperm. unfold pick_order.
  destruct (Ratings.pick_order now (ratings r)) as [ids x]. cbn [fst] in *.
  assert (Hin : forall i, i ∈ ids <-> (i < len r)%nat /\
            (Ratings.confined (ratings r) now -> Ratings.healthy_at (ratings r) now i)).
  { intros i. by rewrite Hperm, Ratings.selectable_spec, Hlen. }
  assert (Hconf : Ratings.confined (ratings r) now <->
            Quarantine.enabled (Ratings.quarantine (ratings r)) = true /\
            exists q, q ∈ proxies r /\ healthy r now q).
  { unfold Ratings.confined. split; intros [He Hx]; (split; [done|]).
    - destruct Hx as [i Hi]. pose proof Hi as (c & Hc%lookup_lt_Some & _).
      rewrite (proj1 Hrw), Hlen in Hc. apply lookup_lt_is_Some_2 in Hc as [u Hu].
      exists u. split; [apply list_elem_of_lookup; eauto|]. exists i. split; [|done].
      apply index_of_spec; eauto.
    - destruct Hx as (q & _ & i & _ & Hi). eauto. }
  split; [|split].
  - assert (Hs : exists i, i ∈ ids) by (
      destruct ids as [|i ids']; [|exists i; by left]; exfalso;
      destruct (proxies r) as [|p0 ps] eqn:Ep; [done|];
      apply (not_elem_of_nil 0%nat), Hin; unfold len; rewrite Ep; split; [cbn; lia|];
      intros [_ [j Hj]]; exfalso; apply (not_elem_of_nil j), Hin; split; [|done];
      destruct Hj as (c & Hc%lookup_lt_Some & _); rewrite (proj1 Hrw), Hlen in Hc; exact Hc).
    destruct Hs as [i Hi]. pose proof (proj1 (proj1 (Hin i) Hi)) as Hlt.
    apply lookup_lt_is_Some_2 in Hlt as [u Hu]. intros Hnil.
    apply (not_elem_of_nil u). rewrite <- Hnil. apply slots_lookup. eauto.
  - apply slots_NoDup; [done|]. rewrite Hperm. apply Ratings.selectable_NoDup.
  - intros p. rewrite slots_lookup. split.
    + intros (i & Hi & Hp). apply Hin in Hi as [_ Hh].
      split; [apply list_elem_of_lookup; eauto|]. intros He Hx. exists i.
      split; [apply index_of_spec; eauto|]. apply Hh. by apply Hconf.
    + intros [[i Hi]%list_elem_of_lookup Hh]. exists i. split; [|done]. apply Hin.
      split; [by apply lookup_lt_Some in Hi|]. intros [He Hx]%Hconf.
      destruct (Hh He Hx) as (j & Hj & Hhj). apply index_of_spec in Hj as (u & Hu & Hid); [|done].
      by assert (i = j) as -> by (by eapply ident_inj).
Qed.

(** A route order is a non-empty duplicate-free list of configured
    upstreams: exactly the healthy ones while there are any and a quarantine is
    configured, all of them otherwise. *)
Theorem rotator_pick_order now r :
  wf r ->
  let order := (pick_order now r).1 in
  order <> [] /\ NoDup (map ident order) /\
  (forall p, p ∈ order <->
     p ∈ proxies r /\
     (Quarantine.enabled (Ratings.quarantine (ratings r)) = true ->
      (exists q, q ∈ proxies r /\ healthy r now q) -> healthy r now p)).
Proof. apply pick_order_members. Qed.

(** ** Round robin *)

Fixpoint next_n (k : nat) r : list (option ProxyConfig) :=
  match k with
  | O => []
  | S k' => let '(p, r') := get_next r in p :: next_n k' r'
  end.

Lemma next_n_spec k : forall r,
  0 <= index r -> index r + Z.of_nat k <= 2 ^ 64 ->
  next_n k r = map (fun j => proxies r !! Z.to_nat ((index r + Z.of_nat j) mod Z.of_nat (len r)))
                 (seq 0 k).
Proof.
  induction k as [|k IH]; intros r H0' Hk; [done|]. cbn [next_n seq map get_next].
  rewrite Z.add_0_r. f_equal. destruct k as [|k]; [done|].
  assert (Hi : index (set_index r (wrapping_add64 (index r) 1)) = index r + 1).
  { cbn. unfold wrapping_add64, wrap. apply Z.mod_small. lia. }
  rewrite IH by (rewrite Hi; lia). rewrite Hi, <- seq_shift, map_map. apply map_ext. intros j.
  cbn [set_index proxies len]. unfold len. cbn. do 2 f_equal. f_equal. lia.
Qed.

Lemma rotation_perm s n :
  (0 < n)%nat -> 0 <= s ->
  map (fun j => Z.to_nat ((s + Z.of_nat j) mod Z.of_nat n)) (seq 0 n) ≡ₚ seq 0 n.
Proof.
  intros Hn Hs. apply NoDup_Permutation_bis.
  - apply NoDup_ListNoDup, NoDup_fmap_2_strong; [|apply NoDup_seq].
    intros i j Hi Hj E. apply elem_of_seq in Hi, Hj.
    pose proof (Z.mod_pos_bound (s + Z.of_nat i) (Z.of_nat n) ltac:(lia)).
    pose proof (Z.mod_pos_bound (s + Z.of_nat j) (Z.of_nat n) ltac:(lia)).
    assert (Hm : (s + Z.of_nat i) mod Z.of_nat n = (s + Z.of_nat j) mod Z.of_nat n) by lia.
    pose proof (Z.div_mod (s + Z.of_nat i) (Z.of_nat n) ltac:(lia)).
    pose proof (Z.div_mod (s + Z.of_nat j) (Z.of_nat n) ltac:(lia)).
    assert (Z.of_nat i - Z.of_nat j =
            Z.of_nat n * ((s + Z.of_nat i) / Z.of_nat n - (s + Z.of_nat j) / Z.of_nat n)) by lia.
    assert ((s + Z.of_nat i) / Z.of_nat n - (s + Z.of_nat j) / Z.of_nat n = 0) by nia. lia.
  - by rewrite length_map, length_seq.
  - intros x (j & <- & Hj)%in_map_iff. apply in_seq.
    pose proof (Z.mod_pos_bound (s + Z.of_nat j) (Z.of_nat n) ltac:(lia)). lia.
Qed.

Lemma map_lookup_seq {A} (l : list A) : map (fun i => l !! i) (seq 0 (length l)) = map Some l.
Proof.
  apply list_eq. intros i. rewrite !list_lookup_fmap.
  destruct (decide (i < length l)%nat) as [Hi|Hi].
  - rewrite lookup_seq_lt by done. cbn. apply lookup_lt_is_Some_2 in Hi as [x ->]. done.
  - rewrite lookup_seq_ge by lia. by rewrite lookup_ge_None_2 by lia.
Qed.

(** Round robin is fair and never fails: from any counter value, [len]
    consecutive calls return every upstream exactly once (while the 64-bit
    counter does not wrap). *)
Theorem get_next_fair r :
  wf r -> index r + Z.of_nat (len r) <= 2 ^ 64 ->
  next_n (len r) r ≡ₚ map Some (proxies r).
Proof.
  intros (Hne & _ & _ & _ & _ & _ & Hi) Hk. rewrite next_n_spec by lia.
  assert (Hpos : (0 < len r)%nat) by (unfold len; destruct (proxies r); [done|cbn; lia]).
  rewrite <- map_lookup_seq. fold (len r).
  rewrite <- (rotation_perm (index r) (len r)) at 2 by lia.
  by rewrite map_map.
Qed.

(** ** Affinity *)

Lemma set_sticky_quarantined r s p : is_quarantined (set_sticky r s) p = is_quarantined r p.
Proof. done. Qed.

Lemma sticky_get_inserted a p now now' (c : Sticky.t (P := ProxyConfig)) :
  Sticky.wf c -> Sticky.max_entries c <> 0%nat -> now + Sticky.ttl c <= INSTANT_MAX ->
  (Sticky.get a now' (Sticky.insert a p now c)).1 =
  if now + Sticky.ttl c <=? now' then None else Some p.
Proof.
  intros Hw Hm Hd. unfold Sticky.insert. rewrite bool_decide_eq_false_2 by done.
  fold (Sticky.make_room a now c).
  destruct (Sticky.make_room_spec a now c Hw Hm) as (_ & Httl & _). rewrite Httl.
  unfold instant_checked_add. rewrite (proj2 (Z.leb_le _ _) Hd). unfold Sticky.get. cbn.
  rewrite lookup_insert_eq. cbn. by destruct (now + Sticky.ttl c <=? now').
Qed.

(** Affinity: a target linked to an upstream is routed to it until the
    entry's lifetime is over or the upstream is quarantined, and not once it is
    unlinked; nothing quarantined is ever handed out for any target. *)
Theorem sticky_affinity a p now now' r :
  wf r -> Sticky.max_entries (sticky r) <> 0%nat ->
  now + Sticky.ttl (sticky r) <= INSTANT_MAX ->
  (get_linked a now' (link_proxy a p now r)).1 =
    (if (now + Sticky.ttl (sticky r) <=? now') || is_quarantined r p then None else Some p) /\
  (get_linked a now' (unlink_proxy a r)).1 = None /\
  (forall b x, (get_linked b now' r).1 = Some x -> is_quarantined r x = false).
Proof.
  intros Hw Hm Hd. pose proof Hw as (_ & _ & _ & _ & _ & Hs & _).
  pose proof (sticky_get_inserted a p now now' (sticky r) Hs Hm Hd) as Hg.
  split; [|split].
  - unfold get_linked, link_proxy. cbn [sticky set_sticky].
    destruct (Sticky.get a now' _) as [linked s]. cbn [fst] in Hg. subst linked.
    destruct (_ <=? now'); [done|]. cbn [orb]. rewrite !set_sticky_quarantined.
    by destruct (is_quarantined r p).
  - unfold get_linked, unlink_proxy. cbn [sticky set_sticky]. unfold Sticky.get.
    by rewrite Sticky.remove_entries, lookup_delete_eq.
  - intros b x. unfold get_linked. destruct (Sticky.get b now' (sticky r)) as [[y|] s]; [|done].
    rewrite set_sticky_quarantined. destruct (is_quarantined r y) eqn:E; [done|]. by intros [= <-].
Qed.

(** ** Recording outcomes *)

(** The quarantine cell of slot [i]. *)
Definition cell r (i : nat) : option Quarantine.Cell := Ratings.qcells (ratings r) !! i.
Definition qpolicy r : Quarantine.QuarantinePolicy := Ratings.quarantine (ratings r).

Lemma set_ratings_index r x p : index_of (set_ratings r x) p = index_of r p.
Proof. done. Qed.

Lemma rating_run_qpolicy r c : qpolicy (set_ratings r (Ratings.run c (ratings r))) = qpolicy r.
Proof. unfold qpolicy. cbn. by destruct (Ratings.run_policies c (ratings r)) as (_ & -> & _). Qed.

Lemma cell_exists r p i : wf r -> index_of r p = Some i -> is_Some (cell r i).
Proof.
  intros Hw Hi. apply index_of_lt in Hi; [|done]. destruct Hw as (_ & _ & _ & Hr & Hl & _).
  apply lookup_lt_is_Some. rewrite (proj1 Hr), Hl. done.
Qed.

Lemma record_hard_failure_spec p now r i c :
  wf r -> Quarantine.enabled (qpolicy r) = true -> index_of r p = Some i -> cell r i = Some c ->
  let '(res, r') := record_hard_failure p now r in
  res = (Quarantine.hard_failure c now (qpolicy r)).1 /\
  Ratings.qcells (ratings r') =
    <[i := (Quarantine.hard_failure c now (qpolicy r)).2]> (Ratings.qcells (ratings r)) /\
  qpolicy r' = qpolicy r /\ (forall x, index_of r' x = index_of r x).
Proof.
  intros Hw He Hi Hc. unfold record_hard_failure. rewrite Hi.
  pose proof (index_of_lt r p i Hw Hi) as Hlt.
  destruct Hw as (_ & _ & _ & _ & Hl & _). unfold len in Hlt. fold (len r) in Hlt. rewrite <- Hl in Hlt.
  destruct (Ratings.on_hard_failure_cell i now (ratings r) c Hlt He Hc) as [H1 H2].
  destruct (Ratings.run_policies (Ratings.CHardFailure i now) (ratings r)) as (_ & Hq & _).
  cbn [Ratings.run] in Hq. destruct (Ratings.on_hard_failure i now (ratings r)) as [res x].
  by repeat split.
Qed.

Lemma on_failure_qcells i now (x : Ratings.t F) :
  Ratings.qcells (Ratings.on_failure i now x) = Ratings.qcells x.
Proof.
  unfold Ratings.on_failure. destruct (negb _); [done|]. by destruct (Ratings.cells x !! i).
Qed.

(** A typed error is recorded against its upstream's own slot only: errors
    of this side (and unknown upstreams) change nothing, errors that say nothing
    about the upstream being down never touch a quarantine, and down errors are
    one hard failure of that upstream's cell, whose backoff length is returned. *)
Theorem record_error_effect p e now r :
  wf r ->
  let '(res, r') := record_error p e now r in
  (counts_against_upstream e = false \/ index_of r p = None -> res = None /\ r' = r) /\
  (is_upstream_down e = false ->
     res = None /\ Ratings.qcells (ratings r') = Ratings.qcells (ratings r)) /\
  (forall i c, is_upstream_down e = true -> Quarantine.enabled (qpolicy r) = true ->
     index_of r p = Some i -> cell r i = Some c ->
     res = (Quarantine.hard_failure c now (qpolicy r)).1 /\
     Ratings.qcells (ratings r') =
       <[i := (Quarantine.hard_failure c now (qpolicy r)).2]> (Ratings.qcells (ratings r))) /\
  (forall j, index_of r p <> Some j ->
     Ratings.cells (ratings r') !! j = Ratings.cells (ratings r) !! j /\ cell r' j = cell r j).
Proof.
  intros Hw. unfold record_error, record_failure.
  pose proof (down_counts e) as Hdc.
  destruct (counts_against_upstream e); cbn [negb].
  2: { destruct (is_upstream_down e); [by specialize (Hdc eq_refl)|]. split; [done|].
       split; [done|]. split; [done|]. done. }
  destruct (is_upstream_down e) eqn:Ed.
  - destruct (record_hard_failure p now r) as [res r'] eqn:Er.
    assert (Hother : forall j, index_of r p <> Some j ->
       Ratings.cells (ratings r') !! j = Ratings.cells (ratings r) !! j /\ cell r' j = cell r j).
    { intros j Hj. unfold record_hard_failure in Er.
      destruct (index_of r p) as [i|] eqn:Ei; [|by simplify_eq].
      assert (Hne : i <> j) by congruence.
      destruct (Ratings.on_hard_failure i now (ratings r)) as [o x] eqn:Eo. simplify_eq.
      unfold Ratings.on_hard_failure in Eo. unfold cell. cbn.
      repeat case_match; simplify_eq/=; rewrite ?list_lookup_insert_ne by done; done. }
    split; [|split; [done|split; [|exact Hother]]].
    + intros [?|Hn]; [done|]. unfold record_hard_failure in Er. rewrite Hn in Er. by simplify_eq.
    + intros i c _ He Hi Hc. pose proof (record_hard_failure_spec p now r i c Hw He Hi Hc) as Hs.
      rewrite Er in Hs. by destruct Hs as (-> & -> & _).
  - destruct (index_of r p) as [i|] eqn:Ei.
    + split; [by intros [?|?]|]. split; [intros _; split; [done|apply on_failure_qcells]|].
      split; [done|]. intros j Hj. split; [|unfold cell; cbn; by rewrite on_failure_qcells].
      cbn. unfold Ratings.on_failure. destruct (negb _); [done|].
      destruct (Ratings.cells _ !! i); [|done]. cbn. by rewrite list_lookup_insert_ne by congruence.
    + split; [done|]. split; [done|]. split; [done|]. done.
Qed.

(** ** Probes *)

Lemma probation_trips p c now :
  Quarantine.valid p -> Quarantine.wf p c -> Quarantine.state c now = Quarantine.Probation ->
  is_Some (Quarantine.hard_failure c now p).1.
Proof.
  intros ((Ht0 & Ht1) & _) (Hc & _ & Hu) Hs. unfold Quarantine.hard_failure. rewrite Hs.
  rewrite bool_decide_eq_false_2 by done.
  apply Quarantine.state_not_quarantined_tripped in Hs as (u & E & _). rewrite E in Hu.
  unfold saturating_add32. rewrite (proj2 (Z.ltb_ge _ _)) by lia. by eexists.
Qed.

(** The cell a probe's outcome leaves behind. *)
Definition outcome_cell (q : Quarantine.QuarantinePolicy) (c : Quarantine.Cell)
    (d : ProxyConfig * CheckResult * Z) : Quarantine.Cell :=
  match d.1.2 with
  | Ok _ => Quarantine.cell_default
  | Err _ => (Quarantine.hard_failure c d.2 q).2
  end.

(** The event of a completed probe, from the state before its outcome. *)
Definition event_of r (d : ProxyConfig * CheckResult * Z) (ev : ProbeEvent) : Prop :=
  exists i c, index_of r d.1.1 = Some i /\ cell r i = Some c /\
    match d.1.2 with
    | Ok _ => ev = Recovered d.1.1
    | Err reason => exists length, (Quarantine.hard_failure c d.2 (qpolicy r)).1 = Some length /\
                                   ev = StillDown d.1.1 length reason
    end.

Definition due r (d : ProxyConfig * CheckResult * Z) : Prop :=
  exists i c, index_of r d.1.1 = Some i /\ cell r i = Some c /\
    Quarantine.state c d.2 = Quarantine.Probation.

Lemma report_due_spec ev r d i c :
  wf r -> Quarantine.enabled (qpolicy r) = true ->
  index_of r d.1.1 = Some i -> cell r i = Some c ->
  Quarantine.state c d.2 = Quarantine.Probation ->
  exists e, event_of r d e /\
    let '(ev', r') := report_due (ev, r) d in
    ev' = ev ++ [e] /\ wf r' /\ qpolicy r' = qpolicy r /\
    (forall x, index_of r' x = index_of r x) /\
    Ratings.qcells (ratings r') = <[i := outcome_cell (qpolicy r) c d]> (Ratings.qcells (ratings r)).
Proof.
  intros Hw He Hi Hc Hs. destruct d as [[p res] now]. unfold outcome_cell, event_of, report_due.
  cbn [fst snd] in *. destruct res as [[]|reason].
  - exists (Recovered p). split; [eauto|]. split; [done|]. split; [by apply record_success_wf|].
    unfold record_success. rewrite Hi. split; [by apply (rating_run_qpolicy r (Ratings.CSuccess i now))|].
    split; [done|]. cbn. unfold Ratings.on_success.
    pose proof (index_of_lt r p i Hw Hi) as Hlt. destruct Hw as (_ & _ & _ & _ & Hl & _).
    rewrite <- Hl in Hlt. apply lookup_lt_is_Some_2 in Hlt as [s ->].
    unfold cell in Hc. destruct (Policy.enabled _); cbn; apply list_eq; intros j;
      (destruct (decide (i = j)) as [<-|Hne];
       [rewrite list_lookup_alter_eq, Hc, list_lookup_insert_eq by (by apply lookup_lt_Some in Hc)
       |rewrite list_lookup_alter_ne, list_lookup_insert_ne by done]; done).
  - assert (Hqw : Quarantine.valid (qpolicy r) /\ Quarantine.wf (qpolicy r) c).
    { destruct Hw as (_ & _ & _ & Hr & _). split; [by apply Ratings.wf_valid|].
      by apply (Ratings.wf_qcell (ratings r) i). }
    destruct (probation_trips _ c now (proj1 Hqw) (proj2 Hqw) Hs) as [length Hlen].
    pose proof (record_hard_failure_spec p now r i c Hw He Hi Hc) as Hrec.
    pose proof (record_hard_failure_wf p now r Hw) as Hw'.
    destruct (record_hard_failure p now r) as [tripped r']. destruct Hrec as (-> & Hcells & Hq & Hidx).
    exists (StillDown p length reason). rewrite Hlen. split; [eauto 10|]. split; [done|]. done.
Qed.

Lemma drain_due_spec done : forall ev r,
  wf r -> Quarantine.enabled (qpolicy r) = true ->
  NoDup (map (fun d => ident d.1.1) done) -> Forall (due r) done ->
  exists evs, Forall2 (event_of r) done evs /\
    let '(ev', r') := foldl report_due (ev, r) done in
    ev' = ev ++ evs /\ wf r' /\
    (forall d i c, d ∈ done -> index_of r d.1.1 = Some i -> cell r i = Some c ->
       cell r' i = Some (outcome_cell (qpolicy r) c d)) /\
    (forall i, (forall d, d ∈ done -> index_of r d.1.1 <> Some i) -> cell r' i = cell r i).
Proof.
  induction done as [|d done IH]; intros ev r Hw He Hnd Hdue.
  { exists []. split; [constructor|]. cbn. rewrite app_nil_r. split; [done|]. split; [done|].
    split; [by intros d i c ?%not_elem_of_nil|done]. }
  apply NoDup_cons in Hnd as [Hd Hnd]. apply Forall_cons in Hdue as [(i & c & Hi & Hc & Hs) Hdue].
  destruct (report_due_spec ev r d i c Hw He Hi Hc Hs) as (e & Hev & Hrep). cbn [foldl].
  destruct (report_due (ev, r) d) as [ev1 r1]. destruct Hrep as (-> & Hw1 & Hq1 & Hidx & Hcells).
  assert (Hfar : forall d' j, d' ∈ done -> index_of r d'.1.1 = Some j -> i <> j).
  { intros d' j Hin Hj <-. apply Hd, list_elem_of_fmap. exists d'. split; [|done].
    apply index_of_spec in Hi as (u & Hu & Hid); [|done].
    apply index_of_spec in Hj as (v & Hv & Hid'); [|done]. congruence. }
  assert (Hsame : forall j, i <> j -> cell r1 j = cell r j).
  { intros j Hj. unfold cell. by rewrite Hcells, list_lookup_insert_ne. }
  assert (Hdue1 : Forall (due r1) done).
  { rewrite Forall_forall in Hdue |- *. intros d' Hin. destruct (Hdue d' Hin) as (j & c' & Hj & Hc' & Hs').
    exists j, c'. rewrite Hidx, Hsame by eauto. done. }
  destruct (IH (ev ++ [e]) r1 Hw1 ltac:(by rewrite Hq1) Hnd Hdue1) as (evs & Hevs & Hrest).
  exists (e :: evs). split.
  { constructor; [done|]. eapply Forall2_impl_elem; [exact Hevs|]. intros d' e' Hin (j & c' & Hj & Hc' & Hm).
    rewrite Hidx in Hj. rewrite Hsame in Hc' by eauto. rewrite Hq1 in Hm. by exists j, c'. }
  destruct (foldl report_due _ done) as [ev' r']. destruct Hrest as (-> & Hw' & Hdone & Hother).
  rewrite <- app_assoc. split; [done|]. split; [done|]. split.
  - intros d' j c' [->|Hin]%elem_of_cons Hj Hc'.
    + rewrite Hother; [|intros d' Hin Hj'; rewrite Hidx in Hj'; apply (Hfar d' j Hin Hj'); congruence].
      assert (j = i) as -> by congruence. assert (c' = c) as -> by congruence. unfold cell.
      rewrite Hcells, list_lookup_insert_eq; [done|]. by apply lookup_lt_Some in Hc.
    + rewrite (Hdone d' j c') by (rewrite ?Hidx, ?Hsame by eauto; done). by rewrite Hq1.
  - intros j Hj. rewrite Hother.
    + apply Hsame. intros <-. apply (Hj d); [by left|done].
    + intros d' Hin Hj'. rewrite Hidx in Hj'. apply (Hj d'); [by right|done].
Qed.

Lemma take_probes_due now r d :
  wf r -> Quarantine.enabled (qpolicy r) = true ->
  d.1.1 ∈ (take_probes now r).1 -> now <= d.2 -> due (take_probes now r).2 d.
Proof.
  intros Hw He Hin Hnow. unfold take_probes in *.
  destruct (Ratings.take_probes_spec now (ratings r) He) as [Hids Hr'].
  destruct (Ratings.take_probes now (ratings r)) as [ids x]. cbn [fst snd] in *.
  apply slots_lookup in Hin as (i & Hi & Hp). apply Hids in Hi as (c & Hc & Hl).
  exists i, (Quarantine.try_lease c now (Ratings.quarantine (ratings r))).2.
  split; [rewrite set_ratings_index; apply index_of_spec; eauto|]. split.
  - unfold cell. cbn. rewrite Hr'. cbn. by rewrite list_lookup_fmap, Hc.
  - rewrite Quarantine.try_lease_spec, Hl. unfold Quarantine.leasable in Hl.
    apply andb_true_iff in Hl as [Hs%bool_decide_eq_true _].
    apply Quarantine.state_not_quarantined_tripped in Hs as (u & Hu & Hle).
    unfold Quarantine.state. cbn. rewrite Hu. by rewrite (proj2 (Z.ltb_ge _ _)) by lia.
Qed.

Lemma submseteq_NoDup {A} (l k : list A) : l ⊆+ k -> NoDup k -> NoDup l.
Proof. intros [k' ->]%submseteq_Permutation. by intros [? _]%NoDup_app. Qed.

Lemma submseteq_map_elem {A} (l k : list A) x : l ⊆+ k -> x ∈ l -> x ∈ k.
Proof. intros Hs Hx. by eapply elem_of_submseteq. Qed.

(** A probing round: whatever the reservation refuses, in whatever order
    the checks complete, every completed check is reported by exactly one event
    and settles its upstream: a reachable one is back in rotation, an unreachable
    one is quarantined again with the next backoff length; all others, deferred or
    not due, are left as they were. *)
Theorem probe_due_outcomes reserve now r r1 ps done :
  wf r -> Quarantine.enabled (qpolicy r) = true ->
  take_probes now r = (ps, r1) ->
  map (fun d => d.1.1) done ⊆+ spawn_checks reserve ps ->
  Forall (fun d => now <= d.2) done ->
  let '(events, r2) := drain_due done r1 in
  Forall2 (event_of r1) done events /\ wf r2 /\
  (forall d i c, d ∈ done -> index_of r1 d.1.1 = Some i -> cell r1 i = Some c ->
     cell r2 i = Some (outcome_cell (qpolicy r1) c d)) /\
  (forall i, (forall d, d ∈ done -> index_of r1 d.1.1 <> Some i) -> cell r2 i = cell r1 i).
Proof.
  intros Hw He Ht Hsub Hnow. unfold drain_due.
  assert (Hr1 : r1 = (take_probes now r).2) by (by rewrite Ht).
  assert (Hps : ps = (take_probes now r).1) by (by rewrite Ht).
  assert (Hw1 : wf r1) by (rewrite Hr1; by apply rotator_take_probes_wf).
  assert (He1 : Quarantine.enabled (qpolicy r1) = true).
  { rewrite Hr1. unfold take_probes.
    pose proof (rating_run_qpolicy r (Ratings.CTakeProbes now)) as Hq. cbn [Ratings.run] in Hq.
    destruct (Ratings.take_probes now (ratings r)) as [ids x]. cbn [snd] in *. by rewrite Hq. }
  assert (Hnd : NoDup (map (fun d => ident d.1.1) done)).
  { replace (map (fun d => ident d.1.1) done) with (map ident (map (fun d : ProxyConfig * CheckResult * Z => d.1.1) done))
      by (by rewrite map_map).
    eapply submseteq_NoDup; [apply fmap_submseteq, Hsub|]. unfold spawn_checks.
    assert (Hall : NoDup (map ident ps)).
    { rewrite Hps. unfold take_probes. pose proof (Ratings.take_probes_NoDup now (ratings r)) as Hnd.
      destruct (Ratings.take_probes now (ratings r)) as [ids x]. by apply slots_NoDup. }
    clear -Hall. induction ps as [|p ps IH]; [constructor|]. cbn in Hall.
    apply NoDup_cons in Hall as [Hp Hall]. cbn. destruct (reserve p); [|by apply IH]. cbn.
    constructor; [|by apply IH]. intros (u & Hu & Hin)%list_elem_of_fmap. apply Hp, list_elem_of_fmap.
    exists u. split; [done|]. apply list_elem_of_In in Hin. apply filter_In in Hin as [Hin _].
    by apply list_elem_of_In. }
  assert (Hdue : Forall (due r1) done).
  { rewrite Forall_forall in Hnow |- *. intros d Hd. rewrite Hr1.
    apply take_probes_due; [done|done| |by apply Hnow]. rewrite <- Hps.
    assert (Hin : d.1.1 ∈ spawn_checks reserve ps).
    { eapply submseteq_map_elem; [exact Hsub|]. apply list_elem_of_fmap. by exists d. }
    unfold spawn_checks in Hin. apply list_elem_of_In, filter_In in Hin as [Hin _].
    by apply list_elem_of_In. }
  destruct (drain_due_spec done [] r1 Hw1 He1 Hnd Hdue) as (evs & Hevs & Hrest).
  destruct (foldl report_due _ done) as [events r2]. by destruct Hrest as (-> & ?).
Qed.

(** ** Saved health *)

Lemma health_of_ok q now c :
  Quarantine.wf q c -> Ratings.health_ok (Ratings.health_of now c).
Proof.
  intros (Hc & Ht & _). unfold Ratings.health_ok, Ratings.health_of, Quarantine.snapshot. cbn.
  split; [|done]. unfold saturating_duration_since. repeat case_match; lia.
Qed.

(** The cell a saved record is restored to. *)
Definition restored (q : Quarantine.QuarantinePolicy) (now now' : Z) (c : Quarantine.Cell) : Quarantine.Cell :=
  let h := Ratings.health_of now c in
  if Quarantine.is_tripped c
  then Quarantine.restore (bool_decide (Ratings.h_state h = Ratings.UQuarantined))
         (Ratings.remaining h) (Ratings.h_trips h) (Ratings.h_consecutive h) now' q Quarantine.cell_default
  else Quarantine.cell_default.

Lemma restore_ignores_cell b a c d e p x y :
  Quarantine.restore b a c d e p x = Quarantine.restore b a c d e p y.
Proof. done. Qed.

Lemma restore_one_spec now now' n r i p c :
  wf r -> Quarantine.enabled (qpolicy r) = true -> index_of r p = Some i ->
  cell r i = Some Quarantine.cell_default ->
  let '(n', r') := restore_one now' (n, r) (mkUpstreamHealth p (Ratings.health_of now c)) in
  n' = (n + if Quarantine.is_tripped c then 1 else 0)%nat /\
  qpolicy r' = qpolicy r /\
  Ratings.qcells (ratings r') = <[i := restored (qpolicy r) now now' c]> (Ratings.qcells (ratings r)).
Proof.
  intros Hw He Hi Hc. unfold restore_one. cbn [uh_proxy uh_health]. rewrite Hi.
  unfold Ratings.restore_health, restored. fold (qpolicy r). rewrite He. cbn [negb orb].
  pose proof (Ratings.health_of_alive now c) as Ha. unfold cell in Hc.
  destruct (Quarantine.is_tripped c).
  - rewrite bool_decide_eq_false_2 by (intros Hx; by apply Ha in Hx). rewrite Hc.
    split; [lia|]. done.
  - rewrite bool_decide_eq_true_2 by (by apply Ha). split; [lia|]. split; [done|]. cbn.
    symmetry. by apply list_insert_id.
Qed.

Lemma health_lookup r now k :
  health r now !! k =
  match proxies r !! k, cell r k with
  | Some p, Some c => Some (mkUpstreamHealth p (Ratings.health_of now c))
  | _, _ => None
  end.
Proof.
  unfold health, Ratings.health, cell. rewrite lookup_zip_with, list_lookup_fmap.
  by destruct (proxies r !! k), (Ratings.qcells (ratings r) !! k).
Qed.

Definition tripped_count (cs : list Quarantine.Cell) : nat :=
  length (List.filter Quarantine.is_tripped cs).

Lemma restore_prefix r r0 now now' k :
  wf r -> wf r0 -> proxies r0 = proxies r -> qpolicy r0 = qpolicy r ->
  Quarantine.enabled (qpolicy r) = true ->
  Forall (fun c => c = Quarantine.cell_default) (Ratings.qcells (ratings r0)) ->
  (k <= len r)%nat ->
  let '(n, rk) := foldl (restore_one now') (0%nat, r0) (take k (health r now)) in
  wf rk /\ proxies rk = proxies r /\ qpolicy rk = qpolicy r /\
  (forall x, index_of rk x = index_of r0 x) /\
  n = tripped_count (take k (Ratings.qcells (ratings r))) /\
  Ratings.qcells (ratings rk) =
    map (restored (qpolicy r) now now') (take k (Ratings.qcells (ratings r)))
    ++ drop k (Ratings.qcells (ratings r0)).
Proof.
  intros Hw Hw0 Hp Hq He Hdef. induction k as [|k IH]; intros Hk.
  { cbn. rewrite !take_0. cbn. rewrite drop_0. done. }
  specialize (IH ltac:(lia)).
  assert (Hlt : (k < len r)%nat) by lia. pose proof Hlt as [p Hpk]%lookup_lt_is_Some_2.
  assert (Hik : index_of r0 p = Some k) by (apply index_of_spec; [done|]; rewrite Hp; eauto).
  assert (Hirk : index_of r p = Some k) by (apply index_of_spec; eauto).
  destruct (cell_exists r p k Hw Hirk) as [c Hck].
  assert (Hh : health r now !! k = Some (mkUpstreamHealth p (Ratings.health_of now c)))
    by (by rewrite health_lookup, Hpk, Hck).
  rewrite (take_S_r _ _ _ Hh), foldl_app.
  destruct (foldl (restore_one now') (0%nat, r0) (take k (health r now))) as [n rk].
  destruct IH as (Hwk & Hpk' & Hqk & Hidx & Hn & Hcells). cbn [foldl].
  assert (Hlenq : length (Ratings.qcells (ratings r)) = len r)
    by (destruct Hw as (_ & _ & _ & Hr & Hl & _); rewrite (proj1 Hr); done).
  assert (Hlenq0 : length (Ratings.qcells (ratings r0)) = len r).
  { destruct Hw0 as (_ & _ & _ & Hr & Hl & _). rewrite (proj1 Hr), Hl. unfold len. by rewrite Hp. }
  destruct (lookup_lt_is_Some_2 (Ratings.qcells (ratings r0)) k ltac:(lia)) as [c0 Hc0].
  assert (c0 = Quarantine.cell_default) as -> by (by eapply (Forall_lookup_Some _ _ _ _ Hdef)).
  assert (Hl1 : length (map (restored (qpolicy r) now now') (take k (Ratings.qcells (ratings r)))) = k)
    by (rewrite length_map, length_take; lia).
  assert (Hrkc : cell rk k = Some Quarantine.cell_default).
  { unfold cell. rewrite Hcells, lookup_app_r by lia. rewrite Hl1, Nat.sub_diag, lookup_drop.
    by rewrite Nat.add_0_r. }
  assert (Hok : Ratings.health_ok (Ratings.health_of now c)).
  { apply (health_of_ok (qpolicy r)). destruct Hw as (_ & _ & _ & Hr & _).
    by apply (Ratings.wf_qcell (ratings r) k). }
  pose proof (restore_one_wf now' n (mkUpstreamHealth p (Ratings.health_of now c)) rk Hwk Hok) as Hw'.
  pose proof (restore_one_same now' (n, rk) (mkUpstreamHealth p (Ratings.health_of now c))) as Hs.
  pose proof (restore_one_spec now now' n rk k p c Hwk ltac:(by rewrite Hqk)
                ltac:(by rewrite Hidx) Hrkc) as H1.
  destruct (restore_one now' (n, rk) _) as [n' r']. cbn [snd] in Hs, Hw'.
  destruct Hs as (Hs1 & Hs2 & Hs3), H1 as (-> & Hq' & Hcells').
  split; [done|]. split; [congruence|]. split; [congruence|]. split.
  { intros x. rewrite <- Hidx. unfold index_of. by rewrite Hs1, Hs2, Hs3. }
  unfold cell in Hck. rewrite (take_S_r _ _ _ Hck). split.
  - subst n. unfold tripped_count. rewrite List.filter_app, length_app. cbn.
    by destruct (Quarantine.is_tripped c).
  - rewrite Hcells', Hcells, Hqk, map_app, <- app_assoc.
    rewrite insert_app_r_alt by lia. rewrite Hl1, Nat.sub_diag. f_equal.
    rewrite (drop_S _ _ _ Hc0). done.
Qed.

(** What a restart keeps of a record: an alive upstream starts with no failures. *)
Definition kept (e : UpstreamHealth) : UpstreamHealth :=
  if bool_decide (Ratings.h_state (uh_health e) = Ratings.Alive)
  then mkUpstreamHealth (uh_proxy e) (Ratings.mkHealth Ratings.Alive 0 0 0) else e.

(** A restart resumes with the same picture: the records saved at [now],
    loaded into a freshly built rotator over the same list (with another hasher
    and clock), give back the same records (state, time left, trips and streak),
    alive upstreams starting afresh, and the call reports how many upstreams were
    put back into quarantine. *)
Theorem health_restore_roundtrip r r0 now now' :
  wf r -> wf r0 -> proxies r0 = proxies r -> qpolicy r0 = qpolicy r ->
  Quarantine.enabled (qpolicy r) = true ->
  Forall (fun c => c = Quarantine.cell_default) (Ratings.qcells (ratings r0)) ->
  Forall (fun c => saturating_duration_since (from_option id 0 (Quarantine.until c)) now
                   <= Quarantine.max (qpolicy r)) (Ratings.qcells (ratings r)) ->
  now' + Quarantine.max (qpolicy r) <= INSTANT_MAX ->
  let '(n, r1) := restore_health (health r now) now' r0 in
  n = tripped_count (Ratings.qcells (ratings r)) /\ health r1 now' = map kept (health r now).
Proof.
  intros Hw Hw0 Hp Hq He Hdef Hleft Hmax.
  assert (Hlenq : length (Ratings.qcells (ratings r)) = len r)
    by (destruct Hw as (_ & _ & _ & Hr & Hl & _); rewrite (proj1 Hr); done).
  assert (Hlenq0 : length (Ratings.qcells (ratings r0)) = len r).
  { destruct Hw0 as (_ & _ & _ & Hr & Hl & _). rewrite (proj1 Hr), Hl. unfold len. by rewrite Hp. }
  pose proof (restore_prefix r r0 now now' (len r) Hw Hw0 Hp Hq He Hdef ltac:(lia)) as Hpre.
  unfold restore_health. rewrite take_ge in Hpre.
  2: { unfold health, Ratings.health. rewrite length_zip_with, length_map. fold (len r). lia. }
  destruct (foldl _ _ _) as [n r1]. destruct Hpre as (_ & Hp1 & _ & _ & Hn & Hcells).
  rewrite !take_ge in Hcells by lia. rewrite take_ge in Hn by lia.
  rewrite drop_ge, app_nil_r in Hcells by lia. split; [done|].
  apply list_eq. intros i. rewrite list_lookup_fmap, !health_lookup, Hp1. unfold cell.
  rewrite Hcells, list_lookup_fmap.
  destruct (proxies r !! i) as [p|]; [|done].
  destruct (Ratings.qcells (ratings r) !! i) as [c|] eqn:Ec; [|done]. cbn. f_equal.
  pose proof (Ratings.health_of_alive now c) as Ha. unfold kept. cbn [uh_health uh_proxy].
  unfold restored. destruct (Quarantine.is_tripped c) eqn:Et.
  - rewrite (bool_decide_eq_false_2 (_ = Ratings.Alive)) by (intros Hx; by apply Ha in Hx). f_equal.
    destruct Hw as (_ & _ & _ & Hr & _).
    apply Ratings.health_of_restore; [by apply Ratings.wf_valid| |done| |done].
    + by apply (Ratings.wf_qcell _ i).
    + by eapply (Forall_lookup_Some _ _ _ _ Hleft).
  - by rewrite (bool_decide_eq_true_2 (_ = Ratings.Alive)) by (by apply Ha).
Qed.

End Laws.

(** ** A concrete rotator

    Three lines, two identities, and a hasher under which everything collides. *)
#[local] Existing Instance Ratings.demo_float.
#[local] Existing Instance Ratings.demo_laws.
Abbreviation F64t := SpecFloat.spec_float (only parsing).

Definition up (host : bytes) : ProxyConfig := new Socks5 host 1080.
Definition demo_list : list ProxyConfig := [up (lit "a"); up (lit "b"); up (lit "a")].
Definition collide : RandomState := fun _ => 7.
Definition demo_with (h : RandomState) (now : Z) : t F64t :=
  mk [up (lit "a"); up (lit "b")] h (dedup h demo_list).2 0 (Sticky.new 4 (from_secs 60))
    (Ratings.mk Policy.default Quarantine.default (replicate 2 (Sand.new now))
       (replicate 2 Quarantine.cell_default) (SmallRng.from_seed 42)).
Definition demo : t F64t := demo_with collide 0.

Lemma demo_with_built h now :
  first_occurrences demo_list = [up (lit "a"); up (lit "b")] ->
  try_with_quarantine demo_list Policy.default Quarantine.default 4 (from_secs 60) h now 42
  = Ok (demo_with h now).
Proof.
  intros E. unfold try_with_quarantine. cbn [demo_list]. fold demo_list. unfold demo_with.
  pose proof (dedup_spec h demo_list) as [Hd _]. rewrite E in Hd.
  destruct (dedup h demo_list) as [u m]. cbn [fst snd] in *. subst u. reflexivity.
Qed.

Lemma rotator_demo_built :
  try_with_quarantine demo_list Policy.default Quarantine.default 4 (from_secs 60) collide 0 42
  = Ok demo.
Proof. by apply demo_with_built. Qed.

Lemma demo_with_wf h now : wf (demo_with h now).
Proof.
  pose proof (demo_with_built h now ltac:(by vm_compute)) as E.
  by destruct (built_wf _ _ _ _ _ _ _ _ _ Ratings.demo_typed E).
Qed.

Lemma rotator_built_witness :
  demo_list <> [] /\ proxies demo = first_occurrences demo_list /\
  NoDup (map ident (proxies demo)) /\
  (forall x i, index_of demo x = Some i <->
     exists u, proxies demo !! i = Some u /\ ident u = ident x).
Proof.
  pose proof (rotator_built demo_list (F := F64t) Policy.default Quarantine.default 4 (from_secs 60)
                collide 0 42 Ratings.demo_typed) as Hb.
  rewrite rotator_demo_built in Hb. exact Hb.
Defined.

Definition down_error : ConnectError := Timeout StageConnect TcpConnect (lit "a:1080") (from_secs 1).

Lemma rotator_invariant_witness :
  let calls := [KLink (lit "x:443") (up (lit "b")) 1; KError (up (lit "b")) down_error 2;
                KQuarantineNow (up (lit "a")) 3; KGetLinked (lit "x:443") 4; KGetNext;
                KTakeProbes (from_secs 40); KPickOrder (from_secs 41)] in
  wf (foldl (flip run) demo calls) /\
  proxies (foldl (flip run) demo calls) = first_occurrences demo_list.
Proof.
  apply (rotator_invariant demo_list Policy.default Quarantine.default 4 (from_secs 60) collide 0 42
           demo _ Ratings.demo_typed rotator_demo_built).
  repeat constructor.
Defined.

Lemma rotator_pick_order_witness :
  let r := (quarantine_now (up (lit "b")) 3 demo).2 in
  let order := (pick_order 5 r).1 in
  order <> [] /\ NoDup (map ident order) /\
  (forall p, p ∈ order <->
     p ∈ proxies r /\
     (Quarantine.enabled (Ratings.quarantine (ratings r)) = true ->
      (exists q, q ∈ proxies r /\ healthy r 5 q) -> healthy r 5 p)).
Proof. apply rotator_pick_order, rotator_quarantine_now_wf, demo_with_wf. Defined.

Lemma get_next_fair_witness : next_n 2 demo ≡ₚ [Some (up (lit "a")); Some (up (lit "b"))].
Proof. apply (get_next_fair demo (demo_with_wf _ _)). vm_compute. congruence. Defined.

Lemma sticky_affinity_witness :
  (get_linked (lit "x") 9 (link_proxy (lit "x") (up (lit "b")) 3 demo)).1 = Some (up (lit "b")) /\
  (get_linked (lit "x") 9 (unlink_proxy (lit "x") demo)).1 = None /\
  (forall b x, (get_linked b 9 demo).1 = Some x -> is_quarantined demo x = false).
Proof.
  apply (sticky_affinity (lit "x") (up (lit "b")) 3 9 demo (demo_with_wf _ _));
    [done | vm_compute; congruence].
Defined.

Lemma record_error_effect_witness :
  let '(res, r') := record_error (up (lit "b")) down_error 5 demo in
  (counts_against_upstream down_error = false \/ index_of demo (up (lit "b")) = None ->
     res = None /\ r' = demo) /\
  (is_upstream_down down_error = false ->
     res = None /\ Ratings.qcells (ratings r') = Ratings.qcells (ratings demo)) /\
  (forall i c, is_upstream_down down_error = true -> Quarantine.enabled (qpolicy demo) = true ->
     index_of demo (up (lit "b")) = Some i -> cell demo i = Some c ->
     res = (Quarantine.hard_failure c 5 (qpolicy demo)).1 /\
     Ratings.qcells (ratings r') =
       <[i := (Quarantine.hard_failure c 5 (qpolicy demo)).2]> (Ratings.qcells (ratings demo))) /\
  (forall j, index_of demo (up (lit "b")) <> Some j ->
     Ratings.cells (ratings r') !! j = Ratings.cells (ratings demo) !! j /\ cell r' j = cell demo j).
Proof. exact (record_error_effect (up (lit "b")) down_error 5 demo (demo_with_wf _ _)). Defined.

(** Both upstreams quarantined at time 3; both are due a minute later, and only
    the check of "b" gets capacity; it fails. *)
Definition demo_dead : t F64t :=
  (quarantine_now (up (lit "b")) 3 (quarantine_now (up (lit "a")) 3 demo).2).2.
Definition demo_done : list (ProxyConfig * CheckResult * Z) :=
  [(up (lit "b"), Err (lit "refused"), from_secs 61)].

Lemma probe_due_outcomes_witness :
  let r1 := (take_probes (from_secs 60) demo_dead).2 in
  let '(events, r2) := drain_due demo_done r1 in
  Forall2 (event_of r1) demo_done events /\ wf r2 /\
  (forall d i c, d ∈ demo_done -> index_of r1 d.1.1 = Some i -> cell r1 i = Some c ->
     cell r2 i = Some (outcome_cell (qpolicy r1) c d)) /\
  (forall i, (forall d, d ∈ demo_done -> index_of r1 d.1.1 <> Some i) -> cell r2 i = cell r1 i).
Proof.
  cbn zeta.
  apply (probe_due_outcomes (fun p => bool_decide (host p = lit "b")) (from_secs 60) demo_dead
           (take_probes (from_secs 60) demo_dead).2 (take_probes (from_secs 60) demo_dead).1 demo_done).
  - apply rotator_quarantine_now_wf, rotator_quarantine_now_wf, demo_with_wf.
  - reflexivity.
  - apply surjective_pairing.
  - replace (spawn_checks _ _) with [up (lit "b")] by (by vm_compute). done.
  - repeat constructor. vm_compute. congruence.
Defined.

Lemma health_restore_roundtrip_witness :
  let '(n, r1) := restore_health (health demo_dead 9) 5 (demo_with (fun i => i.1.1.1.2) 2) in
  n = tripped_count (Ratings.qcells (ratings demo_dead)) /\
  health r1 5 = map kept (health demo_dead 9).
Proof.
  apply (health_restore_roundtrip demo_dead (demo_with (fun i => i.1.1.1.2) 2)).
  - apply rotator_quarantine_now_wf, rotator_quarantine_now_wf, demo_with_wf.
  - apply demo_with_wf.
  - reflexivity.
  - reflexivity.
  - reflexivity.
  - repeat constructor.
  - repeat constructor; vm_compute; congruence.
  - vm_compute. congruence.
Defined.

Example demo_events :
  (drain_due demo_done (take_probes (from_secs 60) demo_dead).2).1
  = [StillDown (up (lit "b")) (from_secs 60) (lit "refused")].
Proof. vm_compute. reflexivity. Qed.

End Rotator.
