(* ===== verification/ChainPlan.v ===== *)
(** * ChainPlan: lazy Cartesian plans for multi-hop chains

    Model of [session/chain/mod.rs].  The [Arc<ProxyRotator>] handles are indices
    into a store of rotators; a [HashSet<ChainKey>] is the list of its elements,
    membership being the source's key equality. *)
From S2P Require Import Prelude ProxyTypes Errors Floats Rating Quarantine Ratings Rotator.

Module ChainPlan.

(** ** Data *)

Inductive ChainStage := SConnect | SHop (n : nat) | STarget.

Record ChainError := mkChainError { stage : ChainStage; error : ConnectError }.

Record Hop := mkHop { rotator : nat; proxy : ProxyConfig }.
Record Candidate := mkCandidate { hop : Hop; key : ChainKey }.
Record Layer := mkLayer { candidates : list Candidate; live : nat; index : nat }.
Record ChainPick := mkChainPick { hops : list Hop; pick_key : ChainKey }.
Record Quarantined := mkQuarantined { q_proxy : ProxyConfig; q_length : Z }.
Record t := mk {
  layers : list Layer;
  seen : list ChainKey;
  dead : list ChainKey;
  done : bool
}.

(** [HashSet::contains]; [insert] of a key that is not there. *)
Definition mem (k : ChainKey) (s : list ChainKey) : bool := existsb (key_eqb k) s.
Definition set_insert (k : ChainKey) (s : list ChainKey) : list ChainKey :=
  if mem k s then s else k :: s.

Definition singleton_key (p : ProxyConfig) : ChainKey := mkChainKey (set_gate None p).

(** The filter over (rotator, proxy) pairs, with the keys seen so far. *)
Fixpoint deduplicate (keys : list ChainKey) (cs : list (nat * ProxyConfig)) : list Candidate :=
  match cs with
  | [] => []
  | (r, p) :: cs' =>
      let k := singleton_key p in
      if mem k keys then deduplicate keys cs'
      else mkCandidate (mkHop r p) k :: deduplicate (k :: keys) cs'
  end.

(** ** Gate levels *)

(** [sort_by_key(Reverse(rank))]: a stable sort. *)
Fixpoint insert_desc (x : Z * nat) (l : list (Z * nat)) : list (Z * nat) :=
  match l with
  | [] => [x]
  | y :: l' => if y.1 <? x.1 then x :: l else y :: insert_desc x l'
  end.
Definition GateLevels_new (levels : list (Z * nat)) : list (Z * nat) :=
  foldl (fun acc x => insert_desc x acc) [] levels.

Section Ops.
  Context {F : Type} `{Float F}.

Local Abbreviation Store := (list (Rotator.t F)).

(** A call on the rotator a handle stands for. *)
Definition with_rotator {A} (rs : Store) (i : nat) (dflt : A)
    (f : Rotator.t F -> A * Rotator.t F) : A * Store :=
  match rs !! i with
  | None => (dflt, rs)
  | Some r => let '(a, r') := f r in (a, <[i := r']> rs)
  end.

Definition all_proxies (rs : Store) (i : nat) : list ProxyConfig :=
  match rs !! i with Some r => Rotator.proxies r | None => [] end.

(** ** Construction *)

Definition layer_of (cs : list Candidate) : Layer := mkLayer cs (length cs) 0.

(** [clock k] is the [k]-th reading of the clock by a [pick_order]. *)
Fixpoint pick_orders (clock : nat -> Z) (k : nat) (ids : list nat) (rs : Store)
    : list (list (nat * ProxyConfig)) * Store :=
  match ids with
  | [] => ([], rs)
  | i :: ids' =>
      let '(order, rs1) := with_rotator rs i [] (Rotator.pick_order (clock k)) in
      let '(rest, rs2) := pick_orders clock (S k) ids' rs1 in
      (map (fun p => (i, p)) order :: rest, rs2)
  end.

Definition plan_of (gate_orders : list (list (nat * ProxyConfig)))
    (exit_orders : list (list (nat * ProxyConfig))) : t :=
  let layers := map (fun o => layer_of (deduplicate [] o)) gate_orders
                ++ [layer_of (deduplicate [] (concat exit_orders))] in
  mk layers [] [] (existsb (fun l => bool_decide (candidates l = [])) layers).

Definition new (gates : list (Z * nat)) (exits : list nat) (clock : nat -> Z) (rs : Store)
    : t * Store :=
  let '(gate_orders, rs1) := pick_orders clock 0 (map snd gates) rs in
  let '(exit_orders, rs2) := pick_orders clock (length gates) exits rs1 in
  (plan_of gate_orders exit_orders, rs2).

(** ** Traversal *)

Definition set_index (l : Layer) (i : nat) : Layer := mkLayer (candidates l) (live l) i.
Definition reset (l : Layer) : Layer := set_index l 0.

(** The candidate each layer's index points at. *)
Definition current (ls : list Layer) : list Candidate :=
  omap (fun l => candidates l !! index l) ls.

Definition pick_of (cs : list Candidate) : option ChainPick :=
  (fun c => mkChainPick (map hop cs) (mkChainKey c)) <$> chain (map (fun c => proxy (hop c)) cs).

Definition current_pick (p : t) : option ChainPick := pick_of (current (layers p)).

(** The reversed loop of [advance]: [true] when every layer wrapped. *)
Fixpoint bump (ls : list Layer) : list Layer * bool :=
  match ls with
  | [] => ([], true)
  | l :: ls' =>
      let '(ls1, carry) := bump ls' in
      if carry : bool then
        if (S (index l) <? length (candidates l))%nat
        then (set_index l (S (index l)) :: ls1, false)
        else (reset l :: ls1, true)
      else (l :: ls1, false)
  end.

Definition advance (p : t) : t :=
  let '(ls, carry) := bump (layers p) in mk ls (seen p) (dead p) (done p || carry).

Definition jump_subtree (k : nat) (p : t) : t :=
  let '(pre, carry) := bump (take (S k) (layers p)) in
  mk (pre ++ map reset (drop (S k) (layers p))) (seen p) (dead p) (done p || carry).

(** [position] of the first layer whose current candidate is dead. *)
Fixpoint dead_layer (dead : list ChainKey) (i : nat) (ls : list Layer) : option nat :=
  match ls with
  | [] => None
  | l :: ls' =>
      match candidates l !! index l with
      | Some c => if mem (key c) dead then Some i else dead_layer dead (S i) ls'
      | None => dead_layer dead (S i) ls'
      end
  end.

(** The loop; the outer [None] is running out of fuel. *)
Fixpoint next_loop (fuel : nat) (p : t) : option (option ChainPick * t) :=
  match fuel with
  | O => None
  | S fuel' =>
      if done p then Some (None, p)
      else
        match dead_layer (dead p) 0 (layers p) with
        | Some k => next_loop fuel' (jump_subtree k p)
        | None =>
            match current_pick p with
            | None => None
            | Some pick =>
                let p' := advance p in
                if negb (mem (pick_key pick) (seen p')) then Some (Some pick, p')
                else next_loop fuel' p'
            end
        end
  end.

(** One more iteration than there are combinations. *)
Definition next_fuel (p : t) : nat :=
  S (foldr (fun l n => length (candidates l) * n)%nat 1%nat (layers p)).
Definition next_pick (p : t) : option ChainPick * t :=
  match next_loop (next_fuel p) p with Some r => r | None => (None, p) end.

(** ** Exclusions *)

Definition mark_layer (k : ChainKey) (l : Layer) : Layer * bool :=
  if existsb (fun c => key_eqb (key c) k) (candidates l) then
    (mkLayer (candidates l) (live l - 1) (index l), (live l - 1 =? 0)%nat)
  else (l, false).

Definition mark_dead (px : ProxyConfig) (p : t) : t :=
  let k := singleton_key px in
  if mem k (dead p) then p
  else
    let marked := map (mark_layer k) (layers p) in
    mk (map fst marked) (seen p) (k :: dead p) (done p || existsb snd marked).

Definition exclude (k : ChainKey) (p : t) : t :=
  mk (layers p) (set_insert k (seen p)) (dead p) (done p).

(** ** Attribution *)

Definition hard (h : Hop) (err : ConnectError) (now : Z) (rs : Store)
    : list Quarantined * Store :=
  let '(tripped, rs') := with_rotator rs (rotator h) None (Rotator.record_error (proxy h) err now) in
  (match tripped with Some len => [mkQuarantined (proxy h) len] | None => [] end, rs').

Definition soft (h : Hop) (now : Z) (rs : Store) : Store :=
  (with_rotator rs (rotator h) tt (fun r => (tt, Rotator.record_failure (proxy h) now r))).2.

(** [clock k] is the reading made for the [k]-th recorded hop. *)
Fixpoint soft_all (clock : nat -> Z) (k : nat) (hs : list Hop) (rs : Store) : Store :=
  match hs with
  | [] => rs
  | h :: hs' => soft_all clock (S k) hs' (soft h (clock k) rs)
  end.

(** The hop a hard failure is blamed on, if any. *)
Definition blamed (pick : ChainPick) (st : ChainStage) (err : ConnectError) : option Hop :=
  match st with
  | SConnect => head (hops pick)
  | SHop i => if (S i <? length (hops pick))%nat && is_upstream_down err then hops pick !! i else None
  | STarget => last (hops pick)
  end.

(** The hops softly penalised otherwise. *)
Definition softened (pick : ChainPick) (st : ChainStage) (err : ConnectError) : list Hop :=
  match st with
  | SConnect | STarget => []
  | SHop i =>
      if (S i <? length (hops pick))%nat then
        if is_upstream_down err then [] else take 2 (drop i (hops pick))
      else hops pick
  end.

Definition record_failure (pick : ChainPick) (err : ChainError) (clock : nat -> Z) (p : t)
    (rs : Store) : list Quarantined * t * Store :=
  if negb (counts_against_upstream (error err)) then ([], p, rs)
  else
    match blamed pick (stage err) (error err) with
    | Some h =>
        let '(q, rs') := hard h (error err) (clock 0%nat) rs in (q, mark_dead (proxy h) p, rs')
    | None => ([], p, soft_all clock 0 (softened pick (stage err) (error err)) rs)
    end.

Fixpoint record_success (clock : nat -> Z) (k : nat) (hs : list Hop) (rs : Store) : Store :=
  match hs with
  | [] => rs
  | h :: hs' =>
      record_success clock (S k) hs'
        (with_rotator rs (rotator h) tt
           (fun r => (tt, Rotator.record_success (proxy h) (clock k) r))).2
  end.

(** ** Resolution of a stored chain *)

Fixpoint resolve_gates (rs : Store) (levels : list (Z * nat)) (ns : list ProxyConfig)
    : option (list Hop) :=
  match levels, ns with
  | (rank, r) :: levels', n :: ns' =>
      if negb (gate_level n =? rank) then None
      else
        match List.find (fun c => same_node c n) (all_proxies rs r) with
        | None => None
        | Some p => cons (mkHop r p) <$> resolve_gates rs levels' ns'
        end
  | _, _ => Some []
  end.

Fixpoint resolve_exit (rs : Store) (exits : list nat) (n : ProxyConfig) : option Hop :=
  match exits with
  | [] => None
  | r :: exits' =>
      match List.find (fun c => same_node c n) (all_proxies rs r) with
      | Some p => Some (mkHop r p)
      | None => resolve_exit rs exits' n
      end
  end.

Definition resolve (rs : Store) (levels : list (Z * nat)) (exits : list nat) (c : ProxyConfig)
    : option ChainPick :=
  let ns := nodes c in
  if negb (length ns =? length levels + 1)%nat then None
  else
    hs ← resolve_gates rs levels ns;
    exit_node ← last ns;
    x ← resolve_exit rs exits exit_node;
    let hs := hs ++ [x] in
    cfg ← chain (map proxy hs);
    Some (mkChainPick hs (mkChainKey cfg)).

End Ops.

(** ** The abstract plan: the list of combinations still to offer *)

(** Every combination of the layers, the last layer fastest. *)
Fixpoint product (ls : list Layer) : list (list Candidate) :=
  match ls with
  | [] => [[]]
  | l :: ls' => flat_map (fun c => map (cons c) (product ls')) (candidates l)
  end.

(** The combinations from the current indices on. *)
Fixpoint rest (ls : list Layer) : list (list Candidate) :=
  match ls with
  | [] => [[]]
  | l :: ls' =>
      match drop (index l) (candidates l) with
      | [] => []
      | c :: cs => map (cons c) (rest ls') ++ flat_map (fun c' => map (cons c') (product ls')) cs
      end
  end.

Definition admissible (seen dead : list ChainKey) (cs : list Candidate) : bool :=
  forallb (fun c => negb (mem (key c) dead)) cs &&
  match pick_of cs with Some pick => negb (mem (pick_key pick) seen) | None => false end.

(** What is left to offer, in order. *)
Definition viable (p : t) : list (list Candidate) :=
  if done p then [] else List.filter (admissible (seen p) (dead p)) (rest (layers p)).

Definition valid (ls : list Layer) : Prop :=
  Forall (fun l => index l < length (candidates l))%nat ls.

Lemma product_reset ls : product (map reset ls) = product ls.
Proof. induction ls as [|l ls IH]; [done|]. cbn. by rewrite IH. Qed.

Lemma rest_reset ls : rest (map reset ls) = product ls.
Proof.
  induction ls as [|l ls IH]; [done|]. cbn. rewrite drop_0, IH, product_reset.
  by destruct (candidates l).
Qed.

Lemma valid_reset ls : valid ls -> valid (map reset ls).
Proof.
  unfold valid. rewrite Forall_map. intros Hv. eapply Forall_impl; [exact Hv|]. cbn. lia.
Qed.

Lemma drop_current l : (index l < length (candidates l))%nat ->
  exists c, candidates l !! index l = Some c /\
    drop (index l) (candidates l) = c :: drop (S (index l)) (candidates l).
Proof.
  intros [c Hc]%lookup_lt_is_Some_2. exists c. split; [done|]. by apply drop_S.
Qed.

(** One step of the odometer. *)
Definition step_layer (l : Layer) (r : list Layer * bool) : list Layer * bool :=
  let '(ls1, carry) := r in
  if carry : bool then
    if (S (index l) <? length (candidates l))%nat
    then (set_index l (S (index l)) :: ls1, false)
    else (reset l :: ls1, true)
  else (l :: ls1, false).

(** The relation between layers before and after moving past [skipped]. *)
Definition moved (ls : list Layer) (skipped : list (list Candidate)) (r : list Layer * bool) : Prop :=
  let '(ls', carry) := r in
  valid ls' /\ map candidates ls' = map candidates ls /\ map live ls' = map live ls /\
  rest ls = skipped ++ (if carry then [] else rest ls') /\
  (carry = true -> ls' = map reset ls).

Lemma step_layer_moved l ls skipped r c :
  (index l < length (candidates l))%nat -> candidates l !! index l = Some c ->
  moved ls skipped r -> moved (l :: ls) (map (cons c) skipped) (step_layer l r).
Proof.
  intros Hl Hc. destruct r as [ls1 carry]. intros (Hv & Hcand & Hlive & Hrest & Hcarry).
  destruct (drop_current l Hl) as (c' & Hc' & Hd). assert (c' = c) as -> by congruence.
  assert (Hprod : product ls1 = product ls).
  { clear -Hcand. revert ls Hcand. induction ls1 as [|x ls1 IH]; intros [|y ls] E; try done.
    injection E as E1 E2. cbn. by rewrite (IH ls), E1. }
  unfold step_layer. destruct carry.
  - specialize (Hcarry eq_refl). rewrite app_nil_r in Hrest.
    destruct (S (index l) <? length (candidates l))%nat eqn:E.
    + apply Nat.ltb_lt in E. cbn. split; [by constructor|]. split; [by rewrite Hcand|].
      split; [by rewrite Hlive|]. split; [|done]. rewrite Hd, Hrest.
      f_equal. cbn [set_index index candidates]. rewrite Hcarry, rest_reset, product_reset.
      destruct (drop (S (index l)) (candidates l)) as [|c2 cs2]; done.
    + apply Nat.ltb_ge in E. cbn. split; [constructor; [cbn; lia|done]|]. split; [by rewrite Hcand|].
      split; [by rewrite Hlive|]. rewrite Hd, (drop_ge _ (S (index l))) by lia.
      cbn. rewrite Hrest, ?app_nil_r. split; [done|]. intros _. by rewrite Hcarry.
  - cbn. split; [by constructor|]. split; [by rewrite Hcand|]. split; [by rewrite Hlive|].
    split; [|done]. rewrite Hd, Hrest, Hprod, map_app, app_assoc. done.
Qed.

Lemma bump_cons l ls : bump (l :: ls) = step_layer l (bump ls).
Proof. cbn. by destruct (bump ls) as [ls1 []]. Qed.

Lemma bump_moved ls : valid ls -> moved ls [current ls] (bump ls).
Proof.
  induction ls as [|l ls IH]; intros Hv.
  { by repeat split. }
  apply Forall_cons in Hv as [Hl Hv]. destruct (drop_current l Hl) as (c & Hc & _).
  rewrite bump_cons. pose proof (step_layer_moved l ls _ _ c Hl Hc (IH Hv)) as Hm.
  cbn in Hm |- *. by rewrite Hc.
Qed.

Definition jump_layers (k : nat) (ls : list Layer) : list Layer * bool :=
  let '(pre, carry) := bump (take (S k) ls) in (pre ++ map reset (drop (S k) ls), carry).

Lemma jump_layers_cons k l ls : jump_layers (S k) (l :: ls) = step_layer l (jump_layers k ls).
Proof.
  unfold jump_layers. change (take (S (S k)) (l :: ls)) with (l :: take (S k) ls).
  rewrite bump_cons. change (drop (S (S k)) (l :: ls)) with (drop (S k) ls).
  destruct (bump (take (S k) ls)) as [pre carry]. unfold step_layer.
  destruct carry; [|done]. by destruct (_ <? _)%nat.
Qed.

Lemma jump_moved k : forall ls l c,
  valid ls -> ls !! k = Some l -> candidates l !! index l = Some c ->
  exists skipped, skipped <> [] /\ Forall (fun cs => c ∈ cs) skipped /\
    moved ls skipped (jump_layers k ls).
Proof.
  induction k as [|k IH]; intros [|l0 ls] l c Hv Hk Hc; try done;
    apply Forall_cons in Hv as [Hl Hv]; cbn in Hk.
  - simplify_eq. exists (map (cons c) (rest ls)). split; [|split].
    + intros E%map_eq_nil. clear -E Hv. induction ls as [|l ls IH]; [done|].
      apply Forall_cons in Hv as [Hl Hv]. cbn in E. destruct (drop_current l Hl) as (c & _ & Hd).
      rewrite Hd in E. apply app_nil in E as [E _]. apply map_eq_nil in E. auto.
    + apply Forall_map, Forall_true. intros cs. by left.
    + assert (Hj : jump_layers 0 (l :: ls) = step_layer l (map reset ls, true)).
      { unfold jump_layers. cbn [take bump drop]. rewrite drop_0. unfold step_layer. by destruct (S (index l) <? length (candidates l))%nat. }
      rewrite Hj. apply (step_layer_moved l ls (rest ls)); [done|done|].
      split; [by apply valid_reset|]. rewrite app_nil_r, !map_map. cbn.
      split; [done|]. split; [done|]. done.
  - destruct (IH ls l c Hv Hk Hc) as (skipped & Hne & Hin & Hm).
    destruct (drop_current l0 Hl) as (c0 & Hc0 & _). exists (map (cons c0) skipped). split; [|split].
    + by intros ?%map_eq_nil.
    + apply Forall_map. eapply Forall_impl; [exact Hin|]. intros cs Hcs. by right.
    + rewrite jump_layers_cons. by apply step_layer_moved.
Qed.

(** ** The traversal pops the abstract list *)

Definition cid (c : Candidate) := ident (proxy (hop c)).
Definition alive (dead : list ChainKey) (cs : list Candidate) : nat :=
  length (List.filter (fun c => negb (mem (key c) dead)) cs).

Definition layer_ok (dead : list ChainKey) (l : Layer) : Prop :=
  NoDup (map cid (candidates l)) /\
  Forall (fun c => key c = singleton_key (proxy (hop c))) (candidates l) /\
  live l = alive dead (candidates l).

Definition wf (p : t) : Prop :=
  layers p <> [] /\ Forall (layer_ok (dead p)) (layers p) /\
  (done p = false -> valid (layers p)).

Lemma layers_ok_ext dead ls ls' :
  map candidates ls' = map candidates ls -> map live ls' = map live ls ->
  Forall (layer_ok dead) ls -> Forall (layer_ok dead) ls'.
Proof.
  revert ls. induction ls' as [|x ls' IH]; intros [|y ls] Hc Hl Hok; try done.
  injection Hc as Hc1 Hc2. injection Hl as Hl1 Hl2. apply Forall_cons in Hok as [Hy Hok].
  constructor; [|by apply (IH ls)]. unfold layer_ok in *. by rewrite Hc1, Hl1.
Qed.

Lemma map_nonempty_ext (ls ls' : list Layer) :
  map candidates ls' = map candidates ls -> ls <> [] -> ls' <> [].
Proof. by destruct ls, ls'. Qed.

Lemma dead_layer_spec dd ls : forall i,
  valid ls ->
  match dead_layer dd i ls with
  | Some k => exists l c, (i <= k)%nat /\ ls !! (k - i)%nat = Some l /\
                candidates l !! index l = Some c /\ mem (key c) dd = true
  | None => forallb (fun c => negb (mem (key c) dd)) (current ls) = true
  end.
Proof.
  induction ls as [|l ls IH]; intros i Hv; [done|]. apply Forall_cons in Hv as [Hl Hv].
  destruct (drop_current l Hl) as (c & Hc & _). cbn [dead_layer]. rewrite Hc.
  destruct (mem (key c) dd) eqn:Em.
  - exists l, c. split; [lia|]. by rewrite Nat.sub_diag.
  - specialize (IH (S i) Hv). destruct (dead_layer dd (S i) ls) as [k|].
    + destruct IH as (l' & c' & Hk & Hl' & Hrest). exists l', c'. split; [lia|].
      replace (k - i)%nat with (S (k - S i)) by lia. done.
    + cbn. rewrite Hc. cbn. by rewrite Em.
Qed.

Lemma current_nonempty ls : valid ls -> ls <> [] -> current ls <> [].
Proof.
  destruct ls as [|l ls]; [done|]. intros [Hl _]%Forall_cons _.
  destruct (drop_current l Hl) as (c & Hc & _). cbn. by rewrite Hc.
Qed.

Lemma pick_of_Some cs : cs <> [] -> is_Some (pick_of cs).
Proof.
  intros Hne. unfold pick_of. destruct (chain_Some (map (fun c => proxy (hop c)) cs)) as [c ->].
  - by destruct cs.
  - by eexists.
Qed.

Lemma filter_all_false {A} (f : A -> bool) l : Forall (fun x => f x = false) l -> List.filter f l = [].
Proof. induction 1 as [|x l Hx _ IH]; [done|]. cbn. by rewrite Hx. Qed.

Lemma inadmissible_dead sn dd cs c : c ∈ cs -> mem (key c) dd = true -> admissible sn dd cs = false.
Proof.
  intros Hc Hd. unfold admissible. replace (forallb _ cs) with false; [done|]. symmetry.
  apply not_true_iff_false. rewrite forallb_forall. intros Hall.
  apply list_elem_of_In in Hc. specialize (Hall c Hc). by rewrite Hd in Hall.
Qed.

(** The contract of one call. *)
Definition popped (p : t) (res : option ChainPick) (p' : t) : Prop :=
  wf p' /\ seen p' = seen p /\ dead p' = dead p /\
  match viable p with
  | [] => res = None /\ viable p' = []
  | cs :: tl => res = pick_of cs /\ is_Some res /\ viable p' = tl
  end.

Lemma popped_trans p p1 res p' :
  viable p = viable p1 -> seen p1 = seen p -> dead p1 = dead p -> popped p1 res p' -> popped p res p'.
Proof. unfold popped. intros -> <- <-. done. Qed.

Lemma next_loop_popped fuel : forall p,
  wf p -> (0 < fuel)%nat -> (done p = false -> (length (rest (layers p)) < fuel)%nat) ->
  exists res p', next_loop fuel p = Some (res, p') /\ popped p res p'.
Proof.
  induction fuel as [|fuel IH]; intros p Hw Hpos Hfuel; [lia|]. cbn [next_loop].
  destruct (done p) eqn:Ed.
  { exists None, p. split; [done|]. split; [done|]. unfold viable. by rewrite Ed. }
  destruct Hw as (Hne & Hok & Hv). specialize (Hv Ed). specialize (Hfuel eq_refl).
  pose proof (dead_layer_spec (dead p) (layers p) 0 Hv) as Hd.
  destruct (dead_layer (dead p) 0 (layers p)) as [k|].
  - destruct Hd as (l & c & _ & Hl & Hc & Hm). rewrite Nat.sub_0_r in Hl.
    destruct (jump_moved k (layers p) l c Hv Hl Hc) as (skipped & Hsne & Hin & Hmv).
    unfold jump_subtree. unfold jump_layers in Hmv.
    destruct (bump (take (S k) (layers p))) as [pre carry].
    destruct Hmv as (Hv' & Hcand & Hlive & Hrest & _). rewrite Ed. cbn [orb].
    set (p1 := mk _ _ _ carry).
    assert (Hw1 : wf p1).
    { split; [by apply (map_nonempty_ext (layers p))|]. split; [by apply (layers_ok_ext _ (layers p))|done]. }
    assert (Hvi : viable p = viable p1).
    { unfold viable. rewrite Ed, Hrest, List.filter_app, filter_all_false.
      2: { eapply Forall_impl; [exact Hin|]. intros cs Hcs. by eapply inadmissible_dead. }
      cbn. by destruct carry. }
    assert (Hlen : (0 < length skipped)%nat) by (destruct skipped; [done|cbn; lia]).
    rewrite Hrest, length_app in Hfuel.
    destruct (IH p1 Hw1) as (res & p' & Hres & Hpop); [lia| |].
    { intros Ecarry. cbn in Ecarry. subst carry. cbn in *. lia. }
    exists res, p'. split; [done|]. by apply (popped_trans p p1).
  - pose proof (current_nonempty _ Hv Hne) as Hcne. destruct (pick_of_Some _ Hcne) as [pick Hpick].
    unfold current_pick. rewrite Hpick. pose proof (bump_moved _ Hv) as Hmv.
    unfold advance. destruct (bump (layers p)) as [ls carry].
    destruct Hmv as (Hv' & Hcand & Hlive & Hrest & _). rewrite Ed. cbn [orb seen].
    set (p1 := mk _ _ _ carry).
    assert (Hw1 : wf p1).
    { split; [by apply (map_nonempty_ext (layers p))|]. split; [by apply (layers_ok_ext _ (layers p))|done]. }
    assert (Hvi : viable p = (if negb (mem (pick_key pick) (seen p)) then [current (layers p)] else [])
                             ++ viable p1).
    { unfold viable. rewrite Ed, Hrest. cbn [app List.filter]. unfold admissible at 1.
      rewrite Hd, Hpick. cbn [andb]. destruct (negb _); cbn; by destruct carry. }
    destruct (negb (mem (pick_key pick) (seen p))).
    + exists (Some pick), p1. split; [done|]. split; [done|]. split; [done|]. split; [done|].
      rewrite Hvi. cbn. rewrite Hpick. split; [done|]. split; [by eexists|done].
    + rewrite Hrest in Hfuel. cbn [app length] in Hfuel. destruct (IH p1 Hw1) as (res & p' & Hres & Hpop); [lia| |].
      { intros Ecarry. cbn in Ecarry. subst carry. cbn in *. lia. }
      exists res, p'. split; [done|]. by apply (popped_trans p p1).
Qed.

Lemma product_length ls :
  length (product ls) = foldr (fun l n => length (candidates l) * n)%nat 1%nat ls.
Proof.
  induction ls as [|l ls IH]; [done|]. cbn. rewrite <- IH.
  induction (candidates l) as [|c cs IHc]; [done|]. cbn. by rewrite length_app, length_map, IHc.
Qed.

Lemma rest_length ls : (length (rest ls) <= length (product ls))%nat.
Proof.
  induction ls as [|l ls IH]; [done|]. cbn.
  assert (Hgen : forall cs i, (length match drop i cs with
            | [] => []
            | c :: cs' => map (cons c) (rest ls) ++ flat_map (fun c' => map (cons c') (product ls)) cs'
            end <= length (flat_map (fun c => map (cons c) (product ls)) cs))%nat).
  { induction cs as [|c cs IHc]; intros [|i]; cbn; try lia.
    - rewrite !length_app, !length_map. lia.
    - rewrite length_app. specialize (IHc i). lia. }
  apply Hgen.
Qed.

Lemma next_pick_popped p : wf p -> popped p (next_pick p).1 (next_pick p).2.
Proof.
  intros Hw. unfold next_pick.
  destruct (next_loop_popped (next_fuel p) p Hw) as (res & p' & -> & Hp).
  - unfold next_fuel. lia.
  - intros _. unfold next_fuel. pose proof (rest_length (layers p)). rewrite product_length in *. lia.
  - done.
Qed.

(** ** Exclusions filter the abstract list *)

Definition avoids (px : ProxyConfig) (cs : list Candidate) : bool :=
  forallb (fun c => negb (key_eqb (key c) (singleton_key px))) cs.
Definition is_not (k : ChainKey) (cs : list Candidate) : bool :=
  match pick_of cs with Some pick => negb (key_eqb (pick_key pick) k) | None => true end.

Lemma key_eqb_sym a b : key_eqb a b = key_eqb b a.
Proof. apply eq_true_iff_eq. rewrite !key_eqb_spec. done. Qed.

Lemma singleton_eqb a b : key_eqb (singleton_key a) (singleton_key b) = bool_decide (ident a = ident b).
Proof.
  apply eq_true_iff_eq. rewrite key_eqb_spec, bool_decide_eq_true.
  change (map ident (nodes (exit (singleton_key a)))) with [ident a].
  change (map ident (nodes (exit (singleton_key b)))) with [ident b].
  split; [intros H; by apply (f_equal (fun l => default (ident a) (head l))) in H | by intros ->].
Qed.

Lemma mem_equiv a b s : key_eqb a b = true -> mem a s = mem b s.
Proof.
  intros E. unfold mem. induction s as [|k s IH]; [done|]. cbn. rewrite IH. f_equal.
  by apply key_eqb_proper.
Qed.

Lemma mem_cons a k s : mem a (k :: s) = key_eqb a k || mem a s.
Proof. done. Qed.

Lemma alive_mark dd px cs :
  NoDup (map cid cs) -> Forall (fun c => key c = singleton_key (proxy (hop c))) cs ->
  mem (singleton_key px) dd = false ->
  (alive (singleton_key px :: dd) cs +
   (if existsb (fun c => key_eqb (key c) (singleton_key px)) cs then 1 else 0))%nat = alive dd cs.
Proof.
  intros Hnd Hk Hm. induction cs as [|c cs IH]; [done|].
  apply NoDup_cons in Hnd as [Hc Hnd]. apply Forall_cons in Hk as [Hkc Hk].
  specialize (IH Hnd Hk). unfold alive in *. cbn [List.filter existsb]. rewrite mem_cons.
  destruct (key_eqb (key c) (singleton_key px)) eqn:E; cbn [orb negb].
  - rewrite (mem_equiv _ _ dd E), Hm. cbn [negb length].
    destruct (existsb _ cs) eqn:Ex; [|lia]. exfalso. apply existsb_exists in Ex as (c' & Hin & Hc').
    rewrite Hkc, singleton_eqb, bool_decide_eq_true in E. apply list_elem_of_In in Hin.
    rewrite Forall_forall in Hk. rewrite (Hk c' Hin), singleton_eqb, bool_decide_eq_true in Hc'.
    apply Hc. apply list_elem_of_fmap. exists c'. split; [unfold cid; congruence|done].
  - destruct (negb (mem (key c) dd)); cbn [length]; lia.
Qed.

Lemma product_elem ls cs : cs ∈ product ls -> Forall2 (fun c l => c ∈ candidates l) cs ls.
Proof.
  revert cs. induction ls as [|l ls IH]; intros cs; cbn.
  - intros ->%list_elem_of_singleton. constructor.
  - intros (c & Hc & (tl & <- & Htl)%in_map_iff)%list_elem_of_In%in_flat_map.
    constructor; [by apply list_elem_of_In|]. by apply IH, list_elem_of_In.
Qed.

Lemma rest_product ls cs : cs ∈ rest ls -> cs ∈ product ls.
Proof.
  revert cs. induction ls as [|l ls IH]; intros cs; cbn; [done|].
  destruct (drop (index l) (candidates l)) as [|c tl] eqn:Ed; [by intros ?%not_elem_of_nil|].
  assert (Hsub : forall x, x ∈ c :: tl -> x ∈ candidates l).
  { intros x Hx. rewrite <- Ed in Hx. rewrite <- (take_drop (index l)). apply elem_of_app. by right. }
  rewrite !list_elem_of_In, in_flat_map. intros [(x & <- & Hx)%in_map_iff|(c' & Hc' & Hin)%in_flat_map]%in_app_or.
  - exists c. split; [apply list_elem_of_In, Hsub; by left|]. apply in_map, list_elem_of_In, IH.
    by apply list_elem_of_In.
  - exists c'. split; [|done]. apply list_elem_of_In, Hsub. right. by apply list_elem_of_In.
Qed.

Lemma alive_zero dd cs c : alive dd cs = 0%nat -> c ∈ cs -> mem (key c) dd = true.
Proof.
  unfold alive. intros H0 Hc. destruct (mem (key c) dd) eqn:E; [done|]. exfalso.
  assert (Hin : In c (List.filter (fun c => negb (mem (key c) dd)) cs)).
  { apply filter_In. split; [by apply list_elem_of_In|]. by rewrite E. }
  by destruct (List.filter _ cs).
Qed.

Lemma filter_filter {A} (f g : A -> bool) l :
  List.filter f (List.filter g l) = List.filter (fun x => g x && f x) l.
Proof. induction l as [|x l IH]; [done|]. cbn. destruct (g x); cbn; by rewrite IH. Qed.

Lemma filter_ext_elem {A} (f g : A -> bool) l :
  (forall x, x ∈ l -> f x = g x) -> List.filter f l = List.filter g l.
Proof.
  induction l as [|x l IH]; intros H; [done|]. cbn. rewrite (H x) by (by left).
  rewrite IH; [done|]. intros y Hy. apply H. by right.
Qed.

Lemma filter_andb {A} (f g h : A -> bool) (b : bool) l :
  (forall x, h x = f x && g x) -> List.filter g (List.filter f l) = List.filter h l.
Proof. intros H. rewrite filter_filter. apply filter_ext_elem. intros x _. by rewrite H. Qed.

Lemma admissible_mark sn k dd cs :
  admissible sn (k :: dd) cs = admissible sn dd cs && forallb (fun c => negb (key_eqb (key c) k)) cs.
Proof.
  unfold admissible. rewrite <- andb_assoc, (andb_comm _ (forallb (fun c => negb (key_eqb _ k)) cs)), andb_assoc.
  f_equal. induction cs as [|c cs IH]; [done|]. cbn [forallb]. rewrite IH, mem_cons, negb_orb. destruct (key_eqb (key c) k), (mem (key c) dd); cbn; try done.
  by rewrite andb_false_r.
Qed.

Lemma rest_same_moves ls ls' :
  map candidates ls' = map candidates ls -> map index ls' = map index ls -> rest ls' = rest ls.
Proof.
  revert ls. induction ls' as [|x ls' IH]; intros [|y ls] Hc Hi; try done.
  injection Hc as Hc1 Hc2. injection Hi as Hi1 Hi2. cbn. rewrite Hc1, Hi1, (IH ls) by done.
  assert (Hp : product ls' = product ls).
  { clear -Hc2. revert ls Hc2. induction ls' as [|x ls' IH]; intros [|y ls] E; try done.
    injection E as E1 E2. cbn. by rewrite (IH ls), E1. }
  by rewrite Hp.
Qed.

Lemma mark_layer_same k l : candidates (mark_layer k l).1 = candidates l /\ index (mark_layer k l).1 = index l.
Proof. unfold mark_layer. by destruct (existsb _ _). Qed.

Lemma mark_dead_wf px p : wf p -> wf (mark_dead px p).
Proof.
  intros (Hne & Hok & Hv). unfold mark_dead. destruct (mem (singleton_key px) (dead p)) eqn:Em; [done|].
  split; [by destruct (layers p)|]. cbn [layers dead done]. split.
  - rewrite !Forall_map. eapply Forall_impl; [exact Hok|]. intros l (Hnd & Hk & Hl).
    pose proof (alive_mark (dead p) px (candidates l) Hnd Hk Em) as Ha. unfold mark_layer.
    destruct (existsb _ (candidates l)); (split; [done|split; [done|]]); cbn [fst live candidates]; lia.
  - intros [Hd _]%orb_false_iff. specialize (Hv Hd). unfold valid. rewrite !Forall_map.
    eapply Forall_impl; [exact Hv|]. intros l Hl. by destruct (mark_layer_same (singleton_key px) l) as [-> ->].
Qed.

Lemma mark_dead_viable px p : wf p -> viable (mark_dead px p) = List.filter (avoids px) (viable p).
Proof.
  intros (Hne & Hok & Hv). unfold mark_dead. destruct (mem (singleton_key px) (dead p)) eqn:Em.
  { unfold viable. destruct (done p); [done|]. rewrite filter_filter. apply filter_ext_elem.
    intros cs _. unfold admissible at 1 2. destruct (forallb _ cs) eqn:Ef; [|done]. cbn [andb].
    destruct (match pick_of cs with Some _ => _ | None => _ end); [|done]. cbn. symmetry.
    unfold avoids. rewrite forallb_forall in Ef |- *. intros c Hc. specialize (Ef c Hc).
    destruct (key_eqb (key c) _) eqn:E; [|done]. by rewrite (mem_equiv _ _ _ E), Em in Ef. }
  unfold viable. cbn [done layers seen dead].
  assert (Hrest : rest (map fst (map (mark_layer (singleton_key px)) (layers p))) = rest (layers p)).
  { apply rest_same_moves; rewrite !map_map; apply map_ext; intros l; apply mark_layer_same. }
  destruct (done p); [done|]. cbn [orb]. rewrite Hrest.
  assert (Hf : List.filter (avoids px) (List.filter (admissible (seen p) (dead p)) (rest (layers p)))
               = List.filter (admissible (seen p) (singleton_key px :: dead p)) (rest (layers p))).
  { rewrite filter_filter. apply filter_ext_elem. intros cs _. by rewrite admissible_mark. }
  rewrite Hf. destruct (existsb snd _) eqn:Ex; [|done]. symmetry. apply filter_all_false.
  apply existsb_exists in Ex as (x & (l & <- & Hl)%in_map_iff & Hx).
  apply list_elem_of_In in Hl. rewrite Forall_forall in Hok. destruct (Hok l Hl) as (Hnd & Hk & Hlive).
  assert (Hz : alive (singleton_key px :: dead p) (candidates l) = 0%nat).
  { pose proof (alive_mark (dead p) px (candidates l) Hnd Hk Em) as Ha. unfold mark_layer in Hx.
    destruct (existsb _ (candidates l)); [|done]. cbn in Hx. apply Nat.eqb_eq in Hx. lia. }
  apply Forall_forall. intros cs Hcs%rest_product%product_elem.
  apply list_elem_of_lookup in Hl as [i Hi]. destruct (Forall2_lookup_r _ _ _ _ _ Hcs Hi) as (c & Hc & Hin).
  apply (inadmissible_dead _ _ _ c); [apply list_elem_of_lookup; eauto|by apply (alive_zero _ (candidates l))].
Qed.

Lemma exclude_wf k p : wf p -> wf (exclude k p).
Proof. done. Qed.

Lemma exclude_viable k p : viable (exclude k p) = List.filter (is_not k) (viable p).
Proof.
  unfold viable, exclude. cbn. destruct (done p); [done|]. rewrite filter_filter.
  apply filter_ext_elem. intros cs _. unfold admissible, is_not. rewrite <- andb_assoc. f_equal.
  destruct (pick_of cs) as [pick|]; [|done]. unfold set_insert. destruct (mem k (seen p)) eqn:Em.
  - destruct (key_eqb (pick_key pick) k) eqn:E; [|by rewrite andb_true_r].
    by rewrite (mem_equiv _ _ _ E), Em.
  - cbn. by rewrite negb_orb, andb_comm.
Qed.

(** ** Refinement *)

Inductive Op :=
| ONext
| OMarkDead (px : ProxyConfig)
| OExclude (k : ChainKey).

Definition run (o : Op) (p : t) : option ChainPick * t :=
  match o with
  | ONext => next_pick p
  | OMarkDead px => (None, mark_dead px p)
  | OExclude k => (None, exclude k p)
  end.

(** The specification: a list of combinations, popped and filtered. *)
Definition spec_run (o : Op) (l : list (list Candidate)) : option ChainPick * list (list Candidate) :=
  match o with
  | ONext => match l with [] => (None, []) | cs :: tl => (pick_of cs, tl) end
  | OMarkDead px => (None, List.filter (avoids px) l)
  | OExclude k => (None, List.filter (is_not k) l)
  end.

Fixpoint run_all {S} (f : Op -> S -> option ChainPick * S) (ops : list Op) (s : S)
    : list (option ChainPick) :=
  match ops with
  | [] => []
  | o :: ops' => let '(r, s') := f o s in r :: run_all f ops' s'
  end.

Lemma run_refines o p :
  wf p -> (run o p).1 = (spec_run o (viable p)).1 /\ wf (run o p).2 /\
  viable (run o p).2 = (spec_run o (viable p)).2.
Proof.
  intros Hw. destruct o as [|px|k]; cbn [run spec_run fst snd].
  - destruct (next_pick_popped p Hw) as (Hw' & _ & _ & Hp). destruct (viable p) as [|cs tl].
    + by destruct Hp as [-> ->].
    + by destruct Hp as (-> & _ & ->).
  - split; [done|]. split; [by apply mark_dead_wf | by apply mark_dead_viable].
  - split; [done|]. split; [by apply exclude_wf | by apply exclude_viable].
Qed.

Lemma run_all_refines ops : forall p, wf p -> run_all run ops p = run_all spec_run ops (viable p).
Proof.
  induction ops as [|o ops IH]; intros p Hw; [done|]. cbn [run_all].
  destruct (run_refines o p Hw) as (Hr & Hw' & Hv).
  destruct (run o p) as [r p']. destruct (spec_run o (viable p)) as [r' l]. cbn [fst snd] in *.
  subst r' l. f_equal. by apply IH.
Qed.

Lemma deduplicate_spec keys cs :
  Forall (fun c => key c = singleton_key (proxy (hop c)) /\ mem (key c) keys = false)
    (deduplicate keys cs) /\
  NoDup (map cid (deduplicate keys cs)).
Proof.
  revert keys. induction cs as [|[r p] cs IH]; intros keys; [by split; constructor|]. cbn [deduplicate].
  destruct (mem (singleton_key p) keys) eqn:E; [apply IH|].
  destruct (IH (singleton_key p :: keys)) as [Hk Hnd]. split.
  - constructor; [by split|]. eapply Forall_impl; [exact Hk|]. intros c [Hc Hm]. split; [done|].
    rewrite mem_cons in Hm. by apply orb_false_iff in Hm as [_ ?].
  - cbn [map]. constructor; [|done]. intros (c & Hc & Hin)%list_elem_of_fmap.
    rewrite Forall_forall in Hk. destruct (Hk c Hin) as [Hkc Hm]. rewrite mem_cons, Hkc, singleton_eqb in Hm.
    unfold cid in Hc. cbn in Hc. rewrite bool_decide_eq_true_2 in Hm; [done|]. done.
Qed.

Lemma alive_none cs : alive [] cs = length cs.
Proof. induction cs as [|c cs IH]; [done|]. exact (f_equal S IH). Qed.

Lemma layer_of_ok cs : layer_ok [] (layer_of (deduplicate [] cs)).
Proof.
  destruct (deduplicate_spec [] cs) as [Hk Hnd]. split; [done|]. split; [|by rewrite alive_none].
  eapply Forall_impl; [exact Hk|]. by intros c [? _].
Qed.

Lemma plan_of_wf gs es : wf (plan_of gs es).
Proof.
  unfold plan_of. set (ls := map _ gs ++ _). split; [by destruct (map (fun o => layer_of (deduplicate [] o)) gs)|].
  cbn [layers dead done]. split.
  - apply Forall_app. split; [|repeat constructor; apply layer_of_ok].
    apply Forall_map, Forall_true. intros o. apply layer_of_ok.
  - intros Hd. unfold valid.
    assert (Hi : Forall (fun l => index l = 0%nat) ls).
    { apply Forall_app. split; [|by repeat constructor]. by apply Forall_map, Forall_true. }
    rewrite Forall_forall in Hi |- *. intros l Hl. rewrite (Hi l Hl).
    destruct (candidates l) as [|c cs] eqn:E; [|cbn; lia]. exfalso.
    apply not_true_iff_false in Hd. apply Hd, existsb_exists. exists l.
    split; [by apply list_elem_of_In|]. by apply bool_decide_eq_true.
Qed.

Lemma product_nil ls l : l ∈ ls -> candidates l = [] -> product ls = [].
Proof.
  intros Hl Hc. destruct (product ls) as [|cs tl] eqn:E; [done|]. exfalso.
  assert (Hin : cs ∈ product ls) by (rewrite E; by left). apply product_elem in Hin.
  apply list_elem_of_lookup in Hl as [i Hi]. destruct (Forall2_lookup_r _ _ _ _ _ Hin Hi) as (c & _ & H).
  rewrite Hc in H. by apply not_elem_of_nil in H.
Qed.

Lemma filter_all_true {A} (f : A -> bool) l : Forall (fun x => f x = true) l -> List.filter f l = l.
Proof. induction 1 as [|x l Hx _ IH]; [done|]. cbn. by rewrite Hx, IH. Qed.

Lemma plan_of_viable gs es : viable (plan_of gs es) = product (layers (plan_of gs es)).
Proof.
  pose proof (plan_of_wf gs es) as (Hne & _ & _). unfold viable.
  destruct (done (plan_of gs es)) eqn:Ed.
  - unfold plan_of in Ed. cbn [done] in Ed. apply existsb_exists in Ed as (l & Hl & Hc%bool_decide_eq_true).
    symmetry. apply (product_nil _ l); [by apply list_elem_of_In|done].
  - assert (Hr : layers (plan_of gs es) = map reset (layers (plan_of gs es))).
    { unfold plan_of. cbn [layers]. rewrite map_app, map_map. done. }
    rewrite Hr at 1. rewrite rest_reset.
    apply filter_all_true, Forall_forall. intros cs Hcs%product_elem. unfold admissible.
    replace (forallb _ cs) with true by (symmetry; apply forallb_forall; intros ? _; reflexivity). cbn [andb].
    destruct (pick_of_Some cs) as [pick ->]; [|done].
    intros ->. apply Forall2_nil_inv_l in Hcs. congruence.
Qed.

(** The combinations are pairwise different chains. *)
Lemma product_NoDup ls :
  Forall (fun l => NoDup (map cid (candidates l))) ls -> NoDup (map (map cid) (product ls)).
Proof.
  induction 1 as [|l ls Hl _ IH]; [apply NoDup_singleton|]. cbn [product].
  induction (candidates l) as [|c cs IHc]; [constructor|]. apply NoDup_cons in Hl as [Hc Hl].
  cbn [flat_map]. rewrite map_app. apply NoDup_app. split; [|split; [|by apply IHc]].
  - replace (map (map cid) (map (cons c) (product ls)))
      with (map (cons (cid c)) (map (map cid) (product ls))) by (by rewrite !map_map).
    apply (NoDup_fmap_2 (cons (cid c))). exact IH.
  - intros x Hx Hin. apply list_elem_of_fmap in Hx as (y & -> & Hy), Hin as (z & Hz & Hzin).
    apply list_elem_of_In, in_map_iff in Hy as (y' & <- & _).
    apply list_elem_of_In, in_flat_map in Hzin as (c' & Hc' & (z' & <- & _)%in_map_iff).
    apply Hc, list_elem_of_fmap. exists c'. split; [|by apply list_elem_of_In].
    apply (f_equal head) in Hz. by apply (inj Some) in Hz.
Qed.

(** C23: a chain plan offers exactly the combinations of one candidate per layer,
    each once, in lexicographic order (exits fastest), whatever is marked dead or
    excluded between the calls: every sequence of calls returns what the list of
    all combinations returns when [next] pops its head, [mark_dead] drops the
    combinations containing the node and [exclude] those with the key.  The loop
    of [next] always terminates within [next_fuel] iterations. *)
Theorem chain_plan_refines gs es ops :
  let p := plan_of gs es in
  run_all run ops p = run_all spec_run ops (product (layers p)) /\
  NoDup (map (map cid) (product (layers p))) /\
  (forall cs, cs ∈ product (layers p) -> is_Some (pick_of cs)).
Proof.
  cbn zeta. pose proof (plan_of_wf gs es) as Hw. split; [|split].
  - rewrite <- plan_of_viable. by apply run_all_refines.
  - apply product_NoDup. destruct Hw as (_ & Hok & _). eapply Forall_impl; [exact Hok|].
    by intros l (? & _).
  - intros cs Hcs%product_elem. apply pick_of_Some. intros ->. destruct Hw as (Hne & _).
    apply Forall2_nil_inv_l in Hcs. congruence.
Qed.

(** [next] on any consistent plan: the loop ends within [next_fuel] passes, the
    head of what is left comes out, nothing else is lost, and the bookkeeping (live
    counts that never underflow, indices in range) is kept by every operation. *)
Lemma next_loop_total p o :
  wf p ->
  is_Some (next_loop (next_fuel p) p) /\ wf (run o p).2 /\
  viable (run o p).2 = (spec_run o (viable p)).2.
Proof.
  intros Hw. split; [|split].
  - destruct (next_loop_popped (next_fuel p) p Hw) as (res & p' & E & _).
    + unfold next_fuel. lia.
    + intros _. unfold next_fuel. pose proof (rest_length (layers p)). rewrite product_length in *. lia.
    + rewrite E. by eexists.
  - by apply run_refines.
  - by apply run_refines.
Qed.

(** ** Attribution *)

Section Attribution.
  Context {F : Type} `{FloatLaws F}.
  Implicit Types rs : list (Rotator.t F).

Lemma with_rotator_other {A} rs i j (d : A) f : i <> j -> (with_rotator rs i d f).2 !! j = rs !! j.
Proof.
  intros Hne. unfold with_rotator. destruct (rs !! i) as [r|]; [|done].
  destruct (f r) as [a r']. cbn. by rewrite list_lookup_insert_ne.
Qed.

(** The quarantine bookkeeping of every rotator of the store. *)
Definition quarantines rs : list (list Quarantine.Cell) :=
  map (fun r => Ratings.qcells (Rotator.ratings r)) rs.

Lemma record_failure_qcells p now (r : Rotator.t F) :
  Ratings.qcells (Rotator.ratings (Rotator.record_failure p now r)) =
  Ratings.qcells (Rotator.ratings r).
Proof.
  unfold Rotator.record_failure. destruct (Rotator.index_of r p); [|done]. cbn.
  apply Rotator.on_failure_qcells.
Qed.

Lemma soft_quarantines h now rs : quarantines (soft h now rs) = quarantines rs.
Proof.
  unfold soft, with_rotator, quarantines. destruct (rs !! rotator h) as [r|] eqn:E; [|done]. cbn.
  apply list_eq. intros i. rewrite !list_lookup_fmap. destruct (decide (rotator h = i)) as [<-|Hne].
  - rewrite list_lookup_insert_eq by (by apply lookup_lt_Some in E). rewrite E. cbn.
    by rewrite record_failure_qcells.
  - by rewrite list_lookup_insert_ne.
Qed.

Lemma soft_all_spec clock hs : forall k rs,
  quarantines (soft_all clock k hs rs) = quarantines rs /\
  forall j, (forall h, h ∈ hs -> rotator h <> j) -> soft_all clock k hs rs !! j = rs !! j.
Proof.
  induction hs as [|h hs IH]; intros k rs; [done|]. cbn [soft_all].
  destruct (IH (S k) (soft h (clock k) rs)) as [-> Hj]. split; [apply soft_quarantines|].
  intros j Hn. rewrite Hj by (intros h' Hh'; apply Hn; by right).
  unfold soft. apply with_rotator_other, Hn. by left.
Qed.

(** What is to be made of a failure, by where in the chain it happened: nothing, when it is
    an error of this side; the typed error for one hop; a soft penalty for some. *)
Inductive Verdict := Ours | Hard (h : Hop) | Soft (hs : list Hop).

Definition our_error (e : ConnectError) : Prop := exists x, e = AtCapacityError x.

Inductive fault : list Hop -> ChainStage -> ConnectError -> Verdict -> Prop :=
| fault_ours hs st e : our_error e -> fault hs st e Ours
| fault_entry entry rest e : ~ our_error e -> fault (entry :: rest) SConnect e (Hard entry)
| fault_tunnel before gate next after e : is_upstream_down e = true ->
    fault (before ++ gate :: next :: after) (SHop (length before)) e (Hard gate)
| fault_between before gate next after e : ~ our_error e -> is_upstream_down e = false ->
    fault (before ++ gate :: next :: after) (SHop (length before)) e (Soft [gate; next])
| fault_exit before exit e : ~ our_error e -> fault (before ++ [exit]) STarget e (Hard exit)
| fault_beyond hs i e : ~ our_error e -> (length hs <= S i)%nat -> fault hs (SHop i) e (Soft hs).

(** What the typed error does to the rotator of its hop, *)
Definition charged (h : Hop) (e : ConnectError) (now : Z) (r : Rotator.t F) : option Z * Rotator.t F :=
  if is_upstream_down e then Rotator.record_hard_failure (proxy h) now r
  else (None, Rotator.record_failure (proxy h) now r).
(** and the soft penalties of these hops to the rotator [j]. *)
Fixpoint penalised (clock : nat -> Z) (j k : nat) (hs : list Hop) (r : Rotator.t F) : Rotator.t F :=
  match hs with
  | [] => r
  | h :: hs => penalised clock j (S k) hs
                 (if (rotator h =? j)%nat then Rotator.record_failure (proxy h) (clock k) r else r)
  end.

Lemma ours_counts e : counts_against_upstream e = false <-> our_error e.
Proof. split; [by destruct e; try done; eexists | by intros [x ->]]. Qed.
Lemma not_ours_counts e : ~ our_error e -> counts_against_upstream e = true.
Proof. intros Hn. apply not_false_iff_true. by rewrite ours_counts. Qed.

(** [record_failure] is the verdict's, *)
Lemma fault_records hs k st e v clock p rs : fault hs st e v ->
  record_failure (mkChainPick hs k) (mkChainError st e) clock p rs =
  match v with
  | Ours => ([], p, rs)
  | Hard h => let '(q, rs') := hard h e (clock 0%nat) rs in (q, mark_dead (proxy h) p, rs')
  | Soft hs => ([], p, soft_all clock 0 hs rs)
  end.
Proof.
  unfold record_failure. cbn [error stage].
  intros [hs0 st0 e0 He|entry rest e0 He|bef gate nxt aft e0 He|bef gate nxt aft e0 He Hd|bef exit e0 He|hs0 i e0 He Hl].
  - by rewrite (proj2 (ours_counts e0)).
  - by rewrite not_ours_counts.
  - rewrite (down_counts e0) by done. unfold blamed. cbn [negb hops].
    rewrite (proj2 (Nat.ltb_lt _ _)) by (rewrite length_app; cbn; lia). rewrite He. cbn [andb].
    by rewrite list_lookup_middle.
  - rewrite not_ours_counts by done. unfold blamed, softened. cbn [negb hops].
    rewrite (proj2 (Nat.ltb_lt _ _)) by (rewrite length_app; cbn; lia). rewrite Hd. cbn [andb].
    by rewrite drop_app_length.
  - rewrite not_ours_counts by done. unfold blamed. cbn [negb hops]. by rewrite last_snoc.
  - rewrite not_ours_counts by done. unfold blamed, softened. cbn [negb hops].
    by rewrite (proj2 (Nat.ltb_ge _ _)).
Qed.

(** and every failure of a chain has one. *)
Lemma fault_exists hs st e : hs <> [] -> exists v, fault hs st e v.
Proof.
  intros Hne. destruct (counts_against_upstream e) eqn:Ec; [|exists Ours; by apply fault_ours, ours_counts].
  assert (He : ~ our_error e) by (rewrite <- ours_counts; by rewrite Ec).
  destruct st as [|i|].
  - destruct hs as [|h hs]; [done|]. exists (Hard h). by apply fault_entry.
  - destruct (le_lt_dec (length hs) (S i)) as [Hl|Hl]; [exists (Soft hs); by apply fault_beyond|].
    destruct (lookup_lt_is_Some_2 hs i) as [a Ha]; [lia|]. destruct (lookup_lt_is_Some_2 hs (S i)) as [b Hb]; [done|].
    rewrite <- (take_drop_middle hs i a Ha), (drop_S hs b (S i) Hb).
    assert (Hi : length (take i hs) = i) by (rewrite length_take; lia).
    destruct (is_upstream_down e) eqn:Ed; [exists (Hard a) | exists (Soft [a; b])]; rewrite <- Hi at 3;
      [by apply fault_tunnel | by apply fault_between].
  - destruct hs as [|h hs _] using rev_ind; [done|]. exists (Hard h). by apply fault_exit.
Qed.

Lemma hard_spec h e now rs : counts_against_upstream e = true ->
  (forall j, (hard h e now rs).2 !! j = if decide (rotator h = j) then snd ∘ charged h e now <$> rs !! j else rs !! j) /\
  (hard h e now rs).1 =
    match (rs !! rotator h) ≫= (fun r => (charged h e now r).1) with
    | Some len => [mkQuarantined (proxy h) len] | None => [] end.
Proof.
  intros Hc. assert (He : forall r, Rotator.record_error (proxy h) e now r = charged h e now r).
  { intros r. unfold Rotator.record_error, charged. by rewrite Hc. }
  unfold hard, with_rotator. destruct (rs !! rotator h) as [r|] eqn:E; cbn.
  - rewrite He. destruct (charged h e now r) as [q r'] eqn:Er. cbn. split; [|done]. intros j. case_decide as Hj.
    + subst j. rewrite list_lookup_insert_eq by (by apply lookup_lt_Some in E). rewrite E. cbn. by rewrite Er.
    + by rewrite list_lookup_insert_ne.
  - split; [|done]. intros j. case_decide as Hj; [|done]. subst j. by rewrite E.
Qed.

Lemma soft_all_penalised clock hs : forall k rs j,
  soft_all clock k hs rs !! j = penalised clock j k hs <$> rs !! j.
Proof.
  induction hs as [|h hs IH]; intros k rs j; cbn [soft_all penalised]; [by destruct (rs !! j)|].
  rewrite IH. unfold soft, with_rotator. destruct (Nat.eqb_spec (rotator h) j) as [<-|Hne].
  - destruct (rs !! rotator h) as [r|] eqn:E; cbn; [|by rewrite E].
    rewrite list_lookup_insert_eq by (by apply lookup_lt_Some in E). done.
  - destruct (rs !! rotator h) as [r|] eqn:E; cbn; [|done]. by rewrite list_lookup_insert_ne.
Qed.

(** C24: Failures are charged to the node at fault. Every failure of a chain has a verdict,
    and what is recorded is that verdict's. An error of this side (a capacity refusal)
    changes nothing. A failed connect is the outermost node's, a tunnel that a dead node
    broke is that node's, a failure at the target is the exit's: that hop's rotator, and no
    other, gets the typed error (hard when the upstream is down, soft otherwise), a
    quarantine it trips is the one reported, and every combination with that node leaves
    the plan. A tunnel refused between two live nodes is a soft penalty for these two, a
    failure beyond the chain one for every hop: the rotators get exactly these, no
    quarantine changes, and nothing leaves the plan. *)
Theorem record_failure_attribution hs k st e clock p rs :
  wf p -> hs <> [] ->
  let '(qs, p', rs') := record_failure (mkChainPick hs k) (mkChainError st e) clock p rs in
  wf p' /\ (exists v, fault hs st e v) /\
  forall v, fault hs st e v ->
    match v with
    | Ours => qs = [] /\ p' = p /\ rs' = rs
    | Hard h =>
        (forall j, rs' !! j = if decide (rotator h = j) then snd ∘ charged h e (clock 0%nat) <$> rs !! j else rs !! j) /\
        qs = match (rs !! rotator h) ≫= (fun r => (charged h e (clock 0%nat) r).1) with
             | Some len => [mkQuarantined (proxy h) len] | None => [] end /\
        viable p' = List.filter (avoids (proxy h)) (viable p)
    | Soft hs' =>
        (forall j, rs' !! j = penalised clock j 0 hs' <$> rs !! j) /\
        quarantines rs' = quarantines rs /\ qs = [] /\ p' = p
    end.
Proof.
  intros Hw Hne. destruct (record_failure _ _ clock p rs) as [[qs p'] rs'] eqn:Er.
  assert (Hv : forall v, fault hs st e v -> wf p' /\ match v with
    | Ours => qs = [] /\ p' = p /\ rs' = rs
    | Hard h =>
        (forall j, rs' !! j = if decide (rotator h = j) then snd ∘ charged h e (clock 0%nat) <$> rs !! j else rs !! j) /\
        qs = match (rs !! rotator h) ≫= (fun r => (charged h e (clock 0%nat) r).1) with
             | Some len => [mkQuarantined (proxy h) len] | None => [] end /\
        viable p' = List.filter (avoids (proxy h)) (viable p)
    | Soft hs' =>
        (forall j, rs' !! j = penalised clock j 0 hs' <$> rs !! j) /\
        quarantines rs' = quarantines rs /\ qs = [] /\ p' = p
    end).
  { intros v Hf. rewrite (fault_records _ k _ _ _ clock p rs Hf) in Er. destruct v as [|h|hs'].
    - injection Er as <- <- <-. by split_and!.
    - assert (Hc : counts_against_upstream e = true) by (inversion Hf; subst; eauto using not_ours_counts, down_counts).
      destruct (hard_spec h e (clock 0%nat) rs Hc) as [H1 H2]. destruct (hard h e (clock 0%nat) rs) as [q rs1].
      injection Er as <- <- <-. split; [by apply mark_dead_wf|]. split; [done|]. split; [done|]. by apply mark_dead_viable.
    - injection Er as <- <- <-. split; [done|]. split; [apply soft_all_penalised|].
      split; [|done]. by destruct (soft_all_spec clock hs' 0 rs). }
  destruct (fault_exists hs st e Hne) as [v Hf]. split; [by apply (Hv v)|]. split; [by exists v|].
  intros v' Hf'. by apply (Hv v').
Qed.

(** ** Resolution *)

Lemma find_same rs r n p :
  List.find (fun c => same_node c n) (all_proxies rs r) = Some p ->
  p ∈ all_proxies rs r /\ ident p = ident n.
Proof. intros [Hin Hs]%find_some. by rewrite list_elem_of_In, <- same_node_spec. Qed.

Lemma find_none_same rs r n :
  List.find (fun c => same_node c n) (all_proxies rs r) = None ->
  ~ exists u, u ∈ all_proxies rs r /\ ident u = ident n.
Proof.
  intros Hf (u & Hu & Hid). apply list_elem_of_In in Hu.
  pose proof (find_none _ _ Hf u Hu) as Hn. cbn in Hn. apply not_true_iff_false in Hn.
  apply Hn. by apply same_node_spec.
Qed.

(** Node [n] is configured in rotator [r]. *)
Definition configured rs (r : nat) (n : ProxyConfig) : Prop :=
  exists u, u ∈ all_proxies rs r /\ ident u = ident n.
Definition gate_matches rs (n : ProxyConfig) (l : Z * nat) : Prop :=
  gate_level n = l.1 /\ configured rs l.2 n.
(** A hop standing for node [n]. *)
Definition hop_for rs (h : Hop) (n : ProxyConfig) : Prop :=
  ident (proxy h) = ident n /\ proxy h ∈ all_proxies rs (rotator h).

Lemma resolve_gates_spec rs levels : forall ns,
  (length levels <= length ns)%nat ->
  match resolve_gates rs levels ns with
  | Some hs => Forall2 (hop_for rs) hs (take (length levels) ns) /\
               map rotator hs = map snd levels /\
               Forall2 (gate_matches rs) (take (length levels) ns) levels
  | None => ~ Forall2 (gate_matches rs) (take (length levels) ns) levels
  end.
Proof.
  induction levels as [|[rank r] levels IH]; intros [|n ns] Hlen; cbn in Hlen; try lia.
  - split; [constructor|]. split; [done|constructor].
  - split; [constructor|]. split; [done|constructor].
  - cbn [resolve_gates length take]. destruct (gate_level n =? rank) eqn:Er; cbn [negb].
    2: { zify_bools. intros [[Hg _] _]%Forall2_cons. done. }
    destruct (List.find _ (all_proxies rs r)) as [p|] eqn:Ef.
    2: { intros [[_ Hc] _]%Forall2_cons. by apply find_none_same in Ef. }
    apply find_same in Ef as [Hin Hid]. specialize (IH ns ltac:(lia)). zify_bools.
    destruct (resolve_gates rs levels ns) as [hs|]; cbn.
    + destruct IH as (Hh & Hr & Hg). split; [by constructor|]. split; [by rewrite Hr|].
      constructor; [|done]. split; [done|]. by exists p.
    + intros [_ Hg]%Forall2_cons. done.
Qed.

Lemma resolve_exit_spec rs exits n :
  match resolve_exit rs exits n with
  | Some h => hop_for rs h n /\ rotator h ∈ exits
  | None => ~ exists r, r ∈ exits /\ configured rs r n
  end.
Proof.
  induction exits as [|r exits IH]; cbn; [by intros (r & ?%not_elem_of_nil & _)|].
  destruct (List.find _ (all_proxies rs r)) as [p|] eqn:Ef.
  - apply find_same in Ef as [Hin Hid]. split; [done|]. by left.
  - apply find_none_same in Ef. destruct (resolve_exit rs exits n) as [h|].
    + destruct IH as [Hh Hr]. split; [done|]. by right.
    + intros (r' & [->|Hr]%elem_of_cons & Hc); [by apply Ef|]. apply IH. eauto.
Qed.

(** A stored chain is resolved exactly when every gate node carries its
    level's rank and is configured in its rotator and the exit is configured in
    some exit rotator; the pick then has the same nodes and the same key. *)
Theorem resolve_exact rs levels exits c :
  match resolve rs levels exits c with
  | Some pick =>
      Forall2 (hop_for rs) (hops pick) (nodes c) /\
      key_eqb (pick_key pick) (mkChainKey c) = true /\
      take (length levels) (map rotator (hops pick)) = map snd levels
  | None =>
      ~ (length (nodes c) = length levels + 1 /\
         Forall2 (gate_matches rs) (take (length levels) (nodes c)) levels /\
         exists x r, last (nodes c) = Some x /\ r ∈ exits /\ configured rs r x)%nat
  end.
Proof.
  unfold resolve, mbind, option_bind. destruct (_ =? _)%nat eqn:El; cbn [negb].
  2: { apply Nat.eqb_neq in El. by intros [? _]. }
  apply Nat.eqb_eq in El. pose proof (resolve_gates_spec rs levels (nodes c) ltac:(lia)) as Hg.
  destruct (resolve_gates rs levels (nodes c)) as [hs|]; [|by intros (_ & ? & _)].
  destruct Hg as (Hhs & Hrot & Hgm).
  destruct (last (nodes c)) as [x|] eqn:Ex; [|by intros (_ & _ & ? & ? & ? & _)].
  pose proof (resolve_exit_spec rs exits x) as He.
  destruct (resolve_exit rs exits x) as [h|].
  2: { intros (_ & _ & x' & r & [= <-] & Hr & Hc). apply He. eauto. }
  destruct He as [Hh Hr].
  assert (Hnodes : nodes c = take (length levels) (nodes c) ++ [x]).
  { rewrite last_lookup, El in Ex. replace (pred (length levels + 1)) with (length levels) in Ex by lia.
    rewrite <- (take_S_r _ _ _ Ex). symmetry. apply take_ge. lia. }
  assert (Hall : Forall2 (hop_for rs) (hs ++ [h]) (nodes c)).
  { rewrite Hnodes. apply Forall2_app; [done|]. by constructor. }
  destruct (chain (map proxy (hs ++ [h]))) as [cfg|] eqn:Ec.
  - cbn [hops pick_key]. split; [done|]. split.
    + apply key_eqb_spec. cbn [exit]. rewrite (nodes_of_chain_ident _ _ Ec).
      clear -Hall. induction Hall as [|h' n hs' ns [Hid _] _ IH]; [done|]. cbn. by rewrite Hid, IH.
    + rewrite map_app, Hrot, take_app_length' by (by rewrite length_map). done.
  - destruct (chain_Some (map proxy (hs ++ [h]))) as [cfg Hcfg]; [|congruence].
    rewrite map_app. by destruct (map proxy hs).
Qed.

End Attribution.

(** ** A concrete plan

    One gate level with two gates, two exits. *)
#[local] Existing Instance Ratings.demo_float.
#[local] Existing Instance Ratings.demo_laws.

Definition node_ (h : bytes) : ProxyConfig := ProxyTypes.new Socks5 h 1080.
Definition gate_ (h : bytes) : ProxyConfig := with_gate_level (node_ h) 1.
Definition demo : t :=
  plan_of [[(0%nat, gate_ (lit "g1")); (0%nat, gate_ (lit "g2"))]]
          [[(1%nat, node_ (lit "x")); (1%nat, node_ (lit "y")); (1%nat, node_ (lit "x"))]].

Definition hosts (r : option ChainPick) : list bytes :=
  match r with Some pick => map (fun h => host (proxy h)) (hops pick) | None => [] end.

(** The first gate dies after one pick; one exit is excluded under the other. *)
Example chain_demo_run :
  map hosts (run_all run [ONext; OMarkDead (gate_ (lit "g1")); ONext; ONext; ONext] demo) =
  [[lit "g1"; lit "x"]; []; [lit "g2"; lit "x"]; [lit "g2"; lit "y"]; []].
Proof. vm_compute. reflexivity. Qed.

Lemma chain_demo_wf : wf demo.
Proof. apply plan_of_wf. Qed.

Lemma next_loop_total_witness :
  is_Some (next_loop (next_fuel demo) demo) /\ wf (run ONext demo).2 /\
  viable (run ONext demo).2 = (spec_run ONext (viable demo)).2.
Proof. exact (next_loop_total demo ONext chain_demo_wf). Defined.

Definition demo_pick : ChainPick :=
  mkChainPick [mkHop 0 (gate_ (lit "g1")); mkHop 1 (node_ (lit "x"))]
    (mkChainKey (with_gate (node_ (lit "x")) (gate_ (lit "g1")))).
Definition demo_error : ChainError :=
  mkChainError SConnect (Timeout StageConnect TcpConnect (lit "g1:1080") (from_secs 1)).

Lemma record_failure_attribution_witness :
  let '(qs, p', rs') := record_failure demo_pick demo_error (fun _ => 5) demo [Rotator.demo] in
  rs' !! 0%nat = Some (Rotator.record_hard_failure (gate_ (lit "g1")) 5 Rotator.demo).2 /\
  viable p' = List.filter (avoids (gate_ (lit "g1"))) (viable demo).
Proof.
  pose proof (@record_failure_attribution _ Ratings.demo_float (hops demo_pick) (pick_key demo_pick) (stage demo_error)
    (error demo_error) (fun _ => 5) demo [Rotator.demo] chain_demo_wf) as H.
  destruct (record_failure demo_pick demo_error (fun _ => 5) demo [Rotator.demo]) as [[qs p'] rs'] eqn:E.
  change (mkChainPick (hops demo_pick) (pick_key demo_pick)) with demo_pick in H.
  change (mkChainError (stage demo_error) (error demo_error)) with demo_error in H.
  rewrite E in H. destruct H as (_ & _ & H); [discriminate|].
  destruct (H (Hard (mkHop 0 (gate_ (lit "g1"))))) as (H1 & _ & H3).
  - apply fault_entry. intros [x Hx]. discriminate Hx.
  - split; [exact (H1 0%nat) | exact H3].
Defined.

End ChainPlan.
