(* ===== verification/Tls.v ===== *)
(** * Tls: reassembly of the first handshake message

    Model of [connect/tls/tls_records.rs]: the lazy record walk, the first
    handshake message reassembled across records, and whether more bytes can
    change it. *)
From S2P Require Import Prelude.

Module Tls.

Definition HANDSHAKE : Z := 22.

(** ** Slices *)

(** [data.get(a..b)]. *)
Definition get_range (data : bytes) (a b : nat) : option bytes :=
  if (a <=? b)%nat && (b <=? length data)%nat then Some (take (b - a) (drop a data)) else None.

(** Big-endian integers of the first bytes of a slice known to be long enough. *)
Definition at_ (s : bytes) (i : nat) : Z := byte_val (nth i s (byte_of 0)).
Definition be_u16 (s : bytes) : Z := Z.lor (Z.shiftl (at_ s 0) 8) (at_ s 1).
Definition be_u24 (s : bytes) : Z :=
  Z.lor (Z.lor (Z.shiftl (at_ s 0) 16) (Z.shiftl (at_ s 1) 8)) (at_ s 2).

(** ** Records *)

Record TlsRecord := mkTlsRecord { content_type : Z; p_start : nat; p_end : nat }.

Definition payload (data : bytes) (r : TlsRecord) : bytes :=
  take (p_end r - p_start r) (drop (p_start r) data).

(** Each step consumes a five-byte header, so the data's length is enough fuel. *)
Fixpoint walk (fuel : nat) (data : bytes) (pos : nat) : list TlsRecord :=
  match fuel with
  | O => []
  | S fuel' =>
      match get_range data pos (pos + 5) with
      | None => []
      | Some header =>
          let len := Z.to_nat (be_u16 (drop 3 header)) in
          let payload_end := Nat.min (pos + 5 + len) (length data) in
          mkTlsRecord (at_ header 0) (pos + 5) payload_end :: walk fuel' data payload_end
      end
  end.
Definition walk_records (data : bytes) : list TlsRecord := walk (S (length data)) data 0.

(** ** The handshake prefix *)

Record HandshakePrefix := mkPrefix {
  len : nat;
  kind : option Z;
  complete : bool;
  extendable : bool
}.

Fixpoint prefix_loop (data : bytes) (rs : list TlsRecord) (header : bytes) (p : HandshakePrefix)
    (next_header : nat) : HandshakePrefix * nat :=
  match rs with
  | [] => (p, next_header)
  | r :: rs' =>
      if negb (content_type r =? HANDSHAKE)
      then (mkPrefix (len p) (kind p) (complete p) false, next_header)
      else
        let next_header := p_end r in
        let payload := payload data r in
        let n := Nat.min (length payload) (4 - length header) in
        let header := header ++ take n payload in
        let len := (len p + length payload)%nat in
        let kind := if bool_decide (header = []) then kind p else Some (at_ header 0) in
        if (length header =? 4)%nat then
          let declared := (4 + Z.to_nat (be_u24 (drop 1 header)))%nat in
          if (declared <=? len)%nat then (mkPrefix declared kind true (extendable p), next_header)
          else prefix_loop data rs' header (mkPrefix len kind (complete p) (extendable p)) next_header
        else prefix_loop data rs' header (mkPrefix len kind (complete p) (extendable p)) next_header
  end.

Definition handshake_prefix (data : bytes) : option HandshakePrefix :=
  match walk_records data with
  | [] => None
  | first :: rs =>
      if negb (content_type first =? HANDSHAKE) then None
      else
        let '(p, next_header) :=
          prefix_loop data (first :: rs) [] (mkPrefix 0 None false true) (p_end first) in
        Some (match data !! next_header with
              | Some k => if negb (byte_val k =? HANDSHAKE)
                          then mkPrefix (len p) (kind p) (complete p) false else p
              | None => p
              end)
  end.

(** ** The message *)

Fixpoint message_loop (data : bytes) (rs : list TlsRecord) (n : nat) (message : bytes) : bytes :=
  match rs with
  | [] => message
  | r :: rs' =>
      let k := Nat.min (p_end r - p_start r) (n - length message) in
      let message := message ++ take k (drop (p_start r) data) in
      if (length message =? n)%nat then message else message_loop data rs' n message
  end.

(** [None] is the panic of the [expect]. *)
Definition message_bytes (data : bytes) (n : nat) : option bytes :=
  match walk_records data with
  | [] => None
  | first :: rs =>
      if (n <=? p_end first - p_start first)%nat
      then Some (take n (drop (p_start first) data))
      else Some (message_loop data (first :: rs) n [])
  end.

Record AssembledHandshake := mkAssembled { message : bytes; a_complete : bool }.

Definition assemble_handshake_message (data : bytes) : option AssembledHandshake :=
  p ← handshake_prefix data;
  m ← message_bytes data (len p);
  Some (mkAssembled m (complete p)).

Definition handshake_message (data : bytes) : option bytes :=
  p ← handshake_prefix data; message_bytes data (len p).

Definition client_hello_is_complete (data : bytes) : bool :=
  match handshake_prefix data with
  | Some p => complete p && bool_decide (kind p = Some 1)
  | None => false
  end.

Definition client_hello_might_continue (data : bytes) : bool :=
  if match data !! 0%nat with Some k => negb (byte_val k =? HANDSHAKE) | None => false end
     || match data !! 1%nat with Some m => negb (byte_val m =? 3) | None => false end
  then false
  else
    match handshake_prefix data with
    | Some p =>
        match kind p with None => true | Some k => k =? 1 end
        && negb (complete p) && extendable p
    | None => (length data <? 5)%nat
    end.

(** ** The handshake byte stream

    The specification: a record stream read from its front, and the
    concatenated payloads of its leading handshake records. *)

Definition rec_len (s : bytes) : nat := Z.to_nat (be_u16 (drop 3 s)).

Fixpoint hs (fuel : nat) (s : bytes) : bytes :=
  match fuel with
  | O => []
  | S f =>
      if (5 <=? length s)%nat && (at_ s 0 =? HANDSHAKE)
      then take (rec_len s) (drop 5 s) ++ hs f (drop (5 + rec_len s) s)
      else []
  end.
Definition hs_stream (s : bytes) : bytes := hs (S (length s)) s.

(** The bytes present already contain something after the handshake records. *)
Fixpoint ended (fuel : nat) (s : bytes) : bool :=
  match fuel with
  | O => false
  | S f =>
      if (5 <=? length s)%nat then
        if at_ s 0 =? HANDSHAKE
        then (5 + rec_len s <=? length s)%nat && ended f (drop (5 + rec_len s) s)
        else true
      else match s with k :: _ => negb (byte_val k =? HANDSHAKE) | [] => false end
  end.

Definition declared (s : bytes) : nat := (4 + Z.to_nat (be_u24 (drop 1 (take 4 s))))%nat.
Definition msg_done (s : bytes) : bool := (4 <=? length s)%nat && (declared s <=? length s)%nat.
(** The first message of the stream, clipped to what is present. *)
Definition message_of (s : bytes) : bytes := if msg_done s then take (declared s) s else s.

Lemma at_app s x i : (i < length s)%nat -> at_ (s ++ x) i = at_ s i.
Proof. intros Hi. unfold at_. by rewrite app_nth1. Qed.

Lemma be_u16_app s x : (2 <= length s)%nat -> be_u16 (s ++ x) = be_u16 s.
Proof. intros Hl. unfold be_u16. by rewrite !at_app by lia. Qed.

Lemma rec_len_app s x : (5 <= length s)%nat -> rec_len (s ++ x) = rec_len s.
Proof.
  intros Hl. unfold rec_len. rewrite drop_app_le by lia.
  by rewrite be_u16_app by (rewrite length_drop; lia).
Qed.

Lemma hs_fuel f1 : forall f2 s, (length s < f1)%nat -> (length s < f2)%nat -> hs f1 s = hs f2 s.
Proof.
  induction f1 as [|f1 IH]; intros [|f2] s H1 H2; try lia. cbn [hs].
  destruct (5 <=? length s)%nat eqn:E; [|done]. apply Nat.leb_le in E.
  destruct (at_ s 0 =? HANDSHAKE); [|done]. cbn [andb]. f_equal. apply IH; rewrite length_drop; lia.
Qed.

Lemma hs_nil f : hs f [] = [].
Proof. by destruct f. Qed.

Lemma ended_fuel f1 : forall f2 s, (length s < f1)%nat -> (length s < f2)%nat -> ended f1 s = ended f2 s.
Proof.
  induction f1 as [|f1 IH]; intros [|f2] s H1 H2; try lia. cbn [ended].
  destruct (5 <=? length s)%nat eqn:E; [|done]. apply Nat.leb_le in E.
  destruct (at_ s 0 =? HANDSHAKE); [|done]. f_equal. apply IH; rewrite length_drop; lia.
Qed.

(** More bytes only extend the stream, and cannot once it has ended. *)
Lemma hs_app f : forall s x,
  (length (s ++ x) < f)%nat ->
  exists y, hs f (s ++ x) = hs f s ++ y /\ (ended f s = true -> y = []).
Proof.
  induction f as [|f IH]; intros s x Hf; [lia|]. cbn [hs ended].
  destruct (5 <=? length s)%nat eqn:E.
  - apply Nat.leb_le in E. rewrite length_app in *.
    rewrite (proj2 (Nat.leb_le 5 _)) by lia. rewrite at_app, rec_len_app by lia.
    destruct (at_ s 0 =? HANDSHAKE); cbn [andb]; [|by exists []].
    rewrite (drop_app_le s x 5) by lia.
    destruct (5 + rec_len s <=? length s)%nat eqn:El.
    + apply Nat.leb_le in El. rewrite (drop_app_le s x (5 + rec_len s)) by lia.
      destruct (IH (drop (5 + rec_len s) s) x) as (y & -> & Hy).
      { rewrite length_app, length_drop. lia. }
      exists y. rewrite take_app_le by (rewrite length_drop; lia). by rewrite app_assoc.
    + apply Nat.leb_gt in El. rewrite (drop_ge s (5 + rec_len s)) by lia. rewrite hs_nil, app_nil_r.
      rewrite (take_ge (drop 5 s)) by (rewrite length_drop; lia).
      rewrite take_app_ge by (rewrite length_drop; lia). rewrite <- app_assoc. eexists. by split.
  - apply Nat.leb_gt in E. destruct s as [|k s]; [by eexists|]. cbn [andb app].
    eexists. split; [done|]. intros Hk. change (at_ (k :: s ++ x) 0) with (byte_val k).
    rewrite negb_true_iff in Hk. by rewrite Hk, andb_false_r.
Qed.

Lemma hs_stream_app s x : exists y, hs_stream (s ++ x) = hs_stream s ++ y /\
  (ended (S (length s)) s = true -> y = []).
Proof.
  unfold hs_stream. destruct (hs_app (S (length (s ++ x))) s x ltac:(lia)) as (y & Hy & He).
  exists y. rewrite Hy. rewrite length_app in *. split.
  - f_equal. apply hs_fuel; lia.
  - intros Hx. apply He. rewrite <- Hx. apply ended_fuel; lia.
Qed.

Lemma declared_app s x : (4 <= length s)%nat -> declared (s ++ x) = declared s.
Proof. intros Hl. unfold declared. by rewrite take_app_le by lia. Qed.

Lemma msg_done_app s x : msg_done s = true -> msg_done (s ++ x) = true /\ message_of (s ++ x) = message_of s.
Proof.
  intros Hd. unfold message_of. rewrite Hd. unfold msg_done in *.
  apply andb_true_iff in Hd as [H4%Nat.leb_le Hd%Nat.leb_le].
  rewrite declared_app, length_app by lia.
  rewrite (proj2 (Nat.leb_le 4 (length s + length x))) by lia.
  rewrite (proj2 (Nat.leb_le (declared s) (length s + length x))) by lia.
  split; [done|]. cbn [andb]. by rewrite take_app_le by lia.
Qed.

(** ** The walk reads the stream *)

Lemma get_range_header data pos :
  (pos <= length data)%nat ->
  get_range data pos (pos + 5) =
  if (5 <=? length (drop pos data))%nat then Some (take 5 (drop pos data)) else None.
Proof.
  intros Hp. unfold get_range. rewrite length_drop.
  rewrite (proj2 (Nat.leb_le pos (pos + 5))) by lia. cbn [andb].
  replace (pos + 5 - pos)%nat with 5%nat by lia.
  destruct (pos + 5 <=? length data)%nat eqn:E1; destruct (5 <=? length data - pos)%nat eqn:E2;
    rewrite ?Nat.leb_le, ?Nat.leb_gt in *; done || lia.
Qed.

Lemma header_fields s :
  (5 <= length s)%nat -> at_ (take 5 s) 0 = at_ s 0 /\ Z.to_nat (be_u16 (drop 3 (take 5 s))) = rec_len s.
Proof.
  intros Hl. do 5 (destruct s as [|? s]; [cbn in Hl; lia|]). split; reflexivity.
Qed.

Lemma walk_S f data pos :
  (pos <= length data)%nat ->
  walk (S f) data pos =
  let s := drop pos data in
  if (5 <=? length s)%nat
  then mkTlsRecord (at_ s 0) (pos + 5) (Nat.min (pos + 5 + rec_len s) (length data))
       :: walk f data (Nat.min (pos + 5 + rec_len s) (length data))
  else [].
Proof.
  intros Hp. cbn [walk]. rewrite get_range_header by done. cbn zeta.
  destruct (5 <=? length (drop pos data))%nat eqn:E; [|done]. apply Nat.leb_le in E.
  destruct (header_fields _ E) as [-> ->]. done.
Qed.

Lemma payload_eq data pos n :
  payload data (mkTlsRecord n (pos + 5) (Nat.min (pos + 5 + rec_len (drop pos data)) (length data)))
  = take (rec_len (drop pos data)) (drop 5 (drop pos data)).
Proof.
  unfold payload. cbn. rewrite drop_drop. set (k := rec_len _).
  destruct (decide (pos + 5 + k <= length data)%nat).
  - f_equal. lia.
  - rewrite !take_ge; [done|rewrite length_drop; lia|rewrite length_drop; lia].
Qed.

Lemma next_drop data pos :
  drop (Nat.min (pos + 5 + rec_len (drop pos data)) (length data)) data
  = drop (5 + rec_len (drop pos data)) (drop pos data).
Proof.
  rewrite drop_drop. set (k := rec_len _). destruct (decide (pos + 5 + k <= length data)%nat).
  - f_equal. lia.
  - rewrite !drop_ge by lia. done.
Qed.

Definition first_kind (s : bytes) : option Z := match s with k :: _ => Some (byte_val k) | [] => None end.

Lemma take4_app (acc pl : bytes) :
  take 4 acc ++ take (Nat.min (length pl) (4 - length (take 4 acc))) pl = take 4 (acc ++ pl).
Proof.
  rewrite take_app, length_take. f_equal. destruct (decide (length pl <= 4 - length acc)%nat).
  - rewrite !take_ge by lia. done.
  - f_equal. lia.
Qed.

Lemma header_kind (s : bytes) k0 :
  (s = [] -> k0 = None) ->
  (if bool_decide (take 4 s = []) then k0 else Some (at_ (take 4 s) 0)) = first_kind s.
Proof. destruct s as [|k s]; intros Hk; cbn; [by apply Hk|done]. Qed.

(** The loop computes the length, kind and completeness of the first message of
    the stream [acc ++ hs ..]; its verdict that nothing can follow is sound. *)
Lemma prefix_loop_spec f : forall data pos acc k0 nh,
  (pos <= length data)%nat -> (length (drop pos data) < f)%nat -> msg_done acc = false ->
  k0 = first_kind acc ->
  (nh = pos \/ (5 <= length (drop pos data))%nat /\ at_ (drop pos data) 0 = HANDSHAKE) ->
  let '(p, nh') := prefix_loop data (walk f data pos) (take 4 acc)
                     (mkPrefix (length acc) k0 false true) nh in
  let s := acc ++ hs f (drop pos data) in
  len p = length (message_of s) /\ complete p = msg_done s /\ kind p = first_kind s /\
  (complete p = false ->
   extendable p = false \/ (exists k, data !! nh' = Some k /\ negb (byte_val k =? HANDSHAKE) = true) ->
   ended f (drop pos data) = true).
Proof.
  induction f as [|f IH]; intros data pos acc k0 nh Hpos Hf Hacc Hk0 Hnh; [lia|].
  rewrite walk_S by done. cbn zeta. cbn [hs ended]. set (s0 := drop pos data) in *.
  destruct (5 <=? length s0)%nat eqn:E5; cbn [andb].
  2: { cbn [prefix_loop len kind complete extendable]. rewrite app_nil_r. unfold message_of. rewrite Hacc.
       split; [done|]. split; [done|]. split; [done|]. intros _ [?|(k & Hk & Hne)]; [done|].
       destruct Hnh as [->|[H5 _]]; [|apply Nat.leb_gt in E5; lia].
       unfold s0. destruct (drop pos data) as [|k' r] eqn:Ed.
       - apply lookup_lt_Some in Hk. apply (f_equal length) in Ed. rewrite length_drop in Ed. cbn in Ed. lia.
       - assert (Hh : data !! pos = Some k').
         { rewrite <- (Nat.add_0_r pos), <- lookup_drop, Ed. done. }
         congruence. }
  apply Nat.leb_le in E5. cbn [prefix_loop content_type p_end]. fold s0.
  destruct (at_ s0 0 =? HANDSHAKE) eqn:Eh; cbn [negb].
  2: { cbn [len kind complete extendable]. rewrite app_nil_r. unfold message_of. rewrite Hacc. done. }
  rewrite payload_eq. fold s0. set (pl := take (rec_len s0) (drop 5 s0)). rewrite take4_app.
  set (acc1 := acc ++ pl). set (pos1 := Nat.min (pos + 5 + rec_len s0) (length data)).
  assert (Hk1 : (if bool_decide (take 4 acc1 = []) then k0 else Some (at_ (take 4 acc1) 0)) = first_kind acc1).
  { apply header_kind. unfold acc1. intros [-> _]%app_nil. by subst k0. }
  cbn [kind len complete extendable]. rewrite Hk1.
  replace (length acc + length pl)%nat with (length acc1) by (unfold acc1; by rewrite length_app).
  assert (Hdrop1 : drop pos1 data = drop (5 + rec_len s0) s0) by (unfold pos1, s0; apply next_drop).
  assert (Hstream : acc ++ pl ++ hs f (drop (5 + rec_len s0) s0) = acc1 ++ hs f (drop pos1 data)).
  { unfold acc1. by rewrite <- app_assoc, Hdrop1. }
  rewrite Hstream.
  assert (Hdone : (if (length (take 4 acc1) =? 4)%nat
                   then (4 + Z.to_nat (be_u24 (drop 1 (take 4 acc1))) <=? length acc1)%nat else false)
                  = msg_done acc1).
  { unfold msg_done. rewrite length_take. fold (declared acc1).
    destruct (4 <=? length acc1)%nat eqn:E4; cbn [andb].
    - apply Nat.leb_le in E4. by rewrite Nat.min_l, Nat.eqb_refl by lia.
    - apply Nat.leb_gt in E4. rewrite (proj2 (Nat.eqb_neq _ _)) by lia. done. }
  assert (Hstep : forall (p : HandshakePrefix * nat) (nh2 : nat),
    (if (length (take 4 acc1) =? 4)%nat
     then if (4 + Z.to_nat (be_u24 (drop 1 (take 4 acc1))) <=? length acc1)%nat
          then (mkPrefix (4 + Z.to_nat (be_u24 (drop 1 (take 4 acc1)))) (first_kind acc1) true true, nh2)
          else p
     else p) = if msg_done acc1
               then (mkPrefix (declared acc1) (first_kind acc1) true true, nh2) else p).
  { intros p nh2. rewrite <- Hdone. unfold declared. by destruct (_ =? 4)%nat. }
  rewrite Hstep. destruct (msg_done acc1) eqn:Ed.
  - cbn [len kind complete extendable].
    destruct (msg_done_app acc1 (hs f (drop pos1 data)) Ed) as [Hd' Hm']. rewrite Hd', Hm'.
    split; [|split; [done|split; [|done]]].
    + unfold message_of. rewrite Ed. unfold msg_done in Ed. apply andb_true_iff in Ed as [_ Ed%Nat.leb_le].
      rewrite length_take. lia.
    + destruct acc1; [done|]. done.
  - assert (Hb : (pos1 <= length data)%nat) by (unfold pos1; lia).
    assert (Hfl : (length (drop pos1 data) < f)%nat).
    { rewrite Hdrop1, length_drop. unfold s0 in *. lia. }
    pose proof (IH data pos1 acc1 (first_kind acc1) pos1 Hb Hfl Ed eq_refl ltac:(by left)) as Hrec.
    destruct (prefix_loop _ _ _ _ _) as [p nh']. destruct Hrec as (H1 & H2 & H3 & H4).
    split; [done|]. split; [done|]. split; [done|]. intros Hc Hx. specialize (H4 Hc Hx).
    rewrite Hdrop1 in H4. rewrite H4, andb_true_r. apply Nat.leb_le.
    destruct (decide (5 + rec_len s0 <= length s0)%nat) as [|Hn]; [done|]. exfalso.
    rewrite drop_ge in H4 by lia. by destruct f.
Qed.

Lemma walk_first data :
  walk_records data =
  if (5 <=? length data)%nat
  then mkTlsRecord (at_ data 0) 5 (Nat.min (5 + rec_len data) (length data))
       :: walk (length data) data (Nat.min (5 + rec_len data) (length data))
  else [].
Proof. unfold walk_records. rewrite walk_S by lia. cbn zeta. rewrite drop_0. done. Qed.

Lemma handshake_prefix_spec data :
  match handshake_prefix data with
  | None => ~ ((5 <= length data)%nat /\ at_ data 0 = HANDSHAKE)
  | Some p =>
      (5 <= length data)%nat /\ at_ data 0 = HANDSHAKE /\
      len p = length (message_of (hs_stream data)) /\
      complete p = msg_done (hs_stream data) /\ kind p = first_kind (hs_stream data) /\
      (complete p = false -> extendable p = false -> ended (S (length data)) data = true)
  end.
Proof.
  unfold handshake_prefix. rewrite walk_first. destruct (5 <=? length data)%nat eqn:E5.
  2: { apply Nat.leb_gt in E5. lia. }
  apply Nat.leb_le in E5. cbn [content_type p_end]. destruct (at_ data 0 =? HANDSHAKE) eqn:Eh; cbn [negb].
  2: { zify_bools. by intros [_ ?]. }
  zify_bools.
  pose proof (prefix_loop_spec (S (length data)) data 0 [] None
                (Nat.min (5 + rec_len data) (length data))) as Hl.
  rewrite drop_0 in Hl. specialize (Hl ltac:(lia) ltac:(lia) eq_refl eq_refl ltac:(by right)).
  fold (walk_records data) in Hl. rewrite walk_first, (proj2 (Nat.leb_le _ _) E5) in Hl.
  change (take 4 []) with (@nil ascii) in Hl. change (length (@nil ascii)) with 0%nat in Hl.
  destruct (prefix_loop _ _ _ _ _) as [p nh]. cbn zeta in Hl. rewrite app_nil_l in Hl.
  fold (hs_stream data) in Hl. destruct Hl as (H1 & H2 & H3 & H4).
  destruct (data !! nh) as [k|] eqn:Ek.
  - destruct (negb (byte_val k =? HANDSHAKE)) eqn:En; cbn [len kind complete extendable].
    + do 5 (split; [done|]). intros Hc _. apply H4; [done|]. right. eauto.
    + do 5 (split; [done|]). intros Hc He. apply H4; [done|]. by left.
  - do 5 (split; [done|]). intros Hc He. apply H4; [done|]. by left.
Qed.

Lemma clipped data pos n :
  let s := drop pos data in
  (pos + 5 <= length data)%nat ->
  (Nat.min (pos + 5 + rec_len s) (length data) - (pos + 5))%nat = length (take (rec_len s) (drop 5 s)) /\
  ((n <= length (take (rec_len s) (drop 5 s)))%nat ->
   take n (drop (pos + 5) data) = take n (take (rec_len s) (drop 5 s))).
Proof.
  cbn zeta. intros Hp. rewrite length_take, !length_drop, drop_drop. split; [lia|].
  intros Hn. rewrite take_take. f_equal. lia.
Qed.

Lemma message_loop_spec f : forall data pos n acc,
  (pos <= length data)%nat -> (length acc <= n <= length (acc ++ hs f (drop pos data)))%nat ->
  message_loop data (walk f data pos) n acc = take n (acc ++ hs f (drop pos data)).
Proof.
  induction f as [|f IH]; intros data pos n acc Hpos Hn.
  { cbn in *. rewrite app_nil_r in *. by rewrite take_ge by lia. }
  rewrite walk_S by done. cbn zeta. cbn [hs] in *. set (s := drop pos data) in *.
  destruct (5 <=? length s)%nat eqn:E5; cbn [andb] in *.
  2: { rewrite app_nil_r in *. cbn. by rewrite take_ge by lia. }
  apply Nat.leb_le in E5. assert (Hp5 : (pos + 5 <= length data)%nat).
  { unfold s in E5. rewrite length_drop in E5. lia. }
  destruct (clipped data pos (Nat.min (length (take (rec_len s) (drop 5 s))) (n - length acc)) Hp5) as [Hlen Htake].
  cbn [message_loop p_start p_end]. fold s in Hlen, Htake. rewrite Hlen, Htake by lia.
  set (pl := take (rec_len s) (drop 5 s)) in *.
  destruct (at_ s 0 =? HANDSHAKE).
  - assert (Hk : take (Nat.min (length pl) (n - length acc)) pl = take (n - length acc) pl).
    { destruct (decide (length pl <= n - length acc)%nat); [|f_equal; lia].
      rewrite !take_ge by lia. done. }
    rewrite Hk. rewrite length_app, length_take.
    destruct (length acc + Nat.min (n - length acc) (length pl) =? n)%nat eqn:E.
    + apply Nat.eqb_eq in E. rewrite app_assoc, take_app_le by (rewrite length_app; lia).
      by rewrite take_app, (take_ge acc) by lia.
    + apply Nat.eqb_neq in E. rewrite (take_ge pl) by lia. rewrite app_assoc.
      assert (Hd : hs f (drop (5 + rec_len s) s) = hs f (drop (Nat.min (pos + 5 + rec_len s) (length data)) data))
        by (unfold s; by rewrite next_drop).
      rewrite Hd. apply IH; [lia|]. rewrite <- Hd, <- app_assoc. rewrite !length_app in *. lia.
  - rewrite app_nil_r in *. replace (n - length acc)%nat with 0%nat by lia.
    rewrite Nat.min_0_r. cbn [take]. rewrite app_nil_r.
    rewrite (proj2 (Nat.eqb_eq _ _)) by lia. by rewrite take_ge by lia.
Qed.

Lemma message_bytes_spec data n :
  (5 <= length data)%nat -> (n <= length (hs_stream data))%nat ->
  message_bytes data n = Some (take n (hs_stream data)).
Proof.
  intros H5 Hn. unfold message_bytes.
  assert (Hw : walk_records data = walk (S (length data)) data 0) by done.
  pose proof (message_loop_spec (S (length data)) data 0 n [] ltac:(lia)) as Hm.
  rewrite drop_0, <- Hw in Hm. fold (hs_stream data) in Hm. cbn [app length] in Hm.
  specialize (Hm ltac:(lia)). rewrite walk_first, (proj2 (Nat.leb_le _ _) H5) in *. cbn [p_start p_end].
  destruct (n <=? _)%nat eqn:En; [|by rewrite Hm]. apply Nat.leb_le in En. f_equal.
  rewrite <- Hm. cbn [message_loop p_start p_end length app]. rewrite Nat.sub_0_r.
  rewrite Nat.min_r by lia. rewrite length_take, length_drop.
  replace (Nat.min n (length data - 5)) with n by lia. by rewrite Nat.eqb_refl.
Qed.

Lemma message_of_prefix s : take (length (message_of s)) s = message_of s.
Proof.
  unfold message_of, msg_done. destruct (_ && _) eqn:E; [|by rewrite take_ge].
  apply andb_true_iff in E as [_ E%Nat.leb_le]. rewrite length_take, Nat.min_l by lia. done.
Qed.

Lemma message_of_length s : (length (message_of s) <= length s)%nat.
Proof. unfold message_of. destruct (msg_done s); [rewrite length_take|]; lia. Qed.

Lemma handshake_message_spec data :
  handshake_message data =
  if (5 <=? length data)%nat && (at_ data 0 =? HANDSHAKE)
  then Some (message_of (hs_stream data)) else None.
Proof.
  unfold handshake_message, mbind, option_bind. pose proof (handshake_prefix_spec data) as Hp.
  destruct (handshake_prefix data) as [p|].
  - destruct Hp as (H5 & Hh & Hl & _). rewrite (proj2 (Nat.leb_le _ _) H5), Hh. cbn.
    rewrite Hl, message_bytes_spec by (done || apply message_of_length). by rewrite message_of_prefix.
  - destruct (_ && _) eqn:E; [|done]. apply andb_true_iff in E as [E1%Nat.leb_le E2%Z.eqb_eq].
    by destruct Hp.
Qed.

(** Reassembly is exact and total: for every input, the message returned is
    the first handshake message of the concatenated payloads of the leading
    handshake records, cut at its declared length when it is all there and at the
    bytes present otherwise, and [complete] says which; it never panics. *)
Theorem assemble_exact data :
  assemble_handshake_message data =
  (if (5 <=? length data)%nat && (at_ data 0 =? HANDSHAKE)
   then Some (mkAssembled (message_of (hs_stream data)) (msg_done (hs_stream data))) else None) /\
  client_hello_is_complete data =
  ((5 <=? length data)%nat && (at_ data 0 =? HANDSHAKE) && msg_done (hs_stream data)
   && bool_decide (first_kind (hs_stream data) = Some 1)).
Proof.
  unfold assemble_handshake_message, client_hello_is_complete, mbind, option_bind.
  pose proof (handshake_prefix_spec data) as Hp. destruct (handshake_prefix data) as [p|].
  - destruct Hp as (H5 & Hh & Hl & Hc & Hk & _). rewrite (proj2 (Nat.leb_le _ _) H5), Hh. cbn [andb].
    rewrite Z.eqb_refl. cbn [andb].
    rewrite Hl, message_bytes_spec by (done || apply message_of_length).
    by rewrite message_of_prefix, Hc, Hk.
  - destruct ((5 <=? length data)%nat && (at_ data 0 =? HANDSHAKE)) eqn:E; [|done]. apply andb_true_iff in E as [E1%Nat.leb_le E2%Z.eqb_eq].
    by destruct Hp.
Qed.

(** ** Fragmentation *)

Definition be16 (n : nat) : bytes := [byte_of (Z.of_nat n / 256); byte_of (Z.of_nat n mod 256)].
Definition frame (version : byte * byte) (chunk : bytes) : bytes :=
  [byte_of HANDSHAKE; version.1; version.2] ++ be16 (length chunk) ++ chunk.
Definition frames (chunks : list ((byte * byte) * bytes)) : bytes :=
  concat (map (fun c => frame c.1 c.2) chunks).


Lemma be16_spec n rest : Z.of_nat n < 65536 -> Z.to_nat (be_u16 (be16 n ++ rest)) = n.
Proof.
  intros Hn. unfold be_u16, be16, at_. cbn [app nth].
  assert (Hd : 0 <= Z.of_nat n / 256 < 256)
    by (split; [apply Z.div_pos; lia | apply Z.div_lt_upper_bound; lia]).
  pose proof (Z.mod_pos_bound (Z.of_nat n) 256 ltac:(lia)) as Hm.
  rewrite !byte_val_of by done. rewrite lor_shiftl by (done || lia).
  pose proof (Z.div_mod (Z.of_nat n) 256). lia.
Qed.

Lemma hs_frame f v c rest :
  Z.of_nat (length c) < 65536 -> hs (S f) (frame v c ++ rest) = c ++ hs f rest.
Proof.
  intros Hc. cbn [hs]. unfold frame. rewrite <- !app_assoc. cbn [app].
  assert (Hr : rec_len (byte_of HANDSHAKE :: v.1 :: v.2 :: be16 (length c) ++ c ++ rest) = length c).
  { unfold rec_len. cbn [drop]. by apply be16_spec. }
  rewrite Hr. assert (Hh : at_ (byte_of HANDSHAKE :: v.1 :: v.2 :: be16 (length c) ++ c ++ rest) 0 = HANDSHAKE)
    by reflexivity.
  rewrite Hh. replace (5 <=? _)%nat with true by (symmetry; apply Nat.leb_le; cbn; lia).
  rewrite Z.eqb_refl. cbn [andb].
  change (drop 5 (byte_of HANDSHAKE :: v.1 :: v.2 :: be16 (length c) ++ c ++ rest)) with (c ++ rest).
  change (drop (5 + length c) (byte_of HANDSHAKE :: v.1 :: v.2 :: be16 (length c) ++ c ++ rest))
    with (drop (length c) (c ++ rest)).
  by rewrite take_app_length, drop_app_length.
Qed.

Lemma frame_length v c : length (frame v c) = (5 + length c)%nat.
Proof. reflexivity. Qed.

Lemma hs_frames chunks : forall f tail,
  Forall (fun c => Z.of_nat (length c.2) < 65536) chunks -> (length (frames chunks ++ tail) < f)%nat ->
  exists f', (length tail < f')%nat /\ hs f (frames chunks ++ tail) = concat (map snd chunks) ++ hs f' tail.
Proof.
  induction chunks as [|[v c] chunks IH]; intros f tail Hc Hf; [by exists f|].
  apply Forall_cons in Hc as [Hc Hcs]. destruct f as [|f]; [lia|].
  unfold frames in *. cbn [map concat fst snd] in *. rewrite <- app_assoc in *.
  rewrite hs_frame by done. destruct (IH f tail Hcs) as (f' & Hf' & ->).
  { rewrite length_app in Hf. pose proof (frame_length v c). lia. }
  exists f'. split; [done|]. by rewrite <- app_assoc.
Qed.

Lemma hs_stream_frames chunks tail :
  Forall (fun c => Z.of_nat (length c.2) < 65536) chunks ->
  exists y, hs_stream (frames chunks ++ tail) = concat (map snd chunks) ++ y.
Proof.
  intros Hc. destruct (hs_frames chunks (S (length (frames chunks ++ tail))) tail Hc ltac:(lia))
    as (f' & _ & H). unfold hs_stream. rewrite H. by eexists.
Qed.

Lemma frames_starts chunks tail :
  chunks <> [] ->
  (5 <=? length (frames chunks ++ tail))%nat && (at_ (frames chunks ++ tail) 0 =? HANDSHAKE) = true.
Proof.
  destruct chunks as [|[v c] chunks]; [done|]. intros _. unfold frames. cbn [map concat fst snd].
  unfold frame at 1. rewrite <- !app_assoc. cbn [app]. apply andb_true_iff. split; [|done].
  apply Nat.leb_le. cbn. lia.
Qed.

(** Reassembly inverts fragmentation: however a message is cut into
    handshake records (any cut points, any record versions, empty records too), and
    whatever follows it, exactly the message comes back and it is complete. *)
Theorem assemble_frames chunks tail m extra :
  Forall (fun c => Z.of_nat (length c.2) < 65536) chunks ->
  concat (map snd chunks) = m ++ extra -> (4 <= length m)%nat -> declared m = length m ->
  assemble_handshake_message (frames chunks ++ tail) = Some (mkAssembled m true).
Proof.
  intros Hc Hm H4 Hd. unfold assemble_handshake_message, mbind, option_bind.
  assert (Hne : chunks <> []).
  { intros ->. cbn in Hm. symmetry in Hm. apply app_nil in Hm as [-> _]. cbn in H4. lia. }
  pose proof (frames_starts chunks tail Hne) as Hst.
  destruct (hs_stream_frames chunks tail Hc) as [y Hy]. rewrite Hm, <- app_assoc in Hy.
  assert (Hdone : msg_done m = true).
  { unfold msg_done. rewrite Hd, (proj2 (Nat.leb_le _ _) H4). apply Nat.leb_le. lia. }
  destruct (msg_done_app m (extra ++ y) Hdone) as [Hd' Hm']. rewrite <- Hy in Hd', Hm'.
  assert (Hmm : message_of m = m).
  { unfold message_of. rewrite Hdone, Hd. by rewrite take_ge. }
  pose proof (handshake_prefix_spec (frames chunks ++ tail)) as Hp.
  destruct (handshake_prefix (frames chunks ++ tail)) as [p|].
  - destruct Hp as (H5 & _ & Hl & Hcomp & _). rewrite Hl, message_bytes_spec by (done || apply message_of_length).
    by rewrite message_of_prefix, Hm', Hmm, Hcomp, Hd'.
  - apply andb_true_iff in Hst as [E1%Nat.leb_le E2%Z.eqb_eq]. by destruct Hp.
Qed.

(** A 6-byte message in three records, the second empty, an alert behind it. *)
Lemma assemble_frames_witness :
  let m := map byte_of [1; 0; 0; 2; 7; 9] in
  assemble_handshake_message
    (frames [((byte_of 3, byte_of 1), take 3 m); ((byte_of 3, byte_of 3), []);
             ((byte_of 3, byte_of 3), drop 3 m)] ++ map byte_of [21; 3; 3; 0; 2; 1; 0])
  = Some (mkAssembled m true).
Proof.
  apply (assemble_frames _ _ (map byte_of [1; 0; 0; 2; 7; 9]) []).
  - repeat constructor; cbn; lia.
  - reflexivity.
  - cbn. lia.
  - vm_compute. reflexivity.
Defined.

End Tls.
