(* ===== verification/Sni.v ===== *)
(** * Sni: recovering the hostname from the client's first bytes

    Model of [connect/util/recover_host.rs]: the SNI of a TLS ClientHello and the
    [Host] header of an HTTP/1.x request, and the two "keep reading" tests. *)
From S2P Require Import Prelude Text Tls.

Module Sni.
Import Tls.

(** ** TLS *)

Definition skip (buf : bytes) (p n : nat) : option nat :=
  if (p + n <=? length buf)%nat then Some (p + n)%nat else None.

Definition skip_vec (buf : bytes) (p len_bytes : nat) : option nat :=
  len ← match len_bytes with
        | 1%nat => Z.to_nat ∘ byte_val <$> buf !! p
        | 2%nat => Z.to_nat ∘ be_u16 <$> get_range buf p (p + 2)
        | _ => None
        end;
  skip buf (p + len_bytes) len.

(** A slice the source has checked to be in range. *)
Definition slice (s : bytes) (a b : nat) : bytes := take (b - a) (drop a s).

(** The loop over the names; each pass moves on by at least three bytes. *)
Fixpoint name_loop (fuel : nat) (names : bytes) (p : nat) : option bytes :=
  match fuel with
  | O => None
  | S fuel' =>
      if (p + 3 <=? length names)%nat then
        let name_type := at_ names p in
        let name_len := Z.to_nat (be_u16 (slice names (p + 1) (p + 3))) in
        match get_range names (p + 3) (p + 3 + name_len) with
        | None => None
        | Some name =>
            if name_type =? 0 then
              match from_utf8 name with
              | None => None
              | Some s => if bool_decide (s = []) then None else Some (to_ascii_lowercase s)
              end
            else name_loop fuel' names (p + 3 + name_len)
        end
      else None
  end.

Definition parse_server_name_ext (data : bytes) : option bytes :=
  l ← get_range data 0 2;
  names ← get_range data 2 (2 + Z.to_nat (be_u16 l));
  name_loop (S (length names)) names 0.

(** The loop over the extensions; each pass moves on by at least four bytes. *)
Fixpoint ext_loop (fuel : nat) (extensions : bytes) (e : nat) : option bytes :=
  match fuel with
  | O => None
  | S fuel' =>
      if (e + 4 <=? length extensions)%nat then
        let ext_type := be_u16 (slice extensions e (e + 2)) in
        let ext_len := Z.to_nat (be_u16 (slice extensions (e + 2) (e + 4))) in
        match get_range extensions (e + 4) (e + 4 + ext_len) with
        | None => None
        | Some ext_data =>
            if ext_type =? 0 then parse_server_name_ext ext_data
            else ext_loop fuel' extensions (e + 4 + ext_len)
        end
      else None
  end.

(** The ClientHello body. *)
Definition parse_hello (hs : bytes) : option bytes :=
  p ← skip hs 0 2;
  p ← skip hs p 32;
  p ← skip_vec hs p 1;
  p ← skip_vec hs p 2;
  p ← skip_vec hs p 1;
  t ← get_range hs p (p + 2);
  let ext_total := Z.to_nat (be_u16 t) in
  let p := (p + 2)%nat in
  extensions ← get_range hs p (Nat.min (p + ext_total) (length hs));
  ext_loop (S (length extensions)) extensions 0.

Definition parse_message (message : bytes) : option bytes :=
  if (length message <? 4)%nat || negb (at_ message 0 =? 1) then None
  else
    let hs_len := Z.to_nat (be_u24 (slice message 1 4)) in
    parse_hello (default (drop 4 message) (get_range message 4 (4 + hs_len))).

Definition parse_sni (data : bytes) : option bytes :=
  if (length data <? 5)%nat || negb (at_ data 0 =? HANDSHAKE) || negb (at_ data 1 =? 3) then None
  else m ← handshake_message data; parse_message m.

Definition sni_might_still_appear (data : bytes) : bool := client_hello_might_continue data.

(** ** HTTP *)

Definition CRLF : bytes := [CR; LF].

Definition crlf_line (data : bytes) : option (bytes * bytes) :=
  e ← find_sub CRLF data; Some (take e data, drop (e + 2) data).

Definition is_http1_request_line (line : bytes) : bool :=
  ends_with (lit " HTTP/1.0") line || ends_with (lit " HTTP/1.1") line.

(** The value of a [Host] line, without its port. *)
Definition host_value (val : bytes) : option bytes :=
  match from_utf8 val with
  | None => None
  | Some v =>
      let v := str_trim v in
      if bool_decide (v = []) then None
      else
        Some (to_ascii_lowercase
          (match rsplit_once (ascii_of_N 58) v with
           | Some (h, port) =>
               if negb (bool_decide (h = [])) && forallb is_ascii_digit port then h else v
           | None => v
           end))
  end.

(** The loop over the header lines; each line is at least its two-byte end. *)
Fixpoint header_loop (fuel : nat) (headers : bytes) : option bytes :=
  match fuel with
  | O => None
  | S fuel' =>
      match crlf_line headers with
      | None => None
      | Some (line, rest) =>
          if bool_decide (line = []) then None
          else
            match position (ascii_of_N 58) line with
            | None => header_loop fuel' rest
            | Some colon =>
                if eq_ignore_ascii_case (trim_ascii (take colon line)) (lit "host")
                then host_value (drop (colon + 1) line)
                else header_loop fuel' rest
            end
      end
  end.

Definition parse_http_host (data : bytes) : option bytes :=
  '(request, headers) ← crlf_line data;
  if negb (is_http1_request_line request) then None
  else header_loop (S (length headers)) headers.

Definition contains_sub (p s : bytes) : bool :=
  match find_sub p s with Some _ => true | None => false end.

Definition http_host_might_still_appear (data : bytes) : bool :=
  match data with
  | [] => true
  | c :: _ =>
      if negb (is_ascii_alphabetic c) then false
      else if match position LF data with
              | Some e => (e =? 0)%nat || negb (bool_decide (data !! (e - 1)%nat = Some CR))
                          || negb (is_http1_request_line (take (e - 1) data))
              | None => false
              end
      then false
      else negb (contains_sub [CR; LF; CR; LF] data || contains_sub [LF; LF] data)
  end.

(** ** The SNI verdict is final *)

Lemma first_kind_app s x : s <> [] -> first_kind (s ++ x) = first_kind s.
Proof. by destruct s. Qed.

Lemma first_kind_message s : s <> [] -> first_kind (message_of s) = first_kind s.
Proof.
  intros Hs. unfold message_of. destruct (msg_done s); [|done]. unfold declared.
  by destruct s.
Qed.

Lemma parse_message_kind m : first_kind m <> Some 1 -> parse_message m = None.
Proof.
  intros Hk. unfold parse_message. destruct m as [|k m]; [done|]. cbn [first_kind] in Hk.
  change (at_ (k :: m) 0) with (byte_val k). destruct (byte_val k =? 1) eqn:E; zify_bools.
  - congruence.
  - by rewrite orb_true_r.
Qed.

Lemma parse_sni_eq data :
  parse_sni data =
  if (5 <=? length data)%nat && (at_ data 0 =? HANDSHAKE) && (at_ data 1 =? 3)
  then parse_message (message_of (hs_stream data)) else None.
Proof.
  unfold parse_sni. rewrite handshake_message_spec.
  destruct (length data <? 5)%nat eqn:E1; destruct (5 <=? length data)%nat eqn:E2;
    rewrite ?Nat.ltb_lt, ?Nat.ltb_ge, ?Nat.leb_le, ?Nat.leb_gt in *; try lia; cbn [orb andb]; [done|].
  destruct (at_ data 0 =? HANDSHAKE); cbn; [|done]. by destruct (at_ data 1 =? 3).
Qed.

Lemma lookup_at (s : bytes) i k : s !! i = Some k -> at_ s i = byte_val k.
Proof. intros H. unfold at_. by rewrite (nth_lookup_Some s i _ k H). Qed.

(** Once [sni_might_still_appear] says no, more bytes never change what
    [parse_sni] returns: a reader that stops then misses nothing. *)
Theorem sni_verdict_final data more :
  sni_might_still_appear data = false -> parse_sni (data ++ more) = parse_sni data.
Proof.
  unfold sni_might_still_appear, client_hello_might_continue. intros Hf. rewrite !parse_sni_eq.
  destruct (match data !! 0%nat with Some k => negb (byte_val k =? HANDSHAKE) | None => false end) eqn:E0.
  { destruct data as [|k0 data]; [done|]. cbn in E0. change (at_ (k0 :: data) 0) with (byte_val k0).
    change (at_ ((k0 :: data) ++ more) 0) with (byte_val k0). rewrite negb_true_iff in E0.
    by rewrite E0, !andb_false_r. }
  destruct (match data !! 1%nat with Some m => negb (byte_val m =? 3) | None => false end) eqn:E1.
  { destruct data as [|k0 [|k1 data]]; [done|done|]. cbn in E1.
    change (at_ (k0 :: k1 :: data) 1) with (byte_val k1).
    change (at_ ((k0 :: k1 :: data) ++ more) 1) with (byte_val k1). rewrite negb_true_iff in E1.
    by rewrite E1, !andb_false_r. }
  cbn [orb] in Hf. pose proof (handshake_prefix_spec data) as Hp.
  destruct (handshake_prefix data) as [p|].
  2: { apply Nat.ltb_ge in Hf. exfalso. apply Hp. split; [done|].
       destruct data as [|k0 data]; [cbn in Hf; lia|]. cbn in E0. rewrite negb_false_iff in E0.
       by apply Z.eqb_eq. }
  destruct Hp as (H5 & H0 & Hl & Hc & Hk & He).
  rewrite length_app, !at_app by lia. rewrite (proj2 (Nat.leb_le 5 (length data + length more))) by lia.
  rewrite (proj2 (Nat.leb_le 5 (length data))) by lia. rewrite H0. cbn [andb]. rewrite Z.eqb_refl. cbn [andb].
  destruct (at_ data 1 =? 3); [|done].
  destruct (hs_stream_app data more) as (y & -> & Hy).
  destruct (complete p) eqn:Ecomp.
  - destruct (msg_done_app (hs_stream data) y) as [_ ->]; [by rewrite <- Hc|done].
  - rewrite andb_true_r in Hf. apply andb_false_iff in Hf as [Hkind|Hext].
    + rewrite Hk in Hkind. destruct (hs_stream data) as [|k s] eqn:Es; [done|]. cbn in Hkind.
      rewrite <- Es in *.
      assert (Hne : hs_stream data <> []) by (by rewrite Es).
      assert (Hk1 : first_kind (hs_stream data) <> Some 1)
        by (rewrite Es; cbn; intros [= E]; rewrite E in Hkind; done).
      rewrite !parse_message_kind; [done| |].
      * by rewrite first_kind_message.
      * rewrite first_kind_message by (by destruct (hs_stream data)). by rewrite first_kind_app.
    + rewrite Hy by (by apply He). by rewrite app_nil_r.
Qed.

(** An alert record after a partial hello. *)
Lemma sni_verdict_final_witness :
  let data := map byte_of [22; 3; 1; 0; 2; 1; 0; 21] in
  sni_might_still_appear data = false /\
  parse_sni (data ++ map byte_of [3; 3; 0]) = parse_sni data.
Proof.
  split; [vm_compute; reflexivity|].
  apply (sni_verdict_final (map byte_of [22; 3; 1; 0; 2; 1; 0; 21])). vm_compute. reflexivity.
Defined.

(** ** Every well-formed ClientHello yields its host

    The encoder a client uses: length-prefixed vectors of one, two and three
    length bytes. *)

Definition vec8 (d : bytes) : bytes := byte_of (Z.of_nat (length d)) :: d.
Definition vec16 (d : bytes) : bytes := be16 (length d) ++ d.
Definition be24 (n : nat) : bytes := byte_of (Z.of_nat n / 65536) :: be16 (Z.to_nat (Z.of_nat n mod 65536)).
Definition extension (ty : nat) (d : bytes) : bytes := be16 ty ++ vec16 d.
Definition server_name (host : bytes) : bytes := vec16 (byte_of 0 :: vec16 host).
Definition extensions_of (before : list (nat * bytes)) (host after : bytes) : bytes :=
  concat (map (fun x => extension x.1 x.2) before) ++ extension 0 (server_name host) ++ after.
Definition hello_body (version random session ciphers compression exts : bytes) : bytes :=
  version ++ random ++ vec8 session ++ vec16 ciphers ++ vec8 compression ++ vec16 exts.
Definition client_hello (body : bytes) : bytes := byte_of 1 :: be24 (length body) ++ body.

Lemma get_range_app (pre x post : bytes) n m :
  n = length pre -> m = (length pre + length x)%nat -> get_range (pre ++ x ++ post) n m = Some x.
Proof.
  intros -> ->. unfold get_range. rewrite !length_app.
  rewrite !(proj2 (Nat.leb_le _ _)) by lia. cbn [andb]. f_equal.
  rewrite drop_app_length. replace (length pre + length x - length pre)%nat with (length x) by lia.
  by rewrite take_app_length.
Qed.

Lemma slice_app (pre x post : bytes) n m :
  n = length pre -> m = (length pre + length x)%nat -> slice (pre ++ x ++ post) n m = x.
Proof.
  intros -> ->. unfold slice. rewrite drop_app_length.
  replace (length pre + length x - length pre)%nat with (length x) by lia. by rewrite take_app_length.
Qed.

Lemma be16_u16 n : Z.of_nat n < 65536 -> Z.to_nat (be_u16 (be16 n)) = n.
Proof. intros Hn. rewrite <- (app_nil_r (be16 n)). by apply be16_spec. Qed.

Lemma be16_length n : length (be16 n) = 2%nat.
Proof. done. Qed.

Lemma vec16_length d : length (vec16 d) = (2 + length d)%nat.
Proof. done. Qed.

Lemma skip_app (pre x post : bytes) n k :
  n = length pre -> k = length x -> skip (pre ++ x ++ post) n k = Some (length (pre ++ x)).
Proof.
  intros -> ->. unfold skip. rewrite !length_app. by rewrite (proj2 (Nat.leb_le _ _)) by lia.
Qed.

Lemma skip_vec8 (pre d post : bytes) n :
  n = length pre -> Z.of_nat (length d) < 256 ->
  skip_vec (pre ++ vec8 d ++ post) n 1 = Some (length (pre ++ vec8 d)).
Proof.
  intros -> Hd. unfold skip_vec, mbind, option_bind.
  rewrite lookup_app_r, Nat.sub_diag by lia. cbn. rewrite byte_val_of, Nat2Z.id by lia.
  unfold skip. rewrite !length_app. cbn. rewrite (proj2 (Nat.leb_le _ _)); [f_equal; lia|].
  rewrite length_app. lia.
Qed.

Lemma skip_vec16 (pre d post : bytes) n :
  n = length pre -> Z.of_nat (length d) < 65536 ->
  skip_vec (pre ++ vec16 d ++ post) n 2 = Some (length (pre ++ vec16 d)).
Proof.
  intros -> Hd. unfold skip_vec, mbind, option_bind, vec16. rewrite <- app_assoc.
  rewrite (get_range_app pre (be16 (length d)) (d ++ post)) by done. cbn [fmap option_fmap option_map compose].
  rewrite be16_u16 by done. unfold skip. rewrite !length_app, be16_length.
  rewrite (proj2 (Nat.leb_le _ _)) by lia. f_equal. lia.
Qed.

Lemma parse_server_name host s :
  Z.of_nat (length host) < 65533 -> from_utf8 host = Some s -> s <> [] ->
  parse_server_name_ext (server_name host) = Some (to_ascii_lowercase s).
Proof.
  intros Hl Hu Hne. unfold parse_server_name_ext, mbind, option_bind, server_name.
  set (names := byte_of 0 :: vec16 host).
  change (vec16 names) with (be16 (length names) ++ names).
  assert (Hlen : length names = (3 + length host)%nat) by done.
  rewrite (get_range_app [] (be16 (length names)) names) by done.
  rewrite be16_u16 by lia.
  assert (Hr : get_range (be16 (length names) ++ names) 2 (2 + length names) = Some names).
  { rewrite <- (app_nil_r names) at 2. by apply get_range_app. }
  rewrite Hr. cbn [name_loop]. rewrite Hlen. cbn [Nat.add].
  replace (3 <=? S (S (S (length host))))%nat with true by (symmetry; apply Nat.leb_le; lia).
  assert (Hs : slice names 1 3 = be16 (length host)) by done. rewrite Hs, be16_u16 by lia.
  assert (Hg : get_range names 3 (3 + length host) = Some host).
  { change names with ((byte_of 0 :: be16 (length host)) ++ host). rewrite <- (app_nil_r host) at 2.
    by apply get_range_app. }
  cbn [Nat.add] in Hg. rewrite Hg. change (at_ names 0 =? 0) with true. cbn iota.
  rewrite Hu. by rewrite bool_decide_eq_false_2.
Qed.

Lemma ext_loop_spec before : forall f pre host after s,
  Forall (fun x => 0 < Z.of_nat x.1 < 65536 /\ Z.of_nat (length x.2) < 65536) before ->
  Z.of_nat (length host) < 65531 -> from_utf8 host = Some s -> s <> [] ->
  (length before < f)%nat ->
  ext_loop f (pre ++ extensions_of before host after) (length pre) = Some (to_ascii_lowercase s).
Proof.
  assert (Hstep : forall f (pre d rest : bytes) ty, Z.of_nat ty < 65536 -> Z.of_nat (length d) < 65536 ->
    ext_loop (S f) (pre ++ extension ty d ++ rest) (length pre) =
    if (ty =? 0)%nat then parse_server_name_ext d
    else ext_loop f ((pre ++ extension ty d) ++ rest) (length (pre ++ extension ty d))).
  { intros f pre d rest ty Hty Hd. cbn [ext_loop].
    replace (length pre + 4 <=? _)%nat with true
      by (symmetry; apply Nat.leb_le; rewrite length_app; cbn; rewrite !length_app; lia).
    assert (H1 : slice (pre ++ extension ty d ++ rest) (length pre) (length pre + 2) = be16 ty).
    { unfold extension. rewrite <- app_assoc. by apply slice_app. }
    assert (H2 : slice (pre ++ extension ty d ++ rest) (length pre + 2) (length pre + 4) = be16 (length d)).
    { unfold extension, vec16. rewrite <- !app_assoc, (app_assoc pre).
      apply slice_app; rewrite ?length_app, ?be16_length; lia. }
    assert (H3 : get_range (pre ++ extension ty d ++ rest) (length pre + 4) (length pre + 4 + length d) = Some d).
    { unfold extension, vec16. rewrite <- !app_assoc, (app_assoc pre), (app_assoc (pre ++ _)).
      apply get_range_app; rewrite ?length_app, ?be16_length; lia. }
    rewrite H1, H2, (be16_u16 (length d)), H3 by done.
    assert (Hty0 : (be_u16 (be16 ty) =? 0) = (ty =? 0)%nat).
    { pose proof (be16_u16 ty Hty) as Hb. assert (0 <= be_u16 (be16 ty)) by
        (unfold be_u16; apply Z.lor_nonneg; split; [apply Z.shiftl_nonneg|]; apply byte_val_range).
      destruct (be_u16 (be16 ty) =? 0) eqn:E1; destruct (ty =? 0)%nat eqn:E2; try done;
        rewrite ?Nat.eqb_eq, ?Nat.eqb_neq in *; zify_bools; lia. }
    rewrite Hty0. destruct (ty =? 0)%nat; [done|]. rewrite app_assoc. f_equal.
    rewrite length_app. unfold extension. rewrite length_app, be16_length, vec16_length. lia. }
  induction before as [|[ty d] before IH]; intros f pre host after s Hb Hh Hu Hne Hf;
    (destruct f as [|f]; [cbn in Hf; lia|]); unfold extensions_of; cbn [map concat fst snd].
  - cbn [app]. rewrite Hstep.
    + cbn [Nat.eqb]. apply parse_server_name; [lia|done|done].
    + lia.
    + unfold server_name. rewrite vec16_length. cbn [length]. rewrite vec16_length. lia.
  - apply Forall_cons in Hb as [[Hty Hd] Hb]. cbn [fst snd] in *. rewrite <- app_assoc.
    rewrite Hstep by lia. rewrite (proj2 (Nat.eqb_neq ty 0)) by lia.
    apply IH; [done|done|done|done|]. cbn in Hf. lia.
Qed.

Lemma parse_hello_body version random session ciphers compression before host after s :
  length version = 2%nat -> length random = 32%nat ->
  Z.of_nat (length session) < 256 -> Z.of_nat (length ciphers) < 65536 ->
  Z.of_nat (length compression) < 256 ->
  Z.of_nat (length (extensions_of before host after)) < 65536 ->
  Forall (fun x => 0 < Z.of_nat x.1 < 65536 /\ Z.of_nat (length x.2) < 65536) before ->
  Z.of_nat (length host) < 65531 -> from_utf8 host = Some s -> s <> [] ->
  parse_hello (hello_body version random session ciphers compression (extensions_of before host after))
  = Some (to_ascii_lowercase s).
Proof.
  intros Hv Hr Hs Hc Hm He Hb Hh Hu Hne. unfold parse_hello, mbind, option_bind, hello_body.
  set (exts := extensions_of before host after) in *.
  change (version ++ random ++ vec8 session ++ vec16 ciphers ++ vec8 compression ++ vec16 exts)
    with ([] ++ version ++ (random ++ vec8 session ++ vec16 ciphers ++ vec8 compression ++ vec16 exts)).
  rewrite skip_app by done. cbn [app].
  rewrite skip_app by done. rewrite (app_assoc version).
  rewrite (skip_vec8 (version ++ random)) by done. rewrite (app_assoc (version ++ random)).
  rewrite (skip_vec16 ((version ++ random) ++ vec8 session)) by done.
  rewrite (app_assoc ((version ++ random) ++ vec8 session)).
  rewrite (skip_vec8 (((version ++ random) ++ vec8 session) ++ vec16 ciphers)) by done.
  rewrite (app_assoc (((version ++ random) ++ vec8 session) ++ vec16 ciphers)).
  set (pre := ((((version ++ random) ++ vec8 session) ++ vec16 ciphers) ++ vec8 compression)).
  unfold vec16 at 1. rewrite (get_range_app pre (be16 (length exts)) exts) by done.
  rewrite be16_u16 by done.
  assert (Hg : get_range (pre ++ vec16 exts) (length pre + 2)
                 (Nat.min (length pre + 2 + length exts) (length (pre ++ vec16 exts))) = Some exts).
  { unfold vec16. rewrite app_assoc.
    pose proof (get_range_app (pre ++ be16 (length exts)) exts []) as Hga. rewrite app_nil_r in Hga.
    apply Hga; rewrite !length_app, be16_length; lia. }
  rewrite Hg. assert (Hlt : (length before < S (length exts))%nat).
  { unfold exts, extensions_of. rewrite length_app.
    enough (length before <= length (concat (map (fun x => extension x.1 x.2) before)))%nat by lia.
    clear. induction before as [|x l IH]; [done|]. cbn [map concat]. rewrite length_app.
    unfold extension at 1. rewrite length_app, be16_length. cbn [length]. lia. }
  exact (ext_loop_spec before (S (length exts)) [] host after s Hb Hh Hu Hne Hlt).
Qed.

Lemma be24_u24 n rest : Z.of_nat n < 16777216 -> Z.to_nat (be_u24 (be24 n ++ rest)) = n.
Proof.
  intros Hn. set (z := Z.of_nat n). assert (Hz : 0 <= z < 16777216) by (unfold z; lia).
  assert (Hm : 0 <= z mod 65536 < 65536) by (apply Z.mod_pos_bound; lia).
  assert (Hd : 0 <= z / 65536 < 256) by (split; [apply Z.div_pos | apply Z.div_lt_upper_bound]; lia).
  assert (Hm1 : 0 <= z mod 65536 / 256 < 256) by (split; [apply Z.div_pos | apply Z.div_lt_upper_bound]; lia).
  assert (Hm2 : 0 <= (z mod 65536) mod 256 < 256) by (apply Z.mod_pos_bound; lia).
  unfold be_u24, be24, be16, at_. cbn [app nth]. fold z. rewrite Z2Nat.id by lia.
  rewrite !byte_val_of by done. rewrite <- Z.lor_assoc.
  rewrite (lor_shiftl (z mod 65536 / 256) _ 8) by (done || lia).
  rewrite lor_shiftl by (done || lia).
  pose proof (Z.div_mod (z mod 65536) 256). pose proof (Z.div_mod z 65536). lia.
Qed.

Lemma parse_client_hello body :
  Z.of_nat (length body) < 16777216 ->
  parse_message (client_hello body) = parse_hello body /\
  declared (client_hello body) = length (client_hello body).
Proof.
  intros Hb. unfold client_hello, parse_message.
  replace (length (byte_of 1 :: be24 (length body) ++ body) <? 4)%nat with false
    by (symmetry; apply Nat.ltb_ge; cbn; lia).
  change (at_ (byte_of 1 :: be24 (length body) ++ body) 0) with 1. cbn [orb negb Z.eqb Pos.eqb].
  change (slice (byte_of 1 :: be24 (length body) ++ body) 1 4) with (be24 (length body)).
  pose proof (be24_u24 (length body) [] Hb) as Hu. rewrite app_nil_r in Hu. rewrite Hu. split.
  - assert (Hg : get_range (byte_of 1 :: be24 (length body) ++ body) 4 (4 + length body) = Some body).
    { change (byte_of 1 :: be24 (length body) ++ body) with ((byte_of 1 :: be24 (length body)) ++ body).
      rewrite <- (app_nil_r body) at 2. by apply get_range_app. }
    by rewrite Hg.
  - unfold declared.
    change (drop 1 (take 4 (byte_of 1 :: be24 (length body) ++ body))) with (be24 (length body)).
    rewrite Hu. reflexivity.
Qed.

(** C40: SNI recovery is complete: for every well-formed ClientHello with a
    [server_name], whatever its other fields and extensions, however it is cut
    into records and whatever follows, [parse_sni] returns the lower-cased host,
    and the reader is told it need not wait for more. *)
Theorem sni_roundtrip version random session ciphers compression before host after s v c chunks tail extra :
  let body := hello_body version random session ciphers compression (extensions_of before host after) in
  length version = 2%nat -> length random = 32%nat ->
  Z.of_nat (length session) < 256 -> Z.of_nat (length ciphers) < 65536 ->
  Z.of_nat (length compression) < 256 ->
  Z.of_nat (length (extensions_of before host after)) < 65536 ->
  Forall (fun x => 0 < Z.of_nat x.1 < 65536 /\ Z.of_nat (length x.2) < 65536) before ->
  Z.of_nat (length host) < 65531 -> from_utf8 host = Some s -> s <> [] ->
  Forall (fun x => Z.of_nat (length x.2) < 65536) ((v, c) :: chunks) -> byte_val v.1 = 3 ->
  concat (map snd ((v, c) :: chunks)) = client_hello body ++ extra ->
  parse_sni (frames ((v, c) :: chunks) ++ tail) = Some (to_ascii_lowercase s) /\
  sni_might_still_appear (frames ((v, c) :: chunks) ++ tail) = false.
Proof.
  cbn zeta. intros Hv Hr Hs Hc Hm He Hb Hh Hu Hne Hch Hver Hcat.
  set (body := hello_body _ _ _ _ _ _) in *.
  assert (Hbody : Z.of_nat (length body) < 16777216).
  { unfold body, hello_body, vec16, vec8. rewrite !length_app. cbn [length]. rewrite ?length_app, ?be16_length. lia. }
  destruct (parse_client_hello body Hbody) as [Hparse Hdecl].
  destruct (hs_stream_frames ((v, c) :: chunks) tail Hch) as [y Hy]. rewrite Hcat, <- app_assoc in Hy.
  set (data := frames ((v, c) :: chunks) ++ tail) in *.
  assert (H4 : (4 <= length (client_hello body))%nat) by (unfold client_hello; cbn; lia).
  assert (Hdone : msg_done (client_hello body) = true).
  { unfold msg_done. rewrite Hdecl, (proj2 (Nat.leb_le _ _) H4). by apply Nat.leb_le. }
  destruct (msg_done_app (client_hello body) (extra ++ y) Hdone) as [Hd' Hm']. rewrite <- Hy in Hd', Hm'.
  assert (Hmsg : message_of (client_hello body) = client_hello body).
  { unfold message_of. rewrite Hdone, Hdecl. by rewrite take_ge. }
  pose proof (frames_starts ((v, c) :: chunks) tail ltac:(done)) as Hst. fold data in Hst.
  assert (H1 : at_ data 1 = 3) by (exact Hver). split.
  - rewrite parse_sni_eq, Hst, H1. cbn [andb Z.eqb Pos.eqb]. rewrite Hm', Hmsg, Hparse.
    by apply parse_hello_body.
  - unfold sni_might_still_appear, client_hello_might_continue.
    pose proof (handshake_prefix_spec data) as Hp. destruct (handshake_prefix data) as [p|].
    + destruct Hp as (_ & _ & _ & Hcomp & _). rewrite Hcomp, Hd'. cbn [negb].
      rewrite andb_false_r. by destruct (_ || _).
    + apply andb_true_iff in Hst as [E1%Nat.leb_le E2%Z.eqb_eq]. by destruct Hp.
Qed.

(** A hello with an extension before the SNI, in two records. *)
Definition demo_body : bytes :=
  hello_body (map byte_of [3; 3]) (repeat (byte_of 7) 32) [] (map byte_of [19; 1]) [byte_of 0]
    (extensions_of [(10%nat, map byte_of [0; 2; 0; 29])] (lit "Example.COM") []).

Lemma sni_roundtrip_witness :
  let data := frames [((byte_of 3, byte_of 1), take 60 (client_hello demo_body));
                      ((byte_of 3, byte_of 3), drop 60 (client_hello demo_body))] in
  parse_sni (data ++ []) = Some (lit "example.com") /\ sni_might_still_appear (data ++ []) = false.
Proof.
  apply (sni_roundtrip (map byte_of [3; 3]) (repeat (byte_of 7) 32) [] (map byte_of [19; 1]) [byte_of 0]
           [(10%nat, map byte_of [0; 2; 0; 29])] (lit "Example.COM") [] (lit "Example.COM")
           (byte_of 3, byte_of 1) (take 60 (client_hello demo_body))
           [((byte_of 3, byte_of 3), drop 60 (client_hello demo_body))] [] []);
    try reflexivity; try (repeat constructor; vm_compute; congruence).
Defined.

Example demo_sni : parse_sni (frames [((byte_of 3, byte_of 1), client_hello demo_body)]) = Some (lit "example.com").
Proof. vm_compute. reflexivity. Qed.

(** ** The Host header *)

Lemma crlf_line_app data x line rest :
  crlf_line data = Some (line, rest) -> crlf_line (data ++ x) = Some (line, rest ++ x).
Proof.
  unfold crlf_line, mbind, option_bind. destruct (find_sub CRLF data) as [n|] eqn:E; [|done].
  intros [= <- <-]. destruct (find_sub_app CRLF data x n E) as [-> Hl]. cbn in Hl.
  by rewrite take_app_le, drop_app_le by lia.
Qed.

Lemma header_loop_app f : forall f' hd x h,
  header_loop f hd = Some h -> (f <= f')%nat -> header_loop f' (hd ++ x) = Some h.
Proof.
  induction f as [|f IH]; intros [|f'] hd x h; try done; try lia. cbn [header_loop].
  destruct (crlf_line hd) as [[line rest]|] eqn:E; [|done].
  rewrite (crlf_line_app _ x _ _ E). case_bool_decide; [done|].
  destruct (position (ascii_of_N 58) line) as [colon|]; [destruct (eq_ignore_ascii_case _ _); [done|]|];
    intros Hh Hf; (apply IH; [done|lia]).
Qed.

(** A recovered [Host] is final, and so is a complete request line of another
    protocol: no bytes that arrive later change the answer. *)
Lemma http_host_stable data more :
  (forall h, parse_http_host data = Some h -> parse_http_host (data ++ more) = Some h) /\
  (forall request rest, crlf_line data = Some (request, rest) ->
     is_http1_request_line request = false ->
     parse_http_host data = None /\ parse_http_host (data ++ more) = None).
Proof.
  unfold parse_http_host, mbind, option_bind. split.
  - intros h. destruct (crlf_line data) as [[request headers]|] eqn:E; [|done].
    rewrite (crlf_line_app _ more _ _ E). destruct (is_http1_request_line request); [|done]. cbn [negb].
    intros Hh. apply (header_loop_app (S (length headers))); [done|]. rewrite length_app. lia.
  - intros request rest E Hn. rewrite E, (crlf_line_app _ more _ _ E), Hn. done.
Qed.

Lemma find_crlf line rest : CR ∉ line -> find_sub CRLF (line ++ CRLF ++ rest) = Some (length line).
Proof.
  induction line as [|c line IH]; intros Hn; [done|]. apply not_elem_of_cons in Hn as [Hc Hn].
  cbn [app find_sub]. replace (starts_with CRLF (c :: line ++ CRLF ++ rest)) with false.
  - by rewrite (IH Hn).
  - symmetry. apply andb_false_iff. left. by apply Ascii.eqb_neq.
Qed.

Lemma crlf_line_cons line rest : CR ∉ line -> crlf_line (line ++ CRLF ++ rest) = Some (line, rest).
Proof.
  intros Hn. unfold crlf_line, mbind, option_bind. rewrite find_crlf by done. f_equal. f_equal.
  - by rewrite take_app_length.
  - rewrite drop_app, drop_ge by lia. replace (length line + 2 - length line)%nat with 2%nat by lia. done.
Qed.

(** The name of a header line is [Host]. *)
Definition is_host_line (line : bytes) : bool :=
  match position (ascii_of_N 58) line with
  | Some colon => eq_ignore_ascii_case (trim_ascii (take colon line)) (lit "host")
  | None => false
  end.

Definition header_lines (ls : list bytes) : bytes := concat (map (fun l => l ++ CRLF) ls).

Lemma header_loop_skip before : forall f rest,
  Forall (fun l => l <> [] /\ (CR ∉ l) /\ is_host_line l = false) before ->
  header_loop (length before + f) (header_lines before ++ rest) = header_loop f rest.
Proof.
  induction before as [|l before IH]; intros f rest Hb; [done|].
  apply Forall_cons in Hb as [(Hl & Hcr & Hh) Hb]. unfold header_lines in *. cbn [map concat length Nat.add].
  rewrite <- !app_assoc. cbn [header_loop]. rewrite crlf_line_cons by done.
  rewrite bool_decide_eq_false_2 by done. unfold is_host_line in Hh.
  destruct (position _ l); [rewrite Hh|]; by apply IH.
Qed.

Lemma header_lines_length before : (length before <= length (header_lines before))%nat.
Proof.
  induction before as [|l before IH]; [done|]. unfold header_lines in *. cbn [map concat length].
  rewrite !length_app. cbn. lia.
Qed.

(** The [Host] of every HTTP/1.x request is recovered: the first [Host] line
    of the header section, whatever the headers before it and whatever follows,
    with its value's port stripped. *)
Theorem http_host_recovered request before line colon rest :
  CR ∉ request -> is_http1_request_line request = true ->
  Forall (fun l => l <> [] /\ (CR ∉ l) /\ is_host_line l = false) before ->
  CR ∉ line -> is_host_line line = true -> position (ascii_of_N 58) line = Some colon ->
  parse_http_host (request ++ CRLF ++ header_lines before ++ line ++ CRLF ++ rest)
  = host_value (drop (colon + 1) line).
Proof.
  intros Hr Hv Hb Hl Hh Hc. unfold parse_http_host, mbind, option_bind.
  rewrite crlf_line_cons by done. rewrite Hv. cbn [negb].
  set (tl := line ++ CRLF ++ rest).
  pose proof (header_lines_length before) as Hlen.
  replace (S (length (header_lines before ++ tl)))
    with (length before + S (length (header_lines before ++ tl) - length before))%nat
    by (rewrite length_app; lia).
  rewrite header_loop_skip by done. cbn [header_loop]. unfold tl. rewrite crlf_line_cons by done.
  rewrite bool_decide_eq_false_2 by (intros ->; done). unfold is_host_line in Hh. rewrite Hc in *.
  by rewrite Hh.
Qed.

Lemma http_host_recovered_witness :
  parse_http_host (lit "GET / HTTP/1.1" ++ CRLF ++ header_lines [lit "Accept: */*"; lit "junk"]
                   ++ lit "HOST:  Example.com:8080 " ++ CRLF ++ lit "X")
  = Some (lit "example.com").
Proof.
  apply (http_host_recovered (lit "GET / HTTP/1.1") [lit "Accept: */*"; lit "junk"]
           (lit "HOST:  Example.com:8080 ") 4 (lit "X")).
  - decide_now.
  - vm_compute. reflexivity.
  - repeat constructor; try done; decide_now.
  - decide_now.
  - vm_compute. reflexivity.
  - vm_compute. reflexivity.
Defined.

(** The reader's test is stricter than the parser: a request whose method starts
    with a digit is given up at its first byte although its [Host] would parse. *)
Example http_give_up_early :
  http_host_might_still_appear (lit "1") = false /\ parse_http_host (lit "1") = None /\
  parse_http_host (lit "1" ++ lit "X / HTTP/1.1" ++ CRLF ++ lit "Host: a" ++ CRLF) = Some (lit "a").
Proof. vm_compute. done. Qed.

End Sni.
