(* ===== verification/TextFmt.v ===== *)
(** * TextFmt: printing IP addresses and decoding ill-formed UTF-8

    The rest of the standard library's text behaviour the inbound server relies
    on: where an ill-formed byte string stops being UTF-8 ([Utf8Error]) and its
    lossy decoding, [splitn], and the [Display] form of [Ipv4Addr] and
    [Ipv6Addr], with the proof that a printed IPv6 address parses back. *)
From S2P Require Import Prelude Text.

(** ** UTF-8 errors *)

(** What starts a byte string: a character of [n] bytes, an ill-formed sequence of
    [n] bytes, or a sequence cut by the end of the input. *)
Inductive utf8_item :=
| Utf8Char (n : nat)
| Utf8Bad (n : nat)
| Utf8Cut.

Definition utf8_item_of (s : bytes) : utf8_item :=
  match s with
  | [] => Utf8Cut
  | a :: s1 =>
    let x := byte_val a in
    if x <? 128 then Utf8Char 1
    else if (194 <=? x) && (x <=? 223) then
      match s1 with
      | [] => Utf8Cut
      | b :: _ => if cont_byte b then Utf8Char 2 else Utf8Bad 1
      end
    else if (224 <=? x) && (x <=? 239) then
      match s1 with
      | [] => Utf8Cut
      | b :: s2 =>
        if negb (second_ok3 x (byte_val b)) then Utf8Bad 1
        else match s2 with
        | [] => Utf8Cut
        | c :: _ => if cont_byte c then Utf8Char 3 else Utf8Bad 2
        end
      end
    else if (240 <=? x) && (x <=? 244) then
      match s1 with
      | [] => Utf8Cut
      | b :: s2 =>
        if negb (second_ok4 x (byte_val b)) then Utf8Bad 1
        else match s2 with
        | [] => Utf8Cut
        | c :: s3 =>
          if negb (cont_byte c) then Utf8Bad 2
          else match s3 with
          | [] => Utf8Cut
          | d :: _ => if cont_byte d then Utf8Char 4 else Utf8Bad 3
          end
        end
      end
    else Utf8Bad 1
  end.

(** [Utf8Error]: the length of the longest well-formed prefix, and the length of the
    ill-formed sequence after it ([None]: the input ends inside a character). *)
Fixpoint utf8_error_from (fuel up_to : nat) (s : bytes) : option (nat * option nat) :=
  match fuel, s with
  | _, [] => None
  | O, _ => None
  | S fuel', _ =>
      match utf8_item_of s with
      | Utf8Char n => utf8_error_from fuel' (up_to + n) (drop n s)
      | Utf8Bad n => Some (up_to, Some n)
      | Utf8Cut => Some (up_to, None)
      end
  end.
Definition utf8_error (s : bytes) : option (nat * option nat) :=
  utf8_error_from (length s) 0 s.

(** [Utf8Error]'s [Display]. *)
Definition utf8_error_display (e : nat * option nat) : bytes :=
  match e with
  | (up_to, Some n) => lit "invalid utf-8 sequence of " ++ fmt_dec (Z.of_nat n)
                       ++ lit " bytes from index " ++ fmt_dec (Z.of_nat up_to)
  | (up_to, None) => lit "incomplete utf-8 byte sequence from index " ++ fmt_dec (Z.of_nat up_to)
  end.

(** [String::from_utf8_lossy]: every ill-formed sequence becomes U+FFFD. *)
Definition REPLACEMENT : bytes := [byte_of 239; byte_of 191; byte_of 189].
Fixpoint lossy_from (fuel : nat) (s : bytes) : bytes :=
  match fuel, s with
  | _, [] => []
  | O, _ => []
  | S fuel', _ =>
      match utf8_item_of s with
      | Utf8Char n => take n s ++ lossy_from fuel' (drop n s)
      | Utf8Bad n => REPLACEMENT ++ lossy_from fuel' (drop n s)
      | Utf8Cut => REPLACEMENT
      end
  end.
Definition from_utf8_lossy (s : bytes) : bytes := lossy_from (length s) s.

(** ** Splitting *)

(** [str::splitn(n, c)] collected, for [n > 0]. *)
Fixpoint splitn (n : nat) (c : byte) (s : bytes) : list bytes :=
  match n with
  | O => []
  | S O => [s]
  | S n' =>
      match split_once c s with
      | Some (a, r) => a :: splitn n' c r
      | None => [s]
      end
  end.

(** ** IP addresses *)

Fixpoint join (sep : bytes) (l : list bytes) : bytes :=
  match l with
  | [] => []
  | [x] => x
  | x :: l' => x ++ sep ++ join sep l'
  end.

(** [Ipv4Addr]'s [Display], of the four octets. *)
Definition fmt_ipv4 (octets : list Z) : bytes := join (lit ".") (map fmt_dec octets).

(** The first longest run of zero segments: its start and length. *)
Fixpoint zero_run (i : nat) (segs : list Z) (longest current : nat * nat) : nat * nat :=
  match segs with
  | [] => longest
  | g :: segs' =>
      if g =? 0 then
        let current := (if (current.2 =? 0)%nat then i else current.1, S current.2) in
        let longest := if (longest.2 <? current.2)%nat then current else longest in
        zero_run (S i) segs' longest current
      else zero_run (S i) segs' longest (0%nat, 0%nat)
  end.

Definition fmt_segments (segs : list Z) : bytes := join (lit ":") (map fmt_hex segs).

(** [Ipv6Addr::to_ipv4_mapped]: the octets of [::ffff:a.b.c.d]. *)
Definition to_ipv4_mapped (segs : list Z) : option (list Z) :=
  match segs with
  | [a; b; c; d; e; f; hi; lo] =>
      if forallb (Z.eqb 0) [a; b; c; d; e] && (f =? 65535)
      then Some [hi / 256; hi mod 256; lo / 256; lo mod 256] else None
  | _ => None
  end.

(** [Ipv6Addr]'s [Display], of the eight segments. *)
Definition fmt_ipv6 (segs : list Z) : bytes :=
  match to_ipv4_mapped segs with
  | Some octets => lit "::ffff:" ++ fmt_ipv4 octets
  | None =>
      let '(start, len) := zero_run 0 segs (0, 0)%nat (0, 0)%nat in
      if (1 <? len)%nat
      then fmt_segments (take start segs) ++ lit "::" ++ fmt_segments (drop (start + len) segs)
      else fmt_segments segs
  end.

(** Big-endian pairs of octets: the segments of an [Ipv6Addr]. *)
Fixpoint be_segments (bs : bytes) : list Z :=
  match bs with
  | a :: b :: bs' => byte_val a * 256 + byte_val b :: be_segments bs'
  | _ => []
  end.

Example fmt_ipv6_ex : map (fun s => fmt_ipv6 <$> parse_ipv6 (lit s))
    ["::"; "::1"; "1:0:0:4:5:0:0:8"; "::ffff:1.2.3.4"; "2001:DB8::A:0"; "1:2:3:4:5:6:7:8"]
  = map (fun s => Some (lit s))
    ["::"; "::1"; "1::4:5:0:0:8"; "::ffff:1.2.3.4"; "2001:db8::a:0"; "1:2:3:4:5:6:7:8"].
Proof. reflexivity. Qed.

Example lossy_ex : from_utf8_lossy (map byte_of [97; 255; 226; 130; 98; 226; 130])
  = lit "a" ++ REPLACEMENT ++ REPLACEMENT ++ lit "b" ++ REPLACEMENT.
Proof. reflexivity. Qed.

(** ** Lemmas: UTF-8 *)

Lemma utf8_chars_item s : s <> [] ->
  match utf8_item_of s with
  | Utf8Char n => (0 < n <= length s)%nat /\
      exists c, utf8_chars s = cons (c, take n s) <$> utf8_chars (drop n s)
  | Utf8Bad n => (0 < n <= length s)%nat /\ utf8_chars s = None
  | Utf8Cut => utf8_chars s = None
  end.
Proof.
  destruct s as [|a [|b [|c [|d s]]]]; [done|..]; intros _; cbn [utf8_item_of utf8_chars length];
    set (x := byte_val a);
    destruct (x <? 128) eqn:E1; zify_bools;
    try (split; [lia | by eexists]);
    destruct ((194 <=? x) && (x <=? 223)) eqn:E2;
    [try (destruct (cont_byte b)); try (split; [lia | by eexists]); try done; by split; [lia|]| |..];
    try (destruct (cont_byte b); [split; [lia | by eexists] | by split; [lia|]]).
  all: destruct ((224 <=? x) && (x <=? 239)) eqn:E3.
  all: try (destruct (second_ok3 x (byte_val b)); cbn [negb andb]; [|by split; [lia|]]).
  all: try (destruct (cont_byte c); cbn [andb]; [split; [lia | by eexists] | by split; [lia|]]).
  all: destruct ((240 <=? x) && (x <=? 244)) eqn:E4; try done; try (by split; [lia|]).
  all: try (destruct (second_ok4 x (byte_val b)); cbn [negb andb]; [|by split; [lia|]]); try done.
  all: destruct (cont_byte c); cbn [negb andb]; [|by split; [lia|]]; try done.
  all: destruct (cont_byte d); cbn [negb andb]; [split; [lia | by eexists] | by split; [lia|]].
Qed.

Lemma utf8_error_from_spec fuel : forall i s, (length s <= fuel)%nat ->
  utf8_error_from fuel i s = None <-> is_Some (utf8_chars s).
Proof.
  induction fuel as [|fuel IH]; intros i s Hl; destruct s as [|a s]; simpl in Hl; try lia;
    try (split; [intros _; by eexists | done]).
  pose proof (utf8_chars_item (a :: s) ltac:(done)) as Hi.
  cbn [utf8_error_from]. destruct (utf8_item_of (a :: s)) as [n|n|].
  - destruct Hi as (Hn & c & ->). rewrite IH by (rewrite length_drop; simpl in *; lia).
    by rewrite fmap_is_Some.
  - destruct Hi as (_ & ->). by split; [|intros []].
  - rewrite Hi. by split; [|intros []].
Qed.

(** A byte string is UTF-8 exactly when decoding it reports no error. *)
Lemma utf8_error_None s : utf8_error s = None <-> from_utf8 s = Some s.
Proof.
  unfold utf8_error, from_utf8. rewrite utf8_error_from_spec by done.
  destruct (utf8_chars s); split; try done; by intros [].
Qed.

Lemma lossy_from_valid fuel : forall s, (length s <= fuel)%nat ->
  is_Some (utf8_chars s) -> lossy_from fuel s = s.
Proof.
  induction fuel as [|fuel IH]; intros s Hl Hs; destruct s as [|a s]; simpl in Hl; try lia; try done.
  pose proof (utf8_chars_item (a :: s) ltac:(done)) as Hi.
  cbn [lossy_from]. destruct (utf8_item_of (a :: s)) as [n|n|].
  - destruct Hi as (Hn & c & Heq). rewrite Heq, fmap_is_Some in Hs.
    rewrite IH; [by rewrite take_drop | rewrite length_drop; simpl in *; lia | done].
  - destruct Hi as (_ & Heq). rewrite Heq in Hs. by destruct Hs.
  - rewrite Hi in Hs. by destruct Hs.
Qed.

(** Lossy decoding keeps well-formed text. *)
Lemma from_utf8_lossy_valid s : from_utf8 s = Some s -> from_utf8_lossy s = s.
Proof.
  unfold from_utf8. destruct (utf8_chars s) eqn:E; [|done]. intros _.
  apply lossy_from_valid; [done | by rewrite E].
Qed.

(** ** Lemmas: IP addresses *)

Lemma hex_digit_to_digit d : 0 <= d < 16 -> to_digit 16 (hex_digit d) = Some d.
Proof.
  intros H.
  assert (Hall : forallb (fun n => bool_decide (to_digit 16 (hex_digit n) = Some n))
            (map Z.of_nat (seq 0 16)) = true) by reflexivity.
  rewrite forallb_forall in Hall. apply (bool_decide_eq_true_1 _), Hall, in_map_iff.
  exists (Z.to_nat d). rewrite in_seq. lia.
Qed.

(** The next byte is not a digit of the radix. *)
Definition stops (radix : Z) (s : bytes) : Prop :=
  match s with [] => True | c :: _ => to_digit radix c = None end.

(** Digits, read up to where they stop. *)
Lemma read_digits_app radix m (ds : list Z) s rest : forall count acc,
  Forall2 (fun d c => to_digit radix c = Some d) ds s -> stops radix rest ->
  (count + length ds <= m)%nat ->
  read_digits radix m (s ++ rest) count acc
  = Some ((count + length ds)%nat, foldl (fun a d => a * radix + d) acc ds, rest).
Proof.
  intros count acc H Hstop. revert count acc.
  induction H as [|d c ds s Hd H IH]; intros count acc Hm; simpl in *.
  - destruct rest as [|c rest]; simpl; [by rewrite Nat.add_0_r|].
    simpl in Hstop. rewrite Hstop. by rewrite Nat.add_0_r.
  - rewrite Hd. destruct (Nat.ltb_spec m (S count)); [lia|].
    rewrite IH by lia. by rewrite Nat.add_succ_r.
Qed.

(** A number printed in the radix, with no superfluous leading zero, reads back. *)
Lemma read_number_app radix m z mx (ds : list Z) s rest n :
  Forall2 (fun d c => to_digit radix c = Some d) ds s -> stops radix rest ->
  foldl (fun a d => a * radix + d) 0 ds = n -> n <= mx ->
  (0 < length ds <= m)%nat ->
  (z = true \/ length ds = 1%nat \/ starts_with (lit "0") (s ++ rest) = false) ->
  read_number radix m z mx (s ++ rest) = Some (n, rest).
Proof.
  intros HF Hs Hn Hmx Hl Hz. unfold read_number.
  rewrite (read_digits_app _ _ ds s rest 0 0 HF Hs) by lia. rewrite Hn.
  cbv beta iota zeta delta [mbind option_bind Nat.add].
  destruct (Nat.eqb_spec (length ds) 0); [lia|].
  rewrite (proj2 (Z.leb_le n mx) Hmx).
  destruct Hz as [-> | [-> | ->]]; by rewrite ?andb_false_r.
Qed.

Lemma hex_digits_spec fuel : forall n acc k,
  0 <= n < 2 ^ Z.of_nat fuel -> (0 < fuel)%nat -> n < 16 ^ Z.of_nat k -> (0 < k)%nat ->
  exists ds, hex_digits fuel n acc = map hex_digit ds ++ acc /\ (0 < length ds <= k)%nat /\
    Forall (fun d => 0 <= d < 16) ds /\ foldl (fun a d => a * 16 + d) 0 ds = n.
Proof.
  induction fuel as [|fuel IH]; intros n acc k Hn Hf Hk Hk0; [lia|].
  pose proof (Z.mod_pos_bound n 16 ltac:(lia)). cbn [hex_digits].
  destruct (n <? 16) eqn:E; zify_bools.
  - exists [n mod 16]. split; [done|]. simpl. rewrite Z.mod_small by lia.
    split; [lia|]. split; [constructor; [lia | done] | done].
  - destruct fuel as [|fuel]; [simpl in Hn; lia|]. destruct k as [|[|k]]; [lia | simpl in Hk; lia|].
    destruct (IH (n / 16) (hex_digit (n mod 16) :: acc) (S k)) as (ds & -> & Hl & Hall & Hfold).
    + split; [apply Z.div_pos; lia|]. apply Z.div_lt_upper_bound; [lia|].
      rewrite Nat2Z.inj_succ, Z.pow_succ_r in Hn; lia.
    + lia.
    + apply Z.div_lt_upper_bound; [lia|]. rewrite Nat2Z.inj_succ, Z.pow_succ_r in Hk; lia.
    + lia.
    + exists (ds ++ [n mod 16]). rewrite map_app, <- app_assoc. split; [done|].
      rewrite length_app, Forall_app, foldl_app, Hfold. simpl. split; [lia|].
      split; [split; [done | constructor; [lia | done]]|]. pose proof (Z.div_mod n 16). lia.
Qed.

Lemma fmt_hex_spec g : 0 <= g <= U16_MAX ->
  exists ds, fmt_hex g = map hex_digit ds /\ (0 < length ds <= 4)%nat /\
    Forall (fun d => 0 <= d < 16) ds /\ foldl (fun a d => a * 16 + d) 0 ds = g.
Proof.
  intros Hg. unfold fmt_hex.
  destruct (hex_digits_spec (S (Z.to_nat (Z.log2 g))) g [] 4) as (ds & -> & H).
  - split; [lia|]. rewrite Nat2Z.inj_succ, Z2Nat.id by apply Z.log2_nonneg.
    destruct (decide (g = 0)) as [->|]; [done|]. by apply Z.log2_spec; lia.
  - lia.
  - unfold U16_MAX in Hg. simpl. lia.
  - lia.
  - exists ds. by rewrite app_nil_r.
Qed.

(** A segment printed in hexadecimal reads back. *)
Lemma read_fmt_hex g rest : 0 <= g <= U16_MAX -> stops 16 rest ->
  read_number 16 4 true U16_MAX (fmt_hex g ++ rest) = Some (g, rest).
Proof.
  intros Hg Hs. destruct (fmt_hex_spec g Hg) as (ds & -> & Hl & Hall & Hfold).
  apply (read_number_app _ _ _ _ ds); try done; [|lia | by left].
  clear -Hall. induction Hall; simpl; constructor; [by apply hex_digit_to_digit | done].
Qed.

Lemma read_number_stops radix m z mx s : stops radix s -> read_number radix m z mx s = None.
Proof. destruct s as [|c s]; simpl; [done|]. intros H. unfold read_number. simpl. by rewrite H. Qed.

Lemma read_ipv4_no_dot s : "."%char ∉ s -> read_ipv4_addr s = None.
Proof.
  intros Hs. unfold read_ipv4_addr, read_ipv4_octets, read_separator. cbn [Nat.eqb].
  destruct (read_number 10 3 false U8_MAX s) as [[o s1]|] eqn:E; [|done].
  assert (Hs1 : "."%char ∉ s1).
  { apply read_number_consumes in E as (p & -> & _); [|lia]. set_solver. }
  cbn. destruct s1 as [|c s1]; [done|]. cbn.
  destruct (Ascii.eqb_spec c "."); [|done]. set_solver.
Qed.

(** The groups after the first, each behind its colon. *)
Definition more_segments (gs : list Z) : bytes := concat (map (fun g => ":"%char :: fmt_hex g) gs).

Lemma fmt_segments_cons g gs : fmt_segments (g :: gs) = fmt_hex g ++ more_segments gs.
Proof.
  unfold fmt_segments, more_segments. revert g. induction gs as [|g' gs IH]; intros g; simpl.
  - by rewrite app_nil_r.
  - by rewrite <- IH.
Qed.

(** What may follow printed groups: the end, or the compression marker. *)
Definition group_end (rest : bytes) : Prop := rest = [] \/ exists r, rest = lit "::" ++ r.

Lemma group_end_stops gs rest : group_end rest -> stops 16 (more_segments gs ++ rest).
Proof. intros [-> | [r ->]]; destruct gs; done. Qed.

Lemma read_groups_more k : forall i gs rest,
  Forall (fun g => 0 <= g <= U16_MAX) gs -> (length gs <= k)%nat -> group_end rest ->
  "."%char ∉ more_segments gs ++ rest ->
  read_groups k (S i) (more_segments gs ++ rest) = (gs, false, rest).
Proof.
  induction k as [|k IH]; intros i gs rest Hg Hl Hr Hd.
  { by destruct gs; simpl in Hl; [|lia]. }
  cbn [read_groups]. unfold read_separator. cbn [Nat.eqb].
  destruct Hg as [|g gs Hg Hgs]; cbn [more_segments map concat app] in *.
  - destruct Hr as [-> | [r ->]]; cbn [strip_prefix1 mbind option_bind];
      [by destruct (1 <=? k)%nat|].
    cbn [lit String.list_ascii_of_string app strip_prefix1]. cbn [Ascii.eqb Bool.eqb].
    unfold mbind, option_bind. rewrite read_ipv4_no_dot by set_solver.
    rewrite read_number_stops by done. by destruct (1 <=? k)%nat.
  - rewrite <- app_assoc in *. fold (more_segments gs) in *.
    cbn [strip_prefix1 Ascii.eqb Bool.eqb]. unfold mbind, option_bind.
    apply not_elem_of_cons in Hd as [_ Hd]. rewrite read_ipv4_no_dot by done.
    apply not_elem_of_app in Hd as [_ Hd].
    rewrite (read_fmt_hex g) by (done || by apply group_end_stops).
    simpl in Hl. rewrite (IH (S i) gs rest) by (done || lia). by destruct (1 <=? k)%nat.
Qed.

Lemma read_groups_fmt k gs rest :
  Forall (fun g => 0 <= g <= U16_MAX) gs -> (length gs <= k)%nat -> group_end rest ->
  "."%char ∉ fmt_segments gs ++ rest ->
  read_groups k 0 (fmt_segments gs ++ rest) = (gs, false, rest).
Proof.
  intros Hg Hl Hr Hd. destruct k as [|k]; [by destruct gs; simpl in Hl; [|lia]|].
  cbn [read_groups]. unfold read_separator. cbn [Nat.eqb].
  destruct Hg as [|g gs Hg Hgs].
  - rewrite read_ipv4_no_dot by done. cbn [fmt_segments map join app].
    rewrite read_number_stops by (destruct Hr as [-> | [r ->]]; done). by destruct (1 <=? k)%nat.
  - rewrite read_ipv4_no_dot by done. rewrite fmt_segments_cons, <- app_assoc in *.
    rewrite (read_fmt_hex g) by (done || by apply group_end_stops).
    apply not_elem_of_app in Hd as [_ Hd].
    simpl in Hl. rewrite read_groups_more by (done || lia). by destruct (1 <=? k)%nat.
Qed.

(** *** Printed octets *)

Definition octet_text_ok (n : Z) : bool :=
  (length (fmt_dec n) <=? 3)%nat
  && ((length (fmt_dec n) =? 1)%nat || negb (starts_with (lit "0") (fmt_dec n))).

Lemma octet_text n : 0 <= n <= U8_MAX -> octet_text_ok n = true.
Proof.
  intros H. assert (Hall : forallb octet_text_ok (map Z.of_nat (seq 0 256)) = true) by reflexivity.
  rewrite forallb_forall in Hall. apply Hall, in_map_iff.
  exists (Z.to_nat n). rewrite in_seq. unfold U8_MAX in H. lia.
Qed.

Lemma to_digit_10 c : is_ascii_digit c = true -> to_digit 10 c = Some (digit_val c).
Proof.
  intros H. unfold to_digit. rewrite H. apply is_ascii_digit_spec in H. unfold digit_val.
  rewrite (proj2 (Z.ltb_lt _ _)) by lia. done.
Qed.

Lemma read_fmt_octet n rest : 0 <= n <= U8_MAX -> stops 10 rest ->
  read_number 10 3 false U8_MAX (fmt_dec n ++ rest) = Some (n, rest).
Proof.
  intros Hn Hs. pose proof (octet_text n Hn) as Ho. unfold octet_text_ok in Ho.
  apply andb_true_iff in Ho as [Hlen Hz]. apply Nat.leb_le in Hlen.
  destruct (fmt_dec_spec n) as (Hne & Hd & Hf); [lia|].
  apply (read_number_app _ _ _ _ (map digit_val (fmt_dec n))); try done.
  - clear -Hd. induction (fmt_dec n) as [|c s IH]; simpl in *; constructor.
    + apply to_digit_10. by apply andb_true_iff in Hd as [].
    + apply IH. by apply andb_true_iff in Hd as [].
  - rewrite <- Hf at 2. clear. generalize 0. induction (fmt_dec n) as [|c s IH]; intros z; simpl; [done|].
    apply IH.
  - lia.
  - rewrite length_map. destruct (fmt_dec n); simpl in *; [done|lia].
  - rewrite length_map. right. apply orb_true_iff in Hz as [Hz | Hz].
    + left. by apply Nat.eqb_eq in Hz.
    + right. apply negb_true_iff in Hz. by destruct (fmt_dec n).
Qed.

Lemma read_fmt_ipv4 a b c d :
  0 <= a <= U8_MAX -> 0 <= b <= U8_MAX -> 0 <= c <= U8_MAX -> 0 <= d <= U8_MAX ->
  read_ipv4_addr (fmt_ipv4 [a; b; c; d]) = Some ([a; b; c; d], []).
Proof.
  intros Ha Hb Hc Hd. unfold read_ipv4_addr, fmt_ipv4. cbn [map join].
  cbn [read_ipv4_octets]. unfold read_separator. cbn [Nat.eqb].
  rewrite (read_fmt_octet a) by done.
  cbn [lit String.list_ascii_of_string app mbind option_bind strip_prefix1 Ascii.eqb Bool.eqb].
  rewrite (read_fmt_octet b) by done.
  cbn [lit String.list_ascii_of_string app mbind option_bind strip_prefix1 Ascii.eqb Bool.eqb].
  rewrite (read_fmt_octet c) by done.
  cbn [lit String.list_ascii_of_string app mbind option_bind strip_prefix1 Ascii.eqb Bool.eqb].
  rewrite <- (app_nil_r (fmt_dec d)), (read_fmt_octet d) by done. done.
Qed.

(** *** The zero run *)

Definition zeros (segs : list Z) (r : nat * nat) : Prop :=
  forall j, (r.1 <= j < r.1 + r.2)%nat -> segs !! j = Some 0.

Lemma zero_run_zeros l : forall pre longest current,
  zeros (pre ++ l) longest -> zeros (pre ++ l) current ->
  (current.2 = 0 \/ current.1 + current.2 = length pre)%nat ->
  zeros (pre ++ l) (zero_run (length pre) l longest current).
Proof.
  induction l as [|g l IH]; intros pre [ls ll] [cs cl] Hl Hc Hn; cbn [zero_run]; [done|].
  replace (pre ++ g :: l) with ((pre ++ [g]) ++ l) in * by by rewrite <- app_assoc.
  replace (S (length pre)) with (length (pre ++ [g])) by (rewrite length_app; simpl; lia).
  destruct (g =? 0) eqn:Eg; zify_bools.
  - subst g. cbn [fst snd] in *.
    assert (Hnew : zeros ((pre ++ [0]) ++ l) (if (cl =? 0)%nat then length pre else cs, S cl)).
    { intros j Hj. cbn [fst snd] in Hj. destruct (decide (j = length pre)) as [->|Hne].
      - rewrite lookup_app_l by (rewrite length_app; simpl; lia).
        by apply list_lookup_middle.
      - apply Hc. destruct (Nat.eqb_spec cl 0); simpl in *; lia. }
    apply IH.
    + by destruct (ll <? _)%nat.
    + done.
    + right. rewrite length_app. cbn. destruct (Nat.eqb_spec cl 0); lia.
  - apply IH; [done | intros j Hj; simpl in Hj; lia | by left].
Qed.

Lemma zeros_split segs start len : zeros segs (start, len) -> (0 < len)%nat ->
  (start + len <= length segs)%nat /\
  take start segs ++ replicate len 0 ++ drop (start + len) segs = segs.
Proof.
  intros Hz Hl. assert (Hb : (start + len <= length segs)%nat).
  { specialize (Hz (start + len - 1)%nat ltac:(simpl; lia)). apply lookup_lt_Some in Hz. lia. }
  split; [done|]. rewrite <- (take_drop start segs) at 3. f_equal.
  rewrite <- (take_drop len (drop start segs)), drop_drop. f_equal.
  apply replicate_as_elem_of. split; [rewrite length_take, length_drop; lia|].
  intros x [i Hi]%list_elem_of_lookup.
  apply lookup_take_Some in Hi as [Hi Hil]. rewrite lookup_drop in Hi.
  rewrite (Hz (start + i)%nat) in Hi by (simpl; lia). congruence.
Qed.

Lemma fmt_hex_no_dot g : 0 <= g <= U16_MAX -> "."%char ∉ fmt_hex g.
Proof.
  intros Hg. destruct (fmt_hex_spec g Hg) as (ds & -> & _ & Hall & _).
  intros (d & Hd & Hin)%list_elem_of_fmap.
  rewrite Forall_forall in Hall. apply Hall, hex_digit_to_digit in Hin. by rewrite <- Hd in Hin.
Qed.

Lemma fmt_segments_no_dot gs :
  Forall (fun g => 0 <= g <= U16_MAX) gs -> "."%char ∉ fmt_segments gs.
Proof.
  intros H. assert (Hm : forall gs, Forall (fun g => 0 <= g <= U16_MAX) gs ->
    "."%char ∉ more_segments gs).
  { clear. intros gs H. induction H as [|g gs Hg H IH]; cbn; [set_solver|].
    rewrite not_elem_of_cons, not_elem_of_app. split_and!; [done | by apply fmt_hex_no_dot | done]. }
  destruct H as [|g gs Hg H]; [set_solver|]. rewrite fmt_segments_cons, not_elem_of_app.
  split; [by apply fmt_hex_no_dot | by apply Hm].
Qed.

Lemma parse_ipv6_mapped a b c d :
  0 <= a <= U8_MAX -> 0 <= b <= U8_MAX -> 0 <= c <= U8_MAX -> 0 <= d <= U8_MAX ->
  parse_ipv6 (lit "::ffff:" ++ fmt_ipv4 [a; b; c; d])
  = Some [0; 0; 0; 0; 0; 65535; a * 256 + b; c * 256 + d].
Proof.
  intros Ha Hb Hc Hd. unfold parse_ipv6, read_ipv6_addr.
  set (T := fmt_ipv4 [a; b; c; d]).
  assert (H0 : read_groups 8 0 (lit "::ffff:" ++ T) = ([], false, lit "::ffff:" ++ T)) by done.
  rewrite H0. cbn [length Nat.eqb].
  change (lit "::ffff:" ++ T) with (":"%char :: ":"%char :: fmt_hex 65535 ++ ":"%char :: T).
  cbn [strip_prefix1 Ascii.eqb Bool.eqb mbind option_bind Nat.add Nat.sub].
  assert (H1 : read_groups 7 0 (fmt_hex 65535 ++ ":"%char :: T)
               = ([65535; a * 256 + b; c * 256 + d], true, [])).
  { cbn [read_groups]. unfold read_separator. cbn [Nat.eqb Nat.leb].
    assert (Hn : read_ipv4_addr (fmt_hex 65535 ++ ":"%char :: T) = None) by done.
    rewrite Hn, (read_fmt_hex 65535) by done.
    cbn [strip_prefix1 Ascii.eqb Bool.eqb mbind option_bind].
    unfold T. by rewrite read_fmt_ipv4. }
  by rewrite H1.
Qed.

Lemma parse_ipv6_full segs : length segs = 8%nat -> Forall (fun g => 0 <= g <= U16_MAX) segs ->
  parse_ipv6 (fmt_segments segs) = Some segs.
Proof.
  intros Hl Hs. unfold parse_ipv6, read_ipv6_addr.
  pose proof (fmt_segments_no_dot segs Hs) as Hd.
  rewrite <- (app_nil_r (fmt_segments segs)), read_groups_fmt;
    [| done | lia | by left | by rewrite app_nil_r].
  by rewrite (proj2 (Nat.eqb_eq _ _) Hl).
Qed.

Lemma parse_ipv6_compressed head tail len : length (head ++ replicate len 0 ++ tail) = 8%nat ->
  (1 < len)%nat -> Forall (fun g => 0 <= g <= U16_MAX) head ->
  Forall (fun g => 0 <= g <= U16_MAX) tail ->
  parse_ipv6 (fmt_segments head ++ lit "::" ++ fmt_segments tail)
  = Some (head ++ replicate len 0 ++ tail).
Proof.
  rewrite !length_app, length_replicate. intros Hl Hlen Hh Ht.
  unfold parse_ipv6, read_ipv6_addr.
  pose proof (fmt_segments_no_dot head Hh). pose proof (fmt_segments_no_dot tail Ht).
  rewrite read_groups_fmt; [| done | lia | right; by eexists |].
  2: { rewrite !not_elem_of_app. split_and!; try done.
       cbn. intros Hin. repeat (apply elem_of_cons in Hin as [?|Hin]; [done|]). by apply elem_of_nil in Hin. }
  destruct (Nat.eqb_spec (length head) 8); [lia|].
  cbn [lit String.list_ascii_of_string app strip_prefix1 Ascii.eqb Bool.eqb mbind option_bind].
  rewrite <- (app_nil_r (fmt_segments tail)), read_groups_fmt;
    [| done | lia | by left | by rewrite app_nil_r].
  do 4 f_equal. lia.
Qed.

(** Printing an IPv6 address and parsing the text gives the address back. *)
Lemma parse_fmt_ipv6 segs : length segs = 8%nat -> Forall (fun g => 0 <= g <= U16_MAX) segs ->
  parse_ipv6 (fmt_ipv6 segs) = Some segs.
Proof.
  intros Hl Hs. unfold fmt_ipv6. destruct (to_ipv4_mapped segs) as [oct|] eqn:Em.
  - destruct segs as [|a [|b [|c [|d [|e [|f [|hi [|lo [|]]]]]]]]]; try done.
    unfold to_ipv4_mapped in Em. cbn [forallb] in Em.
    destruct (_ && _) eqn:E in Em; [|done]. injection Em as <-.
    repeat (apply andb_true_iff in E as [E ?] || apply andb_true_iff in E as [? E]).
    zify_bools. repeat match goal with H : _ && _ = true |- _ => apply andb_true_iff in H as [? ?] end.
    repeat match goal with H : (_ =? _) = true |- _ => apply Z.eqb_eq in H end. subst.
    do 6 (apply Forall_cons in Hs as [_ Hs]). apply Forall_cons in Hs as [Hhi Hs].
    apply Forall_cons in Hs as [Hlo _]. unfold U16_MAX in *.
    assert (Hq : forall x, 0 <= x <= 65535 -> 0 <= x / 256 <= U8_MAX /\ 0 <= x mod 256 <= U8_MAX).
    { intros x Hx. pose proof (Z.mod_pos_bound x 256 ltac:(lia)). unfold U8_MAX.
      split; [|lia]. split; [apply Z.div_pos; lia|]. 
      assert (x / 256 < 256) by (apply Z.div_lt_upper_bound; lia). lia. }
    rewrite parse_ipv6_mapped by (by apply Hq).
    pose proof (Z.div_mod hi 256). pose proof (Z.div_mod lo 256). do 8 f_equal; [lia|]. f_equal. lia.
  - destruct (zero_run 0 segs (0, 0)%nat (0, 0)%nat) as [start len] eqn:Ez.
    destruct (Nat.ltb_spec 1 len) as [Hlen|]; [|by apply parse_ipv6_full].
    assert (Hz : zeros segs (start, len)).
    { rewrite <- Ez. apply (zero_run_zeros segs []); [| |by left]; intros j Hj; simpl in Hj; lia. }
    apply zeros_split in Hz as [Hb Heq]; [|lia].
    rewrite <- Heq at 3. apply parse_ipv6_compressed; [by rewrite Heq | done | |].
    + by apply Forall_take.
    + by apply Forall_drop.
Qed.

(** ** Lemmas: printed addresses as text *)

Lemma fmt_ipv6_is_ipv6 segs : length segs = 8%nat -> Forall (fun g => 0 <= g <= U16_MAX) segs ->
  is_ipv6 (fmt_ipv6 segs) = true.
Proof. intros H1 H2. unfold is_ipv6. by rewrite parse_fmt_ipv6. Qed.

Lemma be_segments_range bs : Forall (fun g => 0 <= g <= U16_MAX) (be_segments bs).
Proof.
  assert (H : forall n bs, (length bs <= n)%nat -> Forall (fun g => 0 <= g <= U16_MAX) (be_segments bs)).
  { clear. induction n as [|n IH]; intros [|a [|b bs]] Hl; simpl in *; try constructor; try lia.
    - pose proof (byte_val_range a). pose proof (byte_val_range b). unfold U16_MAX. lia.
    - apply IH. lia. }
  by eapply H.
Qed.

Lemma be_segments_length bs : length bs = 16%nat -> length (be_segments bs) = 8%nat.
Proof.
  intros H. do 16 (destruct bs as [|? bs]; [discriminate H|]). by destruct bs.
Qed.

(** A dotted quad: digits and dots. *)
Definition quad_char (c : byte) : bool := is_ascii_digit c || Ascii.eqb c "."%char.

Lemma fmt_ipv4_chars octets : Forall (fun o => 0 <= o) octets ->
  forallb quad_char (fmt_ipv4 octets) = true.
Proof.
  unfold fmt_ipv4. assert (Hd : forall n, 0 <= n -> forallb quad_char (fmt_dec n) = true).
  { intros n Hn. destruct (fmt_dec_spec n Hn) as (_ & Hd & _).
    rewrite forallb_forall in *. intros c Hc. unfold quad_char. by rewrite Hd. }
  intros H. induction H as [|o os Ho H IH]; [done|]. cbn [map join].
  destruct (map fmt_dec os) as [|x l] eqn:E; [by apply Hd|].
  rewrite !forallb_app, Hd by done. by rewrite IH.
Qed.

Lemma fmt_ipv4_nonempty o os : 0 <= o -> fmt_ipv4 (o :: os) <> [].
Proof.
  intros Ho. destruct (fmt_dec_spec o Ho) as (Hne & _). unfold fmt_ipv4. cbn [map join].
  destruct (map fmt_dec os); [done|]. by destruct (fmt_dec o).
Qed.
