(* ===== verification/Stream.v ===== *)
(** * Stream: an asynchronous byte stream and the programs over it

    A connection is what the peer will send, in the pieces in which reads return
    it, how the sending side ends, and how much the writing side accepts.  A
    program over it is a function from connections to an outcome and the
    connection it leaves, with the trace of what it did: a program that waits
    for a peer that stays silent is [Pending], which is what a deadline cuts.
    The primitives are those the program awaits: [read], [read_exact],
    [write_all], [flush]. *)
From S2P Require Import Prelude Errors.

Create HintDb stream discriminated.
#[export] Hint Constants Opaque : stream.

Module Stream.

(** How a side of the connection ends: orderly, with an error, or never. *)
Inductive ending :=
| Eof
| Fails (e : IoError)
| Silent.

(** What a program did, in order; [X] is what else it calls. *)
Inductive event (X : Type) :=
| EvRead (n : nat)
| EvWrite (bs : bytes)
| EvFlush
| EvCall (x : X).
Arguments EvRead {X} n.
Arguments EvWrite {X} bs.
Arguments EvFlush {X}.
Arguments EvCall {X} x.

(** What one read finds: at least one byte. *)
Definition chunk : Type := byte * bytes.
Definition chunk_bytes (p : chunk) : bytes := p.1 :: p.2.
Definition chunk_of (b : bytes) : list chunk := match b with [] => [] | x :: b' => [(x, b')] end.
Definition flat (cs : list chunk) : bytes := concat (map chunk_bytes cs).

Record conn (X : Type) := mkConn {
  chunks : list chunk;        (* what successive reads find *)
  inbound : ending;           (* what follows the last chunk *)
  room : option (nat * ending); (* bytes the writer still accepts, and then; [None]: all *)
  trace : list (event X) }.
Arguments mkConn {X} chunks inbound room trace.
Arguments chunks {X} c.
Arguments inbound {X} c.
Arguments room {X} c.
Arguments trace {X} c.

Definition log {X} (ev : event X) (c : conn X) : conn X :=
  mkConn (chunks c) (inbound c) (room c) (trace c ++ [ev]).
Definition with_chunks {X} (cs : list chunk) (c : conn X) : conn X :=
  mkConn cs (inbound c) (room c) (trace c).
Definition with_room {X} (r : option (nat * ending)) (c : conn X) : conn X :=
  mkConn (chunks c) (inbound c) r (trace c).

(** What the peer sends that has not been read. *)
Definition unread {X} (c : conn X) : bytes := flat (chunks c).

(** ** Programs *)

Inductive poll (A : Type) := Ready (a : A) | Pending.
Arguments Ready {A} a.
Arguments Pending {A}.

Definition M (X E A : Type) : Type := conn X -> poll (result E A) * conn X.

#[export] Instance M_ret X E : MRet (M X E) := fun A a c => (Ready (Ok a), c).
#[export] Instance M_bind X E : MBind (M X E) := fun A B f m c =>
  match m c with
  | (Ready (Ok a), c') => f a c'
  | (Ready (Err e), c') => (Ready (Err e), c')
  | (Pending, c') => (Pending, c')
  end.
Definition fail {X E A} (e : E) : M X E A := fun c => (Ready (Err e), c).
Definition pending {X E A} : M X E A := fun c => (Pending, c).

(** [?] on an [io::Error]: the error type's [From<io::Error>]. *)
Class FromIo (E : Type) := from_io_error : IoError -> E.

Section Primitives.
Context {X E : Type} `{FromIo E}.
(** tokio's error for a stream that ends inside an exact read, and the standard
    library's for a writer that accepts nothing more. *)
Variables (early_eof write_zero : IoError).

(** [stream.read(buf)] into [n] bytes of room; an empty result is end of file. *)
Definition read (n : nat) : M X E bytes := fun c =>
  let c := log (EvRead n) c in
  match chunks c with
  | p :: cs => (Ready (Ok (take n (chunk_bytes p))),
                with_chunks (chunk_of (drop n (chunk_bytes p)) ++ cs) c)
  | [] =>
      match inbound c with
      | Eof => (Ready (Ok []), c)
      | Fails e => (Ready (Err (from_io_error e)), c)
      | Silent => (Pending, c)
      end
  end.

(** [peek]: like [read], leaving the bytes unread. *)
Definition peek (n : nat) : M X E bytes := fun c =>
  match chunks c with
  | p :: _ => (Ready (Ok (take n (chunk_bytes p))), log (EvRead n) c)
  | [] =>
      match inbound c with
      | Eof => (Ready (Ok []), log (EvRead n) c)
      | Fails e => (Ready (Err (from_io_error e)), log (EvRead n) c)
      | Silent => (Pending, log (EvRead n) c)
      end
  end.

(** The first [n] bytes across chunks, all of them when there are fewer; whether
    there were enough, and the chunks left. *)
Fixpoint take_chunks (n : nat) (cs : list chunk) : bool * bytes * list chunk :=
  match n, cs with
  | O, _ => (true, [], cs)
  | _, [] => (false, [], [])
  | _, p :: cs' =>
      let b := chunk_bytes p in
      if (length b <=? n)%nat then
        let '(ok, bs, rest) := take_chunks (n - length b) cs' in (ok, b ++ bs, rest)
      else (true, take n b, chunk_of (drop n b) ++ cs')
  end.

(** [stream.read_exact(buf)] of [n] bytes; what was read is lost when they end early. *)
Definition read_exact (n : nat) : M X E bytes := fun c =>
  let c := log (EvRead n) c in
  let '(ok, bs, rest) := take_chunks n (chunks c) in
  let c := with_chunks rest c in
  if ok then (Ready (Ok bs), c)
  else match inbound c with
       | Eof => (Ready (Err (from_io_error early_eof)), c)
       | Fails e => (Ready (Err (from_io_error e)), c)
       | Silent => (Pending, c)
       end.

Definition read_u8 : M X E Z :=
  bs ← read_exact 1; mret (match bs with b :: _ => byte_val b | [] => 0 end).
(** Big-endian. *)
Definition read_u16 : M X E Z :=
  bs ← read_exact 2;
  mret (match bs with a :: b :: _ => byte_val a * 256 + byte_val b | _ => 0 end).

Definition write_all (bs : bytes) : M X E unit := fun c =>
  match room c with
  | None => (Ready (Ok tt), log (EvWrite bs) c)
  | Some (n, e) =>
      if (length bs <=? n)%nat
      then (Ready (Ok tt), log (EvWrite bs) (with_room (Some ((n - length bs)%nat, e)) c))
      else
        let c := log (EvWrite (take n bs)) (with_room (Some (0%nat, e)) c) in
        match e with
        | Eof => (Ready (Err (from_io_error write_zero)), c)
        | Fails e => (Ready (Err (from_io_error e)), c)
        | Silent => (Pending, c)
        end
  end.

(** A writer that has stopped accepting bytes does not flush either. *)
Definition flush : M X E unit := fun c =>
  match room c with
  | Some (O, Fails e) => (Ready (Err (from_io_error e)), c)
  | Some (O, Silent) => (Pending, c)
  | _ => (Ready (Ok tt), log EvFlush c)
  end.

(** Awaiting something other than the stream: [None] when it does not finish. *)
Definition call {A} (x : X) (answer : option A) : M X E A := fun c =>
  match answer with
  | Some a => (Ready (Ok a), log (EvCall x) c)
  | None => (Pending, log (EvCall x) c)
  end.

(** ** Lemmas: reading depends only on the bytes, not on how they arrive *)

Lemma flat_app cs ds : flat (cs ++ ds) = flat cs ++ flat ds.
Proof. unfold flat. by rewrite map_app, concat_app. Qed.

Lemma flat_chunk_of b : flat (chunk_of b) = b.
Proof. destruct b; [done|]. unfold flat. simpl. by rewrite app_nil_r. Qed.

Lemma take_chunks_spec cs : forall n,
  exists rest, take_chunks n cs = (bool_decide (n <= length (flat cs))%nat, take n (flat cs), rest)
    /\ flat rest = drop n (flat cs).
Proof.
  induction cs as [|p cs IH]; intros [|n]; try by eexists.
  cbn [take_chunks]. change (flat (p :: cs)) with (chunk_bytes p ++ flat cs).
  generalize (chunk_bytes p). intros b.
  destruct (Nat.leb_spec (length b) (S n)) as [Hl|Hl].
  - destruct (IH (S n - length b)%nat) as (rest & -> & Hr). exists rest.
    rewrite take_app_ge, drop_app_ge by lia. split; [|done]. do 2 f_equal.
    apply bool_decide_ext. rewrite length_app. lia.
  - eexists. rewrite bool_decide_eq_true_2 by (rewrite length_app; lia).
    rewrite take_app_le, drop_app_le by lia. split; [done|]. by rewrite flat_app, flat_chunk_of.
Qed.

(** [read_exact] as a function of the unread bytes. *)
Lemma read_exact_enough n (c : conn X) : (n <= length (unread c))%nat ->
  exists cs, flat cs = drop n (unread c) /\
    read_exact n c = (Ready (Ok (take n (unread c))), with_chunks cs (log (EvRead n) c)).
Proof.
  intros Hn. destruct (take_chunks_spec (chunks c) n) as (cs & Heq & Hf). exists cs.
  split; [done|]. unfold read_exact. cbn [chunks log]. rewrite Heq.
  by rewrite bool_decide_eq_true_2.
Qed.

Lemma read_exact_Ok n (c c' : conn X) bs : read_exact n c = (Ready (Ok bs), c') ->
  length bs = n /\ unread c = bs ++ unread c' /\ inbound c' = inbound c /\ room c' = room c /\
  trace c' = trace c ++ [EvRead n].
Proof.
  unfold read_exact. cbn [chunks log].
  destruct (take_chunks_spec (chunks c) n) as (cs & -> & Hf).
  case_bool_decide as Hn; [|cbn; by destruct (inbound c)].
  intros [= <- <-]. unfold unread. cbn [chunks with_chunks log trace inbound room]. rewrite Hf, take_drop, length_take. unfold unread in Hn.
  split_and!; try done. lia.
Qed.

(** A [read] with room finds a non-empty piece of what is unread. *)
Lemma read_some n (c : conn X) : (0 < n)%nat -> unread c <> [] ->
  exists bs c', read n c = (Ready (Ok bs), c') /\ unread c = bs ++ unread c' /\
    (0 < length bs <= n)%nat /\ inbound c' = inbound c /\ room c' = room c /\
    trace c' = trace c ++ [EvRead n].
Proof.
  intros Hn Hu. unfold read, unread in *. cbn [chunks log].
  destruct (chunks c) as [|p cs]; [done|].
  eexists _, _. split; [done|]. cbn [chunks with_chunks log inbound room trace].
  rewrite flat_app, flat_chunk_of, app_assoc, take_drop.
  split_and!; try done; rewrite length_take; simpl; lia.
Qed.

Lemma peek_some n (c : conn X) : (0 < n)%nat -> unread c <> [] ->
  exists bs rest, peek n c = (Ready (Ok bs), log (EvRead n) c) /\ unread c = bs ++ rest /\
    (0 < length bs <= n)%nat.
Proof.
  intros Hn Hu. unfold peek, unread in *. destruct (chunks c) as [|p cs]; [done|].
  eexists _, (drop n (chunk_bytes p) ++ flat cs). split; [done|].
  rewrite app_assoc, take_drop. split; [done|]. rewrite length_take. simpl. lia.
Qed.

Lemma peek_none n (c : conn X) : unread c = [] ->
  peek n c = (match inbound c with
              | Eof => Ready (Ok [])
              | Fails e => Ready (Err (from_io_error e))
              | Silent => Pending
              end, log (EvRead n) c).
Proof.
  unfold peek, unread. destruct (chunks c) as [|p cs]; [by destruct (inbound c)|done].
Qed.

Lemma read_none n (c : conn X) : unread c = [] ->
  read n c = (match inbound c with
              | Eof => Ready (Ok [])
              | Fails e => Ready (Err (from_io_error e))
              | Silent => Pending
              end, log (EvRead n) c).
Proof.
  unfold read, unread. cbn [chunks log inbound].
  destruct (chunks c) as [|p cs]; [by destruct (inbound c)|done].
Qed.

End Primitives.

(** ** Lemmas: sequencing *)

Section Sequencing.
Context {X E : Type}.

Lemma bind_Ok {A B} (m : M X E A) (f : A -> M X E B) c b c' :
  (m ≫= f) c = (Ready (Ok b), c') <->
  exists a c1, m c = (Ready (Ok a), c1) /\ f a c1 = (Ready (Ok b), c').
Proof.
  unfold mbind, M_bind. destruct (m c) as [[[a|e]|] c1]; naive_solver.
Qed.

Lemma bind_step {A B} (m : M X E A) (f : A -> M X E B) c a c1 :
  m c = (Ready (Ok a), c1) -> (m ≫= f) c = f a c1.
Proof. unfold mbind, M_bind. by intros ->. Qed.

(** What left the program: its trace without the reads. *)
Definition is_output (ev : event X) : bool := match ev with EvRead _ => false | _ => true end.
Definition outputs (c : conn X) : list (event X) := List.filter is_output (trace c).

(** Connections that differ in how the bytes arrive, not in the bytes. *)
Definition same_peer (c1 c2 : conn X) : Prop :=
  inbound c1 = inbound c2 /\ room c1 = room c2 /\ outputs c1 = outputs c2.
Definition same_stream (c1 c2 : conn X) : Prop := unread c1 = unread c2 /\ same_peer c1 c2.

#[export] Instance same_peer_equiv : Equivalence same_peer.
Proof. split; unfold same_peer; red; naive_solver congruence. Qed.
#[export] Instance same_stream_equiv : Equivalence same_stream.
Proof. split; unfold same_stream, same_peer; red; naive_solver congruence. Qed.

(** A program that cannot tell two such connections apart. *)
Definition chunk_blind {A} (m : M X E A) : Prop := forall c1 c2, same_stream c1 c2 ->
  (m c1).1 = (m c2).1 /\ same_stream (m c1).2 (m c2).2.

(** A program that does not look at what the peer sends. *)
Definition quiet {A} (m : M X E A) : Prop := forall c1 c2, same_peer c1 c2 ->
  (m c1).1 = (m c2).1 /\ same_peer (m c1).2 (m c2).2 /\
  unread (m c1).2 = unread c1 /\ unread (m c2).2 = unread c2.

Lemma quiet_blind {A} (m : M X E A) : quiet m -> chunk_blind m.
Proof. intros Hm c1 c2 [Hu Hp]. destruct (Hm c1 c2 Hp) as (? & ? & H1 & H2). split; [done|].
  split; [by rewrite H1, H2 | done].
Qed.

Lemma quiet_ret {A} (a : A) : quiet (mret a : M X E A).
Proof. by intros c1 c2 H. Qed.
Lemma quiet_fail {A} (e : E) : quiet (fail e : M X E A).
Proof. by intros c1 c2 H. Qed.
Lemma quiet_pending {A} : quiet (pending : M X E A).
Proof. by intros c1 c2 H. Qed.

Lemma quiet_bind {A B} (m : M X E A) (f : A -> M X E B) :
  quiet m -> (forall a, quiet (f a)) -> quiet (m ≫= f).
Proof.
  intros Hm Hf c1 c2 H. unfold mbind, M_bind. destruct (Hm c1 c2 H) as (Heq & Hp & H1 & H2).
  destruct (m c1) as [r1 c1'], (m c2) as [r2 c2']. cbn [fst snd] in *. subst r2.
  destruct r1 as [[a|e]|]; [|done..]. destruct (Hf a c1' c2' Hp) as (? & ? & H3 & H4).
  by rewrite H3, H4.
Qed.

Lemma blind_bind {A B} (m : M X E A) (f : A -> M X E B) :
  chunk_blind m -> (forall a, chunk_blind (f a)) -> chunk_blind (m ≫= f).
Proof.
  intros Hm Hf c1 c2 H. unfold mbind, M_bind. destruct (Hm c1 c2 H) as (Heq & Hp).
  destruct (m c1) as [r1 c1'], (m c2) as [r2 c2']. cbn [fst snd] in *. subst r2.
  destruct r1 as [[a|e]|]; [|done..]. by apply Hf.
Qed.

Lemma same_peer_log ev c1 c2 : same_peer c1 c2 -> same_peer (log ev c1) (log ev c2).
Proof.
  intros (? & ? & Ho). split_and!; [done..|]. unfold outputs. cbn [log trace].
  rewrite !List.filter_app. unfold outputs in Ho. by rewrite Ho.
Qed.

Lemma quiet_call {A} x (a : option A) : quiet (call x a : M X E A).
Proof. intros c1 c2 H. unfold call. destruct a; (split_and!; [done | by apply same_peer_log | done..]). Qed.

Context `{FromIo E}.

Lemma quiet_write wz bs : quiet (write_all wz bs : M X E unit).
Proof.
  intros c1 c2 Hs. pose proof Hs as (_ & Hr & _). unfold write_all. rewrite <- Hr.
  assert (Hlog : forall bs r, same_peer (log (EvWrite bs) (with_room r c1)) (log (EvWrite bs) (with_room r c2))).
  { intros. apply same_peer_log. by destruct Hs as (? & _ & ?). }
  destruct (room c1) as [[n e]|]; [|by split_and!; [done | apply same_peer_log | ..]].
  destruct (_ <=? n)%nat; [by split_and!; [done | apply Hlog | ..]|].
  destruct e; (split_and!; [done | apply Hlog | done..]).
Qed.

Lemma quiet_flush : quiet (flush : M X E unit).
Proof.
  intros c1 c2 Hs. pose proof Hs as (_ & Hr & _). unfold flush. rewrite <- Hr.
  destruct (room c1) as [[[|n] []]|]; split_and!; try done; by apply same_peer_log.
Qed.

Lemma outputs_read n (c : conn X) : outputs (log (EvRead n) c) = outputs c.
Proof. unfold outputs. cbn [log trace]. rewrite List.filter_app. apply app_nil_r. Qed.

Lemma blind_read_exact ee n : chunk_blind (read_exact ee n : M X E bytes).
Proof.
  intros c1 c2 [Hu (Hi & Hr & Ho)]. unfold read_exact. cbn [log chunks].
  destruct (take_chunks_spec (chunks c1) n) as (cs1 & -> & H1).
  destruct (take_chunks_spec (chunks c2) n) as (cs2 & -> & H2).
  unfold unread in Hu. rewrite Hu in *.
  assert (Hs : same_stream (with_chunks cs1 (log (EvRead n) c1)) (with_chunks cs2 (log (EvRead n) c2))).
  { split; [unfold unread; cbn [with_chunks chunks]; congruence|]. split_and!; [done..|].
    etrans; [apply (outputs_read n c1)|]. etrans; [exact Ho|]. symmetry. apply outputs_read. }
  case_bool_decide; [done|]. cbn [inbound with_chunks log]. rewrite <- Hi. by destruct (inbound c1).
Qed.

(** Reading into a one-byte buffer finds the next byte. *)
Lemma blind_read_one : chunk_blind (read 1 : M X E bytes).
Proof.
  intros c1 c2 [Hu (Hi & Hr & Ho)].
  assert (Hlog : same_peer (log (EvRead 1) c1) (log (EvRead 1) c2)).
  { split_and!; [done..|]. by rewrite !outputs_read. }
  destruct (decide (unread c1 = [])) as [Hn|Hn].
  - rewrite !read_none by congruence. rewrite <- Hi. by split; [destruct (inbound c1)|].
  - destruct (read_some 1 c1 ltac:(lia) Hn) as (b1 & c1' & -> & Hb1 & Hl1 & Hi1 & Hr1 & Ht1).
    destruct (read_some 1 c2 ltac:(lia) ltac:(congruence)) as (b2 & c2' & -> & Hb2 & Hl2 & Hi2 & Hr2 & Ht2).
    cbn [fst snd].
    assert (Hb : b1 = b2 /\ unread c1' = unread c2').
    { apply app_inj_1; [lia | congruence]. }
    destruct Hb as [-> Hu']. split; [done|]. split; [done|]. split_and!; [congruence..|].
    unfold outputs. rewrite Ht1, Ht2, !List.filter_app. by f_equal.
Qed.

(** ** Calls *)

Definition calls (c : conn X) : list X :=
  omap (fun ev => match ev with EvCall x => Some x | _ => None end) (trace c).

(** A program that calls nothing. *)
Definition no_calls {A} (m : M X E A) : Prop := forall c, calls (m c).2 = calls c.

Lemma calls_log ev (c : conn X) :
  calls (log ev c) = calls c ++ match ev with EvCall x => [x] | _ => [] end.
Proof. unfold calls. cbn [log trace]. rewrite omap_app. by destruct ev. Qed.

Lemma no_calls_ret {A} (a : A) : no_calls (mret a : M X E A).
Proof. done. Qed.
Lemma no_calls_fail {A} (e : E) : no_calls (fail e : M X E A).
Proof. done. Qed.
Lemma no_calls_pending {A} : no_calls (pending : M X E A).
Proof. done. Qed.
Lemma no_calls_bind {A B} (m : M X E A) (f : A -> M X E B) :
  no_calls m -> (forall a, no_calls (f a)) -> no_calls (m ≫= f).
Proof.
  intros Hm Hf c. unfold mbind, M_bind. specialize (Hm c).
  destruct (m c) as [[[a|e]|] c']; [by rewrite Hf | done..].
Qed.

Lemma no_calls_read n : no_calls (read n : M X E bytes).
Proof.
  intros c. unfold read. cbn [log chunks inbound].
  transitivity (calls (log (EvRead n) c)); [|by rewrite calls_log, app_nil_r].
  by destruct (chunks c); [destruct (inbound c)|].
Qed.
Lemma no_calls_read_exact ee n : no_calls (read_exact ee n : M X E bytes).
Proof.
  intros c. unfold read_exact. cbn [log chunks].
  transitivity (calls (log (EvRead n) c)); [|by rewrite calls_log, app_nil_r].
  destruct (take_chunks n (chunks c)) as [[[] bs] rest]; [done|]. by destruct (inbound _).
Qed.
Lemma no_calls_write wz bs : no_calls (write_all wz bs : M X E unit).
Proof.
  intros c. unfold write_all. destruct (room c) as [[n e]|]; [|by cbn [snd]; rewrite calls_log, app_nil_r].
  destruct (_ <=? n)%nat; [by cbn [snd]; rewrite calls_log, app_nil_r|].
  destruct e; cbn [snd]; by rewrite calls_log, app_nil_r.
Qed.
Lemma no_calls_flush : no_calls (flush : M X E unit).
Proof.
  intros c. unfold flush. destruct (room c) as [[[|n] []]|]; cbn [snd]; try done;
    by rewrite calls_log, app_nil_r.
Qed.

Lemma call_Ok {A} x (o : option A) c a c' : (call x o : M X E A) c = (Ready (Ok a), c') ->
  o = Some a /\ calls c' = calls c ++ [x].
Proof. unfold call. destruct o; intros [= <- <-]; by rewrite calls_log. Qed.

Lemma no_calls_run {A} (m : M X E A) c r c' : no_calls m -> m c = (r, c') -> calls c' = calls c.
Proof. intros Hm Hr. specialize (Hm c). by rewrite Hr in Hm. Qed.

End Sequencing.

(** ** Replies: what is written, and that it is flushed *)

Section Polite.
Context {X E : Type} `{FromIo E}.
Variables (W : bytes -> Prop) (cut : E -> bool).

(** Whether bytes are written but not flushed after the events; [None] when the
    program read, or called, before flushing what it had written. *)
Fixpoint settled (dirty : bool) (evs : list (event X)) : option bool :=
  match evs with
  | [] => Some dirty
  | EvWrite _ :: evs => settled true evs
  | EvFlush :: evs => settled false evs
  | (EvRead _ | EvCall _) :: evs => if dirty then None else settled false evs
  end.

(** A write is one of the allowed ones, or the part of it the peer took. *)
Definition allowed (ev : event X) : Prop :=
  match ev with EvWrite bs => exists rest, W (bs ++ rest) | _ => True end.

(** Every write is allowed and flushed before the next read, call or return; only a
    stream that broke off ([cut]) or never answered is left unflushed. *)
Definition polite_run {A} (r : poll (result E A)) (before after : list (event X)) : Prop :=
  exists evs d, after = before ++ evs /\ Forall allowed evs /\ settled false evs = Some d /\
    (d = true -> match r with Ready (Ok _) => False | Ready (Err e) => cut e = true | Pending => True end).
Definition polite {A} (m : M X E A) : Prop := forall c, polite_run (m c).1 (trace c) (trace (m c).2).

Lemma settled_app evs evs' d : settled d (evs ++ evs') = settled d evs ≫= fun d' => settled d' evs'.
Proof.
  revert d. induction evs as [|[n|bs| |x] evs IH]; intros d; cbn [settled app]; try apply IH; [done|..];
    by destruct d.
Qed.

Lemma polite_ret {A} (a : A) : polite (mret a : M X E A).
Proof. intros c. exists [], false. by rewrite app_nil_r. Qed.
Lemma polite_fail {A} (e : E) : polite (fail e : M X E A).
Proof. intros c. exists [], false. by rewrite app_nil_r. Qed.
Lemma polite_pending {A} : polite (pending : M X E A).
Proof. intros c. exists [], false. by rewrite app_nil_r. Qed.

Lemma polite_bind {A B} (m : M X E A) (f : A -> M X E B) : polite m ->
  (forall c a c', m c = (Ready (Ok a), c') -> polite (f a)) -> polite (m ≫= f).
Proof.
  intros Hm Hf c. unfold mbind, M_bind. specialize (Hm c). specialize (Hf c).
  destruct (m c) as [[[a|e]|] c1]; cbn [fst snd] in *; [|exact Hm..].
  destruct Hm as (evs & [] & Ht & Ha & Hs & Hd); [by destruct (Hd eq_refl)|].
  destruct (Hf a c1 eq_refl c1) as (evs' & d' & Ht' & Ha' & Hs' & Hd').
  exists (evs ++ evs'), d'. rewrite Ht', Ht, app_assoc, Forall_app, settled_app, Hs. done.
Qed.

Lemma polite_read n : polite (read n : M X E bytes).
Proof.
  intros c. exists [EvRead n], false. split_and!; try done; [|by constructor].
  unfold read. cbn [log chunks inbound]. destruct (chunks c); [by destruct (inbound c)|done].
Qed.
Lemma polite_read_exact ee n : polite (read_exact ee n : M X E bytes).
Proof.
  intros c. exists [EvRead n], false. split_and!; try done; [|by constructor].
  unfold read_exact. cbn [log chunks]. destruct (take_chunks n (chunks c)) as [[[] bs] rest]; [done|].
  by destruct (inbound _).
Qed.
Lemma polite_call {A} x (o : option A) : polite (call x o : M X E A).
Proof. intros c. exists [EvCall x], false. unfold call. split_and!; try done; [by destruct o | by constructor]. Qed.

Hypothesis io_cuts : forall e, cut (from_io_error e) = true.

Lemma polite_send wz bs : W bs -> polite (_ ← write_all wz bs; flush : M X E unit).
Proof.
  intros HW c. unfold mbind, M_bind, write_all.
  assert (Hfull : exists rest, W (bs ++ rest)) by (exists []; by rewrite app_nil_r).
  assert (Hflush : forall c1, trace c1 = trace c ++ [EvWrite bs] ->
            polite_run (flush (E := E) c1).1 (trace c) (trace (flush (E := E) c1).2)).
  { intros c1 Ht. unfold flush.
    assert (Hok : polite_run (A := unit) (Ready (Ok tt)) (trace c) (trace (log EvFlush c1))).
    { exists [EvWrite bs; EvFlush], false. cbn [log trace]. rewrite Ht, <- app_assoc.
      split_and!; [done | by repeat constructor | done..]. }
    assert (Hcut : forall r : poll (result E unit),
      match r with Ready (Ok _) => False | Ready (Err e) => cut e = true | Pending => True end ->
      polite_run r (trace c) (trace c1)).
    { intros r Hr. exists [EvWrite bs], true. split_and!; [done | by repeat constructor | done..]. }
    destruct (room c1) as [[[|n] []]|]; try exact Hok; apply Hcut; [apply io_cuts | done]. }
  destruct (room c) as [[n e]|]; [|by apply Hflush].
  destruct (_ <=? n)%nat; [by apply Hflush|].
  assert (Hpart : forall r : poll (result E unit),
    match r with Ready (Ok _) => False | Ready (Err e) => cut e = true | Pending => True end ->
    polite_run r (trace c) (trace (log (EvWrite (take n bs)) (with_room (Some (0%nat, e)) c)))).
  { intros r Hr. exists [EvWrite (take n bs)], true. split_and!; [done | | done..].
    repeat constructor. exists (drop n bs). by rewrite take_drop. }
  destruct e; apply Hpart; [apply io_cuts.. | done].
Qed.

End Polite.

(** Decide [quiet] and [chunk_blind] by walking through a program's text. *)
Ltac solve_quiet :=
  repeat first
    [ solve [eauto with stream nocore]
    | apply quiet_bind; [|intros ?]
    | apply quiet_ret | apply quiet_fail | apply quiet_pending | apply quiet_call
    | apply quiet_write | apply quiet_flush
    | match goal with |- quiet (match ?x with _ => _ end) => destruct x end ].
Ltac solve_blind :=
  repeat first
    [ solve [eauto with stream nocore]
    | apply blind_bind; [|intros ?]
    | apply blind_read_exact | apply blind_read_one
    | apply quiet_blind; solve [solve_quiet]
    | match goal with |- chunk_blind (match ?x with _ => _ end) => destruct x end ].

Ltac solve_no_calls :=
  repeat first
    [ solve [eauto with stream nocore]
    | apply no_calls_bind; [|intros ?]
    | apply no_calls_ret | apply no_calls_fail | apply no_calls_pending
    | apply no_calls_read | apply no_calls_read_exact | apply no_calls_write | apply no_calls_flush
    | match goal with |- no_calls (match ?x with _ => _ end) => destruct x end ].

Ltac solve_polite :=
  repeat first
    [ solve [eauto with stream nocore]
    | apply polite_bind; [|intros ? ? ? ?]
    | apply polite_ret | apply polite_fail | apply polite_pending
    | apply polite_read | apply polite_read_exact | apply polite_call
    | match goal with |- polite _ _ (match ?x with _ => _ end) => destruct x end ].

End Stream.
