(* ===== verification/StrictHttp.v ===== *)
(** * StrictHttp: the opt-in RFC 9112 validation of a CONNECT request

    Model of [server/strict_http.rs], over the request line and header lines the
    server has already split. *)
From S2P Require Import Prelude Text TextFmt HostPort.

Module StrictHttp.

(** The fixed reasons, one per [bad("...")]. *)
Inductive Reason :=
| MalformedRequestLine | MalformedVersion | BareIpv6Authority | BracketedNotIpv6
| MissingPort | EmptyAuthorityHost | InvalidAuthorityHost | InvalidAuthorityPort
| LineFolding | MissingColon | EmptyFieldName | SpaceBeforeColon | InvalidFieldName
| InvalidFieldValue | MissingHost | DuplicateHost | EmptyHost | InvalidHost
| DuplicateProxyAuthorization.

Definition reason_text (r : Reason) : bytes :=
  match r with
  | MalformedRequestLine => lit "strict HTTP: malformed request line"
  | MalformedVersion => lit "strict HTTP: malformed HTTP-version"
  | BareIpv6Authority => lit "strict HTTP: bare IPv6 authority"
  | BracketedNotIpv6 => lit "strict HTTP: bracketed authority is not an IPv6 address"
  | MissingPort => lit "strict HTTP: authority is missing a port"
  | EmptyAuthorityHost => lit "strict HTTP: authority host is empty"
  | InvalidAuthorityHost => lit "strict HTTP: invalid authority host"
  | InvalidAuthorityPort => lit "strict HTTP: invalid authority port"
  | LineFolding => lit "strict HTTP: obsolete line folding"
  | MissingColon => lit "strict HTTP: header line is missing a colon"
  | EmptyFieldName => lit "strict HTTP: empty header field name"
  | SpaceBeforeColon => lit "strict HTTP: whitespace before header colon"
  | InvalidFieldName => lit "strict HTTP: invalid header field name"
  | InvalidFieldValue => lit "strict HTTP: invalid header field value"
  | MissingHost => lit "strict HTTP: missing Host header"
  | DuplicateHost => lit "strict HTTP: duplicate Host header"
  | EmptyHost => lit "strict HTTP: empty Host header"
  | InvalidHost => lit "strict HTTP: invalid Host header"
  | DuplicateProxyAuthorization => lit "strict HTTP: duplicate Proxy-Authorization header"
  end.

Inductive StrictViolation := Bad (reason : Reason) | Unsupported.

#[export] Instance Reason_eq_dec : EqDecision Reason.
Proof. solve_decision. Defined.
#[export] Instance StrictViolation_eq_dec : EqDecision StrictViolation.
Proof. solve_decision. Defined.

Definition is_tchar (b : byte) : bool :=
  is_ascii_alphanumeric b || contains b (lit "!#$%&'*+-.^_`|~").

Definition is_authority_host_byte (b : byte) : bool :=
  is_ascii_alphanumeric b || contains b (lit "-._~!$&'()*+,;=").

(** The index loop; a [%] needs two more bytes. *)
Fixpoint valid_authority_host (s : bytes) : bool :=
  match s with
  | [] => true
  | c :: s1 =>
      if Ascii.eqb c "%"%char then
        match s1 with
        | a :: b :: s2 => is_ascii_hexdigit a && is_ascii_hexdigit b && valid_authority_host s2
        | _ => false
        end
      else is_authority_host_byte c && valid_authority_host s1
  end.

Definition valid_port_digits (port : bytes) : bool :=
  negb (bool_decide (port = [])) && (length port <=? 5)%nat && forallb is_ascii_digit port.

Definition valid_host_value (value : bytes) : bool :=
  match strip_prefix1 "["%char value with
  | Some rest =>
      match split_once "]"%char rest with
      | None => false
      | Some (inside, after) =>
          if negb (is_ipv6 inside) then false
          else match strip_prefix1 ":"%char after with
               | Some port => valid_port_digits port
               | None => bool_decide (after = [])
               end
      end
  | None =>
      match split_once ":"%char value with
      | Some (host, port) =>
          negb (bool_decide (host = [])) && valid_authority_host host && valid_port_digits port
      | None => negb (bool_decide (value = [])) && valid_authority_host value
      end
  end.

(** The request line's three parts. *)
Definition part_ok (part : bytes) : bool :=
  negb (bool_decide (part = [])) && forallb (fun b => negb (Ascii.eqb b HTAB || is_ascii_control b)) part.

Definition split_request_line (request_line : bytes) : result StrictViolation (bytes * bytes) :=
  match split_all SP request_line with
  | [method; target; version] =>
      if part_ok method && part_ok target && part_ok version then Ok (target, version)
      else Err (Bad MalformedRequestLine)
  | _ => Err (Bad MalformedRequestLine)
  end.

Definition version_shape (version : bytes) : bool :=
  match version with
  | [_; _; _; _; _; major; dot; minor] =>
      starts_with (lit "HTTP/") version && is_ascii_digit major && Ascii.eqb dot "."%char
      && is_ascii_digit minor
  | _ => false
  end.

Definition check_version (version : bytes) : result StrictViolation unit :=
  if negb (version_shape version) then Err (Bad MalformedVersion)
  else if negb (bool_decide (version = lit "HTTP/1.0"))
          && negb (bool_decide (version = lit "HTTP/1.1"))
  then Err Unsupported else Ok tt.

(** The port text of a CONNECT authority. *)
Definition authority_port (target : bytes) : result StrictViolation bytes :=
  match strip_prefix1 "["%char target with
  | Some rest =>
      '(inside, after) ← ok_or (Bad BareIpv6Authority) (split_once "]"%char rest);
      if negb (is_ipv6 inside) then Err (Bad BracketedNotIpv6)
      else ok_or (Bad MissingPort) (strip_prefix1 ":"%char after)
  | None =>
      '(h, port) ← ok_or (Bad MissingPort) (rsplit_once ":"%char target);
      if bool_decide (h = []) then Err (Bad EmptyAuthorityHost)
      else if contains ":"%char h then Err (Bad BareIpv6Authority)
      else if negb (valid_authority_host h) then Err (Bad InvalidAuthorityHost)
      else Ok port
  end.

Definition check_port (port_text : bytes) : result StrictViolation unit :=
  if bool_decide (port_text = []) || (5 <? length port_text)%nat
     || negb (forallb is_ascii_digit port_text)
  then Err (Bad InvalidAuthorityPort)
  else match parse_u32 port_text with
       | None => Err (Bad InvalidAuthorityPort)
       | Some port => if (1 <=? port) && (port <=? 65535) then Ok tt
                      else Err (Bad InvalidAuthorityPort)
       end.

(** What the header loop counts. *)
Record Seen := mkSeen {
  host_count : Z;
  host_value_empty : bool;
  host_value : option bytes;
  proxy_auth_count : Z }.

Definition first_is (p : byte -> bool) (s : bytes) : bool :=
  match s with c :: _ => p c | [] => false end.
Definition is_sp_tab (b : byte) : bool := Ascii.eqb b SP || Ascii.eqb b HTAB.

(** A header line's name and value. *)
Definition split_header (line : bytes) : result StrictViolation (bytes * bytes) :=
  if first_is is_sp_tab line then Err (Bad LineFolding)
  else match position ":"%char line with
  | None => Err (Bad MissingColon)
  | Some colon =>
      let name := take colon line in
      let value := drop (colon + 1) line in
      if bool_decide (name = []) then Err (Bad EmptyFieldName)
      else if (match last name with Some b => is_sp_tab b | None => false end)
      then Err (Bad SpaceBeforeColon)
      else if negb (forallb is_tchar name) then Err (Bad InvalidFieldName)
      else if existsb (fun b => ((byte_val b <? 32) && negb (Ascii.eqb b HTAB))
                                || (byte_val b =? 127)) value
      then Err (Bad InvalidFieldValue)
      else Ok (name, value)
  end.

Definition count_header (name value : bytes) (s : Seen) : Seen :=
  let lower := to_ascii_lowercase name in
  if bool_decide (lower = lit "host") then
    mkSeen (host_count s + 1) (bool_decide (trim_ascii value = [])) (Some (trim_ascii value))
           (proxy_auth_count s)
  else if bool_decide (lower = lit "proxy-authorization") then
    mkSeen (host_count s) (host_value_empty s) (host_value s) (proxy_auth_count s + 1)
  else s.

Fixpoint scan_headers (headers : list bytes) (s : Seen) : result StrictViolation Seen :=
  match headers with
  | [] => Ok s
  | line :: headers' =>
      '(name, value) ← split_header line;
      scan_headers headers' (count_header name value s)
  end.

Definition check_seen (version : bytes) (s : Seen) : result StrictViolation unit :=
  if bool_decide (version = lit "HTTP/1.1") && (host_count s =? 0) then Err (Bad MissingHost)
  else if 1 <? host_count s then Err (Bad DuplicateHost)
  else if host_value_empty s then Err (Bad EmptyHost)
  else if (match host_value s with
           | Some host => negb (match from_utf8 host with
                                | Some v => valid_host_value v
                                | None => false
                                end)
           | None => false
           end) then Err (Bad InvalidHost)
  else if 1 <? proxy_auth_count s then Err (Bad DuplicateProxyAuthorization)
  else Ok tt.

Definition validate (request_line : bytes) (headers : list bytes) : result StrictViolation unit :=
  '(target, version) ← split_request_line request_line;
  _ ← check_version version;
  port_text ← authority_port target;
  _ ← check_port port_text;
  s ← scan_headers headers (mkSeen 0 false None 0);
  check_seen version s.

Example validate_ok :
  validate (lit "CONNECT a%2eb:443 HTTP/1.1") [lit "Host: a.b:443"; lit "X:"] = Ok tt.
Proof. reflexivity. Qed.
Example validate_errors :
  map (fun '(l, h) => validate (lit l) (map lit h))
    [("CONNECT a:1 HTTP/2.0", []); ("CONNECT a:1 HTTP/1.1", []); ("CONNECT a:0 HTTP/1.0", []);
     ("CONNECT a:1 HTTP/1.0", ["A: b"; " c"]); ("CONNECT ::1:1 HTTP/1.0", []);
     ("CONNECT a:1  HTTP/1.0", []); ("CONNECT a:1 HTTP/1.1", ["Host: a"; "HOST: a"])]
  = [Err Unsupported; Err (Bad MissingHost); Err (Bad InvalidAuthorityPort);
     Err (Bad LineFolding); Err (Bad BareIpv6Authority); Err (Bad MalformedRequestLine);
     Err (Bad DuplicateHost)].
Proof. reflexivity. Qed.

(** ** Lemmas: what validation establishes *)

Lemma parse_digits_narrow max m s : forall acc n, 0 <= acc ->
  parse_digits max acc s = Some n -> n <= m -> acc <= n /\ parse_digits m acc s = Some n.
Proof.
  induction s as [|c s IH]; intros acc n Ha; simpl; [intros [= <-]; done|].
  destruct (is_ascii_digit c) eqn:Ed; [|done]. apply is_ascii_digit_spec in Ed.
  destruct (_ <=? max); [|done]. intros Hp Hn. unfold digit_val in *.
  destruct (IH (acc * 10 + (byte_val c - 48)) n ltac:(lia) Hp Hn) as [Hle Heq].
  rewrite (proj2 (Z.leb_le _ _)) by lia. split; [lia | done].
Qed.

(** A number read within a wider type is read the same within a narrower one it fits. *)
Lemma parse_unsigned_narrow max m s n :
  parse_unsigned max s = Some n -> n <= m -> parse_unsigned m s = Some n.
Proof.
  unfold parse_unsigned. destruct s as [|c s]; [done|].
  destruct (Ascii.eqb c "+"); [destruct s; [done|]|];
    intros H Hn; by eapply parse_digits_narrow in H as [_ H].
Qed.

Lemma split_all_cons c s a l : split_all c s = a :: l ->
  (l = [] -> split_once c s = None /\ a = s) /\
  (l <> [] -> exists r, split_once c s = Some (a, r) /\ split_all c r = l).
Proof.
  revert a l. induction s as [|x s IH]; intros a l; simpl; [intros [= <- <-]; done|].
  destruct (Ascii.eqb x c).
  - intros [= <- <-]. split; [intros Hn; by destruct s; simpl in Hn;
      [|destruct (Ascii.eqb a c); [|destruct (split_all c s)]] | intros _; by eexists].
  - destruct (split_all c s) as [|w ws] eqn:E.
    + exfalso. clear IH. destruct s; simpl in E; [done|].
      destruct (Ascii.eqb a0 c); [done|]. by destruct (split_all c s).
    + intros [= <- <-]. destruct (IH w ws eq_refl) as [H1 H2]. split.
      * intros ->. destruct (H1 eq_refl) as [-> ->]. done.
      * intros Hne. destruct (H2 Hne) as (r & -> & Hr). by exists r.
Qed.

Lemma split_all_three c s x y z : split_all c s = [x; y; z] ->
  splitn 3 c s = [x; y; z] /\ c ∉ x /\ c ∉ y.
Proof.
  intros H. destruct (split_all_cons _ _ _ _ H) as [_ H2].
  destruct (H2 ltac:(done)) as (r & Hs & Hr).
  destruct (split_all_cons _ _ _ _ Hr) as [_ H3].
  destruct (H3 ltac:(done)) as (r' & Hs' & Hr').
  destruct (split_all_cons _ _ _ _ Hr') as [H4 _]. destruct (H4 eq_refl) as [_ ->].
  cbn [splitn]. rewrite Hs, Hs'. apply split_once_Some in Hs as [_ ?], Hs' as [_ ?]. done.
Qed.

Lemma digits_parse_u16 p n : parse_u32 p = Some n -> n <= 65535 -> parse_u16 p = Some n.
Proof. apply parse_unsigned_narrow. Qed.

Lemma check_port_Ok p : check_port p = Ok tt -> exists n, parse_u16 p = Some n /\ 1 <= n.
Proof.
  unfold check_port. destruct (_ || _); [done|].
  destruct (parse_u32 p) as [n|] eqn:E; [|done].
  destruct (_ && _) eqn:Hn; [|done]. zify_bools. exists n.
  split; [by apply digits_parse_u16 | done].
Qed.

(** An authority strict mode accepts is one the proxy can route, with a usable port. *)
Lemma authority_routes target p : authority_port target = Ok p -> check_port p = Ok tt ->
  exists hp, HostPort.parse target = Some hp /\ 1 <= HostPort.port hp.
Proof.
  intros Ha (n & Hp & Hn)%check_port_Ok. unfold authority_port in Ha. unfold HostPort.parse.
  unfold mbind, option_bind, result_bind, ok_or in *. destruct (strip_prefix1 "[" target) as [rest|].
  - destruct (split_once "]" rest) as [[inside after]|]; [|done].
    destruct (is_ipv6 inside); [|done]. cbn [negb] in Ha.
    destruct (strip_prefix1 ":" after) as [p'|]; [|done]. injection Ha as <-.
    rewrite Hp. by eexists.
  - destruct (rsplit_once ":" target) as [[h p']|]; [|done].
    case_bool_decide as Hh; [done|]. destruct (contains ":" h); [done|].
    destruct (valid_authority_host h); [|done]. injection Ha as <-. cbn [negb].
    rewrite Hp. by eexists.
Qed.

(** How many lines carry the field. *)
Definition named (name : bytes) (line : bytes) : bool :=
  match position ":"%char line with
  | Some colon => bool_decide (to_ascii_lowercase (take colon line) = name)
  | None => false
  end.
Definition occurrences (name : bytes) (headers : list bytes) : Z :=
  Z.of_nat (length (List.filter (named name) headers)).

Lemma split_header_Ok line name value : split_header line = Ok (name, value) ->
  exists colon, position ":"%char line = Some colon /\ name = take colon line /\
    value = drop (colon + 1) line /\ name <> [] /\ forallb is_tchar name = true.
Proof.
  unfold split_header. destruct (first_is _ _); [done|].
  destruct (position _ line) as [colon|]; [|done].
  set (nm := take colon line). destruct (decide (nm = [])) as [Hn|Hn];
    [by rewrite (bool_decide_eq_true_2 _ Hn)|]. rewrite (bool_decide_eq_false_2 _ Hn).
  destruct (match last nm with Some _ => _ | None => _ end); [done|].
  destruct (forallb is_tchar nm) eqn:Et; [|done]. cbn [negb].
  destruct (existsb _ _); [done|]. intros [= <- <-]. by exists colon.
Qed.

Lemma named_at name line colon : position ":"%char line = Some colon ->
  named name line = bool_decide (to_ascii_lowercase (take colon line) = name).
Proof. unfold named. by intros ->. Qed.

Lemma scan_headers_Ok hs : forall s s', scan_headers hs s = Ok s' ->
  host_count s' = host_count s + occurrences (lit "host") hs /\
  proxy_auth_count s' = proxy_auth_count s + occurrences (lit "proxy-authorization") hs /\
  Forall (fun line => is_ok (split_header line) = true) hs.
Proof.
  unfold occurrences. induction hs as [|line hs IH]; intros s s'; cbn [scan_headers List.filter].
  { intros [= <-]. simpl. rewrite !Z.add_0_r. done. }
  unfold mbind, result_bind. destruct (split_header line) as [[name value]|e] eqn:E; [|done].
  intros (Hh & Hp & Hf)%IH. pose proof E as (colon & Hc & -> & _)%split_header_Ok.
  rewrite !(named_at _ _ _ Hc). unfold count_header in Hh, Hp.
  rewrite (Forall_cons (fun l => is_ok (split_header l) = true)), E.
  set (lower := to_ascii_lowercase (take colon line)) in *.
  destruct (decide (lower = lit "host")) as [H1|H1].
  - assert (H2 : lower <> lit "proxy-authorization") by (rewrite H1; done).
    rewrite ?(bool_decide_eq_true_2 _ H1), ?(bool_decide_eq_false_2 _ H2) in *.
    cbn [host_count proxy_auth_count length] in *. split_and!; try done; lia.
  - rewrite ?(bool_decide_eq_false_2 _ H1) in *. destruct (bool_decide (lower = lit "proxy-authorization"));
      cbn [host_count proxy_auth_count length] in *; split_and!; try done; lia.
Qed.

Lemma version_shape_http version :
  version_shape version = true -> starts_with (lit "HTTP/") version = true.
Proof.
  unfold version_shape. destruct version as [|? [|? [|? [|? [|? [|? [|? [|? [|]]]]]]]]]; try done.
  by intros [[[? _]%andb_true_iff _]%andb_true_iff _]%andb_true_iff.
Qed.

Lemma validate_Ok request_line headers : validate request_line headers = Ok tt ->
  exists method target version hp,
    splitn 3 SP request_line = [method; target; version] /\ method <> [] /\ target <> [] /\
    starts_with (lit "HTTP/") version = true /\
    (version = lit "HTTP/1.0" \/ version = lit "HTTP/1.1") /\
    existsb (fun b => is_ascii_control b || is_ascii_whitespace b) target = false /\
    HostPort.parse target = Some hp /\ 1 <= HostPort.port hp /\
    Forall (fun line => is_ok (split_header line) = true) headers /\
    occurrences (lit "host") headers <= 1 /\
    (version = lit "HTTP/1.1" -> occurrences (lit "host") headers = 1) /\
    occurrences (lit "proxy-authorization") headers <= 1.
Proof.
  unfold validate, mbind, result_bind, split_request_line.
  destruct (split_all SP request_line) as [|method [|target [|version [|]]]] eqn:Es; try done.
  apply split_all_three in Es as (Hs & _ & Hsp).
  destruct (_ && _) eqn:Hparts; [|done]. zify_bools.
  destruct (check_version version) as [[]|] eqn:Hv; [|done].
  destruct (authority_port target) as [p|] eqn:Ha; [|done].
  destruct (check_port p) as [[]|] eqn:Hp; [|done].
  destruct (scan_headers _ _) as [s|] eqn:Hh; [|done].
  apply scan_headers_Ok in Hh as (Hhost & Hauth & Hwf). cbn [host_count proxy_auth_count] in *.
  destruct (authority_routes _ _ Ha Hp) as (hp & Hparse & Hport). intros Hseen.
  exists method, target, version, hp.
  assert (Hparts' : forall part, part_ok part = true ->
            part <> [] /\ forallb (fun b => negb (Ascii.eqb b HTAB || is_ascii_control b)) part = true).
  { intros part. unfold part_ok. case_bool_decide; done. }
  unfold check_version in Hv. destruct (version_shape version) eqn:Hshape; [|done]. cbn [negb] in Hv.
  unfold check_seen in Hseen.
  destruct (bool_decide (version = lit "HTTP/1.1") && _) eqn:E1; [done|].
  destruct (1 <? host_count s) eqn:E2; [done|]. destruct (host_value_empty s); [done|].
  destruct (match host_value s with Some _ => _ | None => _ end); [done|].
  destruct (1 <? proxy_auth_count s) eqn:E3; [done|]. zify_bools.
  split_and!; try done; try (by apply Hparts'); try lia.
  - by apply version_shape_http.
  - destruct (decide (version = lit "HTTP/1.0")) as [|Hv0]; [by left|].
    destruct (decide (version = lit "HTTP/1.1")) as [|Hv1]; [by right|].
    by rewrite (bool_decide_eq_false_2 _ Hv0), (bool_decide_eq_false_2 _ Hv1) in Hv.
  - apply not_true_is_false. intros (b & Hin & Hb)%existsb_exists.
    destruct (Hparts' target ltac:(done)) as [_ Hall]. rewrite forallb_forall in Hall.
    specialize (Hall b Hin). apply negb_true_iff, orb_false_iff in Hall as [_ Hc].
    rewrite Hc in Hb. apply Hsp, list_elem_of_In. 
    assert (Heq : byte_val b = 32).
    { unfold is_ascii_whitespace, is_ascii_control, in_range in *. simpl in Hb.
      destruct (byte_val_range b). lia. }
    replace SP with b; [done|]. apply byte_val_inj. by rewrite Heq.
  - intros ->. rewrite bool_decide_eq_true_2 in E1 by done. cbn [andb] in E1. unfold occurrences in *. zify_bools. lia.
Qed.

End StrictHttp.
