(* ===== verification/Server.v ===== *)
(** * Server: inbound SOCKS5 and HTTP CONNECT framing

    Model of [server/mod.rs], [server/reply.rs], [server/credentials.rs] and
    [server/prefixed.rs].  [accept] is a program over a [Stream.conn] whose only
    other call is the host's authentication closure; a silent peer or a closure
    that does not finish is cut by the deadline of [phase]. *)
From S2P Require Import Prelude Text TextFmt HostPort Errors Stream StrictHttp.

Module Server.
Import Stream.

Definition MAX_HEADER_BYTES : nat := Z.to_nat (16 * 1024).
Definition AUTH_FAILURE : bytes := map byte_of [1; 1].

(** ** Credentials *)

Record Credentials := mkCredentials {
  username : bytes;
  password : bytes;
  username_raw : option bytes;
  password_raw : option bytes }.

#[export] Instance Credentials_eq_dec : EqDecision Credentials.
Proof. solve_decision. Defined.

Module Creds.
Definition new (username password : bytes) : Credentials := mkCredentials username password None None.
Definition with_raw := mkCredentials.
Definition duplicate (c : Credentials) : Credentials :=
  mkCredentials (username c) (password c) (username_raw c) (password_raw c).
Definition username_bytes (c : Credentials) : bytes :=
  match username_raw c with Some raw => raw | None => username c end.
Definition password_bytes (c : Credentials) : bytes :=
  match password_raw c with Some raw => raw | None => password c end.
Definition is_utf8 (c : Credentials) : bool :=
  match username_raw c, password_raw c with None, None => true | _, _ => false end.
Definition into_parts (c : Credentials) : bytes * bytes := (username c, password c).
End Creds.

(** ** Options, requests, errors *)

Record ServerOptions := mkOptions {
  deadline : Z;
  anonymous : bool;
  password_capability : bool;
  retain_credentials : bool;
  raw_credentials : bool;
  strict_http : bool }.

Module Options.
Definition new (deadline : Z) (allow_anonymous allow_password : bool) : ServerOptions :=
  mkOptions deadline allow_anonymous allow_password false false false.
Definition retain_credentials (o : ServerOptions) (retain : bool) : ServerOptions :=
  mkOptions (deadline o) (anonymous o) (password_capability o) retain
            (raw_credentials o) (strict_http o).
Definition raw_credentials (o : ServerOptions) (raw : bool) : ServerOptions :=
  mkOptions (deadline o) (anonymous o) (password_capability o) (Server.retain_credentials o)
            raw (strict_http o).
Definition strict_http (o : ServerOptions) (strict : bool) : ServerOptions :=
  mkOptions (deadline o) (anonymous o) (password_capability o) (Server.retain_credentials o)
            (Server.raw_credentials o) strict.
End Options.

Inductive InboundProtocol := Socks5 | Http.

Record IncomingRequest := mkRequest {
  protocol : InboundProtocol;
  target : bytes;
  req_username : option bytes;
  req_username_raw : option bytes;
  credentials : option Credentials;
  pipeline : bytes }.

Inductive ServerError :=
| Io (e : IoError)
| Protocol (message : bytes)
| Authentication (message : bytes)
| HeaderTooLarge
| Deadline
| Closed.

#[export] Instance ServerError_from_io : FromIo ServerError := Io.

(** [ServerError]'s [Display]. *)
Definition display (e : ServerError) : bytes :=
  match e with
  | Io e => io_text e
  | Protocol s | Authentication s => s
  | HeaderTooLarge => lit "HTTP headers exceeded " ++ fmt_dec (Z.of_nat MAX_HEADER_BYTES) ++ lit " bytes"
  | Deadline => lit "client protocol deadline exhausted"
  | Closed => lit "client closed before completing protocol framing"
  end.

(** The request's accessors that move a part out return it with what is left. *)
Module Request.
Definition take_pipeline (r : IncomingRequest) : bytes * IncomingRequest :=
  (pipeline r, mkRequest (protocol r) (target r) (req_username r) (req_username_raw r)
                         (credentials r) []).
Definition take_credentials (r : IncomingRequest) : option Credentials * IncomingRequest :=
  (credentials r, mkRequest (protocol r) (target r) (req_username r) (req_username_raw r)
                            None (pipeline r)).
Definition take_username (r : IncomingRequest) : option bytes * IncomingRequest :=
  (req_username r, mkRequest (protocol r) (target r) None None (credentials r) (pipeline r)).
Definition username_bytes (r : IncomingRequest) : option bytes :=
  match req_username r with
  | Some username => Some (match req_username_raw r with Some raw => raw | None => username end)
  | None => None
  end.
End Request.

(** ** Replies *)

Inductive Reply :=
| Established | Forbidden | UpstreamUnavailable | ConnectionRefused
| NetworkUnreachable | TimedOut | GeneralFailure | Overloaded.

Definition CRLF : bytes := [CR; LF].
Definition QUOTE : bytes := [byte_of 34].
Definition close_response (status_line : bytes) : bytes :=
  status_line ++ CRLF ++ lit "Connection: close" ++ CRLF ++ lit "Content-Length: 0" ++ CRLF ++ CRLF.
Definition RESP_407 : bytes :=
  lit "HTTP/1.1 407 Proxy Authentication Required" ++ CRLF
  ++ lit "Proxy-Authenticate: Basic realm=" ++ QUOTE ++ lit "resocks5" ++ QUOTE
  ++ lit ", charset=" ++ QUOTE ++ lit "UTF-8" ++ QUOTE ++ CRLF
  ++ lit "Connection: close" ++ CRLF ++ lit "Content-Length: 0" ++ CRLF ++ CRLF.

(** The statuses the program uses; any other is [unreachable!]. *)
Definition http_error (status : Z) : option bytes :=
  match status with
  | 400 => Some (close_response (lit "HTTP/1.1 400 Bad Request"))
  | 403 => Some (close_response (lit "HTTP/1.1 403 Forbidden"))
  | 407 => Some RESP_407
  | 431 => Some (close_response (lit "HTTP/1.1 431 Request Header Fields Too Large"))
  | 501 => Some (close_response (lit "HTTP/1.1 501 Not Implemented"))
  | 502 => Some (close_response (lit "HTTP/1.1 502 Bad Gateway"))
  | 503 => Some (close_response (lit "HTTP/1.1 503 Service Unavailable"))
  | 504 => Some (close_response (lit "HTTP/1.1 504 Gateway Timeout"))
  | 505 => Some (close_response (lit "HTTP/1.1 505 HTTP Version Not Supported"))
  | _ => None
  end.

Definition socks_reply (rep : Z) : bytes := map byte_of [5; rep; 0; 1; 0; 0; 0; 0; 0; 0].

Definition reply_bytes (p : InboundProtocol) (r : Reply) : option bytes :=
  match p, r with
  | Socks5, Established => Some (socks_reply 0)
  | Socks5, Forbidden => Some (socks_reply 2)
  | Socks5, UpstreamUnavailable => Some (socks_reply 4)
  | Socks5, ConnectionRefused => Some (socks_reply 5)
  | Socks5, NetworkUnreachable => Some (socks_reply 3)
  | Socks5, TimedOut => Some (socks_reply 6)
  | Socks5, GeneralFailure => Some (socks_reply 1)
  | Socks5, Overloaded => Some (socks_reply 1)
  | Http, Established => Some (lit "HTTP/1.1 200 Connection Established" ++ CRLF ++ CRLF)
  | Http, Forbidden => http_error 403
  | Http, UpstreamUnavailable => http_error 502
  | Http, ConnectionRefused => http_error 502
  | Http, NetworkUnreachable => http_error 502
  | Http, TimedOut => http_error 504
  | Http, GeneralFailure => http_error 502
  | Http, Overloaded => http_error 503
  end.

(** ** Line splitting *)

(** [ByteLines::next]. *)
Definition next_line (rest : bytes) : option (bytes * bytes) :=
  match rest with
  | [] => None
  | _ => match find_sub CRLF rest with
         | Some pos => Some (take pos rest, drop (pos + 2) rest)
         | None => Some (rest, [])
         end
  end.
Fixpoint collect_lines (fuel : nat) (rest : bytes) : list bytes :=
  match fuel with
  | O => []
  | S fuel' => match next_line rest with
               | None => []
               | Some (line, rest') => line :: collect_lines fuel' rest'
               end
  end.

(** ** What [accept] itself may write *)

(** Method choices, the RFC 1929 status, and error replies; no tunnel success. *)
Definition handshake_replies : list bytes :=
  map (map byte_of) [[5; 0]; [5; 2]; [5; 255]; [1; 0]; [1; 1]]
  ++ map socks_reply [4; 7; 8] ++ omap http_error [400; 407; 431; 501; 505].
Definition handshake_reply (bs : bytes) : Prop := bs ∈ handshake_replies.

(** Errors after which something written may be unflushed: the stream is dead. *)
Definition broken (e : ServerError) : bool :=
  match e with Io _ | Deadline => true | _ => false end.

(** ** The handshake *)

Section Accept.
(** What the server calls outside itself and the standard library: tokio's two
    error values, the base64 engine, and the host's authentication closure, which
    answers or is still running when the deadline fires.  [str_debug] is the
    standard library's [Debug] of a string, used in messages only. *)
Variables (early_eof write_zero : IoError).
Variable decode : bytes -> option bytes.
Variable str_debug : bytes -> bytes.
Variable authenticate : Credentials -> option bool.

Abbreviation Prog := (M Credentials ServerError).
Abbreviation read_exact := (read_exact early_eof).
Abbreviation read_u8 := (read_u8 early_eof).
Abbreviation read_u16 := (read_u16 early_eof).
Abbreviation write_all := (write_all write_zero).

(** [write_all] then [flush]. *)
Definition send (bs : bytes) : Prog unit := _ ← write_all bs; flush.

(** [IncomingRequest::reply]. *)
Definition reply (r : IncomingRequest) (rep : Reply) : Prog unit :=
  match reply_bytes (protocol r) rep with Some bs => send bs | None => pending end.

Definition phase {A} (deadline now : Z) (operation : Prog A) : Prog A := fun c =>
  if saturating_duration_since deadline now =? 0 then (Ready (Err Deadline), c)
  else match operation c with
       | (Pending, c') => (Ready (Err Deadline), c')
       | r => r
       end.

Definition auth_fail {A} (message : bytes) : Prog A :=
  _ ← send AUTH_FAILURE; fail (Authentication message).

Definition http_fail {A} (status : Z) (error : ServerError) : Prog A :=
  match http_error status with
  | Some bs => _ ← send bs; fail error
  | None => pending
  end.

(** *** SOCKS5 *)

Definition fmt_bool (b : bool) : bytes := if b then lit "true" else lit "false".

Definition socks_method (options : ServerOptions) (methods : bytes) : Prog Z :=
  if password_capability options && contains (byte_of 2) methods then mret 2
  else if anonymous options && contains (byte_of 0) methods then mret 0
  else
    _ ← send (map byte_of [5; 255]);
    fail (Authentication (lit "No mutually supported SOCKS5 auth method (server: anonymous="
      ++ fmt_bool (anonymous options) ++ lit ", user/pass=" ++ fmt_bool (password_capability options)
      ++ lit "; client offered " ++ fmt_dec (Z.of_nat (length methods)) ++ lit " method(s))")).

(** A submitted field: its text, and the bytes when they are not UTF-8. *)
Definition field_text (raw : bool) (bs : bytes) : option (bytes * option bytes) :=
  match from_utf8 bs with
  | Some text => Some (text, None)
  | None => if raw then Some (from_utf8_lossy bs, Some bs) else None
  end.

(** RFC 1929: the identity, its raw bytes, and the retained credentials. *)
Definition socks_password (options : ServerOptions)
    : Prog (bytes * option bytes * option Credentials) :=
  header ← read_exact 2;
  match header with
  | [ver; ulen] =>
      if negb (byte_val ver =? 1) then
        fail (Authentication (lit "Invalid auth subnegotiation version: " ++ fmt_hex02 (byte_val ver)))
      else if byte_val ulen =? 0 then
        auth_fail (lit "Zero-length username in auth subnegotiation (RFC 1929 requires 1-255 bytes)")
      else
        user ← read_exact (Z.to_nat (byte_val ulen));
        plen ← read_u8;
        if plen =? 0 then
          auth_fail (lit "Zero-length password in auth subnegotiation (RFC 1929 requires 1-255 bytes)")
        else
          password ← read_exact (Z.to_nat plen);
          match field_text (raw_credentials options) user with
          | None => auth_fail (lit "Invalid UTF-8 in username")
          | Some (username, username_raw) =>
              match field_text (raw_credentials options) password with
              | None => auth_fail (lit "Invalid UTF-8 in password")
              | Some (password, password_raw) =>
                  let identity := username in
                  let creds := Creds.with_raw username password username_raw password_raw in
                  let retained := if retain_credentials options then Some (Creds.duplicate creds)
                                  else None in
                  ok ← call creds (authenticate creds);
                  if negb ok then
                    auth_fail (lit "SOCKS5 username/password authentication failed")
                  else
                    _ ← send (map byte_of [1; 0]);
                    mret (identity, username_raw, retained)
              end
          end
  | _ => pending
  end.

Definition socks_domain : Prog bytes :=
  len ← read_u8;
  domain ← read_exact (Z.to_nat len);
  port ← read_u16;
  match utf8_error domain with
  | Some e => fail (Protocol (utf8_error_display e))
  | None =>
      let target := domain ++ lit ":" ++ fmt_dec port in
      if bool_decide (domain = [])
         || existsb (fun b => is_ascii_control b || is_ascii_whitespace b) domain
         || negb (match HostPort.parse target with Some _ => true | None => false end)
      then
        _ ← send (socks_reply 4);
        fail (Protocol (lit "Invalid DOMAINNAME in CONNECT request: " ++ str_debug domain))
      else mret target
  end.

Definition socks_target (atyp : Z) : Prog bytes :=
  match atyp with
  | 1 =>
      ip ← read_exact 4;
      port ← read_u16;
      mret (fmt_ipv4 (map byte_val ip) ++ lit ":" ++ fmt_dec port)
  | 4 =>
      ip ← read_exact 16;
      port ← read_u16;
      mret (lit "[" ++ fmt_ipv6 (be_segments ip) ++ lit "]:" ++ fmt_dec port)
  | 3 => socks_domain
  | _ =>
      _ ← send (socks_reply 8);
      fail (Protocol (lit "Unknown ATYP: " ++ fmt_hex02 atyp))
  end.

Definition socks_connect : Prog bytes :=
  header ← read_exact 4;
  match header with
  | [ver; cmd; _; atyp] =>
      if negb (byte_val ver =? 5) then fail (Protocol (lit "Invalid version in CONNECT request"))
      else if negb (byte_val cmd =? 1) then
        _ ← send (socks_reply 7);
        fail (Protocol (lit "Only CONNECT commands are supported"))
      else socks_target (byte_val atyp)
  | _ => pending
  end.

Definition socks (options : ServerOptions) : Prog IncomingRequest :=
  nmethods ← read_u8;
  methods ← read_exact (Z.to_nat nmethods);
  chosen ← socks_method options methods;
  _ ← send [byte_of 5; byte_of chosen];
  '(username, username_raw, retained) ←
    (if chosen =? 2 then
       '(identity, username_raw, retained) ← socks_password options;
       mret (Some identity, username_raw, retained)
     else mret (None, None, None));
  target ← socks_connect;
  mret (mkRequest Socks5 target username username_raw retained []).

(** *** HTTP *)

Definition CRLFCRLF : bytes := [CR; LF; CR; LF].

(** The header read loop: where the header ends in what was read. *)
Fixpoint read_header (fuel : nat) (buf : bytes) : Prog (nat * bytes) :=
  match fuel with
  | O => pending
  | S fuel' =>
      tmp ← read 1024;
      if bool_decide (tmp = []) then fail Closed
      else
        let scan_from := (length buf - 3)%nat in
        let buf := buf ++ tmp in
        match find_sub CRLFCRLF (drop scan_from buf) with
        | Some pos =>
            let header_end := (scan_from + pos + 4)%nat in
            if (MAX_HEADER_BYTES <? header_end)%nat then http_fail 431 HeaderTooLarge
            else mret (header_end, buf)
        | None =>
            if (MAX_HEADER_BYTES <? length buf)%nat then http_fail 431 HeaderTooLarge
            else read_header fuel' buf
        end
  end.

Definition strict_check (options : ServerOptions) (request_line : bytes) (header_lines : list bytes)
    : Prog unit :=
  if strict_http options then
    match StrictHttp.validate request_line header_lines with
    | Ok _ => mret tt
    | Err (StrictHttp.Bad reason) => http_fail 400 (Protocol (StrictHttp.reason_text reason))
    | Err StrictHttp.Unsupported =>
        http_fail 505 (Protocol (lit "strict HTTP: unsupported HTTP-version"))
    end
  else mret tt.

(** The method, target and version checks; the target. *)
Definition request_target (request_line : bytes) : Prog bytes :=
  let parts := splitn 3 SP request_line in
  let part i := match parts !! i with Some p => p | None => [] end in
  let method := part 0%nat in
  let target := part 1%nat in
  let version := part 2%nat in
  if bool_decide (method = []) || bool_decide (target = [])
     || negb (starts_with (lit "HTTP/") version) then
    http_fail 400 (Protocol (lit "malformed HTTP request line: " ++ str_debug request_line))
  else if negb (bool_decide (method = lit "CONNECT")) then
    http_fail 501 (Protocol (lit "only CONNECT is supported, client sent " ++ str_debug method))
  else if existsb (fun b => is_ascii_control b || is_ascii_whitespace b) target then
    http_fail 400 (Protocol (lit "CONNECT target contains control or whitespace bytes — "
                             ++ str_debug target))
  else match HostPort.parse target with
       | None => http_fail 400 (Protocol (lit "CONNECT target is not a valid host:port authority — "
                                          ++ str_debug target))
       | Some _ => mret target
       end.

(** The first [Proxy-Authorization] value; [Some None] when it is not UTF-8. *)
Fixpoint auth_header (lines : list bytes) : option (option bytes) :=
  match lines with
  | [] => None
  | line :: lines' =>
      match position ":"%char line with
      | None => auth_header lines'
      | Some colon =>
          if eq_ignore_ascii_case (trim_ascii (take colon line)) (lit "proxy-authorization")
          then Some (from_utf8 (trim_ascii (drop (colon + 1) line)))
          else auth_header lines'
      end
  end.

Definition auth_407 {A} (message : bytes) : Prog A := http_fail 407 (Authentication message).

(** Basic credentials: the identity and the retained copy. *)
Definition http_basic (options : ServerOptions) (value : bytes)
    : Prog (bytes * option Credentials) :=
  match splitn 2 SP value with
  | scheme :: token :: _ =>
      let token := str_trim token in
      if negb (eq_ignore_ascii_case scheme (lit "Basic"))
      then auth_407 (lit "unsupported Proxy-Authorization scheme")
      else match decode token with
      | None => auth_407 (lit "Proxy-Authorization base64 decode failed")
      | Some decoded =>
          match from_utf8 decoded with
          | None => auth_407 (lit "Proxy-Authorization not valid UTF-8")
          | Some text =>
              match split_once ":"%char text with
              | None => auth_407 (lit "Proxy-Authorization missing ':'")
              | Some (user, password) =>
                  if negb (password_capability options) then
                    auth_407 (lit "client sent Proxy-Authorization but server has no users configured")
                  else
                    let identity := user in
                    let creds := Creds.new identity password in
                    let retained := if retain_credentials options then Some (Creds.duplicate creds)
                                    else None in
                    ok ← call creds (authenticate creds);
                    if negb ok then auth_407 (lit "HTTP proxy authentication failed")
                    else mret (identity, retained)
              end
          end
      end
  | _ => auth_407 (lit "unsupported Proxy-Authorization scheme")
  end.

Definition http_auth (options : ServerOptions) (header_lines : list bytes)
    : Prog (option bytes * option Credentials) :=
  match auth_header header_lines with
  | Some None => auth_407 (lit "Proxy-Authorization header is not valid UTF-8")
  | Some (Some value) =>
      '(identity, retained) ← http_basic options value;
      mret (Some identity, retained)
  | None =>
      if negb (anonymous options)
      then auth_407 (lit "anonymous HTTP CONNECT not allowed (allow_anonymous=false)")
      else mret (None, None)
  end.

(** Everything after the header has been read: the target, the identity and the
    retained credentials. *)
Definition http_decide (options : ServerOptions) (head : bytes)
    : Prog (bytes * option bytes * option Credentials) :=
  let lines := collect_lines (S (length head)) head in
  let header_lines := tail lines in
  request_line ←
    (match lines with
     | [] => mret []
     | line :: _ =>
         match from_utf8 line with
         | Some s => mret s
         | None => http_fail 400 (Protocol (lit "non-UTF-8 bytes in HTTP request line"))
         end
     end);
  _ ← strict_check options request_line header_lines;
  target ← request_target request_line;
  '(username, retained) ← http_auth options header_lines;
  mret (target, username, retained).

Definition http (first : byte) (options : ServerOptions) : Prog IncomingRequest :=
  '(header_end, buf) ← read_header (S MAX_HEADER_BYTES) [first];
  let pipeline := drop header_end buf in
  '(target, username, retained) ← http_decide options (take (header_end - 4) buf);
  mret (mkRequest Http target username None retained pipeline).

(** *** [accept] *)

Definition first_byte : Prog byte :=
  bs ← read 1;
  match bs with b :: _ => mret b | [] => fail Closed end.

Definition accept (now1 now2 : Z) (options : ServerOptions) : Prog IncomingRequest :=
  first ← phase (deadline options) now1 first_byte;
  if byte_val first =? 5 then phase (deadline options) now2 (socks options)
  else if is_ascii_alphabetic first then phase (deadline options) now2 (http first options)
  else fail (Protocol (lit "unrecognised first byte 0x" ++ fmt_hex02 (byte_val first)
                       ++ lit " — neither SOCKS5 (0x05) nor an HTTP method")).

(** ** The header read loop *)

(** How a header that does not complete ends, given how the peer's side ends. *)
Definition unfinished (e : ending) : poll (result ServerError (nat * bytes)) :=
  match e with
  | Eof => Ready (Err Closed)
  | Fails e => Ready (Err (Io e))
  | Silent => Pending
  end.

Lemma find_terminator_extend buf tmp : find_sub CRLFCRLF buf = None ->
  find_sub CRLFCRLF (buf ++ tmp)
  = Nat.add (length buf - 3) <$> find_sub CRLFCRLF (drop (length buf - 3) (buf ++ tmp)).
Proof. intros H. by apply (find_sub_extend CRLFCRLF). Qed.

(** What the loop returns is a function of the bytes alone: the first terminator of
    all of them, within the limit; the bytes read past it are the rest of [buf]. *)
Lemma read_header_spec fuel : forall buf c, find_sub CRLFCRLF buf = None ->
  (length buf <= MAX_HEADER_BYTES)%nat -> (MAX_HEADER_BYTES < length buf + fuel)%nat ->
  let all := buf ++ unread c in
  (exists pos buf' c', find_sub CRLFCRLF all = Some pos /\ (pos + 4 <= MAX_HEADER_BYTES)%nat /\
     read_header fuel buf c = (Ready (Ok ((pos + 4)%nat, buf')), c') /\
     all = buf' ++ unread c' /\ (pos + 4 <= length buf')%nat /\ same_peer c' c) \/
  ((forall pos, find_sub CRLFCRLF all = Some pos -> (MAX_HEADER_BYTES < pos + 4)%nat) /\
   (MAX_HEADER_BYTES < length all)%nat /\
   exists c', read_header fuel buf c = http_fail 431 HeaderTooLarge c' /\ same_peer c' c) \/
  (find_sub CRLFCRLF all = None /\ (length all <= MAX_HEADER_BYTES)%nat /\
   exists c', read_header fuel buf c = (unfinished (inbound c), c') /\ same_peer c' c).
Proof.
  induction fuel as [|fuel IH]; intros buf c Hb Hl Hf all; [lia|].
  cbn [read_header]. destruct (decide (unread c = [])) as [Hu|Hu].
  - right. right. unfold all. rewrite Hu, app_nil_r. split_and!; [done..|].
    exists (log (EvRead 1024) c). split.
    + unfold mbind, M_bind. rewrite read_none by done. by destruct (inbound c).
    + split_and!; [done..|]. apply outputs_read.
  - destruct (read_some 1024 c ltac:(lia) Hu) as (tmp & c1 & Hr & Hc & Ht & Hi & Hro & Htr).
    rewrite (bind_step _ _ _ _ _ Hr). rewrite bool_decide_eq_false_2 by (by destruct tmp; simpl in Ht; [lia|]).
    assert (Hp1 : same_peer c1 c).
    { split_and!; [done..|]. unfold outputs. rewrite Htr, List.filter_app. apply app_nil_r. }
    assert (Hall : all = (buf ++ tmp) ++ unread c1) by (unfold all; by rewrite Hc, app_assoc).
    pose proof (find_terminator_extend buf tmp Hb) as Hx. cbv zeta in *.
    destruct (find_sub CRLFCRLF (drop (length buf - 3) (buf ++ tmp))) as [pos|] eqn:Ep.
    + change (Nat.add (length buf - 3) <$> Some pos) with (Some (length buf - 3 + pos)%nat) in Hx.
      destruct (find_sub_app _ _ (unread c1) _ Hx) as [Hx' Hlen]. rewrite <- Hall in Hx'.
      cbn [CRLFCRLF length] in Hlen.
      destruct (Nat.ltb_spec MAX_HEADER_BYTES (length buf - 3 + pos + 4)) as [Hbig|Hok].
      * right. left. split_and!.
        -- intros pos'. rewrite Hx'. by intros [= <-].
        -- rewrite Hall, length_app. lia.
        -- by exists c1.
      * left. exists (length buf - 3 + pos)%nat, (buf ++ tmp), c1. by split_and!.
    + cbn [fmap option_fmap option_map] in Hx.
      destruct (Nat.ltb_spec MAX_HEADER_BYTES (length (buf ++ tmp))) as [Hbig|Hok].
      * right. left. split_and!.
        -- intros pos' Hpos. apply find_sub_Some in Hpos as (Hs & Hle & _).
           destruct (Nat.le_gt_cases (pos' + 4) (length (buf ++ tmp))) as [Hin|]; [|lia].
           exfalso. rewrite Hall, drop_app_le in Hs by lia.
           rewrite starts_with_app_le in Hs by (rewrite length_drop; cbn [CRLFCRLF length]; lia).
           by rewrite (find_sub_None CRLFCRLF _ ltac:(done) Hx) in Hs.
        -- rewrite Hall, length_app. lia.
        -- by exists c1.
      * rewrite Hall. rewrite <- Hi.
        destruct (IH (buf ++ tmp) c1 Hx Hok ltac:(rewrite length_app; lia))
          as [(pos' & buf' & c' & ? & ? & ? & ? & ? & ?)
             |[(? & ? & c' & ? & ?) | (? & ? & c' & ? & ?)]].
        -- left. exists pos', buf', c'. split_and!; try done. by etrans.
        -- right. left. split_and!; try done. exists c'. split; [done|]. by etrans.
        -- right. right. split_and!; try done. exists c'. split; [done|]. by etrans.
Qed.

(** ** Only the bytes matter, not how they arrive *)

Lemma quiet_send bs : quiet (send bs).
Proof. unfold send. solve_quiet. Qed.
#[local] Hint Resolve quiet_send : stream.
Lemma quiet_auth_fail {A} message : quiet (auth_fail message : Prog A).
Proof. unfold auth_fail. solve_quiet. Qed.
Lemma quiet_http_fail {A} status error : quiet (http_fail status error : Prog A).
Proof. unfold http_fail. solve_quiet. Qed.
#[local] Hint Resolve quiet_auth_fail quiet_http_fail : stream.

Lemma quiet_http_decide options head : quiet (http_decide options head).
Proof.
  unfold http_decide, strict_check, request_target, http_auth, http_basic, auth_407. solve_quiet.
Qed.
#[local] Hint Resolve quiet_http_decide : stream.

Lemma blind_read_u8 : chunk_blind (read_u8 : Prog Z).
Proof. unfold Stream.read_u8. solve_blind. Qed.
Lemma blind_read_u16 : chunk_blind (read_u16 : Prog Z).
Proof. unfold Stream.read_u16. solve_blind. Qed.
Lemma quiet_socks_method options methods : quiet (socks_method options methods).
Proof. unfold socks_method. solve_quiet. Qed.
#[local] Hint Resolve blind_read_u8 blind_read_u16 quiet_socks_method : stream.
Lemma blind_socks_password options : chunk_blind (socks_password options).
Proof. unfold socks_password. solve_blind. Qed.
Lemma blind_socks_domain : chunk_blind socks_domain.
Proof. unfold socks_domain. solve_blind. Qed.
#[local] Hint Resolve blind_socks_password blind_socks_domain : stream.
Lemma blind_socks_connect : chunk_blind socks_connect.
Proof. unfold socks_connect, socks_target. solve_blind. Qed.
#[local] Hint Resolve blind_socks_connect : stream.
Lemma blind_socks options : chunk_blind (socks options).
Proof. unfold socks. solve_blind. Qed.
#[local] Hint Resolve blind_socks : stream.

(** What the host sees of a run: the request with everything that follows it (what was
    read past the header, then what is still unread), or the error. *)
Definition delivered (run : poll (result ServerError IncomingRequest) * conn Credentials)
    : poll (result ServerError IncomingRequest) :=
  match run with
  | (Ready (Ok r), c) =>
      Ready (Ok (mkRequest (protocol r) (target r) (req_username r) (req_username_raw r)
                           (credentials r) (pipeline r ++ unread c)))
  | (r, _) => r
  end.

Definition delivers_same (m : Prog IncomingRequest) : Prop := forall c1 c2, same_stream c1 c2 ->
  delivered (m c1) = delivered (m c2) /\ same_peer (m c1).2 (m c2).2.

Lemma blind_delivers m : chunk_blind m -> delivers_same m.
Proof.
  intros Hm c1 c2 H. destruct (Hm c1 c2 H) as [Heq [Hu Hp]].
  destruct (m c1) as [r1 c1'], (m c2) as [r2 c2']. cbn [fst snd] in *. subst r2.
  split; [|done]. destruct r1 as [[r|e]|]; [|done..]. cbn [delivered]. by rewrite Hu.
Qed.

Lemma http_finish options pos buf c :
  let run := ('(target, username, retained) ← http_decide options (take pos buf);
              mret (mkRequest Http target username None retained (drop (pos + 4) buf))) c in
  delivered run = match (http_decide options (take pos buf) c).1 with
                  | Ready (Ok (target, username, retained)) =>
                      Ready (Ok (mkRequest Http target username None retained
                                           (drop (pos + 4) buf ++ unread c)))
                  | Ready (Err e) => Ready (Err e)
                  | Pending => Pending
                  end /\
  run.2 = (http_decide options (take pos buf) c).2.
Proof.
  unfold mbind, M_bind. pose proof (quiet_http_decide options (take pos buf) c c ltac:(done)) as (_ & _ & Hu & _).
  destruct (http_decide options (take pos buf) c) as [[[[[tg u] re]|e]|] c']; [|done..].
  cbn [fst snd delivered mret M_ret] in *. cbn. by rewrite Hu.
Qed.

Lemma first_no_terminator first : find_sub CRLFCRLF [first] = None.
Proof. cbn [find_sub CRLFCRLF starts_with]. by rewrite andb_false_r. Qed.
Lemma one_fits : (1 <= MAX_HEADER_BYTES)%nat.
Proof. unfold MAX_HEADER_BYTES. lia. Qed.
Lemma fuel_enough : (MAX_HEADER_BYTES < 1 + S MAX_HEADER_BYTES)%nat.
Proof. lia. Qed.

Lemma http_fail_not_Ok {A} status error c (a : A) : (http_fail status error c).1 <> Ready (Ok a).
Proof.
  unfold http_fail. destruct (http_error status); [|done]. unfold mbind, M_bind.
  by destruct (send _ c) as [[[]|] c'].
Qed.

Lemma http_delivers first options : delivers_same (http first options).
Proof.
  intros c1 c2 [Hu Hp].
  pose proof (fun c => read_header_spec (S MAX_HEADER_BYTES) [first] c (first_no_terminator first)
    one_fits fuel_enough) as H1.
  unfold http.
  destruct (H1 c1) as [(pos1 & buf1 & c1' & Hf1 & Hm1 & Hr1 & Ha1 & Hl1 & Hs1)
    |[(Hn1 & Hm1 & c1' & Hr1 & Hs1) | (Hn1 & Hm1 & c1' & Hr1 & Hs1)]];
  destruct (H1 c2) as [(pos2 & buf2 & c2' & Hf2 & Hm2 & Hr2 & Ha2 & Hl2 & Hs2)
    |[(Hn2 & Hm2 & c2' & Hr2 & Hs2) | (Hn2 & Hm2 & c2' & Hr2 & Hs2)]];
  rewrite <- Hu in *; try (exfalso; first [congruence | lia
    | specialize (Hn2 _ Hf1); lia | specialize (Hn1 _ Hf2); lia]).
  - assert (pos2 = pos1) as -> by congruence.
    rewrite (bind_step _ _ _ _ _ Hr1), (bind_step _ _ _ _ _ Hr2).
    rewrite !Nat.add_sub.
    assert (Ht : take pos1 buf1 = take pos1 buf2).
    { by rewrite <- (take_app_le buf1 (unread c1')), <- Ha1, Ha2, take_app_le by lia. }
    destruct (http_finish options pos1 buf1 c1') as [-> ->].
    destruct (http_finish options pos1 buf2 c2') as [-> ->].
    assert (Hs : same_peer c1' c2') by (etrans; [done|]; etrans; [done | by symmetry]).
    destruct (quiet_http_decide options (take pos1 buf2) c1' c2' Hs) as (Heq & Hs' & _).
    rewrite Ht, Heq. split; [|done].
    by rewrite <- (drop_app_le buf1), <- (drop_app_le buf2), <- Ha1, <- Ha2 by lia.
  - unfold mbind, M_bind. rewrite Hr1, Hr2.
    assert (Hs : same_peer c1' c2') by (etrans; [done|]; etrans; [done | by symmetry]).
    destruct (quiet_http_fail (A := nat * bytes) 431 HeaderTooLarge c1' c2' Hs) as (Heq & Hs' & _).
    pose proof (http_fail_not_Ok (A := nat * bytes) 431 HeaderTooLarge c2') as Hno.
    destruct (http_fail 431 HeaderTooLarge c1') as [r1 d1], (http_fail 431 HeaderTooLarge c2') as [r2 d2].
    cbn [fst snd] in *. subst r2. destruct r1 as [[[]|]|]; [exfalso; by eapply Hno | done..].
  - unfold mbind, M_bind. rewrite Hr1, Hr2.
    assert (Hs : same_peer c1' c2') by (etrans; [done|]; etrans; [done | by symmetry]).
    destruct Hp as (<- & _). by destruct (inbound c1).
Qed.

Lemma phase_delivers d now m : delivers_same m -> delivers_same (phase d now m).
Proof.
  intros Hm c1 c2 H. unfold phase. destruct (_ =? 0); [by destruct H|].
  destruct (Hm c1 c2 H) as [Heq Hp].
  destruct (m c1) as [r1 c1'], (m c2) as [r2 c2']. 
  destruct r1 as [[r1|e1]|], r2 as [[r2|e2]|]; done.
Qed.

Lemma phase_blind {A} d now (m : Prog A) : chunk_blind m -> chunk_blind (phase d now m).
Proof.
  intros Hm c1 c2 H. unfold phase. destruct (_ =? 0); [done|].
  destruct (Hm c1 c2 H) as [Heq Hp].
  destruct (m c1) as [r1 c1'], (m c2) as [r2 c2']. cbn [fst snd] in *. subst r2. by destruct r1.
Qed.

Lemma bind_delivers {A} (m : Prog A) f :
  chunk_blind m -> (forall a, delivers_same (f a)) -> delivers_same (m ≫= f).
Proof.
  intros Hm Hf c1 c2 H. unfold mbind, M_bind. destruct (Hm c1 c2 H) as [Heq Hp].
  destruct (m c1) as [r1 c1'], (m c2) as [r2 c2']. cbn [fst snd] in *. subst r2.
  destruct r1 as [[a|e]|]; [by apply Hf | by destruct Hp..].
Qed.

(** C39: how the peer's bytes are cut into reads does not matter: on two connections
    that will deliver the same bytes and end the same way, [accept] returns the same
    request or error, writes the same replies and asks the same authentication; and
    the payload the host then gets (the over-read pipeline, followed by the unread
    stream) is the same. *)
Theorem accept_chunking now1 now2 options c1 c2 : same_stream c1 c2 ->
  delivered (accept now1 now2 options c1) = delivered (accept now1 now2 options c2) /\
  outputs (accept now1 now2 options c1).2 = outputs (accept now1 now2 options c2).2.
Proof.
  intros H. assert (Hd : delivers_same (accept now1 now2 options)).
  { unfold accept. apply bind_delivers.
    - apply phase_blind. unfold first_byte. solve_blind.
    - intros first. destruct (_ =? 5); [apply phase_delivers, blind_delivers, blind_socks|].
      destruct (is_ascii_alphabetic first); [apply phase_delivers, http_delivers|].
      apply blind_delivers. solve_blind. }
  destruct (Hd c1 c2 H) as [? (_ & _ & ?)]. done.
Qed.

(** ** Authentication *)

Lemma no_calls_send bs : no_calls (send bs).
Proof. unfold send. solve_no_calls. Qed.
#[local] Hint Resolve no_calls_send : stream.
Lemma no_calls_socks_method options methods : no_calls (socks_method options methods).
Proof. unfold socks_method. solve_no_calls. Qed.
Lemma no_calls_socks_connect : no_calls socks_connect.
Proof. unfold socks_connect, socks_target, socks_domain, Stream.read_u8, Stream.read_u16. solve_no_calls. Qed.
Lemma no_calls_auth_fail {A} message : no_calls (auth_fail message : Prog A).
Proof. unfold auth_fail. solve_no_calls. Qed.
Lemma no_calls_http_fail {A} status error : no_calls (http_fail status error : Prog A).
Proof. unfold http_fail. solve_no_calls. Qed.
#[local] Hint Resolve no_calls_socks_method no_calls_socks_connect no_calls_auth_fail
  no_calls_http_fail : stream.
Lemma no_calls_strict options line headers : no_calls (strict_check options line headers).
Proof. unfold strict_check. solve_no_calls. Qed.
Lemma no_calls_target line : no_calls (request_target line).
Proof. unfold request_target. solve_no_calls. Qed.
Lemma no_calls_read_header fuel : forall buf, no_calls (read_header fuel buf).
Proof. induction fuel as [|fuel IH]; intros buf; cbn [read_header]; solve_no_calls. Qed.
#[local] Hint Resolve no_calls_strict no_calls_target no_calls_read_header : stream.

(** A failure is never an acceptance. *)
Lemma auth_fail_not_Ok {A} message c (a : A) c' : auth_fail message c <> (Ready (Ok a), c').
Proof. intros H. apply bind_Ok in H as (? & ? & _ & H). done. Qed.
Lemma http_fail_Ok {A} status error c (a : A) c' : http_fail status error c <> (Ready (Ok a), c').
Proof. intros H. apply (http_fail_not_Ok status error c a). by rewrite H. Qed.

Lemma field_text_Some raw bs text r : field_text raw bs = Some (text, r) ->
  (from_utf8 bs = Some text /\ r = None) \/ (raw = true /\ from_utf8 bs = None /\ r = Some bs).
Proof.
  unfold field_text. destruct (from_utf8 bs); [intros [= <- <-]; by left|].
  destruct raw; [intros [= <- <-]; by right | done].
Qed.

(** What authenticating establishes: the closure said yes, once, to exactly the
    credentials the request is then attributed to. *)
Definition authenticated (options : ServerOptions) (identity : bytes) (raw : option bytes)
    (retained : option Credentials) (c c' : conn Credentials) : Prop :=
  exists creds, authenticate creds = Some true /\ password_capability options = true /\
    identity = username creds /\ raw = username_raw creds /\
    retained = (if retain_credentials options then Some creds else None) /\
    calls c' = calls c ++ [creds] /\
    (raw_credentials options = false -> Creds.is_utf8 creds = true).

Lemma duplicate_eq creds : Creds.duplicate creds = creds.
Proof. by destruct creds. Qed.

Lemma socks_password_Ok options c identity raw retained c' :
  password_capability options = true ->
  socks_password options c = (Ready (Ok (identity, raw, retained)), c') ->
  authenticated options identity raw retained c c'.
Proof.
  intros Hcap H. unfold socks_password in H.
  apply bind_Ok in H as (header & c1 & H1 & H).
  apply (no_calls_run _ _ _ _ (no_calls_read_exact _ _)) in H1.
  destruct header as [|ver [|ulen [|]]]; try done.
  destruct (negb (byte_val ver =? 1)); [done|].
  destruct (byte_val ulen =? 0); [by apply auth_fail_not_Ok in H|].
  apply bind_Ok in H as (user & c2 & H2 & H).
  apply (no_calls_run _ _ _ _ (no_calls_read_exact _ _)) in H2.
  apply bind_Ok in H as (plen & c3 & H3 & H).
  apply (no_calls_run (Stream.read_u8 early_eof) _ _ _ ltac:(unfold Stream.read_u8; solve_no_calls)) in H3.
  destruct (plen =? 0); [by apply auth_fail_not_Ok in H|].
  apply bind_Ok in H as (pass & c4 & H4 & H).
  apply (no_calls_run _ _ _ _ (no_calls_read_exact _ _)) in H4.
  destruct (field_text _ user) as [[u ur]|] eqn:Eu; [|by apply auth_fail_not_Ok in H].
  destruct (field_text _ pass) as [[p pr]|] eqn:Ep; [|by apply auth_fail_not_Ok in H].
  apply bind_Ok in H as (ok & c5 & [Ha H5]%call_Ok & H).
  destruct ok; [|by apply auth_fail_not_Ok in H]. cbn [negb] in H.
  apply bind_Ok in H as ([] & c6 & H6 & H). apply (no_calls_run _ _ _ _ (no_calls_send _)) in H6.
  injection H as <- <- <- <-. rewrite duplicate_eq.
  eexists. split_and!; [exact Ha | done.. | congruence |]. intros Hraw.
  unfold Creds.is_utf8. cbn. rewrite Hraw in *.
  apply field_text_Some in Eu as [[_ ->]|[? _]]; [|done].
  by apply field_text_Some in Ep as [[_ ->]|[? _]].
Qed.

Lemma http_basic_Ok options value c identity retained c' :
  http_basic options value c = (Ready (Ok (identity, retained)), c') ->
  authenticated options identity None retained c c'.
Proof.
  unfold http_basic, auth_407. intros H.
  destruct (splitn 2 SP value) as [|scheme [|token ?]]; try by apply http_fail_Ok in H.
  destruct (negb _); [by apply http_fail_Ok in H|].
  destruct (decode _) as [decoded|]; [|by apply http_fail_Ok in H].
  destruct (from_utf8 decoded) as [text|]; [|by apply http_fail_Ok in H].
  destruct (split_once _ text) as [[user pass]|]; [|by apply http_fail_Ok in H].
  destruct (password_capability options) eqn:Hcap; [|by apply http_fail_Ok in H]. cbn [negb] in H.
  apply bind_Ok in H as (ok & c1 & [Ha H1]%call_Ok & H).
  destruct ok; [|by apply http_fail_Ok in H]. injection H as <- <- <-. rewrite duplicate_eq.
  eexists. split_and!; [exact Ha | done..].
Qed.

Lemma phase_Ok {A} d now (m : Prog A) c a c' : phase d now m c = (Ready (Ok a), c') ->
  m c = (Ready (Ok a), c') /\ now < d.
Proof.
  unfold phase. destruct (_ =? 0) eqn:E; [done|]. destruct (m c) as [[]]; [|done].
  intros ->. split; [done|]. unfold saturating_duration_since in E. zify_bools. lia.
Qed.

(** What a returned request says about who sent it. *)
Definition gate (options : ServerOptions) (r : IncomingRequest) (c c' : conn Credentials) : Prop :=
  (anonymous options = true /\ req_username r = None /\ req_username_raw r = None /\
   credentials r = None /\ calls c' = calls c) \/
  (exists identity, req_username r = Some identity /\
   authenticated options identity (req_username_raw r) (credentials r) c c').

Lemma socks_gate options c r c' : socks options c = (Ready (Ok r), c') ->
  gate options r c c' /\ protocol r = Socks5 /\ pipeline r = [].
Proof.
  unfold socks. intros H.
  apply bind_Ok in H as (n & c1 & H1 & H).
  apply (no_calls_run (Stream.read_u8 early_eof) _ _ _ ltac:(unfold Stream.read_u8; solve_no_calls)) in H1.
  apply bind_Ok in H as (methods & c2 & H2 & H).
  apply (no_calls_run _ _ _ _ (no_calls_read_exact _ _)) in H2.
  apply bind_Ok in H as (chosen & c3 & H3 & H).
  pose proof (no_calls_run _ _ _ _ (no_calls_socks_method _ _) H3) as Hc3.
  apply bind_Ok in H as ([] & c4 & H4 & H). apply (no_calls_run _ _ _ _ (no_calls_send _)) in H4.
  apply bind_Ok in H as ([[user raw] ret] & c5 & H5 & H).
  apply bind_Ok in H as (tg & c6 & H6 & H).
  apply (no_calls_run _ _ _ _ no_calls_socks_connect) in H6.
  injection H as <- <-. split; [|done].
  unfold socks_method in H3.
  destruct (password_capability options && _) eqn:Ep.
  - injection H3 as <- <-. apply andb_true_iff in Ep as [Ep _]. right.
    cbn [Z.eqb Pos.eqb] in H5. apply bind_Ok in H5 as ([[id ur] re] & c7 & H5 & H7).
    injection H7 as <- <- <- <-. apply socks_password_Ok in H5 as (creds & ? & ? & ? & ? & ? & Hca & ?); [|done].
    exists id. split; [done|]. exists creds. split_and!; try done. congruence.
  - destruct (anonymous options && _) eqn:Ea.
    + injection H3 as <- <-. apply andb_true_iff in Ea as [Ea _]. left.
      cbn [Z.eqb Pos.eqb] in H5. injection H5 as <- <- <- <-. split_and!; try done. cbn. congruence.
    + apply bind_Ok in H3 as (? & ? & _ & H3). done.
Qed.

Lemma http_gate first options c r c' : http first options c = (Ready (Ok r), c') ->
  gate options r c c' /\ protocol r = Http.
Proof.
  unfold http. intros H. apply bind_Ok in H as ([e buf] & c1 & H1 & H).
  apply (no_calls_run _ _ _ _ (no_calls_read_header _ _)) in H1.
  apply bind_Ok in H as ([[tg user] ret] & c2 & H2 & H). injection H as <- <-. split; [|done].
  unfold http_decide in H2. apply bind_Ok in H2 as (line & c3 & H3 & H2).
  assert (Hc3 : calls c3 = calls c1).
  { eapply no_calls_run; [|exact H3]. destruct (collect_lines _ _) as [|l ?]; [solve_no_calls|].
    destruct (from_utf8 l); solve_no_calls. }
  apply bind_Ok in H2 as ([] & c4 & H4 & H2). apply (no_calls_run _ _ _ _ (no_calls_strict _ _ _)) in H4.
  apply bind_Ok in H2 as (tg' & c5 & H5 & H2). apply (no_calls_run _ _ _ _ (no_calls_target _)) in H5.
  apply bind_Ok in H2 as ([u re] & c6 & H6 & H2). injection H2 as <- <- <- <-.
  unfold http_auth, auth_407 in H6. destruct (auth_header _) as [[v|]|].
  - apply bind_Ok in H6 as ([id re'] & c7 & H6 & H7). injection H7 as <- <- <-.
    apply http_basic_Ok in H6 as (creds & ? & ? & ? & ? & ? & Hca & ?). right. exists id.
    split; [done|]. exists creds. split_and!; try done. cbn. congruence.
  - by apply http_fail_Ok in H6.
  - destruct (anonymous options) eqn:Ea; [|by apply http_fail_Ok in H6].
    injection H6 as <- <- <-. left. split_and!; try done. congruence.
Qed.

Lemma accept_Ok now1 now2 options c r c' : accept now1 now2 options c = (Ready (Ok r), c') ->
  exists b c1, read 1 c = (Ready (Ok [b]), c1) /\ unread c = b :: unread c1 /\
    now1 < deadline options /\ now2 < deadline options /\ calls c1 = calls c /\
    ((byte_val b = 5 /\ socks options c1 = (Ready (Ok r), c')) \/
     (is_ascii_alphabetic b = true /\ http b options c1 = (Ready (Ok r), c'))).
Proof.
  unfold accept. intros H. apply bind_Ok in H as (b & c1 & [Hb Hd1]%phase_Ok & H).
  unfold first_byte in Hb. apply bind_Ok in Hb as (bs & c2 & Hr & Hb).
  assert (Hne : unread c <> []).
  { intros Hn. rewrite (read_none 1 c Hn) in Hr. destruct (inbound c); by simplify_eq. }
  destruct (read_some 1 c ltac:(lia) Hne) as (bs' & c3 & Hr' & Hu & Hl & _ & _ & _).
  pose proof (no_calls_run _ _ _ _ (no_calls_read 1) Hr) as Hca.
  rewrite Hr' in Hr. injection Hr as <- <-. destruct bs' as [|b' [|]]; simpl in Hl; try lia.
  injection Hb as <- <-. exists b', c3. split_and!; try done.
  - destruct (_ =? 5); [by apply phase_Ok in H as []|].
    destruct (is_ascii_alphabetic b'); [by apply phase_Ok in H as [] | done].
  - destruct (byte_val b' =? 5) eqn:E5; [zify_bools; left; by apply phase_Ok in H as []|].
    destruct (is_ascii_alphabetic b') eqn:Ea; [right; by apply phase_Ok in H as [] | done].
Qed.

Lemma accept_gated now1 now2 options c r c' :
  accept now1 now2 options c = (Ready (Ok r), c') ->
  gate options r c c' /\ now1 < deadline options /\ now2 < deadline options.
Proof.
  intros (b & c1 & _ & _ & Hd1 & Hd2 & Hca & [[_ H]|[_ H]])%accept_Ok.
  - apply socks_gate in H as [Hg _]. split; [|done]. unfold gate, authenticated in *.
    by rewrite <- Hca.
  - apply http_gate in H as [Hg _]. split; [|done]. unfold gate, authenticated in *.
    by rewrite <- Hca.
Qed.

(** C1: nobody gets past [accept] unverified.  A returned request is either anonymous,
    and then anonymous access was allowed and the closure was never asked; or it names
    an identity, and then password access was enabled, the closure was asked exactly
    once, about exactly that identity's credentials, and said yes; the retained copy is
    those credentials exactly when retention was asked for, and without the
    raw-credentials option they were valid UTF-8.  Both deadlines were ahead. *)
Theorem accept_auth_gate now1 now2 options c r c' :
  accept now1 now2 options c = (Ready (Ok r), c') ->
  gate options r c c' /\ now1 < deadline options /\ now2 < deadline options.
Proof. apply accept_gated. Qed.

(** ** Replies *)

Abbreviation polite := (polite handshake_reply broken).

Lemma polite_send_reply bs : bs ∈ handshake_replies -> polite (send bs).
Proof. intros H. unfold send. apply polite_send; done. Qed.

Lemma polite_auth_fail {A} message : polite (auth_fail message : Prog A).
Proof.
  unfold auth_fail. apply polite_bind; [apply polite_send_reply; decide_now | intros; apply polite_fail].
Qed.

Lemma polite_http_fail {A} status error :
  status ∈ [400; 407; 431; 501; 505] -> polite (http_fail status error : Prog A).
Proof.
  intros H. unfold http_fail. destruct (http_error status) as [bs|] eqn:E; [|apply polite_pending].
  apply polite_bind; [|intros; apply polite_fail]. apply polite_send_reply.
  unfold handshake_replies. rewrite !elem_of_app. right. right.
  apply list_elem_of_omap. by exists status.
Qed.

#[local] Hint Extern 1 (polite (send _)) => apply polite_send_reply; decide_now : stream.
#[local] Hint Extern 1 (polite (http_fail _ _)) => apply polite_http_fail; decide_now : stream.
#[local] Hint Extern 1 (polite (auth_fail _)) => apply polite_auth_fail : stream.

Lemma polite_socks_method options methods : polite (socks_method options methods).
Proof. unfold socks_method. solve_polite. Qed.

Lemma socks_method_Ok options methods c chosen c' :
  socks_method options methods c = (Ready (Ok chosen), c') -> chosen = 2 \/ chosen = 0.
Proof.
  unfold socks_method. destruct (_ && _); [intros [= <- _]; by left|].
  destruct (_ && _); [intros [= <- _]; by right|].
  intros (? & ? & _ & H)%bind_Ok. done.
Qed.

Lemma polite_socks_password options : polite (socks_password options).
Proof. unfold socks_password, Stream.read_u8. solve_polite. Qed.

Lemma polite_socks_connect : polite socks_connect.
Proof.
  unfold socks_connect, socks_target, socks_domain, Stream.read_u8, Stream.read_u16.
  solve_polite.
Qed.

Lemma polite_chosen options methods c chosen c' :
  socks_method options methods c = (Ready (Ok chosen), c') ->
  polite (send [byte_of 5; byte_of chosen]).
Proof. intros [-> | ->]%socks_method_Ok; apply polite_send_reply; decide_now. Qed.
#[local] Hint Resolve polite_chosen polite_socks_method polite_socks_password
  polite_socks_connect : stream.

Lemma polite_socks options : polite (socks options).
Proof. unfold socks, Stream.read_u8. solve_polite. Qed.

Lemma polite_http_decide options head : polite (http_decide options head).
Proof.
  unfold http_decide, strict_check, request_target, http_auth, http_basic, auth_407.
  solve_polite.
Qed.

Lemma polite_read_header fuel : forall buf, polite (read_header fuel buf).
Proof. induction fuel as [|fuel IH]; intros buf; cbn [read_header]; solve_polite. Qed.

Lemma polite_http first options : polite (http first options).
Proof.
  pose proof polite_read_header. pose proof polite_http_decide. unfold http. solve_polite.
Qed.

Lemma polite_phase {A} d now (m : Prog A) : polite m -> polite (phase d now m).
Proof.
  intros Hm c. unfold phase. destruct (_ =? 0); [apply polite_fail|].
  specialize (Hm c). destruct (m c) as [[r|] c1]; [done|].
  destruct Hm as (evs & d' & ? & ? & ? & _). by exists evs, d'.
Qed.

(** Whatever the peer sends, [accept] writes only handshake and error replies (or
    the part of one the peer took), never a tunnel success; it never reads on, and
    never asks the host, while something it wrote is unflushed; and when it returns a
    request, or any error other than an I/O failure or the deadline, everything written
    has been flushed.  It always returns: a silent peer costs at most the deadline. *)
Theorem accept_replies now1 now2 options c :
  polite_run handshake_reply broken (accept now1 now2 options c).1 (trace c)
    (trace (accept now1 now2 options c).2) /\
  (accept now1 now2 options c).1 <> Pending /\
  (forall p bs rest, reply_bytes p Established = Some bs -> ~ handshake_reply (bs ++ rest)).
Proof.
  assert (Hp : polite (accept now1 now2 options)).
  { unfold accept. apply polite_bind; [apply polite_phase; unfold first_byte; solve_polite|].
    intros _ first _ _. destruct (_ =? 5); [apply polite_phase, polite_socks|].
    destruct (is_ascii_alphabetic first); [apply polite_phase, polite_http | apply polite_fail]. }
  split; [apply Hp|]. split.
  - assert (Hphase : forall A d now (m : Prog A) c, (phase d now m c).1 <> Pending).
    { intros A d now m c1. unfold phase. destruct (_ =? 0); [done|]. by destruct (m c1) as [[]]. }
    unfold accept, mbind, M_bind. pose proof (Hphase _ (deadline options) now1 first_byte c).
    destruct (phase _ _ first_byte c) as [[[b|e]|] c1]; [|done..].
    destruct (_ =? 5); [apply Hphase|]. by destruct (is_ascii_alphabetic b); [apply Hphase|].
  - intros p bs rest Hbs Hin.
    assert (Hpre : bs ∈ map (take (length bs)) handshake_replies).
    { apply list_elem_of_fmap. exists (bs ++ rest). by rewrite take_app_length. }
    revert Hpre. destruct p; injection Hbs as <-; decide_now.
Qed.

(** ** Targets *)

Definition blank (b : byte) : bool := is_ascii_control b || is_ascii_whitespace b.

(** A target egress can use: an authority, without blanks. *)
Definition usable (tg : bytes) : Prop :=
  (exists hp, HostPort.parse tg = Some hp) /\ existsb blank tg = false.

Lemma existsb_app_false s1 s2 : existsb blank (s1 ++ s2) = false <->
  existsb blank s1 = false /\ existsb blank s2 = false.
Proof. by rewrite existsb_app, orb_false_iff. Qed.

Lemma not_blank (P : byte -> bool) s : (forall c, P c = true -> blank c = false) ->
  forallb P s = true -> existsb blank s = false.
Proof.
  intros HP. induction s as [|c s IH]; [done|]. cbn [forallb existsb].
  intros [Hc Hs]%andb_true_iff. by rewrite HP, IH.
Qed.

Lemma digit_not_blank c : is_ascii_digit c = true -> blank c = false.
Proof.
  rewrite is_ascii_digit_spec. intros H. unfold blank, is_ascii_control, is_ascii_whitespace, in_range.
  lia.
Qed.

Lemma quad_not_blank c : quad_char c = true -> blank c = false.
Proof.
  unfold quad_char. intros [H|H]%orb_true_iff; [by apply digit_not_blank|].
  apply Ascii.eqb_eq in H as ->. done.
Qed.

Lemma fmt_dec_not_blank n : 0 <= n -> existsb blank (fmt_dec n) = false.
Proof.
  intros Hn. apply (not_blank is_ascii_digit); [apply digit_not_blank|]. by apply fmt_dec_spec.
Qed.

Lemma ip_char_not_blank c : ip_char c = true -> blank c = false.
Proof.
  intros H. destruct (blank c) eqn:E; [|done]. exfalso. revert H E. clear.
  destruct c as [[] [] [] [] [] [] [] []]; vm_compute; done.
Qed.

Definition V4_text (octets : list Z) (port : Z) : bytes := fmt_ipv4 octets ++ lit ":" ++ fmt_dec port.
Definition V6_text (segs : list Z) (port : Z) : bytes :=
  lit "[" ++ fmt_ipv6 segs ++ lit "]:" ++ fmt_dec port.

Lemma V4_parse octets port : length octets = 4%nat -> Forall (fun o => 0 <= o) octets ->
  0 <= port <= U16_MAX -> HostPort.parse (V4_text octets port) = Some (HostPort.mk (fmt_ipv4 octets) port).
Proof.
  intros Hl Ho Hp. destruct Ho as [|o os Ho Hos]; [done|].
  pose proof (fmt_ipv4_chars (o :: os) ltac:(by constructor)) as Hc.
  assert (Hne : fmt_ipv4 (o :: os) <> []) by by apply fmt_ipv4_nonempty.
  apply HostPort.parse_plain; try done.
  - apply contains_false. intros Hin. rewrite forallb_forall in Hc.
    apply list_elem_of_In, Hc in Hin. done.
  - destruct (fmt_ipv4 (o :: os)) as [|c s]; [done|]. cbn [forallb] in Hc.
    apply andb_true_iff in Hc as [Hc _]. change (Ascii.eqb "[" c && true = false).
    rewrite andb_true_r. by destruct (Ascii.eqb_spec "[" c) as [<-|].
Qed.

Lemma V4_usable octets port : length octets = 4%nat -> Forall (fun o => 0 <= o) octets ->
  0 <= port <= U16_MAX -> usable (V4_text octets port).
Proof.
  intros Hl Ho Hp. split; [eexists; by apply V4_parse|]. unfold V4_text.
  rewrite !existsb_app_false. split_and!; [|done | apply fmt_dec_not_blank; lia].
  apply (not_blank quad_char); [apply quad_not_blank | by apply fmt_ipv4_chars].
Qed.

Lemma V6_parse segs port : length segs = 8%nat -> Forall (fun g => 0 <= g <= U16_MAX) segs ->
  0 <= port <= U16_MAX -> HostPort.parse (V6_text segs port) = Some (HostPort.mk (fmt_ipv6 segs) port).
Proof. intros Hl Hs Hp. apply HostPort.parse_bracketed; [by apply fmt_ipv6_is_ipv6 | done]. Qed.

Lemma V6_usable segs port : length segs = 8%nat -> Forall (fun g => 0 <= g <= U16_MAX) segs ->
  0 <= port <= U16_MAX -> usable (V6_text segs port).
Proof.
  intros Hl Hs Hp. split; [eexists; by apply V6_parse|]. unfold V6_text.
  rewrite !existsb_app_false. split_and!; [done | | done | apply fmt_dec_not_blank; lia].
  apply (not_blank ip_char); [apply ip_char_not_blank|].
  apply is_ipv6_chars. by apply fmt_ipv6_is_ipv6.
Qed.

Lemma read_u16_range (c : conn Credentials) n c' : Stream.read_u16 (E := ServerError) early_eof c = (Ready (Ok n), c') -> 0 <= n <= U16_MAX.
Proof.
  unfold Stream.read_u16. intros (bs & c1 & _ & H)%bind_Ok. injection H as <- _.
  destruct bs as [|a [|b ?]]; unfold U16_MAX; try lia.
  pose proof (byte_val_range a). pose proof (byte_val_range b). lia.
Qed.

Lemma socks_target_Ok atyp c tg c' : socks_target atyp c = (Ready (Ok tg), c') -> usable tg.
Proof.
  unfold socks_target. intros H.
  assert (Hv4 : forall c, (ip ← read_exact 4; port ← read_u16;
            mret (fmt_ipv4 (map byte_val ip) ++ lit ":" ++ fmt_dec port)) c = (Ready (Ok tg), c') -> usable tg).
  { clear. intros c H. apply bind_Ok in H as (ip & c1 & H1 & H). apply bind_Ok in H as (port & c2 & H2 & H).
    injection H as <- <-. apply read_exact_Ok in H1 as [Hl _]. apply V4_usable; [by rewrite length_map | |
      by eapply read_u16_range]. clear. induction ip; constructor; [apply byte_val_range | done]. }
  assert (Hv6 : forall c, (ip ← read_exact 16; port ← read_u16;
            mret (lit "[" ++ fmt_ipv6 (be_segments ip) ++ lit "]:" ++ fmt_dec port)) c = (Ready (Ok tg), c') -> usable tg).
  { clear. intros c H. apply bind_Ok in H as (ip & c1 & H1 & H). apply bind_Ok in H as (port & c2 & H2 & H).
    injection H as <- <-. apply read_exact_Ok in H1 as [Hl _].
    apply V6_usable; [by apply be_segments_length | apply be_segments_range | by eapply read_u16_range]. }
  assert (Hd : forall c, socks_domain c = (Ready (Ok tg), c') -> usable tg).
  { clear. intros c H. unfold socks_domain in H.
    apply bind_Ok in H as (len & c1 & _ & H). apply bind_Ok in H as (d & c2 & _ & H).
    apply bind_Ok in H as (port & c3 & Hp & H). destruct (utf8_error d); [done|].
    destruct (_ || _) eqn:E; [by apply bind_Ok in H as (? & ? & _ & H)|].
    injection H as <- <-. apply orb_false_iff in E as [[_ Hb]%orb_false_iff Hpar].
    split; [destruct (HostPort.parse _); [by eexists|done]|].
    rewrite !existsb_app_false. split_and!; [done..|].
    apply fmt_dec_not_blank. apply read_u16_range in Hp. lia. }
  assert (Hno : forall A (m : Prog A) c e, (_ ← m; fail e) c = (Ready (Ok tg), c') -> usable tg).
  { clear. intros A m c e H. by apply bind_Ok in H as (? & ? & _ & H). }
  repeat match type of H with context [match ?x with _ => _ end] => destruct x end; eauto.
Qed.

Lemma request_target_Ok line c tg c' : request_target line c = (Ready (Ok tg), c') ->
  c' = c /\ usable tg /\ exists version rest, splitn 3 SP line = lit "CONNECT" :: tg :: version :: rest.
Proof.
  unfold request_target. generalize (splitn 3 SP line). intros parts.
  destruct (_ || _ || _) eqn:E; [by intros ?%http_fail_Ok|].
  destruct (negb (bool_decide _)) eqn:Em; [by intros ?%http_fail_Ok|].
  destruct (existsb _ _) eqn:Eb; [by intros ?%http_fail_Ok|].
  destruct (HostPort.parse _) eqn:Ep; [|by intros ?%http_fail_Ok].
  intros [= <- <-]. split; [done|]. split; [by split; [eexists|]|].
  apply negb_false_iff, bool_decide_eq_true in Em.
  apply orb_false_iff in E as [[_ E1]%orb_false_iff E2]. apply negb_false_iff in E2.
  apply bool_decide_eq_false in E1.
  destruct parts as [|m [|x [|v rest]]]; try done.
  exists v, rest. by cbn in Em; subst m.
Qed.

Lemma socks_connect_Ok c tg c' : socks_connect c = (Ready (Ok tg), c') -> usable tg.
Proof.
  unfold socks_connect. intros (header & c1 & _ & H)%bind_Ok.
  destruct header as [|ver [|cmd [|rsv [|atyp [|]]]]]; try done.
  destruct (negb _); [done|]. destruct (negb _); [by apply bind_Ok in H as (? & ? & _ & H)|].
  by eapply socks_target_Ok.
Qed.

(** Taking a run of the HTTP handler apart. *)
Lemma http_Ok first options c r c' : http first options c = (Ready (Ok r), c') ->
  exists e buf c1, read_header (S MAX_HEADER_BYTES) [first] c = (Ready (Ok (e, buf)), c1) /\
    http_decide options (take (e - 4) buf) c1
      = (Ready (Ok (target r, req_username r, credentials r)), c') /\
    protocol r = Http /\ req_username_raw r = None /\ pipeline r = drop e buf.
Proof.
  unfold http. intros ([e buf] & c1 & H1 & H)%bind_Ok.
  apply bind_Ok in H as ([[tg user] ret] & c2 & H2 & H). injection H as <- <-.
  exists e, buf, c1. done.
Qed.

(** The request line and header lines of a header block. *)
Definition request_line_of (head : bytes) : bytes :=
  match collect_lines (S (length head)) head with line :: _ => line | [] => [] end.
Definition header_lines_of (head : bytes) : list bytes :=
  tail (collect_lines (S (length head)) head).

Lemma http_decide_Ok options head c tg user ret c' :
  http_decide options head c = (Ready (Ok (tg, user, ret)), c') ->
  exists c1 c2, c1 = c /\
    strict_check options (request_line_of head) (header_lines_of head) c1 = (Ready (Ok tt), c2) /\
    request_target (request_line_of head) c2 = (Ready (Ok tg), c2) /\
    http_auth options (header_lines_of head) c2 = (Ready (Ok (user, ret)), c').
Proof.
  unfold http_decide, request_line_of, header_lines_of. intros (line & c1 & H1 & H)%bind_Ok.
  assert (Hline : c1 = c /\
    line = match collect_lines (S (length head)) head with line :: _ => line | [] => [] end).
  { destruct (collect_lines _ _) as [|l ?]; [by injection H1 as <- <-|].
    destruct (from_utf8 l) as [s|] eqn:E; [|by apply http_fail_Ok in H1]. injection H1 as <- <-.
    split; [done|]. unfold from_utf8 in E. destruct (utf8_chars l); [by injection E as ->|done]. }
  destruct Hline as [-> ->]. apply bind_Ok in H as ([] & c2 & H2 & H).
  apply bind_Ok in H as (tg' & c3 & H3 & H). pose proof H3 as [-> _]%request_target_Ok.
  apply bind_Ok in H as ([u re] & c4 & H4 & H). injection H as <- <- <- <-.
  by exists c, c2.
Qed.

(** The host only ever gets a target it can route: whatever protocol and address
    type the peer used, the target of a returned request parses as an authority, and
    holds no blank or control byte. *)
Theorem accept_target_usable now1 now2 options c r c' :
  accept now1 now2 options c = (Ready (Ok r), c') -> usable (target r).
Proof.
  intros (b & c1 & _ & _ & _ & _ & _ & [[_ H]|[_ H]])%accept_Ok.
  - unfold socks in H. apply bind_Ok in H as (? & ? & _ & H). apply bind_Ok in H as (? & ? & _ & H).
    apply bind_Ok in H as (? & ? & _ & H). apply bind_Ok in H as (? & ? & _ & H).
    apply bind_Ok in H as ([[user raw] ret] & ? & _ & H).
    apply bind_Ok in H as (tg & ? & Ht & H). injection H as <- <-. by eapply socks_connect_Ok.
  - apply http_Ok in H as (e & buf & c2 & _ & Hd & _).
    apply http_decide_Ok in Hd as (c3 & c4 & _ & _ & Ht & _).
    by apply request_target_Ok in Ht as (_ & Hu & _).
Qed.

(** ** Strict mode *)

Lemma strict_off options line headers c :
  strict_check (Options.strict_http options false) line headers c = (Ready (Ok tt), c).
Proof. done. Qed.

Lemma strict_check_Ok options line headers c c' :
  strict_http options = true -> strict_check options line headers c = (Ready (Ok tt), c') ->
  c' = c /\ StrictHttp.validate line headers = Ok tt.
Proof.
  unfold strict_check. intros ->. destruct (StrictHttp.validate line headers) as [[]|[r|]].
  - by intros [= <-].
  - by intros ?%http_fail_Ok.
  - by intros ?%http_fail_Ok.
Qed.

(** Only the strict check looks at the strict option. *)
Lemma http_auth_strict_blind options b headers c :
  http_auth (Options.strict_http options b) headers c = http_auth options headers c.
Proof. done. Qed.
Lemma socks_strict_blind options b c : socks (Options.strict_http options b) c = socks options c.
Proof. done. Qed.

Lemma read_header_Ok first c e buf c' :
  read_header (S MAX_HEADER_BYTES) [first] c = (Ready (Ok (e, buf)), c') ->
  exists pos, e = (pos + 4)%nat /\ (e <= MAX_HEADER_BYTES)%nat /\ (e <= length buf)%nat /\
    first :: unread c = buf ++ unread c' /\
    take pos buf ++ CRLFCRLF ++ drop e buf = buf /\
    (forall m, (m < pos)%nat -> starts_with CRLFCRLF (drop m (first :: unread c)) = false).
Proof.
  intros H. destruct (read_header_spec (S MAX_HEADER_BYTES) [first] c (first_no_terminator first)
    one_fits fuel_enough)
    as [(pos & buf' & c1 & Hf & Hm & Hr & Ha & Hl & _) | [(_ & _ & c1 & Hr & _) | (_ & _ & c1 & Hr & _)]];
    rewrite Hr in H.
  - injection H as <- <- <-. exists pos. apply find_sub_Some in Hf as (Hs & _ & Hno).
    split_and!; try done. rewrite <- (take_drop pos buf') at 3. f_equal.
    rewrite Ha in Hs. rewrite drop_app_le in Hs by lia.
    rewrite starts_with_app_le in Hs by (rewrite length_drop; cbn [CRLFCRLF length]; lia).
    apply starts_with_spec in Hs. rewrite <- (take_drop 4 (drop pos buf')), drop_drop.
    by rewrite <- Hs at 1.
  - by apply http_fail_Ok in H.
  - by destruct (inbound c).
Qed.

(** The header block, its terminator, the payload already read, and the rest. *)
Definition framed (sent : bytes) (head : bytes) (r : IncomingRequest) (rest : bytes) : Prop :=
  sent = head ++ CRLFCRLF ++ pipeline r ++ rest /\
  (length head + 4 <= MAX_HEADER_BYTES)%nat /\
  (forall m, (m < length head)%nat -> starts_with CRLFCRLF (drop m sent) = false).

Lemma quiet_unread {A} (m : Prog A) c r c' : quiet m -> m c = (r, c') -> unread c' = unread c.
Proof. intros Hm H. destruct (Hm c c ltac:(done)) as (_ & _ & Hu & _). by rewrite H in Hu. Qed.

Lemma http_framed first options c r c' : http first options c = (Ready (Ok r), c') ->
  exists head c1, framed (first :: unread c) head r (unread c') /\
    http_decide options head c1 = (Ready (Ok (target r, req_username r, credentials r)), c').
Proof.
  intros (e & buf & c1 & Hh & Hd & _ & _ & Hp)%http_Ok.
  apply read_header_Ok in Hh as (pos & -> & Hm & Hl & Ha & Hbuf & Hno).
  rewrite Nat.add_sub in Hd. exists (take pos buf), c1. split; [|done].
  assert (Hlen : length (take pos buf) = pos) by (rewrite length_take; lia).
  split_and!; [| by rewrite Hlen | by rewrite Hlen].
  rewrite Ha, Hp, (quiet_unread _ _ _ _ (quiet_http_decide _ _) Hd), <- Hbuf at 1.
  by rewrite <- !app_assoc.
Qed.

(** No more than the last read is taken ahead. *)
Lemma read_header_ahead fuel : forall buf c e buf' c', read_header fuel buf c = (Ready (Ok (e, buf')), c') ->
  (length (drop e buf') <= 1024)%nat.
Proof.
  induction fuel as [|fuel IH]; intros buf c e buf' c' H; [done|]. cbn [read_header] in H.
  apply bind_Ok in H as (tmp & c1 & Hr & H). case_bool_decide as Ht; [done|].
  destruct (find_sub _ _) as [pos|] eqn:Ef.
  - destruct (_ <? _)%nat; [by apply http_fail_Ok in H|]. injection H as <- <- <-.
    assert (length tmp <= 1024)%nat; [|rewrite length_drop, length_app; lia].
    unfold read in Hr. cbn [chunks log inbound] in Hr.
    destruct (chunks c) as [|p cs]; [by destruct (inbound c); simplify_eq|].
    assert (tmp = take 1024 (chunk_bytes p)) as -> by congruence. rewrite length_take. lia.
  - destruct (_ <? _)%nat; [by apply http_fail_Ok in H | by apply IH in H].
Qed.

Lemma accept_ahead now1 now2 options c r c' : accept now1 now2 options c = (Ready (Ok r), c') ->
  (length (pipeline r) <= 1024)%nat /\ (protocol r = Socks5 -> pipeline r = []).
Proof.
  intros (b & c1 & _ & _ & _ & _ & _ & [[_ H]|[_ H]])%accept_Ok.
  - apply socks_gate in H as (_ & -> & ->). split; [cbn; lia | done].
  - pose proof H as [_ ->]%http_gate. apply http_Ok in H as (e & buf & c2 & Hh & _ & _ & _ & ->).
    split; [by apply read_header_ahead in Hh | done].
Qed.

(** An accepted CONNECT is framed by its own first blank line: what the peer sent is
    the header block, the blank line, the pipeline and then what is still unread, so no
    payload byte is lost, repeated or taken into the header; the header with its blank
    line is within the 16 KiB limit. An accepted SOCKS request has read nothing ahead. *)
Theorem accept_framing now1 now2 options c r c' :
  accept now1 now2 options c = (Ready (Ok r), c') ->
  match protocol r with
  | Http => exists head, framed (unread c) head r (unread c')
  | Socks5 => pipeline r = []
  end.
Proof.
  intros (b & c1 & _ & Hu & _ & _ & _ & [[_ H]|[_ H]])%accept_Ok.
  - apply socks_gate in H as (_ & -> & ->). done.
  - pose proof H as [_ ->]%http_gate. apply http_framed in H as (head & c2 & Hf & _).
    rewrite Hu. by exists head.
Qed.

Lemma splitn_three c s x y z : splitn 3 c s = [x; y; z] -> s = x ++ c :: y ++ c :: z.
Proof.
  cbn [splitn]. destruct (split_once c s) as [[a r]|] eqn:E1; [|done].
  destruct (split_once c r) as [[a' r']|] eqn:E2; [|done]. intros [= <- <- <-].
  apply split_once_Some in E1 as [-> _], E2 as [-> _]. done.
Qed.

Lemma http_decide_strict_off options head c a c' : strict_http options = true ->
  http_decide options head c = (Ready (Ok a), c') ->
  http_decide (Options.strict_http options false) head c = (Ready (Ok a), c').
Proof.
  intros Hs. unfold http_decide. intros (line & c1 & H1 & H)%bind_Ok.
  rewrite (bind_step _ _ _ _ _ H1). apply bind_Ok in H as ([] & c2 & H2 & H).
  apply strict_check_Ok in H2 as [-> _]; [|done]. by rewrite (bind_step _ _ _ _ _ (strict_off _ _ _ _)).
Qed.

Lemma http_strict_off first options c r c' : strict_http options = true ->
  http first options c = (Ready (Ok r), c') ->
  http first (Options.strict_http options false) c = (Ready (Ok r), c').
Proof.
  intros Hs. unfold http. intros ([e buf] & c1 & H1 & H)%bind_Ok.
  rewrite (bind_step _ _ _ _ _ H1). apply bind_Ok in H as ([[tg user] ret] & c2 & H2 & H).
  by rewrite (bind_step _ _ _ _ _ (http_decide_strict_off _ _ _ _ _ Hs H2)).
Qed.

Lemma phase_same {A} d now (m m' : Prog A) c a c' : phase d now m c = (Ready (Ok a), c') ->
  (m c = (Ready (Ok a), c') -> m' c = (Ready (Ok a), c')) -> phase d now m' c = (Ready (Ok a), c').
Proof.
  intros H Hm. pose proof H as [Hok _]%phase_Ok. unfold phase in *.
  destruct (_ =? 0); [done|]. by rewrite (Hm Hok).
Qed.

Lemma accept_strict_off now1 now2 options c r c' : strict_http options = true ->
  accept now1 now2 options c = (Ready (Ok r), c') ->
  accept now1 now2 (Options.strict_http options false) c = (Ready (Ok r), c').
Proof.
  intros Hs. unfold accept. intros (b & c1 & H1 & H)%bind_Ok. rewrite (bind_step _ _ _ _ _ H1).
  destruct (_ =? 5); [by eapply phase_same; [exact H|] |].
  destruct (is_ascii_alphabetic b); [|done].
  eapply phase_same; [exact H|]. by apply http_strict_off.
Qed.

(** Strict mode only narrows what is accepted: a request it lets through is the one
    the lenient parser would have returned, having done the same; and of an HTTP
    request it has established a single [Proxy-Authorization] at most, a single [Host]
    (mandatory for HTTP/1.1), well-formed header lines, and a port other than 0. *)
Theorem strict_only_narrows now1 now2 options c r c' : strict_http options = true ->
  accept now1 now2 options c = (Ready (Ok r), c') ->
  accept now1 now2 (Options.strict_http options false) c = (Ready (Ok r), c') /\
  (protocol r = Http -> exists head version hp, framed (unread c) head r (unread c') /\
     request_line_of head = lit "CONNECT " ++ target r ++ SP :: version /\
     (version = lit "HTTP/1.0" \/ version = lit "HTTP/1.1") /\
     HostPort.parse (target r) = Some hp /\ 1 <= HostPort.port hp /\
     Forall (fun line => is_ok (StrictHttp.split_header line) = true) (header_lines_of head) /\
     StrictHttp.occurrences (lit "host") (header_lines_of head) <= 1 /\
     (version = lit "HTTP/1.1" -> StrictHttp.occurrences (lit "host") (header_lines_of head) = 1) /\
     StrictHttp.occurrences (lit "proxy-authorization") (header_lines_of head) <= 1).
Proof.
  intros Hs Hacc. split; [by apply accept_strict_off|].
  apply accept_Ok in Hacc as (b & c1 & _ & Hu & _ & _ & _ & [[_ H]|[_ H]]).
  { apply socks_gate in H as (_ & -> & _). done. }
  intros _. apply http_framed in H as (head & c2 & Hf & Hd). rewrite Hu.
  apply http_decide_Ok in Hd as (c3 & c4 & -> & Hstrict & Ht & _).
  apply strict_check_Ok in Hstrict as [-> Hv]; [|done].
  apply request_target_Ok in Ht as (_ & _ & v' & rest & Hsplit).
  apply StrictHttp.validate_Ok in Hv as (m & tg & v & hp & Hsp & _ & _ & _ & ? & _ & Hp & ? & ? & ? & ? & ?).
  pose proof Hsp as Hline. rewrite Hsplit in Hsp. injection Hsp as <- <- <- ->.
  exists head, v', hp. split_and!; try done. by apply splitn_three in Hline.
Qed.

End Accept.

(** ** Witnesses: a strict HTTP request with credentials, in two deliveries *)

Definition crlf_lines (lines : list bytes) : bytes := concat (map (fun l => l ++ CRLF) lines).
Definition http_text : bytes :=
  crlf_lines [lit "CONNECT a.b:443 HTTP/1.1"; lit "Host: a.b";
              lit "Proxy-Authorization: Basic u:pw"] ++ CRLF ++ lit "hi".
Definition http_bytewise : conn Credentials := mkConn (map (fun b => (b, [])) http_text) Eof None [].
Definition http_at_once : conn Credentials := mkConn (chunk_of http_text) Eof None [].
Definition http_error_value : IoError := mkIoError (lit "end of file").
Definition http_user (creds : Credentials) : option bool :=
  Some (bool_decide (Creds.into_parts creds = (lit "u", lit "pw"))).
Definition http_options : ServerOptions :=
  Options.strict_http (Options.retain_credentials (Options.new 10 false true) true) true.
(** The token stands for itself: the identity as the base64 engine. *)
Abbreviation http_accept :=
  (accept http_error_value http_error_value Some (fun s => s) http_user 0 1 http_options).
Definition http_served (pipeline : bytes) : IncomingRequest :=
  mkRequest Http (lit "a.b:443") (Some (lit "u")) None (Some (Creds.new (lit "u") (lit "pw"))) pipeline.

Lemma http_at_once_run :
  http_accept http_at_once = (Ready (Ok (http_served (lit "hi"))), (http_accept http_at_once).2).
Proof. vm_compute. reflexivity. Qed.

Lemma accept_chunking_witness :
  delivered (http_accept http_bytewise) = delivered (http_accept http_at_once) /\
  outputs (http_accept http_bytewise).2 = outputs (http_accept http_at_once).2.
Proof.
  apply (accept_chunking http_error_value http_error_value Some (fun s => s) http_user 0 1
    http_options http_bytewise http_at_once). vm_compute. repeat split.
Defined.

Lemma accept_auth_gate_witness :
  gate http_user http_options (http_served (lit "hi")) http_at_once (http_accept http_at_once).2 /\
  0 < deadline http_options /\ 1 < deadline http_options.
Proof.
  apply (accept_auth_gate http_error_value http_error_value Some (fun s => s) http_user 0 1
    http_options http_at_once _ _ http_at_once_run).
Defined.

Lemma accept_target_usable_witness : usable (lit "a.b:443").
Proof.
  apply (accept_target_usable http_error_value http_error_value Some (fun s => s) http_user 0 1
    http_options http_at_once _ _ http_at_once_run).
Defined.

Lemma accept_framing_witness : exists head,
  framed (unread http_at_once) head (http_served (lit "hi")) (unread (http_accept http_at_once).2).
Proof.
  apply (accept_framing http_error_value http_error_value Some (fun s => s) http_user 0 1
    http_options http_at_once _ _ http_at_once_run).
Defined.

Lemma strict_only_narrows_witness :
  accept http_error_value http_error_value Some (fun s => s) http_user 0 1
    (Options.strict_http http_options false) http_at_once
  = (Ready (Ok (http_served (lit "hi"))), (http_accept http_at_once).2).
Proof.
  apply (strict_only_narrows http_error_value http_error_value Some (fun s => s) http_user 0 1
    http_options http_at_once _ _ eq_refl http_at_once_run).
Defined.

End Server.
