(* ===== verification/Handshake.v ===== *)
(** * Handshake: what a well-behaved peer gets, and the stream the host goes on with

    The client side of the SOCKS5 handshake as an encoder, and the proof that
    [Server.accept] accepts exactly what it encodes, however it is cut into
    reads; the read side of [Prefixed] ([server/prefixed.rs]), which serves the
    bytes [accept] read ahead before the rest of the stream. *)
From S2P Require Import Prelude Text TextFmt HostPort Errors Stream StrictHttp Server.

Module Handshake.
Import Stream Server.

(** ** A logic for runs on a good connection *)

Section Runs.
Context {X E : Type} `{FromIo E}.

(** The peer sends [rest] in some pieces, takes everything written, and has seen [o]. *)
Definition at_point (c : conn X) (rest : bytes) (o : list (event X)) : Prop :=
  unread c = rest /\ room c = None /\ outputs c = o.

(** From there, [m] returns [a] having consumed and done exactly this. *)
Definition yields {A} (m : M X E A) (rest : bytes) (o : list (event X)) (a : A)
    (rest' : bytes) (o' : list (event X)) : Prop :=
  forall c, at_point c rest o -> exists c', m c = (Ready (Ok a), c') /\ at_point c' rest' o'.

Lemma yields_ret {A} (a : A) rest o : yields (mret a) rest o a rest o.
Proof. intros c Hc. by exists c. Qed.

Lemma yields_bind {A B} (m : M X E A) (f : A -> M X E B) r0 o0 a r1 o1 b r2 o2 :
  yields m r0 o0 a r1 o1 -> yields (f a) r1 o1 b r2 o2 -> yields (m ≫= f) r0 o0 b r2 o2.
Proof.
  intros Hm Hf c (c1 & H1 & Hc1)%Hm. apply Hf in Hc1 as (c2 & H2 & Hc2).
  exists c2. by rewrite (bind_step _ _ _ _ _ H1).
Qed.

Lemma yields_read_exact ee n a rest o : length a = n ->
  yields (read_exact ee n) (a ++ rest) o a rest o.
Proof.
  intros <- c (Hu & Hr & Ho).
  destruct (read_exact_enough (E := E) ee (length a) c) as (cs & Hf & Heq).
  { rewrite Hu, length_app. lia. }
  rewrite Heq, Hu, take_app_length. eexists. split; [done|]. split_and!; [| done |].
  - unfold unread. cbn [with_chunks chunks]. by rewrite Hf, Hu, drop_app_length.
  - etrans; [apply (outputs_read (length a) c) | done].
Qed.

Lemma yields_read_one b rest o : yields (read 1) (b :: rest) o [b] rest o.
Proof.
  intros c (Hu & Hr & Ho).
  destruct (read_some (E := E) 1 c) as (bs & c' & Heq & Hb & Hl & _ & Hr' & Ht); [lia | by rewrite Hu|].
  rewrite Hu in Hb. destruct bs as [|x [|]]; simpl in Hl; try lia. injection Hb as <- Hrest.
  exists c'. rewrite Heq. split; [done|]. split_and!; [done | congruence |].
  unfold outputs in *. by rewrite Ht, List.filter_app, Ho, app_nil_r.
Qed.

Lemma at_point_log ev c rest o : is_output ev = true ->
  at_point c rest o -> at_point (log ev c) rest (o ++ [ev]).
Proof.
  intros He (Hu & Hr & Ho). split_and!; [done..|]. unfold outputs in *. cbn [log trace].
  rewrite List.filter_app, Ho. cbn [List.filter]. by rewrite He.
Qed.

Lemma yields_write wz bs rest o : yields (write_all wz bs) rest o tt rest (o ++ [EvWrite bs]).
Proof.
  intros c Hc. pose proof Hc as (_ & Hr & _). unfold write_all. rewrite Hr.
  eexists. split; [done | by apply at_point_log].
Qed.

Lemma yields_flush rest o : yields flush rest o tt rest (o ++ [EvFlush]).
Proof.
  intros c Hc. pose proof Hc as (_ & Hr & _). unfold flush. rewrite Hr.
  eexists. split; [done | by apply at_point_log].
Qed.

Lemma yields_call {A} x (a : A) rest o : yields (call x (Some a)) rest o a rest (o ++ [EvCall x]).
Proof. intros c Hc. eexists. split; [done | by apply at_point_log]. Qed.

End Runs.

(** ** The client's encoding *)

Definition z_len (s : bytes) : Z := Z.of_nat (length s).

Inductive Dest :=
| ToV4 (octets : bytes)
| ToV6 (octets : bytes)
| ToDomain (name : bytes).

Definition dest_bytes (d : Dest) : bytes :=
  match d with
  | ToV4 octets => byte_of 1 :: octets
  | ToV6 octets => byte_of 4 :: octets
  | ToDomain name => byte_of 3 :: byte_of (z_len name) :: name
  end.
Definition dest_text (d : Dest) (port : Z) : bytes :=
  match d with
  | ToV4 octets => fmt_ipv4 (map byte_val octets) ++ lit ":" ++ fmt_dec port
  | ToV6 octets => lit "[" ++ fmt_ipv6 (be_segments octets) ++ lit "]:" ++ fmt_dec port
  | ToDomain name => name ++ lit ":" ++ fmt_dec port
  end.
Definition dest_ok (d : Dest) (port : Z) : Prop :=
  match d with
  | ToV4 octets => length octets = 4%nat
  | ToV6 octets => length octets = 16%nat
  | ToDomain name => 0 < z_len name < 256 /\ from_utf8 name = Some name /\
      existsb blank name = false /\ HostPort.parse (dest_text d port) <> None
  end.

Definition port_bytes (port : Z) : bytes := [byte_of (port / 256); byte_of (port mod 256)].
Definition connect_bytes (d : Dest) (port : Z) : bytes :=
  map byte_of [5; 1; 0] ++ dest_bytes d ++ port_bytes port.

(** The RFC 1929 message. *)
Definition auth_bytes (user pass : bytes) : bytes :=
  byte_of 1 :: byte_of (z_len user) :: user ++ byte_of (z_len pass) :: pass.

(** The whole client side; [rest] is what it sends once connected. *)
Definition client_bytes (methods : bytes) (auth : option (bytes * bytes)) (d : Dest) (port : Z)
    (rest : bytes) : bytes :=
  byte_of 5 :: byte_of (z_len methods) :: methods
  ++ (match auth with Some (user, pass) => auth_bytes user pass | None => [] end)
  ++ connect_bytes d port ++ rest.

(** What the server does towards the client and the host. *)
Definition server_events (auth : option (bytes * bytes)) : list (event Credentials) :=
  match auth with
  | Some (user, pass) =>
      [EvWrite (map byte_of [5; 2]); EvFlush; EvCall (Creds.new user pass);
       EvWrite (map byte_of [1; 0]); EvFlush]
  | None => [EvWrite (map byte_of [5; 0]); EvFlush]
  end.

(** The request the server makes of it. *)
Definition served (options : ServerOptions) (auth : option (bytes * bytes)) (d : Dest) (port : Z)
    : IncomingRequest :=
  mkRequest Socks5 (dest_text d port) (fst <$> auth) None
    (match auth with
     | Some (user, pass) => if retain_credentials options then Some (Creds.new user pass) else None
     | None => None
     end) [].

Section Client.
Variables (early_eof write_zero : IoError).
Variable decode : bytes -> option bytes.
Variable str_debug : bytes -> bytes.
Variable authenticate : Credentials -> option bool.

(** The method the client offers and the server can serve. *)
Definition auth_ok (options : ServerOptions) (methods : bytes) (auth : option (bytes * bytes)) : Prop :=
  match auth with
  | Some (user, pass) =>
      password_capability options = true /\ byte_of 2 ∈ methods /\
      0 < z_len user < 256 /\ 0 < z_len pass < 256 /\
      from_utf8 user = Some user /\ from_utf8 pass = Some pass /\
      authenticate (Creds.new user pass) = Some true
  | None =>
      anonymous options = true /\ byte_of 0 ∈ methods /\
      (password_capability options = true -> byte_of 2 ∉ methods)
  end.

Lemma byte_len s : z_len s < 256 -> Z.to_nat (byte_val (byte_of (z_len s))) = length s.
Proof. intros H. unfold z_len in *. rewrite byte_val_of by lia. lia. Qed.

Lemma byte_len_pos s : 0 < z_len s < 256 -> (byte_val (byte_of (z_len s)) =? 0) = false.
Proof. intros H. rewrite byte_val_of by (unfold z_len in *; lia). apply Z.eqb_neq. lia. Qed.

Lemma yields_u8 b rest (o : list (event Credentials)) :
  yields (E := ServerError) (read_u8 early_eof) (b :: rest) o (byte_val b) rest o.
Proof.
  unfold read_u8. eapply yields_bind; [exact (yields_read_exact _ 1 [b] rest o eq_refl) | apply yields_ret].
Qed.

Lemma yields_port port rest (o : list (event Credentials)) : 0 <= port <= U16_MAX ->
  yields (E := ServerError) (read_u16 early_eof) (port_bytes port ++ rest) o port rest o.
Proof.
  intros Hp. unfold read_u16.
  assert (Heq : byte_val (byte_of (port / 256)) * 256 + byte_val (byte_of (port mod 256)) = port).
  { unfold U16_MAX in Hp. pose proof (Z.mod_pos_bound port 256 ltac:(lia)).
    assert (port / 256 < 256) by (apply Z.div_lt_upper_bound; lia).
    assert (0 <= port / 256) by (apply Z.div_pos; lia).
    rewrite !byte_val_of by lia. pose proof (Z.div_mod port 256). lia. }
  eapply yields_bind; [by apply yields_read_exact|]. cbn [port_bytes]. rewrite Heq. apply yields_ret.
Qed.

Lemma yields_send bs rest (o : list (event Credentials)) :
  yields (send write_zero bs) rest o tt rest (o ++ [EvWrite bs; EvFlush]).
Proof.
  unfold send. eapply yields_bind; [apply yields_write|].
  replace (o ++ [EvWrite bs; EvFlush]) with ((o ++ [EvWrite bs]) ++ [EvFlush]) by by rewrite <- app_assoc.
  apply yields_flush.
Qed.

Lemma yields_method options methods auth rest o : auth_ok options methods auth ->
  yields (socks_method write_zero options methods) rest o
    (match auth with Some _ => 2 | None => 0 end) rest o.
Proof.
  unfold socks_method. destruct auth as [[user pass]|]; cbn [auth_ok].
  - intros (-> & Hin & _). apply contains_true in Hin. rewrite Hin. apply yields_ret.
  - intros (-> & Hin & Hno). apply contains_true in Hin. rewrite Hin.
    destruct (password_capability options) eqn:E; [|apply yields_ret].
    rewrite (proj2 (contains_false _ _) (Hno eq_refl)). apply yields_ret.
Qed.

Lemma yields_password options methods user pass rest o :
  auth_ok options methods (Some (user, pass)) ->
  yields (socks_password early_eof write_zero authenticate options) (auth_bytes user pass ++ rest) o
    (user, None, if retain_credentials options then Some (Creds.new user pass) else None) rest
    (o ++ [EvCall (Creds.new user pass); EvWrite (map byte_of [1; 0]); EvFlush]).
Proof.
  intros (_ & _ & Hu & Hp & Htu & Htp & Hauth). unfold socks_password, auth_bytes.
  eapply yields_bind.
  { by apply (yields_read_exact _ _ [byte_of 1; byte_of (z_len user)]
      ((user ++ byte_of (z_len pass) :: pass) ++ rest)). }
  cbn iota. rewrite byte_val_of by lia. cbn [Z.eqb Pos.eqb negb]. rewrite byte_len_pos by done.
  rewrite <- app_assoc. eapply yields_bind; [apply yields_read_exact; by rewrite byte_len by lia|].
  cbn [app]. eapply yields_bind; [apply yields_u8|].
  rewrite byte_len_pos by done.
  eapply yields_bind; [apply yields_read_exact; by rewrite byte_len by lia|].
  unfold field_text. rewrite Htu, Htp. cbn iota.
  change (Creds.with_raw user pass None None) with (Creds.new user pass). rewrite Hauth, duplicate_eq.
  eapply yields_bind; [apply yields_call|]. cbn [negb].
  eapply yields_bind; [apply yields_send|]. rewrite <- app_assoc. apply yields_ret.
Qed.

Lemma yields_target d port rest o : dest_ok d port -> 0 <= port <= U16_MAX ->
  yields (socks_connect early_eof write_zero str_debug) (connect_bytes d port ++ rest) o
    (dest_text d port) rest o.
Proof.
  intros Hd Hp. unfold socks_connect, connect_bytes. rewrite <- !app_assoc.
  destruct d as [octets|octets|name]; cbn [dest_bytes dest_ok map app] in *;
    (eapply yields_bind; [exact (yields_read_exact _ 4 [_; _; _; _] _ _ eq_refl)|]);
    cbn iota; rewrite !byte_val_of by lia; cbn [Z.eqb Pos.eqb negb socks_target].
  - eapply yields_bind; [by apply yields_read_exact|].
    eapply yields_bind; [by apply yields_port | apply yields_ret].
  - eapply yields_bind; [by apply yields_read_exact|].
    eapply yields_bind; [by apply yields_port | apply yields_ret].
  - destruct Hd as (Hl & Hutf & Hb & Hpar). unfold socks_domain.
    eapply yields_bind; [apply yields_u8|].
    eapply yields_bind; [apply yields_read_exact; by rewrite byte_len by lia|].
    eapply yields_bind; [by apply yields_port|].
    apply utf8_error_None in Hutf as ->. fold blank. 
    change (existsb (fun b => is_ascii_control b || is_ascii_whitespace b) name) with (existsb blank name).
    rewrite Hb, bool_decide_eq_false_2 by (intros ->; unfold z_len in Hl; simpl in Hl; lia).
    cbn [dest_text] in Hpar. destruct (HostPort.parse _); [apply yields_ret | done].
Qed.

Lemma yields_phase {A} dl now (m : M Credentials ServerError A) r0 o0 a r1 o1 : now < dl ->
  yields m r0 o0 a r1 o1 -> yields (phase dl now m) r0 o0 a r1 o1.
Proof.
  intros Hn Hm c (c' & Heq & Hc')%Hm. exists c'. split; [|done]. unfold phase.
  unfold saturating_duration_since. destruct (Z.max (dl - now) 0 =? 0) eqn:E; zify_bools; [lia|].
  by rewrite Heq.
Qed.

Lemma yields_socks options methods auth d port rest o :
  z_len methods < 256 -> auth_ok options methods auth -> dest_ok d port -> 0 <= port <= U16_MAX ->
  yields (socks early_eof write_zero str_debug authenticate options)
    (tail (client_bytes methods auth d port rest)) o
    (served options auth d port)
    rest (o ++ server_events auth).
Proof.
  intros Hm Ha Hd Hp. unfold socks, client_bytes. cbn [tail].
  eapply yields_bind; [apply yields_u8|].
  eapply yields_bind; [apply yields_read_exact; by rewrite byte_len|].
  eapply yields_bind; [by apply yields_method|].
  eapply yields_bind; [apply yields_send|].
  destruct auth as [[user pass]|]; cbn [Z.eqb Pos.eqb fmap option_fmap option_map fst].
  - eapply yields_bind.
    { eapply yields_bind; [by eapply yields_password | apply yields_ret]. }
    cbn iota beta. eapply yields_bind; [by apply yields_target|]. rewrite <- !app_assoc. apply yields_ret.
  - eapply yields_bind; [apply yields_ret|].
    cbn iota beta. eapply yields_bind; [by apply yields_target|]. apply yields_ret.
Qed.

(** A well-behaved SOCKS5 client is served: whatever mix of methods it offers,
    with or without credentials, for every address type and port, and however its bytes
    are cut into reads, [accept] answers the method and the RFC 1929 status, asks the
    host once, returns the request the client encoded, and leaves unread exactly what
    the client sent after it. *)
Lemma socks_client_accepted now1 now2 options methods auth d port rest c :
  now1 < deadline options -> now2 < deadline options ->
  z_len methods < 256 -> auth_ok options methods auth -> dest_ok d port -> 0 <= port <= U16_MAX ->
  unread c = client_bytes methods auth d port rest -> room c = None ->
  exists c',
    accept early_eof write_zero decode str_debug authenticate now1 now2 options c
      = (Ready (Ok (served options auth d port)), c') /\
    unread c' = rest /\ outputs c' = outputs c ++ server_events auth.
Proof.
  intros Hn1 Hn2 Hm Ha Hd Hp Hu Hr. 
  assert (Hy : yields (accept early_eof write_zero decode str_debug authenticate now1 now2 options)
    (client_bytes methods auth d port rest) (outputs c) (served options auth d port) rest (outputs c ++ server_events auth)).
  { unfold accept. eapply yields_bind.
    - apply yields_phase; [done|]. unfold first_byte.
      eapply yields_bind; [apply yields_read_one | apply yields_ret].
    - cbn [Z.eqb Pos.eqb]. apply yields_phase; [done|]. by apply yields_socks. }
  destruct (Hy c) as (c' & Heq & Hu' & _ & Ho'); [done|]. by exists c'.
Qed.

End Client.

(** ** An example: a user, a domain, one byte per read *)

Definition demo_error : IoError := mkIoError (lit "end of file").
Definition demo_authenticate (creds : Credentials) : option bool :=
  Some (bool_decide (username creds = lit "u" /\ password creds = lit "pw")).
Definition demo_options : ServerOptions :=
  Options.retain_credentials (Options.new 10 true true) true.
Definition demo_sent : bytes :=
  client_bytes (map byte_of [0; 2]) (Some (lit "u", lit "pw")) (ToDomain (lit "a.b")) 443 (lit "hi").
Definition demo_conn : conn Credentials := mkConn (map (fun b => (b, [])) demo_sent) Eof None [].

Example demo_served :
  (accept demo_error demo_error Some (fun s => s) demo_authenticate 0 1 demo_options demo_conn).1
  = Ready (Ok (served demo_options (Some (lit "u", lit "pw")) (ToDomain (lit "a.b")) 443)).
Proof. vm_compute. reflexivity. Qed.

End Handshake.

(** ** [Prefixed] *)

Module Prefixed.
Import Stream.

Section Prefixed.
Context {X E : Type} `{FromIo E}.

Record t := mk {
  prefix : bytes;
  pos : nat;
  inner : conn X }.

Definition new (prefix : bytes) (inner : conn X) : t := mk prefix 0 inner.
Definition prefix_remaining (p : t) : bytes := drop (pos p) (prefix p).
(** [into_parts]: the unserved prefix bytes and the wrapped stream. *)
Definition into_parts (p : t) : bytes * conn X := (prefix_remaining p, inner p).
Definition into_inner (p : t) : conn X := inner p.

(** [poll_read] with [n] bytes of room in the caller's buffer. *)
Definition poll_read (n : nat) (p : t) : poll (result E bytes) * t :=
  let remaining := drop (pos p) (prefix p) in
  if negb (bool_decide (remaining = [])) then
    if (n =? 0)%nat then (Ready (Ok []), p)
    else
      let k := Nat.min (length remaining) n in
      (Ready (Ok (take k remaining)), mk (prefix p) (pos p + k) (inner p))
  else
    let '(r, c) := read n (inner p) in (r, mk (prefix p) (pos p) c).

(** Writing passes through, whatever the prefix. *)
Definition poll_write (wz : IoError) (bs : bytes) (p : t) : poll (result E unit) * t :=
  let '(r, c) := write_all wz bs (inner p) in (r, mk (prefix p) (pos p) c).
Definition poll_flush (p : t) : poll (result E unit) * t :=
  let '(r, c) := flush (inner p) in (r, mk (prefix p) (pos p) c).

(** Reads with the given room, one after the other, until one does not return bytes. *)
Fixpoint reads (ns : list nat) (p : t) : list bytes * t :=
  match ns with
  | [] => ([], p)
  | n :: ns' =>
      match poll_read n p with
      | (Ready (Ok bs), p') => let '(bss, p'') := reads ns' p' in (bs :: bss, p'')
      | (_, p') => ([], p')
      end
  end.

Definition wf (p : t) : Prop := (pos p <= length (prefix p))%nat.

Lemma poll_read_wf n p : wf p -> wf (poll_read n p).2.
Proof.
  unfold wf, poll_read. intros Hw. destruct (negb _).
  - destruct (n =? 0)%nat; [done|]. cbn [snd pos prefix]. rewrite length_drop. lia.
  - by destruct (read n (inner p)).
Qed.

Lemma read_accounts n (c : conn X) bs c' : read (E := E) n c = (Ready (Ok bs), c') ->
  unread c = bs ++ unread c'.
Proof.
  unfold read. cbn [log chunks inbound]. destruct (chunks c) as [|q cs] eqn:Ec.
  - destruct (inbound c); intros [= <- <-]. unfold unread. cbn [log chunks]. by rewrite Ec.
  - intros [= <- <-]. unfold unread. cbn [with_chunks log chunks]. rewrite Ec.
    by rewrite flat_app, flat_chunk_of, app_assoc, take_drop.
Qed.

Lemma poll_read_accounts n p bs p' : poll_read n p = (Ready (Ok bs), p') ->
  prefix_remaining p ++ unread (inner p) = bs ++ prefix_remaining p' ++ unread (inner p').
Proof.
  unfold poll_read, prefix_remaining. destruct (negb _) eqn:Erem.
  - destruct (n =? 0)%nat; intros [= <- <-]; [done|]. cbn [pos prefix inner].
    by rewrite <- drop_drop, app_assoc, take_drop.
  - destruct (read n (inner p)) as [r c] eqn:Er. intros [= -> <-]. cbn [pos prefix inner].
    apply negb_false_iff, bool_decide_eq_true in Erem. rewrite Erem. cbn [app]. by apply read_accounts in Er.
Qed.

(** A read that fails or waits takes nothing. *)
Lemma poll_read_stops n p r p' : poll_read n p = (r, p') ->
  match r with Ready (Ok _) => False | _ => True end ->
  prefix_remaining p' = prefix_remaining p /\ unread (inner p') = unread (inner p).
Proof.
  unfold poll_read, prefix_remaining. destruct (negb _).
  - by destruct (n =? 0)%nat; intros [= <- <-].
  - destruct (read n (inner p)) as [r' c] eqn:Er. intros [= -> <-] Hr. cbn [pos prefix inner].
    split; [done|]. destruct (decide (unread (inner p) = [])) as [Hu|Hu].
    + rewrite (read_none n _ Hu) in Er. by injection Er as _ <-.
    + unfold read in Er. cbn [log chunks] in Er. unfold unread in Hu.
      destruct (chunks (inner p)); [done|]. by injection Er as <- _.
Qed.

(** A [Prefixed] stream is the prefix followed by the wrapped stream: whatever the
    sizes of the reads, the bytes they return, then the unserved prefix, then the
    unread stream, are what there was at first; while any prefix byte remains a
    read returns prefix bytes only, at least one if there is room, and the wrapped
    stream is untouched; an empty read with room is the wrapped stream's own end of file. *)
Theorem prefixed_exact p ns : wf p ->
  prefix_remaining p ++ unread (inner p)
    = concat (reads ns p).1 ++ prefix_remaining (reads ns p).2 ++ unread (inner (reads ns p).2) /\
  wf (reads ns p).2 /\
  (forall n, (0 < n)%nat -> prefix_remaining p <> [] ->
     exists bs p', poll_read n p = (Ready (Ok bs), p') /\ (0 < length bs <= n)%nat /\
       prefix_remaining p = bs ++ prefix_remaining p' /\ inner p' = inner p) /\
  (forall n p', (0 < n)%nat -> poll_read n p = (Ready (Ok []), p') ->
     prefix_remaining p = [] /\ unread (inner p) = [] /\ inbound (inner p) = Eof).
Proof.
  intros Hw. split_and!.
  - clear Hw. revert p. induction ns as [|n ns IH]; intros p; cbn [reads]; [done|].
    destruct (poll_read n p) as [r p'] eqn:Hp. destruct r as [[bs|e]|].
    + rewrite (poll_read_accounts _ _ _ _ Hp), (IH p'). destruct (reads ns p') as [bss p''].
      cbn [fst snd concat]. by rewrite <- !app_assoc.
    + destruct (poll_read_stops _ _ _ _ Hp I) as [H1 H2]. cbn [fst snd concat app]. by rewrite H1, H2.
    + destruct (poll_read_stops _ _ _ _ Hp I) as [H1 H2]. cbn [fst snd concat app]. by rewrite H1, H2.
  - revert p Hw. induction ns as [|n ns IH]; intros p Hw; cbn [reads]; [done|].
    pose proof (poll_read_wf n p Hw) as Hw'. destruct (poll_read n p) as [[[bs|e]|] p']; [|done..].
    specialize (IH p' Hw'). by destruct (reads ns p').
  - intros n Hn Hne. unfold poll_read. unfold prefix_remaining in *.
    rewrite bool_decide_eq_false_2 by done. cbn [negb].
    destruct (Nat.eqb_spec n 0); [lia|]. eexists _, _. split; [done|]. cbn [pos prefix inner].
    assert (Hlen : (0 < length (drop (pos p) (prefix p)))%nat).
    { destruct (drop (pos p) (prefix p)); simpl; [done|lia]. }
    rewrite length_take. split_and!; [lia..| by rewrite <- drop_drop, take_drop | done].
  - intros n p' Hn. unfold poll_read, prefix_remaining.
    destruct (drop (pos p) (prefix p)) as [|x r] eqn:Er.
    + rewrite bool_decide_eq_true_2 by done. cbn [negb]. destruct (read n (inner p)) as [r c] eqn:Erd.
      intros [= -> _]. split; [done|]. destruct (decide (unread (inner p) = [])) as [Hu|Hu].
      * rewrite (read_none n _ Hu) in Erd. by destruct (inbound (inner p)).
      * destruct (read_some (E := E) n (inner p) Hn Hu) as (bs & c' & Heq & _ & Hl & _).
        rewrite Heq in Erd. injection Erd as -> _. simpl in Hl. lia.
    + rewrite bool_decide_eq_false_2 by done. cbn [negb]. destruct (Nat.eqb_spec n 0); [lia|].
      intros [= Hbs _]. destruct n; [lia|]. done.
Qed.

End Prefixed.
#[local] Existing Instance Server.ServerError_from_io.

Definition demo_prefixed : t := new (lit "ab") Handshake.demo_conn.

Lemma prefixed_exact_witness : wf demo_prefixed /\
  prefix_remaining demo_prefixed ++ unread (inner demo_prefixed)
  = concat (reads (E := Server.ServerError) [1; 5; 3]%nat demo_prefixed).1
    ++ prefix_remaining (reads (E := Server.ServerError) [1; 5; 3]%nat demo_prefixed).2
    ++ unread (inner (reads (E := Server.ServerError) [1; 5; 3]%nat demo_prefixed).2).
Proof.
  assert (Hw : wf demo_prefixed) by (unfold wf; simpl; lia). split; [exact Hw|].
  exact (proj1 (prefixed_exact (E := Server.ServerError) demo_prefixed [1; 5; 3]%nat Hw)).
Defined.

End Prefixed.
