(* ===== verification/Upstream.v ===== *)
(** * Upstream: the client handshakes with an upstream proxy

    Model of [connect/util/handshake_over_stream.rs],
    [connect/proxy_connect/connect_http_proxy.rs],
    [connect/proxy_connect/connect_socks5_proxy.rs] and of the dispatch of
    [connect/proxy_connect/connect_proxy.rs], as programs over a [Stream.conn].
    The two HTTP readers - one reads a limited number of bytes at a time, the
    other peeks - are proved to compute the same function of the bytes, and the
    SOCKS5 client is proved to be served by [Server.accept]. *)
From S2P Require Import Prelude Text TextFmt HostPort ProxyTypes Errors Stream Server Handshake.

Module Upstream.
Import Stream.

#[export] Instance ConnectError_from_io : FromIo ConnectError := Errors.from_io.

(** [s.parse::<Ipv4Addr>()]: the four octets. *)
Definition parse_ipv4 (s : bytes) : option (list Z) :=
  if (15 <? length s)%nat then None
  else match read_ipv4_addr s with Some (a, []) => Some a | _ => None end.

(** [Ipv6Addr::octets]. *)
Definition segment_octets (segs : list Z) : bytes :=
  concat (map (fun g => [byte_of (g / 256); byte_of (g mod 256)]) segs).

Section Client.
(** tokio's error for a stream that ends early, the standard library's for a writer
    that accepts nothing, and the base64 engine. *)
Variables (early_eof write_zero : IoError).
Variable encode : bytes -> bytes.
Context {X : Type}.

Abbreviation Prog := (M X ConnectError).
Abbreviation read_exact := (Stream.read_exact early_eof).

Definition send_all (bs : bytes) : Prog unit := _ ← Stream.write_all write_zero bs; flush.

(** ** SOCKS5 *)

Definition version_check (v : byte) (k : Prog unit) : Prog unit :=
  if byte_val v =? 5 then k else fail (Protocol (Socks5BadVersion (byte_val v))).

(** Method negotiation and RFC 1929. *)
Definition socks5_auth_step (auth : option (bytes * bytes)) : Prog unit :=
  match auth with
  | Some (username, password) =>
      _ ← send_all (map byte_of [5; 1; 2]);
      response ← read_exact 2;
      match response with
      | [ver; method] =>
          version_check ver
            (if negb (byte_val method =? 2) then fail (MethodUnsupported (byte_val method) true)
             else if (255 <? length username)%nat || (255 <? length password)%nat then
               fail (Protocol (Socks5CredentialsTooLong (length username) (length password)))
             else
               _ ← send_all (byte_of 1 :: byte_of (Z.of_nat (length username)) :: username
                         ++ byte_of (Z.of_nat (length password)) :: password);
               auth_resp ← read_exact 2;
               match auth_resp with
               | [aver; status] =>
                   if negb (byte_val aver =? 1) then fail (Protocol (Socks5BadAuthVersion (byte_val aver)))
                   else if negb (byte_val status =? 0) then fail (AuthFailed (byte_val status))
                   else mret tt
               | _ => pending
               end)
      | _ => pending
      end
  | None =>
      _ ← send_all (map byte_of [5; 1; 0]);
      response ← read_exact 2;
      match response with
      | [ver; method] =>
          version_check ver
            (if negb (byte_val method =? 0) then fail (MethodUnsupported (byte_val method) false)
             else mret tt)
      | _ => pending
      end
  end.

(** The address type and bytes for an unbracketed host. *)
Definition socks5_address (host : bytes) : result ConnectError (Z * bytes) :=
  match parse_ipv4 host with
  | Some octets => Ok (1, map byte_of octets)
  | None =>
      match parse_ipv6 host with
      | Some segs => Ok (4, segment_octets segs)
      | None =>
          if (255 <? length host)%nat then Err (Protocol (Socks5DomainTooLong (length host)))
          else Ok (3, byte_of (Z.of_nat (length host)) :: host)
      end
  end.

(** The bound address of the reply, read and dropped. *)
Definition skip_bound (atyp : Z) : Prog unit :=
  match atyp with
  | 1 => _ ← read_exact 6; mret tt
  | 3 =>
      len_buf ← read_exact 1;
      match len_buf with
      | [len] =>
          if byte_val len =? 0 then fail (Protocol Socks5EmptyBoundDomain)
          else _ ← read_exact (Z.to_nat (byte_val len) + 2); mret tt
      | _ => pending
      end
  | 4 => _ ← read_exact 18; mret tt
  | _ => fail (Protocol (Socks5UnknownAddressType atyp))
  end.

Definition socks5_reply : Prog unit :=
  resp_header ← read_exact 4;
  match resp_header with
  | [ver; rep; rsv; atyp] =>
      version_check ver
        (if negb (byte_val rep =? 0) then fail (ProxyRejected Socks5 (Some (byte_val rep)) [])
         else if negb (byte_val rsv =? 0) then fail (Protocol (Socks5BadReserved (byte_val rsv)))
         else skip_bound (byte_val atyp))
  | _ => pending
  end.

Definition socks5_handshake (host : bytes) (port : Z) (auth : option (bytes * bytes)) : Prog unit :=
  if bool_decide (host = []) || (port =? 0)
  then fail (InvalidTarget (HostPort.format host port))
  else
    _ ← socks5_auth_step auth;
    match socks5_address host with
    | Err e => fail e
    | Ok (atyp, addr_bytes) =>
        _ ← send_all (map byte_of [5; 1; 0; atyp] ++ addr_bytes
                  ++ [byte_of (port / 256); byte_of (port mod 256)]);
        socks5_reply
    end.

Definition handshake_over_stream (target_addr : bytes) (auth : option (bytes * bytes)) : Prog unit :=
  match HostPort.parse target_addr with
  | None => fail (InvalidTarget target_addr)
  | Some parsed => socks5_handshake (HostPort.host parsed) (HostPort.port parsed) auth
  end.

Definition socks5_auth (proxy : ProxyConfig) : option (bytes * bytes) :=
  match user proxy, password proxy with
  | Some user, Some password => Some (user, password)
  | _, _ => None
  end.

(** ** HTTP CONNECT *)

Definition CRLF : bytes := [CR; LF].
Definition CRLFCRLF : bytes := [CR; LF; CR; LF].

Definition connect_request (target_addr : bytes) (proxy : ProxyConfig) : bytes :=
  lit "CONNECT " ++ target_addr ++ lit " HTTP/1.1" ++ CRLF ++ lit "Host: " ++ target_addr ++ CRLF
  ++ (match user proxy, password proxy with
      | Some user, Some pass =>
          lit "Proxy-Authorization: Basic " ++ encode (user ++ lit ":" ++ pass) ++ CRLF
      | _, _ => []
      end)
  ++ CRLF.

Definition write_connect_request (target_addr : bytes) (proxy : ProxyConfig) : Prog unit :=
  if existsb (fun b => is_ascii_control b || is_ascii_whitespace b) target_addr
  then fail (Protocol HttpInvalidConnectTarget)
  else send_all (connect_request target_addr proxy).

(** The 4 KiB response buffer: what it holds of the current head, and how many bytes
    all heads have taken. *)
Definition HEAD_CAPACITY : nat := 4096.
Record ResponseHead := mkHead { filled : bytes; total : nat }.
Definition new_head : ResponseHead := mkHead [] 0.

Definition remaining (h : ResponseHead) : result ConnectError nat :=
  let remaining := (HEAD_CAPACITY - total h)%nat in
  if (remaining =? 0)%nat then Err (Protocol HttpResponseTooLarge) else Ok remaining.

(** The status line's verdict: whether the code is usable, and the three digits. *)
Definition first_line (head : bytes) : bytes := take_while (fun b => negb (Ascii.eqb b CR)) head.
Definition status_valid (line : bytes) : bool :=
  (13 <=? length line)%nat
  && (starts_with (lit "HTTP/1.1 ") line || starts_with (lit "HTTP/1.0 ") line)
  && forallb is_ascii_digit (take 3 (drop 9 line))
  && match line !! 12%nat with Some b => Ascii.eqb b SP | None => false end.
Definition status_code (line : bytes) : Z :=
  foldl (fun acc d => acc * 10 + digit_val d) 0 (take 3 (drop 9 line)).

Inductive Verdict := Granted | Interim | Refused (e : ConnectError).
Definition judge (head : bytes) : Verdict :=
  let line := first_line head in
  let valid := status_valid line in
  let class := line !! 9%nat in
  if valid && bool_decide (class = Some "2"%char) then Granted
  else if valid && bool_decide (class = Some "1"%char)
          && negb (bool_decide (take 3 (drop 9 line) = lit "101")) then Interim
  else Refused (ProxyRejected Http (if valid then Some (status_code line) else None)
                              (from_utf8_lossy line)).

(** [advance]: the bytes just read, and whether the final head is complete. *)
Definition advance (h : ResponseHead) (bs : bytes) : result ConnectError (bool * ResponseHead) :=
  if bool_decide (bs = []) then Err (Protocol HttpClosedEarly)
  else
    let h := mkHead (filled h ++ bs) (total h + length bs) in
    if negb (ends_with CRLFCRLF (filled h)) then Ok (false, h)
    else match judge (filled h) with
         | Granted => Ok (true, h)
         | Interim => Ok (false, mkHead [] (total h))
         | Refused e => Err e
         end.

(** How many bytes can still not run past a terminator. *)
Definition safe_step (suffix : bytes) : nat :=
  if ends_with [CR; LF; CR] suffix then 1
  else if ends_with [CR; LF] suffix then 2
  else if ends_with [CR] suffix then 3
  else 4.

(** The loop over any stream: reads no further than the header can reach. *)
Fixpoint read_head (fuel : nat) (h : ResponseHead) : Prog unit :=
  match fuel with
  | O => pending
  | S fuel' =>
      match remaining h with
      | Err e => fail e
      | Ok room =>
          bs ← read (Nat.min (safe_step (filled h)) room);
          match advance h bs with
          | Err e => fail e
          | Ok (true, _) => mret tt
          | Ok (false, h) => read_head fuel' h
          end
      end
  end.

Definition http_connect_handshake (target_addr : bytes) (proxy : ProxyConfig) : Prog unit :=
  _ ← write_connect_request target_addr proxy;
  read_head (S HEAD_CAPACITY) new_head.

(** Where to consume to, in the head and the bytes just seen. *)
Definition consume_to (buf seen : bytes) : nat :=
  let scan_from := (length buf - 3)%nat in
  match find_sub CRLFCRLF (drop scan_from (buf ++ seen)) with
  | Some pos => (scan_from + pos + 4)%nat
  | None => (length buf + length seen)%nat
  end.

(** The loop over a TCP socket: peeks, then consumes up to the end of the header. *)
Fixpoint read_head_tcp (fuel : nat) (h : ResponseHead) : Prog unit :=
  match fuel with
  | O => pending
  | S fuel' =>
      match remaining h with
      | Err e => fail e
      | Ok room =>
          seen ← peek room;
          bs ← read_exact (consume_to (filled h) seen - length (filled h));
          match advance h bs with
          | Err e => fail e
          | Ok (true, _) => mret tt
          | Ok (false, h) => read_head_tcp fuel' h
          end
      end
  end.

Definition http_connect_on_tcp (target_addr : bytes) (proxy : ProxyConfig) : Prog unit :=
  _ ← write_connect_request target_addr proxy;
  read_head_tcp (S HEAD_CAPACITY) new_head.

(** ** What the dispatch asks first *)

(** [host:port] as stored, for messages. *)
Definition upstream_endpoint (proxy : ProxyConfig) : bytes :=
  host proxy ++ lit ":" ++ fmt_dec (port proxy).

(** An HTTPS upstream needs a connector, before any socket is taken. *)
Definition check_tls_slot (proxy : ProxyConfig) (has_connector : bool) : result ConnectError unit :=
  match protocol proxy with
  | Https => if has_connector then Ok tt
             else Err (Tls (lit "HTTPS upstream requires TLS connector") None)
  | _ => Ok tt
  end.

(** ** The readers against a reference *)

(** What reading the response heads means, as a function of the bytes the proxy sends
    and how it stops: skip interim heads, and give what follows the final one. *)
Fixpoint heads (fuel base : nat) (s : bytes) (stop : ending) : poll (result ConnectError bytes) :=
  match fuel with
  | O => Pending
  | S fuel' =>
      match find_sub CRLFCRLF s with
      | Some pos =>
          if (HEAD_CAPACITY <? base + (pos + 4))%nat
          then Ready (Err (Protocol HttpResponseTooLarge))
          else match judge (take (pos + 4) s) with
               | Granted => Ready (Ok (drop (pos + 4) s))
               | Interim => heads fuel' (base + (pos + 4)) (drop (pos + 4) s) stop
               | Refused e => Ready (Err e)
               end
      | None =>
          if (HEAD_CAPACITY <=? base + length s)%nat
          then Ready (Err (Protocol HttpResponseTooLarge))
          else match stop with
               | Eof => Ready (Err (Protocol HttpClosedEarly))
               | Fails e => Ready (Err (from_io_error e))
               | Silent => Pending
               end
      end
  end.

(** A run that gives this outcome, and leaves unread what follows the final head. *)
Definition reads_as (spec : poll (result ConnectError bytes))
    (run : poll (result ConnectError unit) * conn X) : Prop :=
  match spec with
  | Ready (Ok rest) => run.1 = Ready (Ok tt) /\ unread run.2 = rest
  | Ready (Err e) => run.1 = Ready (Err e)
  | Pending => run.1 = Pending
  end.

Lemma ends_with_spec p s : ends_with p s = true <-> exists r, s = r ++ p.
Proof.
  unfold ends_with. rewrite starts_with_spec, length_rev. split.
  - intros H. exists (rev (drop (length p) (rev s))).
    rewrite <- (rev_involutive s) at 1. rewrite <- (take_drop (length p) (rev s)) at 1.
    by rewrite H, rev_app_distr, rev_involutive.
  - intros [r ->]. rewrite rev_app_distr, <- (length_rev p). by apply take_app_length.
Qed.

Lemma find_sub_first p s n : starts_with p (drop n s) = true -> (n <= length s)%nat -> p <> [] ->
  (forall m, (m < n)%nat -> starts_with p (drop m s) = false) -> find_sub p s = Some n.
Proof.
  intros Hs Hl Hp Hno. rewrite (find_sub_skip p s n Hl Hno).
  destruct (drop n s) as [|c r] eqn:E; [by destruct p|]. cbn [find_sub]. rewrite Hs.
  cbn [fmap option_fmap option_map]. by rewrite Nat.add_0_r.
Qed.

(** An occurrence reaching into new bytes starts with a suffix of the old ones that the
    step has counted. *)
Lemma safe_step_reach buf j : (0 < j < 4)%nat -> (exists r, buf = r ++ take j CRLFCRLF) ->
  (safe_step buf <= 4 - j)%nat.
Proof.
  intros Hj Hr. unfold safe_step. assert (j = 1 \/ j = 2 \/ j = 3)%nat as [-> | [-> | ->]] by lia;
    apply ends_with_spec in Hr; cbn [take CRLFCRLF] in Hr; rewrite Hr.
  - destruct (ends_with [CR; LF; CR] buf), (ends_with [CR; LF] buf); cbn iota; lia.
  - destruct (ends_with [CR; LF; CR] buf); cbn iota; lia.
  - cbn iota. lia.
Qed.

Lemma safe_step_exact buf new : find_sub CRLFCRLF buf = None ->
  (length new <= safe_step buf)%nat -> new <> [] ->
  find_sub CRLFCRLF (buf ++ new)
  = if ends_with CRLFCRLF (buf ++ new) then Some (length buf + length new - 4)%nat else None.
Proof.
  intros Hb Hl Hn.
  assert (Hnew : (0 < length new)%nat) by (destruct new; simpl; [done|lia]).
  assert (Hany : forall m, starts_with CRLFCRLF (drop m (buf ++ new)) = true ->
            (m + 4 = length buf + length new)%nat).
  { intros m Hm. pose proof (starts_with_length _ _ Hm) as Hlen.
    rewrite length_drop, length_app in Hlen. cbn [CRLFCRLF length] in Hlen.
    destruct (Nat.le_gt_cases (m + 4) (length buf)) as [Hin|Hout].
    { exfalso. rewrite drop_app_le, starts_with_app_le in Hm by
        (rewrite ?length_drop; cbn [CRLFCRLF length]; lia).
      by rewrite (find_sub_None CRLFCRLF buf ltac:(done) Hb) in Hm. }
    destruct (Nat.le_gt_cases (length buf) m) as [Hge|Hlt].
    { assert (safe_step buf <= 4)%nat by (unfold safe_step; repeat case_match; lia). lia. }
    assert (Hj : (safe_step buf <= 4 - (length buf - m))%nat).
    { apply safe_step_reach; [lia|]. exists (take m buf).
      apply starts_with_spec in Hm. cbn [CRLFCRLF length] in Hm.
      rewrite <- (take_drop m buf) at 1. f_equal. rewrite drop_app_le in Hm by lia.
      apply (f_equal (take (length buf - m))) in Hm. rewrite take_take in Hm.
      rewrite <- Hm, take_app_le by (rewrite length_drop; lia).
      symmetry. apply take_ge. rewrite length_drop. lia. }
    lia. }
  destruct (ends_with CRLFCRLF (buf ++ new)) eqn:E.
  - apply ends_with_spec in E as [r Hr].
    assert (Hrl : (length r + 4 = length buf + length new)%nat).
    { apply (f_equal length) in Hr. rewrite !length_app in Hr. cbn [CRLFCRLF length] in Hr. lia. }
    replace (length buf + length new - 4)%nat with (length r) by lia.
    apply find_sub_first; [| rewrite length_app; lia | done |].
    + by rewrite Hr, drop_app_length.
    + intros m Hm. apply not_true_is_false. intros Hs%Hany. lia.
  - destruct (find_sub CRLFCRLF (buf ++ new)) as [m|] eqn:Ef; [|done]. exfalso.
    apply find_sub_Some in Ef as (Hs & _ & _). pose proof (Hany m Hs) as Hm.
    apply not_true_iff_false in E. apply E, ends_with_spec. exists (take m (buf ++ new)).
    apply starts_with_spec in Hs. cbn [CRLFCRLF length] in Hs.
    rewrite <- (take_drop m (buf ++ new)) at 1. f_equal. rewrite <- Hs. symmetry.
    apply take_ge. rewrite length_drop, length_app. lia.
Qed.

(** One step of either reader, on a head that is not complete. *)
Lemma heads_step fuel base buf new u stop : find_sub CRLFCRLF (buf ++ new) = None ->
  heads fuel base (buf ++ (new ++ u)) stop = heads fuel base ((buf ++ new) ++ u) stop.
Proof. by rewrite app_assoc. Qed.

(** A state the readers reach: no terminator in what the buffer holds. *)
Definition head_ok (h : ResponseHead) : Prop :=
  find_sub CRLFCRLF (filled h) = None /\ (length (filled h) <= total h <= HEAD_CAPACITY)%nat.

Lemma heads_full fuel h u stop : head_ok h -> total h = HEAD_CAPACITY -> (0 < fuel)%nat ->
  heads fuel (total h - length (filled h)) (filled h ++ u) stop
  = Ready (Err (Protocol HttpResponseTooLarge)).
Proof.
  intros [Hb Hl] Ht Hf. destruct fuel; [lia|]. cbn [heads].
  destruct (find_sub CRLFCRLF (filled h ++ u)) as [pos|] eqn:E.
  - assert (Hp : (length (filled h) < pos + 4)%nat).
    { apply find_sub_Some in E as (Hs & Hle & _).
      destruct (Nat.lt_ge_cases (length (filled h)) (pos + 4)) as [|Hge]; [done|]. exfalso.
      rewrite drop_app_le, starts_with_app_le in Hs by
        (rewrite ?length_drop; cbn [CRLFCRLF length]; lia).
      by rewrite (find_sub_None CRLFCRLF _ ltac:(done) Hb) in Hs. }
    destruct (Nat.ltb_spec HEAD_CAPACITY (total h - length (filled h) + (pos + 4))); [done|lia].
  - rewrite length_app.
    destruct (Nat.leb_spec HEAD_CAPACITY (total h - length (filled h) + (length (filled h) + length u)));
      [done|lia].
Qed.

Lemma heads_dry fuel h stop : head_ok h -> (total h < HEAD_CAPACITY)%nat -> (0 < fuel)%nat ->
  heads fuel (total h - length (filled h)) (filled h ++ []) stop
  = match stop with
    | Eof => Ready (Err (Protocol HttpClosedEarly))
    | Fails e => Ready (Err (from_io_error e))
    | Silent => Pending
    end.
Proof.
  intros [Hb Hl] Ht Hf. destruct fuel; [lia|]. cbn [heads]. rewrite app_nil_r, Hb.
  destruct (Nat.leb_spec HEAD_CAPACITY (total h - length (filled h) + length (filled h))); [lia|done].
Qed.

(** Receiving [new], which completes the head exactly or not at all. *)
Lemma heads_advance fuel h new u stop : head_ok h -> new <> [] ->
  (total h + length new <= HEAD_CAPACITY)%nat -> (0 < fuel)%nat ->
  find_sub CRLFCRLF (filled h ++ new)
  = (if ends_with CRLFCRLF (filled h ++ new) then Some (length (filled h) + length new - 4)%nat else None) ->
  heads fuel (total h - length (filled h)) (filled h ++ (new ++ u)) stop
  = match advance h new with
    | Err e => Ready (Err e)
    | Ok (true, _) => Ready (Ok u)
    | Ok (false, h') =>
        heads (if ends_with CRLFCRLF (filled h ++ new) then pred fuel else fuel)
          (total h' - length (filled h')) (filled h' ++ u) stop
    end /\
  match advance h new with
  | Ok (false, h') => head_ok h' /\ total h' = (total h + length new)%nat /\
      (total h - length (filled h) + (if ends_with CRLFCRLF (filled h ++ new) then 1 else 0)
       <= total h' - length (filled h'))%nat
  | _ => True
  end.
Proof.
  intros [Hb Hl] Hn Ht Hf Hfind. unfold advance. rewrite bool_decide_eq_false_2 by done.
  cbn [filled total]. destruct (ends_with CRLFCRLF (filled h ++ new)) eqn:E; cbn [negb].
  - assert (Hlen : (4 <= length (filled h) + length new)%nat).
    { apply ends_with_spec in E as [r Hr]. apply (f_equal length) in Hr.
      rewrite !length_app in Hr. cbn [CRLFCRLF length] in Hr. lia. }
    destruct fuel as [|fuel]; [lia|]. cbn [heads pred].
    rewrite app_assoc, (proj1 (find_sub_app _ _ u _ Hfind)).
    replace (length (filled h) + length new - 4 + 4)%nat with (length (filled h ++ new))
      by (rewrite length_app; lia).
    rewrite take_app_length, drop_app_length.
    destruct (Nat.ltb_spec HEAD_CAPACITY (total h - length (filled h) + length (filled h ++ new))) as [Hbad|_];
      [rewrite length_app in Hbad; lia|].
    destruct (judge (filled h ++ new)); [done| |done]. cbn [filled total length app].
    split; [|split; [split; [done|simpl; lia] | split; [done | lia]]].
    rewrite Nat.sub_0_r, length_app. f_equal. lia.
  - cbn [filled total]. split; [|split; [split; [done | cbn [filled total]; rewrite length_app; lia] |
      split; [done | rewrite length_app; lia]]].
    rewrite app_assoc, length_app. f_equal. lia.
Qed.

Lemma read_head_reads fuel : forall fuel' h c, head_ok h ->
  (HEAD_CAPACITY < total h + fuel)%nat -> (HEAD_CAPACITY < total h - length (filled h) + fuel')%nat ->
  reads_as (heads fuel' (total h - length (filled h)) (filled h ++ unread c) (inbound c))
    (read_head fuel h c).
Proof.
  induction fuel as [|fuel IH]; intros fuel' h c Hh Hf Hf'; [destruct Hh; lia|].
  cbn [read_head]. unfold remaining. destruct (Nat.eqb_spec (HEAD_CAPACITY - total h) 0) as [Hfull|Hroom].
  { destruct Hh as [Hb Hl]. rewrite heads_full; [done | done | lia | lia]. }
  destruct (decide (unread c = [])) as [Hu|Hu].
  { unfold mbind, M_bind. rewrite read_none, Hu, heads_dry by (done || lia).
    by destruct (inbound c). }
  set (limit := Nat.min (safe_step (filled h)) (HEAD_CAPACITY - total h)).
  assert (Hlim : (0 < limit)%nat).
  { unfold limit, safe_step. repeat case_match; lia. }
  destruct (read_some (E := ConnectError) limit c Hlim Hu) as (new & c1 & Hr & Hc & Hl & Hi & _ & _).
  rewrite (bind_step _ _ _ _ _ Hr), Hc, <- Hi.
  assert (Hn : new <> []) by (destruct new; simpl in Hl; [lia|done]).
  destruct (heads_advance fuel' h new (unread c1) (inbound c1) Hh Hn) as [Heq Hok];
    [unfold limit in Hl; lia | lia | apply safe_step_exact; [apply Hh | unfold limit in Hl; lia | done] |].
  rewrite Heq. destruct (advance h new) as [[[] h']|e]; [done | | done].
  destruct Hok as (Hh' & Ht' & Hb'). apply IH; [done | lia |]. destruct (ends_with _ _); lia.
Qed.

Lemma no_terminator_end s : find_sub CRLFCRLF s = None -> ends_with CRLFCRLF s = false.
Proof.
  intros Hn. apply not_true_is_false. intros [r ->]%ends_with_spec.
  pose proof (find_sub_None CRLFCRLF _ ltac:(done) Hn (length r)) as H.
  by rewrite drop_app_length in H.
Qed.

Lemma consume_to_exact buf seen : find_sub CRLFCRLF buf = None ->
  let k := (consume_to buf seen - length buf)%nat in
  (k <= length seen)%nat /\ (seen <> [] -> (0 < k)%nat) /\
  find_sub CRLFCRLF (buf ++ take k seen)
  = (if ends_with CRLFCRLF (buf ++ take k seen) then Some (length buf + k - 4)%nat else None).
Proof.
  intros Hb. pose proof (find_sub_extend CRLFCRLF buf seen ltac:(done) Hb) as Hx. cbv zeta in Hx.
  change (length CRLFCRLF - 1)%nat with 3%nat in Hx. unfold consume_to.
  destruct (find_sub CRLFCRLF (drop (length buf - 3) (buf ++ seen))) as [pos|] eqn:Ep.
  - set (p := (length buf - 3 + pos)%nat) in *.
    change (Nat.add (length buf - 3) <$> Some pos) with (Some p) in Hx.
    pose proof (find_sub_Some _ _ _ Hx) as (Hs & Hle & Hno).
    rewrite length_app in Hle. cbn [CRLFCRLF length] in Hle.
    assert (Hout : (length buf < p + 4)%nat).
    { destruct (Nat.lt_ge_cases (length buf) (p + 4)) as [|Hge]; [done|]. exfalso.
      rewrite drop_app_le, starts_with_app_le in Hs by
        (rewrite ?length_drop; cbn [CRLFCRLF length]; lia).
      by rewrite (find_sub_None CRLFCRLF _ ltac:(done) Hb) in Hs. }
    set (k := (p + 4 - length buf)%nat). cbv zeta.
    assert (Htake : buf ++ take k seen = take (p + 4) (buf ++ seen)).
    { rewrite take_app_ge by lia. done. }
    rewrite Htake. assert (Hends : ends_with CRLFCRLF (take (p + 4) (buf ++ seen)) = true).
    { apply ends_with_spec. exists (take p (buf ++ seen)). apply starts_with_spec in Hs.
      cbn [CRLFCRLF length] in Hs. rewrite <- Hs.
      rewrite <- (take_drop p (take (p + 4) (buf ++ seen))), take_take, Nat.min_l by lia.
      f_equal. symmetry. apply take_drop_commute. }
    rewrite Hends. split_and!; [lia | lia |].
    replace (length buf + k - 4)%nat with p by lia.
    apply find_sub_first; [| rewrite length_take, length_app; lia | done |].
    + rewrite <- take_drop_commute. apply starts_with_spec in Hs. cbn [CRLFCRLF length] in Hs.
      by rewrite Hs.
    + intros m Hm. specialize (Hno m Hm).
      rewrite <- (take_drop (p + 4) (buf ++ seen)) in Hno.
      rewrite drop_app_le, starts_with_app_le in Hno; [done | |];
        rewrite ?length_drop, length_take, length_app; cbn [CRLFCRLF length]; lia.
  - cbv zeta. rewrite Nat.add_sub_swap, Nat.sub_diag, Nat.add_0_l, firstn_all by lia.
    cbn [fmap option_fmap option_map] in Hx. rewrite (no_terminator_end _ Hx).
    split_and!; [lia | intros; destruct seen; simpl; [done|lia] | done].
Qed.

Lemma read_head_tcp_reads fuel : forall fuel' h c, head_ok h ->
  (HEAD_CAPACITY < total h + fuel)%nat -> (HEAD_CAPACITY < total h - length (filled h) + fuel')%nat ->
  reads_as (heads fuel' (total h - length (filled h)) (filled h ++ unread c) (inbound c))
    (read_head_tcp fuel h c).
Proof.
  induction fuel as [|fuel IH]; intros fuel' h c Hh Hf Hf'; [destruct Hh; lia|].
  cbn [read_head_tcp]. unfold remaining. destruct (Nat.eqb_spec (HEAD_CAPACITY - total h) 0) as [Hfull|Hroom].
  { destruct Hh as [Hb Hl]. rewrite heads_full; [done | done | lia | lia]. }
  set (room := (HEAD_CAPACITY - total h)%nat) in *.
  destruct (decide (unread c = [])) as [Hu|Hu].
  { unfold mbind at 1, M_bind at 1. rewrite peek_none, Hu, heads_dry by (done || lia).
    destruct (inbound c) eqn:Ei; [|done..]. cbn [reads_as].
    destruct (consume_to_exact (filled h) [] (proj1 Hh)) as (Hk & _). apply Nat.le_0_r in Hk as ->.
    destruct (read_exact_enough (E := ConnectError) early_eof 0 (log (EvRead room) c)) as (cs & _ & Hr); [lia|].
    by rewrite (bind_step _ _ _ _ _ Hr). }
  destruct (peek_some (E := ConnectError) room c ltac:(lia) Hu) as (seen & rest & Hp & Hc & Hl).
  rewrite (bind_step _ _ _ _ _ Hp). clear Hp.
  assert (Hn : seen <> []) by (destruct seen; simpl in Hl; [lia|done]).
  destruct (consume_to_exact (filled h) seen (proj1 Hh)) as (Hk & Hk0 & Hfind). specialize (Hk0 Hn).
  set (k := (consume_to (filled h) seen - length (filled h))%nat) in *.
  set (c1 := log (EvRead room) c).
  assert (Hu1 : unread c1 = seen ++ rest) by exact Hc.
  destruct (read_exact_enough (E := ConnectError) early_eof k c1) as (cs & Hcs & Hr).
  { rewrite Hu1, length_app. lia. }
  rewrite (bind_step _ _ _ _ _ Hr). rewrite Hu1, take_app_le, drop_app_le in * by lia.
  set (c2 := with_chunks cs (log (EvRead k) c1)).
  assert (Hu2 : unread c2 = drop k seen ++ rest) by exact Hcs.
  assert (Hsplit : unread c = take k seen ++ unread c2) by by rewrite Hu2, app_assoc, take_drop.
  rewrite Hsplit. change (inbound c) with (inbound c2).
  assert (Hlen : length (take k seen) = k) by (rewrite length_take; lia).
  destruct (heads_advance fuel' h (take k seen) (unread c2) (inbound c2) Hh) as [Heq Hok];
    [by intros Hnil; rewrite Hnil in Hlen; simpl in Hlen; lia | rewrite Hlen; unfold room in *; lia | lia
    | by rewrite Hfind, Hlen |].
  rewrite Heq. destruct (advance h (take k seen)) as [[[] h']|e]; [done | | done].
  destruct Hok as (Hh' & Ht' & Hb'). apply IH; [done | lia |]. destruct (ends_with _ _); lia.
Qed.

(** The reference always gives an outcome: its fuel is enough. *)
Lemma heads_total fuel : forall base s stop,
  (base <= HEAD_CAPACITY)%nat -> (HEAD_CAPACITY < base + fuel)%nat ->
  heads fuel base s stop = Pending -> stop = Silent.
Proof.
  induction fuel as [|fuel IH]; intros base s stop Hb Hf; cbn [heads]; [lia|].
  destruct (find_sub CRLFCRLF s) as [pos|].
  - destruct (Nat.ltb_spec HEAD_CAPACITY (base + (pos + 4))); [done|].
    destruct (judge _); [done | apply IH; lia | done].
  - destruct (_ <=? _)%nat; [done|]. by destruct stop.
Qed.

Lemma heads_suffix fuel : forall base s stop rest, heads fuel base s stop = Ready (Ok rest) ->
  exists head, s = head ++ rest /\ ends_with CRLFCRLF head = true /\
    (base + length head <= HEAD_CAPACITY)%nat.
Proof.
  induction fuel as [|fuel IH]; intros base s stop rest; cbn [heads]; [done|].
  destruct (find_sub CRLFCRLF s) as [pos|] eqn:E.
  - destruct (Nat.ltb_spec HEAD_CAPACITY (base + (pos + 4))); [done|].
    apply find_sub_Some in E as (Hs & Hle & _). cbn [CRLFCRLF length] in Hle.
    assert (Hlen : length (take (pos + 4) s) = (pos + 4)%nat) by (rewrite length_take; lia).
    destruct (judge _).
    + intros [= <-]. exists (take (pos + 4) s). rewrite take_drop, Hlen. split_and!; [done| |lia].
      apply ends_with_spec. exists (take pos s). apply starts_with_spec in Hs.
      cbn [CRLFCRLF length] in Hs. rewrite <- Hs.
      rewrite <- (take_drop pos (take (pos + 4) s)), take_take, Nat.min_l by lia.
      f_equal. symmetry. apply take_drop_commute.
    + intros (head & Hd & He & Hb)%IH. exists (take (pos + 4) s ++ head).
      rewrite <- app_assoc, <- Hd, take_drop, length_app, Hlen. split_and!; [done| |lia].
      apply ends_with_spec in He as [r ->]. apply ends_with_spec. rewrite app_assoc. by eexists.
    + done.
  - destruct (_ <=? _)%nat; [done|]. by destruct stop.
Qed.

(** The two HTTP readers are the same reader: on any stream, however its bytes are
    cut, the one that reads a few bytes at a time and the one that peeks both return
    what the reference makes of the bytes, within a 4 KiB budget over all heads; on
    success each has consumed complete heads and nothing after them, so payload the
    proxy sent right behind its answer is still unread; only a silent proxy leaves
    them waiting. *)
Theorem http_readers_agree c :
  let spec := heads (S HEAD_CAPACITY) 0 (unread c) (inbound c) in
  reads_as spec (read_head (S HEAD_CAPACITY) new_head c) /\
  reads_as spec (read_head_tcp (S HEAD_CAPACITY) new_head c) /\
  (forall rest, spec = Ready (Ok rest) -> exists head, unread c = head ++ rest /\
     ends_with CRLFCRLF head = true /\ (length head <= HEAD_CAPACITY)%nat) /\
  (spec = Pending -> inbound c = Silent).
Proof.
  assert (Hnew : head_ok new_head) by (split; [done | cbn; lia]).
  split_and!.
  - apply (read_head_reads _ (S HEAD_CAPACITY) new_head c Hnew); cbn [new_head total filled length]; lia.
  - apply (read_head_tcp_reads _ (S HEAD_CAPACITY) new_head c Hnew); cbn [new_head total filled length]; lia.
  - intros rest H. apply heads_suffix in H as (head & ? & ? & ?). by exists head.
  - apply heads_total; lia.
Qed.

End Client.

(** ** The SOCKS5 client against the server *)

Import Server Handshake.

Definition writes {X} (evs : list (event X)) : bytes :=
  concat (omap (fun ev => match ev with EvWrite bs => Some bs | _ => None end) evs).

(** The address type the client chooses for a host. *)
Definition dest_of (host : bytes) : Dest :=
  match parse_ipv4 host with
  | Some octets => ToV4 (map byte_of octets)
  | None => match parse_ipv6 host with
            | Some segs => ToV6 (segment_octets segs)
            | None => ToDomain host
            end
  end.

(** The one method the client offers. *)
Definition method_of (auth : option (bytes * bytes)) : Z :=
  match auth with Some _ => 2 | None => 0 end.

(** What the client writes, step by step. *)
Definition client_events {X} (host : bytes) (port : Z) (auth : option (bytes * bytes)) : list (event X) :=
  [EvWrite (map byte_of [5; 1; method_of auth]); EvFlush]
  ++ (match auth with
      | Some (user, pass) => [EvWrite (auth_bytes user pass); EvFlush]
      | None => []
      end)
  ++ [EvWrite (connect_bytes (dest_of host) port); EvFlush].

Definition auth_sizes (auth : option (bytes * bytes)) : Prop :=
  match auth with Some (user, pass) => 0 < z_len user < 256 /\ 0 < z_len pass < 256 | None => True end.

Section Interop.
Context {X : Type}.
Variables (early_eof write_zero : IoError).

Lemma yields_client_send bs rest (o : list (event X)) :
  yields (send_all write_zero bs) rest o tt rest (o ++ [EvWrite bs; EvFlush]).
Proof.
  unfold send_all. eapply yields_bind; [apply yields_write|].
  replace (o ++ [EvWrite bs; EvFlush]) with ((o ++ [EvWrite bs]) ++ [EvFlush]) by by rewrite <- app_assoc.
  apply yields_flush.
Qed.

Lemma yields_auth_step auth rest (o : list (event X)) : auth_sizes auth ->
  yields (socks5_auth_step early_eof write_zero auth)
    (writes (server_events auth) ++ rest) o tt rest
    (o ++ [EvWrite (map byte_of [5; 1; method_of auth]); EvFlush]
       ++ match auth with
          | Some (user, pass) => [EvWrite (auth_bytes user pass); EvFlush]
          | None => []
          end).
Proof.
  unfold socks5_auth_step. destruct auth as [[user pass]|]; cbn [auth_sizes method_of].
  - intros [Hu Hp]. unfold z_len in *. eapply yields_bind; [apply yields_client_send|].
    eapply yields_bind; [by apply (yields_read_exact _ 2 (map byte_of [5; 2]) (map byte_of [1; 0] ++ rest))|].
    cbn [map]. unfold version_check. rewrite !byte_val_of by lia. cbn [Z.eqb Pos.eqb negb].
    destruct (Nat.ltb_spec 255 (length user)); [lia|]. destruct (Nat.ltb_spec 255 (length pass)); [lia|].
    cbn [orb]. eapply yields_bind; [apply yields_client_send|].
    eapply yields_bind; [by apply (yields_read_exact _ 2 (map byte_of [1; 0]) rest)|].
    cbn [map]. rewrite !byte_val_of by lia. cbn [Z.eqb Pos.eqb negb].
    rewrite <- app_assoc. apply yields_ret.
  - intros _. eapply yields_bind; [apply yields_client_send|].
    eapply yields_bind; [by apply (yields_read_exact _ 2 (map byte_of [5; 0]) rest)|].
    cbn [map]. unfold version_check. rewrite !byte_val_of by lia. cbn [Z.eqb Pos.eqb negb].
    apply yields_ret.
Qed.

Lemma socks5_address_of host : z_len host < 256 -> exists atyp addr,
  socks5_address host = Ok (atyp, addr) /\ dest_bytes (dest_of host) = byte_of atyp :: addr.
Proof.
  unfold socks5_address, dest_of, z_len. intros Hl.
  destruct (parse_ipv4 host) as [o|]; [by eexists _, _|].
  destruct (parse_ipv6 host) as [s|]; [by eexists _, _|].
  destruct (Nat.ltb_spec 255 (length host)); [lia|]. by eexists _, _.
Qed.

Lemma yields_reply rest (o : list (event X)) :
  yields (socks5_reply early_eof) (socks_reply 0 ++ rest) o tt rest o.
Proof.
  unfold socks5_reply, socks_reply.
  eapply yields_bind; [by apply (yields_read_exact _ 4 (map byte_of [5; 0; 0; 1]) (map byte_of [0; 0; 0; 0; 0; 0] ++ rest))|].
  cbn [map]. unfold version_check. rewrite !byte_val_of by lia. cbn [Z.eqb Pos.eqb negb skip_bound].
  eapply yields_bind; [by apply (yields_read_exact _ 6 (map byte_of [0; 0; 0; 0; 0; 0]) rest) | apply yields_ret].
Qed.

Lemma yields_socks5 host port auth rest (o : list (event X)) :
  0 < z_len host < 256 -> 0 < port <= U16_MAX -> auth_sizes auth ->
  yields (socks5_handshake early_eof write_zero host port auth)
    (writes (server_events auth) ++ socks_reply 0 ++ rest) o tt rest (o ++ client_events host port auth).
Proof.
  intros Hh Hp Ha. unfold socks5_handshake.
  rewrite bool_decide_eq_false_2 by (intros ->; unfold z_len in Hh; simpl in Hh; lia).
  rewrite (proj2 (Z.eqb_neq port 0)) by lia. cbn [orb].
  eapply yields_bind; [by apply yields_auth_step|].
  destruct (socks5_address_of host ltac:(lia)) as (atyp & addr & -> & Hd).
  eapply yields_bind; [apply yields_client_send|].
  replace (o ++ client_events host port auth) with
    ((o ++ [EvWrite (map byte_of [5; 1; method_of auth]); EvFlush]
        ++ match auth with
           | Some (user, pass) => [EvWrite (auth_bytes user pass); EvFlush]
           | None => []
           end) ++ [EvWrite (map byte_of [5; 1; 0; atyp] ++ addr
                  ++ [byte_of (port / 256); byte_of (port mod 256)]); EvFlush]); [apply yields_reply|].
  unfold client_events, connect_bytes, port_bytes. rewrite Hd, <- !app_assoc. done.
Qed.

(** The response reader writes nothing. *)
Lemma read_head_mute fuel : forall h (c : conn X),
  outputs (read_head fuel h c).2 = outputs c /\ room (read_head fuel h c).2 = room c.
Proof.
  induction fuel as [|fuel IH]; intros h c; [done|]. cbn [read_head].
  destruct (remaining h) as [n|e]; [|done]. unfold mbind, M_bind.
  set (k := Nat.min (safe_step (filled h)) n).
  assert (Hread : outputs (read (E := ConnectError) k c).2 = outputs c /\
                  room (read (E := ConnectError) k c).2 = room c).
  { unfold read. cbn [chunks log].
    destruct (chunks c); [cbn [inbound log]; destruct (inbound c)|]; cbn [snd];
      (split; [apply (outputs_read k c) | done]). }
  destruct (read k c) as [[[bs|e]|] c1]; cbn [snd] in Hread; try done.
  destruct (advance h bs) as [[[] h']|e]; cbn [snd]; try done. destruct Hread as [<- <-]. apply IH.
Qed.

Lemma heads_established rest stop :
  heads (S HEAD_CAPACITY) 0 (lit "HTTP/1.1 200 Connection Established" ++ CRLF ++ CRLF ++ rest) stop
  = Ready (Ok rest).
Proof.
  set (r := lit "HTTP/1.1 200 Connection Established" ++ CRLF ++ CRLF).
  replace (lit "HTTP/1.1 200 Connection Established" ++ CRLF ++ CRLF ++ rest) with (r ++ rest)
    by (unfold r; by rewrite <- !app_assoc).
  assert (Hf : find_sub Upstream.CRLFCRLF r = Some (length r - 4)%nat) by reflexivity.
  assert (Hj : judge r = Granted) by reflexivity.
  destruct (find_sub_app _ _ rest _ Hf) as [Hfind _].
  assert (Hl : (length r - 4 + 4 = length r)%nat) by reflexivity.
  assert (Hcap : (HEAD_CAPACITY <? 0 + length r)%nat = false) by reflexivity.
  clearbody r. cbn [heads]. by rewrite Hfind, Hl, Hcap, take_app_length, drop_app_length, Hj.
Qed.

Lemma yields_http encode target node rest (o : list (event X)) :
  existsb blank target = false ->
  yields (http_connect_handshake write_zero encode target node)
    (lit "HTTP/1.1 200 Connection Established" ++ CRLF ++ CRLF ++ rest) o tt rest
    (o ++ [EvWrite (connect_request encode target node); EvFlush]).
Proof.
  intros Hb. unfold http_connect_handshake, write_connect_request.
  change (existsb (fun b => is_ascii_control b || is_ascii_whitespace b) target) with (existsb blank target).
  rewrite Hb. eapply yields_bind; [apply yields_client_send|]. intros c (Hu & Hr & Ho).
  assert (Hnew : head_ok new_head) by (split; [done | cbn; lia]).
  pose proof (read_head_reads (S HEAD_CAPACITY) (S HEAD_CAPACITY) new_head c Hnew) as Hreads.
  cbn [new_head total filled length app] in Hreads. rewrite Hu, heads_established in Hreads.
  destruct Hreads as [Hres Hrest]; [cbn; lia..|].
  destruct (read_head_mute (S HEAD_CAPACITY) new_head c) as [Hout Hroom].
  change (mkHead [] 0) with new_head in *.
  destruct (read_head (S HEAD_CAPACITY) new_head c) as [r c'] eqn:E. cbn [fst snd] in *. subst r.
  exists c'. split; [done|]. by rewrite <- Ho, <- Hout; split_and!; try congruence.
Qed.

Lemma writes_client host port auth :
  writes (X := X) (client_events host port auth)
  = client_bytes (map byte_of [method_of auth]) auth (dest_of host) port [].
Proof.
  unfold client_events, client_bytes, writes. rewrite !omap_app, !concat_app.
  destruct auth as [[user pass]|]; cbn [omap list_omap concat method_of map app]; rewrite ?app_nil_r; done.
Qed.

(** *** Address lengths *)

Lemma read_ipv4_octets_length k : forall i s r, read_ipv4_octets k i s = Some r -> length r.1 = k.
Proof.
  induction k as [|k IH]; intros i s r; cbn [read_ipv4_octets]; [by intros [= <-]|].
  unfold mbind, option_bind. destruct (read_separator _ _ _ s) as [[o s1]|]; [|done].
  destruct (read_ipv4_octets k (S i) s1) as [[os s2]|] eqn:E; [|done].
  intros [= <-]. apply IH in E. cbn in *. by rewrite E.
Qed.

Lemma read_groups_length k : forall i s, (length (read_groups k i s).1.1 <= k)%nat.
Proof.
  induction k as [|k IH]; intros i s; cbn [read_groups]; [done|].
  assert (Hrest : (length (match read_separator ":"%char i (read_number 16 4 true U16_MAX) s with
            | Some (g, s1) => let '(gs, v4, s2) := read_groups k (S i) s1 in (g :: gs, v4, s2)
            | None => ([], false, s) end).1.1 <= S k)%nat).
  { destruct (read_separator _ i _ s) as [[g s1]|]; [|simpl; lia].
    specialize (IH (S i) s1). destruct (read_groups k (S i) s1) as [[gs v4] s2]. simpl in *. lia. }
  destruct (Nat.leb_spec 1 k); [|exact Hrest].
  destruct (read_separator _ i read_ipv4_addr s) as [[[|o1 [|o2 [|o3 [|o4 [|]]]]] s1]|]; try exact Hrest.
  simpl. lia.
Qed.

Lemma parse_ipv6_length s segs : parse_ipv6 s = Some segs -> length segs = 8%nat.
Proof.
  unfold parse_ipv6, read_ipv6_addr. pose proof (read_groups_length 8 0 s) as Hh.
  destruct (read_groups 8 0 s) as [[head v4] s1]. cbn [fst] in Hh.
  destruct (Nat.eqb_spec (length head) 8); [destruct s1; [by intros [= <-] | done]|].
  destruct v4; [done|]. unfold mbind, option_bind.
  destruct (strip_prefix1 _ s1) as [s2|]; [|done]. destruct (strip_prefix1 _ s2) as [s3|]; [|done].
  pose proof (read_groups_length (8 - (length head + 1)) 0 s3) as Ht.
  destruct (read_groups _ 0 s3) as [[tail ?] s4]. cbn [fst] in Ht.
  destruct s4; [|done]. intros [= <-]. rewrite !length_app, length_replicate. lia.
Qed.

Lemma segment_octets_length segs : length (segment_octets segs) = (2 * length segs)%nat.
Proof.
  unfold segment_octets. induction segs as [|g segs IH]; [done|]. cbn [map concat].
  rewrite length_app, IH. simpl. lia.
Qed.

(** Literals are always sendable; a name must be one. *)
Lemma dest_of_ok host port :
  (dest_of host = ToDomain host -> dest_ok (ToDomain host) port) -> dest_ok (dest_of host) port.
Proof.
  unfold dest_of. destruct (parse_ipv4 host) as [o|] eqn:E4.
  - intros _. cbn. rewrite length_map. unfold parse_ipv4 in E4. destruct (_ <? _)%nat; [done|].
    destruct (read_ipv4_addr host) as [[a [|]]|] eqn:Er; try done. injection E4 as <-.
    unfold read_ipv4_addr in Er. by apply read_ipv4_octets_length in Er.
  - destruct (parse_ipv6 host) as [segs|] eqn:E6; [|by intros H; apply H].
    intros _. cbn. rewrite segment_octets_length, (parse_ipv6_length _ _ E6). done.
Qed.

(** C38: the client and the server of this program understand each other. What the
    client writes for a host, a port and optional credentials is what the server
    accepts, as a request for exactly that destination by that identity; what the
    server answers, followed by the host's success reply, is what the client accepts;
    and on both sides the payload behind the handshake is still unread. *)
Theorem socks_interop decode str_debug authenticate now1 now2 options host port auth
    from_client from_server cs (cc : conn X) :
  now1 < deadline options -> now2 < deadline options ->
  0 < z_len host < 256 -> 0 < port <= U16_MAX -> auth_sizes auth ->
  auth_ok authenticate options (map byte_of [method_of auth]) auth ->
  (dest_of host = ToDomain host -> dest_ok (ToDomain host) port) ->
  unread cs = writes (X := X) (client_events host port auth) ++ from_client -> room cs = None ->
  unread cc = writes (server_events auth) ++ socks_reply 0 ++ from_server -> room cc = None ->
  (exists cs', accept early_eof write_zero decode str_debug authenticate now1 now2 options cs
       = (Ready (Ok (served options auth (dest_of host) port)), cs') /\
     unread cs' = from_client /\ outputs cs' = outputs cs ++ server_events auth) /\
  (exists cc', socks5_handshake early_eof write_zero host port auth cc = (Ready (Ok tt), cc') /\
     unread cc' = from_server /\ outputs cc' = outputs cc ++ client_events host port auth) /\
  reply_bytes Socks5 Established = Some (socks_reply 0).
Proof.
  intros Hn1 Hn2 Hh Hp Hs Ha Hd Hcs Hrs Hcc Hrc. split_and!; [| |done].
  - apply (socks_client_accepted _ _ _ _ _ _ _ _ (map byte_of [method_of auth]) _ _ _ from_client); try done.
    + by apply dest_of_ok.
    + lia.
    + rewrite Hcs, writes_client. unfold client_bytes. cbn [app]. by rewrite ?app_nil_r, <- ?app_assoc.
  - destruct (yields_socks5 host port auth from_server (outputs cc) Hh Hp Hs cc) as (cc' & ? & ? & ? & ?);
      [done|]. by exists cc'.
Qed.

End Interop.

(** ** Witnesses *)

Definition demo_cc : conn Credentials :=
  mkConn (map (fun b => (b, [])) (writes (server_events (Some (lit "u", lit "pw"))) ++ socks_reply 0 ++ lit "yo"))
    Silent None [].
Definition demo_cs : conn Credentials :=
  mkConn (chunk_of (writes (X := Credentials) (client_events (lit "::1") 443 (Some (lit "u", lit "pw"))) ++ lit "hi"))
    Eof None [].

Lemma socks_interop_witness :
  (accept demo_error demo_error Some (fun s => s) demo_authenticate 0 1 demo_options demo_cs).1
    = Ready (Ok (served demo_options (Some (lit "u", lit "pw")) (dest_of (lit "::1")) 443)) /\
  (socks5_handshake demo_error demo_error (lit "::1") 443 (Some (lit "u", lit "pw")) demo_cc).1
    = Ready (Ok tt).
Proof.
  destruct (socks_interop demo_error demo_error Some (fun s => s) demo_authenticate 0 1 demo_options
    (lit "::1") 443 (Some (lit "u", lit "pw")) (lit "hi") (lit "yo") demo_cs demo_cc)
    as ((cs' & Hcs & _) & (cc' & Hcc & _) & _); try reflexivity; try (cbv; intuition congruence).
  cbn. split_and!; try done. by left.
Defined.

End Upstream.
