(* ===== verification/Clients.v ===== *)
(** The [allowed_clients] rule language of the server's configuration: compiling
    a rule line and matching a peer address
    (src/crates/resocks5/src/config/allowed_clients.rs).

    The reference semantics [denotes] reads an element as text (the fields of a
    mask are [*] or a number written out) and never mentions the compiled form;
    [compile_semantics] is the equivalence of the two. *)
From S2P Require Import Prelude Text TextFmt.

Module Clients.

(** ** Addresses *)

(** [IpAddr]: four octets, or eight segments. *)
Inductive IpAddr := V4 (octets : list Z) | V6 (segments : list Z).

#[export] Instance IpAddr_eq_dec : EqDecision IpAddr.
Proof. solve_decision. Defined.

Definition ip_wf (ip : IpAddr) : Prop :=
  match ip with
  | V4 o => length o = 4%nat /\ Forall (fun x => 0 <= x <= U8_MAX) o
  | V6 s => length s = 8%nat /\ Forall (fun x => 0 <= x <= U16_MAX) s
  end.

(** [Ipv4Addr::to_ipv6_mapped]. *)
Definition to_ipv6_mapped (o : list Z) : list Z :=
  [0; 0; 0; 0; 0; 65535; nth 0 o 0 * 256 + nth 1 o 0; nth 2 o 0 * 256 + nth 3 o 0].

Definition v4_is_loopback (o : list Z) : bool := nth 0 o 0 =? 127.
Definition v6_is_loopback (s : list Z) : bool := bool_decide (s = [0; 0; 0; 0; 0; 0; 0; 1]).

(** [s.parse::<IpAddr>()]: the IPv4 reader first, the IPv6 reader when it fails;
    the whole input must be consumed. *)
Definition parse_ip (s : bytes) : option IpAddr :=
  match read_ipv4_addr s with
  | Some (o, []) => Some (V4 o)
  | Some (_, _ :: _) => None
  | None => V6 <$> parse_ipv6 s
  end.

(** ** Rules *)

Inductive Mask := MV4 (segs : list (option Z)) | MV6 (segs : list (option Z)).
Inductive Rule := Exact (ip : IpAddr) | Loopback | RMask (m : Mask).
Record AllowedClients := mk { allow_all : bool; rules : list Rule }.

(** Every [bail!] of the compiler, the element and the rule being the context of
    an element's error. *)
Inductive Cause :=
| NotIpNorKeyword
| BadV4Address | V4MaskNeedsFour | BadOctet (p : bytes) | LeadingZeros (p : bytes)
| ZonesUnsupported | BracketsUnsupported | BadV6Address | ManyCompressions | ExtraColons
| TooManyGroups | CompressionWithEight | V6MaskNeedsEight
| BadGroup (g : bytes) | GroupChars (g : bytes) | GroupTooLong (g : bytes) | BadHexGroup (g : bytes).
Inductive Error :=
| EmptyElement (spec : bytes)
| BadElement (elem spec : bytes) (cause : Cause)
| EmptySpec.

(** *** Matching *)

Definition normalize_mapped (ip : IpAddr) : IpAddr :=
  match ip with
  | V6 v6 => match to_ipv4_mapped v6 with Some v4 => V4 v4 | None => ip end
  | V4 _ => ip
  end.

Definition seg_matches (p : option Z * Z) : bool :=
  match p.1 with None => true | Some v => v =? p.2 end.

Definition rule_matches (r : Rule) (ip : IpAddr) : bool :=
  match r with
  | Exact exact => bool_decide (exact = ip)
  | Loopback =>
      match ip with V4 v4 => v4_is_loopback v4 | V6 v6 => v6_is_loopback v6 end
  | RMask (MV4 segs) =>
      match ip with V4 v4 => forallb seg_matches (zip segs v4) | V6 _ => false end
  | RMask (MV6 segs) =>
      let segs6 := match ip with V6 v6 => v6 | V4 v4 => to_ipv6_mapped v4 end in
      forallb seg_matches (zip segs segs6)
  end.

Definition matches (c : AllowedClients) (ip : IpAddr) : bool :=
  let ip := normalize_mapped ip in
  if allow_all c then true else existsb (fun r => rule_matches r ip) (rules c).

(** *** Compiling *)

Definition STAR : bytes := lit "*".
Definition has_star (s : bytes) : bool := contains "*"%char s.

(** [u16::from_str_radix(g, 16)] on hex digits. *)
Fixpoint hex_value (max acc : Z) (s : bytes) : option Z :=
  match s with
  | [] => Some acc
  | c :: s' =>
      d ← to_digit 16 c;
      let acc' := acc * 16 + d in
      if acc' <=? max then hex_value max acc' s' else None
  end.

(** One field of a mask: [None] is the wildcard. *)
Definition v4_octet (p : bytes) : result Cause (option Z) :=
  if bool_decide (p = STAR) then Ok None
  else if has_star p || bool_decide (p = []) || negb (forallb is_ascii_digit p)
  then Err (BadOctet p)
  else if (1 <? length p)%nat && starts_with (lit "0") p then Err (LeadingZeros p)
  else match parse_unsigned U8_MAX p with Some v => Ok (Some v) | None => Err (BadOctet p) end.

Definition v6_group (g : bytes) : result Cause (option Z) :=
  if bool_decide (g = STAR) then Ok None
  else if has_star g || bool_decide (g = []) then Err (BadGroup g)
  else if negb (forallb is_ascii_hexdigit g) then Err (GroupChars g)
  else if (4 <? length g)%nat then Err (GroupTooLong g)
  else match hex_value U16_MAX 0 g with Some v => Ok (Some v) | None => Err (BadHexGroup g) end.

(** The loops over the fields stop at the first error. *)
Fixpoint each_field (f : bytes -> result Cause (option Z)) (ps : list bytes)
    : result Cause (list (option Z)) :=
  match ps with
  | [] => Ok []
  | p :: ps' => v ← f p; vs ← each_field f ps'; Ok (v :: vs)
  end.
Definition finish_v6_groups (groups : list bytes) : result Cause (list (option Z)) :=
  each_field v6_group groups.

Definition parse_v4 (elem : bytes) : result Cause Rule :=
  if negb (has_star elem) then
    match parse_ip elem with Some ip => Ok (Exact ip) | None => Err BadV4Address end
  else
    let parts := split_all "."%char elem in
    if negb (length parts =? 4)%nat then Err V4MaskNeedsFour
    else out ← each_field v4_octet parts; Ok (RMask (MV4 out)).

(** [str::match_indices(p).count()]: matches that do not overlap. *)
Fixpoint count_matches (fuel : nat) (p s : bytes) : nat :=
  match fuel with
  | O => O
  | S fuel' =>
      match find_sub p s with
      | Some n => S (count_matches fuel' p (drop (n + length p) s))
      | None => O
      end
  end.
Definition match_count (p s : bytes) : nat := count_matches (S (length s)) p s.

(** [str::split_once] with a string pattern. *)
Definition split_once_str (p s : bytes) : option (bytes * bytes) :=
  n ← find_sub p s; Some (take n s, drop (n + length p) s).

Definition split_groups (s : bytes) : list bytes :=
  if bool_decide (s = []) then [] else split_all ":"%char s.

Definition COLONS : bytes := lit "::".

Definition parse_v6_mask (elem : bytes) : result Cause Rule :=
  if (1 <? match_count COLONS elem)%nat then Err ManyCompressions
  else if match find_sub (lit ":::") elem with Some _ => true | None => false end
  then Err ExtraColons
  else
    let '(head_str, tail_str) := default (elem, []) (split_once_str COLONS elem) in
    let head := split_groups head_str in
    let tail := split_groups tail_str in
    if existsb (fun g => bool_decide (g = [])) head
       || existsb (fun g => bool_decide (g = [])) tail
    then Err ExtraColons
    else
      let explicit := (length head + length tail)%nat in
      if (8 <? explicit)%nat then Err TooManyGroups
      else
        match split_once_str COLONS elem with
        | Some _ =>
            if (explicit =? 8)%nat then Err CompressionWithEight
            else
              out ← finish_v6_groups (head ++ replicate (8 - explicit) (lit "0") ++ tail);
              Ok (RMask (MV6 out))
        | None =>
            if negb (explicit =? 8)%nat then Err V6MaskNeedsEight
            else out ← finish_v6_groups head; Ok (RMask (MV6 out))
        end.

Definition parse_v6 (elem : bytes) : result Cause Rule :=
  if contains "%"%char elem then Err ZonesUnsupported
  else if starts_with (lit "[") elem || ends_with (lit "]") elem then Err BracketsUnsupported
  else if negb (has_star elem) then
    match parse_ipv6 elem with
    | Some v6 => Ok (Exact (normalize_mapped (V6 v6)))
    | None => Err BadV6Address
    end
  else parse_v6_mask elem.

Definition parse_element (elem : bytes) : result Cause Rule :=
  if eq_ignore_ascii_case elem (lit "loopback") then Ok Loopback
  else if contains ":"%char elem then parse_v6 elem
  else if contains "."%char elem then parse_v4 elem
  else Err NotIpNorKeyword.

(** The loop of [compile_allowed_clients] over the raw elements. *)
Fixpoint compile_elements (spec : bytes) (raws : list bytes) (acc : AllowedClients)
    : result Error AllowedClients :=
  match raws with
  | [] => Ok acc
  | raw :: raws' =>
      let elem := str_trim raw in
      if bool_decide (elem = []) then Err (EmptyElement spec)
      else if bool_decide (elem = STAR) then
        compile_elements spec raws' (mk true (rules acc))
      else
        r ← map_err (BadElement elem spec) (parse_element elem);
        compile_elements spec raws' (mk (allow_all acc) (rules acc ++ [r]))
  end.

Definition compile_allowed_clients (spec : bytes) : result Error AllowedClients :=
  c ← compile_elements spec (split_all ","%char spec) (mk false []);
  if bool_decide (rules c = []) && negb (allow_all c) then Err EmptySpec else Ok c.

Definition accepts (spec : string) : bool := is_ok (compile_allowed_clients (lit spec)).
Definition allows (spec ip : string) : option bool :=
  match compile_allowed_clients (lit spec), parse_ip (lit ip) with
  | Ok c, Some a => Some (matches c a)
  | _, _ => None
  end.

Example accepted_ex : forallb accepts
    ["1.2.3.4"; "::1"; "2001:0db8:0000::1"; "*"; "loopback"; "10.*.0.1"; "2001:db8::*";
     "2001:db8:*::1"; "2001:db8:1:*::5"; "*,loopback"; " 1.2.3.4 , ::1"] = true.
Proof. vm_compute. reflexivity. Qed.

Example rejected_ex : existsb accepts
    [""; "a,,b"; " "; "example.com"; "10.0.0.0/8"; "1.2.3.4:80"; "1*.2.3.4"; "1*x"; "10.1.*";
     "::1%eth0"; "[::1]"; ":::"; "1:2"; "1.2.3"; "1.2.3.4.5"; "256.1.1.1"; "01.2.3.4";
     "2001:db8::*::*"; "2001:db8:00000::*"; "2001:db8::1*x"; "1:2:3:4:5:6:7:*::";
     "::1:2:3:4:5:6:7:8:*"; "2001:db8:*"; "01.*.2.3"; "2001:::*"; "*,example.com"] = false.
Proof. vm_compute. reflexivity. Qed.

Example allows_ex :
  map (fun '(s, i) => allows s i)
    [("10.*.0.1", "::ffff:10.9.0.1"); ("10.*.0.1", "10.1.0.2"); ("2001:db8::*", "2001:db8::ffff");
     ("2001:db8::*", "2001:db8:1::1"); ("::ffff:7f00:*", "127.0.255.255");
     ("1.2.3.4", "::102:304"); ("LoopBack", "::1")]
  = [Some true; Some false; Some true; Some false; Some true; Some false; Some true].
Proof. vm_compute. reflexivity. Qed.

(** ** What an element means

    [denotes ip e]: the text [e] admits the address [ip]. *)

Definition field_v4 (p : bytes) (o : Z) : Prop := p = STAR \/ p = fmt_dec o.

Definition hex_number (g : bytes) : Z :=
  foldl (fun a c => a * 16 + default 0 (to_digit 16 c)) 0 g.
Definition field_v6 (g : bytes) (o : Z) : Prop :=
  g = STAR \/
  (0 < length g <= 4)%nat /\ forallb is_ascii_hexdigit g = true /\ hex_number g = o.

(** The segments an address is compared by in an IPv6 mask. *)
Definition segments_of (ip : IpAddr) : list Z :=
  match ip with V6 s => s | V4 o => to_ipv6_mapped o end.

Inductive denotes (ip : IpAddr) : bytes -> Prop :=
| den_any : denotes ip STAR
| den_loopback4 e o : eq_ignore_ascii_case e (lit "loopback") = true ->
    normalize_mapped ip = V4 (127 :: o) -> denotes ip e
| den_loopback6 e : eq_ignore_ascii_case e (lit "loopback") = true ->
    ip = V6 [0; 0; 0; 0; 0; 0; 0; 1] -> denotes ip e
| den_exact e a : has_star e = false -> parse_ip e = Some a ->
    normalize_mapped a = normalize_mapped ip -> denotes ip e
| den_mask4 ps o : STAR ∈ ps -> length ps = 4%nat ->
    normalize_mapped ip = V4 o -> Forall2 field_v4 ps o -> denotes ip (join (lit ".") ps)
| den_mask6 gs : STAR ∈ gs -> length gs = 8%nat ->
    Forall2 field_v6 gs (segments_of ip) -> denotes ip (join (lit ":") gs)
| den_mask6_compressed hs ts : STAR ∈ hs ++ ts -> (length hs + length ts < 8)%nat ->
    Forall2 field_v6 (hs ++ replicate (8 - (length hs + length ts)) (lit "0") ++ ts)
      (segments_of ip) ->
    denotes ip (join (lit ":") hs ++ COLONS ++ join (lit ":") ts).

(** ** Splitting and joining *)

Lemma join_cons sep x l : l <> [] -> join sep (x :: l) = x ++ sep ++ join sep l.
Proof. by destruct l. Qed.

Lemma split_all_nonempty c s : split_all c s <> [].
Proof.
  destruct s as [|x s]; cbn; [done|]. destruct (Ascii.eqb x c); [done|]. by destruct (split_all c s).
Qed.

Lemma split_all_fields c s : Forall (fun w => c ∉ w) (split_all c s).
Proof.
  induction s as [|x s IH]; cbn; [repeat constructor; by apply not_elem_of_nil|].
  destruct (Ascii.eqb_spec x c) as [->|Hx]; [constructor; [apply not_elem_of_nil | done]|].
  destruct (split_all c s) as [|w ws]; [repeat constructor; by apply not_elem_of_cons; split; [congruence | apply not_elem_of_nil]|].
  inversion IH; subst. constructor; [|done]. apply not_elem_of_cons. split; [congruence | done].
Qed.

Lemma join_split c s : join [c] (split_all c s) = s.
Proof.
  induction s as [|x s IH]; [done|]. cbn [split_all].
  destruct (Ascii.eqb_spec x c) as [->|Hx].
  - rewrite join_cons by apply split_all_nonempty. by rewrite IH.
  - pose proof (split_all_nonempty c s). destruct (split_all c s) as [|w [|w' ws]]; [done| |].
    + cbn in *. by subst.
    + rewrite join_cons in * by done. cbn in *. by rewrite IH.
Qed.

Lemma split_all_app c w s : c ∉ w -> split_all c (w ++ c :: s) = w :: split_all c s.
Proof.
  induction w as [|x w IH]; intros H; cbn.
  - by rewrite Ascii.eqb_refl.
  - apply not_elem_of_cons in H as [Hx H].
    rewrite ascii_eqb_ne by congruence. by rewrite IH.
Qed.

Lemma split_all_plain c w : c ∉ w -> split_all c w = [w].
Proof.
  induction w as [|x w IH]; intros H; cbn; [done|]. apply not_elem_of_cons in H as [Hx H].
  rewrite ascii_eqb_ne by congruence. by rewrite IH.
Qed.

Lemma split_join c l : l <> [] -> Forall (fun w => c ∉ w) l -> split_all c (join [c] l) = l.
Proof.
  intros Hne Hl. induction Hl as [|w l Hw Hl IH]; [done|]. destruct l as [|w' l].
  - by apply split_all_plain.
  - rewrite join_cons by done. cbn [app]. rewrite split_all_app by done. by rewrite IH.
Qed.

Lemma join_elem c sep l : c ∈ join sep l -> c ∈ sep \/ exists w, w ∈ l /\ c ∈ w.
Proof.
  induction l as [|w l IH]; cbn; [by intros ?%elem_of_nil|]. destruct l as [|w' l].
  - intros H. right. exists w. split; [by left | done].
  - rewrite !elem_of_app. intros [H|[H|H]]; [right; exists w; split; [by left | done] | by left |].
    destruct (IH H) as [|(v & Hv & Hc)]; [by left|]. right. exists v. split; [by right | done].
Qed.

Lemma elem_of_join c sep w l : w ∈ l -> c ∈ w -> c ∈ join sep l.
Proof.
  intros Hw Hc. induction l as [|v l IH]; [by apply elem_of_nil in Hw|]. cbn.
  apply elem_of_cons in Hw as [->|Hw]; destruct l; rewrite ?elem_of_app; auto.
  by apply elem_of_nil in Hw.
Qed.

(** ** Fields *)

Definition dec_number (p : bytes) : Z := foldl (fun a c => a * 10 + digit_val c) 0 p.

(** Written without leading zeros. *)
Definition canonical (p : bytes) : Prop :=
  p <> [] /\ forallb is_ascii_digit p = true /\
  (length p = 1%nat \/ starts_with (lit "0") p = false).

Lemma digit_val_range c : is_ascii_digit c = true -> 0 <= digit_val c <= 9.
Proof. rewrite is_ascii_digit_spec. unfold digit_val. lia. Qed.

Lemma dec_number_pos p : forallb is_ascii_digit p = true ->
  forall a, 0 <= a -> 0 <= foldl (fun a c => a * 10 + digit_val c) a p /\
    (0 < a -> 0 < foldl (fun a c => a * 10 + digit_val c) a p).
Proof.
  induction p as [|c p IH]; cbn [forallb foldl]; [lia|]. intros [Hc Hp]%andb_true_iff a Ha.
  apply digit_val_range in Hc. destruct (IH Hp (a * 10 + digit_val c)) as [H1 H2]; [lia|].
  split; [done|]. intros. apply H2. lia.
Qed.

Lemma nonzero_head_pos p : p <> [] -> forallb is_ascii_digit p = true ->
  starts_with (lit "0") p = false -> 0 < dec_number p.
Proof.
  destruct p as [|c p]; [done|]. cbn [forallb]. intros _ [Hc Hp]%andb_true_iff H0.
  unfold dec_number. cbn [foldl]. apply dec_number_pos; [done| |].
  - apply digit_val_range in Hc. lia.
  - apply is_ascii_digit_spec in Hc. unfold digit_val.
    assert (byte_val c <> 48).
    { intros Hz. assert (c = "0"%char) as -> by (by apply byte_val_inj; rewrite Hz).
      by destruct p. }
    lia.
Qed.

Lemma digit_val_inj c d : digit_val c = digit_val d -> c = d.
Proof. unfold digit_val. intros H. apply byte_val_inj. lia. Qed.

Lemma starts_with_zero_snoc p c : p <> [] ->
  starts_with (lit "0") (p ++ [c]) = starts_with (lit "0") p.
Proof. intros Hp. apply starts_with_app_le. destruct p; cbn; [done | lia]. Qed.

(** A number has one canonical decimal text. *)
Lemma canonical_inj p : forall q, canonical p -> canonical q -> dec_number p = dec_number q -> p = q.
Proof.
  induction p as [|c p IH] using rev_ind; intros q (Hp & Dp & Zp) (Hq & Dq & Zq) E; [done|].
  destruct q as [|d q _] using rev_ind; [done|].
  rewrite forallb_app in Dp, Dq. cbn [forallb] in Dp, Dq.
  apply andb_true_iff in Dp as [Dp [Dc _]%andb_true_iff].
  apply andb_true_iff in Dq as [Dq [Dd _]%andb_true_iff].
  unfold dec_number in E. rewrite !foldl_app in E. cbn [foldl] in E.
  pose proof (digit_val_range _ Dc). pose proof (digit_val_range _ Dd).
  assert (digit_val c = digit_val d /\ dec_number p = dec_number q) as [Hcd%digit_val_inj Hpq]
    by (unfold dec_number; lia).
  subst d. f_equal. rewrite !length_app in *. cbn [length] in *.
  destruct (decide (p = [])) as [->|Np], (decide (q = [])) as [->|Nq]; [done| | |].
  - rewrite starts_with_zero_snoc in Zq by done. destruct Zq as [Hl|Zq]; [destruct q; cbn in *; [done|lia]|].
    pose proof (nonzero_head_pos q Nq Dq Zq). rewrite <- Hpq in *. cbn in *. lia.
  - rewrite starts_with_zero_snoc in Zp by done. destruct Zp as [Hl|Zp]; [destruct p; cbn in *; [done|lia]|].
    pose proof (nonzero_head_pos p Np Dp Zp). rewrite Hpq in *. cbn in *. lia.
  - rewrite starts_with_zero_snoc in Zp, Zq by done.
    apply IH; [split_and!; try done; right; destruct Zp; [destruct p; cbn in *; [done|lia] | done]
              |split_and!; try done; right; destruct Zq; [destruct q; cbn in *; [done|lia] | done] | done].
Qed.

Lemma fmt_octet_canonical o : 0 <= o <= U8_MAX -> canonical (fmt_dec o) /\ dec_number (fmt_dec o) = o.
Proof.
  intros Ho. destruct (fmt_dec_spec o) as (Hne & Hd & Hf); [lia|]. split; [|done].
  pose proof (octet_text o Ho) as H. unfold octet_text_ok in H.
  apply andb_true_iff in H as [_ [H|H]%orb_true_iff]; split_and!; try done.
  - left. by apply Nat.eqb_eq.
  - right. by apply negb_true_iff.
Qed.

Lemma parse_unsigned_number max p v : forallb is_ascii_digit p = true ->
  parse_unsigned max p = Some v -> dec_number p = v.
Proof.
  intros Hd H. assert (Hp : parse_digits max 0 p = Some v).
  { pose proof (digit_not_plus p Hd) as Hn. unfold parse_unsigned in H.
    destruct p as [|c p]; [done|]. by rewrite Hn in H. }
  clear H. unfold dec_number. revert Hp. generalize 0. induction p as [|c p IH]; intros a; cbn [parse_digits foldl].
  - by intros [= ->].
  - cbn [forallb] in Hd. apply andb_true_iff in Hd as [-> Hd].
    destruct (_ <=? max); [|done]. by apply IH.
Qed.

Lemma v4_octet_spec p v o : v4_octet p = Ok v -> 0 <= o <= U8_MAX ->
  (seg_matches (v, o) = true <-> field_v4 p o).
Proof.
  unfold v4_octet, field_v4. intros H Ho. destruct (bool_decide_reflect (p = STAR)) as [->|Hs].
  { injection H as <-. split; [by left | done]. }
  destruct (has_star p || bool_decide (p = []) || negb (forallb is_ascii_digit p)) eqn:E; [done|].
  rewrite !orb_false_iff in E. destruct E as [[_ Hne%bool_decide_eq_false] Hd%negb_false_iff].
  destruct ((1 <? length p)%nat && starts_with (lit "0") p) eqn:Ez; [done|].
  destruct (parse_unsigned U8_MAX p) as [n|] eqn:En; [|done]. injection H as <-.
  pose proof (parse_unsigned_number _ _ _ Hd En) as Hn.
  destruct (fmt_octet_canonical o Ho) as [Hc Ho'].
  assert (Hcp : canonical p).
  { split_and!; [done | done |]. apply andb_false_iff in Ez as [Hl|Hz]; [left | by right].
    apply Nat.ltb_ge in Hl. destruct p; cbn in *; [done | lia]. }
  cbn [seg_matches fst snd]. rewrite Z.eqb_eq. split.
  - intros E. right. apply canonical_inj; [done | done |]. rewrite Ho'. lia.
  - intros [->|E]; [done|]. rewrite E in Hn. lia.
Qed.

Lemma hex_value_number max g : forall acc v, hex_value max acc g = Some v ->
  foldl (fun a c => a * 16 + default 0 (to_digit 16 c)) acc g = v.
Proof.
  induction g as [|c g IH]; intros acc v; cbn; [by intros [= ->]|].
  destruct (to_digit 16 c) as [d|]; cbn; [|done]. destruct (_ <=? max); [|done]. apply IH.
Qed.

Lemma v6_group_spec g v o : v6_group g = Ok v -> (seg_matches (v, o) = true <-> field_v6 g o).
Proof.
  unfold v6_group, field_v6. intros H. destruct (bool_decide_reflect (g = STAR)) as [->|Hs].
  { injection H as <-. split; [by left | done]. }
  destruct (has_star g || bool_decide (g = [])) eqn:E; [done|].
  rewrite orb_false_iff in E. destruct E as [_ Hne%bool_decide_eq_false].
  destruct (forallb is_ascii_hexdigit g) eqn:Hx; [|done]. cbn [negb] in H.
  destruct (4 <? length g)%nat eqn:El; [done|]. apply Nat.ltb_ge in El.
  destruct (hex_value U16_MAX 0 g) as [n|] eqn:En; [|done]. injection H as <-.
  apply hex_value_number in En. change (hex_number g = n) in En. cbn [seg_matches fst snd]. rewrite Z.eqb_eq. split.
  - intros ->. right. split_and!; [destruct g; cbn in *; [done | lia] | done | done | done].
  - intros [->|(_ & _ & E)]; [done | congruence].
Qed.

(** The field loop matches an address exactly when every field does. *)
Lemma each_field_spec f (R : bytes -> Z -> Prop) ps : forall vs os,
  each_field f ps = Ok vs -> length ps = length os ->
  (forall p v o, f p = Ok v -> o ∈ os -> seg_matches (v, o) = true <-> R p o) ->
  (forallb seg_matches (zip vs os) = true <-> Forall2 R ps os).
Proof.
  induction ps as [|p ps IH]; intros vs [|o os] H Hl HR; try done; cbn in H.
  { injection H as <-. split; [constructor | done]. }
  destruct (f p) as [v|] eqn:Ef; [|done]. cbn in H.
  destruct (each_field f ps) as [vs'|] eqn:Ee; [|done]. injection H as <-.
  cbn. rewrite andb_true_iff, Forall2_cons, (HR _ _ _ Ef) by (by left).
  rewrite (IH vs' os) by (done || (cbn in Hl; lia) || (intros; apply HR; [done | by right])). done.
Qed.

(** ** Groups of an IPv6 text *)

Definition group_ok (g : bytes) : Prop := g <> [] /\ ":"%char ∉ g.
Notation COLON := (lit ":").

Lemma starts_with_COLONS c s :
  (":"%char <> c \/ exists d, head s = Some d /\ ":"%char <> d) -> starts_with COLONS (c :: s) = false.
Proof.
  unfold COLONS. cbn [lit String.list_ascii_of_string starts_with]. intros [H|(d & Hd & H)].
  - by rewrite ascii_eqb_ne.
  - destruct s as [|d' s]; [done|]. injection Hd as ->. rewrite (ascii_eqb_ne ":" d) by done.
    apply andb_false_r.
Qed.

Lemma find_sub_word w t : ":"%char ∉ w ->
  find_sub COLONS (w ++ t) = Nat.add (length w) <$> find_sub COLONS t.
Proof.
  induction w as [|c w IH]; intros H; cbn [app length].
  - by destruct (find_sub COLONS t).
  - apply not_elem_of_cons in H as [Hc H]. cbn [find_sub].
    replace (starts_with COLONS (c :: w ++ t)) with false.
    + rewrite IH by done. by destruct (find_sub COLONS t).
    + symmetry. apply starts_with_COLONS. by left.
Qed.

(** Joined groups hold no [::], and none begins at their end. *)
Lemma find_sub_join l t : Forall group_ok l ->
  find_sub COLONS (join COLON l ++ t) = Nat.add (length (join COLON l)) <$> find_sub COLONS t.
Proof.
  induction 1 as [|w l [Hw Hc] Hl IH]; [cbn [join app length]; by destruct (find_sub COLONS t)|].
  destruct l as [|w' l]; [by apply find_sub_word|].
  rewrite join_cons, <- !app_assoc, find_sub_word by done.
  inversion Hl as [|? ? [Hw' Hc'] _]; subst.
  change (COLON ++ join COLON (w' :: l) ++ t) with (":"%char :: (join COLON (w' :: l) ++ t)).
  cbn [find_sub].
  replace (starts_with COLONS (":"%char :: join COLON (w' :: l) ++ t)) with false.
  - rewrite IH, !length_app. cbn [length lit String.list_ascii_of_string].
    destruct (find_sub COLONS t); cbn; [f_equal; lia | done].
  - symmetry. destruct w' as [|d w']; [done|]. apply not_elem_of_cons in Hc' as [Hd _].
    apply starts_with_COLONS. right. exists d. split; [by destruct l | done].
Qed.

Lemma split_groups_join s : join COLON (split_groups s) = s.
Proof. unfold split_groups. case_bool_decide; [by subst | apply join_split]. Qed.

Lemma split_groups_ok s : existsb (fun g => bool_decide (g = [])) (split_groups s) = false ->
  Forall group_ok (split_groups s).
Proof.
  unfold split_groups. case_bool_decide; [constructor|]. intros Hs.
  pose proof (split_all_fields ":"%char s) as Hf. rewrite Forall_forall in *.
  intros g Hg. split; [|by apply Hf]. intros ->. rewrite <- not_true_iff_false in Hs.
  apply Hs, existsb_exists. exists []. split; [by apply list_elem_of_In | done].
Qed.

Lemma join_nil_groups l : Forall group_ok l -> join COLON l = [] -> l = [].
Proof.
  intros [|w l' [Hw _] _]; [done|]. destruct l'; cbn; [done|]. by destruct w.
Qed.

Lemma split_groups_unique l : Forall group_ok l -> split_groups (join COLON l) = l.
Proof.
  intros Hl. unfold split_groups. case_bool_decide as E.
  - by rewrite (join_nil_groups l).
  - apply split_join; [by intros -> |]. apply (Forall_impl _ _ _ Hl). by intros g [].
Qed.

Lemma join_groups_inj l k : Forall group_ok l -> Forall group_ok k ->
  join COLON l = join COLON k -> l = k.
Proof. intros Hl Hk E. by rewrite <- (split_groups_unique l), E, split_groups_unique. Qed.

Lemma find_sub_groups l : Forall group_ok l -> find_sub COLONS (join COLON l) = None.
Proof. intros Hl. rewrite <- (app_nil_r (join COLON l)), find_sub_join by done. done. Qed.

Lemma find_sub_compressed l t : Forall group_ok l ->
  find_sub COLONS (join COLON l ++ COLONS ++ t) = Some (length (join COLON l)).
Proof. intros Hl. rewrite find_sub_join by done. cbn. f_equal. lia. Qed.

Lemma compressed_inj h t h' t' : Forall group_ok h -> Forall group_ok t ->
  Forall group_ok h' -> Forall group_ok t' ->
  join COLON h ++ COLONS ++ join COLON t = join COLON h' ++ COLONS ++ join COLON t' ->
  h = h' /\ t = t'.
Proof.
  intros Hh Ht Hh' Ht' E. pose proof (find_sub_compressed h (join COLON t) Hh) as F.
  rewrite E, find_sub_compressed in F by done. injection F as F.
  apply app_inj_1 in E as [E1 E2]; [|done]. apply app_inj_1 in E2 as [_ E2]; [|done].
  split; by apply join_groups_inj.
Qed.

Lemma hexdigit_not c : is_ascii_hexdigit c = true -> c <> ":"%char /\ c <> "."%char /\ c <> "*"%char.
Proof. intros H. split_and!; intros ->; by vm_compute in H. Qed.

Lemma forallb_not_in {f : byte -> bool} c s : forallb f s = true -> f c = false -> c ∉ s.
Proof.
  intros Hs Hc Hin. rewrite forallb_forall in Hs. apply list_elem_of_In, Hs in Hin. congruence.
Qed.

Lemma STAR_group : group_ok STAR.
Proof. split; [done|]. by rewrite <- contains_false. Qed.

Lemma field_v6_group g o : field_v6 g o -> group_ok g.
Proof.
  intros [->|([Hl _] & Hx & _)]; [apply STAR_group|]. split; [by destruct g; cbn in *; [lia|]|].
  by apply (forallb_not_in _ _ Hx).
Qed.

Lemma Forall2_group gs os : Forall2 field_v6 gs os -> Forall group_ok gs.
Proof. induction 1; constructor; [by eapply field_v6_group | done]. Qed.

(** The shapes of a mask that compiles. *)
Lemma parse_v6_mask_Ok e r : parse_v6_mask e = Ok r ->
  exists gs vs, r = RMask (MV6 vs) /\ length gs = 8%nat /\ each_field v6_group gs = Ok vs /\
    (e = join COLON gs /\ Forall group_ok gs \/
     exists hs ts, e = join COLON hs ++ COLONS ++ join COLON ts /\
       Forall group_ok hs /\ Forall group_ok ts /\ (length hs + length ts < 8)%nat /\
       gs = hs ++ replicate (8 - (length hs + length ts)) (lit "0") ++ ts).
Proof.
  unfold parse_v6_mask. destruct (1 <? _)%nat; [done|].
  destruct (find_sub (lit ":::") e); [done|].
  unfold split_once_str. destruct (find_sub COLONS e) as [n|] eqn:En; cbn [mbind option_bind from_option id].
  - match goal with |- context [if ?b then Err ExtraColons else _] => destruct b eqn:Ee; [done|] end.
    apply orb_false_iff in Ee as [Eh Et]. apply split_groups_ok in Eh, Et.
    set (hs := split_groups (take n e)) in *.
    set (ts := split_groups (drop (n + length COLONS) e)) in *.
    destruct (8 <? _)%nat eqn:E8; [done|]. destruct (_ =? 8)%nat eqn:E8'; [done|].
    apply Nat.ltb_ge in E8. apply Nat.eqb_neq in E8'. unfold finish_v6_groups.
    destruct (each_field _ _) as [vs|] eqn:Ef; [|done]. intros [= <-].
    eexists _, vs. split; [done|]. split; [|split; [exact Ef|]].
    + rewrite !length_app, length_replicate. lia.
    + right. exists hs, ts. split_and!; [|done|done|lia|done].
      apply find_sub_Some in En as (Hs & _ & _). apply starts_with_spec in Hs.
      unfold hs, ts. rewrite !split_groups_join, <- Hs at 1.
      rewrite <- (drop_drop _ (length COLONS) n). by rewrite !take_drop.
  - match goal with |- context [if ?b then Err ExtraColons else _] => destruct b eqn:Ee; [done|] end.
    apply orb_false_iff in Ee as [Eh _]. apply split_groups_ok in Eh.
    replace (split_groups []) with (@nil bytes) by done. cbn [length]. rewrite Nat.add_0_r.
    set (hs := split_groups e) in *. destruct (8 <? _)%nat eqn:E8; [done|].
    destruct (_ =? 8)%nat eqn:E8'; [|done]. apply Nat.eqb_eq in E8'. cbn [negb]. unfold finish_v6_groups.
    destruct (each_field _ _) as [vs|] eqn:Ef; [|done]. intros [= <-].
    exists hs, vs. split_and!; try done. left. split; [|done]. unfold hs. by rewrite split_groups_join.
Qed.

(** ** The standard readers *)

(** The text an IPv4 reader consumes holds no colon. *)
Definition eats (s rest : bytes) : Prop := exists u, s = u ++ rest /\ ":"%char ∉ u.

Lemma read_digits_eats m s : forall count acc r,
  read_digits 10 m s count acc = Some r -> eats s r.2.
Proof.
  induction s as [|c s IH]; intros count acc r; cbn [read_digits].
  - intros [= <-]. exists []. split; [done | apply not_elem_of_nil].
  - destruct (to_digit 10 c) as [d|] eqn:E; cycle 1.
    { intros [= <-]. exists []. split; [done | apply not_elem_of_nil]. }
    destruct (_ <? _)%nat; [done|]. intros (u & -> & Hu)%IH. exists (c :: u).
    split; [done|]. apply not_elem_of_cons. split; [|done]. by intros <-.
Qed.

Lemma read_octet_eats s o r : read_number 10 3 false U8_MAX s = Some (o, r) -> eats s r.
Proof.
  unfold read_number. destruct (read_digits 10 3 s 0 0) as [[[n v] rest]|] eqn:E; cbn; [|done].
  destruct (n =? 0)%nat; [done|]. 
  match goal with |- context [if ?b then None else _] => destruct b; [done|] end.
  destruct (v <=? U8_MAX); [|done].
  intros [= -> ->]. by apply read_digits_eats in E.
Qed.

Lemma read_ipv4_octets_eats k : forall i s o r,
  read_ipv4_octets k i s = Some (o, r) -> length o = k /\ eats s r.
Proof.
  induction k as [|k IH]; intros i s o r; cbn [read_ipv4_octets].
  { intros [= <- <-]. split; [done|]. exists []. split; [done | apply not_elem_of_nil]. }
  destruct (read_separator _ i _ s) as [[x s1]|] eqn:E1; cbn; [|done].
  destruct (read_ipv4_octets k (S i) s1) as [[os s2]|] eqn:E2; cbn; [|done].
  intros [= <- <-]. apply IH in E2 as (<- & u2 & -> & H2). split; [done|].
  unfold read_separator in E1. destruct (i =? 0)%nat.
  - apply read_octet_eats in E1 as (u1 & -> & H1). exists (u1 ++ u2).
    split; [by rewrite <- app_assoc|]. rewrite elem_of_app. tauto.
  - destruct s as [|c s]; cbn in E1; [done|].
    destruct (Ascii.eqb_spec c "."%char) as [->|]; cbn in E1; [|done].
    apply read_octet_eats in E1 as (u1 & -> & H1). exists ("."%char :: u1 ++ u2).
    split; [cbn; by rewrite <- app_assoc|]. rewrite not_elem_of_cons, elem_of_app. split; [done | tauto].
Qed.

(** One step of the group reader. *)
Lemma read_groups_v4 k i s a b c d r :
  read_separator ":"%char i read_ipv4_addr s = Some ([a; b; c; d], r) ->
  read_groups (S (S k)) i s = ([a * 256 + b; c * 256 + d], true, r).
Proof. intros H. cbn [read_groups Nat.leb]. by rewrite H. Qed.

Lemma read_groups_v6 k i s g r :
  read_separator ":"%char i read_ipv4_addr s = None ->
  read_separator ":"%char i (read_number 16 4 true U16_MAX) s = Some (g, r) ->
  read_groups (S (S k)) i s = (let '(gs, v4, s2) := read_groups (S k) (S i) r in (g :: gs, v4, s2)).
Proof. intros H4 H6. remember (S k) as k'. cbn [read_groups]. rewrite H4, H6. by destruct (1 <=? k')%nat. Qed.

Lemma read_groups_none k i s :
  read_separator ":"%char i read_ipv4_addr s = None ->
  read_separator ":"%char i (read_number 16 4 true U16_MAX) s = None ->
  read_groups (S k) i s = ([], false, s).
Proof. intros H4 H6. cbn [read_groups]. rewrite H4, H6. by destruct (1 <=? k)%nat. Qed.

Lemma ipv4_no_ipv6 s o r : read_ipv4_addr s = Some (o, r) -> parse_ipv6 s = None.
Proof.
  intros H. destruct (read_ipv4_octets_eats _ _ _ _ _ H) as [Hl _].
  destruct o as [|a [|b [|c [|d [|]]]]]; try done. unfold parse_ipv6, read_ipv6_addr.
  by rewrite (read_groups_v4 6 0 s a b c d r).
Qed.

Lemma strip_prefix1_not_in c s : c ∉ s -> strip_prefix1 c s = None.
Proof.
  destruct s as [|x s]; [done|]. intros [Hx _]%not_elem_of_cons. cbn. by rewrite ascii_eqb_ne.
Qed.

Lemma parse_ipv6_colon s : ":"%char ∉ s -> parse_ipv6 s = None.
Proof.
  intros Hs. destruct (read_ipv4_addr s) as [[o r]|] eqn:E4; [by eapply ipv4_no_ipv6|].
  unfold parse_ipv6, read_ipv6_addr.
  destruct (read_number 16 4 true U16_MAX s) as [[g s1]|] eqn:E6.
  - assert (Hs1 : strip_prefix1 ":"%char s1 = None).
    { apply read_number_consumes in E6 as (u & -> & _); [|lia]. cbn [snd] in Hs.
      apply strip_prefix1_not_in. intros H. apply Hs, elem_of_app. by right. }
    rewrite (read_groups_v6 6 0 s g s1) by done.
    rewrite (read_groups_none 6 1 s1) by (unfold read_separator; by rewrite Hs1).
    cbn [length Nat.eqb]. by rewrite Hs1.
  - rewrite (read_groups_none 7 0 s) by done. cbn [length Nat.eqb]. by rewrite strip_prefix1_not_in.
Qed.

Lemma parse_ip_colon e : contains ":"%char e = true -> parse_ip e = V6 <$> parse_ipv6 e.
Proof.
  intros Hc. unfold parse_ip. destruct (read_ipv4_addr e) as [[o r]|] eqn:E4; [|done].
  rewrite (ipv4_no_ipv6 _ _ _ E4). destruct r; [|done].
  apply read_ipv4_octets_eats in E4 as [_ (u & -> & Hu)]. rewrite app_nil_r in Hc.
  apply contains_true in Hc. done.
Qed.

Lemma parse_ip_dot e : contains ":"%char e = false -> parse_ip e = match read_ipv4_addr e with
  | Some (o, []) => Some (V4 o) | _ => None end.
Proof.
  intros Hc%contains_false. unfold parse_ip. rewrite parse_ipv6_colon by done.
  by destruct (read_ipv4_addr e) as [[o [|]]|].
Qed.

(** ** One element *)

Lemma normalize_idemp ip : normalize_mapped (normalize_mapped ip) = normalize_mapped ip.
Proof. destruct ip as [o|s]; [done|]. cbn. destruct (to_ipv4_mapped s) eqn:E; cbn; [done|]. by rewrite E. Qed.

Lemma to_ipv4_mapped_Some s o : to_ipv4_mapped s = Some o ->
  exists hi lo, s = [0; 0; 0; 0; 0; 65535; hi; lo] /\ o = [hi / 256; hi mod 256; lo / 256; lo mod 256].
Proof.
  destruct s as [|a [|b [|c [|d [|e [|f [|hi [|lo [|]]]]]]]]]; cbn [to_ipv4_mapped]; try done.
  destruct (forallb _ _ && _)%bool eqn:E; [|done]. intros [= <-]. cbn [forallb] in E.
  rewrite !andb_true_iff, !Z.eqb_eq in E. destruct E as [(<- & <- & <- & <- & <- & _) ->]. by eexists _, _.
Qed.

Lemma segments_of_normalize ip : segments_of (normalize_mapped ip) = segments_of ip.
Proof.
  destruct ip as [o|s]; [done|]. cbn. destruct (to_ipv4_mapped s) as [o|] eqn:E; [|done].
  apply to_ipv4_mapped_Some in E as (hi & lo & -> & ->). cbn. unfold to_ipv6_mapped. cbn [nth].
  pose proof (Z.div_mod hi 256). pose proof (Z.div_mod lo 256). repeat (f_equal; try lia).
Qed.

Lemma normalize_wf ip : ip_wf ip -> ip_wf (normalize_mapped ip).
Proof.
  destruct ip as [o|s]; [done|]. cbn. destruct (to_ipv4_mapped s) as [o|] eqn:E; [|done].
  apply to_ipv4_mapped_Some in E as (hi & lo & -> & ->). intros [_ H].
  rewrite !Forall_cons in H. destruct H as (_ & _ & _ & _ & _ & _ & Hh & Hl & _).
  split; [done|]. unfold U16_MAX, U8_MAX in *.
  pose proof (Z.div_mod hi 256). pose proof (Z.div_mod lo 256).
  pose proof (Z.mod_pos_bound hi 256). pose proof (Z.mod_pos_bound lo 256). repeat constructor; lia.
Qed.

Lemma segments_of_length ip : ip_wf ip -> length (segments_of ip) = 8%nat.
Proof. by destruct ip as [o|s]; [|intros []]. Qed.

Lemma to_lower_l c : to_lower c = "l"%char -> c = "l"%char \/ c = "L"%char.
Proof. destruct c as [[] [] [] [] [] [] [] []]; vm_compute; intros [=]; auto. Qed.

Lemma to_lower_fixed c : in_range 33 64 c = true -> to_lower c = c.
Proof.
  intros H. unfold to_lower, is_ascii_uppercase, in_range in *. zify_bools.
  destruct (65 <=? byte_val c) eqn:E; zify_bools; [lia | done].
Qed.

(** The keyword is not an address, and holds no punctuation. *)
Lemma loopback_chars c e : eq_ignore_ascii_case e (lit "loopback") = true ->
  in_range 33 64 c = true -> c ∉ e.
Proof.
  unfold eq_ignore_ascii_case. intros H%bool_decide_eq_true Hc Hin.
  assert (Hl : c ∈ to_ascii_lowercase (lit "loopback")).
  { rewrite <- H, <- (to_lower_fixed c) by done. apply list_elem_of_fmap. by exists c. }
  apply contains_true in Hl. revert Hc Hl. clear.
  destruct c as [[] [] [] [] [] [] [] []]; vm_compute; intros; done.
Qed.

Lemma loopback_not_ip e : eq_ignore_ascii_case e (lit "loopback") = true -> parse_ip e = None.
Proof.
  intros H. rewrite parse_ip_dot by (apply contains_false; by apply (loopback_chars _ _ H)).
  unfold eq_ignore_ascii_case in H. apply bool_decide_eq_true in H.
  destruct e as [|c e]; [done|]. cbn in H. injection H as [-> | ->]%to_lower_l _; done.
Qed.

Lemma has_star_join sep l : STAR ∈ l -> has_star (join sep l) = true.
Proof. intros H. apply contains_true. apply (elem_of_join _ _ STAR); [done | by left]. Qed.

Lemma sep_in_join c l : (2 <= length l)%nat -> contains c (join [c] l) = true.
Proof.
  destruct l as [|x [|y l]]; cbn [length]; [lia|lia|]. intros _. apply contains_true.
  rewrite join_cons by done. rewrite !elem_of_app. right. left. by left.
Qed.

Lemma each_field_star f l vs (c : byte) : each_field f l = Ok vs -> c <> "*"%char ->
  (forall g v, f g = Ok v -> has_star g = true -> g = STAR) ->
  has_star (join [c] l) = true -> STAR ∈ l.
Proof.
  intros H Hc Hf Hs. apply contains_true, join_elem in Hs as [Hs|(w & Hw & Hs)].
  { by apply list_elem_of_singleton in Hs. }
  clear -H Hf Hw Hs. revert vs H. induction l as [|x l IH]; intros vs H; [by apply elem_of_nil in Hw|].
  cbn in H. destruct (f x) as [v|] eqn:Ex; [|done]. cbn in H.
  destruct (each_field f l) as [vs'|]; [|done].
  apply elem_of_cons in Hw as [->|Hw]; [|right; exact (IH Hw vs' eq_refl)].
  rewrite (Hf x v Ex) by (by apply contains_true). by left.
Qed.

Lemma v4_octet_star g v : v4_octet g = Ok v -> has_star g = true -> g = STAR.
Proof. unfold v4_octet. intros H Hs. case_bool_decide; [done|]. by rewrite Hs in H. Qed.
Lemma v6_group_star g v : v6_group g = Ok v -> has_star g = true -> g = STAR.
Proof. unfold v6_group. intros H Hs. case_bool_decide; [done|]. by rewrite Hs in H. Qed.

Lemma field_v4_chars p o c : field_v4 p o -> 0 <= o -> is_ascii_digit c = false -> c <> "*"%char -> c ∉ p.
Proof.
  intros [->| ->] Ho Hd Hc; [by intros H%list_elem_of_singleton|].
  destruct (fmt_dec_spec o Ho) as (_ & Hall & _). by apply (forallb_not_in _ _ Hall).
Qed.

Lemma mask4_fields ps o : Forall2 field_v4 ps o -> Forall (fun x => 0 <= x <= U8_MAX) o ->
  forall c, is_ascii_digit c = false -> c <> "*"%char -> Forall (fun w => c ∉ w) ps.
Proof.
  intros H Ho c Hd Hc. induction H as [|p x ps o Hp H IH]; constructor; inversion Ho; subst; [|by apply IH].
  eapply field_v4_chars; [done | lia | done | done].
Qed.

Lemma mask4_no_colon ps o : Forall2 field_v4 ps o -> Forall (fun x => 0 <= x <= U8_MAX) o ->
  contains ":"%char (join (lit ".") ps) = false.
Proof.
  intros H Ho. apply contains_false. intros [Hc|(w & Hw & Hc)]%join_elem.
  { by apply list_elem_of_singleton in Hc. }
  pose proof (mask4_fields _ _ H Ho ":"%char eq_refl ltac:(done)) as Hf.
  rewrite Forall_forall in Hf. by apply (Hf w).
Qed.

(** What a text that denotes an address looks like. *)
Lemma denotes_shape ip e : ip_wf ip -> denotes ip e -> e <> STAR ->
  (eq_ignore_ascii_case e (lit "loopback") = true /\
     rule_matches Loopback (normalize_mapped ip) = true) \/
  (has_star e = false /\ exists a, parse_ip e = Some a /\ normalize_mapped a = normalize_mapped ip) \/
  (has_star e = true /\ contains ":"%char e = false /\ exists ps o, e = join (lit ".") ps /\
     length ps = 4%nat /\ normalize_mapped ip = V4 o /\ Forall2 field_v4 ps o) \/
  (has_star e = true /\ contains ":"%char e = true /\ exists gs, Forall2 field_v6 gs (segments_of ip) /\
     (e = join COLON gs /\ length gs = 8%nat \/
      exists hs ts, e = join COLON hs ++ COLONS ++ join COLON ts /\ (length hs + length ts < 8)%nat /\
        gs = hs ++ replicate (8 - (length hs + length ts)) (lit "0") ++ ts)).
Proof.
  intros Hwf H Hne. pose proof (normalize_wf ip Hwf) as Hn.
  destruct H as [|e o Hl Ho|e Hl ->|e a Hs Ha Ho|ps o Hs Hl Ho Hf|gs Hs Hl Hf|hs ts Hs Hl Hf]; [done|..].
  - left. split; [done|]. by rewrite Ho.
  - left. done.
  - right; left. eauto.
  - right; right; left. rewrite Ho in Hn. destruct Hn as [_ Hn]. split_and!.
    + by apply has_star_join.
    + by apply (mask4_no_colon _ o).
    + by exists ps, o.
  - right; right; right. split; [by apply has_star_join|]. split; [apply sep_in_join; lia|].
    exists gs. eauto.
  - right; right; right. split_and!; [| |eexists; split; [exact Hf|]; right; eauto].
    + apply contains_true. rewrite !elem_of_app.
      apply elem_of_app in Hs as [Hs|Hs]; [left | right; right]; by apply contains_true, has_star_join.
    + apply contains_true. rewrite !elem_of_app. right. left. by left.
Qed.

Ltac by_shape Hwf Hne :=
  let H := fresh in
  intros H; destruct (denotes_shape _ _ Hwf H Hne) as
    [[Hlb Hm]|[(Hns & a0 & Ha0 & Han)|[(Hst & Hco & ps & o & -> & Hlen & Ho & Hf)
      |(Hst & Hco & gs' & Hf & Hgs)]]]; try congruence.

Lemma loopback_element ip e : ip_wf ip -> e <> STAR ->
  eq_ignore_ascii_case e (lit "loopback") = true ->
  rule_matches Loopback (normalize_mapped ip) = true <-> denotes ip e.
Proof.
  intros Hwf Hne Hk. split.
  - intros H. pose proof (normalize_wf ip Hwf) as Hn. unfold rule_matches in H.
    destruct (normalize_mapped ip) as [o|s] eqn:En.
    + destruct Hn as [Hl _]. destruct o as [|x o]; [done|]. apply Z.eqb_eq in H. cbn in H. subst x.
      by eapply den_loopback4.
    + apply bool_decide_eq_true in H. subst s. apply den_loopback6; [done|].
      destruct ip as [o|s]; cbn in En; [done|]. destruct (to_ipv4_mapped s); [done | exact En].
  - by_shape Hwf Hne.
    + by rewrite loopback_not_ip in Ha0.
    + apply contains_true in Hst. by apply (loopback_chars _ _ Hk) in Hst.
    + apply contains_true in Hst. by apply (loopback_chars _ _ Hk) in Hst.
Qed.

Lemma exact_element ip e a : ip_wf ip -> e <> STAR ->
  eq_ignore_ascii_case e (lit "loopback") = false -> has_star e = false -> parse_ip e = Some a ->
  rule_matches (Exact (normalize_mapped a)) (normalize_mapped ip) = true <-> denotes ip e.
Proof.
  intros Hwf Hne Hk Hs Ha. unfold rule_matches. rewrite bool_decide_eq_true. split.
  - intros H. by apply (den_exact _ _ a).
  - by_shape Hwf Hne.
Qed.

Lemma mask4_element ip e vs : ip_wf ip -> e <> STAR ->
  eq_ignore_ascii_case e (lit "loopback") = false -> has_star e = true ->
  contains ":"%char e = false -> length (split_all "."%char e) = 4%nat ->
  each_field v4_octet (split_all "."%char e) = Ok vs ->
  rule_matches (RMask (MV4 vs)) (normalize_mapped ip) = true <-> denotes ip e.
Proof.
  intros Hwf Hne Hk Hs Hc Hl Hv. pose proof (normalize_wf ip Hwf) as Hn. set (ps0 := split_all "."%char e) in *.
  assert (He : e = join (lit ".") ps0) by (symmetry; apply join_split).
  assert (Hspec : forall o, normalize_mapped ip = V4 o ->
    (forallb seg_matches (zip vs o) = true <-> Forall2 field_v4 ps0 o)).
  { intros o Ho. rewrite Ho in Hn. destruct Hn as [Hlo Hr]. apply (each_field_spec v4_octet); [done|lia|].
    intros p v x Hp Hx. apply v4_octet_spec; [done|]. rewrite Forall_forall in Hr. by apply Hr. }
  split.
  - unfold rule_matches. destruct (normalize_mapped ip) as [o|s] eqn:En; [|done].
    intros H%(Hspec o eq_refl). rewrite He. eapply den_mask4; eauto.
    apply (each_field_star v4_octet _ vs "."%char); [done | done | by apply v4_octet_star |].
    change (has_star (join (lit ".") ps0) = true). by rewrite <- He.
  - by_shape Hwf Hne. unfold rule_matches. rewrite Ho in Hn |- *. apply Hspec; [done|].
    replace ps0 with ps; [done|]. unfold ps0. symmetry. apply split_join; [by destruct ps|].
    destruct Hn as [_ Hr]. by apply (mask4_fields _ _ Hf Hr).
Qed.

Lemma mask6_element ip e r : ip_wf ip -> e <> STAR ->
  eq_ignore_ascii_case e (lit "loopback") = false -> has_star e = true ->
  contains ":"%char e = true -> parse_v6_mask e = Ok r ->
  rule_matches r (normalize_mapped ip) = true <-> denotes ip e.
Proof.
  intros Hwf Hne Hk Hs Hc Hr. apply parse_v6_mask_Ok in Hr as (gs & vs & -> & Hl & Hv & Hshape).
  assert (Hspec : rule_matches (RMask (MV6 vs)) (normalize_mapped ip) = true
                  <-> Forall2 field_v6 gs (segments_of ip)).
  { change (rule_matches _ _) with (forallb seg_matches (zip vs (segments_of (normalize_mapped ip)))).
    rewrite segments_of_normalize. apply (each_field_spec v6_group); [done| |].
    - by rewrite Hl, segments_of_length.
    - intros g v x Hg _. by apply v6_group_spec. }
  rewrite Hspec. split.
  - intros H. destruct Hshape as [[He Hok]|(hs & ts & He & Hh & Ht & Hlt & Hgs)].
    + rewrite He. apply den_mask6; [|done|done].
      apply (each_field_star v6_group _ vs ":"%char); [done | done | by apply v6_group_star |].
      change (has_star (join COLON gs) = true). by rewrite <- He.
    + rewrite He. apply den_mask6_compressed; [|done | by rewrite <- Hgs].
      assert (Hst : STAR ∈ gs).
      { rewrite He in Hs. apply contains_true in Hs. rewrite !elem_of_app in Hs.
        assert (Hin : has_star (join COLON gs) = true).
        { apply contains_true. subst gs.
          destruct Hs as [Hs|[Hs|Hs]]; [|by vm_compute in Hs; apply contains_true in Hs|];
            apply join_elem in Hs as [Hs|(w & Hw & Hs)];
            try (by apply list_elem_of_singleton in Hs);
            apply (elem_of_join _ _ w); try done; rewrite !elem_of_app; auto. }
        apply (each_field_star v6_group _ vs ":"%char); [done | done | apply v6_group_star | done]. }
      subst gs. apply elem_of_app. apply elem_of_app in Hst as [|[Hz|]%elem_of_app]; auto.
      by apply elem_of_replicate in Hz as [Hz _].
  - by_shape Hwf Hne. pose proof (Forall2_group _ _ Hf) as Hg'.
    destruct Hshape as [[He Hok]|(hs & ts & He & Hh & Ht & Hlt & Hgs0)],
      Hgs as [[He' _]|(hs' & ts' & He' & Hlt' & Hgs')].
    + replace gs with gs'; [done|]. apply join_groups_inj; [done|done|congruence].
    + exfalso. subst gs'. rewrite !Forall_app in Hg'. destruct Hg' as (Hh' & _ & Ht').
      pose proof (find_sub_groups gs Hok) as E1. rewrite <- He, He' in E1.
      by rewrite find_sub_compressed in E1.
    + exfalso. pose proof (find_sub_groups gs' Hg') as E1. rewrite <- He', He in E1.
      by rewrite find_sub_compressed in E1.
    + subst gs gs'. rewrite !Forall_app in Hg'. destruct Hg' as (Hh' & _ & Ht').
      rewrite He in He'. apply compressed_inj in He' as [-> ->]; done.
Qed.

Lemma element_spec ip e r : ip_wf ip -> e <> STAR -> parse_element e = Ok r ->
  rule_matches r (normalize_mapped ip) = true <-> denotes ip e.
Proof.
  intros Hwf Hne. unfold parse_element.
  destruct (eq_ignore_ascii_case e (lit "loopback")) eqn:Hk.
  { intros [= <-]. by apply loopback_element. }
  destruct (contains ":"%char e) eqn:Hc.
  - unfold parse_v6. destruct (contains "%"%char e); [done|].
    destruct (starts_with _ _ || _)%bool; [done|].
    destruct (has_star e) eqn:Hs; cbn [negb]; [by apply mask6_element|].
    destruct (parse_ipv6 e) as [v6|] eqn:E6; [|done]. intros [= <-].
    apply (exact_element ip e (V6 v6)); try done. by rewrite parse_ip_colon, E6.
  - destruct (contains "."%char e); [|done]. unfold parse_v4.
    destruct (has_star e) eqn:Hs; cbn [negb].
    + destruct (_ =? 4)%nat eqn:El; [|done]. apply Nat.eqb_eq in El. cbn [negb].
      destruct (each_field _ _) as [vs|] eqn:Ev; [|done]. intros [= <-]. by apply mask4_element.
    + destruct (parse_ip e) as [a|] eqn:Ea; [|done]. intros [= <-].
      assert (normalize_mapped a = a) as <-; [|by apply exact_element].
      rewrite parse_ip_dot in Ea by done.
      by destruct (read_ipv4_addr e) as [[o [|]]|]; simplify_eq/=.
Qed.

(** ** Rules *)

(** [str::trim] leaves printable ASCII alone. *)
Definition graphic (c : byte) : bool := in_range 33 126 c.

Lemma utf8_chars_graphic s : forallb graphic s = true ->
  utf8_chars s = Some (map (fun c => (byte_val c, [c])) s).
Proof.
  induction s as [|c s IH]; [done|]. cbn [forallb]. intros [Hc Hs]%andb_true_iff.
  unfold graphic, in_range in Hc. zify_bools. cbn [utf8_chars map].
  rewrite (proj2 (Z.ltb_lt (byte_val c) 128)) by lia. by rewrite IH.
Qed.

Lemma trim_by_none {A} (p : A -> bool) l : forallb (fun x => negb (p x)) l = true -> trim_by p l = l.
Proof.
  assert (Hd : forall k, forallb (fun x => negb (p x)) k = true -> drop_while p k = k).
  { intros [|x k]; [done|]. cbn. by destruct (p x). }
  intros H. unfold trim_by. rewrite (Hd l), Hd, rev_involutive; [done | | done].
  rewrite forallb_forall in *. intros x Hx. apply H. by apply in_rev in Hx.
Qed.

Lemma str_trim_graphic s : forallb graphic s = true -> str_trim s = s.
Proof.
  intros H. unfold str_trim. rewrite utf8_chars_graphic by done. rewrite trim_by_none.
  - clear H. induction s; cbn; [done | by f_equal].
  - rewrite forallb_forall in *. intros [z w] Hx%in_map_iff. destruct Hx as (c & [= <- <-] & Hc).
    apply H in Hc. unfold graphic, in_range in Hc. zify_bools. unfold char_is_whitespace. cbn [fst]. lia.
Qed.

Lemma compile_elements_Ok spec raws ip : ip_wf ip -> forall acc c,
  compile_elements spec raws acc = Ok c ->
  matches c ip = true <-> matches acc ip = true \/ exists raw, raw ∈ raws /\ denotes ip (str_trim raw).
Proof.
  intros Hwf. induction raws as [|raw raws IH]; intros acc c; cbn [compile_elements].
  { intros [= <-]. split; [by left|]. intros [|(r & Hr & _)]; [done | by apply elem_of_nil in Hr]. }
  case_bool_decide as Hne; [done|]. setoid_rewrite elem_of_cons.
  case_bool_decide as Hst.
  - intros H%IH. rewrite H. split; [intros _; right; exists raw; rewrite Hst; split; [by left | constructor]|].
    by intros _; left.
  - destruct (parse_element (str_trim raw)) as [r|] eqn:Er; cbn; [|done]. intros H%IH. rewrite H.
    pose proof (element_spec ip _ r Hwf Hst Er) as Hr.
    unfold matches. cbn [allow_all rules]. rewrite existsb_app. cbn [existsb].
    destruct (allow_all acc); [tauto|]. rewrite orb_false_r, orb_true_iff, Hr. split.
    + intros [[|]|(x & Hx & Hd)]; eauto 6.
    + intros [|(x & [->|Hx] & Hd)]; eauto 6.
Qed.

Lemma compile_elements_Err spec raws : forall acc e, compile_elements spec raws acc = Err e ->
  exists raw, raw ∈ raws /\
    (str_trim raw = [] /\ e = EmptyElement spec \/
     str_trim raw <> STAR /\ exists cause, parse_element (str_trim raw) = Err cause /\
       e = BadElement (str_trim raw) spec cause).
Proof.
  induction raws as [|raw raws IH]; intros acc e; cbn [compile_elements]; [done|].
  case_bool_decide as Hne.
  { intros [= <-]. exists raw. split; [by left | by left]. }
  case_bool_decide as Hst.
  { intros (x & Hx & H)%IH. exists x. split; [by right | done]. }
  destruct (parse_element (str_trim raw)) as [r|cause] eqn:Er; cbn.
  - intros (x & Hx & H)%IH. exists x. split; [by right | done].
  - intros [= <-]. exists raw. split; [by left|]. right. eauto.
Qed.

Lemma compile_elements_grows spec raws : forall acc c, compile_elements spec raws acc = Ok c ->
  (allow_all acc = true -> allow_all c = true) /\
  (rules acc <> [] -> rules c <> []) /\ (raws <> [] -> allow_all c = true \/ rules c <> []).
Proof.
  induction raws as [|raw raws IH]; intros acc c; cbn [compile_elements].
  { intros [= <-]. done. }
  case_bool_decide; [done|]. case_bool_decide.
  - intros (H1 & H2 & _)%IH. cbn in *. split_and!; [by intros; apply H1 | done | by left; apply H1].
  - destruct (parse_element _) as [r|]; cbn; [|done]. intros (H1 & H2 & _)%IH. cbn in *.
    assert (Hr : rules c <> []) by (apply H2; by destruct (rules acc)). split_and!; auto.
Qed.

(** ** Exact addresses *)

(** [IpAddr]'s [Display]. *)
Definition fmt_ip (ip : IpAddr) : bytes :=
  match ip with V4 o => fmt_ipv4 o | V6 s => fmt_ipv6 s end.

Lemma parse_fmt_ip a : ip_wf a -> parse_ip (fmt_ip a) = Some a.
Proof.
  destruct a as [o|s]; intros [Hl Hr]; cbn [fmt_ip].
  - destruct o as [|a [|b [|c [|d [|]]]]]; try done. rewrite !Forall_cons in Hr.
    destruct Hr as (Ha & Hb & Hc & Hd & _). unfold parse_ip. by rewrite read_fmt_ipv4.
  - pose proof (parse_fmt_ipv6 s Hl Hr) as H. rewrite parse_ip_colon, H; [done|].
    destruct (contains ":" (fmt_ipv6 s)) eqn:Ec; [done|]. apply contains_false in Ec.
    by rewrite parse_ipv6_colon in H.
Qed.

Lemma fmt_ip_chars a : ip_wf a -> forallb ip_char (fmt_ip a) = true.
Proof.
  destruct a as [o|s]; intros [Hl Hr]; cbn [fmt_ip].
  - assert (H : forallb quad_char (fmt_ipv4 o) = true).
    { apply fmt_ipv4_chars. eapply Forall_impl; [exact Hr|]. cbn. lia. }
    rewrite forallb_forall in *. intros c Hc%H. unfold quad_char in Hc. unfold ip_char.
    apply orb_true_iff in Hc as [Hc| ->]; [|by rewrite orb_true_r]. unfold is_ascii_hexdigit. by rewrite Hc.
  - by apply is_ipv6_chars, fmt_ipv6_is_ipv6.
Qed.

Lemma ip_char_graphic c : ip_char c = true -> graphic c = true.
Proof. destruct c as [[] [] [] [] [] [] [] []]; by vm_compute. Qed.

Lemma starts_with_1 c s : starts_with [c] s = true -> c ∈ s.
Proof.
  destruct s as [|x s]; cbn; [done|]. rewrite andb_true_r, Ascii.eqb_eq. intros ->. by left.
Qed.
Lemma ends_with_1 c s : ends_with [c] s = true -> c ∈ s.
Proof. intros H%starts_with_1. by apply list_elem_of_In, in_rev, list_elem_of_In. Qed.

Lemma parse_fmt_element a : ip_wf a -> parse_element (fmt_ip a) = Ok (Exact (normalize_mapped a)).
Proof.
  intros Hwf. pose proof (parse_fmt_ip a Hwf) as Hp. pose proof (fmt_ip_chars a Hwf) as Hch.
  assert (Hno : forall c, ip_char c = false -> c ∉ fmt_ip a) by (intros; by apply (forallb_not_in _ _ Hch)).
  unfold parse_element. destruct (eq_ignore_ascii_case _ _) eqn:Hk; [by rewrite loopback_not_ip in Hp|].
  assert (Hs : has_star (fmt_ip a) = false) by (apply contains_false; by apply Hno).
  destruct (contains ":" (fmt_ip a)) eqn:Hc.
  - unfold parse_v6. rewrite (proj2 (contains_false "%" _)) by (by apply Hno).
    destruct (starts_with (lit "[") (fmt_ip a)) eqn:E1; [apply starts_with_1 in E1; by apply Hno in E1|].
    destruct (ends_with (lit "]") (fmt_ip a)) eqn:E2; [apply ends_with_1 in E2; by apply Hno in E2|].
    rewrite Hs. cbn [orb negb]. rewrite parse_ip_colon in Hp by done.
    destruct (parse_ipv6 (fmt_ip a)) as [v6|]; cbn in Hp; [|done]. by injection Hp as <-.
  - destruct a as [o|s].
    + destruct o as [|a [|b o]]; [by destruct Hwf..|].
      assert (Hd : contains "." (fmt_ip (V4 (a :: b :: o))) = true)
        by (apply (sep_in_join "."%char (map fmt_dec (a :: b :: o))); cbn [map length]; lia).
      rewrite Hd.
      unfold parse_v4. rewrite Hs. cbn [negb]. by rewrite Hp.
    + rewrite parse_ip_dot in Hp by done. destruct (read_ipv4_addr _) as [[? [|]]|]; done.
Qed.

(** ** Theorems *)

(** Compiling a rule line is fail-closed and agrees with the reference semantics:
    when it succeeds, an address is admitted exactly when one of the trimmed elements
    denotes it (a wildcard stands for one octet or group, [::] for zero groups only,
    numbers are compared by value, an IPv4-mapped peer as IPv4), and when it fails an
    element is empty or is neither [*] nor a well-formed element, whatever the others
    are. *)
Theorem compile_semantics spec :
  match compile_allowed_clients spec with
  | Ok c => forall ip, ip_wf ip ->
      matches c ip = true <->
      exists raw, raw ∈ split_all ","%char spec /\ denotes ip (str_trim raw)
  | Err _ => exists raw, raw ∈ split_all ","%char spec /\
      (str_trim raw = [] \/
       str_trim raw <> STAR /\ exists cause, parse_element (str_trim raw) = Err cause)
  end.
Proof.
  unfold compile_allowed_clients.
  destruct (compile_elements _ _ _) as [c|e] eqn:E; cbn [mbind result_bind].
  - destruct (compile_elements_grows _ _ _ _ E) as (_ & _ & Hne).
    replace (bool_decide (rules c = []) && negb (allow_all c)) with false.
    + intros ip Hwf. rewrite (compile_elements_Ok _ _ ip Hwf _ _ E). split; [|by right].
      by intros [|].
    + symmetry. destruct (Hne (split_all_nonempty _ _)) as [->|Hr]; [apply andb_false_r|].
      by rewrite bool_decide_eq_false_2.
  - apply compile_elements_Err in E as (raw & Hin & H). exists raw. split; [done|].
    destruct H as [[H _]|(H & cause & Hc & _)]; [by left | right; eauto].
Qed.

(** An address written as a rule admits exactly itself: any address in its printed
    form compiles, and the rule matches a peer if and only if the two are the same
    address once IPv4-mapped IPv6 addresses are read as IPv4. *)
Theorem exact_rule_roundtrip a : ip_wf a ->
  exists c, compile_allowed_clients (fmt_ip a) = Ok c /\
    forall b, matches c b = true <-> normalize_mapped a = normalize_mapped b.
Proof.
  intros Hwf. pose proof (fmt_ip_chars a Hwf) as Hch. pose proof (parse_fmt_ip a Hwf) as Hp.
  exists (mk false [Exact (normalize_mapped a)]). split.
  - unfold compile_allowed_clients. rewrite split_all_plain by (by apply (forallb_not_in _ _ Hch)).
    cbn [compile_elements]. rewrite str_trim_graphic.
    + rewrite bool_decide_eq_false_2 by (by intros E; rewrite E in Hp).
      rewrite bool_decide_eq_false_2 by (by intros E; rewrite E in Hp).
      by rewrite (parse_fmt_element a Hwf).
    + rewrite forallb_forall in *. intros c Hc. by apply ip_char_graphic, Hch.
  - intros b. unfold matches. cbn [allow_all rules existsb rule_matches].
    by rewrite orb_false_r, bool_decide_eq_true.
Qed.

Lemma exact_rule_roundtrip_witness :
  ip_wf (V6 [0; 0; 0; 0; 0; 65535; 32512; 1]) /\
  exists c, compile_allowed_clients (lit "::ffff:127.0.0.1") = Ok c /\
    forall b, matches c b = true <-> V4 [127; 0; 0; 1] = normalize_mapped b.
Proof.
  assert (H : ip_wf (V6 [0; 0; 0; 0; 0; 65535; 32512; 1])).
  { split; [reflexivity|]. repeat constructor; vm_compute; discriminate. }
  split; [exact H|]. exact (exact_rule_roundtrip _ H).
Defined.

Lemma compile_semantics_witness :
  exists c, compile_allowed_clients (lit "10.*.0.1") = Ok c /\
    (matches c (V4 [10; 7; 0; 1]) = true <->
     exists raw, raw ∈ split_all ","%char (lit "10.*.0.1") /\ denotes (V4 [10; 7; 0; 1]) (str_trim raw)).
Proof.
  eexists. split; [vm_compute; reflexivity|].
  refine (compile_semantics (lit "10.*.0.1") (V4 [10; 7; 0; 1]) _).
  split; [reflexivity|]. repeat constructor; vm_compute; discriminate.
Defined.

End Clients.
