(* ===== verification/Users.v ===== *)
(** User accounts and the user-management commands: the records of
    [resocks5.users.ktav] (src/crates/resocks5/src/config/users/), the operation a
    command builds from the list it loaded, and the application of that operation to
    the list found on disk (src/crates/resocks5/src/cli/run_user_command.rs).

    Terminal and password prompts, and the password hash, are inputs. *)
From S2P Require Import Prelude Text.

Module Users.

(** ** Data *)

Record User := mkUser {
  name : bytes; hash : bytes; is_enabled : bool; direct : bool; allowed_clients : option bytes
}.
#[export] Instance User_eq_dec : EqDecision User.
Proof. solve_decision. Defined.

(** [UsersConfig { users }], and its default. *)
Notation UsersConfig := (list User).
Definition UsersConfig_default : UsersConfig := [].

(** The placeholder hash of an account nobody has logged in to yet. *)
Definition INIT_HASH : bytes := lit "init".

Inductive UserOp :=
| Add (u : User)
| AddInit (u : User)
| SetPassword (name hash : bytes)
| Remove (name : bytes)
| SetEnabled (name : bytes) (enabled : bool)
| SetDirect (name : bytes) (direct : bool).

Inductive UserAction :=
| AAdd (name : bytes) | AAddInit (name : bytes) | ASetPassword (name : bytes)
| ARemove (name : bytes) (yes : bool) | AList
| AEnable (name : bytes) | ADisable (name : bytes) | ADirect (name : bytes) | APool (name : bytes).

Inductive Error :=
| AlreadyExists (name : bytes)
| NotFound (name : bytes)
| NameEmpty | NameTooLong | NameColon
| PasswordEmpty | PasswordTooLong | PasswordMismatch
| PromptFailed | HashFailed.

(** ** Looking a user up *)

Definition has_name (n : bytes) (u : User) : bool := bool_decide (name u = n).

(** [iter().find(|u| u.name == name)]. *)
Fixpoint find (n : bytes) (us : UsersConfig) : option User :=
  match us with
  | [] => None
  | u :: us' => if has_name n u then Some u else find n us'
  end.
Definition find_user (us : UsersConfig) (n : bytes) : result Error User :=
  ok_or (NotFound n) (find n us).

Fixpoint position (n : bytes) (us : UsersConfig) : option nat :=
  match us with
  | [] => None
  | u :: us' => if has_name n u then Some 0%nat else S <$> position n us'
  end.
Definition user_position (us : UsersConfig) (n : bytes) : result Error nat :=
  ok_or (NotFound n) (position n us).

(** [iter_mut().find(..)] and the assignment made through the reference. *)
Fixpoint update_first (n : bytes) (f : User -> User) (us : UsersConfig) : option UsersConfig :=
  match us with
  | [] => None
  | u :: us' => if has_name n u then Some (f u :: us') else cons u <$> update_first n f us'
  end.
Definition find_user_mut (us : UsersConfig) (n : bytes) (f : User -> User) : result Error UsersConfig :=
  ok_or (NotFound n) (update_first n f us).

Definition any_name (n : bytes) (us : UsersConfig) : bool := existsb (has_name n) us.

Definition set_hash (h : bytes) (u : User) : User :=
  mkUser (name u) h (is_enabled u) (direct u) (allowed_clients u).
Definition set_enabled_flag (b : bool) (u : User) : User :=
  mkUser (name u) (hash u) b (direct u) (allowed_clients u).
Definition set_direct_flag (b : bool) (u : User) : User :=
  mkUser (name u) (hash u) (is_enabled u) b (allowed_clients u).

(** ** Applying an operation *)

Definition apply_op (op : UserOp) (us : UsersConfig) : result Error UsersConfig :=
  match op with
  | Add user | AddInit user =>
      if any_name (name user) us then Err (AlreadyExists (name user)) else Ok (us ++ [user])
  | SetPassword n h => find_user_mut us n (set_hash h)
  | Remove n => pos ← user_position us n; Ok (delete pos us)
  | SetEnabled n b => find_user_mut us n (set_enabled_flag b)
  | SetDirect n b => find_user_mut us n (set_direct_flag b)
  end.

Definition op_name (op : UserOp) : bytes :=
  match op with
  | Add u | AddInit u => name u
  | SetPassword n _ | Remove n | SetEnabled n _ | SetDirect n _ => n
  end.

(** ** Building an operation *)

Definition validate_name (n : bytes) : result Error unit :=
  if bool_decide (n = []) then Err NameEmpty
  else if (255 <? length n)%nat then Err NameTooLong
  else if contains ":"%char n then Err NameColon
  else Ok tt.

Definition validate_password (p : bytes) : result Error unit :=
  if bool_decide (p = []) then Err PasswordEmpty
  else if (255 <? length p)%nat then Err PasswordTooLong
  else Ok tt.

(** What the prompts return, in order; [None] is a failed read. *)
Record Console := mkConsole {
  is_terminal : bool;
  password1 : option bytes;
  password2 : option bytes;
  answer : option bytes
}.

Definition read_new_password (c : Console) : result Error bytes :=
  p1 ← ok_or PromptFailed (password1 c);
  _ ← validate_password p1;
  if is_terminal c then
    p2 ← ok_or PromptFailed (password2 c);
    if bool_decide (p1 = p2) then Ok p1 else Err PasswordMismatch
  else Ok p1.

Definition confirm (c : Console) : result Error bool :=
  a ← ok_or PromptFailed (answer c);
  let t := str_trim a in
  Ok (existsb (fun w => bool_decide (t = lit w)) ["y"; "Y"; "yes"; "Yes"]%string).

Definition build_added_user (n h : bytes) : User := mkUser n h true false None.

Section Commands.
(** [auth::compute_hash]: Argon2id over a fresh salt; [None] when the random source,
    the salt or the hash fails. *)
Context (compute_hash : bytes -> option bytes).

Definition add_user (c : Console) (us : UsersConfig) (n : bytes) : result Error UserOp :=
  _ ← validate_name n;
  if any_name n us then Err (AlreadyExists n)
  else
    p ← read_new_password c;
    h ← ok_or HashFailed (compute_hash p);
    Ok (Add (build_added_user n h)).

Definition add_init_user (us : UsersConfig) (n : bytes) : result Error UserOp :=
  _ ← validate_name n;
  if any_name n us then Err (AlreadyExists n)
  else Ok (AddInit (mkUser n INIT_HASH true false None)).

Definition set_password (c : Console) (us : UsersConfig) (n : bytes) : result Error UserOp :=
  _ ← find_user us n;
  p ← read_new_password c;
  h ← ok_or HashFailed (compute_hash p);
  Ok (SetPassword n h).

Definition remove_user (c : Console) (us : UsersConfig) (n : bytes) (skip_confirm : bool)
    : result Error (option UserOp) :=
  _ ← find_user us n;
  if negb skip_confirm && is_terminal c then
    confirmed ← confirm c;
    Ok (if (confirmed : bool) then Some (Remove n) else None)
  else Ok (Some (Remove n)).

Definition set_enabled (us : UsersConfig) (n : bytes) (b : bool) : result Error UserOp :=
  _ ← find_user us n; Ok (SetEnabled n b).
Definition set_direct (us : UsersConfig) (n : bytes) (b : bool) : result Error UserOp :=
  _ ← find_user us n; Ok (SetDirect n b).

(** The [match action] of [run_user_command]; [None]: the command is over (the list
    was printed, or the confirmation declined). *)
Definition plan (c : Console) (us : UsersConfig) (a : UserAction) : result Error (option UserOp) :=
  match a with
  | AAdd n => op ← add_user c us n; Ok (Some op)
  | AAddInit n => op ← add_init_user us n; Ok (Some op)
  | ASetPassword n => op ← set_password c us n; Ok (Some op)
  | ARemove n yes => remove_user c us n yes
  | AList => Ok None
  | AEnable n => op ← set_enabled us n true; Ok (Some op)
  | ADisable n => op ← set_enabled us n false; Ok (Some op)
  | ADirect n => op ← set_direct us n true; Ok (Some op)
  | APool n => op ← set_direct us n false; Ok (Some op)
  end.
End Commands.

(** *** Output *)

(** [{:<w}]: padded on the right to [w] characters. *)
Definition pad_right (w : nat) (s : bytes) : bytes := s ++ replicate (w - length (chars s)) SP.

Definition list_row (n status mode : bytes) : bytes :=
  pad_right 24 n ++ [SP] ++ pad_right 10 status ++ [SP] ++ pad_right 6 mode.

Definition list_users (us : UsersConfig) : list bytes :=
  match us with
  | [] => [lit "(no users configured " ++ map byte_of [226; 128; 148]
            ++ lit " server runs without authentication)"]
  | _ =>
      list_row (lit "NAME") (lit "STATUS") (lit "MODE")
      :: map (fun u => list_row (name u)
                (if is_enabled u then lit "enabled" else lit "disabled")
                (if direct u then lit "direct" else lit "pool")) us
  end.

Definition quoted (n : bytes) : bytes := lit "'" ++ n ++ lit "'".
Definition report (op : UserOp) : bytes :=
  match op with
  | Add u => lit "Added user " ++ quoted (name u) ++ lit "."
  | AddInit u => lit "Added user " ++ quoted (name u)
      ++ lit " with placeholder hash. The first client to authenticate as this user claims the password."
  | SetPassword n _ => lit "Updated password for user " ++ quoted n ++ lit "."
  | Remove n => lit "Removed user " ++ quoted n ++ lit "."
  | SetEnabled n b => lit "User " ++ quoted n ++ lit " is now "
      ++ (if b then lit "enabled" else lit "disabled") ++ lit "."
  | SetDirect n b => lit "User " ++ quoted n ++ lit " is now "
      ++ (if b then lit "direct" else lit "pool-routed") ++ lit "."
  end.

(** The Debug rendering, which never shows a hash. *)
Definition debug_op (op : UserOp) : bytes :=
  let flag (b : bool) := if b then lit "true" else lit "false" in
  match op with
  | Add u => lit "Add(" ++ name u ++ lit ")"
  | AddInit u => lit "AddInit(" ++ name u ++ lit ")"
  | SetPassword n _ => lit "SetPassword(" ++ n ++ lit ")"
  | Remove n => lit "Remove(" ++ n ++ lit ")"
  | SetEnabled n b => lit "SetEnabled(" ++ n ++ lit ", " ++ flag b ++ lit ")"
  | SetDirect n b => lit "SetDirect(" ++ n ++ lit ", " ++ flag b ++ lit ")"
  end.

Definition carol : User := mkUser (lit "carol") (lit "$argon2id$x") true false None.
Example list_ex : list_users [set_direct_flag true carol] =
  [lit "NAME                     STATUS     MODE  "; lit "carol                    enabled    direct"].
Proof. reflexivity. Qed.

Example apply_ex : apply_op (Remove (lit "bob")) [carol] = Err (NotFound (lit "bob")) /\
  apply_op (Add carol) [carol] = Err (AlreadyExists (lit "carol")) /\
  apply_op (SetPassword (lit "carol") (lit "h")) [carol] = Ok [set_hash (lit "h") carol].
Proof. repeat split. Qed.

(** ** Lemmas *)

Lemma has_name_true n u : has_name n u = true <-> name u = n.
Proof. apply bool_decide_eq_true. Qed.

Lemma find_None n us : find n us = None <-> n ∉ map name us.
Proof.
  induction us as [|u us IH]; cbn; [split; [intros _; apply not_elem_of_nil | done]|].
  rewrite not_elem_of_cons. unfold has_name. case_bool_decide; [naive_solver|]. rewrite IH. naive_solver.
Qed.

Lemma find_Some_name n us u : find n us = Some u -> name u = n /\ u ∈ us.
Proof.
  induction us as [|v us IH]; cbn; [done|]. destruct (has_name n v) eqn:E.
  - intros [= <-]. split; [by apply has_name_true | by left].
  - intros [? ?]%IH. split; [done | by right].
Qed.

Lemma any_name_find n us : any_name n us = true <-> find n us <> None.
Proof.
  induction us as [|u us IH]; cbn; [done|]. destruct (has_name n u); [done | exact IH].
Qed.

Lemma find_app n us vs : find n (us ++ vs) = match find n us with Some u => Some u | None => find n vs end.
Proof. induction us as [|u us IH]; cbn; [done|]. by destruct (has_name n u). Qed.

Lemma position_find n us : match position n us with
  | Some i => exists u, us !! i = Some u /\ find n us = Some u
  | None => find n us = None
  end.
Proof.
  induction us as [|u us IH]; cbn; [done|]. destruct (has_name n u); [by exists u|].
  destruct (position n us); exact IH.
Qed.

(** The accounts of other names, in order. *)
Definition others (n : bytes) (us : UsersConfig) : UsersConfig := List.filter (fun u => negb (has_name n u)) us.

Lemma update_first_spec n f us : (forall u, name (f u) = name u) ->
  match update_first n f us with
  | Some us' => exists u, find n us = Some u /\ find n us' = Some (f u) /\
      others n us' = others n us /\ map name us' = map name us /\
      (forall v, v ∈ us' -> v ∈ us \/ exists w, w ∈ us /\ v = f w)
  | None => find n us = None
  end.
Proof.
  intros Hf. induction us as [|u us IH]; cbn; [done|].
  assert (Hn : has_name n (f u) = has_name n u) by (unfold has_name; by rewrite Hf).
  destruct (has_name n u) eqn:E; cbn.
  - exists u. rewrite Hn, Hf. split_and!; try done.
    intros v [->|Hv]%elem_of_cons; [right; exists u; split; [by left | done] | left; by right].
  - destruct (update_first n f us) as [us'|]; cbn; [|done].
    destruct IH as (w & H1 & H2 & H3 & H4 & H5). exists w. rewrite E. cbn.
    split_and!; [done | done | by f_equal | by f_equal |].
    intros v [->|Hv]%elem_of_cons; [left; by left|].
    destruct (H5 v Hv) as [|(x & Hx & ->)]; [left; by right | right; exists x; split; [by right | done]].
Qed.

Lemma delete_position n us i : position n us = Some i ->
  others n (delete i us) = others n us /\ sublist (map name (delete i us)) (map name us) /\
  (NoDup (map name us) -> find n (delete i us) = None) /\ (forall v, v ∈ delete i us -> v ∈ us).
Proof.
  revert i. induction us as [|u us IH]; intros i; cbn; [done|]. destruct (has_name n u) eqn:E.
  - intros [= <-]. cbn. split_and!; [done | by constructor | | by right].
    rewrite NoDup_cons, find_None. apply has_name_true in E. rewrite E. by intros [].
  - destruct (position n us) as [j|]; [|done]. intros [= <-]. cbn. rewrite E. cbn.
    destruct (IH j eq_refl) as (H1 & H2 & H3 & H4). split_and!.
    + by f_equal.
    + by constructor.
    + rewrite NoDup_cons. intros []. by apply H3.
    + intros v [->|Hv]%elem_of_cons; [by left | right; by apply H4].
Qed.

Lemma others_app_self n us u : name u = n -> others n (us ++ [u]) = others n us.
Proof.
  intros Hn. unfold others. rewrite List.filter_app. cbn. rewrite (proj2 (has_name_true n u) Hn). cbn.
  apply app_nil_r.
Qed.

(** ** Accounts *)

Definition name_ok (n : bytes) : Prop := n <> [] /\ (length n <= 255)%nat /\ ":"%char ∉ n.

Lemma validate_name_Ok n : validate_name n = Ok tt <-> name_ok n.
Proof.
  unfold validate_name, name_ok. case_bool_decide; [naive_solver|].
  destruct (255 <? length n)%nat eqn:El; [apply Nat.ltb_lt in El; split; [done | lia]|].
  apply Nat.ltb_ge in El. destruct (contains ":" n) eqn:Ec.
  - apply contains_true in Ec. naive_solver.
  - apply contains_false in Ec. naive_solver.
Qed.

Definition accounts_wf (us : UsersConfig) : Prop :=
  NoDup (map name us) /\ Forall (fun u => name_ok (name u)) us.

(** An account anybody can claim. *)
Definition claimable (n : bytes) (us : UsersConfig) : Prop :=
  exists u, u ∈ us /\ name u = n /\ hash u = INIT_HASH.

Lemma read_new_password_Ok c p : read_new_password c = Ok p -> p <> [] /\ (length p <= 255)%nat.
Proof.
  unfold read_new_password. destruct (password1 c) as [p1|]; cbn; [|done].
  unfold validate_password. case_bool_decide; [done|]. destruct (255 <? _)%nat eqn:El; cbn; [done|].
  apply Nat.ltb_ge in El. destruct (is_terminal c); [|by intros [= <-]].
  destruct (password2 c) as [p2|]; cbn; [|done]. case_bool_decide; [|done]. by intros [= <-].
Qed.

(** What [plan] guarantees of the operation it builds. *)
Definition op_ok (hashed : bytes -> Prop) (op : UserOp) : Prop :=
  match op with
  | Add u => name_ok (name u) /\ hashed (hash u) /\ is_enabled u = true
  | AddInit u => name_ok (name u) /\ hash u = INIT_HASH /\ is_enabled u = true
  | SetPassword _ h => hashed h
  | _ => True
  end.

Lemma plan_op_ok compute_hash c us a op :
  plan compute_hash c us a = Ok (Some op) ->
  op_ok (fun h => exists p, p <> [] /\ (length p <= 255)%nat /\ compute_hash p = Some h) op.
Proof.
  assert (Hpw : forall A (k : bytes -> result Error A) r,
    (p ← read_new_password c; h ← ok_or HashFailed (compute_hash p); k h) = Ok r ->
    exists p h, p <> [] /\ (length p <= 255)%nat /\ compute_hash p = Some h /\ k h = Ok r).
  { intros A k r. destruct (read_new_password c) as [p|] eqn:Ep; cbn; [|done].
    apply read_new_password_Ok in Ep as []. destruct (compute_hash p) eqn:Eh; cbn; [|done]. eauto 8. }
  destruct a; cbn [plan]; try done.
  - unfold add_user. destruct (validate_name name0) as [[]|] eqn:En; cbn; [|done].
    destruct (any_name name0 us); [done|]. intros H.
    match type of H with (?x ≫= _) = _ => destruct x as [op'|] eqn:E; cbn in H; [|done] end.
    apply Hpw in E as (p & h & ? & ? & ? & [= <-]). injection H as <-. cbn.
    split_and!; [by apply validate_name_Ok | eauto | done].
  - unfold add_init_user. destruct (validate_name name0) as [[]|] eqn:En; cbn; [|done].
    destruct (any_name name0 us); cbn; [done|]. intros [= <-]. cbn.
    split_and!; [by apply validate_name_Ok | done | done].
  - unfold set_password. destruct (find_user us name0); cbn; [|done]. intros H.
    match type of H with (?x ≫= _) = _ => destruct x as [op'|] eqn:E; cbn in H; [|done] end.
    apply Hpw in E as (p & h & ? & ? & ? & [= <-]). injection H as <-. cbn. eauto.
  - unfold remove_user. destruct (find_user us name0); cbn; [|done].
    destruct (negb yes && is_terminal c); [|by intros [= <-]].
    destruct (confirm c) as [[]|]; cbn; [by intros [= <-] | done | done].
  - unfold set_enabled. destruct (find_user us name0); cbn; [|done]. by intros [= <-].
  - unfold set_enabled. destruct (find_user us name0); cbn; [|done]. by intros [= <-].
  - unfold set_direct. destruct (find_user us name0); cbn; [|done]. by intros [= <-].
  - unfold set_direct. destruct (find_user us name0); cbn; [|done]. by intros [= <-].
Qed.

(** [us'] has no account, and no claimable account, that [us] lacks. *)
Definition keeps (us us' : UsersConfig) : Prop :=
  (forall v, v ∈ us' -> exists w, w ∈ us /\ name v = name w /\ (hash v = hash w \/ hash v <> INIT_HASH)) /\
  NoDup (map name us').

Lemma keeps_wf us us' op a : accounts_wf us -> keeps us us' ->
  accounts_wf us' /\ forall n, claimable n us' -> claimable n us \/
    exists u, op = AddInit u /\ a = AAddInit n /\ find n us = None.
Proof.
  intros [_ Hok] [Hv Hnd]. rewrite Forall_forall in Hok. split; [split; [done|]|].
  - apply Forall_forall. intros v Hin. destruct (Hv v Hin) as (w & Hw & -> & _). by apply Hok.
  - intros n (v & Hin & Hn & Hh). left. destruct (Hv v Hin) as (w & Hw & Hnw & Hhw).
    exists w. split_and!; [done | congruence |]. destruct Hhw; congruence.
Qed.

Lemma update_keeps n f us us' : NoDup (map name us) ->
  (forall u, name (f u) = name u) -> (forall u, hash (f u) = hash u \/ hash (f u) <> INIT_HASH) ->
  find_user_mut us n f = Ok us' -> keeps us us'.
Proof.
  intros Hnd Hf Hh H. pose proof (update_first_spec n f us Hf) as Hs. unfold find_user_mut in H.
  destruct (update_first n f us) as [vs|]; cbn in H; [|done]. injection H as ->.
  destruct Hs as (u & _ & _ & _ & Hm & Hin). split; [|by rewrite Hm].
  intros v Hv. destruct (Hin v Hv) as [|(w & Hw & ->)]; [by exists v; auto|].
  exists w. by split_and!.
Qed.

Lemma any_name_None n us : any_name n us = false -> find n us = None.
Proof.
  intros E. destruct (find n us) eqn:Ef; [|done]. exfalso.
  enough (any_name n us = true) by congruence. apply any_name_find. by rewrite Ef.
Qed.

Lemma added_wf us u : accounts_wf us -> any_name (name u) us = false -> name_ok (name u) ->
  accounts_wf (us ++ [u]) /\
  forall n, claimable n (us ++ [u]) -> claimable n us \/ n = name u /\ hash u = INIT_HASH.
Proof.
  intros [Hnd Hok] E Hn. split; [split|].
  - rewrite map_app. apply NoDup_app. split_and!; [done | | cbn; apply NoDup_singleton].
    apply any_name_None, find_None in E. intros x Hx ->%list_elem_of_singleton. done.
  - apply Forall_app. split; [done | by constructor].
  - intros n (v & [Hv|Hv%list_elem_of_singleton]%elem_of_app & Hvn & Hvh); [left; by exists v|].
    right. split; congruence.
Qed.

Lemma plan_add_init compute_hash c us a u : plan compute_hash c us a = Ok (Some (AddInit u)) ->
  a = AAddInit (name u).
Proof.
  destruct a; cbn [plan]; [| |  |intros E|done|..].
  4: { unfold remove_user in E. destruct (find_user us name0); cbn in E; [|done].
    destruct (negb yes && is_terminal c); [|done]. by destruct (confirm c) as [[]|]. }
  all: match goal with |- (?x ≫= _) = _ -> _ => destruct x eqn:E; cbn; [|done] end; intros [= ->].
  - unfold add_user in E. destruct (validate_name _); cbn in E; [|done]. destruct (any_name _ _); [done|].
    destruct (read_new_password c); cbn in E; [|done]. by destruct (compute_hash _).
  - unfold add_init_user in E. destruct (validate_name _); cbn in E; [|done].
    destruct (any_name _ _); [done|]. by injection E as <-.
  - unfold set_password in E. destruct (find_user _ _); cbn in E; [|done].
    destruct (read_new_password c); cbn in E; [|done]. by destruct (compute_hash _).
  - unfold set_enabled in E. by destruct (find_user _ _).
  - unfold set_enabled in E. by destruct (find_user _ _).
  - unfold set_direct in E. by destruct (find_user _ _).
  - unfold set_direct in E. by destruct (find_user _ _).
Qed.

(** ** Theorems *)

(** One command changes one account: when an operation applies, the accounts of
    every other name are untouched and keep their order, the named account is the added
    one or the updated one, or one account of that name is gone, and the operation fails exactly when an account to
    add is already there or an account to change is not. *)
Theorem apply_op_effect op us :
  match apply_op op us with
  | Ok us' =>
      others (op_name op) us' = others (op_name op) us /\
      match op with
      | Add u | AddInit u => find (name u) us = None /\ find (name u) us' = Some u
      | SetPassword n h => exists u, find n us = Some u /\ find n us' = Some (set_hash h u)
      | Remove n => find n us <> None /\ length us = S (length us')
      | SetEnabled n b => exists u, find n us = Some u /\ find n us' = Some (set_enabled_flag b u)
      | SetDirect n b => exists u, find n us = Some u /\ find n us' = Some (set_direct_flag b u)
      end
  | Err e =>
      match op with
      | Add u | AddInit u => e = AlreadyExists (name u) /\ find (name u) us <> None
      | SetPassword n _ | Remove n | SetEnabled n _ | SetDirect n _ => e = NotFound n /\ find n us = None
      end
  end.
Proof.
  assert (Hadd : forall u, match (if any_name (name u) us then Err (AlreadyExists (name u)) else Ok (us ++ [u])) with
    | Ok us' => others (name u) us' = others (name u) us /\ find (name u) us = None /\ find (name u) us' = Some u
    | Err e => e = AlreadyExists (name u) /\ find (name u) us <> None end).
  { intros u. destruct (any_name (name u) us) eqn:E; [by apply any_name_find in E|].
    assert (Hn : find (name u) us = None) by (by apply any_name_None).
    split_and!; [by apply others_app_self | done |]. rewrite find_app, Hn. cbn.
    by rewrite (proj2 (has_name_true _ _)). }
  assert (Hupd : forall n f, (forall u, name (f u) = name u) -> match find_user_mut us n f with
    | Ok us' => others n us' = others n us /\ exists u, find n us = Some u /\ find n us' = Some (f u)
    | Err e => e = NotFound n /\ find n us = None end).
  { intros n f Hf. pose proof (update_first_spec n f us Hf) as H. unfold find_user_mut.
    destruct (update_first n f us) as [us'|]; cbn; [|done]. destruct H as (u & ? & ? & ? & _). eauto. }
  destruct op; cbn [apply_op op_name]; try apply Hadd; try (by apply Hupd).
  unfold user_position. pose proof (position_find name0 us) as H.
  destruct (position name0 us) as [i|] eqn:Ei; cbn; [|done]. destruct H as (u & Hlook & Hu).
  destruct (delete_position _ _ _ Ei) as (H1 & _). split_and!; [done | by rewrite Hu |].
  pose proof (lookup_lt_Some _ _ _ Hlook) as Hlt.
  pose proof (length_delete us i (mk_is_Some _ _ Hlook)) as Hd. lia.
Qed.

(** C36: A command applied to whatever the file holds by then keeps it well formed: names
    stay distinct and valid (1 to 255 bytes, no colon), and no account becomes claimable
    except the one [add-init] creates under a name that was free. *)
Theorem command_preserves_accounts compute_hash c stale a op us us'
    (Hphc : forall p h, compute_hash p = Some h -> h <> INIT_HASH) :
  plan compute_hash c stale a = Ok (Some op) -> accounts_wf us -> apply_op op us = Ok us' ->
  accounts_wf us' /\
  forall n, claimable n us' -> claimable n us \/
    exists u, op = AddInit u /\ a = AAddInit n /\ find n us = None.
Proof.
  intros Hplan [Hnd Hok] Ha. pose proof (plan_op_ok _ _ _ _ _ Hplan) as Hp.
  destruct op as [u|u|n h|n|n b|n b]; cbn [apply_op op_ok] in *.
  - destruct (any_name (name u) us) eqn:E; [done|]. injection Ha as <-.
    destruct Hp as (Hn & (p & _ & _ & Hh) & _). apply Hphc in Hh.
    destruct (added_wf us u (conj Hnd Hok) E Hn) as [Hwf Hcl]. split; [done|].
    intros n [|[_ ?]]%Hcl; [by left | done].
  - destruct (any_name (name u) us) eqn:E; [done|]. injection Ha as <-. destruct Hp as (Hn & _).
    destruct (added_wf us u (conj Hnd Hok) E Hn) as [Hwf Hcl]. split; [done|].
    intros n [|[-> _]]%Hcl; [by left|]. right. exists u.
    split_and!; [done | by apply (plan_add_init _ _ _ _ _ Hplan) | by apply any_name_None].
  - apply keeps_wf; [done|]. destruct Hp as (p & _ & _ & Hh%Hphc). apply (update_keeps n (set_hash h)); [done | done | by right | done].
  - destruct (user_position us n) as [i|] eqn:E; [|done]. injection Ha as <-.
    unfold user_position in E. destruct (position n us) eqn:Ep; [|done]. injection E as ->.
    destruct (delete_position _ _ _ Ep) as (_ & Hs & _ & Hin). apply keeps_wf; [done|]. split.
    + intros v Hv. exists v. auto.
    + eapply sublist_NoDup; eauto.
  - apply keeps_wf; [done|]. apply (update_keeps n (set_enabled_flag b)); [done | done | by left | done].
  - apply keeps_wf; [done|]. apply (update_keeps n (set_direct_flag b)); [done | done | by left | done].
Qed.

Lemma command_preserves_accounts_witness :
  let ch := fun p => Some (lit "$argon2id$" ++ p) in
  let c := mkConsole false (Some (lit "pw")) None None in
  accounts_wf [carol; set_hash INIT_HASH (mkUser (lit "dave") [] true false None)] /\
  (accounts_wf [carol; set_hash (lit "$argon2id$pw") (mkUser (lit "dave") [] true false None)] /\
   forall n, claimable n [carol; set_hash (lit "$argon2id$pw") (mkUser (lit "dave") [] true false None)] ->
     claimable n [carol; set_hash INIT_HASH (mkUser (lit "dave") [] true false None)] \/
     exists u, SetPassword (lit "dave") (lit "$argon2id$pw") = AddInit u /\
       ASetPassword (lit "dave") = AAddInit n /\
       find n [carol; set_hash INIT_HASH (mkUser (lit "dave") [] true false None)] = None).
Proof.
  intros ch c.
  assert (Hwf : accounts_wf [carol; set_hash INIT_HASH (mkUser (lit "dave") [] true false None)]).
  { split; [apply (bool_decide_unpack _); vm_compute; exact I|].
    repeat constructor; try discriminate; try (cbn; lia); apply contains_false; reflexivity. }
  split; [exact Hwf|].
  refine (command_preserves_accounts ch c
    [set_hash INIT_HASH (mkUser (lit "dave") [] true false None)]
    (ASetPassword (lit "dave")) (SetPassword (lit "dave") (lit "$argon2id$pw")) _ _ _ eq_refl Hwf eq_refl).
  intros p h E. injection E as <-. discriminate.
Defined.


End Users.
