(* ===== verification/UsersFile.v ===== *)
(** The users file on disk, shared by the server and the management commands
    (src/crates/resocks5/src/config/users/users_file/, the claim's [persist_claim], the
    command's [commit_op_locked] and the first-run initialisation).

    A routine is a program of system calls ([Fs]), written call for call like the
    source; a [World] runs any number of them interleaved, each call succeeding or
    failing as the environment decides, processes crashing anywhere. The paths are
    unix: [flock] and [rename].

    - the target is only ever replaced by [rename] of a complete temporary file, so the
      on-disk content is, at every instant of every interleaving, the result of applying
      whole updates one after the other, each to the content the previous one left
      ([users_file_updates]);
    - what a routine returns says what it did ([users_file_outcomes]);
    - every routine ends ([users_file_finishes]). *)
From S2P Require Import Prelude Text Users.

Module UsersFile.
Import Users(User, UserOp, INIT_HASH, name, hash, find, set_hash, update_first, apply_op).
#[local] Notation UsersConfig := (list User).

(** ** System calls *)

(** A file: its permission bits and its content. *)
Record File := mkFile { mode : Z; data : bytes }.
#[export] Instance File_eq_dec : EqDecision File.
Proof. solve_decision. Defined.

Definition PRIVATE_MODE : Z := 384.   (* 0o600 *)

Inductive LockAnswer := Locked | Busy | LockFailed.

(** A program: each call carries what is done with its answer. *)
Inductive Fs (A : Type) : Type :=
| Ret (a : A)
| Exists (k : bool -> Fs A)
| ReadFile (k : option bytes -> Fs A)
| Metadata (k : option (option Z) -> Fs A)
| CreateTmp (k : bool -> Fs A)
| ChmodTmp (m : Z) (k : bool -> Fs A)
| WriteTmp (text : bytes) (k : bool -> Fs A)
| SyncTmp (k : bool -> Fs A)
| RemoveTmp (k : Fs A)
| Rename (k : bool -> Fs A)
| SyncDir (k : bool -> Fs A)
| OpenLock (k : bool -> Fs A)
| TryLock (k : LockAnswer -> Fs A)
| WritePid (k : Fs A)
| Unlock (k : Fs A)
| Now (k : Z -> Fs A)
| Sleep (d : Z) (k : Fs A)
| WaitUntil (t : Z) (k : Fs A).
Arguments Ret {A} a.
Arguments Exists {A} k.
Arguments ReadFile {A} k.
Arguments Metadata {A} k.
Arguments CreateTmp {A} k.
Arguments ChmodTmp {A} m k.
Arguments WriteTmp {A} text k.
Arguments SyncTmp {A} k.
Arguments RemoveTmp {A} k.
Arguments Rename {A} k.
Arguments SyncDir {A} k.
Arguments OpenLock {A} k.
Arguments TryLock {A} k.
Arguments WritePid {A} k.
Arguments Unlock {A} k.
Arguments Now {A} k.
Arguments Sleep {A} d k.
Arguments WaitUntil {A} t k.

Fixpoint fs_bind {A B} (f : A -> Fs B) (p : Fs A) : Fs B :=
  match p with
  | Ret a => f a
  | Exists k => Exists (fun x => fs_bind f (k x))
  | ReadFile k => ReadFile (fun x => fs_bind f (k x))
  | Metadata k => Metadata (fun x => fs_bind f (k x))
  | CreateTmp k => CreateTmp (fun x => fs_bind f (k x))
  | ChmodTmp m k => ChmodTmp m (fun x => fs_bind f (k x))
  | WriteTmp t k => WriteTmp t (fun x => fs_bind f (k x))
  | SyncTmp k => SyncTmp (fun x => fs_bind f (k x))
  | RemoveTmp k => RemoveTmp (fs_bind f k)
  | Rename k => Rename (fun x => fs_bind f (k x))
  | SyncDir k => SyncDir (fun x => fs_bind f (k x))
  | OpenLock k => OpenLock (fun x => fs_bind f (k x))
  | TryLock k => TryLock (fun x => fs_bind f (k x))
  | WritePid k => WritePid (fs_bind f k)
  | Unlock k => Unlock (fs_bind f k)
  | Now k => Now (fun x => fs_bind f (k x))
  | Sleep d k => Sleep d (fs_bind f k)
  | WaitUntil t k => WaitUntil t (fs_bind f k)
  end.
#[export] Instance fs_ret : MRet Fs := fun A a => Ret a.
#[export] Instance fs_mbind : MBind Fs := fun A B f p => fs_bind f p.

(** ** The lock *)

Inductive LockError := OpenFailed | TimedOut | FlockFailed | FuelExhausted.

Definition LOCK_TIMEOUT : Z := from_secs 10.
Definition LOCK_POLL : Z := 10 * 1000000.

(** The polling loop of [acquire_with_timeout]: a busy lock is retried after
    [LOCK_POLL] until the deadline. *)
Fixpoint acquire_loop (fuel : nat) (deadline : Z) : Fs (result LockError unit) :=
  match fuel with
  | O => Ret (Err FuelExhausted)
  | S fuel' =>
      TryLock (fun a =>
        match a with
        | Locked => WritePid (Ret (Ok tt))
        | Busy =>
            Now (fun now =>
              if deadline <=? now then Ret (Err TimedOut)
              else Sleep LOCK_POLL (acquire_loop fuel' deadline))
        | LockFailed => Ret (Err FlockFailed)
        end)
  end.

Definition acquire_with_timeout (fuel : nat) (timeout : Z) : Fs (result LockError unit) :=
  OpenLock (fun ok =>
    if negb ok then Ret (Err OpenFailed)
    else Now (fun now => acquire_loop fuel (now + timeout))).

(** One attempt, then one per poll until the deadline has passed. *)
Definition LOCK_FUEL : nat := 1001.
Definition acquire : Fs (result LockError unit) := acquire_with_timeout LOCK_FUEL LOCK_TIMEOUT.

(** ** The atomic write *)

Inductive WriteError :=
| SerializeFailed | StatFailed | CreateFailed | ChmodFailed | WriteFailed | FlushFailed
| ReplaceFailed | SyncAfterReplaceFailed.
#[export] Instance WriteError_eq_dec : EqDecision WriteError.
Proof. solve_decision. Defined.

(** [platform::commit] (unix). *)
Definition commit : Fs (result WriteError unit) :=
  Rename (fun ok =>
    if negb ok then RemoveTmp (Ret (Err ReplaceFailed))
    else SyncDir (fun ok => Ret (if ok then Ok tt else Err SyncAfterReplaceFailed))).

(** The closure computing [write_result]. *)
Definition write_tmp (existing_mode : option Z) (text : bytes) : Fs (result WriteError unit) :=
  let write :=
    WriteTmp text (fun ok =>
      if negb ok then Ret (Err WriteFailed)
      else SyncTmp (fun ok => Ret (if ok then Ok tt else Err FlushFailed))) in
  match existing_mode with
  | Some m => ChmodTmp m (fun ok => if negb ok then Ret (Err ChmodFailed) else write)
  | None => write
  end.

Section Atomic.
(** [ktav::to_string] on a configuration. *)
Context {C : Type} (to_string : C -> option bytes).

Definition write_atomic (config : C) : Fs (result WriteError unit) :=
  match to_string config with
  | None => Ret (Err SerializeFailed)
  | Some text =>
      Metadata (fun md =>
        match md with
        | None => Ret (Err StatFailed)
        | Some existing_mode =>
            CreateTmp (fun ok =>
              if negb ok then Ret (Err CreateFailed)
              else
                write_result ← write_tmp existing_mode text;
                match write_result with
                | Err e => RemoveTmp (Ret (Err e))
                | Ok _ => commit
                end)
        end)
  end.

(** [ktav::from_file]. *)
Definition from_file (from_str : bytes -> option C) : Fs (option C) :=
  ReadFile (fun text => Ret (t ← text; from_str t)).
End Atomic.

Section Programs.
(** [ktav::to_string] and [ktav::from_str] on a users list. *)
Context (to_string : UsersConfig -> option bytes) (from_str : bytes -> option UsersConfig).

(** The guard is dropped on every return of the body. *)
Definition locked {A} (on_lock_error : LockError -> A) (body : Fs A) : Fs A :=
  l ← acquire;
  match l with
  | Err e => Ret (on_lock_error e)
  | Ok _ => a ← body; Unlock (Ret a)
  end.

(** ** The server: persisting an init-claim *)

Inductive ClaimError :=
| ClaimLock (e : LockError) | Disappeared | ClaimWrite (e : WriteError) | ClaimRead | NoLongerExists.
Inductive ClaimPersist :=
| Written | DiskHashChanged (disk_hash : bytes) | Failed (e : ClaimError).

Definition written_or_failed (r : result WriteError unit) : ClaimPersist :=
  match r with Ok _ => Written | Err e => Failed (ClaimWrite e) end.

Definition persist_claim (n new_hash : bytes) (fallback_users : option UsersConfig) : Fs ClaimPersist :=
  locked (fun e => Failed (ClaimLock e))
    (Exists (fun exists_ =>
      if negb exists_ then
        match fallback_users with
        | None => Ret (Failed Disappeared)
        | Some cfg => r ← write_atomic to_string cfg; Ret (written_or_failed r)
        end
      else
        cfg ← from_file from_str;
        match cfg with
        | None => Ret (Failed ClaimRead)
        | Some disk =>
            match find n disk with
            | None => Ret (Failed NoLongerExists)
            | Some user =>
                if negb (bool_decide (hash user = INIT_HASH)) then Ret (DiskHashChanged (hash user))
                else
                  r ← write_atomic to_string (default disk (update_first n (set_hash new_hash) disk));
                  Ret (written_or_failed r)
            end
        end)).

(** ** The command line: committing an operation *)

Inductive CommitError :=
| CommitLock (e : LockError) | CommitRead | CommitApply (e : Users.Error) | CommitWrite (e : WriteError).

Definition commit_op_locked (op : UserOp) : Fs (result CommitError unit) :=
  locked (fun e => Err (CommitLock e))
    (cfg ← from_file from_str;
     match cfg with
     | None => Ret (Err CommitRead)
     | Some fresh =>
         match apply_op op fresh with
         | Err e => Ret (Err (CommitApply e))
         | Ok fresh' => r ← write_atomic to_string fresh'; Ret (map_err CommitWrite r)
         end
     end).

(** ** First run: creating the file *)

Definition load_or_init_users_at : Fs (result CommitError UsersConfig) :=
  let read := cfg ← from_file from_str; Ret (ok_or CommitRead cfg) in
  Exists (fun e =>
    if e then read
    else
      locked (fun e => Err (CommitLock e))
        (Exists (fun e =>
          if e then read
          else
            r ← write_atomic to_string Users.UsersConfig_default;
            Ret (match r with Ok _ => Ok Users.UsersConfig_default | Err e => Err (CommitWrite e) end)))).

(** The routines by what they are asked to do, and what they answer. *)
Inductive Job :=
| JClaim (n new_hash : bytes) (fallback_users : option UsersConfig)
| JCommit (op : UserOp)
| JInit.
Inductive Answer :=
| AClaim (r : ClaimPersist)
| ACommit (r : result CommitError unit)
| AInit (r : result CommitError UsersConfig).

Definition prog (j : Job) : Fs Answer :=
  match j with
  | JClaim n h fb => r ← persist_claim n h fb; Ret (AClaim r)
  | JCommit op => r ← commit_op_locked op; Ret (ACommit r)
  | JInit => r ← load_or_init_users_at; Ret (AInit r)
  end.
End Programs.

(** ** The world *)

(** The file and its siblings, the lock's holder, the clock, and the replacements of
    the target so far (by whom, of what, by what), latest last. *)
Record Disk := mkDisk {
  target : option File; tmp : option File; lock : option nat; clock : Z;
  log : list (nat * option File * File)
}.

(** How a call ends: it works, or it fails; a failed write leaves a prefix. *)
Inductive Decision := Works | Fails | Leaves (n : nat).
Definition works (d : Decision) : bool := match d with Works => true | _ => false end.

Definition set_tmp (t : option File) (w : Disk) : Disk :=
  mkDisk (target w) t (lock w) (clock w) (log w).
Definition set_lock (l : option nat) (w : Disk) : Disk :=
  mkDisk (target w) (tmp w) l (clock w) (log w).
Definition set_clock (t : Z) (w : Disk) : Disk :=
  mkDisk (target w) (tmp w) (lock w) t (log w).
Definition publish (pid : nat) (f : File) (w : Disk) : Disk :=
  mkDisk (Some f) None (lock w) (clock w) (log w ++ [(pid, target w, f)]).

(** One call of process [pid]; [None]: it is finished, or asleep. *)
Definition call {A} (pid : nat) (d : Decision) (w : Disk) (p : Fs A) : option (Disk * Fs A) :=
  match p with
  | Ret _ => None
  | Exists k => Some (w, k (bool_decide (is_Some (target w))))
  | ReadFile k => Some (w, k (if works d then data <$> target w else None))
  | Metadata k => Some (w, k (if works d then Some (mode <$> target w) else None))
  | CreateTmp k =>
      match tmp w with
      | None => if works d then Some (set_tmp (Some (mkFile PRIVATE_MODE [])) w, k true)
                else Some (w, k false)
      | Some _ => Some (w, k false)
      end
  | ChmodTmp m k =>
      match tmp w with
      | Some f => if works d then Some (set_tmp (Some (mkFile m (data f))) w, k true)
                  else Some (w, k false)
      | None => Some (w, k false)
      end
  | WriteTmp text k =>
      match tmp w with
      | Some f =>
          match d with
          | Works => Some (set_tmp (Some (mkFile (mode f) text)) w, k true)
          | Fails => Some (w, k false)
          | Leaves n => Some (set_tmp (Some (mkFile (mode f) (take n text))) w, k false)
          end
      | None => Some (w, k false)
      end
  | SyncTmp k => Some (w, k (works d))
  | RemoveTmp k => Some (if works d then set_tmp None w else w, k)
  | Rename k =>
      match tmp w with
      | Some f => if works d then Some (publish pid f w, k true) else Some (w, k false)
      | None => Some (w, k false)
      end
  | SyncDir k => Some (w, k (works d))
  | OpenLock k => Some (w, k (works d))
  | TryLock k =>
      if negb (works d) then Some (w, k LockFailed)
      else match lock w with
           | None => Some (set_lock (Some pid) w, k Locked)
           | Some _ => Some (w, k Busy)
           end
  | WritePid k => Some (w, k)
  | Unlock k => Some (if bool_decide (lock w = Some pid) then set_lock None w else w, k)
  | Now k => Some (w, k (clock w))
  | Sleep d k => Some (w, WaitUntil (clock w + d) k)
  | WaitUntil t k => if t <=? clock w then Some (w, k) else None
  end.

(** Processes are numbered as they start and never reuse a number; [None]: crashed. *)
Record Sys := mkSys { disk : Disk; jobs : list (Job * option (Fs Answer)) }.

Inductive Event := Start (j : Job) | Run (pid : nat) (d : Decision) | Crash (pid : nat) | Tick (dt : Z).

Section Runs.
Context (to_string : UsersConfig -> option bytes) (from_str : bytes -> option UsersConfig).

Definition step (s : Sys) (e : Event) : option Sys :=
  match e with
  | Start j => Some (mkSys (disk s) (jobs s ++ [(j, Some (prog to_string from_str j))]))
  | Run pid d =>
      match jobs s !! pid with
      | Some (j, Some p) =>
          '(w, p') ← call pid d (disk s) p; Some (mkSys w (<[pid := (j, Some p')]> (jobs s)))
      | _ => None
      end
  | Crash pid =>
      match jobs s !! pid with
      | Some (j, Some _) =>
          let w := disk s in
          Some (mkSys (if bool_decide (lock w = Some pid) then set_lock None w else w)
                  (<[pid := (j, None)]> (jobs s)))
      | _ => None
      end
  | Tick dt => if 0 <=? dt then Some (mkSys (set_clock (clock (disk s) + dt) (disk s)) (jobs s)) else None
  end.

(** Events that cannot happen are skipped. *)
Definition run (es : list Event) (s : Sys) : Sys :=
  foldl (fun s e => default s (step s e)) s es.

Definition boot (c t : option File) : Sys := mkSys (mkDisk c t None 0 []) [].
End Runs.

(** ** What a routine may do

    [wp] follows a program with what its process knows: whether it holds the lock, and
    then the target and the temporary file, which nobody else touches; a lower bound of
    the clock; the replacements it has made; the contents it has read. A replacement must
    be permitted. *)

Record Local := mkLocal {
  held : option (option File * option File); since : Z; pub : list (option File * File);
  seen : list (option File)
}.
Definition knows (c t : option File) (L : Local) : Local := mkLocal (Some (c, t)) (since L) (pub L) (seen L).
Definition released (L : Local) : Local := mkLocal None (since L) (pub L) (seen L).
Definition later (z : Z) (L : Local) : Local := mkLocal (held L) z (pub L) (seen L).
Definition saw (c : option File) (L : Local) : Local := mkLocal (held L) (since L) (pub L) (seen L ++ [c]).
Definition published (f : File) (c : option File) (L : Local) : Local :=
  mkLocal (Some (Some f, None)) (since L) (pub L ++ [(c, f)]) (seen L).

Section Logic.
Context (permitted : option File -> File -> Prop).

Fixpoint wp {A} (L : Local) (p : Fs A) (Q : A -> Local -> Prop) : Prop :=
  match p with
  | Ret a => Q a L
  | Exists k =>
      match held L with
      | Some (c, _) => wp L (k (bool_decide (is_Some c))) Q
      | None => forall b, wp L (k b) Q
      end
  | ReadFile k =>
      wp L (k None) Q /\
      match held L with
      | Some (c, _) => wp (saw c L) (k (data <$> c)) Q
      | None => forall f, wp (saw (Some f) L) (k (Some (data f))) Q
      end
  | Metadata k => exists c t, held L = Some (c, t) /\ wp L (k None) Q /\ wp L (k (Some (mode <$> c))) Q
  | CreateTmp k => exists c t, held L = Some (c, t) /\ wp L (k false) Q /\
      (t = None -> wp (knows c (Some (mkFile PRIVATE_MODE [])) L) (k true) Q)
  | ChmodTmp m k => exists c f, held L = Some (c, Some f) /\ wp L (k false) Q /\
      wp (knows c (Some (mkFile m (data f))) L) (k true) Q
  | WriteTmp text k => exists c f, held L = Some (c, Some f) /\ wp L (k false) Q /\
      (forall n, wp (knows c (Some (mkFile (mode f) (take n text))) L) (k false) Q) /\
      wp (knows c (Some (mkFile (mode f) text)) L) (k true) Q
  | SyncTmp k => wp L (k true) Q /\ wp L (k false) Q
  | RemoveTmp k => exists c t, held L = Some (c, t) /\ wp L k Q /\ wp (knows c None L) k Q
  | Rename k => exists c f, held L = Some (c, Some f) /\ permitted c f /\
      wp (published f c L) (k true) Q /\ wp L (k false) Q
  | SyncDir k => wp L (k true) Q /\ wp L (k false) Q
  | OpenLock k => wp L (k true) Q /\ wp L (k false) Q
  | TryLock k => held L = None /\ wp L (k Busy) Q /\ wp L (k LockFailed) Q /\
      (forall c t, wp (knows c t L) (k Locked) Q)
  | WritePid k => wp L k Q
  | Unlock k => held L <> None /\ wp (released L) k Q
  | Now k => forall z, since L <= z -> wp (later z L) (k z) Q
  | Sleep d k => 0 <= d /\ wp (later (since L + d) L) k Q
  | WaitUntil t k => exists t0, t0 <= t /\ wp (later t0 L) k Q
  end.

Lemma wp_bind {A B} (p : Fs A) (f : A -> Fs B) Q : forall L,
  wp L p (fun a L' => wp L' (f a) Q) -> wp L (p ≫= f) Q.
Proof.
  induction p as [a|k IH|k IH|k IH|k IH|m k IH|text k IH|k IH|k IH|k IH|k IH|k IH|k IH|k IH|k IH|k IH|d k IH|t k IH];
    intros L H; unfold mbind, fs_mbind in *; cbn [wp fs_bind] in *.
  all: repeat match goal with
    | H : exists _, _ |- _ => destruct H
    | H : _ /\ _ |- _ => destruct H
    | |- exists _ _, _ => eexists _, _
    | |- exists _, _ => eexists
    | |- _ /\ _ => split
    | |- context [match held ?L with _ => _ end] => destruct (held L) as [[? ?]|]
    end; eauto.
Qed.

Lemma wp_mono {A} (p : Fs A) (Q Q' : A -> Local -> Prop) : (forall a L, Q a L -> Q' a L) ->
  forall L, wp L p Q -> wp L p Q'.
Proof.
  intros HQ. induction p as [a|k IH|k IH|k IH|k IH|m k IH|text k IH|k IH|k IH|k IH|k IH|k IH|k IH|k IH|k IH|k IH|d k IH|t k IH];
    intros L H; cbn [wp] in *; [by apply HQ|..].
  all: repeat match goal with
    | H : exists _, _ |- _ => destruct H
    | H : _ /\ _ |- _ => destruct H
    | |- exists _ _, _ => eexists _, _
    | |- exists _, _ => eexists
    | |- _ /\ _ => split
    | |- context [match held ?L with _ => _ end] => destruct (held L) as [[? ?]|]
    end; eauto.
Qed.

Lemma wp_acquire_loop (Q : result LockError unit -> Local -> Prop) deadline fuel : forall L,
  held L = None -> (0 < fuel)%nat -> deadline - since L <= (Z.of_nat fuel - 1) * LOCK_POLL ->
  (forall e L', held L' = None -> pub L' = pub L -> e <> FuelExhausted -> Q (Err e) L') ->
  (forall c t L', held L' = Some (c, t) -> pub L' = pub L -> Q (Ok tt) L') ->
  wp L (acquire_loop fuel deadline) Q.
Proof.
  induction fuel as [|fuel IH]; intros L Hh Hf Hd He Hok; [lia|]. cbn [acquire_loop wp].
  split_and!; [done | | by apply He | intros c t; by apply (Hok c t)].
  intros z Hz. destruct (deadline <=? z) eqn:Ez; zify_bools; [by apply He|].
  assert (0 < LOCK_POLL) by done. cbn [wp since later held pub]. split; [lia|].
  apply IH; [done | | | exact He | exact Hok]; cbn [since later]; [|nia].
  destruct fuel; [cbn in Hd; lia | lia].
Qed.

Lemma wp_acquire (Q : result LockError unit -> Local -> Prop) L : held L = None ->
  (forall e L', held L' = None -> pub L' = pub L -> e <> FuelExhausted -> Q (Err e) L') ->
  (forall c t L', held L' = Some (c, t) -> pub L' = pub L -> Q (Ok tt) L') ->
  wp L acquire Q.
Proof.
  intros Hh He Hok. unfold acquire, acquire_with_timeout. cbn [wp]. split; cbn [negb]; [|by apply He].
  cbn [wp]. intros z Hz. apply wp_acquire_loop; [done | unfold LOCK_FUEL; lia | | exact He | exact Hok].
  cbn [since later]. unfold LOCK_FUEL, LOCK_TIMEOUT, LOCK_POLL, from_secs, NANOS. lia.
Qed.

Lemma wp_locked {A} (on : LockError -> A) body (Q : A -> Local -> Prop) L : held L = None ->
  (forall e L', held L' = None -> pub L' = pub L -> e <> FuelExhausted -> Q (on e) L') ->
  (forall c t L', held L' = Some (c, t) -> pub L' = pub L ->
     wp L' body (fun a L'' => held L'' <> None /\ Q a (released L''))) ->
  wp L (locked on body) Q.
Proof.
  intros Hh He Hb. apply wp_bind, wp_acquire; [done | by intros; apply He|].
  intros c t L' H1 H2. apply wp_bind. apply (wp_mono _ _ _ (fun a L x => x)). by apply (Hb c t).
Qed.

Lemma knows_id c t L : held L = Some (c, t) -> knows c t L = L.
Proof. destruct L; cbn. by intros ->. Qed.

Section Writes.
Context (to_string : UsersConfig -> option bytes) (from_str : bytes -> option UsersConfig).

(** The file a successful write of [us] over [c] leaves. *)
Definition replacement (c : option File) (us : UsersConfig) (f : File) : Prop :=
  to_string us = Some (data f) /\ mode f = default PRIVATE_MODE (mode <$> c).

(** A write either leaves the target alone or replaces it, and says which. *)
Definition write_post (c : option File) (us : UsersConfig) (L : Local)
    (r : result WriteError unit) (L' : Local) : Prop :=
  match r with
  | Ok _ | Err SyncAfterReplaceFailed =>
      exists f, replacement c us f /\ held L' <> None /\ pub L' = pub L ++ [(c, f)]
  | Err _ => held L' <> None /\ pub L' = pub L
  end.

Lemma wp_commit c f us L : held L = Some (c, Some f) -> replacement c us f -> permitted c f ->
  forall L0, pub L = pub L0 -> wp L commit (write_post c us L0).
Proof.
  intros Hh Hr Hp L0 Hpub. unfold commit. cbn [wp]. exists c, f. split_and!; [done | done | |]; cbn [negb wp].
  - cbn [write_post held published pub]. rewrite Hpub. split; exists f; by split_and!.
  - exists c, (Some f). cbn. split_and!; congruence.
Qed.

Lemma wp_write_atomic c t us L : held L = Some (c, t) ->
  (forall f, replacement c us f -> permitted c f) ->
  wp L (write_atomic to_string us) (write_post c us L).
Proof.
  intros Hh Hp. unfold write_atomic. destruct (to_string us) as [text|] eqn:Et; [|cbn; split; congruence].
  cbn [wp]. exists c, t. split; [done|]. split; [cbn; split; congruence|].
  cbn [wp]. exists c, t. split; [done|]. split; [cbn; split; congruence|]. intros ->. cbn [negb].
  apply wp_bind. assert (Hw : forall f, mode f = default PRIVATE_MODE (mode <$> c) ->
    wp (knows c (Some f) L)
      (WriteTmp text (fun ok => if negb ok then Ret (Err WriteFailed)
        else SyncTmp (fun ok => Ret (if ok then Ok tt else Err FlushFailed))))
      (fun a L' => wp L' match a with Ok _ => commit | Err e => RemoveTmp (Ret (Err e)) end (write_post c us L))).
  { intros f Hm. cbn [wp negb]. exists c, f. split; [done|]. split; [|split]; [|intros n|split].
    - exists c, (Some f). cbn. split_and!; done.
    - eexists _, _. cbn. split_and!; done.
    - assert (Hr : replacement c us (mkFile (mode f) text)) by (split; [exact Et | exact Hm]).
      by apply (wp_commit c (mkFile (mode f) text) us); [| |apply Hp|].
    - eexists _, _. cbn. split_and!; done. }
  unfold write_tmp. destruct c as [fc|]; cbn [fmap option_fmap option_map]; [|by apply Hw].
  cbn [wp negb]. eexists _, _. split; [done|]. split.
  - eexists _, _. cbn. split_and!; done.
  - by apply (Hw (mkFile (mode fc) _)).
Qed.

Lemma wp_from_file c t L (Q : option UsersConfig -> Local -> Prop) : held L = Some (c, t) ->
  Q None L -> Q (f ← c; from_str (data f)) (saw c L) -> wp L (from_file from_str) Q.
Proof. intros Hh H1 H2. unfold from_file. cbn [wp]. split; [done|]. rewrite Hh. cbn [wp]. by destruct c. Qed.
End Writes.

End Logic.

(** ** What each routine is permitted, and what its answer tells *)

Section Specs.
Context (to_string : UsersConfig -> option bytes) (from_str : bytes -> option UsersConfig).
Notation replacement := (replacement to_string).
Notation prog := (prog to_string from_str).

(** Replacing the target [c] by [f] is the routine's whole update, applied to what [c]
    holds. *)
Definition permits (j : Job) (c : option File) (f : File) : Prop :=
  match j with
  | JClaim n h fb =>
      match c with
      | Some fc => exists us u us', from_str (data fc) = Some us /\ find n us = Some u /\
          hash u = INIT_HASH /\ update_first n (set_hash h) us = Some us' /\ replacement c us' f
      | None => exists us, fb = Some us /\ replacement None us f
      end
  | JCommit op => exists fc us us', c = Some fc /\ from_str (data fc) = Some us /\
      apply_op op us = Ok us' /\ replacement c us' f
  | JInit => c = None /\ replacement None Users.UsersConfig_default f
  end.

(** How many replacements an answer stands for. A directory that could not be synced
    after the rename is the one error after which the replacement has landed. *)
Definition told (j : Job) (a : Answer) (pubs : list (option File * File)) (reads : list (option File)) : Prop :=
  match j, a with
  | JClaim _ _ _, AClaim Written
  | JClaim _ _ _, AClaim (Failed (ClaimWrite SyncAfterReplaceFailed))
  | JCommit _, ACommit (Ok _)
  | JCommit _, ACommit (Err (CommitWrite SyncAfterReplaceFailed))
  | JInit, AInit (Err (CommitWrite SyncAfterReplaceFailed)) => length pubs = 1%nat
  | JClaim n _ _, AClaim (DiskHashChanged h) => pubs = [] /\ h <> INIT_HASH /\
      exists fc us u, Some fc ∈ reads /\ from_str (data fc) = Some us /\ find n us = Some u /\ hash u = h
  | JClaim _ _ _, AClaim (Failed e) => pubs = [] /\ e <> ClaimLock FuelExhausted
  | JCommit _, ACommit (Err e) => pubs = [] /\ e <> CommitLock FuelExhausted
  | JInit, AInit (Ok us) =>
      pubs = [] /\ (exists fc, Some fc ∈ reads /\ from_str (data fc) = Some us) \/
      us = Users.UsersConfig_default /\ length pubs = 1%nat
  | JInit, AInit (Err e) => pubs = [] /\ e <> CommitLock FuelExhausted
  | _, _ => False
  end.

Definition spec (j : Job) (a : Answer) (L : Local) : Prop := held L = None /\ told j a (pub L) (seen L).

Ltac answered := unfold spec; cbn; split_and?; try done; try congruence.

(** The answer made of a write's result. *)
Lemma write_answer (j : Job) (g : result WriteError unit -> Answer) c us L r L' :
  pub L = [] -> write_post to_string c us L r L' ->
  (forall f rs, told j (g (Ok tt)) [(c, f)] rs) ->
  (forall f rs, told j (g (Err SyncAfterReplaceFailed)) [(c, f)] rs) ->
  (forall e rs, e <> SyncAfterReplaceFailed -> told j (g (Err e)) [] rs) ->
  held L' <> None /\ spec j (g r) (released L').
Proof.
  intros Hp H H1 H2 H3. unfold spec. cbn [released held pub].
  destruct r as [[]|e]; cbn [write_post] in H.
  - destruct H as (f & _ & Hh & ->). rewrite Hp. split_and!; [done | done | apply H1].
  - destruct (decide (e = SyncAfterReplaceFailed)) as [->|Hne].
    + destruct H as (f & _ & Hh & ->). rewrite Hp. split_and!; [done | done | apply H2].
    + assert (held L' <> None /\ pub L' = pub L) as [Hh ->] by by destruct e.
      rewrite Hp. split_and!; [done | done | by apply H3].
Qed.

Lemma wp_persist_claim n h fb L : held L = None -> pub L = [] ->
  wp (permits (JClaim n h fb)) L (prog (JClaim n h fb)) (spec (JClaim n h fb)).
Proof.
  intros Hh Hp. cbn [UsersFile.prog]. unfold persist_claim. apply wp_bind, wp_locked; [done| |].
  { intros e L' H1 H2 H3. answered. }
  intros c t L' H1 H2. cbn [wp]. rewrite H1. destruct c as [fc|]; cbn [negb bool_decide].
  - rewrite bool_decide_eq_true_2 by done. cbn [negb]. apply wp_bind, (wp_from_file _ _ (Some fc) t); [done| |].
    { answered. }
    cbn [mbind option_bind]. destruct (from_str (data fc)) as [us|] eqn:Ef.
    2: { answered. }
    destruct (find n us) as [u|] eqn:Eu.
    2: { answered. }
    case_bool_decide as Ei; cbn [negb].
    2: { answered. exists fc, us, u. split; [apply elem_of_app; right; by left | done]. }
    apply wp_bind. pose proof (Users.update_first_spec n (set_hash h) us (fun _ => eq_refl)) as Hs.
    destruct (update_first n (set_hash h) us) as [us'|] eqn:E; [|congruence].
    eapply wp_mono; [|eapply (wp_write_atomic _ to_string (Some fc) t); [done|]].
    + intros r L'' H. cbn [wp]. apply (write_answer _ (fun r => AClaim (written_or_failed r)) _ _ _ _ _ (eq_trans H2 Hp) H).
      all: intros; answered. by destruct e.
    + intros f Hf. cbn. by exists us, u, us'.
  - cbn [negb]. destruct fb as [us|]; [|answered]. apply wp_bind.
    eapply wp_mono; [|eapply (wp_write_atomic _ to_string None t us); [done|]].
    + intros r L'' H. cbn [wp]. apply (write_answer _ (fun r => AClaim (written_or_failed r)) _ _ _ _ _ (eq_trans H2 Hp) H).
      all: intros; answered. by destruct e.
    + intros f Hf. cbn. by exists us.
Qed.

Lemma wp_commit_op op L : held L = None -> pub L = [] ->
  wp (permits (JCommit op)) L (prog (JCommit op)) (spec (JCommit op)).
Proof.
  intros Hh Hp. cbn [UsersFile.prog]. unfold commit_op_locked. apply wp_bind, wp_locked; [done| |].
  { intros e L' H1 H2 H3. answered. }
  intros c t L' H1 H2. apply wp_bind, (wp_from_file _ _ c t); [done | answered |].
  destruct c as [fc|]; cbn [mbind option_bind]; [|answered].
  destruct (from_str (data fc)) as [us|] eqn:Ef; [|answered].
  destruct (apply_op op us) as [us'|e] eqn:Ea; [|answered]. apply wp_bind.
  eapply wp_mono; [|eapply (wp_write_atomic _ to_string (Some fc) t us'); [done|]].
  - intros r L'' H. cbn [wp]. apply (write_answer _ (fun r => ACommit (map_err CommitWrite r)) _ _ _ _ _ (eq_trans H2 Hp) H).
    all: intros; answered. by destruct e.
  - intros f Hf. cbn. by exists fc, us, us'.
Qed.

Lemma wp_init L : held L = None -> pub L = [] -> wp (permits JInit) L (prog JInit) (spec JInit).
Proof.
  intros Hh Hp. cbn [UsersFile.prog]. unfold load_or_init_users_at. apply wp_bind. cbn [wp]. rewrite Hh.
  assert (Hread : forall L' (Q : result CommitError UsersConfig -> Local -> Prop),
    (forall r L'', held L'' = held L' -> pub L'' = pub L' -> r <> Err (CommitLock FuelExhausted) ->
       (forall us, r = Err us -> us = CommitRead) ->
       (forall us, r = Ok us -> exists fc, Some fc ∈ seen L'' /\ from_str (data fc) = Some us) -> Q r L'') ->
    wp (permits JInit) L' (cfg ← from_file from_str; Ret (ok_or CommitRead cfg)) Q).
  { intros L' Q HQ. apply wp_bind. unfold from_file. cbn [wp]. split; [apply HQ; cbn; try done; intros; congruence|].
    assert (Hf : forall f, wp (permits JInit) (saw (Some f) L') (Ret (t ← Some (data f); from_str t))
      (fun a L'0 => wp (permits JInit) L'0 (Ret (ok_or CommitRead a)) Q)).
    { intros f. cbn. destruct (from_str (data f)) as [us|] eqn:Ed; apply HQ; cbn; try done; try (intros; congruence).
      intros us' [= <-]. exists f. split; [apply elem_of_app; right; by left | done]. }
    destruct (held L') as [[[fc|] ?]|] eqn:EH; [apply Hf | | exact Hf].
    cbn. apply HQ; cbn; try done; intros; congruence. }
  intros []; cbn [negb].
  - apply Hread. intros [us|e] L'' E1 E2 Hne He Hok; answered; [left; split; [congruence | by apply Hok]|].
    rewrite (He e eq_refl). split; congruence.
  - apply wp_locked; [done| |].
    { intros e L' H1 H2 H3. answered. }
    intros c t L' H1 H2. cbn [wp]. rewrite H1. destruct c as [fc|].
    + rewrite bool_decide_eq_true_2 by done. apply Hread. intros [us|e] L'' E1 E2 Hne He Hok; answered; [left; split; [congruence | by apply Hok]|].
      rewrite (He e eq_refl). split; congruence.
    + cbn. apply wp_bind. eapply wp_mono; [|eapply (wp_write_atomic _ to_string None t); [done|]].
      * intros r L'' H. cbn [wp].
        apply (write_answer _ (fun r => AInit match r with Ok _ => Ok Users.UsersConfig_default | Err e => Err (CommitWrite e) end)
          _ _ _ _ _ (eq_trans H2 Hp) H).
        all: intros; answered; try (by right); by destruct e.
      * intros f Hf. done.
Qed.

Lemma wp_prog j L : held L = None -> pub L = [] -> wp (permits j) L (prog j) (spec j).
Proof. destruct j; [apply wp_persist_claim | apply wp_commit_op | apply wp_init]. Qed.
End Specs.

(** ** The invariant of the world *)

Definition mine (pid : nat) (l : list (nat * option File * File)) : list (option File * File) :=
  omap (fun '(q, c, f) => if (q =? pid)%nat then Some (c, f) else None) l.

Lemma mine_app pid l k : mine pid (l ++ k) = mine pid l ++ mine pid k.
Proof. apply omap_app. Qed.

Lemma mine_elem pid l c f : (c, f) ∈ mine pid l -> (pid, c, f) ∈ l.
Proof.
  unfold mine. intros H. apply list_elem_of_omap in H as ([[q c'] f'] & Hin & H).
  destruct (Nat.eqb_spec q pid) as [->|]; [|done]. by injection H as -> ->.
Qed.

(** What a process knows is so, of the present... *)
Definition agrees_now (pid : nat) (w : Disk) (L : Local) : Prop :=
  match held L with
  | Some (c, t) => lock w = Some pid /\ target w = c /\ tmp w = t
  | None => lock w <> Some pid
  end /\ since L <= clock w /\ pub L = mine pid (log w).

(** A call of [pid] as the other processes see it. *)
Definition undisturbed (pid : nat) (w w' : Disk) : Prop :=
  clock w <= clock w' /\
  forall q, q <> pid ->
    mine q (log w') = mine q (log w) /\
    (lock w' = Some q <-> lock w = Some q) /\
    (lock w = Some q -> target w' = target w /\ tmp w' = tmp w).

Lemma undisturbed_now pid q w w' L : q <> pid -> undisturbed pid w w' -> agrees_now q w L -> agrees_now q w' L.
Proof.
  intros Hq [Hc H] (Hh & Hs & Hp). destruct (H q Hq) as (H1 & H2 & H3). split_and!; [|lia|congruence].
  destruct (held L) as [[c t]|]; [|by rewrite H2]. destruct Hh as (Hl & <- & <-).
  destruct (H3 Hl) as [-> ->]. by rewrite H2.
Qed.

(** What a call did to the target. *)
Definition effect (permitted : option File -> File -> Prop) (pid : nat) (w w' : Disk) : Prop :=
  log w' = log w /\ target w' = target w \/
  exists f, permitted (target w) f /\ log w' = log w ++ [(pid, target w, f)] /\ target w' = Some f.

Lemma mine_same pid c f : mine pid [(pid, c, f)] = [(c, f)].
Proof. cbn. by rewrite Nat.eqb_refl. Qed.
Lemma mine_other q pid c f : q <> pid -> mine q [(pid, c, f)] = [].
Proof. intros H. cbn. by rewrite (proj2 (Nat.eqb_neq pid q)) by congruence. Qed.

(** A call that leaves the world alone. *)
Lemma still pid permitted w : undisturbed pid w w /\ effect permitted pid w w.
Proof. split; [split; [lia|]; intros; done | by left]. Qed.

(** What it has read: nothing more, or the target. *)
Definition reads (w : Disk) (L L' : Local) : Prop := seen L' = seen L \/ seen L' = seen L ++ [target w].

Section Calls.
Context (permitted : option File -> File -> Prop) (pid : nat).

(** The lock's holder works on the temporary file. *)
Lemma holder_tmp w L c t t' : held L = Some (c, t) -> agrees_now pid w L ->
  agrees_now pid (set_tmp t' w) (knows c t' L) /\ undisturbed pid w (set_tmp t' w) /\
  effect permitted pid w (set_tmp t' w) /\ reads w L (knows c t' L).
Proof.
  intros Hh (Ha & Hs & Hp). rewrite Hh in Ha. destruct Ha as (Hl & Hc & Ht). split_and!.
  - by split_and!.
  - split; [cbn; lia|]. intros q Hq. cbn. split_and!; [done | done | congruence..].
  - by left.
  - by left.
Qed.

Lemma call_now {A} d w w' (p p' : Fs A) L Q :
  call pid d w p = Some (w', p') -> wp permitted L p Q -> agrees_now pid w L ->
  exists L', wp permitted L' p' Q /\ agrees_now pid w' L' /\ undisturbed pid w w' /\
    effect permitted pid w w' /\ reads w L L'.
Proof.
  intros Hcall Hwp Ha. pose proof (still pid permitted w) as [Hu0 He0].
  assert (Hstay : forall p1 L1, Some (w, p1) = Some (w', p') -> wp permitted L1 p1 Q -> agrees_now pid w L1 ->
    reads w L L1 ->
    exists L', wp permitted L' p' Q /\ agrees_now pid w' L' /\ undisturbed pid w w' /\
      effect permitted pid w w' /\ reads w L L').
  { intros p1 L1 [= <- <-] H1 H2 H3. by exists L1. }
  assert (Hstay0 : forall p1, Some (w, p1) = Some (w', p') -> wp permitted L p1 Q ->
    exists L', wp permitted L' p' Q /\ agrees_now pid w' L' /\ undisturbed pid w w' /\
      effect permitted pid w w' /\ reads w L L').
  { intros p1 H1 H2. apply (Hstay p1 L); [done | done | done | by left]. }
  pose proof Ha as (Hh & Hs & Hp).
  destruct p as [a|k|k|k|k|m k|text k|k|k|k|k|k|k|k|k|k|dd k|t k]; cbn [call wp] in Hcall, Hwp; [done|..].
  - destruct (held L) as [[c t]|] eqn:El; [|by eapply Hstay0].
    destruct Hh as (_ & Hc & _). eapply Hstay0; [exact Hcall | by rewrite Hc].
  - destruct Hwp as [H1 H2]. destruct (works d); [|by eapply Hstay0].
    destruct (held L) as [[c t]|] eqn:El.
    + destruct Hh as (Hl & Hc & Ht). rewrite Hc in Hcall. eapply Hstay; [exact Hcall | exact H2 | |].
      * split; [cbn [held saw]; rewrite El; by split_and!|]. by split.
      * right. by rewrite Hc.
    + destruct (target w) as [f|] eqn:Et; [|by eapply Hstay0]. eapply Hstay; [exact Hcall | exact (H2 f) | |].
      * split; [cbn [held saw]; by rewrite El|]. by split.
      * right. by rewrite Et.
  - destruct Hwp as (c & t & El & H1 & H2). rewrite El in Hh. destruct Hh as (_ & Hc & _).
    eapply Hstay0; [exact Hcall|]. destruct (works d); [by rewrite Hc | done].
  - destruct Hwp as (c & t & El & H1 & H2). pose proof Hh as Hh'. rewrite El in Hh'. destruct Hh' as (_ & Hc & Ht).
    destruct (tmp w) eqn:Et; [by eapply Hstay0|]. destruct (works d); [|by eapply Hstay0].
    injection Hcall as <- <-. eexists. split; [by apply H2|]. by apply (holder_tmp w L c t).
  - destruct Hwp as (c & f & El & H1 & H2). pose proof Hh as Hh'. rewrite El in Hh'. destruct Hh' as (_ & Hc & Ht).
    rewrite Ht in Hcall. destruct (works d); [|by eapply Hstay0].
    injection Hcall as <- <-. eexists. split; [exact H2|]. by apply (holder_tmp w L c (Some f)).
  - destruct Hwp as (c & f & El & H1 & H2 & H3). pose proof Hh as Hh'. rewrite El in Hh'. destruct Hh' as (_ & Hc & Ht).
    rewrite Ht in Hcall. destruct d as [| |n]; [|by eapply Hstay0|]; injection Hcall as <- <-; eexists.
    + split; [exact H3|]. by apply (holder_tmp w L c (Some f)).
    + split; [exact (H2 n)|]. by apply (holder_tmp w L c (Some f)).
  - destruct Hwp. apply (Hstay0 (k (works d))); [exact Hcall | by destruct (works d)].
  - destruct Hwp as (c & t & El & H1 & H2). destruct (works d); [|by apply (Hstay0 k)].
    injection Hcall as <- <-. eexists. split; [exact H2|]. by apply (holder_tmp w L c t).
  - destruct Hwp as (c & f & El & Hperm & H1 & H2). pose proof Hh as Hh'. rewrite El in Hh'. destruct Hh' as (Hl & Hc & Ht).
    rewrite Ht in Hcall. destruct (works d); [|by eapply Hstay0].
    injection Hcall as <- <-. eexists. split; [exact H1|]. split_and!.
    + split_and!; [done | done |]. cbn [published pub publish log]. by rewrite Hp, mine_app, mine_same, Hc.
    + split; [cbn; lia|]. intros q Hq. cbn [publish log lock target tmp]. rewrite mine_app, (mine_other q pid), app_nil_r by done.
      split_and!; [done | done | congruence..].
    + right. exists f. split; [by rewrite Hc | done].
    + by left.
  - destruct Hwp. apply (Hstay0 (k (works d))); [exact Hcall | by destruct (works d)].
  - destruct Hwp. apply (Hstay0 (k (works d))); [exact Hcall | by destruct (works d)].
  - destruct Hwp as (El & H1 & H2 & H3). destruct (works d); cbn [negb] in Hcall; [|by eapply Hstay0].
    destruct (lock w) as [q|] eqn:Elock; [by eapply Hstay0|]. injection Hcall as <- <-.
    exists (knows (target w) (tmp w) L). split; [apply H3|]. split_and!.
    + by split_and!.
    + split; [cbn; lia|]. intros q Hq. cbn. rewrite Elock. split_and!; [done | split; congruence | done..].
    + by left.
    + by left.
  - by eapply Hstay0.
  - destruct Hwp as [El H1]. destruct (held L) as [[c t]|] eqn:EL; [|done]. destruct Hh as (Hl & Hc & Ht).
    rewrite bool_decide_eq_true_2 in Hcall by done. injection Hcall as <- <-.
    exists (released L). split; [exact H1|]. split_and!.
    + by split_and!.
    + split; [cbn; lia|]. intros q Hq. cbn. rewrite Hl. split_and!; [done | split; congruence | congruence..].
    + by left.
    + by left.
  - eapply Hstay; [exact Hcall | apply Hwp; exact Hs | | by left]. split_and!; [done | cbn; lia | done].
  - destruct Hwp as [Hd H1]. eapply Hstay0; [exact Hcall|]. cbn [wp].
    exists (since L + dd). split; [lia | done].
  - destruct Hwp as (t0 & Ht & H1). destruct (t <=? clock w) eqn:E; [|done]. zify_bools.
    eapply Hstay; [exact Hcall | exact H1 | | by left]. split_and!; [done | cbn; lia | done].
Qed.

(** ... and of the past: it has read only what the target has held. *)
Definition past (w : Disk) (c : option File) : Prop := target w = c \/ exists q f, (q, c, f) ∈ log w.
Definition agrees (w : Disk) (L : Local) : Prop := agrees_now pid w L /\ Forall (past w) (seen L).

Lemma effect_past q w w' c : effect permitted q w w' -> past w c -> past w' c.
Proof.
  unfold past. intros [[-> ->]|(f & _ & -> & _)]; [done|]. intros [<-|(q' & g & Hg)].
  - right. exists q, f. apply elem_of_app. right. by left.
  - right. exists q', g. apply elem_of_app. by left.
Qed.

Lemma call_ok {A} d w w' (p p' : Fs A) L Q :
  call pid d w p = Some (w', p') -> wp permitted L p Q -> agrees w L ->
  exists L', wp permitted L' p' Q /\ agrees w' L' /\ undisturbed pid w w' /\ effect permitted pid w w'.
Proof.
  intros Hcall Hwp [Hnow Hseen]. destruct (call_now _ _ _ _ _ _ _ Hcall Hwp Hnow) as (L' & H1 & H2 & H3 & H4 & H5).
  exists L'. split; [done|]. split; [|done]. split; [done|].
  assert (Hs : Forall (past w') (seen L)).
  { eapply Forall_impl; [exact Hseen|]. intros c. by eapply effect_past. }
  destruct H5 as [-> | ->]; [done|]. apply Forall_app. split; [done|]. constructor; [|constructor].
  apply (effect_past pid w w'); [done | by left].
Qed.
End Calls.

Lemma undisturbed_agrees permitted q w w' L pid : q <> pid -> undisturbed pid w w' -> effect permitted pid w w' ->
  agrees q w L -> agrees q w' L.
Proof.
  intros Hq Hu He [H1 H2]. split; [by eapply undisturbed_now|].
  eapply Forall_impl; [exact H2|]. intros c. by eapply effect_past.
Qed.


(** ** Bounded programs *)

(** At most [n] calls, whatever they answer (a sleep and its wake-up count as two). *)
Fixpoint within {A} (n : nat) (p : Fs A) : Prop :=
  match p with
  | Ret _ => True
  | Exists k | CreateTmp k | ChmodTmp _ k | WriteTmp _ k | SyncTmp k
  | Rename k | SyncDir k | OpenLock k => (0 < n)%nat /\ forall x, within (pred n) (k x)
  | ReadFile k => (0 < n)%nat /\ forall x, within (pred n) (k x)
  | Metadata k => (0 < n)%nat /\ forall x, within (pred n) (k x)
  | TryLock k => (0 < n)%nat /\ forall x, within (pred n) (k x)
  | Now k => (0 < n)%nat /\ forall x, within (pred n) (k x)
  | RemoveTmp k | WritePid k | Unlock k | WaitUntil _ k => (0 < n)%nat /\ within (pred n) k
  | Sleep _ k => (1 < n)%nat /\ within (pred (pred n)) k
  end.

Lemma within_mono {A} (p : Fs A) : forall n m, (n <= m)%nat -> within n p -> within m p.
Proof.
  induction p as [a|k IH|k IH|k IH|k IH|m k IH|text k IH|k IH|k IH|k IH|k IH|k IH|k IH|k IH|k IH|k IH|d k IH|t k IH];
    intros n m' Hl; cbn [within]; try done; intros [Hn H]; (split; [lia|]);
    try (intros x; eapply IH; [|apply H]; lia); (eapply IH; [|exact H]; lia).
Qed.

Lemma within_bind {A B} (p : Fs A) (f : A -> Fs B) m : (forall a, within m (f a)) ->
  forall n, within n p -> within (n + m) (p ≫= f).
Proof.
  intros Hf. unfold mbind, fs_mbind.
  induction p as [a|k IH|k IH|k IH|k IH|m' k IH|text k IH|k IH|k IH|k IH|k IH|k IH|k IH|k IH|k IH|k IH|d k IH|t k IH];
    intros n; [intros _; eapply within_mono; [|apply Hf]; lia|..];
    cbn [within fs_bind]; intros [Hn H]; (split; [lia|]).
  all: try (replace (pred (n + m)) with (pred n + m)%nat by lia; solve [auto]).
  replace (pred (pred (n + m))) with (pred (pred n) + m)%nat by lia. auto.
Qed.

(** One call, its answer taken apart. *)
Ltac one_call := split; [lia|]; cbn [pred].

Lemma acquire_loop_within deadline fuel : within (4 * fuel) (acquire_loop fuel deadline).
Proof.
  induction fuel as [|fuel IH]; [done|]. replace (4 * S fuel)%nat with (S (S (S (S (4 * fuel))))) by lia.
  cbn [acquire_loop within]. one_call. intros []; cbn [within]; [by one_call | | done].
  one_call. intros z. destruct (deadline <=? z); [done|]. cbn [within]. by one_call.
Qed.

Lemma acquire_with_timeout_within fuel timeout :
  within (S (S (4 * fuel))) (acquire_with_timeout fuel timeout).
Proof.
  cbn [acquire_with_timeout within]. one_call. intros []; cbn [negb within]; [|done]. one_call.
  intros z. apply acquire_loop_within.
Qed.

Lemma locked_within {A} (on : LockError -> A) body n a : within a acquire -> within n body ->
  within (a + (n + 1)) (locked on body).
Proof.
  intros Ha Hb. apply within_bind; [|done]. intros []; [|done]. apply within_bind; [|done].
  intros x. cbn [within]. by one_call.
Qed.

Section Within.
Context (to_string : UsersConfig -> option bytes) (from_str : bytes -> option UsersConfig).

Lemma write_tmp_within md text : within 3 (write_tmp md text).
Proof.
  assert (H : forall n, (1 < n)%nat -> within n (WriteTmp text (fun ok => if negb ok then Ret (Err WriteFailed)
    else SyncTmp (fun ok => Ret (if ok then Ok tt else Err FlushFailed))))).
  { intros n Hn. cbn [within]. one_call. intros []; cbn [negb within]; [|done]. by split; [lia|]. }
  unfold write_tmp. destruct md; [|apply H; lia]. cbn [within]. one_call. intros []; cbn [negb within]; [|done].
  apply H. lia.
Qed.

Lemma write_atomic_within us : within 7 (write_atomic to_string us).
Proof.
  unfold write_atomic. destruct (to_string us) as [text|]; [|done]. cbn [within]. one_call.
  intros [md|]; [|done]. cbn [within]. one_call. intros []; cbn [negb]; [|done].
  apply (within_bind _ _ 2) with (n := 3%nat); [|apply write_tmp_within].
  intros [[]|e]; cbn [commit within]; one_call; [|done]. intros []; cbn [negb within]; one_call; done.
Qed.

Lemma from_file_within : within 1 (from_file from_str).
Proof. cbn [from_file within]. by one_call. Qed.

Lemma read_within {B} (k : option UsersConfig -> Fs B) m :
  (forall c, within m (k c)) -> within (1 + m) (c ← from_file from_str; k c).
Proof. intros. by apply within_bind, from_file_within. Qed.

Lemma write_then_within {B} (k : result WriteError unit -> B) us :
  within (7 + 0) (r ← write_atomic to_string us; Ret (k r)).
Proof. by apply within_bind, write_atomic_within. Qed.

Lemma persist_claim_within a n h fb : within a acquire ->
  within (a + (9 + 1)) (persist_claim to_string from_str n h fb).
Proof.
  intros Ha. unfold persist_claim. apply locked_within; [done|]. cbn [within]. one_call. intros []; cbn [negb].
  - apply (read_within _ 7). intros [us|]; [|done]. destruct (find n us); [|done].
    destruct (negb _); [done | apply write_then_within].
  - destruct fb; [|done]. apply (within_mono _ (7 + 0)); [lia | apply write_then_within].
Qed.

Lemma commit_op_within a op : within a acquire -> within (a + (8 + 1)) (commit_op_locked to_string from_str op).
Proof.
  intros Ha. unfold commit_op_locked. apply locked_within; [done|]. apply (read_within _ 7).
  intros [us|]; [|done]. destruct (apply_op op us); [apply write_then_within | done].
Qed.

Lemma init_within a : within a acquire -> within (S (a + (8 + 1))) (load_or_init_users_at to_string from_str).
Proof.
  intros Ha. unfold load_or_init_users_at. cbn [within]. one_call. intros [].
  - apply (within_mono _ (1 + 0)); [lia|]. by apply read_within.
  - apply locked_within; [done|]. cbn [within]. one_call. intros []; [|apply write_then_within].
    apply (within_mono _ (1 + 0)); [lia|]. by apply read_within.
Qed.

Lemma prog_within_acquire a j : within a acquire -> within (S a + 10) (prog to_string from_str j).
Proof.
  intros Ha. destruct j as [n h fb|op|]; unfold prog.
  - apply (within_mono _ (a + (9 + 1) + 0)); [lia|]. by apply within_bind, persist_claim_within.
  - apply (within_mono _ (a + (8 + 1) + 0)); [lia|]. by apply within_bind, commit_op_within.
  - apply (within_mono _ (S (a + (8 + 1)) + 0)); [lia|]. by apply within_bind, init_within.
Qed.

(** The calls a routine makes, at most: the lock's polling, the body and the unlock. *)
Definition CALLS : nat := 4 * LOCK_FUEL + 13.

Lemma acquire_within : within (S (S (4 * LOCK_FUEL))) acquire.
Proof. apply acquire_with_timeout_within. Qed.

Lemma CALLS_enough : (S (S (S (4 * LOCK_FUEL))) + 10 <= CALLS)%nat.
Proof. unfold CALLS. generalize LOCK_FUEL. intros n. lia. Qed.

Lemma prog_within j : within CALLS (prog to_string from_str j).
Proof. exact (within_mono _ _ _ CALLS_enough (prog_within_acquire _ j acquire_within)). Qed.
End Within.

Lemma call_within {A} pid d w w' (p p' : Fs A) n : call pid d w p = Some (w', p') ->
  within n p -> (0 < n)%nat /\ within (pred n) p'.
Proof.
  intros H Hn.
  destruct p as [a|k|k|k|k|m k|text k|k|k|k|k|k|k|k|k|k|dd k|t k]; cbn [call within] in H, Hn; [done|..];
    destruct Hn as [H0 Hn];
    repeat match type of H with context [match ?x with _ => _ end] => destruct x end;
    simplify_eq/=; try done; try (split; [lia | by apply Hn]).
  split; [lia|]. cbn [within]. split; [lia | done].
Qed.

(** A routine that has not answered can go on, if only after a while. *)
Lemma call_enabled {A} pid w (p : Fs A) : (forall a, p <> Ret a) ->
  exists dt, 0 <= dt /\ forall d, is_Some (call pid d (set_clock (clock w + dt) w) p).
Proof.
  intros Hp. destruct p as [a|k|k|k|k|m k|text k|k|k|k|k|k|k|k|k|k|dd k|t k]; [by destruct (Hp a)|..].
  all: try (exists 0; split; [lia|]; intros d'; cbn [call];
    repeat match goal with |- context [match ?x with _ => _ end] => destruct x end; by eexists).
  exists (Z.max 0 (t - clock w)). split; [lia|]. intros d'. cbn [call set_clock clock].
  rewrite (proj2 (Z.leb_le _ _)) by lia. by eexists.
Qed.

(** *** Reachable worlds *)

Section Reachable.
Context (to_string : UsersConfig -> option bytes) (from_str : bytes -> option UsersConfig).
Notation prog := (prog to_string from_str).
Notation permits := (permits to_string from_str).
Notation step := (step to_string from_str).
Notation run := (run to_string from_str).
Notation spec := (spec from_str).
Notation told := (told from_str).

(** The replacements, each of what the one before left. *)
Fixpoint chain (c : option File) (l : list (nat * option File * File)) (c' : option File) : Prop :=
  match l with
  | [] => c' = c
  | (_, a, f) :: l' => a = c /\ chain (Some f) l' c'
  end.

Lemma updates_snoc c l c' pid f : chain c l c' -> chain c (l ++ [(pid, c', f)]) (Some f).
Proof.
  revert c. induction l as [|[[q a] g] l IH]; intros c; cbn; [done|]. intros [-> H]. split; [done | by apply IH].
Qed.

Record Inv (c0 : option File) (s : Sys) : Prop := {
  inv_procs : forall pid j p, jobs s !! pid = Some (j, Some p) ->
    exists L, wp (permits j) L p (spec j) /\ agrees pid (disk s) L;
  inv_lock : forall pid, lock (disk s) = Some pid -> (pid < length (jobs s))%nat;
  inv_chain : chain c0 (log (disk s)) (target (disk s));
  inv_log : Forall (fun '(pid, c, f) => exists j o, jobs s !! pid = Some (j, o) /\ permits j c f) (log (disk s))
}.

Lemma Inv_boot c t : Inv c (boot c t).
Proof. split; cbn; [intros ?? ?; by rewrite lookup_nil | done | done | constructor]. Qed.

Lemma mine_none pid l (P : nat -> Prop) : Forall (fun '(q, _, _) => q <> pid) l -> mine pid l = [].
Proof.
  induction 1 as [|[[q c] f] l Hq _ IH]; [done|]. cbn. by rewrite (proj2 (Nat.eqb_neq q pid)) by done.
Qed.

(** The log keeps its entries when jobs are added or go on. *)
Lemma log_mono l (js js' : list (Job * option (Fs Answer))) :
  (forall pid j o, js !! pid = Some (j, o) -> exists o', js' !! pid = Some (j, o')) ->
  Forall (fun '(pid, c, f) => exists j o, js !! pid = Some (j, o) /\ permits j c f) l ->
  Forall (fun '(pid, c, f) => exists j o, js' !! pid = Some (j, o) /\ permits j c f) l.
Proof.
  intros H Hl. eapply Forall_impl; [exact Hl|]. intros [[pid c] f] (j & o & Hj & Hp).
  destruct (H _ _ _ Hj) as [o' Ho']. by exists j, o'.
Qed.

Lemma update_jobs (js : list (Job * option (Fs Answer))) pid j o o' : js !! pid = Some (j, o) ->
  forall q j0 o0, js !! q = Some (j0, o0) -> exists o1, <[pid := (j, o')]> js !! q = Some (j0, o1).
Proof.
  intros Hj q j0 o0 Hq. destruct (decide (q = pid)) as [->|Hne].
  - rewrite Hj in Hq. injection Hq as <- <-. exists o'. apply list_lookup_insert_eq. by eapply lookup_lt_Some.
  - exists o0. by rewrite list_lookup_insert_ne by congruence.
Qed.

Lemma step_Inv c0 s e s' : step s e = Some s' -> Inv c0 s -> Inv c0 s'.
Proof.
  intros Hs [H1 H2 H3 H4]. destruct e as [j|pid d|pid|dt]; cbn [UsersFile.step] in Hs.
  - injection Hs as <-. split; cbn [disk jobs]; [| | done |].
    + intros pid j0 p Hp. apply lookup_app_Some in Hp as [Hp|[Hle Hp]]; [by eapply H1|].
      apply list_lookup_singleton_Some in Hp as [Hz [= <- <-]].
      assert (Hpid : pid = length (jobs s)) by lia.
      exists (mkLocal None (clock (disk s)) [] []). split; [by apply wp_prog|]. split; [|constructor].
      split_and!; cbn; [|lia|].
      * intros Hl%H2. lia.
      * symmetry. apply (mine_none _ _ (fun _ => True)). eapply Forall_impl; [exact H4|].
        intros [[q c] f] (j1 & o1 & Hq & _) ->. apply lookup_lt_Some in Hq. lia.
    + intros pid Hl%H2. rewrite length_app. lia.
    + eapply log_mono; [|exact H4]. intros pid j0 o Hp. exists o. by apply lookup_app_l_Some.
  - destruct (jobs s !! pid) as [[j [p|]]|] eqn:Ej; [|done..].
    destruct (call pid d (disk s) p) as [[w' p']|] eqn:Ec; cbn in Hs; [|done]. injection Hs as <-.
    destruct (H1 _ _ _ Ej) as (L & Hwp & Ha).
    destruct (call_ok _ _ _ _ _ _ _ _ _ Ec Hwp Ha) as (L' & Hwp' & Ha' & Hu & He).
    pose proof (lookup_lt_Some _ _ _ Ej) as Hlt. split; cbn [disk jobs].
    + intros q j0 p0 Hq. destruct (decide (q = pid)) as [->|Hne].
      * rewrite list_lookup_insert_eq in Hq by done. injection Hq as <- <-. by exists L'.
      * rewrite list_lookup_insert_ne in Hq by congruence. destruct (H1 _ _ _ Hq) as (L0 & HL0 & Ha0).
        exists L0. split; [done|]. by eapply (undisturbed_agrees _ _ _ _ _ pid).
    + intros q Hq. rewrite length_insert. destruct (decide (q = pid)) as [->|Hne]; [done|].
      destruct Hu as [_ Hu]. apply H2. by apply (Hu q Hne).
    + destruct He as [[-> ->]|(f & _ & -> & ->)]; [done | by apply updates_snoc].
    + apply (log_mono _ (jobs s)); [by eapply update_jobs|].
      destruct He as [[-> _]|(f & Hp & -> & _)]; [done|]. apply Forall_app. split; [done|].
      constructor; [|constructor]. by exists j, (Some p).
  - destruct (jobs s !! pid) as [[j [p|]]|] eqn:Ej; [|done..]. injection Hs as <-.
    pose proof (lookup_lt_Some _ _ _ Ej) as Hlt.
    set (w' := if bool_decide (lock (disk s) = Some pid) then set_lock None (disk s) else disk s).
    assert (Hw : log w' = log (disk s) /\ target w' = target (disk s) /\ undisturbed pid (disk s) w').
    { unfold w'. case_bool_decide as El; (split; [done|]; split; [done|]); [|apply (still pid (fun _ _ => True))].
      split; [cbn; lia|]. intros q Hq. cbn. rewrite El. repeat split; congruence. }
    destruct Hw as (Hl & Ht & Hu). split; cbn [disk jobs].
    + intros q j0 p0 Hq. destruct (decide (q = pid)) as [->|Hne].
      * by rewrite list_lookup_insert_eq in Hq by done.
      * rewrite list_lookup_insert_ne in Hq by congruence. destruct (H1 _ _ _ Hq) as (L0 & HL0 & Ha0).
        exists L0. split; [done|]. apply (undisturbed_agrees (fun _ _ => True) q (disk s) w' L0 pid); try done. by left.
    + intros q Hq. rewrite length_insert. destruct (decide (q = pid)) as [->|Hne]; [done|].
      destruct Hu as [_ Hu]. apply H2. by apply (Hu q Hne).
    + by rewrite Hl, Ht.
    + rewrite Hl. apply (log_mono _ (jobs s)); [by eapply update_jobs | done].
  - destruct (0 <=? dt) eqn:E; [|done]. zify_bools. injection Hs as <-. split; [|done..]. cbn [disk jobs].
    intros q j0 p0 Hq. destruct (H1 _ _ _ Hq) as (L0 & HL0 & (Hh & Hsince & Hp) & Hseen). exists L0. split; [done|].
    split; [split_and!; [done | cbn; lia | done] | exact Hseen].
Qed.

Lemma run_ind (P : Sys -> Prop) es : forall s, (forall s e s', P s -> step s e = Some s' -> P s') ->
  P s -> P (run es s).
Proof.
  induction es as [|e es IH]; intros s Hs HP; [done|]. apply IH; [done|].
  destruct (step s e) eqn:E; [by eapply Hs | done].
Qed.

Lemma run_Inv es c t : Inv c (run es (boot c t)).
Proof. apply run_ind; [|apply Inv_boot]. intros. by eapply step_Inv. Qed.

(** *** Counting calls *)

(** The calls of [pid] that a run makes. *)
Fixpoint taken (pid : nat) (es : list Event) (s : Sys) : nat :=
  match es with
  | [] => 0
  | e :: es' =>
      match step s e with
      | Some s' => (match e with Run q _ => if (q =? pid)%nat then 1 else 0 | _ => 0 end + taken pid es' s')%nat
      | None => taken pid es' s
      end
  end.

(** What is left of [pid]'s budget. *)
Definition budget (pid n : nat) (s : Sys) : Prop :=
  match jobs s !! pid with
  | Some (_, Some p) => within n p
  | Some (_, None) => True
  | None => n = CALLS
  end.

Lemma step_budget pid n s e s' : step s e = Some s' -> budget pid n s ->
  match e with
  | Run q _ => if (q =? pid)%nat then (0 < n)%nat /\ budget pid (pred n) s' else budget pid n s'
  | _ => budget pid n s'
  end.
Proof.
  intros Hs Hb. unfold budget in *. destruct e as [j|q d|q|dt]; cbn [UsersFile.step] in Hs.
  - injection Hs as <-. cbn [jobs]. destruct (jobs s !! pid) as [[j0 o]|] eqn:E.
    + by rewrite (lookup_app_l_Some _ _ _ _ E).
    + subst n. apply lookup_ge_None in E. rewrite lookup_app_r by done.
      destruct (pid - length (jobs s))%nat; [apply prog_within | done].
  - destruct (jobs s !! q) as [[j [p|]]|] eqn:Ej; [|done..].
    destruct (call q d (disk s) p) as [[w' p']|] eqn:Ec; cbn in Hs; [|done]. injection Hs as <-. cbn [jobs].
    destruct (Nat.eqb_spec q pid) as [->|Hne]; [|by rewrite list_lookup_insert_ne].
    rewrite Ej in Hb. rewrite list_lookup_insert_eq by (by eapply lookup_lt_Some). by eapply call_within.
  - destruct (jobs s !! q) as [[j [p|]]|] eqn:Ej; [|done..]. injection Hs as <-. cbn [jobs].
    destruct (decide (q = pid)) as [->|Hne]; [|by rewrite list_lookup_insert_ne].
    by rewrite list_lookup_insert_eq by (by eapply lookup_lt_Some).
  - destruct (0 <=? dt); [|done]. by injection Hs as <-.
Qed.

Lemma taken_budget pid es : forall n s, budget pid n s -> (taken pid es s <= n)%nat.
Proof.
  induction es as [|e es IH]; intros n s Hb; cbn [taken]; [lia|].
  destruct (step s e) as [s'|] eqn:Es; [|by apply IH].
  pose proof (step_budget _ _ _ _ _ Es Hb) as H. destruct e as [j|q d|q|dt]; [by apply IH| |by apply IH..].
  destruct (q =? pid)%nat; [|by apply IH]. destruct H as [H0 H]. apply IH in H. lia.
Qed.

(** *** Updates that keep a property of the list *)

(** Every update a job makes keeps [P]. *)
Definition keeps_valid (P : UsersConfig -> Prop) (j : Job) : Prop :=
  match j with
  | JClaim n h fb =>
      (forall us us', P us -> update_first n (set_hash h) us = Some us' -> P us') /\
      (forall us, fb = Some us -> P us)
  | JCommit op => forall us us', P us -> apply_op op us = Ok us' -> P us'
  | JInit => P Users.UsersConfig_default
  end.

Definition valid_file (P : UsersConfig -> Prop) (c : option File) : Prop :=
  forall f, c = Some f -> exists us, from_str (data f) = Some us /\ P us.

Section Valid.
Context (P : UsersConfig -> Prop).
Context (Hcodec : forall us text, to_string us = Some text -> from_str text = Some us).

Lemma replacement_valid c us f : replacement to_string c us f -> P us -> valid_file P (Some f).
Proof. intros [Ht _] HP f' [= <-]. exists us. split; [by apply Hcodec | done]. Qed.

Lemma permits_valid j c f : keeps_valid P j -> permits j c f -> valid_file P c -> valid_file P (Some f).
Proof.
  intros Hk Hp Hc.
  assert (Hget : forall fc us, c = Some fc -> from_str (data fc) = Some us -> P us).
  { intros fc us E Hf. destruct (Hc fc E) as (us0 & Hf0 & HP). congruence. }
  destruct j as [n h fb|op|]; cbn in Hk, Hp.
  - destruct Hk as [Hk1 Hk2]. destruct c as [fc|].
    + destruct Hp as (us & u & us' & Hf & _ & _ & Hu & Hrep). eapply replacement_valid; [done|].
      by apply (Hk1 us); [eapply Hget|].
    + destruct Hp as (us & -> & Hrep). eapply replacement_valid; [done|]. by apply Hk2.
  - destruct Hp as (fc & us & us' & -> & Hf & Hu & Hrep). eapply replacement_valid; [done|].
    by apply (Hk us); [eapply Hget|].
  - destruct Hp as [-> Hrep]. by eapply replacement_valid.
Qed.

Lemma chain_valid (js : list (Job * option (Fs Answer))) l : forall c c', Forall (fun jo => keeps_valid P jo.1) js ->
  Forall (fun '(pid, c, f) => exists j o, js !! pid = Some (j, o) /\ permits j c f) l ->
  chain c l c' -> valid_file P c -> valid_file P c'.
Proof.
  intros c c' Hj Hl. revert c. induction Hl as [|[[pid a] f] l (j & o & Hpid & Hp) _ IH]; intros c; cbn.
  - by intros ->.
  - intros [-> Hch] Hc. apply (IH (Some f)); [done|]. apply (permits_valid j c); [|done|done].
    by apply (Forall_lookup_1 _ _ _ _ Hj) in Hpid.
Qed.
End Valid.

Lemma call_log {A} pid d w w' (p p' : Fs A) : call pid d w p = Some (w', p') ->
  (log w' = log w /\ target w' = target w) \/ exists f, w' = publish pid f w.
Proof.
  destruct p; cbn [call]; intros H; try done;
    repeat match type of H with context [match ?x with _ => _ end] => destruct x end;
    simplify_eq; try (by left); right; eauto.
Qed.

(** What the target has held stays so. *)
Lemma step_past s e s' c : step s e = Some s' -> past (disk s) c -> past (disk s') c.
Proof.
  destruct e as [j|pid d|pid|dt]; cbn [UsersFile.step]; intros Hs Hc.
  - by injection Hs as <-.
  - destruct (jobs s !! pid) as [[j [p|]]|]; [|done..].
    destruct (call pid d (disk s) p) as [[w' p']|] eqn:Ec; cbn in Hs; [|done]. injection Hs as <-. cbn [disk].
    apply call_log in Ec as [[Hl Ht]|[f ->]].
    + unfold past in *. by rewrite Hl, Ht.
    + apply (effect_past (fun _ _ => True) pid (disk s)); [|done]. right. by exists f.
  - destruct (jobs s !! pid) as [[j [p|]]|]; [|done..]. injection Hs as <-. cbn [disk]. by case_bool_decide.
  - destruct (0 <=? dt); [|done]. by injection Hs as <-.
Qed.

(** A replacement is, or has been, the content of the file. *)
Lemma chain_past c0 l c' pid a f : chain c0 l c' -> (pid, a, f) ∈ l ->
  c' = Some f \/ exists q g, (q, Some f, g) ∈ l.
Proof.
  revert c0. induction l as [|[[q b] g] l IH]; intros c0; cbn; [by intros _ ?%elem_of_nil|].
  intros [-> Hch] [[= -> -> ->]|Hin]%elem_of_cons.
  - destruct l as [|[[q' b'] g'] l]; cbn in Hch; [by left|]. destruct Hch as [-> _].
    right. exists q', g'. right. by left.
  - destruct (IH _ Hch Hin) as [|(q' & g' & H)]; [by left|]. right. exists q', g'. by right.
Qed.

Lemma Inv_past c s pid a f : Inv c s -> (pid, a, f) ∈ log (disk s) -> past (disk s) (Some f).
Proof. intros [_ _ Hch _] Hin. by destruct (chain_past _ _ _ _ _ _ Hch Hin) as [|]; [left|right]. Qed.

(** What every answer reported so far stands for. *)
Lemma Inv_told c s pid j a : Inv c s -> jobs s !! pid = Some (j, Some (Ret a)) ->
  exists reads, told j a (mine pid (log (disk s))) reads /\ Forall (past (disk s)) reads.
Proof.
  intros [H1 _ _ _] H. destruct (H1 _ _ _ H) as (L & [_ Ht] & (_ & _ & Hp) & Hs). exists (seen L). by rewrite <- Hp.
Qed.

(** ** Theorems *)

(** C22: However any number of claims, commands and initialisations interleave, fail and
    crash, the contents of the users file are at every moment the result of applying
    whole updates one after the other: each replacement was made of exactly what the
    previous one left (nothing is lost) by a routine applying its own update to it, with
    the permission bits kept, and no partial content is ever visible. *)
Theorem users_file_updates es c t :
  let s := run es (boot c t) in
  chain c (log (disk s)) (target (disk s)) /\
  Forall (fun '(pid, old, new) => exists j o, jobs s !! pid = Some (j, o) /\ permits j old new) (log (disk s)).
Proof. destruct (run_Inv es c t). by split. Qed.

(** C33: What a routine answers is what it did. A claim or a command that succeeds replaced
    the file once; a first run that succeeds either replaced nothing and gives what it
    read in the file, or created the file, once, and gives the defaults. A failure means
    that the file was not touched, with one exception: when the directory cannot be synced
    after the rename, the replacement has landed, once, though a failure is reported. A
    claim that reports another hash changed nothing, and that hash, not the placeholder,
    is the account's in a content that was read. What was read the file has held; and the
    lock loop never runs out of attempts before its deadline. *)
Theorem users_file_outcomes es c t pid j a :
  jobs (run es (boot c t)) !! pid = Some (j, Some (Ret a)) ->
  exists reads, told j a (mine pid (log (disk (run es (boot c t))))) reads /\
    Forall (past (disk (run es (boot c t)))) reads.
Proof. intros H. eapply Inv_told; [apply run_Inv | exact H]. Qed.

(** A property of users lists that every update preserves (distinct valid names, say)
    holds of the file, which always parses, at every moment of every interleaving. *)
Theorem users_file_valid (P : UsersConfig -> Prop) es c t
    (Hcodec : forall us text, to_string us = Some text -> from_str text = Some us) :
  valid_file P c -> Forall (fun jo => keeps_valid P jo.1) (jobs (run es (boot c t))) ->
  valid_file P (target (disk (run es (boot c t)))).
Proof.
  intros Hc Hj. destruct (run_Inv es c t) as [_ _ Hch Hlog].
  apply (chain_valid P Hcodec (jobs (run es (boot c t))) (log (disk (run es (boot c t)))) c); done.
Qed.

(** Every routine finishes: whatever else happens, it makes at most [CALLS] calls
    (the lock is polled until its ten seconds are over), and until it has answered it can
    always make the next one, if only after sleeping. *)
Theorem users_file_finishes es c t pid :
  (taken pid es (boot c t) <= CALLS)%nat /\
  forall j p, jobs (run es (boot c t)) !! pid = Some (j, Some p) -> (forall a, p <> Ret a) ->
    exists dt, forall d, is_Some (step (default (boot c t) (step (run es (boot c t)) (Tick dt))) (Run pid d)).
Proof.
  split; [by apply taken_budget|]. intros j p Hj Hp.
  set (s := run es (boot c t)) in *. destruct (call_enabled pid (disk s) p Hp) as (dt & Hdt & H). exists dt.
  intros d. cbn [UsersFile.step]. rewrite (proj2 (Z.leb_le 0 dt)) by done. cbn [default from_option id jobs disk].
  rewrite Hj. destruct (H d) as [[w p'] ->]. by eexists.
Qed.

End Reachable.

(** ** A concrete world *)

#[local] Existing Instance Users.User_eq_dec.

(** A codec of two lists. *)
Definition toy_to_string (us : UsersConfig) : option bytes :=
  if bool_decide (us = []) then Some [] else if bool_decide (us = [Users.carol]) then Some (lit "1") else None.
Definition toy_from_str (b : bytes) : option UsersConfig :=
  if bool_decide (b = []) then Some [] else if bool_decide (b = lit "1") then Some [Users.carol] else None.

Lemma toy_codec us text : toy_to_string us = Some text -> toy_from_str text = Some us.
Proof.
  unfold toy_to_string. case_bool_decide; [intros [= <-]; by subst|].
  case_bool_decide; [intros [= <-]; by subst | done].
Qed.

Definition toy_start : option File := Some (mkFile 420 []).
(** A command that is given every call, and a second one that fails while it holds the lock. *)
Definition toy_events : list Event :=
  Start (JCommit (Users.Add Users.carol)) :: Start (JCommit (Users.Add Users.carol)) ::
  replicate 4 (Run 0 Works) ++ replicate 3 (Run 1 Works) ++ replicate 9 (Run 0 Works) ++
  [Tick LOCK_POLL; Run 1 Works].
Notation toy_run := (run toy_to_string toy_from_str toy_events (boot toy_start None)).

Example toy_result :
  target (disk toy_run) = Some (mkFile 420 (lit "1")) /\
  fst <$> jobs toy_run !! 0%nat = Some (JCommit (Users.Add Users.carol)) /\
  log (disk toy_run) = [(0%nat, toy_start, mkFile 420 (lit "1"))].
Proof. vm_compute. repeat split. Qed.

(** A crash between the creation and the rename leaves a temporary file, which the next
    writer refuses to touch. *)
Example crash_leaves_tmp :
  let es := Start (JCommit (Users.Add Users.carol)) :: replicate 8 (Run 0 Works) ++ [Crash 0] ++
    [Start (JCommit (Users.Add Users.carol))] ++ replicate 20 (Run 1 Works) in
  let s := run toy_to_string toy_from_str es (boot toy_start None) in
  target (disk s) = toy_start /\ tmp (disk s) = Some (mkFile 420 []) /\ lock (disk s) = None /\
  jobs s !! 1%nat = Some (JCommit (Users.Add Users.carol), Some (Ret (ACommit (Err (CommitWrite CreateFailed))))).
Proof. vm_compute. repeat split. Qed.

Lemma users_file_outcomes_witness :
  jobs toy_run !! 0%nat = Some (JCommit (Users.Add Users.carol), Some (Ret (ACommit (Ok tt)))) /\
  exists reads, told toy_from_str (JCommit (Users.Add Users.carol)) (ACommit (Ok tt)) (mine 0 (log (disk toy_run))) reads /\
    Forall (past (disk toy_run)) reads.
Proof.
  assert (H : jobs toy_run !! 0%nat = Some (JCommit (Users.Add Users.carol), Some (Ret (ACommit (Ok tt)))))
    by (vm_compute; reflexivity).
  split; [exact H|].
  exact (users_file_outcomes toy_to_string toy_from_str toy_events toy_start None 0 _ _ H).
Defined.

Lemma users_file_valid_witness :
  valid_file toy_from_str Users.accounts_wf toy_start /\
  valid_file toy_from_str Users.accounts_wf (target (disk toy_run)).
Proof.
  assert (Hs : valid_file toy_from_str Users.accounts_wf toy_start).
  { intros f E. injection E as <-. exists []. split; [reflexivity|]. split; constructor. }
  split; [exact Hs|].
  apply (users_file_valid toy_to_string toy_from_str Users.accounts_wf toy_events toy_start None toy_codec Hs).
  assert (Hk : keeps_valid Users.accounts_wf (JCommit (Users.Add Users.carol))).
  { intros us us' Hwf H. cbn [apply_op] in H.
    destruct (Users.any_name (name Users.carol) us) eqn:E; [discriminate H|]. injection H as <-.
    apply Users.added_wf; [exact Hwf | exact E |]. apply Users.validate_name_Ok. reflexivity. }
  assert (Hjs : map fst (jobs toy_run) = [JCommit (Users.Add Users.carol); JCommit (Users.Add Users.carol)])
    by (vm_compute; reflexivity).
  revert Hjs. generalize (jobs toy_run). intros js Hjs.
  destruct js as [|[j0 o0] [|[j1 o1] [|]]]; try discriminate Hjs. injection Hjs as -> ->.
  apply Forall_cons. split; [exact Hk|]. apply Forall_cons. split; [exact Hk | apply Forall_nil; exact I].
Defined.

End UsersFile.
