(* ===== verification/Alone.v ===== *)
(** Programs of system calls run alone: what a routine over a configuration file leaves when
    no other process touches the directory, every call succeeding or failing as the
    environment decides and the process dying at any point.

    - [exec]: a run, under a list of decisions;
    - [runs]: what holds of the disk whenever a program stops, and of its answer when it
      ends, with a rule per kind of step;
    - [runs_write_atomic]: the atomic write, for any type of configuration. *)
From S2P Require Import Prelude Text UsersFile.

Module Alone.
Import UsersFile(File, mkFile, mode, Fs, Ret, fs_bind, Disk, Decision, Works, works, call, target, tmp, data,
                 PRIVATE_MODE, WriteError, write_atomic).

(** The calls of a program by the only process there is, as long as the environment
    lets it run. *)
Fixpoint exec {A} (ds : list Decision) (w : Disk) (p : Fs A) : Disk * Fs A :=
  match ds with
  | [] => (w, p)
  | d :: ds' =>
      match call 0 d w p with
      | Some (w', p') => exec ds' w' p'
      | None => (w, p)
      end
  end.

Lemma exec_ret {A} ds w (a : A) : exec ds w (Ret a) = (w, Ret a).
Proof. by destruct ds. Qed.

Lemma exec_cons {A} d ds w (p : Fs A) :
  exec (d :: ds) w p = match call 0 d w p with Some (w', p') => exec ds w' p' | None => (w, p) end.
Proof. done. Qed.

(** Wherever [p] stops, [I] holds of the disk; when it ends, [Q] of its answer. *)
Definition runs {A} (I : Disk -> Prop) (Q : A -> Disk -> Prop) (p : Fs A) (w : Disk) : Prop :=
  forall ds w' p', exec ds w p = (w', p') -> I w' /\ forall a, p' = Ret a -> Q a w'.

(** ** Rules *)

Section Rules.
Context {A : Type} (I : Disk -> Prop) (Q : A -> Disk -> Prop).

Lemma runs_ret a w : I w -> Q a w -> runs I Q (Ret a) w.
Proof. intros Hi Hq ds w' p'. rewrite exec_ret. intros [= <- <-]. split; [done|]. by intros a' [= ->]. Qed.

Lemma runs_call p w : I w -> (forall a, p <> Ret a) ->
  (forall d w1 p1, call 0 d w p = Some (w1, p1) -> runs I Q p1 w1) -> runs I Q p w.
Proof.
  intros Hi Hp Hc [|d ds] w' p'; cbn [exec].
  - intros [= <- <-]. split; [done|]. intros a Ha. by destruct (Hp a).
  - destruct (call 0 d w p) as [[w1 p1]|] eqn:E; [by apply (Hc d)|].
    intros [= <- <-]. split; [done|]. intros a Ha. by destruct (Hp a).
Qed.
End Rules.

Lemma call_bind {A B} (f : A -> Fs B) d w (p : Fs A) : (forall a, p <> Ret a) ->
  call 0 d w (fs_bind f p) = (fun x => (x.1, fs_bind f x.2)) <$> call 0 d w p.
Proof.
  intros Hp. destruct p; [by destruct (Hp a)|..]; cbn; repeat case_match; done.
Qed.

(** A run of a sequence is a run of its first part, then of the rest. *)
Lemma exec_bind {A B} (f : A -> Fs B) ds : forall w (p : Fs A) w' p', exec ds w (fs_bind f p) = (w', p') ->
  (exists p1, exec ds w p = (w', p1) /\ p' = fs_bind f p1 /\ forall a, p1 <> Ret a) \/
  (exists ds1 ds2 w1 a, ds = ds1 ++ ds2 /\ exec ds1 w p = (w1, Ret a) /\ exec ds2 w1 (f a) = (w', p')).
Proof.
  assert (Hret : forall ds w (a : A) w' p', exec ds w (f a) = (w', p') ->
    exists ds1 ds2 w1 a', ds = ds1 ++ ds2 /\ exec ds1 w (Ret a) = (w1, Ret a') /\ exec ds2 w1 (f a') = (w', p')).
  { intros ds0 w a w' p' He. by exists [], ds0, w, a. }
  induction ds as [|d ds IH]; intros w p w' p' He.
  - destruct p; [right; by apply Hret|..]; left; injection He as <- <-; eexists; (split; [done|]); split; try done.
  - destruct (match p with Ret _ => true | _ => false end) eqn:Er.
    { destruct p; try discriminate. right. by apply Hret. }
    assert (Hp : forall a, p <> Ret a) by (intros a ->; discriminate).
    rewrite exec_cons, call_bind in He by done. rewrite exec_cons.
    destruct (call 0 d w p) as [[w1 p1]|] eqn:Ec; cbn in He.
    + destruct (IH _ _ _ _ He) as [?|(ds1 & ds2 & w2 & a & -> & H1 & H2)]; [by left|].
      right. exists (d :: ds1), ds2, w2, a. split; [done|]. rewrite exec_cons, Ec. done.
    + left. injection He as <- <-. by exists p.
Qed.

Lemma runs_bind {A B} I (Q : B -> Disk -> Prop) (f : A -> Fs B) p w :
  runs I (fun a w' => runs I Q (f a) w') p w -> runs I Q (fs_bind f p) w.
Proof.
  intros Hr ds w' p' He. destruct (exec_bind f ds w p w' p' He) as [(p1 & H1 & -> & Hp)|(ds1 & ds2 & w1 & a & -> & H1 & H2)].
  - destruct (Hr _ _ _ H1) as [Hi _]. split; [done|]. intros b Hb. exfalso. destruct p1; try discriminate. by eapply Hp.
  - destruct (Hr _ _ _ H1) as [_ Hq]. by eapply (Hq a).
Qed.

Lemma runs_weaken {A} (I J : Disk -> Prop) (Q R : A -> Disk -> Prop) p w :
  runs I Q p w -> (forall w', I w' -> J w') -> (forall a w', I w' -> Q a w' -> R a w') -> runs J R p w.
Proof. intros Hr HI HQ ds w' p' He. destruct (Hr ds w' p' He) as [Hi Hq]. split; [by apply HI|]. intros a ->. by apply HQ, Hq. Qed.

(** One call whose answers are gone through. *)
Ltac one_call := apply runs_call; [|discriminate|]; [|let d := fresh "d" in intros d ? ?; cbn [call]].

(** ** The atomic write *)

Section Write.
Context {C : Type} (to_string : C -> option bytes).

(** The file a write of [c] leaves in the place of [old]. *)
Definition written (c : C) (old t : option File) : Prop :=
  exists f, t = Some f /\ to_string c = Some (data f) /\ mode f = default PRIVATE_MODE (mode <$> old).

(** The file is what it was, or replaced by the whole of the new one. *)
Definition kept_or_written (c : C) (w w' : Disk) : Prop := target w' = target w \/ written c (target w) (target w').

Definition write_post (c : C) (w : Disk) (r : result WriteError unit) (w' : Disk) : Prop :=
  match r with
  | Ok _ | Err UsersFile.SyncAfterReplaceFailed => written c (target w) (target w')
  | Err _ => target w' = target w
  end.

Lemma runs_remove c w w1 e : e <> UsersFile.SyncAfterReplaceFailed -> target w1 = target w ->
  runs (kept_or_written c w) (write_post c w) (UsersFile.RemoveTmp (Ret (Err e))) w1.
Proof.
  intros He Ht. one_call; [by left|]. destruct (works d); intros [= <- <-]; (apply runs_ret; [by left|]); by destruct e.
Qed.

Lemma runs_commit c w w1 f : target w1 = target w -> tmp w1 = Some f -> written c (target w) (Some f) ->
  runs (kept_or_written c w) (write_post c w) UsersFile.commit w1.
Proof.
  intros Ht Htmp Hw. unfold UsersFile.commit. one_call; [by left|]. rewrite Htmp. destruct (works d); intros [= <- <-]; cbn [negb].
  - one_call; [by right|]. intros [= <- <-]. apply runs_ret; [by right|]. by destruct (works d0).
  - by apply runs_remove.
Qed.

Lemma runs_write_atomic c w :
  runs (kept_or_written c w) (write_post c w) (write_atomic to_string c) w.
Proof.
  unfold write_atomic. destruct (to_string c) as [text|] eqn:Et; [|by apply runs_ret; [left|]].
  one_call; [by left|]. destruct (works d); intros [= <- <-]; [|by apply runs_ret; [left|]].
  one_call; [by left|]. destruct (tmp w) as [t|]; [intros [= <- <-]; by apply runs_ret; [left|]|].
  destruct (works d0); intros [= <- <-]; cbn [negb]; [|by apply runs_ret; [left|]].
  assert (Hwr : forall m w1, tmp w1 = Some (mkFile m []) -> m = default PRIVATE_MODE (mode <$> target w) -> target w1 = target w ->
    runs (kept_or_written c w) (write_post c w)
      (fs_bind (fun wr => match wr with Ok _ => UsersFile.commit | Err e => UsersFile.RemoveTmp (Ret (Err e)) end)
        (UsersFile.WriteTmp text (fun ok => if negb ok then Ret (Err UsersFile.WriteFailed)
           else UsersFile.SyncTmp (fun ok => Ret (if ok then Ok tt else Err UsersFile.FlushFailed))))) w1).
  { intros m w1 Htmp Hm Ht. cbn [fs_bind]. one_call; [by left|]. rewrite Htmp.
    destruct d1 as [| |k]; intros [= <- <-]; cbn [negb fs_bind]; try by apply runs_remove.
    one_call; [by left|]. destruct (works d1); intros [= <- <-]; cbn [fs_bind]; [|by apply runs_remove].
    eapply runs_commit; [done | done|]. by eexists. }
  destruct (mode <$> target w) as [m|] eqn:Em; cbn [UsersFile.write_tmp mbind UsersFile.fs_mbind fs_bind].
  - one_call; [by left|]. cbn [tmp UsersFile.set_tmp]. destruct (works d1); intros [= <- <-]; cbn [negb fs_bind].
    + by eapply Hwr.
    + by apply runs_remove.
  - by eapply Hwr.
Qed.

Lemma written_data c old t : written c old t -> exists text, to_string c = Some text /\ data <$> t = Some text.
Proof. intros (f & -> & Ht & _). by exists (data f). Qed.
End Write.

(** ** Reading *)

Lemma runs_from_file {C} (from_str : bytes -> option C) I (Q : option C -> Disk -> Prop) w : I w ->
  Q None w -> Q (f ← target w; from_str (data f)) w -> runs I Q (UsersFile.from_file from_str) w.
Proof.
  intros Hi H1 H2. one_call; [done|]. intros [= <- <-]. apply runs_ret; [done|].
  destruct (works d); [|done]. by destruct (target w).
Qed.
End Alone.
