(* ===== verification/Auth.v ===== *)
(** The server's authentication state
    (src/crates/resocks5/src/auth/state/): the startup snapshot of the users, the
    verify-cache, and the init-claim of an account whose password is still to be chosen.

    Logins run as threads over the shared state, one event per shared access, together
    with the users file of [UsersFile], where the claims persist. Argon2 and HMAC are
    parameters. *)
From S2P Require Import Prelude Text Clients Users UsersFile.

Module Auth.
Import Users(User, INIT_HASH, name, hash, is_enabled, direct, allowed_clients, set_hash).
#[local] Notation UsersConfig := (list User).
Import UsersFile(ClaimPersist, Written, DiskHashChanged, Failed).

(** ** The state *)

Record UserEntry := mkEntry {
  index : nat; enabled : bool; edirect : bool; allowed : option Clients.AllowedClients
}.

(** [AuthState]. A gate is held by a login, and so is the claim mutex; the semaphores
    count their free permits. *)
Record AuthState := mkAuth {
  users : list User;
  claim_lock : option nat;
  entries : gmap bytes UserEntry;
  verify_slots : nat;
  claim_slots : nat;
  claim_gates : gmap bytes nat;
  allow_anonymous : bool;
  server_secret : bytes;
  cache : gmap bytes bytes
}.

Inductive BuildError := NoRandom | BadAllowedClients (n : bytes) (e : Clients.Error).

(** The entries, first occurrence of a name winning; every rule is compiled. *)
Fixpoint build_entries (i : nat) (us : list User) (acc : gmap bytes UserEntry)
    : result BuildError (gmap bytes UserEntry) :=
  match us with
  | [] => Ok acc
  | user :: us' =>
      rule ← match allowed_clients user with
             | Some spec =>
                 c ← map_err (BadAllowedClients (name user)) (Clients.compile_allowed_clients spec); Ok (Some c)
             | None => Ok None
             end;
      let e := mkEntry i (is_enabled user) (direct user) rule in
      build_entries (S i) us' (match acc !! name user with Some _ => acc | None => <[name user := e]> acc end)
  end.

Definition CLAIM_SLOTS : nat := 2.

(** [random]: the secret drawn, [parallelism]: the available parallelism. *)
Definition build (allow_anon : bool) (us : UsersConfig) (random : option bytes) (parallelism : option nat)
    : result BuildError AuthState :=
  secret ← ok_or NoRandom random;
  es ← build_entries 0 us ∅;
  let workers := match parallelism with Some n => Nat.min n 4 | None => 1%nat end in
  Ok (mkAuth us None es workers CLAIM_SLOTS ∅ allow_anon secret ∅).

Definition is_empty (s : AuthState) : bool := bool_decide (entries s = ∅).
Definition users_count (s : AuthState) : nat := size (entries s).

Definition client_ip_allowed (s : AuthState) (n : bytes) (ip : option Clients.IpAddr) : bool :=
  match ip with
  | None => false
  | Some ip =>
      match entries s !! n with
      | Some u => enabled u && match allowed u with Some r => Clients.matches r ip | None => true end
      | None => false
      end
  end.

Definition is_direct (s : AuthState) (n : bytes) : bool :=
  match entries s !! n with Some u => enabled u && edirect u | None => false end.

(** ** Field updates *)

Definition set_users (us : list User) (s : AuthState) : AuthState :=
  mkAuth us (claim_lock s) (entries s) (verify_slots s) (claim_slots s) (claim_gates s)
    (allow_anonymous s) (server_secret s) (cache s).
Definition set_claim_lock (l : option nat) (s : AuthState) : AuthState :=
  mkAuth (users s) l (entries s) (verify_slots s) (claim_slots s) (claim_gates s)
    (allow_anonymous s) (server_secret s) (cache s).
Definition set_verify_slots (n : nat) (s : AuthState) : AuthState :=
  mkAuth (users s) (claim_lock s) (entries s) n (claim_slots s) (claim_gates s)
    (allow_anonymous s) (server_secret s) (cache s).
Definition set_claim_slots (n : nat) (s : AuthState) : AuthState :=
  mkAuth (users s) (claim_lock s) (entries s) (verify_slots s) n (claim_gates s)
    (allow_anonymous s) (server_secret s) (cache s).
Definition set_claim_gates (g : gmap bytes nat) (s : AuthState) : AuthState :=
  mkAuth (users s) (claim_lock s) (entries s) (verify_slots s) (claim_slots s) g
    (allow_anonymous s) (server_secret s) (cache s).
Definition cache_insert (n m : bytes) (s : AuthState) : AuthState :=
  mkAuth (users s) (claim_lock s) (entries s) (verify_slots s) (claim_slots s) (claim_gates s)
    (allow_anonymous s) (server_secret s) (<[n := m]> (cache s)).

(** [users[idx].hash = h]. *)
Definition assign_hash (i : nat) (h : bytes) (us : list User) : list User := alter (set_hash h) i us.
Definition publish_hash (i : nat) (h : bytes) (s : AuthState) : AuthState :=
  set_users (assign_hash i h (users s)) s.

(** [users[idx].hash]; the index comes from the entries. *)
Definition stored_hash (i : nat) (s : AuthState) : bytes :=
  match users s !! i with Some u => hash u | None => INIT_HASH end.
Definition claimed_hash_if_any (i : nat) (s : AuthState) : option bytes :=
  let h := stored_hash i s in if bool_decide (h = INIT_HASH) then None else Some h.

(** ** A login *)

Record ClaimWork := mkWork { wname : bytes; candidate_hmac : bytes; windex : nat; new_hash : bytes }.

(** Where a login is: an await of its future ([Wait*]), or inside a blocking closure. *)
Inductive Pc :=
| Enter                                                       (* verify_async, before any await *)
| WaitVerify1                                                 (* verify_slots, phase 1 *)
| Prepare | ReadHash | PrepareClaim | CheckClaimed (nh : bytes) | Verify1 (h : bytes)
| WaitGate (w : ClaimWork)                                    (* the account's gate *)
| GateCheck (w : ClaimWork)
| WaitClaimSlot (w : ClaimWork)                               (* claim_slots; the frame holds the gate *)
| CommitWait (w : ClaimWork) | CommitCheck (w : ClaimWork) | CommitExists (w : ClaimWork)
| CommitStart (w : ClaimWork) (fallback : option UsersConfig)
| CommitPersist (w : ClaimWork) (pid : nat)
| CommitCache (w : ClaimWork)
| WaitVerify2 (h : bytes)                                     (* verify_slots, phase 3 *)
| Verify2 (h : bytes)
| Done (ok : bool)
| Gone.                                                       (* the future was dropped *)

Record Login := mkLogin { lname : bytes; lpassword : bytes; pc : Pc; cancelled : bool }.

(** The server, its logins, and the users file. *)
Record World := mkWorld { auth : AuthState; logins : list Login; file : UsersFile.Sys }.

Inductive Event :=
| Arrive (n p : bytes)
| Go (tid : nat) (salt : bytes)
| Cancel (tid : nat)
| OnDisk (e : UsersFile.Event).

Section Logins.
Context (to_string : UsersConfig -> option bytes) (from_str : bytes -> option UsersConfig).
(** [argon2_instance().hash_password] over a salt, and [argon2_verify]: the stored text
    parses and the password matches it. *)
Context (compute_hash : bytes -> bytes -> option bytes) (argon2_verify : bytes -> bytes -> bool).
(** HMAC-SHA256 of a key and a message. *)
Context (hmac : bytes -> bytes -> bytes).

Definition compute_cache_hmac (secret n p : bytes) : bytes := hmac secret (n ++ [byte_of 0] ++ p).
Definition candidate (s : AuthState) (n p : bytes) : bytes := compute_cache_hmac (server_secret s) n p.

Definition cache_matches (n m : bytes) (s : AuthState) : bool :=
  match cache s !! n with Some c => bool_decide (c = m) | None => false end.

Definition enabled_entry (n : bytes) (s : AuthState) : option UserEntry :=
  match entries s !! n with Some u => if enabled u then Some u else None | None => None end.
Definition entry_index (n : bytes) (s : AuthState) : nat :=
  match entries s !! n with Some u => index u | None => 0%nat end.

(** [verify_against_committed]. *)
Definition verify_against_committed (n h p m : bytes) (s : AuthState) : AuthState * bool :=
  if argon2_verify h p then (cache_insert n m s, true) else (s, false).

Definition release_verify (s : AuthState) : AuthState := set_verify_slots (S (verify_slots s)) s.
Definition release_gate (n : bytes) (s : AuthState) : AuthState := set_claim_gates (delete n (claim_gates s)) s.
(** The claim closure returns: the mutex, the gate and the permit are dropped. *)
Definition end_claim (n : bytes) (s : AuthState) : AuthState :=
  set_claim_slots (S (claim_slots s)) (release_gate n (set_claim_lock None s)).

(** A closure that has returned hands its result to the future, if there still is one. *)
Definition resume (l : Login) (p : Pc) : Pc := if cancelled l then Gone else p.

(** One step of a login: the state, where it goes, and the job it starts. *)
Definition go (tid : nat) (salt : bytes) (l : Login) (w : World)
    : option (AuthState * Pc * UsersFile.Sys) :=
  let s := auth w in let f := file w in
  let n := lname l in let p := lpassword l in
  let m := candidate s n p in
  match pc l with
  | Enter =>
      match enabled_entry n s with
      | None => Some (s, Done false, f)
      | Some _ => Some (s, if cache_matches n m s then Done true else WaitVerify1, f)
      end
  | WaitVerify1 =>
      match verify_slots s with
      | O => None
      | S k => Some (set_verify_slots k s, Prepare, f)
      end
  | Prepare =>
      match enabled_entry n s with
      | None => Some (release_verify s, resume l (Done false), f)
      | Some _ =>
          if cache_matches n m s then Some (release_verify s, resume l (Done true), f)
          else Some (s, ReadHash, f)
      end
  | ReadHash =>
      let h := stored_hash (entry_index n s) s in
      Some (s, if bool_decide (h = INIT_HASH) then PrepareClaim else Verify1 h, f)
  | PrepareClaim =>
      if bool_decide (p = []) || (255 <? length p)%nat
      then Some (release_verify s, resume l (Done false), f)
      else match compute_hash salt p with
           | None => Some (release_verify s, resume l (Done false), f)
           | Some nh => Some (s, CheckClaimed nh, f)
           end
  | CheckClaimed nh =>
      match claimed_hash_if_any (entry_index n s) s with
      | Some h => Some (s, Verify1 h, f)
      | None => Some (release_verify s, resume l (WaitGate (mkWork n m (entry_index n s) nh)), f)
      end
  | Verify1 h | Verify2 h =>
      let '(s', ok) := verify_against_committed n h p m s in
      Some (release_verify s', resume l (Done ok), f)
  | WaitGate wk =>
      match claim_gates s !! wname wk with
      | Some _ => None
      | None => Some (set_claim_gates (<[wname wk := tid]> (claim_gates s)) s, GateCheck wk, f)
      end
  | GateCheck wk =>
      match claimed_hash_if_any (windex wk) s with
      | Some h => Some (release_gate (wname wk) s, WaitVerify2 h, f)
      | None => Some (s, WaitClaimSlot wk, f)
      end
  | WaitClaimSlot wk =>
      match claim_slots s with
      | O => None
      | S k => Some (set_claim_slots k s, CommitWait wk, f)
      end
  | CommitWait wk =>
      match claim_lock s with
      | Some _ => None
      | None => Some (set_claim_lock (Some tid) s, CommitCheck wk, f)
      end
  | CommitCheck wk =>
      match claimed_hash_if_any (windex wk) s with
      | Some h => Some (end_claim (wname wk) s, resume l (WaitVerify2 h), f)
      | None => Some (s, CommitExists wk, f)
      end
  | CommitExists wk =>
      let fallback :=
        match UsersFile.target (UsersFile.disk f) with
        | Some _ => None
        | None => Some (assign_hash (windex wk) (new_hash wk) (users s))
        end in
      Some (s, CommitStart wk fallback, f)
  | CommitStart wk fallback =>
      let j := UsersFile.JClaim (wname wk) (new_hash wk) fallback in
      f' ← UsersFile.step to_string from_str f (UsersFile.Start j);
      Some (s, CommitPersist wk (length (UsersFile.jobs f)), f')
  | CommitPersist wk pid =>
      match UsersFile.jobs f !! pid with
      | Some (_, Some (UsersFile.Ret (UsersFile.AClaim o))) =>
          match o with
          | Written => Some (publish_hash (windex wk) (new_hash wk) s, CommitCache wk, f)
          | DiskHashChanged h =>
              Some (end_claim (wname wk) (publish_hash (windex wk) h s), resume l (WaitVerify2 h), f)
          | Failed _ =>
              Some (end_claim (wname wk) (publish_hash (windex wk) INIT_HASH s), resume l (Done false), f)
          end
      | _ => None
      end
  | CommitCache wk =>
      Some (end_claim (wname wk) (cache_insert (wname wk) (candidate_hmac wk) s), resume l (Done true), f)
  | WaitVerify2 h =>
      match verify_slots s with
      | O => None
      | S k => Some (set_verify_slots k s, Verify2 h, f)
      end
  | Done _ | Gone => None
  end.

(** Dropping the future: at an await it is gone, with the gate guard if its frame holds
    one; a closure it waits for goes on without it. *)
Definition cancel (l : Login) (s : AuthState) : AuthState * Login :=
  let at_ p := mkLogin (lname l) (lpassword l) p true in
  match pc l with
  | Done _ | Gone | Enter | GateCheck _ => (s, l)
  | WaitVerify1 | WaitGate _ | WaitVerify2 _ => (s, at_ Gone)
  | WaitClaimSlot wk => (release_gate (wname wk) s, at_ Gone)
  | _ => (s, at_ (pc l))
  end.

Definition step (w : World) (e : Event) : option World :=
  match e with
  | Arrive n p => Some (mkWorld (auth w) (logins w ++ [mkLogin n p Enter false]) (file w))
  | Go tid salt =>
      l ← logins w !! tid;
      '(s, p, f) ← go tid salt l w;
      Some (mkWorld s (<[tid := mkLogin (lname l) (lpassword l) p (cancelled l)]> (logins w)) f)
  | Cancel tid =>
      l ← logins w !! tid;
      let '(s, l') := cancel l (auth w) in
      Some (mkWorld s (<[tid := l']> (logins w)) (file w))
  | OnDisk e => f ← UsersFile.step to_string from_str (file w) e; Some (mkWorld (auth w) (logins w) f)
  end.

Definition run (es : list Event) (w : World) : World := foldl (fun w e => default w (step w e)) w es.

Definition boot (s : AuthState) (f : option UsersFile.File) : World := mkWorld s [] (UsersFile.boot f None).

(** ** The synchronous composition *)

Inductive Prepared := PDone (ok : bool) | PClaim (w : ClaimWork).
Inductive ClaimOutcome := ODone (ok : bool) | VerifyAgainst (h : bytes).

Definition prepare_claim (salt n p m : bytes) (s : AuthState) : AuthState * Prepared :=
  if bool_decide (p = []) then (s, PDone false)
  else if (255 <? length p)%nat then (s, PDone false)
  else match compute_hash salt p with
       | None => (s, PDone false)
       | Some nh =>
           match entries s !! n with
           | None => (s, PDone false)
           | Some entry =>
               match claimed_hash_if_any (index entry) s with
               | Some h => let '(s', ok) := verify_against_committed n h p m s in (s', PDone ok)
               | None => (s, PClaim (mkWork n m (index entry) nh))
               end
           end
       end.

Definition verify_prepare (salt n p m : bytes) (s : AuthState) : AuthState * Prepared :=
  match enabled_entry n s with
  | None => (s, PDone false)
  | Some entry =>
      if cache_matches n m s then (s, PDone true)
      else
        let h := stored_hash (index entry) s in
        if negb (bool_decide (h = INIT_HASH)) then
          let '(s', ok) := verify_against_committed n h p m s in (s', PDone ok)
        else prepare_claim salt n p m s
  end.

(** [persist]: what [persist_claim] answers, given the fallback snapshot. *)
Definition claim_commit (exists_ : bool) (persist : bytes -> bytes -> option UsersConfig -> ClaimPersist)
    (wk : ClaimWork) (s : AuthState) : AuthState * ClaimOutcome :=
  let idx := windex wk in
  match claimed_hash_if_any idx s with
  | Some h => (s, VerifyAgainst h)
  | None =>
      let fallback := if exists_ then None else Some (assign_hash idx (new_hash wk) (users s)) in
      match persist (wname wk) (new_hash wk) fallback with
      | Written =>
          (cache_insert (wname wk) (candidate_hmac wk) (publish_hash idx (new_hash wk) s), ODone true)
      | DiskHashChanged h => (publish_hash idx h s, VerifyAgainst h)
      | Failed _ => (publish_hash idx INIT_HASH s, ODone false)
      end
  end.

Definition verify (salt : bytes) (exists_ : bool)
    (persist : bytes -> bytes -> option UsersConfig -> ClaimPersist) (n p : bytes) (s : AuthState)
    : AuthState * bool :=
  let m := candidate s n p in
  match verify_prepare salt n p m s with
  | (s1, PDone ok) => (s1, ok)
  | (s1, PClaim wk) =>
      match claim_commit exists_ persist wk s1 with
      | (s2, ODone ok) => (s2, ok)
      | (s2, VerifyAgainst h) => verify_against_committed n h p m s2
      end
  end.
End Logins.

(** ** The invariant *)

Section Invariant.
Context (to_string : UsersConfig -> option bytes) (from_str : bytes -> option UsersConfig).
Context (compute_hash : bytes -> bytes -> option bytes) (argon2_verify : bytes -> bytes -> bool).
Context (hmac : bytes -> bytes -> bytes).
Notation candidate := (candidate hmac).
Notation go := (go to_string from_str compute_hash argon2_verify hmac).
Notation step := (step to_string from_str compute_hash argon2_verify hmac).
Notation run := (run to_string from_str compute_hash argon2_verify hmac).

(** A hash that verifies: a PHC text is not the placeholder. *)
Context (Hargon : forall salt p h, compute_hash salt p = Some h -> h <> INIT_HASH /\ argon2_verify h p = true).

(** The account is enabled; its password is [h]. *)
Definition known (n : bytes) (s : AuthState) : Prop := is_Some (enabled_entry n s).
Definition committed (i : nat) (h : bytes) (s : AuthState) : Prop := stored_hash i s = h /\ h <> INIT_HASH.

(** A hash of this password, of claimable length. *)
Definition hash_of (p h : bytes) : Prop :=
  p <> [] /\ (length p <= 255)%nat /\ exists salt, compute_hash salt p = Some h.

Definition work_ok (l : Login) (wk : ClaimWork) (s : AuthState) : Prop :=
  known (lname l) s /\ wname wk = lname l /\ candidate_hmac wk = candidate s (lname l) (lpassword l) /\
  windex wk = entry_index (lname l) s /\ hash_of (lpassword l) (new_hash wk).

Definition gated (tid : nat) (wk : ClaimWork) (s : AuthState) : Prop := claim_gates s !! wname wk = Some tid.
Definition locked (tid : nat) (wk : ClaimWork) (s : AuthState) : Prop :=
  gated tid wk s /\ claim_lock s = Some tid.
Definition unclaimed (wk : ClaimWork) (s : AuthState) : Prop := stored_hash (windex wk) s = INIT_HASH.

(** The snapshot a claim falls back on is the memory with the claim applied. *)
Definition fallback_ok (wk : ClaimWork) (fb : option UsersConfig) (s : AuthState) : Prop :=
  fb = None \/ fb = Some (assign_hash (windex wk) (new_hash wk) (users s)).

Definition pc_ok (tid : nat) (l : Login) (s : AuthState) (js : list (UsersFile.Job * option (UsersFile.Fs UsersFile.Answer))) : Prop :=
  let i := entry_index (lname l) s in
  match pc l with
  | Enter | Gone | Done false => True
  | WaitVerify1 | Prepare | ReadHash | PrepareClaim => known (lname l) s
  | CheckClaimed nh => known (lname l) s /\ hash_of (lpassword l) nh
  | Verify1 h | WaitVerify2 h | Verify2 h => known (lname l) s /\ committed i h s
  | WaitGate wk => work_ok l wk s
  | GateCheck wk | WaitClaimSlot wk | CommitWait wk => work_ok l wk s /\ gated tid wk s
  | CommitCheck wk => work_ok l wk s /\ locked tid wk s
  | CommitExists wk => work_ok l wk s /\ locked tid wk s /\ unclaimed wk s
  | CommitStart wk fb => work_ok l wk s /\ locked tid wk s /\ unclaimed wk s /\ fallback_ok wk fb s
  | CommitPersist wk pid => work_ok l wk s /\ locked tid wk s /\ unclaimed wk s /\
      exists fb o, js !! pid = Some (UsersFile.JClaim (wname wk) (new_hash wk) fb, o) /\ fallback_ok wk fb s
  | CommitCache wk => work_ok l wk s /\ locked tid wk s /\ committed i (new_hash wk) s
  | Done true => known (lname l) s /\ exists h, committed i h s /\ argon2_verify h (lpassword l) = true
  end.

(** A cached code is that of a password the committed hash verifies. *)
Definition cache_ok (s : AuthState) : Prop := forall n m, cache s !! n = Some m ->
  exists h p, committed (entry_index n s) h s /\ argon2_verify h p = true /\ m = candidate s n p.

(** The entries point at the first account of their name. *)
Definition entries_ok (s : AuthState) : Prop := forall n e, entries s !! n = Some e ->
  Users.position n (users s) = Some (index e).

(** What a step of [tid] may do to the shared state. *)
Record evolves (tid : nat) (s s' : AuthState) : Prop := {
  ev_entries : entries s' = entries s;
  ev_secret : server_secret s' = server_secret s;
  ev_names : map name (users s') = map name (users s);
  ev_committed : forall i h, committed i h s -> committed i h s';
  ev_users : claim_lock s <> Some tid -> users s' = users s;
  ev_lock : forall q, q <> tid -> claim_lock s' = Some q <-> claim_lock s = Some q;
  ev_gates : forall q n, q <> tid -> claim_gates s' !! n = Some q <-> claim_gates s !! n = Some q
}.

Lemma evolves_refl tid s : evolves tid s s.
Proof. by split. Qed.

Lemma evolves_index tid s s' n : evolves tid s s' -> entry_index n s' = entry_index n s.
Proof. intros [He _ _ _ _ _ _]. unfold entry_index. by rewrite He. Qed.
Lemma evolves_known tid s s' n : evolves tid s s' -> known n s -> known n s'.
Proof. intros [He _ _ _ _ _ _]. unfold known, enabled_entry. by rewrite He. Qed.
Lemma evolves_candidate tid s s' n p : evolves tid s s' -> candidate s' n p = candidate s n p.
Proof. intros [_ He _ _ _ _ _]. unfold Auth.candidate. by rewrite He. Qed.

Lemma evolves_work tid s s' l wk : evolves tid s s' -> work_ok l wk s -> work_ok l wk s'.
Proof.
  intros He (H1 & H2 & H3 & H4 & H5). split_and!; try done.
  - by eapply evolves_known.
  - rewrite H3. symmetry. by eapply evolves_candidate.
  - rewrite H4. symmetry. by eapply evolves_index.
Qed.

(** The other logins are where they were. *)
Lemma evolves_pc tid q l s s' js js' : q <> tid -> evolves tid s s' ->
  (forall pid j o, js !! pid = Some (j, o) -> exists o', js' !! pid = Some (j, o')) ->
  pc_ok q l s js -> pc_ok q l s' js'.
Proof.
  intros Hq He Hj. unfold pc_ok. rewrite (evolves_index tid s s') by done.
  pose proof (ev_committed _ _ _ He) as Hc. pose proof (ev_lock _ _ _ He q Hq) as Hl.
  pose proof (fun n => ev_gates _ _ _ He q n Hq) as Hg.
  assert (Hgate : forall wk, gated q wk s -> gated q wk s') by (intros wk; apply Hg).
  assert (Hlocked : forall wk, locked q wk s -> locked q wk s').
  { intros wk [H1 H2]. split; [by apply Hgate | by apply Hl]. }
  assert (Husers : claim_lock s = Some q -> users s' = users s).
  { intros E. apply (ev_users _ _ _ He). rewrite E. congruence. }
  assert (Hun : forall wk, locked q wk s -> unclaimed wk s -> unclaimed wk s').
  { intros wk [_ E] H. unfold unclaimed, stored_hash. by rewrite Husers. }
  assert (Hfb : forall wk fb, locked q wk s -> fallback_ok wk fb s -> fallback_ok wk fb s').
  { intros wk fb [_ E] H. unfold fallback_ok. by rewrite Husers. }
  destruct (pc l); try done; try (by apply (evolves_known tid)); try (by apply (evolves_work tid)).
  - intros [H1 H2]. split; [by eapply evolves_known | done].
  - intros [H1 H2]. split; [by eapply evolves_known | by apply Hc].
  - intros [H1 H2]. split; [by eapply evolves_work | by apply Hgate].
  - intros [H1 H2]. split; [by eapply evolves_work | by apply Hgate].
  - intros [H1 H2]. split; [by eapply evolves_work | by apply Hgate].
  - intros [H1 H2]. split; [by eapply evolves_work | by apply Hlocked].
  - intros (H1 & H2 & H3). refine (conj _ (conj _ _)); [by eapply evolves_work | by apply Hlocked | by apply Hun].
  - intros (H1 & H2 & H3 & H4). refine (conj _ (conj _ (conj _ _)));
      [by eapply evolves_work | by apply Hlocked | by apply Hun | by apply Hfb].
  - intros (H1 & H2 & H3 & fb & o & H4 & H5). destruct (Hj _ _ _ H4) as [o' Ho'].
    refine (conj _ (conj _ (conj _ _))); [by eapply evolves_work | by apply Hlocked | by apply Hun |].
    exists fb, o'. split; [done | by apply Hfb].
  - intros (H1 & H2 & H3). refine (conj _ (conj _ _)); [by eapply evolves_work | by apply Hlocked | by apply Hc].
  - intros [H1 H2]. split; [by eapply evolves_known | by apply Hc].
  - intros [H1 H2]. split; [by eapply evolves_known | by apply Hc].
  - destruct ok; [|done]. intros (H1 & h & H2 & H3). split; [by eapply evolves_known|]. exists h. split; [by apply Hc | done].
Qed.
(** ** One step *)

(** HMAC-SHA256 does not collide. *)
Context (Hhmac : forall k a b, hmac k a = hmac k b -> a = b).

Lemma candidate_inj s n p q : candidate s n p = candidate s n q -> p = q.
Proof.
  intros H. apply Hhmac, app_inv_head in H. by injection H.
Qed.

(** A step that leaves the users alone. *)
Lemma evolves_still tid s s' : users s' = users s -> entries s' = entries s ->
  server_secret s' = server_secret s ->
  (forall q, q <> tid -> claim_lock s' = Some q <-> claim_lock s = Some q) ->
  (forall q n, q <> tid -> claim_gates s' !! n = Some q <-> claim_gates s !! n = Some q) ->
  evolves tid s s'.
Proof.
  intros Hu He Hs Hl Hg. split; try done; rewrite ?Hu; try done.
  intros i h. unfold committed, stored_hash. by rewrite Hu.
Qed.

Lemma lookup_assign i h us : assign_hash i h us !! i = set_hash h <$> us !! i.
Proof. apply list_lookup_alter_eq. Qed.

Lemma map_name_assign i h us : map name (assign_hash i h us) = map name us.
Proof. revert i. induction us as [|u us IH]; intros [|i]; cbn; try done. f_equal. apply IH. Qed.

Lemma committed_publish i h j g s : stored_hash i s = INIT_HASH -> committed j g s ->
  committed j g (publish_hash i h s).
Proof.
  intros Hi [Hj Hg]. split; [|done]. unfold stored_hash, publish_hash in *. cbn [users set_users].
  destruct (decide (j = i)) as [->|Hne]; [congruence|].
  unfold assign_hash. by rewrite list_lookup_alter_ne by congruence.
Qed.

Lemma committed_here i h u s : users s !! i = Some u -> h <> INIT_HASH -> committed i h (publish_hash i h s).
Proof.
  intros Hu Hh. split; [|done]. unfold stored_hash, publish_hash. cbn [users set_users].
  rewrite lookup_assign, Hu. done.
Qed.

(** The claim mutex's holder publishes over the placeholder. *)
Lemma evolves_publish tid i h s s' : claim_lock s = Some tid -> stored_hash i s = INIT_HASH ->
  users s' = assign_hash i h (users s) -> entries s' = entries s -> server_secret s' = server_secret s ->
  (forall q, q <> tid -> claim_lock s' = Some q <-> claim_lock s = Some q) ->
  (forall q n, q <> tid -> claim_gates s' !! n = Some q <-> claim_gates s !! n = Some q) ->
  evolves tid s s'.
Proof.
  intros Hl Hi Hu He Hs H1 H2. split; try done.
  - rewrite Hu. apply map_name_assign.
  - intros j g Hc. apply (committed_publish i h) in Hc; [|done].
    unfold committed, stored_hash in *. by rewrite Hu.
Qed.

(** Releasing the gate and the mutex that [tid] holds. *)
Lemma release_gates tid n s q m : claim_gates s !! n = Some tid -> q <> tid ->
  delete n (claim_gates s) !! m = Some q <-> claim_gates s !! m = Some q.
Proof. intros Hg Hq. rewrite lookup_delete_Some. split; [tauto|]. intros H. split; [congruence | done]. Qed.
Lemma release_lock tid (s : AuthState) q : claim_lock s = Some tid -> q <> tid ->
  (None : option nat) = Some q <-> claim_lock s = Some q.
Proof. intros Hl Hq. split; congruence. Qed.

Lemma cache_ok_evolves tid s s' : evolves tid s s' -> cache s' = cache s -> cache_ok s -> cache_ok s'.
Proof.
  intros He Hc H n m. rewrite Hc. intros (h & p & H1 & H2 & ->)%H. exists h, p.
  rewrite (evolves_index tid s s'), (evolves_candidate tid s s') by done. split; [by apply He | done].
Qed.

Lemma cache_ok_insert n p h s : cache_ok s -> committed (entry_index n s) h s -> argon2_verify h p = true ->
  cache_ok (cache_insert n (candidate s n p) s).
Proof.
  intros H Hc Hv k m. cbn [cache cache_insert]. rewrite lookup_insert. destruct (decide (n = k)) as [<-|].
  - intros [= <-]. by exists h, p.
  - apply H.
Qed.

(** A cache hit is a password the committed hash verifies. *)
Lemma cache_hit n p s : cache_ok s -> cache_matches n (candidate s n p) s = true ->
  exists h, committed (entry_index n s) h s /\ argon2_verify h p = true.
Proof.
  unfold cache_matches. intros H. destruct (cache s !! n) as [c|] eqn:E; [|done].
  intros ->%bool_decide_eq_true. apply H in E as (h & q & H1 & H2 & H3). apply candidate_inj in H3 as <-. eauto.
Qed.

Lemma claimed_Some i s h : claimed_hash_if_any i s = Some h <-> committed i h s.
Proof. unfold claimed_hash_if_any, committed. case_bool_decide; naive_solver. Qed.
Lemma claimed_None i s : claimed_hash_if_any i s = None <-> stored_hash i s = INIT_HASH.
Proof. unfold claimed_hash_if_any. case_bool_decide; naive_solver. Qed.

Lemma known_lookup n s : entries_ok s -> known n s -> exists u, users s !! entry_index n s = Some u /\ name u = n.
Proof.
  intros He [e Hk]. unfold enabled_entry in Hk. destruct (entries s !! n) as [e'|] eqn:E; [|done].
  pose proof (He _ _ E) as Hp. pose proof (Users.position_find n (users s)) as H. rewrite Hp in H.
  destruct H as (u & Hu & Hf). exists u. unfold entry_index. rewrite E. split; [done|].
  by apply Users.find_Some_name in Hf as [? _].
Qed.

(** What a step owes: the shared state evolves, the cache stays sound, the login is
    where its program counter says. *)
Definition sound_step (tid : nat) (l : Login) (s s' : AuthState) (p' : Pc) (f' : UsersFile.Sys) : Prop :=
  evolves tid s s' /\ cache_ok s' /\
  pc_ok tid (mkLogin (lname l) (lpassword l) p' (cancelled l)) s' (UsersFile.jobs f').

Lemma sound_resume tid l s s' p' f' : sound_step tid l s s' p' f' -> sound_step tid l s s' (resume l p') f'.
Proof.
  intros (H1 & H2 & H3). unfold sound_step, resume. destruct (cancelled l); [|done]. split; [done|]. by split.
Qed.

(** Taking and giving back a hashing permit. *)
Lemma verify_slots_still tid k s : evolves tid s (set_verify_slots k s).
Proof. by apply evolves_still. Qed.
Lemma claim_slots_still tid k s : evolves tid s (set_claim_slots k s).
Proof. by apply evolves_still. Qed.

Lemma sound_verify tid l s f h : pc_ok tid (mkLogin (lname l) (lpassword l) (Verify1 h) (cancelled l)) s (UsersFile.jobs f) ->
  cache_ok s ->
  let '(s', ok) := verify_against_committed argon2_verify (lname l) h (lpassword l) (candidate s (lname l) (lpassword l)) s in
  sound_step tid l s (release_verify s') (Done ok) f.
Proof.
  intros [Hk Hc] Hcache. unfold verify_against_committed. destruct (argon2_verify h (lpassword l)) eqn:Ev.
  - split; [by apply evolves_still|]. split.
    + exact (cache_ok_insert _ _ _ _ Hcache Hc Ev).
    + split; [exact Hk|]. exists h. split; [exact Hc | done].
  - split; [by apply evolves_still|]. by split.
Qed.

(** The claim is over: gate, mutex and permit are given back. *)
Lemma end_claim_still tid wk s : locked tid wk s -> evolves tid s (end_claim (wname wk) s).
Proof.
  intros [Hg Hl]. apply evolves_still; try done.
  - intros q Hq. cbn. by apply (release_lock tid s).
  - intros q n Hq. cbn. by apply (release_gates tid).
Qed.

Lemma end_claim_publish tid wk h s : locked tid wk s -> unclaimed wk s ->
  evolves tid s (end_claim (wname wk) (publish_hash (windex wk) h s)).
Proof.
  intros [Hg Hl] Hu. apply (evolves_publish tid (windex wk) h); try done.
  - intros q Hq. cbn. by apply (release_lock tid s).
  - intros q n Hq. cbn. by apply (release_gates tid).
Qed.

Definition file_grows (f f' : UsersFile.Sys) : Prop :=
  forall pid j o, UsersFile.jobs f !! pid = Some (j, o) -> exists o', UsersFile.jobs f' !! pid = Some (j, o').

(** No claim was ever answered with the placeholder as the hash found on disk. *)
Definition disk_hashes_ok (f : UsersFile.Sys) : Prop := forall pid j h,
  UsersFile.jobs f !! pid = Some (j, Some (UsersFile.Ret (UsersFile.AClaim (DiskHashChanged h)))) -> h <> INIT_HASH.

Lemma go_sound tid salt l w s' p' f' : go tid salt l w = Some (s', p', f') ->
  entries_ok (auth w) -> cache_ok (auth w) -> disk_hashes_ok (file w) ->
  pc_ok tid l (auth w) (UsersFile.jobs (file w)) ->
  sound_step tid l (auth w) s' p' f'.
Proof.
  intros Hgo Hent Hcache Hdisk Hpc. destruct w as [s ls f]. destruct l as [n p pc0 c].
  unfold Auth.go in Hgo. cbn [auth file lname lpassword cancelled Auth.pc] in *.
  assert (Hstill : forall p1, pc_ok tid (mkLogin n p p1 c) s (UsersFile.jobs f) ->
    sound_step tid (mkLogin n p pc0 c) s s p1 f).
  { intros p1 H. split; [apply evolves_refl|]. by split. }
  assert (Hrel : forall p1, (forall s1, evolves tid s s1 -> users s1 = users s -> pc_ok tid (mkLogin n p p1 c) s1 (UsersFile.jobs f)) ->
    sound_step tid (mkLogin n p pc0 c) s (release_verify s) p1 f).
  { intros p1 H. split; [apply verify_slots_still|]. split; [by apply (cache_ok_evolves tid s); [apply verify_slots_still| |]|].
    apply H; [apply verify_slots_still | done]. }
  destruct pc0 as [| | | | |nh|h|wk|wk|wk|wk|wk|wk|wk fb|wk pid|wk|h|h|ok|]; cbn [pc_ok Auth.pc lname lpassword] in Hpc.
  - destruct (enabled_entry n s) eqn:E; injection Hgo as <- <- <-; [|by apply Hstill].
    apply Hstill. destruct (cache_matches _ _ _) eqn:Ec; [|by eexists].
    split; [by eexists|]. by apply cache_hit.
  - destruct (verify_slots s) as [|k] eqn:E; [done|]. injection Hgo as <- <- <-.
    split; [apply verify_slots_still|]. split; [by apply (cache_ok_evolves tid s); [apply verify_slots_still| |]|]. exact Hpc.
  - destruct (enabled_entry n s) eqn:E; [|unfold known in Hpc; rewrite E in Hpc; by destruct Hpc].
    destruct (cache_matches _ _ _) eqn:Ec; injection Hgo as <- <- <-.
    + apply sound_resume, Hrel. intros s1 Hs1 Hu. apply cache_hit in Ec as (h & Hc & Hv); [|done].
      split; [by eapply evolves_known|]. exists h. cbn [lname]. rewrite (evolves_index tid s s1) by done.
      split; [by apply Hs1 | done].
    + by apply Hstill.
  - injection Hgo as <- <- <-. apply Hstill. case_bool_decide; [done|]. by split.
  - destruct (bool_decide (p = []) || (255 <? length p)%nat) eqn:E.
    { injection Hgo as <- <- <-. by apply sound_resume, Hrel. }
    apply orb_false_iff in E as [E1%bool_decide_eq_false E2%Nat.ltb_ge].
    destruct (compute_hash salt p) as [nh|] eqn:Eh; injection Hgo as <- <- <-; [|by apply sound_resume, Hrel].
    apply Hstill. split; [done|]. split; [done|]. split; [done|]. by exists salt.
  - destruct Hpc as [Hk Hh]. destruct (claimed_hash_if_any (entry_index n s) s) as [h|] eqn:E; injection Hgo as <- <- <-.
    + apply Hstill. split; [done|]. by apply claimed_Some.
    + apply sound_resume, Hrel. intros s1 Hs1 Hu. apply (evolves_work tid s); [done|].
      split; [exact Hk|]. split; [done|]. split; [done|]. split; [done | exact Hh].
  - pose proof (sound_verify tid (mkLogin n p (Verify1 h) c) s f h Hpc Hcache) as H. cbn [lname lpassword] in H.
    destruct (verify_against_committed _ _ _ _ _ _) as [s1 ok]. injection Hgo as <- <- <-. by apply sound_resume.
  - destruct (claim_gates s !! wname wk) eqn:E; [done|]. injection Hgo as <- <- <-.
    assert (He : evolves tid s (set_claim_gates (<[wname wk:=tid]> (claim_gates s)) s)).
    { apply evolves_still; try done. intros q m Hq. cbn. rewrite lookup_insert.
      destruct (decide (wname wk = m)) as [<-|]; [|done]. split; congruence. }
    split; [done|]. split; [by apply (cache_ok_evolves tid s)|]. split; [by apply (evolves_work tid s)|].
    unfold gated. cbn. by rewrite lookup_insert, decide_True.
  - destruct Hpc as [Hw Hg]. destruct (claimed_hash_if_any (windex wk) s) as [h|] eqn:E; injection Hgo as <- <- <-.
    + assert (He : evolves tid s (release_gate (wname wk) s)).
      { apply evolves_still; try done. intros q m Hq. cbn. by apply (release_gates tid). }
      split; [done|]. split; [by apply (cache_ok_evolves tid s)|]. apply claimed_Some in E.
      destruct Hw as (Hk & _ & _ & Hi & _). split; [by eapply evolves_known|]. cbn [lname] in *.
      rewrite (evolves_index tid s), <- Hi by done. by apply He.
    + apply Hstill. by split.
  - destruct Hpc as [Hw Hg]. destruct (claim_slots s) as [|k] eqn:E; [done|]. injection Hgo as <- <- <-.
    split; [apply claim_slots_still|]. split; [by apply (cache_ok_evolves tid s); [apply claim_slots_still| |]|].
    split; [by apply (evolves_work tid s); [apply claim_slots_still|] | exact Hg].
  - destruct Hpc as [Hw Hg]. destruct (claim_lock s) eqn:E; [done|]. injection Hgo as <- <- <-.
    assert (He : evolves tid s (set_claim_lock (Some tid) s)).
    { apply evolves_still; try done. intros q Hq. cbn. rewrite E. split; congruence. }
    split; [done|]. split; [by apply (cache_ok_evolves tid s)|].
    split; [by apply (evolves_work tid s)|]. by split.
  - destruct Hpc as [Hw Hl]. destruct (claimed_hash_if_any (windex wk) s) as [h|] eqn:E; injection Hgo as <- <- <-.
    + pose proof (end_claim_still tid wk s Hl) as He. apply sound_resume.
      split; [done|]. split; [by apply (cache_ok_evolves tid s)|]. apply claimed_Some in E.
      destruct Hw as (Hk & _ & _ & Hi & _). split; [by eapply evolves_known|]. cbn [lname] in *.
      rewrite (evolves_index tid s), <- Hi by done. by apply He.
    + apply Hstill. split; [done|]. split; [done|]. by apply claimed_None.
  - destruct Hpc as (Hw & Hl & Hu). injection Hgo as <- <- <-. apply Hstill.
    split; [done|]. split; [done|]. split; [done|]. destruct (UsersFile.target _); [by left | by right].
  - destruct Hpc as (Hw & Hl & Hu & Hf). cbn in Hgo. injection Hgo as <- <- <-.
    split; [apply evolves_refl|]. split; [done|]. split; [done|]. split; [done|]. split; [done|].
    exists fb. eexists. split; [|done]. cbn. by rewrite lookup_app_r, Nat.sub_diag by done.
  - destruct Hpc as (Hw & Hl & Hu & fb & o & Hj & Hf). rewrite Hj in Hgo.
    destruct o as [[[o|o|o]| | | | | | | | | | | | | | | | | ]|]; try done.
    pose proof Hw as (Hk & Hwn & Hwm & Hi & Hh). cbn [lname lpassword] in *.
    destruct (known_lookup n s Hent Hk) as (u & Hlook & _).
    pose proof Hh as (_ & _ & salt' & Hsalt). destruct (Hargon _ _ _ Hsalt) as [Hne Hv].
    destruct o as [|h|e]; injection Hgo as <- <- <-.
    + assert (He : evolves tid s (publish_hash (windex wk) (new_hash wk) s)).
      { destruct Hl. by apply (evolves_publish tid (windex wk) (new_hash wk)). }
      split; [done|]. split; [by apply (cache_ok_evolves tid s)|].
      split; [by apply (evolves_work tid s)|]. split; [by destruct Hl|]. cbn [lname].
      rewrite (evolves_index tid s), <- Hi by done. apply (committed_here _ _ u); [by rewrite Hi | done].
    + pose proof (end_claim_publish tid wk h s Hl Hu) as He. apply sound_resume.
      split; [done|]. split; [by apply (cache_ok_evolves tid s)|]. split; [by eapply evolves_known|]. cbn [lname].
      rewrite (evolves_index tid s), <- Hi by done.
      assert (Hhne : h <> INIT_HASH) by (by eapply Hdisk).
      apply (committed_here (windex wk) h u s); [by rewrite Hi | done].
    + pose proof (end_claim_publish tid wk INIT_HASH s Hl Hu) as He. apply sound_resume.
      split; [done|]. split; [by apply (cache_ok_evolves tid s) | done].
  - destruct Hpc as (Hw & Hl & Hc). injection Hgo as <- <- <-. apply sound_resume.
    pose proof Hw as (Hk & Hwn & Hwm & Hi & Hh). cbn [lname lpassword] in *.
    pose proof Hh as (_ & _ & salt' & Hsalt). destruct (Hargon _ _ _ Hsalt) as [Hne Hv].
    rewrite Hwm. assert (He : evolves tid s (end_claim (wname wk) (cache_insert (wname wk) (candidate s n p) s))).
    { destruct (end_claim_still tid wk s Hl). by split. }
    split; [done|]. split.
    + rewrite Hwn. exact (cache_ok_insert _ _ _ _ Hcache Hc Hv).
    + split; [by eapply evolves_known|]. exists (new_hash wk). cbn [lname].
      rewrite (evolves_index tid s) by done. split; [by apply He | done].
  - destruct (verify_slots s) as [|k] eqn:E; [done|]. injection Hgo as <- <- <-.
    split; [apply verify_slots_still|]. split; [by apply (cache_ok_evolves tid s); [apply verify_slots_still| |]|]. exact Hpc.
  - pose proof (sound_verify tid (mkLogin n p (Verify2 h) c) s f h Hpc Hcache) as H. cbn [lname lpassword] in H.
    destruct (verify_against_committed _ _ _ _ _ _) as [s1 ok]. injection Hgo as <- <- <-. by apply sound_resume.
  - done.
  - done.
Qed.

(** ** The invariant of the world *)

(** The hash [h] is account [n]'s in a content the users file has had. *)
Definition on_disk (f : UsersFile.Sys) (n h : bytes) : Prop :=
  exists fc us u, (UsersFile.past (UsersFile.disk f) (Some fc)) /\
    from_str (UsersFile.data fc) = Some us /\ Users.find n us = Some u /\ hash u = h.

Record WInv (us0 : UsersConfig) (c : option UsersFile.File) (w : World) : Prop := {
  w_pc : forall tid l, logins w !! tid = Some l -> pc_ok tid l (auth w) (UsersFile.jobs (file w));
  w_cache : cache_ok (auth w);
  w_entries : entries_ok (auth w);
  w_names : map name (users (auth w)) = map name us0;
  w_file : UsersFile.Inv to_string from_str c (file w)
}.

Lemma position_names n us us' : map name us = map name us' -> Users.position n us = Users.position n us'.
Proof.
  revert us'. induction us as [|u us IH]; intros [|u' us'] H; try done. cbn in H. injection H as Hn H. cbn.
  unfold Users.has_name. rewrite Hn. case_bool_decide; [done|]. by rewrite (IH us').
Qed.

Lemma evolves_entries tid s s' : evolves tid s s' -> entries_ok s -> entries_ok s'.
Proof.
  intros [He _ Hn _ _ _ _] H n e. rewrite He. intros Hl. rewrite (position_names n _ (users s)) by done. by apply H.
Qed.

Lemma disk_hashes c f : UsersFile.Inv to_string from_str c f -> disk_hashes_ok f.
Proof.
  intros Hf pid j h Hj. destruct (UsersFile.Inv_told _ _ _ _ _ _ _ Hf Hj) as (rs & Ht & _).
  destruct j; cbn in Ht; [|done..]. by destruct Ht as (_ & ? & _).
Qed.

(** Every event of the world, as the shared state and the users file see it. *)
Lemma step_cases w e w' : step w e = Some w' ->
  (exists n p, w' = mkWorld (auth w) (logins w ++ [mkLogin n p Enter false]) (file w)) \/
  (exists tid salt l s p f, logins w !! tid = Some l /\ go tid salt l w = Some (s, p, f) /\
     w' = mkWorld s (<[tid := mkLogin (lname l) (lpassword l) p (cancelled l)]> (logins w)) f) \/
  (exists tid l s l', logins w !! tid = Some l /\ cancel l (auth w) = (s, l') /\
     w' = mkWorld s (<[tid := l']> (logins w)) (file w)) \/
  (exists d f, UsersFile.step to_string from_str (file w) d = Some f /\ w' = mkWorld (auth w) (logins w) f).
Proof.
  destruct e as [n p|tid salt|tid|d]; cbn [Auth.step].
  - intros [= <-]. left. eauto.
  - destruct (logins w !! tid) as [l|] eqn:El; cbn; [|done].
    destruct (go tid salt l w) as [[[s p] f]|] eqn:Eg; cbn; [|done]. intros [= <-].
    right; left. by exists tid, salt, l, s, p, f.
  - destruct (logins w !! tid) as [l|] eqn:El; cbn; [|done].
    destruct (cancel l (auth w)) as [s l'] eqn:Ec. intros [= <-]. right; right; left. by exists tid, l, s, l'.
  - destruct (UsersFile.step _ _ _ d) as [f|] eqn:Ef; cbn; [|done]. intros [= <-]. right; right; right. eauto.
Qed.

Lemma go_file tid salt l w s p f : go tid salt l w = Some (s, p, f) ->
  f = file w \/ exists j, UsersFile.step to_string from_str (file w) (UsersFile.Start j) = Some f.
Proof.
  unfold Auth.go. intros H. destruct (pc l); try done;
    try (match type of H with
      (?x ≫= _ = _) => destruct x as [f'|] eqn:E; [|done]; injection H as <- <- <-; right; eexists; exact E end);
    repeat match type of H with
    | context [match ?x with _ => _ end] => destruct x
    | context [if ?x then _ else _] => destruct x
    end; simplify_eq; by left.
Qed.

Lemma file_step_grows f d f' : UsersFile.step to_string from_str f d = Some f' -> file_grows f f'.
Proof.
  intros H pid j o Hj. destruct d as [j0|q d|q|dt]; cbn [UsersFile.step] in H.
  - injection H as <-. exists o. cbn. by apply lookup_app_l_Some.
  - destruct (UsersFile.jobs f !! q) as [[j1 [p|]]|] eqn:E; [|done..].
    destruct (UsersFile.call _ _ _ _) as [[w p']|]; cbn in H; [|done]. injection H as <-.
    by eapply UsersFile.update_jobs.
  - destruct (UsersFile.jobs f !! q) as [[j1 [p|]]|] eqn:E; [|done..]. injection H as <-.
    by eapply UsersFile.update_jobs.
  - destruct (0 <=? dt); [|done]. injection H as <-. by exists o.
Qed.

Lemma cancel_sound tid l s s' l' js : cancel l s = (s', l') -> pc_ok tid l s js ->
  evolves tid s s' /\ cache s' = cache s /\ pc_ok tid l' s' js /\ users s' = users s.
Proof.
  destruct l as [n p pc0 c]. unfold cancel. cbn [pc lname lpassword].
  destruct pc0; intros [= <- <-] H; try (split; [apply evolves_refl | done]).
  destruct H as [Hw Hg]. split; [|done]. apply evolves_still; try done. intros q m Hq. cbn. by apply (release_gates tid).
Qed.

Lemma step_WInv us0 c w e w' : step w e = Some w' -> WInv us0 c w -> WInv us0 c w'.
Proof.
  intros Hs [H1 H2 H3 H4 H5]. apply step_cases in Hs as
    [(n & p & ->)|[(tid & salt & l & s & p & f & Hl & Hg & ->)|[(tid & l & s & l' & Hl & Hc & ->)|(d & f & Hf & ->)]]].
  - split; try done. intros tid l Hl. apply lookup_app_Some in Hl as [Hl|[_ Hl]]; [by apply H1|].
    by apply list_lookup_singleton_Some in Hl as [_ <-].
  - pose proof (go_sound _ _ _ _ _ _ _ Hg H3 H2 (disk_hashes _ _ H5) (H1 _ _ Hl)) as (He & Hca & Hpc).
    assert (Hgrow : file_grows (file w) f).
    { destruct (go_file _ _ _ _ _ _ _ Hg) as [->|[j Hj]]; [intros ? ? o ?; by exists o | by eapply file_step_grows]. }
    split; cbn [auth logins file]; [|done| by eapply evolves_entries | by rewrite (ev_names _ _ _ He) |].
    + intros q l0 Hq. destruct (decide (q = tid)) as [->|Hne].
      * rewrite list_lookup_insert_eq in Hq by (by eapply lookup_lt_Some). by injection Hq as <-.
      * rewrite list_lookup_insert_ne in Hq by congruence.
        apply (evolves_pc tid q l0 (auth w) s (UsersFile.jobs (file w))); [done | done | exact Hgrow | by apply H1].
    + destruct (go_file _ _ _ _ _ _ _ Hg) as [->|[j Hj]]; [done | by eapply UsersFile.step_Inv].
  - destruct (cancel_sound tid l (auth w) s l' (UsersFile.jobs (file w)) Hc (H1 _ _ Hl)) as (He & Hca & Hpc & Hu).
    split; cbn [auth logins file]; [| by eapply cache_ok_evolves | by eapply evolves_entries | by rewrite Hu | done].
    intros q l0 Hq. destruct (decide (q = tid)) as [->|Hne].
    * rewrite list_lookup_insert_eq in Hq by (by eapply lookup_lt_Some). by injection Hq as <-.
    * rewrite list_lookup_insert_ne in Hq by congruence.
      apply (evolves_pc tid q l0 (auth w) s (UsersFile.jobs (file w))); [done | done | intros ? ? o ?; by exists o | by apply H1].
  - split; try done; cbn [auth logins file].
    + intros q l0 Hq. pose proof (H1 _ _ Hq) as Hpc.
      apply (evolves_pc (S q) q l0 (auth w) (auth w) (UsersFile.jobs (file w))); [lia | apply evolves_refl | | done].
      by eapply file_step_grows.
    + by eapply UsersFile.step_Inv.
Qed.

(** *** What a claim leaves on disk *)

Context (Hcodec : forall us text, to_string us = Some text -> from_str text = Some us).

Lemma find_position n (us : list User) : Users.find n us = i ← Users.position n us; us !! i.
Proof.
  pose proof (Users.position_find n us) as H. destruct (Users.position n us) as [i|]; cbn; [|done].
  destruct H as (u & -> & ->). done.
Qed.

Lemma find_assign n i h (us : list User) u : Users.position n us = Some i -> us !! i = Some u ->
  Users.find n (assign_hash i h us) = Some (set_hash h u).
Proof.
  intros Hp Hu. rewrite find_position. rewrite (position_names n _ us) by apply map_name_assign.
  rewrite Hp. cbn. by rewrite lookup_assign, Hu.
Qed.

(** A replacement that a claim was permitted holds the claimed hash. *)
Lemma permits_claim n nh fb c f (us : list User) i u :
  UsersFile.permits to_string from_str (UsersFile.JClaim n nh fb) c f ->
  fb = None \/ fb = Some (assign_hash i nh us) -> Users.position n us = Some i -> us !! i = Some u ->
  exists us' u', from_str (UsersFile.data f) = Some us' /\ Users.find n us' = Some u' /\ hash u' = nh.
Proof.
  intros Hp Hfb Hpos Hu. cbn in Hp. destruct c as [fc|].
  - destruct Hp as (vs & v & vs' & _ & Hv & _ & Hupd & [Ht _]).
    pose proof (Users.update_first_spec n (set_hash nh) vs (fun _ => eq_refl)) as Hs. rewrite Hupd in Hs.
    destruct Hs as (v' & _ & Hf & _). exists vs', (set_hash nh v'). split; [by apply Hcodec|]. done.
  - destruct Hp as (vs & -> & [Ht _]). destruct Hfb as [|[= ->]]; [done|].
    exists (assign_hash i nh us), (set_hash nh u). split; [by apply Hcodec|]. split; [by apply find_assign | done].
Qed.

Lemma on_disk_written c f n nh fb (us : list User) i u pid : UsersFile.Inv to_string from_str c f ->
  UsersFile.jobs f !! pid = Some (UsersFile.JClaim n nh fb, Some (UsersFile.Ret (UsersFile.AClaim Written))) ->
  fb = None \/ fb = Some (assign_hash i nh us) -> Users.position n us = Some i -> us !! i = Some u ->
  on_disk f n nh.
Proof.
  intros Hf Hj Hfb Hpos Hu. destruct (UsersFile.Inv_told _ _ _ _ _ _ _ Hf Hj) as (rs & Ht & _). cbn in Ht.
  destruct (UsersFile.mine pid (UsersFile.log (UsersFile.disk f))) as [|[a g] [|]] eqn:Em; try done.
  assert (Hin : (pid, a, g) ∈ UsersFile.log (UsersFile.disk f)) by (apply UsersFile.mine_elem; rewrite Em; by left).
  pose proof (UsersFile.Inv_past _ _ _ _ _ _ _ Hf Hin) as Hpast. destruct Hf as [_ _ _ Hlog].
  rewrite Forall_forall in Hlog. destruct (Hlog _ Hin) as (j & o & Hj' & Hp). rewrite Hj in Hj'. injection Hj' as <- <-.
  destruct (permits_claim _ _ _ _ _ _ _ _ Hp Hfb Hpos Hu) as (us' & u' & H1 & H2 & H3).
  exists g, us', u'. by split_and!.
Qed.

Lemma on_disk_adopted c f n nh fb h pid : UsersFile.Inv to_string from_str c f ->
  UsersFile.jobs f !! pid = Some (UsersFile.JClaim n nh fb, Some (UsersFile.Ret (UsersFile.AClaim (DiskHashChanged h)))) ->
  on_disk f n h.
Proof.
  intros Hf Hj. destruct (UsersFile.Inv_told _ _ _ _ _ _ _ Hf Hj) as (rs & Ht & Hpast). cbn in Ht.
  destruct Ht as (_ & _ & fc & us & u & Hin & H1 & H2 & H3). rewrite Forall_forall in Hpast.
  exists fc, us, u. split_and!; [by apply Hpast | done..].
Qed.

(** Only the answer to a persisted claim changes the users. *)
Lemma go_users tid salt l w s p f : go tid salt l w = Some (s, p, f) ->
  (forall wk pid, pc l <> CommitPersist wk pid) -> users s = users (auth w).
Proof.
  unfold Auth.go, verify_against_committed. intros H Hn. destruct (pc l); try done;
    try (match type of H with
      (?x ≫= _ = _) => destruct x as [f'|]; [|done]; injection H as <- <- <-; reflexivity end);
    try (exfalso; by eapply Hn);
    try (destruct (argon2_verify _ _); injection H as <- <- <-; reflexivity);
    repeat match type of H with
    | context [match ?x with _ => _ end] => destruct x
    | context [if ?x then _ else _] => destruct x
    end; try discriminate H; injection H as <- <- <-; reflexivity.
Qed.

Lemma go_persist tid salt l w s p f wk pid : go tid salt l w = Some (s, p, f) -> pc l = CommitPersist wk pid ->
  f = file w /\ exists j o h,
    UsersFile.jobs (file w) !! pid = Some (j, Some (UsersFile.Ret (UsersFile.AClaim o))) /\
    users s = assign_hash (windex wk) h (users (auth w)) /\
    (o = Written /\ h = new_hash wk \/ o = DiskHashChanged h \/ h = INIT_HASH).
Proof.
  unfold Auth.go. intros H E. rewrite E in H.
  destruct (UsersFile.jobs (file w) !! pid) as [[j [[[o|o|o]| | | | | | | | | | | | | | | | | ]|]]|] eqn:Ej; try discriminate H.
  destruct o as [|h'|e]; injection H as <- <- <-; (split; [reflexivity|]); eexists j, _, _;
    (split; [reflexivity|]); (split; [reflexivity|]); tauto.
Qed.

(** A hash the memory did not have comes from a claim's answer. *)
Lemma go_commits tid salt l w s p f i h : go tid salt l w = Some (s, p, f) ->
  committed i h s -> committed i h (auth w) \/
  exists wk pid j o, pc l = CommitPersist wk pid /\ windex wk = i /\ f = file w /\
    UsersFile.jobs (file w) !! pid = Some (j, Some (UsersFile.Ret (UsersFile.AClaim o))) /\
    (o = Written /\ h = new_hash wk \/ o = DiskHashChanged h).
Proof.
  intros Hg [Hs Hne].
  assert (Hsame : users s !! i = users (auth w) !! i -> committed i h (auth w)).
  { intros E. unfold committed, stored_hash in *. by rewrite E in Hs. }
  assert ((exists wk pid, pc l = CommitPersist wk pid) \/ forall wk pid, pc l <> CommitPersist wk pid) as [(wk & pid & Ep)|Hn].
  { destruct (pc l); try (right; intros; discriminate). left; eauto. }
  - destruct (go_persist _ _ _ _ _ _ _ _ _ Hg Ep) as (Hf & j & o & g & Hj & Hu & Ho).
    destruct (decide (i = windex wk)) as [->|Hi].
    + unfold stored_hash in Hs. rewrite Hu, lookup_assign in Hs.
      destruct (users (auth w) !! windex wk) as [u|]; cbn [fmap option_fmap option_map] in Hs; [|by destruct Hne].
      change (g = h) in Hs. subst g.
      right. exists wk, pid, j, o. split_and!; try done. naive_solver.
    + left. apply Hsame. rewrite Hu. apply list_lookup_alter_ne. congruence.
  - left. apply Hsame. by rewrite (go_users _ _ _ _ _ _ _ Hg Hn).
Qed.


(** *** Startup *)

Lemma build_entries_spec us : forall i acc es, build_entries i us acc = Ok es -> forall n,
  match acc !! n, Users.position n us with
  | Some e, _ => es !! n = Some e
  | None, Some k => exists u e, us !! k = Some u /\ es !! n = Some e /\ index e = (i + k)%nat /\ enabled e = is_enabled u
  | None, None => es !! n = None
  end.
Proof.
  induction us as [|u us IH]; intros i acc es H n; cbn [build_entries] in H.
  { injection H as <-. cbn. by destruct (acc !! n). }
  destruct (match allowed_clients u with Some _ => _ | None => _ end) as [rule|e] eqn:Er; cbn in H; [|done].
  specialize (IH _ _ _ H n). cbn [Users.position].
  assert (Hn : Users.has_name n u = bool_decide (name u = n)) by done.
  rewrite Hn. destruct (decide (name u = n)) as [E|E].
  - rewrite bool_decide_true by done. rewrite <- E in *.
    destruct (acc !! name u) as [e|] eqn:Ea; rewrite ?Ea, ?lookup_insert_eq in IH; [done|].
    exists u. eexists. split; [done|]. split; [exact IH|]. cbn. split; [lia | done].
  - rewrite bool_decide_false by done.
    assert (Hacc : (match acc !! name u with Some _ => acc | None => <[name u := mkEntry i (is_enabled u) (direct u) rule]> acc end) !! n = acc !! n).
    { destruct (acc !! name u); [done|]. by rewrite lookup_insert_ne. }
    rewrite Hacc in IH. destruct (acc !! n); [done|].
    destruct (Users.position n us) as [k|]; cbn; [|done]. destruct IH as (v & e & H1 & H2 & H3 & H4).
    exists v, e. split_and!; try done. lia.
Qed.

Lemma build_Ok anon us r par s : build anon us r par = Ok s ->
  users s = us /\ claim_lock s = None /\ claim_gates s = ∅ /\ cache s = ∅ /\ claim_slots s = CLAIM_SLOTS /\
  verify_slots s = match par with Some n => Nat.min n 4 | None => 1%nat end /\
  build_entries 0 us ∅ = Ok (entries s).
Proof.
  unfold build. destruct r as [sec|]; cbn; [|done]. destruct (build_entries 0 us ∅) as [es|e] eqn:E; cbn; [|done].
  by intros [= <-].
Qed.

Lemma build_entry anon us r par s n : build anon us r par = Ok s ->
  match Users.position n us with
  | Some k => exists u e, us !! k = Some u /\ entries s !! n = Some e /\ index e = k /\ enabled e = is_enabled u
  | None => entries s !! n = None
  end.
Proof.
  intros H. apply build_Ok in H as (_ & _ & _ & _ & _ & _ & H). apply (build_entries_spec us 0 ∅ _) with (n := n) in H.
  by rewrite lookup_empty in H.
Qed.

Lemma boot_WInv anon us r par s c : build anon us r par = Ok s -> WInv us c (boot s c).
Proof.
  intros H. pose proof (build_Ok _ _ _ _ _ H) as (Hu & Hl & Hg & Hc & _).
  split; cbn [auth logins file boot].
  - intros tid l. by rewrite lookup_nil.
  - intros n m. by rewrite Hc, lookup_empty.
  - intros n e He. pose proof (build_entry _ _ _ _ _ n H) as Hb. rewrite Hu.
    destruct (Users.position n us) as [k|]; [|congruence]. destruct Hb as (u & e' & _ & He' & Hi & _). congruence.
  - by rewrite Hu.
  - apply UsersFile.Inv_boot.
Qed.

(** Induction over a run. *)
Lemma world_run_ind (P : World -> Prop) es : forall w, (forall w e w', P w -> step w e = Some w' -> P w') -> P w -> P (run es w).
Proof.
  induction es as [|e es IH]; intros w Hs Hw; cbn; [done|]. apply IH; [done|].
  destruct (step w e) as [w'|] eqn:E; cbn; [by eapply Hs | done].
Qed.

Lemma run_WInv us c es w : WInv us c w -> WInv us c (run es w).
Proof. intros Hw. apply (world_run_ind (WInv us c)); [|done]. intros w1 e w2 H Hs. exact (step_WInv _ _ _ _ _ Hs H). Qed.

(** The entries never change. *)
Lemma step_evolves us c w e w' : WInv us c w -> step w e = Some w' -> exists tid, evolves tid (auth w) (auth w').
Proof.
  intros [H1 H2 H3 H4 H5] Hs. apply step_cases in Hs as
    [(n & p & ->)|[(tid & salt & l & s & p & f & Hl & Hg & ->)|[(tid & l & s & l' & Hl & Hc & ->)|(d & f & Hf & ->)]]].
  - exists 0%nat. apply evolves_refl.
  - exists tid. by destruct (go_sound _ _ _ _ _ _ _ Hg H3 H2 (disk_hashes _ _ H5) (H1 _ _ Hl)).
  - exists tid. by destruct (cancel_sound tid l (auth w) s l' (UsersFile.jobs (file w)) Hc (H1 _ _ Hl)).
  - exists 0%nat. apply evolves_refl.
Qed.

Lemma run_entries us c es w : WInv us c w -> entries (auth (run es w)) = entries (auth w).
Proof.
  intros Hw. refine (proj2 (world_run_ind (fun w' => WInv us c w' /\ entries (auth w') = entries (auth w)) es w _ _)); [|done].
  intros w1 e w2 [Hi He] Hs. split; [by eapply step_WInv|].
  destruct (step_evolves _ _ _ _ _ Hi Hs) as [tid Hev]. by rewrite (ev_entries _ _ _ Hev).
Qed.

Lemma run_committed us c es w i h : WInv us c w -> committed i h (auth w) -> committed i h (auth (run es w)).
Proof.
  intros Hw Hc. refine (proj2 (world_run_ind (fun w' => WInv us c w' /\ committed i h (auth w')) es w _ _)); [|done].
  intros w1 e w2 [Hi He] Hs. split; [by eapply step_WInv|].
  destruct (step_evolves _ _ _ _ _ Hi Hs) as [tid Hev]. by apply Hev.
Qed.

(** The memory's account of a name, and the hash the entry leads to. *)
Lemma find_stored us c w n : WInv us c w -> match Users.position n us with
  | Some i => exists u, Users.find n (users (auth w)) = Some u /\ stored_hash i (auth w) = hash u
  | None => Users.find n (users (auth w)) = None
  end.
Proof.
  intros Hw. pose proof (position_names n _ _ (w_names _ _ _ Hw)) as Hp. rewrite find_position, Hp.
  pose proof (Users.position_find n (users (auth w))) as H. rewrite Hp in H.
  destruct (Users.position n us) as [i|]; [|done]. destruct H as (u & Hu & _). exists u. cbn.
  unfold stored_hash. by rewrite Hu.
Qed.

(** The hash in memory of an account whose entry is known. *)
Lemma find_known us c w n u : WInv us c w -> Users.find n (users (auth w)) = Some u ->
  exists i, Users.position n us = Some i /\ hash u = stored_hash i (auth w).
Proof.
  intros Hw Hu. pose proof (find_stored us c w n Hw) as H. destruct (Users.position n us) as [i|]; [|congruence].
  destruct H as (u' & Hu' & H). exists i. split; [done|]. congruence.
Qed.

Lemma step_durable us0 c w e w' n u : WInv us0 c w -> step w e = Some w' ->
  Users.find n (users (auth w')) = Some u -> hash u <> INIT_HASH ->
  (exists v, Users.find n (users (auth w)) = Some v /\ hash v = hash u) \/ on_disk (file w') n (hash u).
Proof.
  intros Hw Hs Hu Hne. pose proof (step_WInv _ _ _ _ _ Hs Hw) as Hw'.
  destruct (find_known _ _ _ _ _ Hw' Hu) as (i & Hi & Hst).
  pose proof (find_stored us0 c w n Hw) as Hv. rewrite Hi in Hv. destruct Hv as (v & Hv & Hsv).
  assert (Hc : committed i (hash u) (auth w')) by done.
  assert (Hold : committed i (hash u) (auth w) -> exists v, Users.find n (users (auth w)) = Some v /\ hash v = hash u).
  { intros [H _]. exists v. split; [done|]. congruence. }
  pose proof Hw as [H1 H2 H3 H4 H5]. apply step_cases in Hs as
    [(m & p & ->)|[(tid & salt & l & s & p & f & Hl & Hg & ->)|[(tid & l & s & l' & Hl & Hcn & ->)|(d & f & Hf & ->)]]].
  - left. by apply Hold.
  - destruct (go_commits _ _ _ _ _ _ _ _ _ Hg Hc) as [H|(wk & pid & j & o & Ep & Hwi & -> & Hj & Ho)]; [left; by apply Hold|].
    right. cbn [file auth] in *. pose proof (H1 _ _ Hl) as Hpc. unfold pc_ok in Hpc. rewrite Ep in Hpc.
    destruct Hpc as ((Hk & Hwn & _ & Hix & _) & _ & _ & fb & o' & Hj' & Hfb). rewrite Hj in Hj'. injection Hj' as -> <-.
    destruct (known_lookup _ _ H3 Hk) as (v' & Hv' & Hnm).
    assert (Hpos : Users.position (wname wk) (users (auth w)) = Some i).
    { destruct Hk as [en Hen]. unfold enabled_entry in Hen. destruct (entries (auth w) !! lname l) as [en'|] eqn:E; [|done].
      rewrite Hwn, (H3 _ _ E), <- Hwi, Hix. unfold entry_index. by rewrite E. }
    assert (Hnn : wname wk = n).
    { rewrite (position_names n _ _ (eq_sym H4)) in Hi.
      pose proof (Users.position_find n (users (auth w))) as Hf. rewrite Hi in Hf. destruct Hf as (v1 & Hf1 & Hf2).
      apply Users.find_Some_name in Hf2 as [<- _]. rewrite Hwi in Hix. rewrite <- Hix in Hv'. rewrite Hwn. congruence. }
    rewrite Hnn in *. destruct Ho as [[-> ->]| ->].
    + rewrite Hwi in *. rewrite <- Hix in Hv'.
      apply (on_disk_written c (file w) n (new_hash wk) fb (users (auth w)) i v' pid H5 Hj); [|exact Hpos | exact Hv'].
      rewrite <- Hwi. exact Hfb.
    + exact (on_disk_adopted _ _ _ _ _ _ _ H5 Hj).
  - left. apply Hold. destruct (cancel_sound tid l (auth w) s l' (UsersFile.jobs (file w)) Hcn (H1 _ _ Hl)) as (_ & _ & _ & E).
    destruct Hc as [Hc Hc']. split; [|done]. unfold stored_hash in *. cbn [auth] in Hc. by rewrite E in Hc.
  - left. by apply Hold.
Qed.

Lemma on_disk_step w e w' n h : step w e = Some w' -> on_disk (file w) n h -> on_disk (file w') n h.
Proof.
  intros Hs (fc & us & u & Hp & H). exists fc, us, u. split; [|exact H].
  apply step_cases in Hs as
    [(m & p & ->)|[(tid & salt & l & s & p & f & Hl & Hg & ->)|[(tid & l & s & l' & Hl & Hcn & ->)|(d & f & Hf & ->)]]]; try exact Hp.
  - destruct (go_file _ _ _ _ _ _ _ Hg) as [->|[j Hj]]; [exact Hp | by eapply UsersFile.step_past].
  - by eapply UsersFile.step_past.
Qed.

(** *** What logins hold *)

(** The permit of [verify_slots], that of [claim_slots], the claim mutex, the gate. *)
Definition hashing (p : Pc) : bool :=
  match p with Prepare | ReadHash | PrepareClaim | CheckClaimed _ | Verify1 _ | Verify2 _ => true | _ => false end.
Definition claiming (p : Pc) : bool :=
  match p with
  | CommitWait _ | CommitCheck _ | CommitExists _ | CommitStart _ _ | CommitPersist _ _ | CommitCache _ => true
  | _ => false
  end.
Definition locking (p : Pc) : bool :=
  match p with
  | CommitCheck _ | CommitExists _ | CommitStart _ _ | CommitPersist _ _ | CommitCache _ => true
  | _ => false
  end.
Definition gating (p : Pc) : option bytes :=
  match p with
  | GateCheck wk | WaitClaimSlot wk | CommitWait wk | CommitCheck wk | CommitExists wk | CommitStart wk _
  | CommitPersist wk _ | CommitCache wk => Some (wname wk)
  | _ => None
  end.

Definition holders (P : Pc -> bool) (ls : list Login) : nat := length (List.filter (fun l => P (pc l)) ls).

Lemma holders_app P ls l : holders P (ls ++ [l]) = (holders P ls + Nat.b2n (P (pc l)))%nat.
Proof. unfold holders. rewrite List.filter_app, length_app. cbn. by destruct (P (pc l)). Qed.

Lemma holders_insert P ls i l l' : ls !! i = Some l ->
  (holders P (<[i:=l']> ls) + Nat.b2n (P (pc l)) = holders P ls + Nat.b2n (P (pc l')))%nat.
Proof.
  unfold holders. revert i. induction ls as [|k ls IH]; intros [|i] H; try done.
  - injection H as ->. cbn. destruct (P (pc l)), (P (pc l')); cbn; lia.
  - specialize (IH _ H). change (<[S i:=l']> (k :: ls)) with (k :: <[i:=l']> ls).
    cbn [List.filter]. destruct (P (pc k)); cbn [length]; lia.
Qed.

Lemma holders_some P ls : (0 < holders P ls)%nat -> exists tid l, ls !! tid = Some l /\ P (pc l) = true.
Proof.
  unfold holders. induction ls as [|k ls IH]; cbn; [lia|]. destruct (P (pc k)) eqn:E.
  - intros _. by exists 0%nat, k.
  - intros H. destruct (IH H) as (tid & l & ? & ?). by exists (S tid), l.
Qed.

(** Permits are conserved: what a step takes or gives back shows in where the login is. *)
Definition conserves (p : Pc) (s : AuthState) (p' : Pc) (s' : AuthState) : Prop :=
  (verify_slots s' + Nat.b2n (hashing p') = verify_slots s + Nat.b2n (hashing p))%nat /\
  (claim_slots s' + Nat.b2n (claiming p') = claim_slots s + Nat.b2n (claiming p))%nat.

(** A login's gate and mutex are held while it is where it holds them. *)
Definition accounted (tid : nat) (p : Pc) (s : AuthState) : Prop :=
  (forall n, claim_gates s !! n = Some tid -> gating p = Some n) /\
  (claim_lock s = Some tid -> locking p = true).

Lemma accounted_end tid wk p s : accounted tid p s -> gating p = Some (wname wk) ->
  accounted tid Gone (end_claim (wname wk) s).
Proof.
  intros [H1 H2] Hg. split; [|done]. intros n. cbn. rewrite lookup_delete_Some. intros [Hn H%H1]. congruence.
Qed.
Lemma accounted_release tid wk p s : accounted tid p s -> gating p = Some (wname wk) -> locking p = false ->
  accounted tid Gone (release_gate (wname wk) s).
Proof.
  intros [H1 H2] Hg Hl. split; cbn; [|intros E; specialize (H2 E); congruence].
  intros n. rewrite lookup_delete_Some. intros [Hn H%H1]. congruence.
Qed.

Lemma accounted_pc tid p p' s : accounted tid p s -> gating p' = gating p -> locking p' = locking p -> accounted tid p' s.
Proof. unfold accounted. by intros H -> ->. Qed.

Lemma go_conserves tid salt l w s p f : go tid salt l w = Some (s, p, f) -> conserves (pc l) (auth w) p s.
Proof.
  unfold Auth.go, verify_against_committed, resume. intros H. destruct (pc l) eqn:Ep; try done.
  14: { match type of H with (?x ≫= _ = _) => destruct x as [f'|]; [|done]; injection H as <- <- <- end. by split. }
  14: { destruct (UsersFile.jobs (file w) !! pid) as [[j [[[o|o|o]| | | | | | | | | | | | | | | | | ]|]]|]; try discriminate H.
        destruct o; injection H as <- <- <-; destruct (cancelled l); split; cbn; lia. }
  all: try (destruct (argon2_verify _ _); injection H as <- <- <-; destruct (cancelled l); split; cbn; lia).
  all: repeat match type of H with
    | context [match ?x with _ => _ end] => destruct x eqn:?
    | context [if ?x then _ else _] => destruct x eqn:?
    end; try discriminate H; injection H as <- <- <-; split; cbn; lia.
Qed.

Lemma go_accounted tid salt l w s p f : go tid salt l w = Some (s, p, f) ->
  accounted tid (pc l) (auth w) -> accounted tid p s.
Proof.
  unfold Auth.go, verify_against_committed, resume. intros H Ha. destruct (pc l) eqn:Ep; try done.
  14: { match type of H with (?x ≫= _ = _) => destruct x as [f'|]; [|done]; injection H as <- <- <- end. exact Ha. }
  14: { destruct (UsersFile.jobs (file w) !! pid) as [[j [[[o|o|o]| | | | | | | | | | | | | | | | | ]|]]|]; try discriminate H.
        destruct o; injection H as <- <- <-; [exact Ha|..];
          destruct (cancelled l); (eapply accounted_pc; [by eapply (accounted_end tid w0) | done..]). }
  all: try (destruct (argon2_verify _ _); injection H as <- <- <-; destruct (cancelled l); exact Ha).
  all: repeat match type of H with
    | context [match ?x with _ => _ end] => destruct x eqn:?
    | context [if ?x then _ else _] => destruct x eqn:?
    end; try discriminate H; injection H as <- <- <-; try exact Ha.
  - destruct Ha as [H1 H2]. split; cbn; [|exact H2]. intros n. rewrite lookup_insert.
    destruct (decide (wname w0 = n)) as [->|]; [done | by intros E%H1].
  - eapply accounted_pc; [by eapply (accounted_release tid w0) | done..].
  - destruct Ha as [H1 H2]. split; cbn; [exact H1 | done].
  - eapply accounted_pc; [by eapply (accounted_end tid w0) | done..].
  - eapply accounted_pc; [by eapply (accounted_end tid w0) | done..].
  - eapply accounted_pc; [by eapply (accounted_end tid w0) | done..].
  - eapply accounted_pc; [by eapply (accounted_end tid w0) | done..].
Qed.

(** The permits of the whole server, and who holds what. *)
Record Held (slots : nat) (w : World) : Prop := {
  h_verify : (verify_slots (auth w) + holders hashing (logins w) = slots)%nat;
  h_claim : (claim_slots (auth w) + holders claiming (logins w) = CLAIM_SLOTS)%nat;
  h_accounted : forall tid l, logins w !! tid = Some l -> accounted tid (pc l) (auth w);
  h_owners : forall tid, (exists n, claim_gates (auth w) !! n = Some tid) \/ claim_lock (auth w) = Some tid ->
    (tid < length (logins w))%nat
}.

Lemma cancel_held tid l s s' l' : cancel l s = (s', l') ->
  conserves (pc l) s (pc l') s' /\ (accounted tid (pc l) s -> accounted tid (pc l') s') /\ claim_lock s' = claim_lock s /\
  (forall n q, claim_gates s' !! n = Some q -> claim_gates s !! n = Some q).
Proof.
  unfold cancel. destruct (pc l) eqn:E; intros [= <- <-]; cbn [pc]; rewrite ?E; try (split; [by split | done]).
  split; [by split|]. split; [|split; [done|]].
  - intros H. eapply accounted_pc; [by eapply (accounted_release tid w) | done..].
  - intros n q. cbn. rewrite lookup_delete_Some. tauto.
Qed.

Lemma step_Held us c w e w' slots : WInv us c w -> step w e = Some w' -> Held slots w -> Held slots w'.
Proof.
  intros [H1 H2 H3 H4 H5] Hs [G1 G2 G3 G4]. apply step_cases in Hs as
    [(m & p & ->)|[(tid & salt & l & s & p & f & Hl & Hg & ->)|[(tid & l & s & l' & Hl & Hcn & ->)|(d & f & Hf & ->)]]].
  - split; cbn [auth logins]; rewrite ?holders_app; cbn; try lia.
    + intros tid l Hl. apply lookup_app_Some in Hl as [Hl|[Hge Hl]]; [by apply G3|].
      apply list_lookup_singleton_Some in Hl as [E <-]. split; intros; exfalso;
        assert (tid < length (logins w))%nat by (apply G4; eauto); lia.
    + intros tid Ht%G4. rewrite length_app. lia.
  - destruct (go_conserves _ _ _ _ _ _ _ Hg) as [C1 C2].
    pose proof (go_sound _ _ _ _ _ _ _ Hg H3 H2 (disk_hashes _ _ H5) (H1 _ _ Hl)) as (He & _ & _).
    pose proof (holders_insert hashing _ _ _ (mkLogin (lname l) (lpassword l) p (cancelled l)) Hl) as K1.
    pose proof (holders_insert claiming _ _ _ (mkLogin (lname l) (lpassword l) p (cancelled l)) Hl) as K2.
    cbn [pc] in K1, K2. pose proof (lookup_lt_Some _ _ _ Hl) as Hlt.
    split; cbn [auth logins]; [lia | lia | |].
    + intros q l0 Hq. destruct (decide (q = tid)) as [->|Hne].
      * rewrite list_lookup_insert_eq in Hq by done. injection Hq as <-. cbn [pc].
        apply (go_accounted _ _ _ _ _ _ _ Hg). by apply G3.
      * rewrite list_lookup_insert_ne in Hq by congruence. destruct (G3 _ _ Hq) as [A1 A2].
        split; [intros n; rewrite (ev_gates _ _ _ He q n Hne); apply A1 | rewrite (ev_lock _ _ _ He q Hne); apply A2].
    + intros q Hq. rewrite length_insert. destruct (decide (q = tid)) as [->|Hne]; [done|]. apply G4.
      destruct Hq as [[n Hn]|Hq]; [left; exists n; by apply (ev_gates _ _ _ He q n Hne) | right; by apply (ev_lock _ _ _ He q Hne)].
  - pose proof (cancel_held tid _ _ _ _ Hcn) as ([C1 C2] & A & Elock & Egate).
    pose proof (cancel_sound tid l (auth w) s l' (UsersFile.jobs (file w)) Hcn (H1 _ _ Hl)) as (He & _).
    pose proof (holders_insert hashing _ _ _ l' Hl) as K1. pose proof (holders_insert claiming _ _ _ l' Hl) as K2.
    pose proof (lookup_lt_Some _ _ _ Hl) as Hlt.
    split; cbn [auth logins]; [lia | lia | |].
    + intros q l0 Hq. destruct (decide (q = tid)) as [->|Hne].
      * rewrite list_lookup_insert_eq in Hq by done. injection Hq as <-. apply A. by apply G3.
      * rewrite list_lookup_insert_ne in Hq by congruence. destruct (G3 _ _ Hq) as [A1 A2].
        split; [intros n; rewrite (ev_gates _ _ _ He q n Hne); apply A1 | rewrite Elock; apply A2].
    + intros q Hq. rewrite length_insert. apply G4. rewrite <- Elock. destruct Hq as [[n Hn]|Hq]; [left; eauto | by right].
  - by split.
Qed.

Lemma boot_Held anon us r par s c : build anon us r par = Ok s -> Held (verify_slots s) (boot s c).
Proof.
  intros H. apply build_Ok in H as (_ & Hl & Hg & _ & Hc & _ & _). split; cbn [auth logins boot].
  - apply Nat.add_0_r.
  - by rewrite Hc.
  - intros tid l. by rewrite lookup_nil.
  - intros tid [[n Hn]|Ht]; [by rewrite Hg, lookup_empty in Hn | congruence].
Qed.

Lemma run_Held us c es w slots : WInv us c w -> Held slots w -> Held slots (run es w).
Proof.
  intros Hw Hh. refine (proj2 (world_run_ind (fun w' => WInv us c w' /\ Held slots w') es w _ _)); [|done].
  intros w1 e w2 [Hi Hh1] Hs. split; [exact (step_WInv _ _ _ _ _ Hs Hi) | exact (step_Held _ _ _ _ _ _ Hi Hs Hh1)].
Qed.

(** A login that is where it holds a gate, or the mutex, holds it. *)
Lemma gating_gated tid l s js n : pc_ok tid l s js -> gating (pc l) = Some n -> claim_gates s !! n = Some tid.
Proof. unfold pc_ok. destruct (pc l); intros H [= <-]; cbn in H; unfold locked, gated in H; tauto. Qed.
Lemma locking_locked tid l s js : pc_ok tid l s js -> locking (pc l) = true -> claim_lock s = Some tid.
Proof. unfold pc_ok. destruct (pc l); intros H Hp; try discriminate Hp; cbn in H; unfold locked in H; tauto. Qed.

(** Where a login can go on: everywhere but at a gate, a permit, the mutex and the job it
    waits for. *)
Definition finished (p : Pc) : bool := match p with Done _ | Gone => true | _ => false end.
Definition blocked (p : Pc) (w : World) : Prop :=
  match p with
  | WaitVerify1 | WaitVerify2 _ => verify_slots (auth w) = 0%nat
  | WaitGate wk => is_Some (claim_gates (auth w) !! wname wk)
  | WaitClaimSlot _ => claim_slots (auth w) = 0%nat
  | CommitWait _ => is_Some (claim_lock (auth w))
  | CommitPersist _ pid => forall j a, UsersFile.jobs (file w) !! pid <> Some (j, Some (UsersFile.Ret (UsersFile.AClaim a)))
  | _ => False
  end.

Lemma go_enabled tid salt l w : finished (pc l) = false -> go tid salt l w = None -> blocked (pc l) w.
Proof.
  unfold Auth.go, blocked, verify_against_committed. intros Hf H. destruct (pc l); try discriminate Hf;
    try (cbn in H; discriminate H).
  all: try (intros j a E; rewrite E in H; destruct a; discriminate H).
  all: repeat match type of H with
    | context [match ?x with _ => _ end] => destruct x eqn:?
    | context [if ?x then _ else _] => destruct x eqn:?
    end; try discriminate H; try done; eauto.
Qed.

(** A claim that is given the mutex waits for its own job only. *)
Definition waits_for_disk (w : World) : Prop := exists tid l wk pid, logins w !! tid = Some l /\
  pc l = CommitPersist wk pid /\
  forall j a, UsersFile.jobs (file w) !! pid <> Some (j, Some (UsersFile.Ret a)).
Definition someone_goes (w : World) : Prop := exists tid, forall salt, is_Some (step w (Go tid salt)).

Lemma progress us c slots w tid l : WInv us c w -> Held slots w -> (0 < slots)%nat ->
  logins w !! tid = Some l -> finished (pc l) = false -> someone_goes w \/ waits_for_disk w.
Proof.
  intros Hw Hh Hs Hl Hf.
  assert (Hgo : forall t k, logins w !! t = Some k -> finished (pc k) = false ->
    someone_goes w \/ blocked (pc k) w).
  { intros t k Hk Hfk. destruct (go t [] k w) as [[[s p] f]|] eqn:E; [left|right; by eapply go_enabled].
    exists t. intros salt. cbn [Auth.step]. rewrite Hk. cbn.
    destruct (go t salt k w) as [[[s' p'] f']|] eqn:E'; [by eexists|]. exfalso.
    pose proof (go_enabled _ _ _ _ Hfk E') as Hb. revert E Hb. unfold Auth.go, blocked.
    destruct (pc k); try done; try (by intros _ []).
    all: try (intros H Hb; (rewrite Hb in H || (destruct Hb as [? Hb]; rewrite Hb in H)); discriminate H).
    - destruct (UsersFile.jobs (file w) !! pid) as [[j [[[o|o|o]| | | | | | | | | | | | | | | | | ]|]]|]; try done.
      intros _ H. by destruct (H _ _ eq_refl). }
  (* the mutex *)
  assert (Hlock : forall t, claim_lock (auth w) = Some t -> someone_goes w \/ waits_for_disk w).
  { intros t Ht. destruct (lookup_lt_is_Some_2 (logins w) t) as [k Hk]; [apply (h_owners _ _ Hh); by right|].
    pose proof (proj2 (h_accounted _ _ Hh _ _ Hk) Ht) as Hlk.
    destruct (Hgo _ _ Hk) as [|Hb]; [by destruct (pc k) | by left |].
    destruct (pc k) eqn:Ep; try discriminate Hlk; try (by destruct Hb). right. exists t, k, w0, pid.
    split_and!; [done | done |]. intros j a E. cbn [blocked] in Hb.
    pose proof (w_pc _ _ _ Hw _ _ Hk) as Hpc. unfold pc_ok in Hpc. rewrite Ep in Hpc.
    destruct Hpc as (_ & _ & _ & fb & o & Hj & _). rewrite E in Hj. injection Hj as -> <-.
    destruct (UsersFile.Inv_told _ _ _ _ _ _ _ (w_file _ _ _ Hw) E) as (rs & Ht' & _).
    destruct a as [a|a|a]; [by eapply Hb | done | done]. }
  assert (Hcommit : forall t k, logins w !! t = Some k -> claiming (pc k) = true -> someone_goes w \/ waits_for_disk w).
  { intros t k Hk Hc. destruct (Hgo _ _ Hk) as [|Hb]; [by destruct (pc k) | by left |].
    destruct (locking (pc k)) eqn:El.
    - apply (Hlock t). by eapply locking_locked; [apply (w_pc _ _ _ Hw)|].
    - destruct (pc k); try discriminate Hc; try discriminate El. destruct Hb as [t' Ht']. by apply (Hlock t'). }
  assert (Hgate : forall t k, logins w !! t = Some k -> is_Some (gating (pc k)) -> someone_goes w \/ waits_for_disk w).
  { intros t k Hk [n Hn]. destruct (claiming (pc k)) eqn:Ec; [by eapply Hcommit|].
    destruct (Hgo _ _ Hk) as [|Hb]; [by destruct (pc k) | by left |].
    destruct (pc k); try discriminate Hn; try discriminate Ec; [done|].
    cbn [blocked] in Hb. pose proof (h_claim _ _ Hh) as Hc. unfold CLAIM_SLOTS in Hc.
    destruct (holders_some claiming (logins w)) as (t' & k' & Hk' & Hc'); [lia | by eapply Hcommit]. }
  assert (Hverify : verify_slots (auth w) = 0%nat -> someone_goes w \/ waits_for_disk w).
  { intros Hv. pose proof (h_verify _ _ Hh) as Hc.
    destruct (holders_some hashing (logins w)) as (t & k & Hk & Hp); [lia|].
    destruct (Hgo _ _ Hk) as [|Hb]; [by destruct (pc k) | by left | by destruct (pc k)]. }
  destruct (Hgo _ _ Hl Hf) as [|Hb]; [by left|].
  destruct (claiming (pc l)) eqn:Ec; [by eapply Hcommit|].
  destruct (pc l) eqn:Ep; try discriminate Ec; try done; try (by apply Hverify).
  - cbn [blocked] in Hb. destruct Hb as [t Ht].
    destruct (lookup_lt_is_Some_2 (logins w) t) as [k Hk]; [apply (h_owners _ _ Hh); left; eauto|].
    pose proof (proj1 (h_accounted _ _ Hh _ _ Hk) _ Ht) as Hg. eapply Hgate; eauto.
  - eapply Hgate; [exact Hl | by rewrite Ep; eexists].
Qed.

Lemma run_durable anon us r par s c es : build anon us r par = Ok s -> forall n u,
  Users.find n (users (auth (run es (boot s c)))) = Some u -> hash u <> INIT_HASH ->
  (exists v, Users.find n us = Some v /\ hash v = hash u) \/ on_disk (file (run es (boot s c))) n (hash u).
Proof.
  intros Hb. pose proof (build_Ok _ _ _ _ _ Hb) as (Hus & _).
  refine (proj2 (world_run_ind (fun w => WInv us c w /\ forall n u, Users.find n (users (auth w)) = Some u -> hash u <> INIT_HASH ->
    (exists v, Users.find n us = Some v /\ hash v = hash u) \/ on_disk (file w) n (hash u)) es (boot s c) _ _)).
  - intros w e w' [Hw IH] Hs. split; [exact (step_WInv _ _ _ _ _ Hs Hw)|]. intros n u Hu Hne.
    destruct (step_durable _ _ _ _ _ _ _ Hw Hs Hu Hne) as [(v & Hv & E)|]; [|by right].
    rewrite <- E in *. destruct (IH _ _ Hv Hne) as [|H]; [by left|]. right. by eapply on_disk_step.
  - split; [by eapply boot_WInv|]. cbn [auth boot]. rewrite Hus. intros n u Hu _. left. eauto.
Qed.

(** ** Theorems *)

(** C16: A login that succeeds names an account that the startup configuration has and
    enables, and its password verifies against the hash the server holds for it: never an
    unclaimed one, never a password that a stale cache entry lets in; through the cache,
    the first check, a claim or the check after a lost claim. *)
Theorem login_sound anon us r par s c es tid l : build anon us r par = Ok s ->
  logins (run es (boot s c)) !! tid = Some l -> pc l = Done true ->
  exists u u', Users.find (lname l) us = Some u /\ is_enabled u = true /\
    Users.find (lname l) (users (auth (run es (boot s c)))) = Some u' /\ hash u' <> INIT_HASH /\
    argon2_verify (hash u') (lpassword l) = true.
Proof.
  intros Hb Hl Hp. pose proof (run_WInv us c es _ (boot_WInv _ _ _ _ _ c Hb)) as Hw.
  pose proof (w_pc _ _ _ Hw _ _ Hl) as Hpc. unfold pc_ok in Hpc. rewrite Hp in Hpc.
  destruct Hpc as ([e He] & h & [Hst Hne] & Hv). unfold enabled_entry in He. unfold entry_index in Hst.
  rewrite (run_entries us c) in He, Hst by (by eapply boot_WInv). cbn [auth boot] in He, Hst.
  pose proof (build_entry _ _ _ _ _ (lname l) Hb) as Hent. pose proof (find_stored us c _ (lname l) Hw) as Hf.
  pose proof (Users.position_find (lname l) us) as Hpos.
  destruct (Users.position (lname l) us) as [k|]; [|by rewrite Hent in He].
  destruct Hent as (u & e' & Hu & He' & <- & Hen). rewrite He' in He, Hst. destruct Hpos as (u1 & Hu1 & Hf1).
  destruct Hf as (u' & Hu' & Hs'). exists u, u'. rewrite Hu in Hu1. injection Hu1 as <-.
  destruct (enabled e') eqn:E; [|done]. rewrite Hs' in Hst. split_and!; congruence.
Qed.

(** The first password an account without one is given stays: once the server holds a
    hash for a name, no later event of any login, cancellation, failing write or change on
    disk replaces it. *)
Theorem hash_committed_once anon us r par s c es es' n u : build anon us r par = Ok s ->
  Users.find n (users (auth (run es (boot s c)))) = Some u -> hash u <> INIT_HASH ->
  exists u', Users.find n (users (auth (run es' (run es (boot s c))))) = Some u' /\ hash u' = hash u.
Proof.
  intros Hb Hu Hne. pose proof (run_WInv us c es _ (boot_WInv _ _ _ _ _ c Hb)) as Hw.
  destruct (find_known _ _ _ _ _ Hw Hu) as (i & Hi & Hst).
  pose proof (find_stored us c _ n (run_WInv us c es' _ Hw)) as Hf. rewrite Hi in Hf. destruct Hf as (u' & Hu' & Hs').
  exists u'. split; [exact Hu'|]. rewrite <- Hs'.
  by destruct (run_committed us c es' _ i (hash u) Hw (conj (eq_sym Hst) Hne)).
Qed.

(** C17: A password chosen by a login is on disk before the server accepts it: if the
    account of a name had the placeholder at startup, then the hash the server now holds
    for it is that account's in a content the users file has had, written by a claim of
    this server or found there, whoever wrote it. *)
Theorem claim_durable anon us r par s c es n u0 u : build anon us r par = Ok s ->
  Users.find n us = Some u0 -> hash u0 = INIT_HASH ->
  Users.find n (users (auth (run es (boot s c)))) = Some u -> hash u <> INIT_HASH ->
  on_disk (file (run es (boot s c))) n (hash u).
Proof.
  intros Hb H0 Hi Hu Hne. destruct (run_durable _ _ _ _ _ c es Hb n u Hu Hne) as [(v & Hv & E)|]; congruence.
Qed.

(** The permits are conserved through every path, cancellations included: the logins
    that hash and the free [verify_slots] are the initial ones, those that commit a claim
    and the free [claim_slots] are two; one login at most holds an account's gate, and one
    commits at a time. *)
Theorem permits_conserved anon us r par s c es : build anon us r par = Ok s ->
  let w := run es (boot s c) in
  (verify_slots (auth w) + holders hashing (logins w) = verify_slots s)%nat /\
  (claim_slots (auth w) + holders claiming (logins w) = CLAIM_SLOTS)%nat /\
  (forall t1 t2 l1 l2 n, logins w !! t1 = Some l1 -> logins w !! t2 = Some l2 ->
     gating (pc l1) = Some n -> gating (pc l2) = Some n -> t1 = t2) /\
  (forall t1 t2 l1 l2, logins w !! t1 = Some l1 -> logins w !! t2 = Some l2 ->
     locking (pc l1) = true -> locking (pc l2) = true -> t1 = t2).
Proof.
  intros Hb w. pose proof (run_WInv us c es _ (boot_WInv _ _ _ _ _ c Hb)) as Hw. fold w in Hw.
  pose proof (run_Held us c es _ _ (boot_WInv _ _ _ _ _ c Hb) (boot_Held _ _ _ _ _ c Hb)) as Hh. fold w in Hh.
  split; [apply Hh|]. split; [apply Hh|]. split.
  - intros t1 t2 l1 l2 n H1 H2 G1 G2. pose proof (gating_gated _ _ _ _ _ (w_pc _ _ _ Hw _ _ H1) G1) as E1.
    pose proof (gating_gated _ _ _ _ _ (w_pc _ _ _ Hw _ _ H2) G2) as E2. congruence.
  - intros t1 t2 l1 l2 H1 H2 G1 G2. pose proof (locking_locked _ _ _ _ (w_pc _ _ _ Hw _ _ H1) G1) as E1.
    pose proof (locking_locked _ _ _ _ (w_pc _ _ _ Hw _ _ H2) G2) as E2. congruence.
Qed.

(** C34: Logins never deadlock on gates, permits and the mutex, whatever is cancelled
    where: while one is unfinished, some login can go on, unless the one that holds the
    mutex waits for its own write of the users file. *)
Theorem logins_progress anon us r par s c es tid l : build anon us r par = Ok s -> par <> Some 0%nat ->
  logins (run es (boot s c)) !! tid = Some l -> finished (pc l) = false ->
  someone_goes (run es (boot s c)) \/ waits_for_disk (run es (boot s c)).
Proof.
  intros Hb Hp Hl Hf. apply (progress us c (verify_slots s) _ tid l); [| | |done|done].
  - apply run_WInv. by eapply boot_WInv.
  - eapply run_Held; [by eapply boot_WInv | by eapply boot_Held].
  - apply build_Ok in Hb as (_ & _ & _ & _ & _ & -> & _). destruct par as [[|n]|]; [done|lia|lia].
Qed.

End Invariant.

(** ** A concrete server *)

Definition dave : User := Users.mkUser (lit "dave") INIT_HASH true false None.
Definition toy_hash (salt p : bytes) : option bytes := Some (lit "$argon2id$" ++ p).
Definition toy_verify (h p : bytes) : bool := bool_decide (h = lit "$argon2id$" ++ p).
Definition toy_hmac (k m : bytes) : bytes := m.
Definition dave_pw : User := set_hash (lit "$argon2id$pw") dave.

#[local] Existing Instance Users.User_eq_dec.
Definition toy_to_string (us : UsersConfig) : option bytes :=
  if bool_decide (us = [dave]) then Some (lit "0") else if bool_decide (us = [dave_pw]) then Some (lit "1") else None.
Definition toy_from_str (b : bytes) : option UsersConfig :=
  if bool_decide (b = lit "0") then Some [dave] else if bool_decide (b = lit "1") then Some [dave_pw] else None.

Lemma demo_codec us text : toy_to_string us = Some text -> toy_from_str text = Some us.
Proof.
  unfold toy_to_string. case_bool_decide; [intros [= <-]; by subst|].
  case_bool_decide; [intros [= <-]; by subst | done].
Qed.
Lemma toy_argon salt p h : toy_hash salt p = Some h -> h <> INIT_HASH /\ toy_verify h p = true.
Proof. intros [= <-]. split; [discriminate | by apply bool_decide_eq_true]. Qed.
Lemma toy_hmac_inj k a b : toy_hmac k a = toy_hmac k b -> a = b.
Proof. done. Qed.

(** Two logins race to choose dave's password: the first writes it, the second, whose
    password is another, is told. *)
Definition race : list Event :=
  Arrive (lit "dave") (lit "pw") :: Arrive (lit "dave") (lit "other") ::
  replicate 6 (Go 0 []) ++ replicate 6 (Go 1 []) ++ replicate 7 (Go 0 []) ++
  replicate 14 (OnDisk (UsersFile.Run 0 UsersFile.Works)) ++ replicate 3 (Go 0 []) ++ replicate 5 (Go 1 []).
Notation toy_state := (mkAuth [dave] None (<[lit "dave" := mkEntry 0 true false None]> ∅) 2 CLAIM_SLOTS ∅ false [] ∅).
Notation toy_disk := (Some (UsersFile.mkFile 384 (lit "0"))).
Notation toy_world es := (run toy_to_string toy_from_str toy_hash toy_verify toy_hmac es (boot toy_state toy_disk)).

Example race_ex : map pc (logins (toy_world race)) = [Done true; Done false] /\
  users (auth (toy_world race)) = [dave_pw] /\
  UsersFile.target (UsersFile.disk (file (toy_world race))) = Some (UsersFile.mkFile 384 (lit "1")).
Proof. vm_compute. repeat split. Qed.

Notation toy_build := (build false [dave] (Some []) (Some 2%nat)).
Lemma toy_built : toy_build = Ok toy_state.
Proof. vm_compute. reflexivity. Qed.
Notation login_at w i := (default (mkLogin [] [] Gone true) (logins w !! i)).

Lemma login_sound_witness :
  logins (toy_world race) !! 0%nat = Some (mkLogin (lit "dave") (lit "pw") (Done true) false) /\
  exists u u', Users.find (lit "dave") [dave] = Some u /\ is_enabled u = true /\
    Users.find (lit "dave") (users (auth (toy_world race))) = Some u' /\ hash u' <> INIT_HASH /\
    toy_verify (hash u') (lit "pw") = true.
Proof.
  assert (H : logins (toy_world race) !! 0%nat = Some (mkLogin (lit "dave") (lit "pw") (Done true) false))
    by (vm_compute; reflexivity).
  split; [exact H|].
  exact (login_sound toy_to_string toy_from_str toy_hash toy_verify toy_hmac toy_argon toy_hmac_inj
    false [dave] (Some []) (Some 2%nat) toy_state toy_disk race 0 _ toy_built H eq_refl).
Defined.

Lemma hash_committed_once_witness :
  Users.find (lit "dave") (users (auth (toy_world race))) = Some dave_pw /\
  exists u', Users.find (lit "dave") (users (auth (run toy_to_string toy_from_str toy_hash toy_verify toy_hmac
    race (toy_world race)))) = Some u' /\ hash u' = hash dave_pw.
Proof.
  assert (H : Users.find (lit "dave") (users (auth (toy_world race))) = Some dave_pw) by (vm_compute; reflexivity).
  split; [exact H|].
  refine (hash_committed_once toy_to_string toy_from_str toy_hash toy_verify toy_hmac toy_argon toy_hmac_inj
    false [dave] (Some []) (Some 2%nat) toy_state toy_disk race race _ _ toy_built H _). discriminate.
Defined.

Lemma claim_durable_witness :
  Users.find (lit "dave") (users (auth (toy_world race))) = Some dave_pw /\
  on_disk toy_from_str (file (toy_world race)) (lit "dave") (hash dave_pw).
Proof.
  assert (H : Users.find (lit "dave") (users (auth (toy_world race))) = Some dave_pw) by (vm_compute; reflexivity).
  split; [exact H|].
  refine (claim_durable toy_to_string toy_from_str toy_hash toy_verify toy_hmac toy_argon toy_hmac_inj demo_codec
    false [dave] (Some []) (Some 2%nat) toy_state toy_disk race (lit "dave") dave dave_pw toy_built eq_refl eq_refl H _).
  discriminate.
Defined.

Lemma permits_conserved_witness :
  let w := toy_world (take 22 race) in
  map pc (logins w) <> [] /\
  (verify_slots (auth w) + holders hashing (logins w) = 2)%nat /\
  (claim_slots (auth w) + holders claiming (logins w) = CLAIM_SLOTS)%nat.
Proof.
  intros w. split; [vm_compute; discriminate|].
  destruct (permits_conserved toy_to_string toy_from_str toy_hash toy_verify toy_hmac toy_argon toy_hmac_inj
    false [dave] (Some []) (Some 2%nat) toy_state toy_disk (take 22 race) toy_built) as (H1 & H2 & _).
  split; [exact H1 | exact H2].
Defined.

Lemma logins_progress_witness :
  let w := toy_world (take 22 race) in
  finished (pc (login_at w 1%nat)) = false /\
  (someone_goes toy_to_string toy_from_str toy_hash toy_verify toy_hmac w \/ waits_for_disk w).
Proof.
  intros w. assert (H : logins w !! 1%nat = Some (login_at w 1%nat)) by (vm_compute; reflexivity).
  split; [vm_compute; reflexivity|].
  refine (logins_progress toy_to_string toy_from_str toy_hash toy_verify toy_hmac toy_argon toy_hmac_inj
    false [dave] (Some []) (Some 2%nat) toy_state toy_disk (take 22 race) 1 _ toy_built _ H _).
  - discriminate.
  - vm_compute; reflexivity.
Defined.

End Auth.
