(* ===== verification/Dial.v ===== *)
(** * Dial: connecting to an upstream, directly and through a chain of nodes

    Model of [connect/dial/mod.rs], [connect/dial/chain.rs],
    [connect/dial/tcp_dial.rs], of [https_on_stream] in
    [connect/tls/upstream_tls.rs] and of [connect_proxy_once] in
    [connect/proxy_connect/connect_proxy.rs].  A dial is a program over a world
    that has a clock, waits for what its peers do, and logs what it opens and
    which step it has reached: a budget cuts the wait that is in progress when
    it runs out.  TCP connects, the TLS layer and base64 are parameters. *)
From S2P Require Import Prelude Text HostPort ProxyTypes Errors Stream Server Handshake ChainPlan Upstream.

Module Dial.
Import Stream Upstream.
Export ChainPlan (ChainStage, SConnect, SHop, STarget, ChainError, mkChainError).

(** ** The world *)

Inductive mark :=
| Opened (host : bytes) (port : Z)  (* a TCP connect was started *)
| Reached (step : Z).               (* the progress cell was stored *)

Record world := mkWorld {
  now : Z;                     (* nanoseconds *)
  waits : nat;                 (* waits so far *)
  history : list (Z * mark) }.

Definition note (m : mark) (w : world) : world :=
  mkWorld (now w) (waits w) (history w ++ [(now w, m)]).
Definition wait_until (t : Z) (w : world) : world := mkWorld t (S (waits w)) (history w).

(** What a budget that ends at [t] lets happen. *)
Definition cut (t : Z) (w : world) : world :=
  mkWorld t (waits w) (List.filter (fun e => e.1 <=? t) (history w)).

(** A dial always returns: every wait in it has a deadline. *)
Definition D (E A : Type) : Type := world -> result E A * world.
#[export] Instance D_ret E : MRet (D E) := fun A a w => (Ok a, w).
#[export] Instance D_bind E : MBind (D E) := fun A B f m w =>
  match m w with
  | (Ok a, w') => f a w'
  | (Err e, w') => (Err e, w')
  end.
Definition err {E A} (e : E) : D E A := fun w => (Err e, w).
Definition lift {E A} (r : result E A) : D E A := fun w => (r, w).
Definition map_error {E E' A} (f : E -> E') (m : D E A) : D E' A := fun w =>
  let '(r, w') := m w in (map_err f r, w').
Definition map_ok {E A B} (f : A -> B) (m : D E A) : D E B := a ← m; mret (f a).
Definition tell {E} (m : mark) : D E unit := fun w => (Ok tt, note m w).

(** ** Chain stages *)

Definition USIZE_MAX : Z := U64_MAX.
Definition encode (s : ChainStage) : Z :=
  match s with
  | SConnect => 0
  | SHop n => Z.of_nat n + 1
  | STarget => USIZE_MAX
  end.
Definition decode (raw : Z) : ChainStage :=
  if raw =? 0 then SConnect
  else if raw =? USIZE_MAX then STarget
  else SHop (Z.to_nat (raw - 1)).

Definition stage_display (s : ChainStage) : bytes :=
  match s with
  | SConnect => lit "chain connect"
  | SHop n => lit "chain hop " ++ fmt_dec (Z.of_nat n)
  | STarget => lit "chain target"
  end.
Definition chain_error_display (e : ChainError) : bytes :=
  stage_display (ChainPlan.stage e) ++ lit ": " ++ Errors.display (ChainPlan.error e).

(** ** Options *)

Record DialOptions := mkDialOptions {
  connect_timeout : Z;
  handshake_timeout : Z;
  total_timeout : option Z }.
Definition default_options : DialOptions := mkDialOptions (from_secs 10) (from_secs 10) None.
Definition with_connect_timeout (o : DialOptions) (d : Z) : DialOptions :=
  mkDialOptions d (handshake_timeout o) (total_timeout o).
Definition with_handshake_timeout (o : DialOptions) (d : Z) : DialOptions :=
  mkDialOptions (connect_timeout o) d (total_timeout o).
Definition with_total_timeout_of (o : DialOptions) (d : Z) : DialOptions :=
  mkDialOptions (connect_timeout o) (handshake_timeout o) (Some d).

(** The target host without the brackets of an IPv6 literal. *)
Definition unbracket (host : bytes) : bytes :=
  match strip_prefix1 "["%char host with
  | Some h => match strip_suffix1 "]"%char h with Some h' => h' | None => host end
  | None => host
  end.

Section Dialing.
Context {X : Type}.
Variables (early_eof write_zero : IoError).
Variable encode64 : bytes -> bytes.
(** How long the [k]-th wait takes, if it ends by itself. *)
Variable pace : nat -> option N.
(** [TcpStream::connect], and the connection it gives. *)
Variable tcp_connect : bytes -> Z -> result IoError (conn X).
(** [ServerName::try_from], and the TLS handshake: the connection becomes the stream of
    what travels inside. *)
Variable valid_name : bytes -> bool.
Variable tls_connect : bytes -> conn X -> poll (result IoError unit) * conn X.

Abbreviation run_socks5 := (socks5_handshake (X := X) early_eof write_zero).
Abbreviation over_stream := (handshake_over_stream (X := X) early_eof write_zero).
Abbreviation run_http := (http_connect_handshake (X := X) write_zero encode64).
Abbreviation run_http_tcp := (http_connect_on_tcp (X := X) early_eof write_zero encode64).

(** [timeout_at(deadline, future)]: the future is polled before the deadline is looked at. *)
Definition await {A} (deadline : Z) (outcome : poll A) (w : world) : option A * world :=
  match outcome, pace (waits w) with
  | Ready a, Some d =>
      let t := now w + Z.of_N d in
      if t <=? deadline then (Some a, wait_until t w)
      else (None, wait_until (Z.max (now w) deadline) w)
  | _, _ => (None, wait_until (Z.max (now w) deadline) w)
  end.

(** A handshake under a deadline; on error the stream is dropped. *)
Definition shake (deadline : Z) (late : ConnectError) (m : M X ConnectError unit) (c : conn X)
    : D ConnectError (conn X) := fun w =>
  match await deadline (m c).1 w with
  | (Some (Ok _), w') => (Ok (m c).2, w')
  | (Some (Err e), w') => (Err e, w')
  | (None, w') => (Err late, w')
  end.

Definition timed_out (node : ProxyConfig) (after : Z) (kind : TimeoutKind) : ConnectError :=
  Timeout StageHandshake kind (upstream_endpoint node) after.

Definition tcp_dial (proxy : ProxyConfig) (connect_timeout : Z) : D ConnectError (conn X) := fun w =>
  let w := note (Opened (host proxy) (port proxy)) w in
  match await (now w + connect_timeout) (Ready (tcp_connect (host proxy) (port proxy))) w with
  | (Some (Ok s), w') => (Ok s, w')
  | (Some (Err e), w') => (Err (Io StageConnect (Some (upstream_endpoint proxy)) e), w')
  | (None, w') =>
      (Err (Timeout StageConnect TcpConnect (upstream_endpoint proxy) connect_timeout), w')
  end.

(** TLS to the proxy, then CONNECT inside, under one deadline. *)
Definition https_on_stream (target_addr : bytes) (proxy : ProxyConfig) (handshake_timeout : Z)
    (c : conn X) : D ConnectError (conn X) := fun w =>
  if negb (valid_name (host proxy))
  then (Err (Tls (lit "[HTTPS] invalid server name: " ++ host proxy) None), w)
  else
    let deadline := now w + handshake_timeout in
    match await deadline (tls_connect (host proxy) c).1 w with
    | (Some (Ok _), w') =>
        shake deadline (timed_out proxy handshake_timeout HttpsConnectHandshake)
          (run_http target_addr proxy) (tls_connect (host proxy) c).2 w'
    | (Some (Err e), w') =>
        (Err (Tls (lit "[HTTPS] TLS handshake to " ++ upstream_endpoint proxy ++ lit ": " ++ io_text e)
                  (Some e)), w')
    | (None, w') => (Err (timed_out proxy handshake_timeout HttpsTlsHandshake), w')
    end.
(** The chain's copy of it, over a type-erased stream. *)
Definition https_hop (node : ProxyConfig) (target : bytes) (hs : Z) : conn X -> D ConnectError (conn X) :=
  https_on_stream target node hs.

Inductive AnyUpstream :=
| Plain (c : conn X)
| TlsUpstream (c : conn X)
| Gate (c : conn X).

Definition total_timed_out (proxy : ProxyConfig) (total : Z) : ConnectError :=
  Timeout StageTotal Total (upstream_endpoint proxy) total.

(** [timeout(total, run)]; [late] looks at the world the cut leaves. *)
Definition within {E A} (total : Z) (late : world -> E) (run : D E A) : D E A := fun w =>
  let deadline := now w + total in
  let '(r, w') := run w in
  if now w' <=? deadline then (r, w') else (Err (late (cut deadline w')), cut deadline w').

(** ** One upstream *)

(** The protocol exchange on the fresh socket. *)
Definition exchange (proxy : ProxyConfig) (host_ : bytes) (port_ : Z) (hs : Z) (stream : conn X)
    : D ConnectError AnyUpstream := fun w =>
  let deadline := now w + hs in
  match protocol proxy with
  | Socks5 =>
      map_ok Plain (shake deadline (timed_out proxy hs Socks5Handshake)
                      (run_socks5 host_ port_ (socks5_auth proxy)) stream) w
  | Http =>
      map_ok Plain (shake deadline (timed_out proxy hs HttpHandshake)
                      (run_http_tcp (HostPort.format host_ port_) proxy) stream) w
  | Https => map_ok TlsUpstream (https_on_stream (HostPort.format host_ port_) proxy hs stream) w
  end.

Definition dial_inner (proxy : ProxyConfig) (host_ : bytes) (port_ : Z) (opts : DialOptions)
    (has_connector : bool) (on_tcp : D ConnectError unit) : D ConnectError AnyUpstream :=
  let host_ := unbracket host_ in
  _ ← lift (check_tls_slot proxy has_connector);
  stream ← tcp_dial proxy (connect_timeout opts);
  _ ← on_tcp;
  exchange proxy host_ port_ (handshake_timeout opts) stream.

Definition dial (proxy : ProxyConfig) (host_ : bytes) (port_ : Z) (opts : DialOptions)
    (has_connector : bool) : D ConnectError AnyUpstream :=
  let run := dial_inner proxy host_ port_ opts has_connector (mret tt) in
  match total_timeout opts with
  | None => run
  | Some total => within total (fun _ => total_timed_out proxy total) run
  end.
Definition dial_plain (proxy : ProxyConfig) (host_ : bytes) (port_ : Z) (opts : DialOptions)
    : D ConnectError AnyUpstream := dial proxy host_ port_ opts false.

Definition connect_proxy_once (target_addr : bytes) (proxy : ProxyConfig)
    (connect_timeout handshake_timeout : Z) (has_connector : bool) : D ConnectError AnyUpstream :=
  target ← lift (ok_or (InvalidTarget target_addr) (HostPort.parse target_addr));
  dial proxy (HostPort.host target) (HostPort.port target)
    (with_handshake_timeout (with_connect_timeout default_options connect_timeout) handshake_timeout)
    has_connector.

(** ** A chain of nodes *)

(** Fail before any socket is opened if an HTTPS node cannot be served. *)
Definition check_tls (nodes : list ProxyConfig) (has_connector : bool) : result ConnectError unit :=
  match List.find (fun n => bool_decide (protocol n = Https)) nodes, has_connector with
  | Some node, false =>
      Err (Tls (lit "HTTPS upstream " ++ host node ++ lit " requires TLS connector") None)
  | _, _ => Ok tt
  end.

Definition hop (node : ProxyConfig) (target : bytes) (hs : Z) (has_connector : bool) (stream : conn X)
    : D ConnectError (conn X) := fun w =>
  let deadline := now w + hs in
  match protocol node with
  | Socks5 =>
      shake deadline (timed_out node hs Socks5Handshake)
        (over_stream target (socks5_auth node)) stream w
  | Http =>
      shake deadline (timed_out node hs HttpHandshake) (run_http target node) stream w
  | Https =>
      if has_connector then https_hop node target hs stream w
      else (Err (Tls (lit "HTTPS upstream requires TLS connector") None), w)
  end.

(** What node [i] is asked for, and the stage that names it. *)
Definition next_target (target : bytes) (rest : list ProxyConfig) : bytes :=
  match rest with next :: _ => HostPort.format (host next) (port next) | [] => target end.
Definition stage_of (i : nat) (rest : list ProxyConfig) : ChainStage :=
  match rest with _ :: _ => SHop i | [] => STarget end.

(** [run_chain_hops], from node [i] on; [progress] is told each stage. *)
Fixpoint run_chain_hops (progress : ChainStage -> D (ChainStage * ConnectError) unit) (i : nat)
    (nodes : list ProxyConfig) (target : bytes) (hs : Z) (has_connector : bool) (stream : conn X)
    : D (ChainStage * ConnectError) (conn X) :=
  match nodes with
  | [] => mret stream
  | node :: rest =>
      _ ← progress (stage_of i rest);
      stream ← map_error (pair (stage_of i rest))
                 (hop node (next_target target rest) hs has_connector stream);
      run_chain_hops progress (S i) rest target hs has_connector stream
  end.

Definition as_chain_error (p : ChainStage * ConnectError) : ChainError := mkChainError p.1 p.2.
Definition store {E} (st : ChainStage) : D E unit := tell (Reached (encode st)).

(** The last stage stored. *)
Definition progress_cell (w : world) : Z :=
  foldl (fun acc e => match e.2 with Reached raw => raw | _ => acc end) 0 (history w).

Definition total_timeout_error (proxy : ProxyConfig) (total : Z) (w : world) : ChainError :=
  mkChainError (decode (progress_cell w)) (total_timed_out proxy total).

Definition with_total_timeout (proxy : ProxyConfig) (opts : DialOptions)
    (run : D ChainError AnyUpstream) (fail_if_elapsed : bool) : D ChainError AnyUpstream := fun w =>
  match total_timeout opts with
  | None => run w
  | Some total =>
      if fail_if_elapsed && (total =? 0) then (Err (total_timeout_error proxy total w), w)
      else within total (total_timeout_error proxy total) run w
  end.

(** A failed TCP connect is told from the rest by the error's own stage. *)
Definition single_stage (e : ConnectError) : ChainStage :=
  match e with
  | Timeout StageConnect _ _ _ | Io StageConnect _ _ => SConnect
  | _ => STarget
  end.

Definition chain_inner (proxy : ProxyConfig) (host_ : bytes) (port_ : Z) (opts : DialOptions)
    (has_connector : bool) : D ChainError AnyUpstream :=
  match gate proxy with
  | None =>
      map_error (fun e => mkChainError (single_stage e) e)
        (dial_inner proxy host_ port_ opts has_connector (store STarget))
  | Some _ =>
      let ns := nodes proxy in
      _ ← lift (map_err (mkChainError SConnect) (check_tls ns has_connector));
      tcp ← map_error (mkChainError SConnect) (tcp_dial (hd proxy ns) (connect_timeout opts));
      map_ok Gate (map_error as_chain_error
        (run_chain_hops store 0 ns (HostPort.format (unbracket host_) port_)
           (handshake_timeout opts) has_connector tcp))
  end.

Definition dial_chain (proxy : ProxyConfig) (host_ : bytes) (port_ : Z) (opts : DialOptions)
    (has_connector : bool) : D ChainError AnyUpstream :=
  _ ← store SConnect;
  with_total_timeout proxy opts (chain_inner proxy host_ port_ opts has_connector) false.

(** Over a transport the caller already has: no connect of any kind. *)
Definition dial_chain_over (stream : conn X) (proxy : ProxyConfig) (host_ : bytes) (port_ : Z)
    (opts : DialOptions) (has_connector : bool) : D ChainError AnyUpstream :=
  _ ← store SConnect;
  with_total_timeout proxy opts
    (let ns := nodes proxy in
     _ ← lift (map_err (mkChainError SConnect) (check_tls ns has_connector));
     map_ok Gate (map_error as_chain_error
       (run_chain_hops store 0 ns (HostPort.format (unbracket host_) port_)
          (handshake_timeout opts) has_connector stream))) true.

(** ** Specification *)

(** A node that grants a tunnel: what its handshake makes of the stream, untimed. *)
Definition speaks (node : ProxyConfig) (target : bytes) (c c' : conn X) : Prop :=
  match protocol node with
  | Socks5 => over_stream target (socks5_auth node) c = (Ready (Ok tt), c')
  | Http => run_http target node c = (Ready (Ok tt), c')
  | Https => exists cm, tls_connect (host node) c = (Ready (Ok tt), cm) /\
      run_http target node cm = (Ready (Ok tt), c')
  end.

(** The first [k] nodes have each granted the tunnel to the one after it. *)
Fixpoint tunnels (k : nat) (ns : list ProxyConfig) (target : bytes) (c c' : conn X) : Prop :=
  match k, ns with
  | O, _ => c' = c
  | S k', n :: rest => exists c1, speaks n (next_target target rest) c c1 /\ tunnels k' rest target c1 c'
  | S _, [] => False
  end.

(** A clock, without what was logged. *)
Definition strip (w : world) : world := mkWorld (now w) (waits w) [].

(** The first [k] nodes, asked one after the other from [w] on, have granted their
    tunnels; [w'] is when. *)
Fixpoint granted (k : nat) (ns : list ProxyConfig) (target : bytes) (hs : Z) (has_connector : bool)
    (c : conn X) (w : world) (c' : conn X) (w' : world) : Prop :=
  match k, ns with
  | O, _ => c' = c /\ w' = w
  | S k', n :: rest => exists c1 w1, hop n (next_target target rest) hs has_connector c w = (Ok c1, w1) /\
      granted k' rest target hs has_connector c1 w1 c' w'
  | S _, [] => False
  end.

(** The stage that names node [k] when the first one is [i]. *)
Definition stage_at (i k : nat) (ns : list ProxyConfig) : ChainStage :=
  if (S k <? length ns)%nat then SHop (i + k) else STarget.

Section Outcome.
Variables (proxy : ProxyConfig) (target : bytes) (opts : DialOptions) (has_connector : bool) (w : world).

(** The connection to the outermost node, *)
Abbreviation connecting := (tcp_dial (outermost proxy) (connect_timeout opts) w).
(** and its turn come to node [k], with the stream [ck] and at [wk]. *)
Definition turn (k : nat) (n : ProxyConfig) (ck : conn X) (wk : world) : Prop :=
  nodes proxy !! k = Some n /\
  exists c w1, connecting = (Ok c, w1) /\ tunnels k (nodes proxy) target c ck /\
    granted k (nodes proxy) target (handshake_timeout opts) has_connector c (strip w1) ck wk.
Abbreviation asking k n ck wk :=
  (hop n (next_target target (drop (S k) (nodes proxy))) (handshake_timeout opts) has_connector ck wk).

(** What is being done at the time [t], when no budget for the whole has cut it. *)
Inductive in_progress (t : Z) : ChainStage -> Prop :=
| Connecting : t < now connecting.2 -> in_progress t SConnect
| Asking k n ck wk : turn k n ck wk -> now wk <= t < now (asking k n ck wk).2 ->
    in_progress t (stage_at 0 k (nodes proxy)).

(** Every way a chain of at least two nodes can end. *)
Inductive chain_outcome : result ChainError AnyUpstream -> Prop :=
| Built c c' :
    tcp_connect (host (outermost proxy)) (port (outermost proxy)) = Ok c ->
    tunnels (chain_len proxy) (nodes proxy) target c c' ->
    chain_outcome (Ok (Gate c'))
| NoConnector before n after :
    has_connector = false -> nodes proxy = before ++ n :: after -> protocol n = Https ->
    chain_outcome (Err (mkChainError SConnect
      (Tls (lit "HTTPS upstream " ++ host n ++ lit " requires TLS connector") None)))
| NotConnected e :
    (exists io, tcp_connect (host (outermost proxy)) (port (outermost proxy)) = Err io /\
       e = Io StageConnect (Some (upstream_endpoint (outermost proxy))) io) \/
    e = Timeout StageConnect TcpConnect (upstream_endpoint (outermost proxy)) (connect_timeout opts) ->
    chain_outcome (Err (mkChainError SConnect e))
| HopFailed k n ck wk e :
    turn k n ck wk -> (asking k n ck wk).1 = Err e ->
    chain_outcome (Err (mkChainError (stage_at 0 k (nodes proxy)) e))
| OutOfTime st total :
    total_timeout opts = Some total -> in_progress (now w + total) st ->
    chain_outcome (Err (mkChainError st (total_timed_out proxy total))).
End Outcome.

(** The TCP connects a stretch of history shows. *)
Definition opened (h : list (Z * mark)) : list (bytes * Z) :=
  omap (fun e => match e.2 with Opened h p => Some (h, p) | Reached _ => None end) h.

Definition opts_ok (o : DialOptions) : Prop :=
  0 <= connect_timeout o /\ 0 <= handshake_timeout o /\
  match total_timeout o with Some t => 0 <= t | None => True end.

(** ** Lemmas *)

(** A stretch of run of at most [b] nanoseconds. *)
Definition ran (b : Z) (w w' : world) (new : list (Z * mark)) : Prop :=
  now w <= now w' <= now w + b /\ history w' = history w ++ new /\
  Forall (fun e => now w <= e.1 <= now w') new.

Lemma ran_trans b1 b2 w w1 w2 new1 new2 : ran b1 w w1 new1 -> ran b2 w1 w2 new2 ->
  ran (b1 + b2) w w2 (new1 ++ new2).
Proof.
  intros (Ht1 & Hh1 & Hf1) (Ht2 & Hh2 & Hf2). split_and!; [lia | lia | by rewrite Hh2, Hh1, app_assoc |].
  apply Forall_app. split; eapply Forall_impl; try done; simpl; intros; lia.
Qed.

Lemma ran_nil b w w' : now w <= now w' <= now w + b -> history w' = history w -> ran b w w' [].
Proof. intros ? Hh. split_and!; [lia.. | by rewrite Hh, app_nil_r | done]. Qed.

Lemma ran_note m w : ran 0 w (note m w) [(now w, m)].
Proof. split_and!; cbn; [lia.. | done | by repeat constructor]. Qed.

Lemma ran_more b b' w w' new : ran b w w' new -> b <= b' -> ran b' w w' new.
Proof. intros (? & ? & ?) ?. split_and!; [lia.. | done | done]. Qed.

Lemma await_spec {A} deadline (o : poll A) w r w' : await deadline o w = (r, w') ->
  now w <= deadline ->
  now w <= now w' <= deadline /\ history w' = history w /\ (forall a, r = Some a -> o = Ready a).
Proof.
  unfold await. intros H Hd.
  destruct o as [a|]; [destruct (pace (waits w)) as [d|];
    [destruct (Z.leb_spec (now w + Z.of_N d) deadline)|]|];
    injection H as <- <-; cbn; split_and!; first [lia | done | naive_solver].
Qed.

Lemma shake_spec deadline late m c w r w' : shake deadline late m c w = (r, w') ->
  now w <= deadline ->
  now w <= now w' <= deadline /\ history w' = history w /\
  (forall c', r = Ok c' -> m c = (Ready (Ok tt), c')).
Proof.
  unfold shake. destruct (await deadline (m c).1 w) as [o w1] eqn:E. intros H Hd.
  destruct (await_spec _ _ _ _ _ E Hd) as (? & ? & Ho).
  destruct o as [[[]|e]|]; injection H as <- <-; split_and!; try done; try lia.
  intros c' [= <-]. specialize (Ho _ eq_refl). destruct (m c) as [p c1]. cbn in *. by subst.
Qed.

Lemma https_spec target node hs c w r w' : https_on_stream target node hs c w = (r, w') -> 0 <= hs ->
  now w <= now w' <= now w + hs /\ history w' = history w /\
  (forall c', r = Ok c' -> exists cm, tls_connect (host node) c = (Ready (Ok tt), cm) /\
     run_http target node cm = (Ready (Ok tt), c')).
Proof.
  unfold https_on_stream. intros H Hs. destruct (valid_name (host node)); cbn [negb] in H.
  - destruct (await _ _ w) as [o w1] eqn:E.
    destruct (await_spec _ _ _ _ _ E ltac:(lia)) as (? & Hh & Ho).
    destruct o as [[[]|e]|]; [| injection H as <- <-; by split_and!; try lia ..].
    apply shake_spec in H as (? & -> & Hr); [|lia]. split_and!; [lia | lia | done |].
    intros c' Hc. exists (tls_connect (host node) c).2. split; [|by apply Hr].
    specialize (Ho _ eq_refl). destruct (tls_connect (host node) c). cbn in *. by subst.
  - injection H as <- <-. by split_and!; try lia.
Qed.

Lemma hop_spec node target hs tls c w r w' : hop node target hs tls c w = (r, w') -> 0 <= hs ->
  ran hs w w' [] /\ (forall c', r = Ok c' -> speaks node target c c').
Proof.
  unfold hop, speaks. intros H Hs. destruct (protocol node).
  - apply shake_spec in H as (? & ? & ?); [|lia]. split; [by apply ran_nil; [lia|] | done].
  - apply shake_spec in H as (? & ? & ?); [|lia]. split; [by apply ran_nil; [lia|] | done].
  - destruct tls; [apply https_spec in H as (? & ? & ?); [|done] | injection H as <- <-];
      (split; [by apply ran_nil; [lia|] | done]).
Qed.

Lemma tcp_dial_spec proxy ct w r w' : tcp_dial proxy ct w = (r, w') -> 0 <= ct ->
  ran ct w w' [(now w, Opened (host proxy) (port proxy))] /\
  match r with
  | Ok c => tcp_connect (host proxy) (port proxy) = Ok c
  | Err e => (exists io, tcp_connect (host proxy) (port proxy) = Err io /\
                e = Io StageConnect (Some (upstream_endpoint proxy)) io) \/
             e = Timeout StageConnect TcpConnect (upstream_endpoint proxy) ct
  end.
Proof.
  unfold tcp_dial. intros H Hc. set (w0 := note _ w) in *.
  assert (H0 : ran 0 w w0 [(now w, Opened (host proxy) (port proxy))]) by apply ran_note.
  destruct (await _ _ w0) as [o w1] eqn:E.
  destruct (await_spec _ _ _ _ _ E ltac:(cbn; lia)) as (Ht & Hh & Ho).
  assert (Hr : ran ct w w1 [(now w, Opened (host proxy) (port proxy))]).
  { change [(now w, Opened (host proxy) (port proxy))] with
      ([(now w, Opened (host proxy) (port proxy))] ++ []).
    rewrite <- (Z.add_0_l ct). eapply ran_trans; [done | by apply ran_nil]. }
  destruct o as [[c|e]|]; injection H as <- <-; (split; [done|]).
  - specialize (Ho _ eq_refl). by injection Ho.
  - left. exists e. split; [|done]. specialize (Ho _ eq_refl). by injection Ho.
  - by right.
Qed.

(** The log is never read. *)
Lemma await_strip {A} deadline (o : poll A) w :
  await deadline o (strip w) = let '(r, w') := await deadline o w in (r, strip w').
Proof. unfold await. destruct o as [a|]; [|done]. cbn. destruct (pace (waits w)); [|done]. by destruct (_ <=? deadline). Qed.

Lemma shake_strip deadline late m c w :
  shake deadline late m c (strip w) = let '(r, w') := shake deadline late m c w in (r, strip w').
Proof. unfold shake. rewrite await_strip. by destruct (await deadline (m c).1 w) as [[[]|] w1]. Qed.

Lemma hop_strip node target hs tls c w :
  hop node target hs tls c (strip w) = let '(r, w') := hop node target hs tls c w in (r, strip w').
Proof.
  unfold hop. destruct (protocol node); [apply shake_strip..|]. destruct tls; [|done].
  unfold https_hop, https_on_stream. destruct (negb _); [done|]. rewrite await_strip. cbn [now strip].
  destruct (await _ _ w) as [[[]|] w1]; [apply shake_strip | done | done].
Qed.

Lemma tcp_dial_strip proxy ct w :
  let '(r, w') := tcp_dial proxy ct w in
  exists w'', tcp_dial proxy ct (strip w) = (r, w'') /\ strip w'' = strip w'.
Proof.
  unfold tcp_dial, await. cbn [now waits strip note]. destruct (pace (waits w)) as [d|]; [|eexists; by split].
  destruct (_ <=? _); [|eexists; by split]. destruct (tcp_connect (host proxy) (port proxy)); eexists; by split.
Qed.

Lemma stage_at_cons i k n rest : stage_at i (S k) (n :: rest) = stage_at (S i) k rest.
Proof. unfold stage_at. cbn [length]. by rewrite Nat.add_succ_r. Qed.
Lemma stage_of_at i n rest : stage_of i rest = stage_at i 0 (n :: rest).
Proof. unfold stage_at. rewrite Nat.add_0_r. by destruct rest. Qed.

(** The last stage stored of these. *)
Definition stored_last (x : Z) (h : list (Z * mark)) : Z :=
  foldl (fun acc e => match e.2 with Reached raw => raw | _ => acc end) x h.
Definition by_then (t : Z) : list (Z * mark) -> list (Z * mark) := List.filter (fun e => e.1 <=? t).

Lemma by_then_none t h : Forall (fun e => t < e.1) h -> by_then t h = [].
Proof. induction 1 as [|e h He _ IH]; [done|]. cbn. by rewrite (proj2 (Z.leb_gt _ _)). Qed.

Lemma opened_app h1 h2 : opened (h1 ++ h2) = opened h1 ++ opened h2.
Proof. apply omap_app. Qed.

(** The hops in a row: how they end, *)
Lemma run_hops_spec target hs tls ns : 0 <= hs -> forall i c w r w',
  run_chain_hops store i ns target hs tls c w = (r, w') ->
  exists new, ran (Z.of_nat (length ns) * hs) w w' new /\ opened new = [] /\
    match r with
    | Ok c' => tunnels (length ns) ns target c c'
    | Err (st, e) => exists k n ck wk, ns !! k = Some n /\ st = stage_at i k ns /\
        tunnels k ns target c ck /\ granted k ns target hs tls c (strip w) ck wk /\
        (hop n (next_target target (drop (S k) ns)) hs tls ck wk).1 = Err e
    end /\
    (* and which one is in progress at a time before that: the one last stored. *)
    forall t x, now w <= t < now w' -> exists k n ck wk, ns !! k = Some n /\
      tunnels k ns target c ck /\ granted k ns target hs tls c (strip w) ck wk /\
      now wk <= t < now (hop n (next_target target (drop (S k) ns)) hs tls ck wk).2 /\
      stored_last x (by_then t new) = encode (stage_at i k ns).
Proof.
  intros Hs. induction ns as [|n rest IH]; intros i c w r w'; cbn [run_chain_hops].
  { intros [= <- <-]. exists []. split_and!; try done; [apply ran_nil; [cbn; lia | done] | intros; lia]. }
  unfold mbind, D_bind, map_error, store, tell.
  set (w0 := note (Reached (encode (stage_of i rest))) w).
  pose proof (ran_note (Reached (encode (stage_of i rest))) w : ran 0 w w0 _) as H0.
  destruct (hop n _ hs tls c w0) as [h w1] eqn:Eh.
  destruct (hop_spec _ _ _ _ _ _ _ _ Eh Hs) as [H1 Hspeak].
  pose proof (ran_trans _ _ _ _ _ _ _ H0 H1) as H01. rewrite app_nil_r in H01.
  pose proof (hop_strip n (next_target target rest) hs tls c w0) as Hst. rewrite Eh in Hst.
  change (strip w0) with (strip w) in Hst. rewrite (stage_of_at i n rest) in *.
  assert (Hfirst : forall t x later, now w <= t -> stored_last x (by_then t ((now w, Reached (encode (stage_at i 0 (n :: rest)))) :: later)) =
    stored_last (encode (stage_at i 0 (n :: rest))) (by_then t later)).
  { intros t x later Ht. unfold by_then. cbn [List.filter fst]. by rewrite (proj2 (Z.leb_le _ _)). }
  destruct h as [c1|e]; cbn [map_err].
  - intros H. destruct (IH (S i) c1 w1 r w' H) as (new & Hran & Hop & Hr & Ht).
    specialize (Hspeak c1 eq_refl). exists ((now w, Reached (encode (stage_at i 0 (n :: rest)))) :: new).
    split; [eapply ran_more; [exact (ran_trans _ _ _ _ _ _ _ H01 Hran) | cbn [length]; lia]|].
    split; [done|]. split.
    + destruct r as [c'|[st e]]; [by exists c1|].
      destruct Hr as (k & n' & ck & wk & Hn & -> & Htun & Hgr & He). exists (S k), n', ck, wk.
      rewrite stage_at_cons. split_and!; [done | done | by exists c1 | by exists c1, (strip w1) | done].
    + intros t x Htx. rewrite Hfirst by lia. destruct (Z.le_gt_cases (now w1) t) as [Hle|Hgt].
      * destruct (Ht t (encode (stage_at i 0 (n :: rest)))) as (k & n' & ck & wk & Hn & Htun & Hgr & Hwk & Hlast); [lia|].
        exists (S k), n', ck, wk. rewrite stage_at_cons. split_and!; [done | by exists c1 | by exists c1, (strip w1) | apply Hwk | apply Hwk | done].
      * exists 0%nat, n, c, (strip w). change (drop 1 (n :: rest)) with rest. rewrite Hst. cbn [now strip snd].
        rewrite by_then_none; [by split_and!; try lia|].
        destruct Hran as (_ & _ & Hf). eapply Forall_impl; [exact Hf|]. simpl. lia.
  - intros [= <- <-]. exists [(now w, Reached (encode (stage_at i 0 (n :: rest))))]. split_and!; [| done | |].
    + eapply ran_more; [exact H01 | cbn [length]; lia].
    + exists 0%nat, n, c, (strip w). change (drop 1 (n :: rest)) with rest. by rewrite Hst.
    + intros t x Htx. exists 0%nat, n, c, (strip w). change (drop 1 (n :: rest)) with rest. rewrite Hst. cbn [now strip snd].
      rewrite Hfirst by lia. by split_and!; try lia.
Qed.

(** ** Progress *)

Lemma decode_encode s : (forall n, s = SHop n -> Z.of_nat n + 1 < USIZE_MAX) -> decode (encode s) = s.
Proof.
  unfold decode. destruct s as [|n|]; cbn [encode]; intros H; [done| |done].
  specialize (H n eq_refl). destruct (Z.eqb_spec (Z.of_nat n + 1) 0); [lia|].
  destruct (Z.eqb_spec (Z.of_nat n + 1) USIZE_MAX); [lia|]. f_equal. lia.
Qed.

(** ** A chain of at least two nodes *)

Section Chain.
Variables (proxy g : ProxyConfig) (host_ : bytes) (port_ : Z) (opts : DialOptions) (tls : bool).
Hypothesis has_gate : gate proxy = Some g.
Hypothesis budgets : opts_ok opts.
(** A chain is in memory, so it has fewer nodes than there are addresses. *)
Hypothesis in_memory : Z.of_nat (chain_len proxy) < USIZE_MAX.
Let target := HostPort.format (unbracket host_) port_.
Let ns := nodes proxy.

Lemma first_node : hd proxy ns = outermost proxy.
Proof. pose proof (outermost_nodes proxy) as H. unfold ns. destruct (nodes proxy); [done|]. by injection H. Qed.

Lemma stage_at_decode k : (k < chain_len proxy)%nat -> decode (encode (stage_at 0 k ns)) = stage_at 0 k ns.
Proof.
  intros Hk. apply decode_encode. intros n. unfold stage_at. destruct (_ <? _)%nat; [|done]. intros [= <-]. lia.
Qed.

(** A node that cannot be served. *)
Definition unserved : Prop := tls = false /\ exists n, n ∈ ns /\ protocol n = Https.

Lemma check_tls_spec :
  match check_tls ns tls with
  | Ok _ => ~ unserved
  | Err e => tls = false /\ exists before n after, ns = before ++ n :: after /\ protocol n = Https /\
      e = Tls (lit "HTTPS upstream " ++ host n ++ lit " requires TLS connector") None
  end.
Proof.
  unfold check_tls, unserved. destruct (List.find _ ns) as [n|] eqn:E.
  - apply List.find_some in E as [Hin Hp%bool_decide_eq_true]. destruct tls; [by intros [? _]|]. split; [done|].
    apply List.in_split in Hin as (before & after & ->). by exists before, n, after.
  - intros (_ & n & Hn%list_elem_of_In & Hp). apply (List.find_none _ _ E) in Hn. by rewrite bool_decide_true in Hn.
Qed.

Lemma chain_inner_spec w r w' : chain_inner proxy host_ port_ opts tls w = (r, w') ->
  exists new, ran (connect_timeout opts + Z.of_nat (chain_len proxy) * handshake_timeout opts) w w' new /\
    (unserved /\ opened new = [] /\ now w' = now w \/
     ~ unserved /\ opened new = [(host (outermost proxy), port (outermost proxy))]) /\
    Forall (fun e => match e.2 with Opened _ _ => e.1 = now w | Reached _ => True end) new /\
    chain_outcome proxy target opts tls (strip w) r /\
    forall t, now w <= t < now w' ->
      exists st, in_progress proxy target opts tls (strip w) t st /\ decode (stored_last 0 (by_then t new)) = st.
Proof.
  destruct budgets as (Hc & Hs & _). unfold chain_inner. rewrite has_gate. fold ns target.
  unfold map_ok, map_error, lift, mbind, D_bind. pose proof check_tls_spec as Hcheck.
  destruct (check_tls ns tls) as [[]|e] eqn:Et; cbn [map_err is_ok].
  2:{ intros [= <- <-]. destruct Hcheck as (Htls & before & n & after & Hn & Hp & ->). exists [].
      split; [apply ran_nil; [lia|done]|]. split.
      { left. split; [|done]. split; [done|]. exists n. split; [|done]. rewrite Hn. apply elem_of_app. right. by left. }
      split; [done|]. split; [by apply (NoConnector _ _ _ _ _ before n after)|]. intros; lia. }
  rewrite first_node. pose proof (tcp_dial_strip (outermost proxy) (connect_timeout opts) w) as Hstrip.
  destruct (tcp_dial _ _ w) as [rt w1] eqn:Ed. destruct Hstrip as (ws & Hdial & Hws).
  assert (Hnow : now ws = now w1) by (by injection Hws).
  apply tcp_dial_spec in Ed as [H1 Hd]; [|done]. destruct rt as [c|e]; cbn [map_err].
  2:{ intros [= <- <-]. eexists. split; [eapply ran_more; [exact H1 | lia]|]. split; [by right|].
      split; [by repeat constructor|]. split; [by apply NotConnected|].
      intros t Ht. exists SConnect. split; [apply Connecting; rewrite Hdial; cbn; lia|].
      unfold by_then. cbn [List.filter fst]. by rewrite (proj2 (Z.leb_le _ _)) by lia. }
  destruct (run_chain_hops store 0 ns target (handshake_timeout opts) tls c w1) as [rh w2] eqn:Eh.
  destruct (run_hops_spec _ _ _ _ Hs _ _ _ _ _ Eh) as (new & H2 & Hop & Hr & Hmid).
  assert (Hturn : forall k n ck wk, ns !! k = Some n -> tunnels k ns target c ck ->
    granted k ns target (handshake_timeout opts) tls c (strip w1) ck wk -> turn proxy target opts tls (strip w) k n ck wk).
  { intros k n ck wk Hn Htun Hgr. split; [done|]. exists c, ws. by rewrite Hws. }
  intros H. assert (w' = w2) as -> by (destruct rh; by injection H).
  exists ([(now w, Opened (host (outermost proxy)) (port (outermost proxy)))] ++ new). split_and!.
  - eapply ran_more; [eapply ran_trans; [exact H1 | exact H2]|].
    unfold ns. rewrite chain_len_nodes. lia.
  - right. by rewrite opened_app, Hop.
  - apply Forall_app. split; [by repeat constructor|]. apply Forall_forall. intros [u m] Hin. destruct m as [h p|]; [|done].
    exfalso. assert (Hx : (h, p) ∈ opened new) by (apply list_elem_of_omap; by exists (u, Opened h p)).
    rewrite Hop in Hx. by apply not_elem_of_nil in Hx.
  - destruct rh as [c'|[st e]]; cbn [map_err as_chain_error fst snd] in H; injection H as <-.
    + apply (Built _ _ _ _ _ c); [done|]. by rewrite chain_len_nodes.
    + destruct Hr as (k & n & ck & wk & Hn & -> & Htun & Hgr & He).
      apply (HopFailed _ _ _ _ _ k n ck wk); [by apply Hturn | done].
  - intros t Ht. unfold by_then. cbn [List.filter app fst]. rewrite (proj2 (Z.leb_le _ _)) by lia.
    change (stored_last 0 _) with (stored_last 0 (by_then t new)). destruct (Z.le_gt_cases (now w1) t) as [Hle|Hgt].
    + destruct (Hmid t 0) as (k & n & ck & wk & Hn & Htun & Hgr & Hwk & Hlast); [lia|].
      exists (stage_at 0 k ns). split; [by apply (Asking _ _ _ _ _ _ k n ck wk); [apply Hturn|]|].
      rewrite Hlast. apply stage_at_decode. rewrite chain_len_nodes. by eapply lookup_lt_Some.
    + exists SConnect. split; [apply Connecting; rewrite Hdial; cbn; lia|]. rewrite by_then_none; [done|].
      destruct H2 as (_ & _ & Hf). eapply Forall_impl; [exact Hf|]. simpl. lia.
Qed.

Lemma cut_opened t h : Forall (fun e => match e.2 with Opened _ _ => e.1 <= t | Reached _ => True end) h ->
  opened (List.filter (fun e => e.1 <=? t) h) = opened h.
Proof.
  induction 1 as [|[u m] h He _ IH]; [done|]. cbn [List.filter fst]. cbn [snd fst] in He.
  destruct (Z.leb_spec u t); destruct m; cbn [opened omap list_omap snd]; rewrite ?IH; try done; [|lia].
  f_equal. exact IH.
Qed.

(** What the total budget leaves of a run. *)
Lemma total_spec (run : D ChainError AnyUpstream) w r w' :
  with_total_timeout proxy opts run false w = (r, w') ->
  exists r0 w0, run w = (r0, w0) /\
    ((r = r0 /\ w' = w0 /\ forall t, total_timeout opts = Some t -> now w0 <= now w + t) \/
     (exists t, total_timeout opts = Some t /\ now w + t < now w0 /\ w' = cut (now w + t) w0 /\
        r = Err (total_timeout_error proxy t w'))).
Proof.
  unfold with_total_timeout, within. destruct (total_timeout opts) as [t|]; cbn [andb].
  - destruct (run w) as [r0 w0] eqn:E. destruct (Z.leb_spec (now w0) (now w + t)); intros [= <- <-].
    + exists r0, w0. split; [done|]. left. split_and!; try done. by intros ? [= <-].
    + exists r0, w0. split; [done|]. right. exists t. by split_and!.
  - intros H. exists r, w'. split; [done|]. by left.
Qed.

Lemma dial_chain_inv w r w' : history w = [] -> dial_chain proxy host_ port_ opts tls w = (r, w') ->
  exists b, ran b w w' (history w') /\
    b <= connect_timeout opts + Z.of_nat (chain_len proxy) * handshake_timeout opts /\
    (forall t, total_timeout opts = Some t -> b <= t) /\
    (unserved /\ opened (history w') = [] \/
     ~ unserved /\ opened (history w') = [(host (outermost proxy), port (outermost proxy))]) /\
    chain_outcome proxy target opts tls (strip w) r.
Proof.
  intros Hw. unfold dial_chain, mbind, D_bind, store, tell. set (w0 := note (Reached 0) w).
  pose proof (ran_note (Reached 0) w : ran 0 w w0 _) as H0.
  intros (r1 & w1 & Hrun & Hcase)%total_spec. pose proof budgets as (Hc & Hs & Htot).
  destruct (chain_inner_spec _ _ _ Hrun) as (new & H1 & Hop & Hnew & Hout & Hmid).
  pose proof (ran_trans _ _ _ _ _ _ _ H0 H1) as (Ht & Hh & Hf). rewrite Hw in Hh. cbn [app] in Hh, Hf.
  assert (Hop' : opened (history w1) = opened new) by by rewrite Hh.
  destruct Hcase as [(-> & -> & Hin) | (t & Et & Hlate & -> & ->)].
  - exists (now w1 - now w). rewrite Hop'. split_and!; [| lia | | destruct Hop as [(? & ? & _)|?]; [by left | by right] | exact Hout].
    + split_and!; [lia.. | by rewrite Hw | by rewrite Hh].
    + intros t Et. specialize (Hin t Et). cbn in Hin. lia.
  - rewrite Et in Htot. cbn [now w0 note] in *. exists t. split_and!; [| lia | | |].
    + split_and!; [cbn; lia | cbn; lia | by rewrite Hw |]. cbn [history cut now]. rewrite Hh.
      apply List.Forall_forall. intros e [Hin He]%List.filter_In.
      pose proof (proj1 (List.Forall_forall _ _) Hf _ Hin) as Hb. cbn in Hb. lia.
    + rewrite Et. by intros ? [= <-].
    + cbn [history cut]. rewrite cut_opened; [rewrite Hop'; destruct Hop as [(? & ? & _)|?]; [by left | by right]|]. rewrite Hh. constructor; [done|].
      eapply Forall_impl; [exact Hnew|]. intros [u [h p|raw]] Hu; cbn in *; [lia | done].
    + destruct (Hmid (now w + t)) as (st & Hst & Hcell); [lia|].
      replace (total_timeout_error proxy t (cut (now w + t) w1)) with (mkChainError st (total_timed_out proxy t)).
      { by apply OutOfTime. }
      unfold total_timeout_error. f_equal. rewrite <- Hcell. unfold progress_cell. cbn [history cut]. rewrite Hh.
      cbn [List.filter fst]. by rewrite (proj2 (Z.leb_le _ _)) by lia.
Qed.

End Chain.

Lemma dial_chain_unserved proxy g host_ port_ opts tls w r w' : gate proxy = Some g -> opts_ok opts ->
  unserved proxy tls -> dial_chain proxy host_ port_ opts tls w = (r, w') ->
  now w' = now w /\ exists n, n ∈ nodes proxy /\ protocol n = Https /\
    r = Err (mkChainError SConnect (Tls (lit "HTTPS upstream " ++ host n ++ lit " requires TLS connector") None)).
Proof.
  intros Hg (_ & _ & Ht) Hu Hrun.
  pose proof (check_tls_spec proxy tls) as Hcheck. destruct (check_tls (nodes proxy) tls) as [?|e] eqn:Ec; [done|].
  destruct Hcheck as (_ & before & n & after & Hn & Hp & ->).
  assert (Hr : r = Err (mkChainError SConnect (Tls (lit "HTTPS upstream " ++ host n ++ lit " requires TLS connector") None)) /\ now w' = now w).
  { revert Hrun. unfold dial_chain, chain_inner, with_total_timeout, within, mbind, D_bind, store, tell, lift.
    rewrite Hg, Ec. cbn [map_err andb]. destruct (total_timeout opts) as [t|]; [|by intros [= <- <-]].
    cbn [now note]. rewrite (proj2 (Z.leb_le _ _)) by lia. by intros [= <- <-]. }
  destruct Hr as [-> Hnow]. split; [done|]. exists n. split_and!; [|done..]. rewrite Hn. apply elem_of_app. right. by left.
Qed.

(** ** A chain of this program's own servers *)

Import Handshake.
Import Server(InboundProtocol, reply_bytes, Established, blank, existsb_app_false, fmt_dec_not_blank).

Definition established (p : InboundProtocol) : bytes :=
  match reply_bytes p Established with Some bs => bs | None => [] end.

(** What a node is asked for the tunnel to [h]:[p], and what it answers. *)
Definition asks (node : ProxyConfig) (h : bytes) (p : Z) : list (event X) :=
  match protocol node with
  | Socks5 => client_events h p (socks5_auth node)
  | _ => [EvWrite (connect_request encode64 (HostPort.format h p) node); EvFlush]
  end.
Definition grants (node : ProxyConfig) : bytes :=
  match protocol node with
  | Socks5 => writes (server_events (socks5_auth node)) ++ established Server.Socks5
  | _ => established Server.Http
  end.

(** Every node is asked for the next one, the last for the target. *)
Fixpoint chain_asks (ns : list ProxyConfig) (h : bytes) (p : Z) : list (event X) :=
  match ns with
  | [] => []
  | n :: rest =>
      (match rest with next :: _ => asks n (host next) (port next) | [] => asks n h p end)
      ++ chain_asks rest h p
  end.

(** A name or address that can be asked for over either protocol. *)
Definition addressable (h : bytes) (p : Z) : Prop :=
  HostPort.host_ok h = true /\ existsb blank h = false /\ 0 < z_len h < 256 /\ 0 < p <= U16_MAX.
Definition node_ok (n : ProxyConfig) : Prop :=
  protocol n <> Https /\ addressable (host n) (port n) /\ auth_sizes (socks5_auth n).

(** Peers that answer within every budget. *)
Definition prompt (opts : DialOptions) : Prop := forall k, exists d, pace k = Some d /\
  Z.of_N d <= connect_timeout opts /\ Z.of_N d <= handshake_timeout opts.

Lemma await_prompt {A} (a : A) b w : (exists d, pace (waits w) = Some d /\ Z.of_N d <= b) ->
  exists w', await (now w + b) (Ready a) w = (Some a, w').
Proof.
  intros (d & Hd & Hb). unfold await. rewrite Hd.
  destruct (Z.leb_spec (now w + Z.of_N d) (now w + b)); [by eexists | lia].
Qed.

Lemma addressable_format h p : addressable h p -> HostPort.parse (HostPort.format h p) = Some (HostPort.mk h p).
Proof. intros (? & _ & _ & ?). apply HostPort.parse_format; [done | lia]. Qed.

Lemma addressable_blank h p : addressable h p -> existsb blank (HostPort.format h p) = false.
Proof.
  intros (_ & Hb & _ & Hp). unfold HostPort.format.
  destruct (is_ipv6 h); rewrite !existsb_app_false, Hb; (split_and!; try done; apply fmt_dec_not_blank; lia).
Qed.

Lemma hop_grants node h p opts tls c w rest o : prompt opts -> node_ok node -> addressable h p ->
  at_point c (grants node ++ rest) o ->
  exists c' w', hop node (HostPort.format h p) (handshake_timeout opts) tls c w = (Ok c', w') /\
    at_point c' rest (o ++ asks node h p).
Proof.
  intros Hp (Hn & _ & Ha) Hh Hc. unfold hop, asks, grants, established in *.
  destruct (Hp (waits w)) as (d & Hd & _ & Hle).
  destruct (protocol node); [| |done].
  - destruct Hh as (Hok & Hb & Hl & Hport). rewrite <- app_assoc in Hc.
    destruct (yields_socks5 early_eof write_zero h p (socks5_auth node) rest o Hl Hport Ha c Hc) as (c' & Hrun & Hc').
    destruct (await_prompt (A := result ConnectError unit) (Ok tt) (handshake_timeout opts) w) as [w' Hw]; [by exists d|].
    exists c', w'. split; [|done]. unfold shake, handshake_over_stream.
    rewrite addressable_format by done. cbn [HostPort.host HostPort.port]. rewrite Hrun. cbn [fst snd]. by rewrite Hw.
  - assert (Hc1 : at_point c (lit "HTTP/1.1 200 Connection Established" ++ Upstream.CRLF ++ Upstream.CRLF ++ rest) o).
    { destruct Hc as (Hu & Hr & Ho). by split_and!. }
    destruct (yields_http write_zero encode64 (HostPort.format h p) node rest o (addressable_blank h p Hh) c Hc1)
      as (c' & Hrun & Hc').
    destruct (await_prompt (A := result ConnectError unit) (Ok tt) (handshake_timeout opts) w) as [w' Hw]; [by exists d|].
    exists c', w'. split; [|done]. unfold shake. rewrite Hrun. cbn [fst snd]. by rewrite Hw.
Qed.

Lemma run_hops_grants h p opts tls ns rest : prompt opts -> addressable h p -> Forall node_ok ns ->
  forall i c w o, at_point c (concat (map grants ns) ++ rest) o ->
  exists c' w', run_chain_hops store i ns (HostPort.format h p) (handshake_timeout opts) tls c w = (Ok c', w') /\
    at_point c' rest (o ++ chain_asks ns h p).
Proof.
  intros Hpr Hh. induction 1 as [|n ns Hn Hns IH]; intros i c w o Hc; cbn [map concat] in Hc.
  { exists c, w. cbn [chain_asks]. by rewrite app_nil_r. }
  cbn [run_chain_hops chain_asks]. rewrite <- app_assoc in Hc.
  unfold map_error, mbind, D_bind, store, tell. set (w0 := note _ w).
  set (dest := match ns with next :: _ => (host next, port next) | [] => (h, p) end).
  assert (Hdest : addressable dest.1 dest.2).
  { unfold dest. destruct Hns as [|next ns' Hnext _]; [done|]. apply Hnext. }
  assert (Hnext : next_target (HostPort.format h p) ns = HostPort.format dest.1 dest.2)
    by (unfold dest, next_target; destruct ns; reflexivity).
  rewrite Hnext.
  destruct (hop_grants n dest.1 dest.2 opts tls c w0 _ o Hpr Hn Hdest Hc) as (c1 & w1 & Hhop & Hc1).
  rewrite Hhop. cbn [map_err].
  destruct (IH (S i) c1 w1 _ Hc1) as (c' & w' & Hrun & Hc'). exists c', w'. split; [exact Hrun|].
  replace (o ++ (match ns with next :: _ => asks n (host next) (port next) | [] => asks n h p end)
             ++ chain_asks ns h p) with ((o ++ asks n dest.1 dest.2) ++ chain_asks ns h p); [done|].
  rewrite <- app_assoc. unfold dest. by destruct ns.
Qed.

(** C26: how a dial through a chain of at least two nodes ends, and what it did. It
    always returns, within the connect budget plus one handshake budget per node and
    within the total budget if there is one. If some node speaks HTTPS and there is no TLS
    connector, no TCP connection is opened and the error is that one, at once; otherwise
    one is opened, to the outermost node. Success is a tunnel granted by every node to the
    next one and by the last to the target; a failure names the step that failed with that
    step's own error, every node before it having granted its tunnel; and an exhausted
    total budget names exactly the step in progress then: the connect if it was not over
    by that time, or else the node whose turn had come and whose handshake was not over. *)
Theorem dial_chain_outcome proxy g host_ port_ opts tls w r w' :
  gate proxy = Some g -> opts_ok opts -> Z.of_nat (chain_len proxy) < USIZE_MAX -> history w = [] ->
  dial_chain proxy host_ port_ opts tls w = (r, w') ->
  chain_outcome proxy (HostPort.format (unbracket host_) port_) opts tls (strip w) r /\
  (tls = false /\ (exists n, n ∈ nodes proxy /\ protocol n = Https) ->
   opened (history w') = [] /\ now w' = now w /\
   exists n, n ∈ nodes proxy /\ protocol n = Https /\
     r = Err (mkChainError SConnect (Tls (lit "HTTPS upstream " ++ host n ++ lit " requires TLS connector") None))) /\
  (~ (tls = false /\ exists n, n ∈ nodes proxy /\ protocol n = Https) ->
   opened (history w') = [(host (outermost proxy), port (outermost proxy))]) /\
  now w <= now w' <= now w + connect_timeout opts + Z.of_nat (chain_len proxy) * handshake_timeout opts /\
  (forall t, total_timeout opts = Some t -> now w' <= now w + t).
Proof.
  intros Hg Ho Hm Hw Hrun.
  destruct (dial_chain_inv proxy g host_ port_ opts tls Hg Ho Hm w r w' Hw Hrun)
    as (b & (Ht & _ & _) & Hb & Htot & Hop & Hout).
  split; [done|]. split; [|split; [|split; [lia|]]].
  - intros Hu. destruct Hop as [[_ Hop]|[Hn _]]; [|by destruct Hn]. split; [done|].
    by apply (dial_chain_unserved proxy g host_ port_ opts tls w r w').
  - intros Hu. by destruct Hop as [[Hn _]|[_ Hop]].
  - intros t Et. specialize (Htot t Et). lia.
Qed.

(** C35: a chain of this program's own servers works: when every node answers each
    request as the SOCKS5 or HTTP server of this program does, within the budgets, the
    dial gives a stream positioned at the first byte of the target's payload, and what
    went out on the one connection is, in order, each node's handshake asking it for
    the next node, and the last node's asking for the target. *)
Theorem chain_interop proxy g host_ port_ opts tls w c rest :
  gate proxy = Some g -> total_timeout opts = None -> prompt opts ->
  Forall node_ok (nodes proxy) -> addressable (unbracket host_) port_ ->
  tcp_connect (host (outermost proxy)) (port (outermost proxy)) = Ok c ->
  unread c = concat (map grants (nodes proxy)) ++ rest -> room c = None ->
  exists c' w', dial_chain proxy host_ port_ opts tls w = (Ok (Gate c'), w') /\
    unread c' = rest /\ outputs c' = outputs c ++ chain_asks (nodes proxy) (unbracket host_) port_.
Proof.
  intros Hg Htot Hpr Hns Hh Htcp Hu Hr. unfold dial_chain, mbind, D_bind, store, tell.
  set (w0 := note _ w). unfold with_total_timeout. rewrite Htot. unfold chain_inner. rewrite Hg.
  unfold map_ok, map_error, lift, mbind, D_bind.
  assert (Hcheck : check_tls (nodes proxy) tls = Ok tt).
  { unfold check_tls. destruct (List.find _ (nodes proxy)) as [n|] eqn:E; [|done].
    apply List.find_some in E as [Hin Hp%bool_decide_eq_true].
    by destruct (proj1 (List.Forall_forall _ _) Hns _ Hin) as [Hno _]. }
  rewrite Hcheck, first_node. cbn [map_err]. unfold tcp_dial. rewrite Htcp.
  set (w1 := note _ w0).
  destruct (await_prompt (A := result IoError (conn X)) (Ok c) (connect_timeout opts) w1) as [w2 Hw2].
  { destruct (Hpr (waits w1)) as (d & Hd & Hle & _). by exists d. }
  rewrite Hw2. cbn [map_err].
  destruct (run_hops_grants (unbracket host_) port_ opts tls (nodes proxy) rest Hpr Hh Hns 0 c w2 (outputs c))
    as (c' & w' & Hrun & Hu' & _ & Ho'); [by split_and!|].
  rewrite Hrun. cbn [map_err]. by exists c', w'.
Qed.

End Dialing.
(** ** Witnesses *)

Section Demo.
Import Server(Credentials).
Import Handshake.

Definition demo_io : IoError := mkIoError (lit "early eof").
Definition demo_encode (bs : bytes) : bytes := bs.
Definition demo_names (h : bytes) : bool := negb (bool_decide (h = [])).
Definition demo_tls (h : bytes) (c : conn Credentials) : poll (result IoError unit) * conn Credentials :=
  (Ready (Ok tt), c).
Definition demo_chain : ProxyConfig :=
  with_gate (ProxyTypes.new Http (lit "exit.example") 8080)
    (with_auth (ProxyTypes.new Socks5 (lit "gate.example") 1080) (lit "u") (lit "pw")).
Definition demo_target : bytes := lit "[::1]".
Definition demo_stream : conn Credentials :=
  mkConn (chunk_of (concat (map grants (nodes demo_chain)) ++ lit "hello")) Eof None [].
Definition demo_connect (h : bytes) (p : Z) : result IoError (conn Credentials) :=
  if bool_decide (h = lit "gate.example") then Ok demo_stream else Err demo_io.
(** One second per wait, and a chain whose second node never answers. *)
Definition demo_pace (k : nat) : option N := Some 1000000000%N.
Definition demo_stuck (k : nat) : option N := if (k <? 2)%nat then Some 1000000000%N else None.
Definition demo_budget : DialOptions := with_total_timeout_of default_options (from_secs 5).

Lemma dial_chain_outcome_witness :
  let w' := (dial_chain demo_io demo_io demo_encode demo_stuck demo_connect demo_names demo_tls demo_chain
               demo_target 443 demo_budget false (mkWorld 0 0 [])).2 in
  chain_outcome demo_io demo_io demo_encode demo_stuck demo_connect demo_names demo_tls demo_chain
    (lit "[::1]:443") demo_budget false (strip (mkWorld 0 0 []))
    (Err (mkChainError STarget (Timeout StageTotal Total (lit "exit.example:8080") (from_secs 5)))) /\
  opened (history w') = [(lit "gate.example", 1080)] /\ now w' = from_secs 5.
Proof.
  destruct (dial_chain_outcome demo_io demo_io demo_encode demo_stuck demo_connect demo_names demo_tls
    demo_chain (with_auth (ProxyTypes.new Socks5 (lit "gate.example") 1080) (lit "u") (lit "pw"))
    demo_target 443 demo_budget false (mkWorld 0 0 [])
    (Err (mkChainError STarget (Timeout StageTotal Total (lit "exit.example:8080") (from_secs 5))))
    (dial_chain demo_io demo_io demo_encode demo_stuck demo_connect demo_names demo_tls demo_chain
       demo_target 443 demo_budget false (mkWorld 0 0 [])).2) as (Hout & _ & Hop & _ & _).
  - reflexivity.
  - cbv. intuition congruence.
  - reflexivity.
  - reflexivity.
  - vm_compute. reflexivity.
  - cbv zeta. split_and!; [exact Hout | | vm_compute; reflexivity]. apply Hop.
    assert (Hno : Forall (fun n => protocol n <> Https) (nodes demo_chain)) by (repeat constructor; discriminate).
    intros (_ & n & Hn & Hp). apply (proj1 (Forall_forall _ _) Hno n Hn Hp).
Defined.

Lemma chain_interop_witness :
  exists c', (dial_chain demo_io demo_io demo_encode demo_pace demo_connect demo_names demo_tls demo_chain
     demo_target 443 default_options false (mkWorld 0 0 [])).1 = Ok (Gate c') /\
    unread c' = lit "hello" /\ length (outputs c') = 8%nat.
Proof.
  destruct (chain_interop demo_io demo_io demo_encode demo_pace demo_connect demo_names demo_tls demo_chain
    (with_auth (ProxyTypes.new Socks5 (lit "gate.example") 1080) (lit "u") (lit "pw"))
    demo_target 443 default_options false (mkWorld 0 0 []) demo_stream (lit "hello"))
    as (c' & w' & Hrun & Hu & Ho); try reflexivity.
  - intros k. exists 1000000000%N. split_and!; [reflexivity | vm_compute; congruence ..].
  - repeat constructor; try (vm_compute; congruence); try reflexivity.
  - repeat constructor; try (vm_compute; congruence); try reflexivity.
  - exists c'. rewrite Hrun, Ho. split_and!; [reflexivity | exact Hu | reflexivity].
Defined.

End Demo.

End Dial.
