(* ===== verification/Pool.v ===== *)
(** * Pool: pre-connected sockets and the per-upstream cap, under interleaving

    Model of [session/pool/proxy_pool/mod.rs] and [session/pool/pool_config.rs],
    and of the permit accounting of [connect/dial/chain_pool.rs], as a transition
    system.  Callers of the pool, the refill tasks and the lifecycle operations
    take atomic steps in any order: one step is one operation on a semaphore, a
    queue or a map, so the races the code's comments discuss are runs of the
    model.  An [Arc<Semaphore>] or [Arc<ProxySpares>] is an index into a list, an
    [OwnedSemaphorePermit] the index of its semaphore. *)
From S2P Require Import Prelude ProxyTypes Errors.

Module Pool.

(** [(host, port)]. *)
Definition Key : Type := bytes * Z.
Definition key_of (proxy : ProxyConfig) : Key := (host proxy, port proxy).

Record PoolConfig := mkPoolConfig {
  enabled : bool;
  spare_per_proxy : nat;
  max_session_age_sec : Z }.
Definition default_config : PoolConfig := mkPoolConfig false 1 30.

(** ** State *)

Record PreWarmed := mkPw { permit : nat; created_at : Z }.

Record Spares := mkSpares {
  queue : list PreWarmed;      (* at most [capacity] of them *)
  capacity : nat;
  notified : bool }.           (* a stored [notify_one] *)

(** Where a refill task is. *)
Inductive Phase :=
| Spawned
| Filling                                              (* [while queue.len() < target] *)
| Granting                                             (* [try_acquire_owned] *)
| Connecting (p : nat)
| Sleeping
| Waiting                                              (* the [select!] *)
| Recycling (keepers : list PreWarmed) (started : Z)   (* popping everything *)
| Scrapping (keepers : list PreWarmed) (started : Z) (p : nat)
| Restoring (keepers : list PreWarmed)
| Ended.

Record Task := mkTask {
  t_key : Key; t_sem : nat; t_target : nat; backoff : Z; phase : Phase; aborted : bool }.

(** A queue and its refill task, created together. *)
Record Endpoint := mkEndpoint { spares : Spares; task : Task }.

(** What a caller of [checkout_prewarmed] wants the spare for. *)
Inductive Want := ForAcquire | ForCheckout | ForUnguarded.

(** Where a caller is; [fresh] is whether the permit is for a socket to open. *)
Inductive Pc :=
| Looking (w : Want) (k : Key)
| Popping (w : Want) (k : Key) (e : nat) (started : Z)
| Discarding (w : Want) (k : Key) (e : nat) (started : Z) (p : nat)
| Capping (fresh : bool) (k : Key)                     (* [upstream_semaphore] *)
| Trying (fresh : bool) (k : Key) (s : nat)
| Stealing (fresh : bool) (k : Key) (s : nat)
| Retrying (fresh : bool) (k : Key) (s : nat)
| Dialing (k : Key)
| Open                                                 (* the stream is with the caller *)
| Dropping                                             (* the stream or future is dropped *)
| Done.

Record Client := mkClient {
  pc : Pc;
  held : list nat;             (* [_permit] and [extra_permits] *)
  inner : list Key;            (* nodes of a chain still to be accounted *)
  failed : option ConnectError }.

Record t := mk {
  config : PoolConfig;
  max_per_upstream : nat;
  now : Z;
  sems : list nat;             (* available permits *)
  upstream_caps : gmap Key nat;
  endpoints : list Endpoint;
  pools : gmap Key nat;
  refill_tasks : gmap Key nat;
  lock : option (Key * bool);  (* a [forget] holding it, and whether the cap is gone *)
  alive : bool;                (* not dropped *)
  clients : list Client }.

(** [ProxyPool::new]: a cap of zero is one. *)
Definition new (config : PoolConfig) (max_per_upstream : nat) (now : Z) : t :=
  mk config (Nat.max max_per_upstream 1) now [] ∅ [] ∅ ∅ None true [].

Definition set_now (x : Z) (σ : t) : t :=
  mk (config σ) (max_per_upstream σ) x (sems σ) (upstream_caps σ) (endpoints σ) (pools σ)
    (refill_tasks σ) (lock σ) (alive σ) (clients σ).
Definition set_sems (x : list nat) (σ : t) : t :=
  mk (config σ) (max_per_upstream σ) (now σ) x (upstream_caps σ) (endpoints σ) (pools σ)
    (refill_tasks σ) (lock σ) (alive σ) (clients σ).
Definition set_caps (x : gmap Key nat) (σ : t) : t :=
  mk (config σ) (max_per_upstream σ) (now σ) (sems σ) x (endpoints σ) (pools σ)
    (refill_tasks σ) (lock σ) (alive σ) (clients σ).
Definition set_endpoints (x : list Endpoint) (σ : t) : t :=
  mk (config σ) (max_per_upstream σ) (now σ) (sems σ) (upstream_caps σ) x (pools σ)
    (refill_tasks σ) (lock σ) (alive σ) (clients σ).
Definition set_pools (x : gmap Key nat) (σ : t) : t :=
  mk (config σ) (max_per_upstream σ) (now σ) (sems σ) (upstream_caps σ) (endpoints σ) x
    (refill_tasks σ) (lock σ) (alive σ) (clients σ).
Definition set_tasks (x : gmap Key nat) (σ : t) : t :=
  mk (config σ) (max_per_upstream σ) (now σ) (sems σ) (upstream_caps σ) (endpoints σ) (pools σ)
    x (lock σ) (alive σ) (clients σ).
Definition set_clients (x : list Client) (σ : t) : t :=
  mk (config σ) (max_per_upstream σ) (now σ) (sems σ) (upstream_caps σ) (endpoints σ) (pools σ)
    (refill_tasks σ) (lock σ) (alive σ) x.
Definition set_lock (x : option (Key * bool)) (σ : t) : t :=
  mk (config σ) (max_per_upstream σ) (now σ) (sems σ) (upstream_caps σ) (endpoints σ) (pools σ)
    (refill_tasks σ) x (alive σ) (clients σ).
Definition set_dropped (σ : t) : t :=
  mk (config σ) (max_per_upstream σ) (now σ) (sems σ) (upstream_caps σ) (endpoints σ) (pools σ)
    (refill_tasks σ) (lock σ) false (clients σ).

Definition put_client (i : nat) (c : Client) (σ : t) : t := set_clients (<[i := c]> (clients σ)) σ.
Definition put_endpoint (e : nat) (x : Endpoint) (σ : t) : t := set_endpoints (<[e := x]> (endpoints σ)) σ.

Definition with_spares (x : Endpoint) (q : list PreWarmed) (n : bool) : Endpoint :=
  mkEndpoint (mkSpares q (capacity (spares x)) n) (task x).
Definition with_phase (x : Endpoint) (ph : Phase) : Endpoint :=
  mkEndpoint (spares x) (mkTask (t_key (task x)) (t_sem (task x)) (t_target (task x))
    (backoff (task x)) ph (aborted (task x))).
Definition with_backoff (x : Endpoint) (b : Z) : Endpoint :=
  mkEndpoint (spares x) (mkTask (t_key (task x)) (t_sem (task x)) (t_target (task x)) b
    (phase (task x)) (aborted (task x))).
Definition abort (x : Endpoint) : Endpoint :=
  mkEndpoint (spares x) (mkTask (t_key (task x)) (t_sem (task x)) (t_target (task x))
    (backoff (task x)) (phase (task x)) true).

(** ** Semaphores and shared queues *)

(** [Semaphore::try_acquire_owned]. *)
Definition try_acquire (s : nat) (σ : t) : option t :=
  match sems σ !! s with
  | Some (S n) => Some (set_sems (<[s := n]> (sems σ)) σ)
  | _ => None
  end.
(** Dropping a permit. *)
Definition release (p : nat) (σ : t) : t :=
  match sems σ !! p with
  | Some n => set_sems (<[p := S n]> (sems σ)) σ
  | None => σ
  end.

(** [upstream_semaphore]: get or create. *)
Definition upstream_semaphore (k : Key) (σ : t) : nat * t :=
  match upstream_caps σ !! k with
  | Some s => (s, σ)
  | None =>
      let s := length (sems σ) in
      (s, set_caps (<[k := s]> (upstream_caps σ)) (set_sems (sems σ ++ [max_per_upstream σ]) σ))
  end.

(** [queue.pop()] with its [notify_one]. *)
Definition pop_spare (e : nat) (σ : t) : option (PreWarmed * t) :=
  match endpoints σ !! e with
  | Some x =>
      match queue (spares x) with
      | pw :: rest => Some (pw, put_endpoint e (with_spares x rest true) σ)
      | [] => None
      end
  | None => None
  end.
Definition notify (e : nat) (σ : t) : t :=
  match endpoints σ !! e with
  | Some x => put_endpoint e (with_spares x (queue (spares x)) true) σ
  | None => σ
  end.

(** Whether some [Arc<ProxySpares>] to the queue is left. *)
Definition pops_from (e : nat) (c : Client) : bool :=
  match pc c with
  | Popping _ _ e' _ | Discarding _ _ e' _ _ => (e =? e')%nat
  | _ => false
  end.
Definition referenced (e : nat) (σ : t) : bool :=
  existsb (fun kv => (kv.2 =? e)%nat) (map_to_list (pools σ))
  || match endpoints σ !! e with
     | Some x => match phase (task x) with Ended => false | _ => true end
     | None => false
     end
  || existsb (pops_from e) (clients σ).

(** The last reference gone, the queue and what is in it are dropped. *)
Definition collect (e : nat) (σ : t) : t :=
  if referenced e σ then σ
  else match endpoints σ !! e with
       | Some x =>
           foldr release (put_endpoint e (with_spares x [] (notified (spares x))) σ)
             (map permit (queue (spares x)))
       | None => σ
       end.

(** ** Callers *)

Definition goto (p : Pc) (c : Client) : Client := mkClient p (held c) (inner c) (failed c).
Definition hold (p : nat) (c : Client) : Client := mkClient (pc c) (p :: held c) (inner c) (failed c).
Definition fail_with (e : ConnectError) (c : Client) : Client :=
  mkClient Dropping (held c) (inner c) (Some e).

(** With the socket and its permits so far: the next node of a chain, or the stream. *)
Definition next_node (c : Client) : Client :=
  match inner c with
  | [] => goto Open c
  | k :: rest => mkClient (Capping false k) (held c) rest (failed c)
  end.
Definition granted (fresh : bool) (k : Key) (p : nat) (c : Client) : Client :=
  if fresh then goto (Dialing k) (hold p c) else next_node (hold p c).

Definition no_spare (w : Want) (k : Key) (c : Client) : Client :=
  match w with
  | ForAcquire => goto (Capping true k) c
  | ForCheckout | ForUnguarded => goto Done c
  end.
Definition took_spare (w : Want) (p : nat) (c : Client) : Client :=
  match w with
  | ForAcquire => next_node (hold p c)
  | ForCheckout => goto Open (hold p c)
  | ForUnguarded => goto Dropping (hold p c)
  end.

Definition max_age (σ : t) : Z := from_secs (max_session_age_sec (config σ)).
Definition young (σ : t) (started : Z) (pw : PreWarmed) : bool :=
  saturating_duration_since started (created_at pw) <=? max_age σ.

(** One step of a caller; [dead] is what the liveness probe of a popped socket says. *)
Definition client_step (dead : bool) (i : nat) (σ : t) : option t :=
  c ← clients σ !! i;
  match pc c with
  | Looking w k =>
      if negb (enabled (config σ)) then Some (put_client i (no_spare w k c) σ)
      else match pools σ !! k with
           | None => Some (put_client i (no_spare w k c) σ)
           | Some e => Some (put_client i (goto (Popping w k e (now σ)) c) σ)
           end
  | Popping w k e started =>
      match pop_spare e σ with
      | None => Some (collect e (put_client i (no_spare w k c) (notify e σ)))
      | Some (pw, σ1) =>
          if young σ started pw && negb dead
          then Some (collect e (put_client i (took_spare w (permit pw) c) σ1))
          else Some (put_client i (goto (Discarding w k e started (permit pw)) c) σ1)
      end
  | Discarding w k e started p => Some (release p (put_client i (goto (Popping w k e started) c) σ))
  | Capping fresh k =>
      let '(s, σ1) := upstream_semaphore k σ in Some (put_client i (goto (Trying fresh k s) c) σ1)
  | Trying fresh k s =>
      match try_acquire s σ with
      | Some σ1 => Some (put_client i (granted fresh k s c) σ1)
      | None => Some (put_client i (goto (Stealing fresh k s) c) σ)
      end
  | Stealing fresh k s =>
      match e ← pools σ !! k; pop_spare e σ with
      | Some (pw, σ1) => Some (put_client i (granted fresh k (permit pw) c) σ1)
      | None => Some (put_client i (goto (Retrying fresh k s) c) σ)
      end
  | Retrying fresh k s =>
      match try_acquire s σ with
      | Some σ1 => Some (put_client i (granted fresh k s c) σ1)
      | None => Some (put_client i (fail_with (AtCapacityError (mkAtCapacity k.1 k.2)) c) σ)
      end
  | Dropping =>
      match held c with
      | [] => Some (put_client i (goto Done c) σ)
      | p :: rest => Some (release p (put_client i (mkClient Dropping rest (inner c) (failed c)) σ))
      end
  | Dialing _ | Open | Done => None
  end.

(** The TCP connect of [acquire] ends, with an error or not. *)
Definition client_dialed (r : option ConnectError) (i : nat) (σ : t) : option t :=
  c ← clients σ !! i;
  match pc c with
  | Dialing _ =>
      Some (put_client i (match r with None => next_node c | Some e => fail_with e c end) σ)
  | _ => None
  end.

(** The caller drops the stream, or cancels the connect. *)
Definition client_dropped (i : nat) (σ : t) : option t :=
  c ← clients σ !! i;
  match pc c with
  | Dialing _ | Open => Some (put_client i (goto Dropping c) σ)
  | _ => None
  end.

(** ** Refill tasks *)

Definition BACKOFF_MIN : Z := 100000000.
Definition BACKOFF_MAX : Z := from_secs 10.

Definition phase_permits (ph : Phase) : list nat :=
  match ph with
  | Connecting p => [p]
  | Recycling ks _ | Restoring ks => map permit ks
  | Scrapping ks _ p => p :: map permit ks
  | _ => []
  end.

Definition task_step (e : nat) (σ : t) : option t :=
  x ← endpoints σ !! e;
  match phase (task x) with
  | Spawned => Some (put_endpoint e (with_phase x Filling) σ)
  | Filling =>
      Some (put_endpoint e (with_phase x
        (if (length (queue (spares x)) <? t_target (task x))%nat then Granting else Waiting)) σ)
  | Granting =>
      match try_acquire (t_sem (task x)) σ with
      | Some σ1 => Some (put_endpoint e (with_phase x (Connecting (t_sem (task x)))) σ1)
      | None => Some (put_endpoint e (with_phase x Sleeping) σ)
      end
  | Recycling ks started =>
      match queue (spares x) with
      | pw :: rest =>
          Some (put_endpoint e (with_phase (with_spares x rest (notified (spares x)))
            (if young σ started pw then Recycling (ks ++ [pw]) started
             else Scrapping ks started (permit pw))) σ)
      | [] => Some (put_endpoint e (with_phase x (Restoring ks)) σ)
      end
  | Scrapping ks started p => Some (release p (put_endpoint e (with_phase x (Recycling ks started)) σ))
  | Restoring (pw :: rest) =>
      if (length (queue (spares x)) <? capacity (spares x))%nat
      then Some (put_endpoint e (with_phase
                   (with_spares x (queue (spares x) ++ [pw]) (notified (spares x))) (Restoring rest)) σ)
      else Some (release (permit pw) (put_endpoint e (with_phase x (Restoring rest)) σ))
  | Restoring [] => Some (put_endpoint e (with_phase x Filling) σ)
  | Connecting _ | Sleeping | Waiting | Ended => None
  end.

(** The connect of a refill task ends. *)
Definition task_connected (ok : bool) (e : nat) (σ : t) : option t :=
  x ← endpoints σ !! e;
  match phase (task x) with
  | Connecting p =>
      if ok then
        let x1 := with_backoff (with_phase x Filling) BACKOFF_MIN in
        if (length (queue (spares x)) <? capacity (spares x))%nat
        then Some (put_endpoint e
                     (with_spares x1 (queue (spares x) ++ [mkPw p (now σ)]) (notified (spares x))) σ)
        else Some (release p (put_endpoint e x1 σ))
      else Some (release p (put_endpoint e (with_phase x Sleeping) σ))
  | _ => None
  end.

(** Its backoff ends. *)
Definition task_woken (e : nat) (σ : t) : option t :=
  x ← endpoints σ !! e;
  match phase (task x) with
  | Sleeping =>
      Some (put_endpoint e (with_backoff (with_phase x Filling)
              (Z.min (backoff (task x) * 2) BACKOFF_MAX)) σ)
  | _ => None
  end.

(** The two arms of its [select!]. *)
Definition task_notified (e : nat) (σ : t) : option t :=
  x ← endpoints σ !! e;
  match phase (task x), notified (spares x) with
  | Waiting, true =>
      Some (put_endpoint e (with_phase (with_spares x (queue (spares x)) false) Filling) σ)
  | _, _ => None
  end.
Definition task_aged (e : nat) (σ : t) : option t :=
  x ← endpoints σ !! e;
  match phase (task x) with
  | Waiting => Some (put_endpoint e (with_phase x (Recycling [] (now σ))) σ)
  | _ => None
  end.

(** An abort takes effect where the task awaits; its locals are dropped. *)
Definition task_cancelled (e : nat) (σ : t) : option t :=
  x ← endpoints σ !! e;
  match aborted (task x), phase (task x) with
  | true, (Spawned | Connecting _ | Sleeping | Waiting) =>
      Some (collect e (foldr release (put_endpoint e (with_phase x Ended) σ)
                         (phase_permits (phase (task x)))))
  | _, _ => None
  end.

(** ** Lifecycle *)

Definition abort_at (e : nat) (σ : t) : t :=
  match endpoints σ !! e with Some x => put_endpoint e (abort x) σ | None => σ end.

(** The queue's entry and its task. *)
Definition publish (k : Key) (s target : nat) (σ : t) : t :=
  set_pools (<[k := length (endpoints σ)]> (pools σ))
    (set_endpoints (endpoints σ ++
       [mkEndpoint (mkSpares [] target false) (mkTask k s target BACKOFF_MIN Spawned false)]) σ).

(** [spawn_refill_for], under the lock. *)
Definition spawn_refill_for (k : Key) (σ : t) : t :=
  if negb (enabled (config σ)) then σ
  else match pools σ !! k with
       | Some _ => σ
       | None =>
           let target := Nat.min (Nat.max (spare_per_proxy (config σ)) 1) (max_per_upstream σ) in
           let e := length (endpoints σ) in
           let '(s, σ) := upstream_semaphore k σ in
           let σ := publish k s target σ in
           let σ := match refill_tasks σ !! k with Some old => abort_at old σ | None => σ end in
           set_tasks (<[k := e]> (refill_tasks σ)) σ
       end.

(** The three removals of [forget], the lock held across them. *)
Definition forget_queue (k : Key) (σ : t) : t :=
  let σ' := set_lock (Some (k, false)) (set_pools (delete k (pools σ)) σ) in
  match pools σ !! k with Some e => collect e σ' | None => σ' end.
Definition forget_cap (k : Key) (σ : t) : t :=
  set_lock (Some (k, true)) (set_caps (delete k (upstream_caps σ)) σ).
Definition forget_task (k : Key) (σ : t) : t :=
  let σ' := set_lock None (set_tasks (delete k (refill_tasks σ)) σ) in
  match refill_tasks σ !! k with Some e => abort_at e σ' | None => σ' end.

(** A caller that is inside a call of the pool. *)
Definition in_call (c : Client) : bool :=
  match pc c with Open | Dropping | Done => false | _ => true end.

(** Dropping the pool: every registered task is aborted, the maps go. *)
Definition drop_pool (σ : t) : t :=
  set_dropped (set_caps ∅ (set_pools ∅ (set_tasks ∅
    (foldr (fun kv => abort_at kv.2) σ (map_to_list (refill_tasks σ)))))).

(** ** Runs *)

Inductive Event :=
| Tick (d : Z)
| Acquire (k : Key) (inner : list Key)   (* [acquire], or [connect_chain]'s accounting *)
| Reserve (k : Key)                      (* [reserve_permit] on its own *)
| Checkout (k : Key)
| CheckoutUnguarded (k : Key)
| Run (i : nat) (dead : bool)
| Dialed (i : nat) (r : option ConnectError)
| Drop (i : nat)
| SpawnRefill (k : Key)
| Forget (k : Key)
| ForgetNext
| Refill (e : nat)
| Connected (e : nat) (ok : bool)
| Woken (e : nat)
| Notified (e : nat)
| Aged (e : nat)
| Cancelled (e : nat)
| DropPool.

Definition start (c : Client) (σ : t) : option t :=
  if alive σ then Some (set_clients (clients σ ++ [c]) σ) else None.

(** [None]: the event cannot happen now. *)
Definition exec (ev : Event) (σ : t) : option t :=
  match ev with
  | Tick d => if 0 <=? d then Some (set_now (now σ + d) σ) else None
  | Acquire k ks => start (mkClient (Looking ForAcquire k) [] ks None) σ
  | Reserve k => start (mkClient (Capping false k) [] [] None) σ
  | Checkout k => start (mkClient (Looking ForCheckout k) [] [] None) σ
  | CheckoutUnguarded k => start (mkClient (Looking ForUnguarded k) [] [] None) σ
  | Run i dead => client_step dead i σ
  | Dialed i r => client_dialed r i σ
  | Drop i => client_dropped i σ
  | SpawnRefill k =>
      match lock σ with None => if alive σ then Some (spawn_refill_for k σ) else None | Some _ => None end
  | Forget k =>
      match lock σ with None => if alive σ then Some (forget_queue k σ) else None | Some _ => None end
  | ForgetNext =>
      match lock σ with
      | Some (k, false) => Some (forget_cap k σ)
      | Some (k, true) => Some (forget_task k σ)
      | None => None
      end
  | Refill e => task_step e σ
  | Connected e ok => task_connected ok e σ
  | Woken e => task_woken e σ
  | Notified e => task_notified e σ
  | Aged e => task_aged e σ
  | Cancelled e => task_cancelled e σ
  | DropPool =>
      match lock σ with
      | None => if alive σ && negb (existsb in_call (clients σ)) then Some (drop_pool σ) else None
      | Some _ => None
      end
  end.

Inductive reachable (σ0 : t) : t -> Prop :=
| reach_init : reachable σ0 σ0
| reach_step σ ev σ' : reachable σ0 σ -> exec ev σ = Some σ' -> reachable σ0 σ'.

(** A run, for concrete schedules. *)
Definition run (evs : list Event) (σ : t) : option t :=
  foldl (fun acc ev => σ ← acc; exec ev σ) (Some σ) evs.

End Pool.
