(* ===== verification/PoolProofs.v ===== *)
(** * PoolProofs: the books of the connection pool balance

    The transition system of [Pool.v] keeps, in every reachable state, the
    accounting of permits, the consistency of the lifecycle maps, and the
    emptiness of queues nobody can reach.  A semaphore bounds the sockets that
    hold its permits; an upstream has one more semaphore for every time it was
    forgotten, and its unguarded sockets hold none ([pool_accounting]). *)
From S2P Require Import Prelude ProxyTypes Errors Pool.

Module PoolProofs.
Import Pool.

(** ** Accounting *)

Definition cnt (s : nat) (l : list nat) : nat := count_occ Nat.eq_dec l s.
Definition client_permits (c : Client) : list nat :=
  match pc c with Discarding _ _ _ _ p => p :: held c | _ => held c end.
Definition endpoint_permits (x : Endpoint) : list nat :=
  map permit (queue (spares x)) ++ phase_permits (phase (task x)).

Definition available (s : nat) (σ : t) : nat :=
  match sems σ !! s with Some n => n | None => max_per_upstream σ end.
(** Permits in spares and refill tasks, and with callers. *)
Definition warm (s : nat) (σ : t) : nat := sum_list_with (fun x => cnt s (endpoint_permits x)) (endpoints σ).
Definition taken (s : nat) (σ : t) : nat := sum_list_with (fun c => cnt s (client_permits c)) (clients σ).
Definition balance (s : nat) (σ : t) : nat := (available s σ + warm s σ + taken s σ)%nat.
Definition conserved (σ : t) : Prop := forall s, balance s σ = max_per_upstream σ.

Lemma cnt_cons s p l : cnt s (p :: l) = (cnt s [p] + cnt s l)%nat.
Proof. unfold cnt. cbn [count_occ]. by destruct (Nat.eq_dec p s). Qed.

Lemma cnt_app s l k : cnt s (l ++ k) = (cnt s l + cnt s k)%nat.
Proof. apply count_occ_app. Qed.

Lemma cnt_pos s l : s ∈ l -> (0 < cnt s l)%nat.
Proof. intros H%list_elem_of_In. by apply (count_occ_In Nat.eq_dec). Qed.

Lemma sum_insert {A} (f : A -> nat) l i x y : l !! i = Some x ->
  (sum_list_with f (<[i := y]> l) + f x = sum_list_with f l + f y)%nat.
Proof.
  revert i. induction l as [|a l IH]; intros [|i]; [done..| |].
  - intros [= ->]. cbn. lia.
  - intros H. specialize (IH i H). change (<[S i := y]> (a :: l)) with (a :: <[i := y]> l).
    cbn [sum_list_with]. lia.
Qed.

Lemma sum_member {A} (f : A -> nat) l i x : l !! i = Some x -> (f x <= sum_list_with f l)%nat.
Proof.
  revert i. induction l as [|a l IH]; intros [|i]; [done..| |]; cbn; [intros [= ->]; lia|].
  intros H. specialize (IH i H). lia.
Qed.

Lemma balance_client s i c c' σ : clients σ !! i = Some c ->
  (balance s (put_client i c' σ) + cnt s (client_permits c) = balance s σ + cnt s (client_permits c'))%nat.
Proof.
  intros H. unfold balance, warm, taken, available.
  pose proof (sum_insert (fun c => cnt s (client_permits c)) _ _ _ c' H). cbn in *. lia.
Qed.

Lemma balance_endpoint s e x x' σ : endpoints σ !! e = Some x ->
  (balance s (put_endpoint e x' σ) + cnt s (endpoint_permits x)
   = balance s σ + cnt s (endpoint_permits x'))%nat.
Proof.
  intros H. unfold balance, warm, taken, available.
  pose proof (sum_insert (fun x => cnt s (endpoint_permits x)) _ _ _ x' H). cbn in *. lia.
Qed.

(** A semaphore's counter moves by one, the rest stays. *)
Lemma balance_sem s p n n' σ : sems σ !! p = Some n ->
  (balance s (set_sems (<[p := n']> (sems σ)) σ) + (if decide (p = s) then n else 0)
   = balance s σ + (if decide (p = s) then n' else 0))%nat.
Proof.
  intros H. unfold balance, warm, taken, available. cbn.
  pose proof (lookup_lt_Some _ _ _ H). destruct (decide (p = s)) as [->|].
  - rewrite list_lookup_insert_eq, H by done. lia.
  - by rewrite list_lookup_insert_ne by done.
Qed.

Lemma balance_release s p σ : (p < length (sems σ))%nat ->
  balance s (release p σ) = (balance s σ + cnt s [p])%nat.
Proof.
  intros [n H]%lookup_lt_is_Some. unfold release. rewrite H.
  pose proof (balance_sem s p n (S n) σ H). unfold cnt. cbn.
  destruct (Nat.eq_dec p s), (decide (p = s)); lia.
Qed.

Lemma balance_take s p σ σ' : try_acquire p σ = Some σ' ->
  balance s σ = (balance s σ' + cnt s [p])%nat.
Proof.
  unfold try_acquire. destruct (sems σ !! p) as [[|n]|] eqn:H; [done| |done]. intros [= <-].
  pose proof (balance_sem s p (S n) n σ H). unfold cnt. cbn.
  destruct (Nat.eq_dec p s), (decide (p = s)); lia.
Qed.

Lemma release_sems p σ : length (sems (release p σ)) = length (sems σ).
Proof. unfold release. destruct (sems σ !! p); [apply length_insert|done]. Qed.

Lemma balance_release_all s ps σ : Forall (fun p => (p < length (sems σ))%nat) ps ->
  balance s (foldr release σ ps) = (balance s σ + cnt s ps)%nat /\
  length (sems (foldr release σ ps)) = length (sems σ).
Proof.
  induction 1 as [|p ps Hp _ [IH IHl]]; cbn [foldr]; [unfold cnt; cbn; lia|].
  rewrite balance_release, release_sems, IH, (cnt_cons s p ps) by lia. lia.
Qed.

(** *** Permits in flight: taken from one place and not yet put in another *)

Definition owes (ps : list nat) (σ : t) : Prop :=
  forall s, (balance s σ + cnt s ps = max_per_upstream σ)%nat.

Lemma owes_nil σ : owes [] σ <-> conserved σ.
Proof. unfold owes, conserved, cnt. cbn. split; intros H s; specialize (H s); lia. Qed.

Lemma cnt_perm s l k : l ≡ₚ k -> cnt s l = cnt s k.
Proof. intros H. by apply (Permutation_count_occ Nat.eq_dec). Qed.

Lemma owes_perm ps qs σ : ps ≡ₚ qs -> owes ps σ -> owes qs σ.
Proof. intros Hp H s. by rewrite <- (cnt_perm s _ _ Hp). Qed.

Lemma owes_valid p ps σ : owes (p :: ps) σ -> (p < length (sems σ))%nat.
Proof.
  intros H. apply lookup_lt_is_Some. specialize (H p). unfold balance, available in H.
  rewrite cnt_cons in H. assert (cnt p [p] = 1%nat) by (unfold cnt; cbn; by destruct (Nat.eq_dec p p)).
  destruct (sems σ !! p); [by eexists | lia].
Qed.

Lemma owes_take s ps σ σ' : try_acquire s σ = Some σ' -> owes ps σ -> owes (s :: ps) σ'.
Proof.
  intros Ht H x. specialize (H x). rewrite (balance_take x _ _ _ Ht) in H. rewrite cnt_cons.
  assert (max_per_upstream σ' = max_per_upstream σ) as ->.
  { unfold try_acquire in Ht. by destruct (sems σ !! s) as [[|n]|]; simplify_eq. }
  lia.
Qed.

Lemma owes_release p ps σ : owes (p :: ps) σ -> owes ps (release p σ).
Proof.
  intros H x. rewrite balance_release by by eapply owes_valid. specialize (H x).
  rewrite cnt_cons in H. assert (max_per_upstream (release p σ) = max_per_upstream σ) as ->
    by (unfold release; by destruct (sems σ !! p)). lia.
Qed.

Lemma owes_release_all ps qs σ : owes (ps ++ qs) σ -> owes qs (foldr release σ ps).
Proof.
  revert qs. induction ps as [|p ps IH]; intros qs H; [done|]. cbn [foldr].
  apply owes_release, IH. eapply owes_perm; [|exact H]. cbn. by rewrite Permutation_middle.
Qed.

Lemma owes_client i c c' ps qs σ : clients σ !! i = Some c ->
  client_permits c' ++ qs ≡ₚ client_permits c ++ ps -> owes ps σ -> owes qs (put_client i c' σ).
Proof.
  intros Hc Hp H s. pose proof (balance_client s i c c' σ Hc). specialize (H s).
  pose proof (cnt_perm s _ _ Hp) as Hs. rewrite !cnt_app in Hs. cbn. lia.
Qed.

Lemma owes_endpoint e x x' ps qs σ : endpoints σ !! e = Some x ->
  endpoint_permits x' ++ qs ≡ₚ endpoint_permits x ++ ps -> owes ps σ -> owes qs (put_endpoint e x' σ).
Proof.
  intros Hc Hp H s. pose proof (balance_endpoint s e x x' σ Hc). specialize (H s).
  pose proof (cnt_perm s _ _ Hp) as Hs. rewrite !cnt_app in Hs. cbn. lia.
Qed.

Lemma owes_pop e pw ps σ σ' : pop_spare e σ = Some (pw, σ') -> owes ps σ -> owes (permit pw :: ps) σ'.
Proof.
  unfold pop_spare. destruct (endpoints σ !! e) as [x|] eqn:Hx; [|done].
  destruct (queue (spares x)) as [|pw' rest] eqn:Hq; [done|]. intros [= -> <-].
  eapply owes_endpoint; [exact Hx|]. unfold endpoint_permits. cbn. rewrite Hq. cbn [map app].
  rewrite <- Permutation_middle. done.
Qed.

(** What does not touch counters, spares or permits. *)
Lemma owes_same ps σ σ' : sems σ' = sems σ -> endpoints σ' = endpoints σ -> clients σ' = clients σ ->
  max_per_upstream σ' = max_per_upstream σ -> owes ps σ -> owes ps σ'.
Proof.
  intros Hs He Hc Hm H s. unfold balance, available, warm, taken. rewrite Hs, He, Hc, Hm. apply H.
Qed.

Lemma owes_put_same e x x' ps σ : endpoints σ !! e = Some x -> endpoint_permits x' = endpoint_permits x ->
  owes ps σ -> owes ps (put_endpoint e x' σ).
Proof. intros Hx Hp. eapply owes_endpoint; [exact Hx|]. by rewrite Hp. Qed.

Lemma owes_notify e ps σ : owes ps σ -> owes ps (notify e σ).
Proof. unfold notify. destruct (endpoints σ !! e) eqn:Hx; [by eapply owes_put_same|done]. Qed.

Lemma owes_abort e ps σ : owes ps σ -> owes ps (abort_at e σ).
Proof. unfold abort_at. destruct (endpoints σ !! e) eqn:Hx; [by eapply owes_put_same|done]. Qed.

Lemma owes_collect e ps σ : owes ps σ -> owes ps (collect e σ).
Proof.
  intros H. unfold collect. destruct (referenced e σ); [done|].
  destruct (endpoints σ !! e) as [x|] eqn:Hx; [|done]. apply owes_release_all.
  eapply owes_endpoint; [exact Hx| |exact H]. unfold endpoint_permits. cbn.
  rewrite <- !app_assoc, (app_assoc (phase_permits _)). rewrite (Permutation_app_comm (phase_permits _)).
  by rewrite <- app_assoc.
Qed.

Lemma owes_upstream k ps σ : owes ps σ -> owes ps (upstream_semaphore k σ).2.
Proof.
  unfold upstream_semaphore. destruct (upstream_caps σ !! k); [done|]. intros H s. specialize (H s).
  unfold balance, available, warm, taken in *. cbn.
  destruct (Nat.lt_ge_cases s (length (sems σ))) as [Hl|Hl].
  - by rewrite lookup_app_l.
  - rewrite (lookup_ge_None_2 _ _ Hl) in H. rewrite lookup_app_r by done.
    by destruct (s - length (sems σ))%nat as [|[]]; cbn.
Qed.

(** *** Steps *)

Lemma clients_take s σ σ' : try_acquire s σ = Some σ' -> clients σ' = clients σ /\ endpoints σ' = endpoints σ.
Proof. unfold try_acquire. by destruct (sems σ !! s) as [[|n]|]; intros; simplify_eq. Qed.
Lemma clients_pop e r σ σ' : pop_spare e σ = Some (r, σ') -> clients σ' = clients σ.
Proof.
  unfold pop_spare. destruct (endpoints σ !! e) as [x|]; [|done].
  by destruct (queue (spares x)); intros; simplify_eq.
Qed.
Lemma clients_notify e σ : clients (notify e σ) = clients σ.
Proof. unfold notify. by destruct (endpoints σ !! e). Qed.
Lemma clients_upstream k σ : clients (upstream_semaphore k σ).2 = clients σ.
Proof. unfold upstream_semaphore. by destruct (upstream_caps σ !! k). Qed.

Lemma permits_next c : client_permits (next_node c) = held c.
Proof. unfold next_node. by destruct (inner c). Qed.
Lemma permits_granted fresh k p c : client_permits (granted fresh k p c) = p :: held c.
Proof. unfold granted. destruct fresh; [done|]. by rewrite permits_next. Qed.
Lemma permits_none w k c : client_permits (no_spare w k c) = held c.
Proof. by destruct w. Qed.
Lemma permits_took w p c : client_permits (took_spare w p c) = p :: held c.
Proof. destruct w; [|done..]. by apply (permits_next (hold p c)). Qed.

(** A caller whose permits are those it holds and [ps] in flight. *)
Lemma owes_caller i c c' ps σ : clients σ !! i = Some c -> client_permits c = held c ->
  client_permits c' = ps ++ held c -> owes ps σ -> owes [] (put_client i c' σ).
Proof.
  intros Hc Hh Hp. eapply owes_client; [exact Hc|]. rewrite Hh, Hp, app_nil_r. apply Permutation_app_comm.
Qed.

Lemma owes_client_step dead i σ σ' : client_step dead i σ = Some σ' -> owes [] σ -> owes [] σ'.
Proof.
  unfold client_step. destruct (clients σ !! i) as [c|] eqn:Hc; [|done].
  cbn [mbind option_bind]. intros Hs H. destruct (pc c) eqn:Hpc; try done.
  all: assert (Hh : client_permits c = match pc c with Discarding _ _ _ _ p => p :: held c | _ => held c end)
    by done; rewrite Hpc in Hh.
  - (* Looking *)
    destruct (negb _); [|destruct (pools σ !! k)]; injection Hs as <-;
      eapply (owes_caller _ _ _ []); eauto using permits_none.
  - (* Popping *)
    destruct (pop_spare e σ) as [[pw σ1]|] eqn:Hpop.
    + pose proof (owes_pop _ _ _ _ _ Hpop H) as H1. pose proof (clients_pop _ _ _ _ Hpop) as Hcl.
      destruct (_ && _); injection Hs as <-; [apply owes_collect|];
        (eapply (owes_caller _ _ _ [permit pw]); [by rewrite Hcl | done | | done]); [apply permits_took | done].
    + injection Hs as <-. apply owes_collect. eapply (owes_caller _ _ _ []); [| done | |].
      * by rewrite clients_notify.
      * apply permits_none.
      * by apply owes_notify.
  - (* Discarding *)
    injection Hs as <-. apply owes_release. eapply owes_client; [exact Hc| |exact H].
    rewrite Hh, app_nil_r. cbn. by rewrite <- Permutation_cons_append.
  - (* Capping *)
    destruct (upstream_semaphore k σ) as [s σ1] eqn:Hup. injection Hs as <-.
    pose proof (owes_upstream k [] σ H) as H1. pose proof (clients_upstream k σ) as Hcl.
    rewrite Hup in H1, Hcl. cbn [snd] in H1, Hcl. eapply (owes_caller _ _ _ []); [by rewrite Hcl | done..].
  - (* Trying *)
    destruct (try_acquire s σ) as [σ1|] eqn:Ht; injection Hs as <-.
    + eapply (owes_caller _ _ _ [s]); [by rewrite (proj1 (clients_take _ _ _ Ht)) | done | apply permits_granted |].
      by eapply owes_take.
    + by eapply (owes_caller _ _ _ []).
  - (* Stealing *)
    destruct (pools σ !! k ≫= _) as [[pw σ1]|] eqn:Hpop; injection Hs as <-.
    + apply bind_Some in Hpop as (e & _ & Hpop). eapply (owes_caller _ _ _ [permit pw]);
        [by rewrite (clients_pop _ _ _ _ Hpop) | done | apply permits_granted | by eapply owes_pop].
    + by eapply (owes_caller _ _ _ []).
  - (* Retrying *)
    destruct (try_acquire s σ) as [σ1|] eqn:Ht; injection Hs as <-.
    + eapply (owes_caller _ _ _ [s]); [by rewrite (proj1 (clients_take _ _ _ Ht)) | done | apply permits_granted |].
      by eapply owes_take.
    + by eapply (owes_caller _ _ _ []).
  - (* Dropping *)
    destruct (held c) as [|p rest] eqn:Hheld; injection Hs as <-.
    + eapply (owes_caller _ _ _ []); [done | by rewrite Hheld | by cbn; rewrite Hheld | done].
    + apply owes_release. eapply owes_client; [exact Hc| |exact H]. rewrite Hh, app_nil_r. cbn.
      by rewrite <- Permutation_cons_append.
Qed.

(** An endpoint whose permits become [ps], the rest [qs] now in flight. *)
Lemma owes_task e x x' ps σ : endpoints σ !! e = Some x ->
  endpoint_permits x ≡ₚ endpoint_permits x' ++ ps -> owes [] σ -> owes ps (put_endpoint e x' σ).
Proof. intros Hx Hp. eapply owes_endpoint; [exact Hx|]. by rewrite app_nil_r, Hp. Qed.

Ltac books_tac := unfold endpoint_permits; cbn; rewrite ?app_nil_r.
Tactic Notation "books" constr(H) := rewrite H; books_tac.
Tactic Notation "books" := books_tac.

Lemma owes_task_step e σ σ' : task_step e σ = Some σ' -> owes [] σ -> owes [] σ'.
Proof.
  unfold task_step. destruct (endpoints σ !! e) as [x|] eqn:Hx; [|done].
  cbn [mbind option_bind]. intros Hs H. destruct (phase (task x)) eqn:Hph; try done.
  all: assert (Hp : endpoint_permits x = map permit (queue (spares x)) ++ phase_permits (phase (task x)))
    by done; rewrite Hph in Hp; cbn [phase_permits] in Hp.
  - injection Hs as <-. eapply owes_task; [exact Hx| |exact H]. by books Hp.
  - destruct (length _ <? _)%nat; injection Hs as <-; (eapply owes_task; [exact Hx| |exact H]); by books Hp.
  - destruct (try_acquire _ σ) as [σ1|] eqn:Ht; injection Hs as <-.
    + eapply owes_endpoint; [by rewrite (proj2 (clients_take _ _ _ Ht)) | | by eapply owes_take].
      by books Hp.
    + eapply owes_task; [exact Hx| |exact H]. by books Hp.
  - destruct (queue (spares x)) as [|pw rest] eqn:Hq; [|destruct (young σ started pw)]; injection Hs as <-;
      (eapply owes_task; [exact Hx| |exact H]); books Hp.
    + by rewrite Hq.
    + rewrite map_app. cbn. by rewrite app_assoc, <- Permutation_cons_append.
    + by rewrite <- Permutation_middle.
  - injection Hs as <-. apply owes_release. eapply owes_task; [exact Hx| |exact H]. books Hp. by rewrite <- app_assoc, <- Permutation_cons_append.
  - destruct keepers as [|pw rest]; [injection Hs as <-|destruct (_ <? _)%nat; injection Hs as <-].
    + eapply owes_task; [exact Hx| |exact H]. by books Hp.
    + eapply owes_task; [exact Hx| |exact H]. books Hp.
      by rewrite map_app, <- app_assoc.
    + apply owes_release. eapply owes_task; [exact Hx| |exact H]. books Hp.
      by rewrite <- app_assoc, <- Permutation_cons_append.
Qed.

Lemma owes_task_connected ok e σ σ' : task_connected ok e σ = Some σ' -> owes [] σ -> owes [] σ'.
Proof.
  unfold task_connected. destruct (endpoints σ !! e) as [x|] eqn:Hx; [|done].
  cbn [mbind option_bind]. intros Hs H. destruct (phase (task x)) eqn:Hph; try done.
  assert (Hp : endpoint_permits x = map permit (queue (spares x)) ++ [p])
    by (unfold endpoint_permits; by rewrite Hph).
  destruct ok; [destruct (_ <? _)%nat|]; injection Hs as <-; [|apply owes_release..];
    (eapply owes_task; [exact Hx| |exact H]); rewrite Hp; unfold endpoint_permits; cbn.
  - by rewrite map_app, !app_nil_r.
  - by rewrite app_nil_r.
  - by rewrite app_nil_r.
Qed.

Lemma owes_task_cancelled e σ σ' : task_cancelled e σ = Some σ' -> owes [] σ -> owes [] σ'.
Proof.
  unfold task_cancelled. destruct (endpoints σ !! e) as [x|] eqn:Hx; [|done].
  cbn [mbind option_bind]. intros Hs H. destruct (aborted (task x)); [|done].
  assert (Hgoal : Some (collect e (foldr release (put_endpoint e (with_phase x Ended) σ)
                         (phase_permits (phase (task x))))) = Some σ' -> owes [] σ').
  { intros [= <-]. apply owes_collect, owes_release_all. rewrite app_nil_r.
    eapply owes_task; [exact Hx| |exact H]. unfold endpoint_permits. cbn. by rewrite app_nil_r. }
  by destruct (phase (task x)); first [apply Hgoal | idtac].
Qed.

Lemma owes_abort_all kvs σ : owes [] σ ->
  owes [] (foldr (fun kv : Key * nat => abort_at kv.2) σ kvs).
Proof. intros H. induction kvs as [|[k e] kvs IH]; [done|]. by apply owes_abort. Qed.

Lemma endpoints_abort_length e σ : length (endpoints (abort_at e σ)) = length (endpoints σ).
Proof. unfold abort_at. destruct (endpoints σ !! e); [apply length_insert|done]. Qed.

Lemma owes_publish k x target σ : owes [] σ -> owes [] (publish k x target σ).
Proof.
  intros H y. specialize (H y). unfold balance, available, warm, taken, cnt in *. cbn in *.
  rewrite sum_list_with_app. cbn. lia.
Qed.

Lemma owes_spawn k σ : owes [] σ -> owes [] (spawn_refill_for k σ).
Proof.
  intros H. unfold spawn_refill_for. destruct (negb _); [done|]. destruct (pools σ !! k); [done|].
  pose proof (owes_upstream k [] σ H) as H1. destruct (upstream_semaphore k σ) as [s σ1].
  cbn [snd] in H1. cbv zeta. set (target := Nat.min _ _).
  pose proof (owes_publish k s target σ1 H1) as H2.
  eapply owes_same; [done..|]. destruct (_ !! k); [by apply owes_abort|done].
Qed.

(** Every event keeps the books. *)
Lemma owes_exec ev σ σ' : exec ev σ = Some σ' -> owes [] σ -> owes [] σ'.
Proof.
  intros Hs H.
  assert (Hstart : forall c, client_permits c = [] -> start c σ = Some σ' -> owes [] σ').
  { intros c Hc. unfold start. destruct (alive σ); [|done]. intros [= <-] y. specialize (H y).
    unfold balance, available, warm, taken in *. cbn. rewrite sum_list_with_app. cbn. rewrite Hc.
    unfold cnt. cbn. unfold cnt in H. cbn in H. lia. }
  destruct ev; cbn [exec] in Hs; try (by eapply Hstart; [|exact Hs]).
  - destruct (0 <=? d); [|done]. injection Hs as <-. by eapply owes_same; [done..|].
  - by eapply owes_client_step.
  - unfold client_dialed in Hs. destruct (clients σ !! i) as [c|] eqn:Hc; [|done].
    cbn [mbind option_bind] in Hs. destruct (pc c) eqn:Hpc; try done. injection Hs as <-.
    eapply (owes_caller _ _ _ []); [exact Hc | unfold client_permits; by rewrite Hpc | | exact H].
    destruct r; [done | apply permits_next].
  - unfold client_dropped in Hs. destruct (clients σ !! i) as [c|] eqn:Hc; [|done].
    cbn [mbind option_bind] in Hs.
    destruct (pc c) eqn:Hpc; try done; injection Hs as <-;
      (eapply (owes_caller _ _ _ []); [exact Hc | unfold client_permits; by rewrite Hpc | done | exact H]).
  - destruct (lock σ); [done|]. destruct (alive σ); [|done]. injection Hs as <-. by apply owes_spawn.
  - destruct (lock σ); [done|]. destruct (alive σ); [|done]. injection Hs as <-. unfold forget_queue.
    assert (H1 : owes [] (set_lock (Some (k, false)) (set_pools (delete k (pools σ)) σ)))
      by by eapply owes_same; [done..|]. destruct (pools σ !! k); [by apply owes_collect|done].
  - destruct (lock σ) as [[k []]|]; [| |done]; injection Hs as <-; unfold forget_task, forget_cap.
    + assert (H1 : owes [] (set_lock None (set_tasks (delete k (refill_tasks σ)) σ)))
        by by eapply owes_same; [done..|]. destruct (refill_tasks σ !! k); [by apply owes_abort|done].
    + by eapply owes_same; [done..|].
  - by eapply owes_task_step.
  - by eapply owes_task_connected.
  - unfold task_woken in Hs. destruct (endpoints σ !! e) as [x|] eqn:Hx; [|done].
    cbn [mbind option_bind] in Hs. destruct (phase (task x)) eqn:Hph; try done. injection Hs as <-.
    eapply owes_put_same; [exact Hx| |done]. unfold endpoint_permits. by rewrite Hph.
  - unfold task_notified in Hs. destruct (endpoints σ !! e) as [x|] eqn:Hx; [|done].
    cbn [mbind option_bind] in Hs. destruct (phase (task x)) eqn:Hph; try done.
    destruct (notified (spares x)); [|done]. injection Hs as <-.
    eapply owes_put_same; [exact Hx| |done]. unfold endpoint_permits. by rewrite Hph.
  - unfold task_aged in Hs. destruct (endpoints σ !! e) as [x|] eqn:Hx; [|done].
    cbn [mbind option_bind] in Hs. destruct (phase (task x)) eqn:Hph; try done. injection Hs as <-.
    eapply owes_put_same; [exact Hx| |done]. unfold endpoint_permits. by rewrite Hph.
  - by eapply owes_task_cancelled.
  - destruct (lock σ); [done|]. destruct (_ && _); [|done]. injection Hs as <-. unfold drop_pool.
    eapply owes_same; [done..|]. by apply owes_abort_all.
Qed.

(** ** Well-formedness *)

(** What never changes about an endpoint. *)
Definition same_core (x x' : Endpoint) : Prop :=
  t_key (task x') = t_key (task x) /\ t_sem (task x') = t_sem (task x) /\
  t_target (task x') = t_target (task x) /\ capacity (spares x') = capacity (spares x) /\
  aborted (task x') = aborted (task x).

Definition endpoint_ok (cap : nat) (x : Endpoint) : Prop :=
  (phase (task x) = Ended -> aborted (task x) = true) /\
  Forall (eq (t_sem (task x))) (endpoint_permits x) /\
  (length (queue (spares x)) <= capacity (spares x))%nat /\
  capacity (spares x) = t_target (task x) /\ (1 <= t_target (task x) <= cap)%nat /\
  BACKOFF_MIN <= backoff (task x) <= BACKOFF_MAX.

(** A step that leaves the maps and the lock alone. *)
Record tame (σ σ' : t) : Prop := {
  tame_pools : pools σ' = pools σ;
  tame_tasks : refill_tasks σ' = refill_tasks σ;
  tame_lock : lock σ' = lock σ;
  tame_max : max_per_upstream σ' = max_per_upstream σ;
  tame_sems : (length (sems σ) <= length (sems σ'))%nat;
  tame_caps : upstream_caps σ ⊆ upstream_caps σ';
  tame_fresh : forall k s, upstream_caps σ' !! k = Some s ->
    upstream_caps σ !! k = Some s \/ (s < length (sems σ'))%nat;
  tame_endpoints : Forall2 (fun x x' => same_core x x' /\
    (endpoint_ok (max_per_upstream σ) x -> endpoint_ok (max_per_upstream σ) x')) (endpoints σ) (endpoints σ') }.

Record wf (σ : t) : Prop := {
  wf_max : (1 <= max_per_upstream σ)%nat;
  (* a queue in the map has its task registered and counts on the current cap *)
  wf_pools : forall k e, pools σ !! k = Some e -> refill_tasks σ !! k = Some e /\
    exists x, endpoints σ !! e = Some x /\ upstream_caps σ !! k = Some (t_sem (task x));
  (* a registered task runs for the queue in the map, unless [forget] is under way *)
  wf_tasks : forall k e, refill_tasks σ !! k = Some e ->
    (exists x, endpoints σ !! e = Some x /\ t_key (task x) = k /\ aborted (task x) = false) /\
    (pools σ !! k = Some e \/ exists b, lock σ = Some (k, b));
  (* a task nobody could abort does not exist *)
  wf_live : forall e x, endpoints σ !! e = Some x -> aborted (task x) = false ->
    refill_tasks σ !! t_key (task x) = Some e;
  wf_lock : forall k b, lock σ = Some (k, b) -> pools σ !! k = None;
  wf_caps : forall k s, upstream_caps σ !! k = Some s -> (s < length (sems σ))%nat;
  wf_endpoints : Forall (endpoint_ok (max_per_upstream σ)) (endpoints σ) }.

Lemma same_core_refl x : same_core x x.
Proof. by split_and!. Qed.

Lemma endpoints_same cap l : Forall2 (fun x x' => same_core x x' /\
  (endpoint_ok cap x -> endpoint_ok cap x')) l l.
Proof. induction l; constructor; [split; [apply same_core_refl | done] | done]. Qed.

Lemma tame_intro σ σ' : pools σ' = pools σ -> refill_tasks σ' = refill_tasks σ -> lock σ' = lock σ ->
  max_per_upstream σ' = max_per_upstream σ -> upstream_caps σ' = upstream_caps σ ->
  length (sems σ') = length (sems σ) -> endpoints σ' = endpoints σ -> tame σ σ'.
Proof.
  intros ? ? ? ? Hc Hs He. split; try done; [lia | by rewrite Hc | rewrite Hc; by left |]. rewrite He.
  apply endpoints_same.
Qed.

Lemma tame_refl σ : tame σ σ.
Proof. by apply tame_intro. Qed.

Lemma tame_trans σ1 σ2 σ3 : tame σ1 σ2 -> tame σ2 σ3 -> tame σ1 σ3.
Proof.
  intros [P1 T1 L1 M1 S1 C1 F1 E1] [P2 T2 L2 M2 S2 C2 F2 E2]. split; [congruence.. | lia | by etrans | |].
  { intros k s Hs. destruct (F2 k s Hs) as [H|]; [|by right]. destruct (F1 k s H); [by left | right; lia]. }
  rewrite M1 in E2. revert E2. generalize (endpoints σ3). induction E1 as [|x x' l l' [Hc Hx] _ IH];
    intros l3 E2; inversion E2 as [|? x3 ? l3' [Hc' Hx']]; subst; constructor; [|by apply IH].
  split; [|auto]. destruct Hc as (? & ? & ? & ? & ?), Hc' as (? & ? & ? & ? & ?).
  split_and!; congruence.
Qed.

Lemma tame_put e x x' σ : endpoints σ !! e = Some x -> same_core x x' ->
  (endpoint_ok (max_per_upstream σ) x -> endpoint_ok (max_per_upstream σ) x') -> tame σ (put_endpoint e x' σ).
Proof.
  intros Hx Hc Hok. split; try done; [by left|]. cbn.
  rewrite <- (list_insert_id (endpoints σ) e x) at 1 by done.
  apply Forall2_insert; [apply endpoints_same | done].
Qed.

Lemma tame_client i c σ : tame σ (put_client i c σ).
Proof. by apply tame_intro. Qed.
Lemma tame_release p σ : tame σ (release p σ).
Proof. unfold release. destruct (sems σ !! p); apply tame_intro; try done. apply length_insert. Qed.
Lemma tame_release_all ps σ : tame σ (foldr release σ ps).
Proof. induction ps; [apply tame_refl | eapply tame_trans; [done | apply tame_release]]. Qed.
Lemma tame_take s σ σ' : try_acquire s σ = Some σ' -> tame σ σ'.
Proof. unfold try_acquire. destruct (sems σ !! s) as [[|n]|]; intros [= <-]; apply tame_intro; try done.
  apply length_insert.
Qed.
Lemma tame_upstream k σ : tame σ (upstream_semaphore k σ).2.
Proof.
  unfold upstream_semaphore. destruct (upstream_caps σ !! k) eqn:E; [apply tame_refl|].
  split; try done; cbn; [rewrite length_app; lia | by apply insert_subseteq | |].
  { intros k' s. rewrite lookup_insert. case_decide; [|by left]. intros [= <-]. right.
    rewrite length_app. cbn. lia. }
  apply endpoints_same.
Qed.

(** An endpoint whose queue shrinks stays well-formed. *)
Lemma ok_shrink cap x q n : (exists pre, queue (spares x) = pre ++ q) -> endpoint_ok cap x ->
  endpoint_ok cap (with_spares x q n).
Proof.
  intros [pre Hq] (He & Hp & Hl & Hc & Ht & Hb). unfold endpoint_ok, endpoint_permits in *. cbn.
  rewrite Hq, map_app, <- app_assoc in Hp. apply Forall_app in Hp as [_ Hp].
  rewrite Hq, length_app in Hl. split_and!; try done; lia.
Qed.

Lemma tame_pop e r σ σ' : pop_spare e σ = Some (r, σ') -> tame σ σ'.
Proof.
  unfold pop_spare. destruct (endpoints σ !! e) as [x|] eqn:Hx; [|done].
  destruct (queue (spares x)) as [|pw rest] eqn:Hq; [done|]. intros [= -> <-].
  eapply tame_put; [exact Hx | by split_and! |]. apply ok_shrink. by exists [r].
Qed.
Lemma tame_notify e σ : tame σ (notify e σ).
Proof.
  unfold notify. destruct (endpoints σ !! e) as [x|] eqn:Hx; [|apply tame_refl].
  eapply tame_put; [exact Hx | by split_and! |]. apply ok_shrink. by exists [].
Qed.
Lemma tame_collect e σ : tame σ (collect e σ).
Proof.
  unfold collect. destruct (referenced e σ); [apply tame_refl|].
  destruct (endpoints σ !! e) as [x|] eqn:Hx; [|apply tame_refl].
  eapply tame_trans; [|apply tame_release_all]. eapply tame_put; [exact Hx | by split_and! |].
  apply ok_shrink. exists (queue (spares x)). by rewrite app_nil_r.
Qed.

(** Peels what was done last off the goal's final state. *)
Ltac tame_tac :=
  repeat first
    [ apply tame_refl
    | apply tame_client
    | match goal with
      | |- tame _ (release _ _) => eapply tame_trans; [|apply tame_release]
      | |- tame _ (collect _ _) => eapply tame_trans; [|apply tame_collect]
      | |- tame _ (put_client _ _ _) => eapply tame_trans; [|apply tame_client]
      | |- tame _ (notify _ _) => apply tame_notify
      | H : try_acquire _ ?σ = Some ?σ' |- tame ?σ ?σ' => by eapply tame_take
      | H : pop_spare _ ?σ = Some (_, ?σ') |- tame ?σ ?σ' => by eapply tame_pop
      end ].

Lemma tame_client_step dead i σ σ' : client_step dead i σ = Some σ' -> tame σ σ'.
Proof.
  unfold client_step. destruct (clients σ !! i) as [c|] eqn:Hc; [|done].
  cbn [mbind option_bind]. intros Hs. destruct (pc c) eqn:Hpc; try done.
  - destruct (negb _); [|destruct (pools σ !! k)]; injection Hs as <-; tame_tac.
  - destruct (pop_spare e σ) as [[pw σ1]|] eqn:Hpop; [destruct (_ && _)|]; injection Hs as <-; tame_tac.
  - injection Hs as <-. tame_tac.
  - destruct (upstream_semaphore k σ) as [s σ1] eqn:Hup. injection Hs as <-.
    pose proof (tame_upstream k σ) as H1. rewrite Hup in H1. eapply tame_trans; [exact H1 | tame_tac].
  - destruct (try_acquire s σ) as [σ1|] eqn:Ht; injection Hs as <-; tame_tac.
  - destruct (pools σ !! k ≫= _) as [[pw σ1]|] eqn:Hpop; injection Hs as <-; [|tame_tac].
    apply bind_Some in Hpop as (e & _ & Hpop). tame_tac.
  - destruct (try_acquire s σ) as [σ1|] eqn:Ht; injection Hs as <-; tame_tac.
  - destruct (held c); injection Hs as <-; tame_tac.
Qed.

(** Splits what is known of an endpoint and of its successor. *)
Ltac endpoint_ok_tac :=
  let He := fresh "He" in let Hp := fresh "Hp" in let Hl := fresh "Hl" in let Hc := fresh "Hc" in
  let Ht := fresh "Ht" in let Hb := fresh "Hb" in
  intros (He & Hp & Hl & Hc & Ht & Hb); unfold endpoint_ok, endpoint_permits in *; cbn in *;
  repeat match goal with
  | H : phase _ = _ |- _ => rewrite H in *; clear H
  | H : queue _ = _ |- _ => rewrite H in *; clear H
  end; cbn in *;
  rewrite ?map_app, ?length_app, ?Forall_app, ?Forall_cons, ?Forall_nil in *; cbn in *;
  rewrite ?Forall_app, ?Forall_cons, ?Forall_nil in *;
  unfold BACKOFF_MIN, BACKOFF_MAX, from_secs, NANOS in *;
  split_and!; try done; try lia; try (naive_solver (lia || done)).

(** Steps of the form [put_endpoint], a release on top or not. *)
Ltac tame_put_tac :=
  match goal with
  | |- tame _ (release _ _) => eapply tame_trans; [|apply tame_release]; tame_put_tac
  | Hx : endpoints _ !! _ = Some _ |- _ => eapply tame_put; [exact Hx | by split_and! | endpoint_ok_tac]
  end.

Lemma tame_task_step e σ σ' : task_step e σ = Some σ' -> tame σ σ'.
Proof.
  unfold task_step. destruct (endpoints σ !! e) as [x|] eqn:Hx; [|done].
  cbn [mbind option_bind]. intros Hs. destruct (phase (task x)) eqn:Hph; try done.
  - injection Hs as <-. tame_put_tac.
  - destruct (length _ <? _)%nat; injection Hs as <-; tame_put_tac.
  - destruct (try_acquire _ σ) as [σ1|] eqn:Ht; injection Hs as <-; [|tame_put_tac].
    eapply tame_trans; [by eapply tame_take|].
    assert (Hx1 : endpoints σ1 !! e = Some x) by by rewrite (proj2 (clients_take _ _ _ Ht)).
    clear Hx. tame_put_tac.
  - destruct (queue (spares x)) as [|pw rest] eqn:Hq; [|destruct (young σ started pw)];
      injection Hs as <-; tame_put_tac.
  - injection Hs as <-. tame_put_tac.
  - destruct keepers as [|pw rest]; [|destruct (Nat.ltb_spec (length (queue (spares x))) (capacity (spares x)))];
      injection Hs as <-; tame_put_tac.
Qed.

Lemma tame_task_connected ok e σ σ' : task_connected ok e σ = Some σ' -> tame σ σ'.
Proof.
  unfold task_connected. destruct (endpoints σ !! e) as [x|] eqn:Hx; [|done].
  cbn [mbind option_bind]. intros Hs. destruct (phase (task x)) eqn:Hph; try done.
  destruct ok; [destruct (Nat.ltb_spec (length (queue (spares x))) (capacity (spares x)))|];
    injection Hs as <-; tame_put_tac.
Qed.

Lemma tame_task_wakes e σ σ' :
  task_woken e σ = Some σ' \/ task_notified e σ = Some σ' \/ task_aged e σ = Some σ' -> tame σ σ'.
Proof.
  unfold task_woken, task_notified, task_aged. destruct (endpoints σ !! e) as [x|] eqn:Hx; [|naive_solver].
  cbn [mbind option_bind].
  intros [Hs|[Hs|Hs]]; destruct (phase (task x)) eqn:Hph; try done;
    [|destruct (notified (spares x)); [|done]|]; injection Hs as <-; tame_put_tac.
Qed.

Lemma ok_ended cap x : aborted (task x) = true -> endpoint_ok cap x -> endpoint_ok cap (with_phase x Ended).
Proof.
  intros Ha (_ & Hp & Hok). unfold endpoint_permits in Hp. apply Forall_app in Hp as [Hp _].
  unfold endpoint_ok, endpoint_permits. cbn. rewrite app_nil_r. tauto.
Qed.

Lemma tame_task_cancelled e σ σ' : task_cancelled e σ = Some σ' -> tame σ σ'.
Proof.
  unfold task_cancelled. destruct (endpoints σ !! e) as [x|] eqn:Hx; [|done].
  cbn [mbind option_bind]. destruct (aborted (task x)) eqn:Ha; [|done].
  assert (Hgoal : tame σ (collect e (foldr release (put_endpoint e (with_phase x Ended) σ)
                     (phase_permits (phase (task x)))))).
  { eapply tame_trans; [|apply tame_collect]. eapply tame_trans; [|apply tame_release_all].
    eapply tame_put; [exact Hx | by split_and! | by apply ok_ended]. }
  intros Hs. destruct (phase (task x)); try done; by injection Hs as <-.
Qed.

Lemma wf_tame σ σ' : wf σ -> tame σ σ' -> wf σ'.
Proof.
  intros [Wm Wp Wt Wl Wk Wc We] [P T L M S C F E]. split.
  - by rewrite M.
  - intros k e. rewrite P, T. intros (Hr & x & Hx & Hc)%Wp. split; [done|].
    destruct (Forall2_lookup_l _ _ _ _ _ E Hx) as (x' & Hx' & (_ & Hs & _) & _).
    exists x'. split; [done|]. rewrite Hs. by eapply lookup_weaken.
  - intros k e. rewrite P, T, L. intros ((x & Hx & Hk & Ha) & Hor)%Wt. split; [|done].
    destruct (Forall2_lookup_l _ _ _ _ _ E Hx) as (x' & Hx' & (Hk' & _ & _ & _ & Ha') & _).
    exists x'. split_and!; congruence.
  - intros e x' Hx' Ha. destruct (Forall2_lookup_r _ _ _ _ _ E Hx') as (x & Hx & (Hk' & _ & _ & _ & Ha') & _).
    rewrite T, Hk'. apply Wl; congruence.
  - intros k b. rewrite P, L. apply Wk.
  - intros k s Hs. destruct (F k s Hs) as [H%Wc|]; [lia|done].
  - rewrite M. apply Forall_lookup_2. intros e x' Hx'.
    destruct (Forall2_lookup_r _ _ _ _ _ E Hx') as (x & Hx & _ & Hok). by eapply Hok, Forall_lookup_1.
Qed.

Lemma upstream_spec k σ : let '(s, σ1) := upstream_semaphore k σ in
  upstream_caps σ1 !! k = Some s /\ config σ1 = config σ /\ endpoints σ1 = endpoints σ.
Proof.
  unfold upstream_semaphore. destruct (upstream_caps σ !! k) eqn:E; [done|]. cbn. by rewrite lookup_insert_eq.
Qed.

(** Without a queue in the map and a [forget] under way, no task is registered. *)
Lemma wf_unregistered σ k : wf σ -> lock σ = None -> pools σ !! k = None -> refill_tasks σ !! k = None.
Proof.
  intros W Hl Hp. destruct (refill_tasks σ !! k) as [e|] eqn:E; [|done].
  destruct (wf_tasks _ W _ _ E) as (_ & [H|[b H]]); congruence.
Qed.

Lemma wf_spawn k σ : wf σ -> lock σ = None -> wf (spawn_refill_for k σ).
Proof.
  intros W Hl. unfold spawn_refill_for. destruct (negb _); [done|]. destruct (pools σ !! k) eqn:Hp; [done|].
  pose proof (tame_upstream k σ) as Ht. pose proof (upstream_spec k σ) as Hs.
  destruct (upstream_semaphore k σ) as [s σ1]. destruct Hs as (Hcap & _ & He). cbn [snd] in Ht.
  pose proof (wf_tame _ _ W Ht) as W1. assert (Hl1 : lock σ1 = None) by (rewrite (tame_lock _ _ Ht); done).
  assert (Hp1 : pools σ1 !! k = None) by (rewrite (tame_pools _ _ Ht); done).
  pose proof (wf_unregistered _ _ W1 Hl1 Hp1) as Hr. cbv zeta. unfold publish. cbn [set_endpoints set_pools refill_tasks].
  rewrite Hr, <- He, <- (tame_max _ _ Ht). clear He Ht W Hl Hp.
  destruct W1 as [Wm Wp Wt Wl Wk Wc We]. split; cbn.
  - done.
  - intros k' e. rewrite !lookup_insert. destruct (decide (k = k')) as [<-|Hne].
    + intros [= <-]. split; [done|]. eexists. by rewrite list_lookup_middle.
    + intros (Hr' & x & Hx & Hc)%Wp. split; [done|]. exists x. split; [|done].
      by apply lookup_app_l_Some.
  - intros k' e. rewrite !lookup_insert. destruct (decide (k = k')) as [<-|Hne].
    + intros [= <-]. split; [|by left]. eexists. by rewrite list_lookup_middle.
    + intros ((x & Hx & Hk & Ha) & Hor)%Wt. split; [|done]. exists x. split_and!; [|done..].
      by apply lookup_app_l_Some.
  - intros e x. rewrite lookup_app_Some. intros [Hx|[Hge Hx]] Ha.
    + pose proof (Wl e x Hx Ha) as Hreg. rewrite lookup_insert. case_decide as Hk; [congruence|done].
    + destruct (e - length (endpoints σ1))%nat as [|n] eqn:En; [|by destruct n].
      injection Hx as <-. cbn. rewrite lookup_insert_eq. f_equal. lia.
  - intros k' b. by rewrite Hl1.
  - done.
  - apply Forall_app. split; [done|]. constructor; [|done]. unfold endpoint_ok, endpoint_permits. cbn.
    unfold BACKOFF_MIN, BACKOFF_MAX, from_secs, NANOS. split_and!; try done; lia.
Qed.

Lemma wf_forget_queue k σ : wf σ -> lock σ = None -> wf (forget_queue k σ).
Proof.
  intros W Hl. set (σ' := set_lock (Some (k, false)) (set_pools (delete k (pools σ)) σ)).
  assert (W' : wf σ').
  { destruct W as [Wm Wp Wt Wl Wk Wc We]. split; cbn; try done.
    - intros k' e [_ H]%lookup_delete_Some. by apply Wp.
    - intros k' e H. destruct (Wt _ _ H) as (Hx & [Hp|[b Hb]]); [|congruence]. split; [done|].
      destruct (decide (k = k')) as [<-|Hne]; [right; by eexists|]. left. by rewrite lookup_delete_ne.
    - intros k' b [= <- <-]. by rewrite lookup_delete_eq. }
  unfold forget_queue. fold σ'. destruct (pools σ !! k); [|done].
  eapply wf_tame; [done | apply tame_collect].
Qed.

Lemma wf_forget_cap k σ : wf σ -> lock σ = Some (k, false) -> wf (forget_cap k σ).
Proof.
  intros W Hl. pose proof (wf_lock _ W _ _ Hl) as Hp. destruct W as [Wm Wp Wt Wl Wk Wc We].
  split; cbn; try done.
  - intros k' e H. destruct (Wp _ _ H) as (Hr & x & Hx & Hc). split; [done|]. exists x. split; [done|].
    rewrite lookup_delete_ne by congruence. done.
  - intros k' e H. destruct (Wt _ _ H) as (Hx & [Hq|[b Hb]]); (split; [done|]); [by left|].
    right. exists true. congruence.
  - intros k' b [= <- <-]. done.
  - intros k' s [_ H]%lookup_delete_Some. by eapply Wc.
Qed.

Lemma abort_at_parts e σ : pools (abort_at e σ) = pools σ /\ refill_tasks (abort_at e σ) = refill_tasks σ /\
  lock (abort_at e σ) = lock σ /\ max_per_upstream (abort_at e σ) = max_per_upstream σ /\
  upstream_caps (abort_at e σ) = upstream_caps σ /\ sems (abort_at e σ) = sems σ /\
  endpoints (abort_at e σ) = alter abort e (endpoints σ).
Proof.
  unfold abort_at. destruct (endpoints σ !! e) as [x|] eqn:Hx; split_and!; try done; cbn;
    apply list_eq; intros i; (destruct (decide (i = e)) as [->|]; [|by rewrite ?list_lookup_insert_ne, list_lookup_alter_ne by done]).
  - rewrite list_lookup_insert_eq by (by eapply lookup_lt_Some). by rewrite list_lookup_alter_eq, Hx.
  - by rewrite list_lookup_alter_eq, Hx.
Qed.

Lemma ok_abort cap x : endpoint_ok cap x -> endpoint_ok cap (abort x).
Proof. by intros (_ & ?). Qed.

Lemma wf_forget_task k σ : wf σ -> lock σ = Some (k, true) -> wf (forget_task k σ).
Proof.
  intros W Hl. pose proof (wf_lock _ W _ _ Hl) as Hp. destruct W as [Wm Wp Wt Wl Wk Wc We].
  assert (Hkey : forall e x, endpoints σ !! e = Some x -> aborted (task x) = false -> t_key (task x) = k ->
            refill_tasks σ !! k = Some e) by (intros e x Hx Ha <-; by apply Wl).
  unfold forget_task. destruct (refill_tasks σ !! k) as [e|] eqn:Hr.
  - destruct (abort_at_parts e (set_lock None (set_tasks (delete k (refill_tasks σ)) σ)))
      as (Ep & Et & El & Em & Ec & Es & Ee). cbn in Ep, Et, El, Em, Ec, Es, Ee.
    destruct (Wt _ _ Hr) as ((xe & Hxe & Hke & Hae) & _).
    split; rewrite ?Ep, ?Et, ?El, ?Em, ?Ec, ?Es, ?Ee; try done.
    + intros k' e' H. destruct (Wp _ _ H) as (Hr' & x & Hx & Hc).
      rewrite lookup_delete_ne by congruence. split; [done|].
      destruct (decide (e' = e)) as [->|Hne].
      * exists (abort x). by rewrite list_lookup_alter_eq, Hx.
      * exists x. by rewrite list_lookup_alter_ne.
    + intros k' e' [Hk H]%lookup_delete_Some. destruct (Wt _ _ H) as ((x & Hx & Hkx & Ha) & Hor).
      assert (e' <> e) by congruence. split.
      * exists x. by rewrite list_lookup_alter_ne.
      * left. destruct Hor as [|[b Hb]]; congruence.
    + intros e' x Hx Ha. destruct (decide (e' = e)) as [->|Hne].
      { rewrite list_lookup_alter_eq, Hxe in Hx. by injection Hx as <-. }
      rewrite list_lookup_alter_ne in Hx by done. rewrite lookup_delete_ne; [by apply Wl|].
      intros Hk. specialize (Hkey _ _ Hx Ha (eq_sym Hk)). congruence.
    + apply Forall_alter; [done|]. intros x _. apply ok_abort.
  - split; cbn; try done.
    + intros k' e' H. rewrite lookup_delete_ne by congruence. by apply Wp.
    + intros k' e' [Hk H]%lookup_delete_Some. destruct (Wt _ _ H) as (Hx & [|[b Hb]]); [by auto|congruence].
    + intros e' x Hx Ha. rewrite lookup_delete_ne; [by apply Wl|]. intros Hk.
      specialize (Hkey _ _ Hx Ha (eq_sym Hk)). congruence.
Qed.

Lemma abort_all_parts (kvs : list (Key * nat)) σ :
  let σ' := foldr (fun kv => abort_at kv.2) σ kvs in
  max_per_upstream σ' = max_per_upstream σ /\
  (Forall (endpoint_ok (max_per_upstream σ)) (endpoints σ) ->
   Forall (endpoint_ok (max_per_upstream σ)) (endpoints σ')) /\
  forall e x, endpoints σ' !! e = Some x -> aborted (task x) = false ->
    endpoints σ !! e = Some x /\ e ∉ map snd kvs.
Proof.
  induction kvs as [|[k e0] kvs (IHm & IHok & IH)]; [split_and!; [done..|]; intros; split; [done|]; apply not_elem_of_nil|].
  cbn [foldr snd map]. cbv zeta in *. set (σ1 := foldr _ σ kvs) in *.
  destruct (abort_at_parts e0 σ1) as (_ & _ & _ & -> & _ & _ & Ee). split_and!; [done | |].
  - intros Hok. rewrite Ee. apply Forall_alter; [by apply IHok|]. intros x _. apply ok_abort.
  - intros e x. rewrite Ee. destruct (decide (e = e0)) as [->|Hne].
    + rewrite list_lookup_alter_eq. destruct (endpoints σ1 !! e0); [|done]. by intros [= <-].
    + rewrite list_lookup_alter_ne by done. intros Hx Ha. destruct (IH e x Hx Ha) as [? ?].
      split; [done|]. by apply not_elem_of_cons.
Qed.

Lemma wf_drop σ : wf σ -> lock σ = None -> wf (drop_pool σ).
Proof.
  intros W Hl. destruct (abort_all_parts (map_to_list (refill_tasks σ)) σ) as (Em & Eok & Ex).
  destruct W as [Wm Wp Wt Wl Wk Wc We]. unfold drop_pool. set (σ1 := foldr _ σ _) in *.
  split; cbn; rewrite ?Em; try done; [| by auto].
  intros e x Hx Ha. exfalso. destruct (Ex e x Hx Ha) as [Hx0 Hno]. apply Hno.
  apply list_elem_of_fmap. exists (t_key (task x), e). split; [done|]. by apply elem_of_map_to_list, Wl.
Qed.

Lemma wf_exec ev σ σ' : exec ev σ = Some σ' -> wf σ -> wf σ'.
Proof.
  intros Hs W.
  assert (Htame : tame σ σ' -> wf σ') by by apply wf_tame.
  assert (Hstart : forall c, start c σ = Some σ' -> wf σ').
  { intros c. unfold start. destruct (alive σ); [|done]. intros [= <-]. by apply Htame, tame_intro. }
  destruct ev; cbn [exec] in Hs; try (by eapply Hstart).
  - destruct (0 <=? d); [|done]. injection Hs as <-. by apply Htame, tame_intro.
  - by eapply Htame, tame_client_step.
  - unfold client_dialed in Hs. destruct (clients σ !! i) as [c|]; [|done]. cbn [mbind option_bind] in Hs.
    destruct (pc c); try done. injection Hs as <-. apply Htame, tame_client.
  - unfold client_dropped in Hs. destruct (clients σ !! i) as [c|]; [|done]. cbn [mbind option_bind] in Hs.
    destruct (pc c); try done; injection Hs as <-; apply Htame, tame_client.
  - destruct (lock σ) eqn:Hl; [done|]. destruct (alive σ); [|done]. injection Hs as <-. by apply wf_spawn.
  - destruct (lock σ) eqn:Hl; [done|]. destruct (alive σ); [|done]. injection Hs as <-. by apply wf_forget_queue.
  - destruct (lock σ) as [[k []]|] eqn:Hl; [| |done]; injection Hs as <-;
      [by apply wf_forget_task | by apply wf_forget_cap].
  - by eapply Htame, tame_task_step.
  - by eapply Htame, tame_task_connected.
  - apply Htame. eapply tame_task_wakes. eauto.
  - apply Htame. eapply tame_task_wakes. eauto.
  - apply Htame. eapply tame_task_wakes. eauto.
  - by eapply Htame, tame_task_cancelled.
  - destruct (lock σ) eqn:Hl; [done|]. destruct (_ && _); [|done]. injection Hs as <-. by apply wf_drop.
Qed.

Lemma wf_new config max now : wf (new config max now).
Proof. split; cbn; try done; lia. Qed.

Lemma reachable_wf config max now σ : reachable (new config max now) σ -> wf σ.
Proof. induction 1; [apply wf_new | by eapply wf_exec]. Qed.

Lemma reachable_owes config max now σ : reachable (new config max now) σ -> owes [] σ.
Proof.
  induction 1 as [|? ? ? _ IH Hs]; [|by eapply owes_exec]. intros s. unfold balance, available, warm, taken, cnt.
  cbn [new sems endpoints clients max_per_upstream sum_list_with count_occ]. rewrite lookup_nil. lia.
Qed.

(** ** A queue nobody can reach holds nothing *)

Definition drained_but (ex : nat -> Prop) (σ : t) : Prop :=
  forall e x, ~ ex e -> endpoints σ !! e = Some x -> phase (task x) = Ended ->
    existsb (pops_from e) (clients σ) = true \/ queue (spares x) = [].
Definition drained : t -> Prop := drained_but (fun _ => False).

(** Endpoints that stay as they are, shrink, or have a task that runs. *)
Definition settles (x x' : Endpoint) : Prop :=
  phase (task x') <> Ended \/
  (phase (task x) = Ended /\ exists pre, queue (spares x) = pre ++ queue (spares x')).

Lemma settles_refl x : settles x x.
Proof. unfold settles. destruct (phase (task x)); first [by left | right; split; [done | by exists []]]. Qed.

Lemma drained_put ex e x x' σ : endpoints σ !! e = Some x -> settles x x' ->
  drained_but ex σ -> drained_but ex (put_endpoint e x' σ).
Proof.
  intros Hx Hs H e' y He. cbn. destruct (decide (e' = e)) as [->|Hne].
  - rewrite list_lookup_insert_eq by (by eapply lookup_lt_Some). intros [= <-] Hph.
    destruct Hs as [|[Hp [pre Hq]]]; [done|]. destruct (H e x He Hx Hp) as [|Hnil]; [by left|].
    right. rewrite Hnil in Hq. symmetry in Hq. by apply app_eq_nil in Hq as [_ ?].
  - rewrite list_lookup_insert_ne by done. by apply H.
Qed.

Lemma drained_same ex σ σ' : endpoints σ' = endpoints σ -> clients σ' = clients σ ->
  drained_but ex σ -> drained_but ex σ'.
Proof. intros He Hc H e x. rewrite He, Hc. apply H. Qed.

Lemma release_parts p σ : endpoints (release p σ) = endpoints σ /\ clients (release p σ) = clients σ.
Proof. unfold release. by destruct (sems σ !! p). Qed.

Lemma drained_release ex p σ : drained_but ex σ -> drained_but ex (release p σ).
Proof. apply drained_same; apply release_parts. Qed.

Lemma drained_release_all ex ps σ : drained_but ex σ -> drained_but ex (foldr release σ ps).
Proof. intros H. induction ps; [done|]. by apply drained_release. Qed.

Lemma drained_pop ex e r σ σ' : pop_spare e σ = Some (r, σ') -> drained_but ex σ -> drained_but ex σ'.
Proof.
  unfold pop_spare. destruct (endpoints σ !! e) as [x|] eqn:Hx; [|done].
  destruct (queue (spares x)) as [|pw rest] eqn:Hq; [done|]. intros [= -> <-].
  eapply drained_put; [exact Hx|]. destruct (settles_refl x) as [|[Hp _]]; [by left|].
  right. split; [done|]. by exists [r].
Qed.

Lemma drained_notify ex e σ : drained_but ex σ -> drained_but ex (notify e σ).
Proof.
  unfold notify. destruct (endpoints σ !! e) as [x|] eqn:Hx; [|done].
  eapply drained_put; [exact Hx|]. destruct (settles_refl x) as [|[Hp _]]; [by left|].
  right. split; [done|]. by exists [].
Qed.

Lemma drained_abort ex e σ : drained_but ex σ -> drained_but ex (abort_at e σ).
Proof.
  unfold abort_at. destruct (endpoints σ !! e) as [x|] eqn:Hx; [|done].
  eapply drained_put; [exact Hx|]. destruct (settles_refl x) as [|[Hp _]]; [by left|].
  right. split; [done|]. by exists [].
Qed.

Lemma drained_client ex i c c' σ : clients σ !! i = Some c ->
  (forall e, ~ ex e -> pops_from e c = true -> pops_from e c' = true) ->
  drained σ -> drained_but ex (put_client i c' σ).
Proof.
  intros Hc Hp H e x He Hx Hph. destruct (H e x (fun f => f) Hx Hph) as [(d & Hd & Hpd)%existsb_exists|]; [|by right].
  left. apply existsb_exists. apply list_elem_of_In, list_elem_of_lookup_1 in Hd as [j Hj].
  destruct (decide (j = i)) as [->|Hne].
  - exists c'. rewrite Hc in Hj. injection Hj as <-. split; [|by apply Hp].
    apply list_elem_of_In. eapply list_elem_of_lookup_2. cbn. apply list_lookup_insert_eq. by eapply lookup_lt_Some.
  - exists d. split; [|done]. apply list_elem_of_In. eapply list_elem_of_lookup_2. cbn.
    by rewrite list_lookup_insert_ne.
Qed.

Lemma collect_mono ex e σ : drained_but ex σ -> drained_but ex (collect e σ).
Proof.
  intros H. unfold collect. destruct (referenced e σ); [done|].
  destruct (endpoints σ !! e) as [x|] eqn:Hx; [|done]. apply drained_release_all.
  eapply drained_put; [exact Hx | |done]. destruct (settles_refl x) as [|[Hp _]]; [by left|].
  right. split; [done|]. exists (queue (spares x)). by rewrite app_nil_r.
Qed.

(** Dropping the last reference empties the queue. *)
Lemma collect_drains e σ : wf σ -> drained_but (eq e) σ -> drained (collect e σ).
Proof.
  intros W H e' x' _. unfold collect. destruct (referenced e σ) eqn:Hr.
  - intros Hx Hph. destruct (decide (e = e')) as [<-|Hne]; [|by apply H]. left.
    unfold referenced in Hr. rewrite Hx, Hph, orb_false_r in Hr. apply orb_true_iff in Hr as [Hr|]; [|done].
    exfalso. apply existsb_exists in Hr as ([k e0] & Hin & He%Nat.eqb_eq). cbn in He. subst e0.
    apply list_elem_of_In, elem_of_map_to_list in Hin. destruct (wf_pools _ W _ _ Hin) as [Hreg _].
    destruct (wf_tasks _ W _ _ Hreg) as ((y & Hy & _ & Ha) & _).
    pose proof (Forall_lookup_1 _ _ _ _ (wf_endpoints _ W) Hx) as [Hok _]. specialize (Hok Hph). congruence.
  - destruct (endpoints σ !! e) as [x|] eqn:Hx.
    + set (σ1 := put_endpoint e _ σ). intros Hx' Hph.
      assert (Hparts : forall ps, endpoints (foldr release σ1 ps) = endpoints σ1 /\
                clients (foldr release σ1 ps) = clients σ1).
      { induction ps as [|p ps [IHe IHc]]; [done|]. cbn. destruct (release_parts p (foldr release σ1 ps)) as [-> ->]. done. }
      destruct (Hparts (map permit (queue (spares x)))) as [He Hc]. rewrite He in Hx'. rewrite Hc.
      cbn in Hx'. destruct (decide (e = e')) as [<-|Hne].
      * rewrite list_lookup_insert_eq in Hx' by (by eapply lookup_lt_Some). injection Hx' as <-. by right.
      * rewrite list_lookup_insert_ne in Hx' by done. by apply (H e').
    + intros Hx' Hph. destruct (decide (e = e')) as [<-|Hne]; [congruence|]. by apply H.
Qed.

(** A caller that leaves the queue it popped from, and lets go of it. *)
Lemma drained_leave i c c' e σ : wf σ -> clients σ !! i = Some c ->
  (forall e', e' <> e -> pops_from e' c = true -> pops_from e' c' = true) ->
  drained σ -> drained (collect e (put_client i c' σ)).
Proof.
  intros W Hc Hp H. apply collect_drains; [eapply wf_tame; [done | apply tame_client]|].
  eapply drained_client; [exact Hc | | done]. intros e' Hne. apply Hp. congruence.
Qed.

Lemma drained_client_step dead i σ σ' : client_step dead i σ = Some σ' -> wf σ -> drained σ -> drained σ'.
Proof.
  unfold client_step. destruct (clients σ !! i) as [c|] eqn:Hc; [|done].
  cbn [mbind option_bind]. intros Hs W H.
  assert (Hput : forall c' σ1, clients σ1 = clients σ -> drained σ1 ->
            (forall e, pops_from e c = true -> pops_from e c' = true) -> drained (put_client i c' σ1)).
  { intros c' σ1 Hcl H1 Hp. eapply drained_client; [by rewrite Hcl | by intros e _; apply Hp | done]. }
  assert (Hno : match pc c with Popping _ _ _ _ | Discarding _ _ _ _ _ => False | _ => True end ->
            forall c' σ1, clients σ1 = clients σ -> drained σ1 -> drained (put_client i c' σ1)).
  { intros Hpc c' σ1 Hcl H1. apply Hput; [done..|]. intros e. unfold pops_from at 1. by destruct (pc c). }
  destruct (pc c) eqn:Hpc; try done.
  - destruct (negb _); [|destruct (pools σ !! k)]; injection Hs as <-; by apply Hno.
  - assert (Hleave : forall c' e', e' <> e -> pops_from e' c = true -> pops_from e' c' = true).
    { intros c' e' Hne. unfold pops_from at 1. rewrite Hpc. intros ?%Nat.eqb_eq. congruence. }
    destruct (pop_spare e σ) as [[pw σ1]|] eqn:Hpop; [destruct (_ && _)|]; injection Hs as <-.
    + eapply drained_leave; [by eapply wf_tame; [|eapply tame_pop] | by rewrite (clients_pop _ _ _ _ Hpop)
        | by apply Hleave | by eapply drained_pop].
    + apply Hput; [by eapply clients_pop | by eapply drained_pop |]. intros e'. unfold pops_from. by rewrite Hpc.
    + eapply drained_leave; [by eapply wf_tame; [|apply tame_notify] | by rewrite clients_notify
        | by apply Hleave | by apply drained_notify].
  - injection Hs as <-. apply drained_release, Hput; [done..|]. intros e'. unfold pops_from. by rewrite Hpc.
  - pose proof (clients_upstream k σ) as Hcl. assert (H1 : drained (upstream_semaphore k σ).2).
    { unfold upstream_semaphore. by destruct (upstream_caps σ !! k). }
    destruct (upstream_semaphore k σ) as [s σ1]. cbn [snd] in *. injection Hs as <-. by apply Hno.
  - destruct (try_acquire s σ) as [σ1|] eqn:Ht; injection Hs as <-; [|by apply Hno].
    destruct (clients_take _ _ _ Ht) as [Hcl He]. apply Hno; [done | done | by eapply drained_same].
  - destruct (pools σ !! k ≫= _) as [[pw σ1]|] eqn:Hpop; injection Hs as <-; [|by apply Hno].
    apply bind_Some in Hpop as (e & _ & Hpop).
    apply Hno; [done | by eapply clients_pop | by eapply drained_pop].
  - destruct (try_acquire s σ) as [σ1|] eqn:Ht; injection Hs as <-; [|by apply Hno].
    destruct (clients_take _ _ _ Ht) as [Hcl He]. apply Hno; [done | done | by eapply drained_same].
  - destruct (held c); injection Hs as <-; [|apply drained_release]; by apply Hno.
Qed.

Ltac settle_tac :=
  match goal with
  | |- drained_but _ (release _ _) => apply drained_release; settle_tac
  | Hx : endpoints _ !! _ = Some _ |- _ => eapply drained_put; [exact Hx | by left | assumption]
  end.

Lemma drained_task_events e ok σ σ' : drained σ ->
  task_step e σ = Some σ' \/ task_connected ok e σ = Some σ' \/ task_woken e σ = Some σ' \/
  task_notified e σ = Some σ' \/ task_aged e σ = Some σ' -> drained σ'.
Proof.
  intros H. unfold task_step, task_connected, task_woken, task_notified, task_aged, drained in *.
  destruct (endpoints σ !! e) as [x|] eqn:Hx; [|naive_solver]. cbn [mbind option_bind].
  intros [Hs|[Hs|[Hs|[Hs|Hs]]]]; destruct (phase (task x)) eqn:Hph; try done.
  - injection Hs as <-. settle_tac.
  - destruct (length _ <? _)%nat; injection Hs as <-; settle_tac.
  - destruct (try_acquire _ σ) as [σ1|] eqn:Ht; injection Hs as <-; [|settle_tac].
    destruct (clients_take _ _ _ Ht) as [Hcl He]. eapply drained_put; [by rewrite He | by left | by eapply drained_same].
  - destruct (queue (spares x)); [|destruct (young σ started p)]; injection Hs as <-; settle_tac.
  - injection Hs as <-. settle_tac.
  - destruct keepers; [|destruct (_ <? _)%nat]; injection Hs as <-; settle_tac.
  - destruct ok; [destruct (_ <? _)%nat|]; injection Hs as <-; settle_tac.
  - injection Hs as <-. settle_tac.
  - destruct (notified (spares x)); [|done]. injection Hs as <-. settle_tac.
  - injection Hs as <-. settle_tac.
Qed.

Lemma drained_spawn k σ : drained σ -> drained (spawn_refill_for k σ).
Proof.
  intros H. unfold spawn_refill_for. destruct (negb _); [done|]. destruct (pools σ !! k); [done|].
  pose proof (upstream_spec k σ) as Hup. pose proof (clients_upstream k σ) as Hcl.
  destruct (upstream_semaphore k σ) as [s σ1]. destruct Hup as (_ & _ & He). cbn [snd] in Hcl. cbv zeta.
  set (target := Nat.min _ _).
  assert (H1 : drained (publish k s target σ1)).
  { intros e x _. cbn. rewrite He, Hcl, lookup_app_Some. intros [Hx|[Hge Hx]] Hph; [by apply (H e x (fun f => f))|].
    destruct (e - length (endpoints σ))%nat as [|n]; [|by destruct n]. by injection Hx as <-. }
  unfold drained. eapply drained_same; [done..|]. destruct (_ !! k); [by apply drained_abort | exact H1].
Qed.

Lemma drained_cancelled e σ σ' : task_cancelled e σ = Some σ' -> wf σ -> drained σ -> drained σ'.
Proof.
  unfold task_cancelled. destruct (endpoints σ !! e) as [x|] eqn:Hx; [|done].
  cbn [mbind option_bind]. intros Hs W H. destruct (aborted (task x)) eqn:Ha; [|done].
  assert (Hgoal : drained (collect e (foldr release (put_endpoint e (with_phase x Ended) σ)
                     (phase_permits (phase (task x)))))).
  { apply collect_drains.
    - eapply wf_tame; [exact W|]. eapply tame_trans; [|apply tame_release_all].
      eapply tame_put; [exact Hx | by split_and! | by apply ok_ended].
    - apply drained_release_all. intros e' y Hne. cbn. rewrite list_lookup_insert_ne by congruence.
      intros Hy Hph. by apply (H e' y (fun f => f)). }
  destruct (phase (task x)); try done; by injection Hs as <-.
Qed.

Lemma drained_exec ev σ σ' : exec ev σ = Some σ' -> wf σ -> drained σ -> drained σ'.
Proof.
  intros Hs W H.
  assert (Hstart : forall c, start c σ = Some σ' -> drained σ').
  { intros c. unfold start. destruct (alive σ); [|done]. intros [= <-] e x _ Hx Hph.
    destruct (H e x (fun f => f) Hx Hph) as [Hp|]; [left|by right]. cbn. rewrite existsb_app. by rewrite Hp. }
  assert (Htask : forall ok e, task_step e σ = Some σ' \/ task_connected ok e σ = Some σ' \/
            task_woken e σ = Some σ' \/ task_notified e σ = Some σ' \/ task_aged e σ = Some σ' -> drained σ')
    by (intros ok e; by apply drained_task_events).
  destruct ev; cbn [exec] in Hs; try (by eapply Hstart); try (by eapply (Htask true); eauto 6).
  - destruct (0 <=? d); [|done]. by injection Hs as <-.
  - by eapply drained_client_step.
  - unfold client_dialed in Hs. destruct (clients σ !! i) as [c|] eqn:Hc; [|done]. cbn [mbind option_bind] in Hs.
    destruct (pc c) eqn:Hpc; try done. injection Hs as <-. eapply drained_client; [exact Hc | | done].
    intros e _. unfold pops_from at 1. by rewrite Hpc.
  - unfold client_dropped in Hs. destruct (clients σ !! i) as [c|] eqn:Hc; [|done]. cbn [mbind option_bind] in Hs.
    destruct (pc c) eqn:Hpc; try done; injection Hs as <-; (eapply drained_client; [exact Hc | | done]);
      intros e _; unfold pops_from at 1; by rewrite Hpc.
  - destruct (lock σ); [done|]. destruct (alive σ); [|done]. injection Hs as <-. by apply drained_spawn.
  - destruct (lock σ); [done|]. destruct (alive σ); [|done]. injection Hs as <-. unfold forget_queue.
    destruct (pools σ !! k); [apply collect_mono; exact H | exact H].
  - destruct (lock σ) as [[k []]|]; [| |done]; injection Hs as <-; unfold forget_task, forget_cap; [|done].
    destruct (refill_tasks σ !! k); [apply drained_abort; exact H | exact H].
  - apply (Htask ok e). by right; left.
  - by eapply drained_cancelled.
  - destruct (lock σ); [done|]. destruct (_ && _); [|done]. injection Hs as <-. unfold drop_pool, drained.
    eapply drained_same; [done..|]. generalize (map_to_list (refill_tasks σ)). intros kvs.
    induction kvs as [|kv kvs IH]; [done|]. cbn. by apply drained_abort.
Qed.

Lemma reachable_drained config max now σ : reachable (new config max now) σ -> drained σ.
Proof.
  induction 1 as [|? ? ? Hr IH Hs]; [by intros e x _|]. eapply drained_exec; [exact Hs | | done].
  by eapply reachable_wf.
Qed.

(** ** Callers hold what their step says *)

Definition client_ok (n : nat) (c : Client) : Prop :=
  match pc c with
  | Looking _ _ | Popping _ _ _ _ | Discarding _ _ _ _ _ | Done => held c = []
  | Trying _ _ s | Stealing _ _ s | Retrying _ _ s => (s < n)%nat
  | _ => True
  end.

Lemma ok_grow n m c : client_ok n c -> (n <= m)%nat -> client_ok m c.
Proof. unfold client_ok. destruct (pc c); try done; lia. Qed.

Lemma ok_next n c : client_ok n (next_node c).
Proof. unfold next_node. by destruct (inner c). Qed.

Lemma ok_granted n fresh k p c : client_ok n (granted fresh k p c).
Proof. unfold granted. destruct fresh; [done | apply ok_next]. Qed.

(** The cap is fixed, and semaphores are only added. *)
Definition grows (σ σ' : t) : Prop :=
  max_per_upstream σ' = max_per_upstream σ /\ (length (sems σ) <= length (sems σ'))%nat.

Lemma tame_grows σ σ' : tame σ σ' -> grows σ σ'.
Proof. intros T. split; [apply (tame_max _ _ T) | apply (tame_sems _ _ T)]. Qed.

Lemma grows_abort e σ σ' : grows σ σ' -> grows σ (abort_at e σ').
Proof. unfold grows, abort_at. by destruct (endpoints σ' !! e). Qed.

Lemma grows_exec ev σ σ' : exec ev σ = Some σ' -> grows σ σ'.
Proof.
  intros Hs. assert (Hrefl : grows σ σ) by by split.
  assert (Htame : tame σ σ' -> grows σ σ') by apply tame_grows.
  assert (Hstart : forall c, start c σ = Some σ' -> grows σ σ').
  { intros c. unfold start. destruct (alive σ); [|done]. by intros [= <-]. }
  destruct ev; cbn [exec] in Hs; try (by eapply Hstart); try (apply Htame; eapply tame_task_wakes; by eauto).
  - destruct (0 <=? d); [|done]. by injection Hs as <-.
  - by eapply Htame, tame_client_step.
  - unfold client_dialed in Hs. destruct (clients σ !! i) as [c|]; [|done]. cbn [mbind option_bind] in Hs.
    destruct (pc c); try done. by injection Hs as <-.
  - unfold client_dropped in Hs. destruct (clients σ !! i) as [c|]; [|done]. cbn [mbind option_bind] in Hs.
    destruct (pc c); try done; by injection Hs as <-.
  - destruct (lock σ); [done|]. destruct (alive σ); [|done]. injection Hs as <-. unfold spawn_refill_for.
    destruct (negb _); [done|]. destruct (pools σ !! k); [done|].
    pose proof (tame_grows _ _ (tame_upstream k σ)) as Hm. destruct (upstream_semaphore k σ) as [s σ1].
    cbn [snd] in Hm. cbv zeta. set (σ2 := publish _ _ _ σ1).
    assert (H2 : grows σ σ2) by done. destruct (_ !! k); [by apply (grows_abort n) in H2 | done].
  - destruct (lock σ); [done|]. destruct (alive σ); [|done]. injection Hs as <-. unfold forget_queue.
    destruct (pools σ !! k) as [e|]; [|done].
    destruct (tame_grows _ _ (tame_collect e (set_lock (Some (k, false)) (set_pools (delete k (pools σ)) σ)))).
    by split.
  - destruct (lock σ) as [[k []]|]; [| |done]; injection Hs as <-; unfold forget_task; [|done].
    destruct (refill_tasks σ !! k); [by apply grows_abort|done].
  - by eapply Htame, tame_task_step.
  - by eapply Htame, tame_task_connected.
  - by eapply Htame, tame_task_cancelled.
  - destruct (lock σ); [done|]. destruct (_ && _); [|done]. injection Hs as <-.
    assert (H : grows σ (foldr (fun kv => abort_at kv.2) σ (map_to_list (refill_tasks σ)))); [|done].
    induction (map_to_list (refill_tasks σ)) as [|kv kvs IH]; [done|]. by apply grows_abort.
Qed.

Lemma reachable_max config max now σ : reachable (new config max now) σ -> max_per_upstream σ = Nat.max max 1.
Proof. induction 1 as [|σ0 ev σ' _ <- Hs]; [done | by eapply grows_exec]. Qed.

Lemma clients_release_all ps σ : clients (foldr release σ ps) = clients σ.
Proof. induction ps as [|p ps IH]; [done|]. cbn. by rewrite (proj2 (release_parts _ _)). Qed.

Lemma clients_collect e σ : clients (collect e σ) = clients σ.
Proof.
  unfold collect. destruct (referenced e σ); [done|]. destruct (endpoints σ !! e); [|done].
  by rewrite clients_release_all.
Qed.

Lemma clients_abort e σ : clients (abort_at e σ) = clients σ.
Proof. unfold abort_at. by destruct (endpoints σ !! e). Qed.

(** Refill tasks and the lifecycle leave the callers alone. *)
Lemma clients_exec ev σ σ' : exec ev σ = Some σ' ->
  match ev with
  | Acquire _ _ | Reserve _ | Checkout _ | CheckoutUnguarded _ | Run _ _ | Dialed _ _ | Drop _ => True
  | _ => clients σ' = clients σ
  end.
Proof.
  destruct ev; cbn [exec]; intros Hs; try done.
  - destruct (0 <=? d); [|done]. by injection Hs as <-.
  - destruct (lock σ); [done|]. destruct (alive σ); [|done]. injection Hs as <-. unfold spawn_refill_for.
    destruct (negb _); [done|]. destruct (pools σ !! k); [done|].
    pose proof (clients_upstream k σ) as Hcl. destruct (upstream_semaphore k σ) as [s σ1]. cbn in *.
    rewrite <- Hcl. by destruct (_ !! k); [rewrite clients_abort|].
  - destruct (lock σ); [done|]. destruct (alive σ); [|done]. injection Hs as <-. unfold forget_queue.
    by destruct (pools σ !! k); [rewrite clients_collect|].
  - destruct (lock σ) as [[k []]|]; [| |done]; injection Hs as <-; unfold forget_task; [|done].
    by destruct (refill_tasks σ !! k); [rewrite clients_abort|].
  - unfold task_step in Hs. destruct (endpoints σ !! e) as [x|]; [|done]. cbn [mbind option_bind] in Hs.
    destruct (phase (task x)); try done; [by injection Hs as <-..| | | |].
    + destruct (try_acquire _ σ) as [σ1|] eqn:Ht; injection Hs as <-; [|done]. cbn. by eapply clients_take.
    + destruct (queue (spares x)); by injection Hs as <-.
    + injection Hs as <-. by rewrite (proj2 (release_parts _ _)).
    + destruct keepers; [|destruct (_ <? _)%nat]; injection Hs as <-; try done. by rewrite (proj2 (release_parts _ _)).
  - unfold task_connected in Hs. destruct (endpoints σ !! e) as [x|]; [|done]. cbn [mbind option_bind] in Hs.
    destruct (phase (task x)); try done. destruct ok; [destruct (_ <? _)%nat|]; injection Hs as <-; try done;
      by rewrite (proj2 (release_parts _ _)).
  - unfold task_woken in Hs. destruct (endpoints σ !! e) as [x|]; [|done]. cbn [mbind option_bind] in Hs.
    destruct (phase (task x)); try done. by injection Hs as <-.
  - unfold task_notified in Hs. destruct (endpoints σ !! e) as [x|]; [|done]. cbn [mbind option_bind] in Hs.
    destruct (phase (task x)); try done. destruct (notified (spares x)); [|done]. by injection Hs as <-.
  - unfold task_aged in Hs. destruct (endpoints σ !! e) as [x|]; [|done]. cbn [mbind option_bind] in Hs.
    destruct (phase (task x)); try done. by injection Hs as <-.
  - unfold task_cancelled in Hs. destruct (endpoints σ !! e) as [x|]; [|done]. cbn [mbind option_bind] in Hs.
    destruct (aborted (task x)); [|done].
    assert (Hgoal : clients (collect e (foldr release (put_endpoint e (with_phase x Ended) σ)
                       (phase_permits (phase (task x))))) = clients σ)
      by by rewrite clients_collect, clients_release_all.
    destruct (phase (task x)); try done; by injection Hs as <-.
  - destruct (lock σ); [done|]. destruct (_ && _); [|done]. injection Hs as <-. unfold drop_pool. cbn.
    induction (map_to_list (refill_tasks σ)) as [|kv kvs IH]; [done|]. cbn. by rewrite clients_abort.
Qed.

Lemma client_step_ok dead i σ σ' : client_step dead i σ = Some σ' -> wf σ ->
  Forall (client_ok (length (sems σ))) (clients σ) -> Forall (client_ok (length (sems σ'))) (clients σ').
Proof.
  intros Hs W H0. pose proof (tame_client_step _ _ _ _ Hs) as Htame. pose proof (tame_sems _ _ Htame) as Hgrow.
  assert (H : Forall (client_ok (length (sems σ'))) (clients σ)).
  { eapply Forall_impl; [exact H0|]. intros c Hc. by eapply ok_grow. }
  pose proof (wf_caps _ (wf_tame _ _ W Htame)) as Hcaps. clear H0 Hgrow Htame. revert Hcaps H.
  assert (Hlen : exists n, n = length (sems σ')) by by eexists. destruct Hlen as [n Hn]. rewrite <- Hn.
  intros Hcaps H. revert Hs.
  unfold client_step. destruct (clients σ !! i) as [c|] eqn:Hc; [|done]. cbn [mbind option_bind].
  intros Hs. pose proof (Forall_lookup_1 _ _ _ _ H Hc) as Hok. unfold client_ok in Hok.
  assert (Hput : forall c' σ1, clients σ1 = clients σ -> client_ok n c' -> Forall (client_ok n) (clients (put_client i c' σ1))).
  { intros c' σ1 Hcl Hc'. cbn. rewrite Hcl. by apply Forall_insert. }
  assert (Hrel : forall p σ1, Forall (client_ok n) (clients σ1) -> Forall (client_ok n) (clients (release p σ1))).
  { intros p σ1. by rewrite (proj2 (release_parts p σ1)). }
  assert (Hcol : forall e σ1, Forall (client_ok n) (clients σ1) -> Forall (client_ok n) (clients (collect e σ1))).
  { intros e σ1. by rewrite clients_collect. }
  destruct (pc c) eqn:Hpc; try done.
  - destruct (negb _); [|destruct (pools σ !! k)]; injection Hs as <-; (apply Hput; [done|]); by destruct w.
  - destruct (pop_spare e σ) as [[pw σ1]|] eqn:Hpop; [destruct (_ && _)|]; injection Hs as <-.
    + apply Hcol, Hput; [by eapply clients_pop|]. destruct w; [apply ok_next | done | done].
    + apply Hput; [by eapply clients_pop | done].
    + apply Hcol, Hput; [apply clients_notify | by destruct w].
  - injection Hs as <-. by apply Hrel, Hput.
  - pose proof (clients_upstream k σ) as Hcl. pose proof (upstream_spec k σ) as Hup.
    destruct (upstream_semaphore k σ) as [s σ1]. injection Hs as <-. apply Hput; [done|].
    unfold client_ok. cbn. eapply (Hcaps k). apply Hup.
  - destruct (try_acquire s σ) as [σ1|] eqn:Ht; injection Hs as <-; [|by apply Hput].
    apply Hput; [by eapply clients_take | apply ok_granted].
  - destruct (pools σ !! k ≫= _) as [[pw σ1]|] eqn:Hpop; injection Hs as <-; [|by apply Hput].
    apply bind_Some in Hpop as (e & _ & Hpop). apply Hput; [by eapply clients_pop | apply ok_granted].
  - destruct (try_acquire s σ) as [σ1|] eqn:Ht; injection Hs as <-; [|by apply Hput].
    apply Hput; [by eapply clients_take | apply ok_granted].
  - destruct (held c) eqn:Hh; injection Hs as <-; [|by apply Hrel, Hput]. apply Hput; [done|].
    unfold client_ok. by cbn.
Qed.

Lemma exec_client_ok ev σ σ' : exec ev σ = Some σ' -> wf σ ->
  Forall (client_ok (length (sems σ))) (clients σ) -> Forall (client_ok (length (sems σ'))) (clients σ').
Proof.
  intros Hs W H0. pose proof (clients_exec _ _ _ Hs) as Hcl. destruct (grows_exec _ _ _ Hs) as [_ Hgrow].
  assert (H : Forall (client_ok (length (sems σ'))) (clients σ)).
  { eapply Forall_impl; [exact H0|]. intros c Hc. by eapply ok_grow. }
  set (n := length (sems σ')) in *.
  assert (Hstart : forall c, (forall m, client_ok m c) -> start c σ = Some σ' -> Forall (client_ok n) (clients σ')).
  { intros c Hc. unfold start. destruct (alive σ); [|done]. intros [= <-]. cbn. apply Forall_app. by repeat constructor. }
  assert (Hput : forall i c', client_ok n c' -> Forall (client_ok n) (clients (put_client i c' σ))).
  { intros i c' Hc'. cbn. by apply Forall_insert. }
  destruct ev; try (by rewrite Hcl); cbn [exec] in Hs; try (by eapply Hstart; [|exact Hs]).
  - by eapply client_step_ok.
  - unfold client_dialed in Hs. destruct (clients σ !! i) as [c|]; [|done]. cbn [mbind option_bind] in Hs.
    destruct (pc c); try done. injection Hs as <-. apply Hput. destruct r; [done | apply ok_next].
  - unfold client_dropped in Hs. destruct (clients σ !! i) as [c|]; [|done]. cbn [mbind option_bind] in Hs.
    destruct (pc c); try done; injection Hs as <-; by apply Hput.
Qed.

Lemma reachable_clients config max now σ : reachable (new config max now) σ ->
  Forall (client_ok (length (sems σ))) (clients σ).
Proof. induction 1; [constructor | eapply exec_client_ok; [done | by eapply reachable_wf | done]]. Qed.

(** ** Which upstream a permit is of

    The history of a pool: its events, and the upstream each semaphore was made for. *)

Inductive traced (σ0 : t) : list Event -> list Key -> t -> Prop :=
| traced_start : traced σ0 [] [] σ0
| traced_step evs own σ ev σ' : traced σ0 evs own σ -> exec ev σ = Some σ' ->
    length (sems σ') = length (sems σ) -> traced σ0 (evs ++ [ev]) own σ'
| traced_made evs own σ ev σ' k : traced σ0 evs own σ -> exec ev σ = Some σ' ->
    length (sems σ') = S (length (sems σ)) -> upstream_caps σ' !! k = Some (length (sems σ)) ->
    traced σ0 (evs ++ [ev]) (own ++ [k]) σ'.

Lemma traced_reachable σ0 evs own σ : traced σ0 evs own σ -> reachable σ0 σ.
Proof. induction 1; [constructor | by eapply reach_step..]. Qed.

(** The semaphores made for an upstream, one after the other, and the permits of theirs
    that are out: with a spare, a refill connect or a caller. *)
Definition generations (k : Key) (own : list Key) : list nat :=
  List.filter (fun s => bool_decide (own !! s = Some k)) (seq 0 (length own)).
Definition out (k : Key) (own : list Key) (σ : t) : nat :=
  sum_list_with (fun s => (warm s σ + taken s σ)%nat) (generations k own).
(** How often it was forgotten. *)
Definition forgets (k : Key) (evs : list Event) : nat :=
  length (List.filter (fun ev => match ev with Forget k' => bool_decide (k' = k) | _ => false end) evs).

Lemma generations_snoc k own k' :
  generations k (own ++ [k']) = generations k own ++ (if decide (k' = k) then [length own] else []).
Proof.
  unfold generations. rewrite length_app. cbn [length]. rewrite seq_app, List.filter_app. cbn [seq List.filter].
  f_equal.
  - apply List.filter_ext_in. intros s [_ Hs]%in_seq. by rewrite lookup_app_l.
  - rewrite lookup_app_r, Nat.sub_diag by done. cbn. case_decide as Hk; [by rewrite bool_decide_true by congruence|].
    by rewrite bool_decide_false by congruence.
Qed.

Lemma forgets_snoc k evs ev : forgets k (evs ++ [ev]) =
  (forgets k evs + match ev with Forget k' => if decide (k' = k) then 1 else 0 | _ => 0 end)%nat.
Proof.
  unfold forgets. rewrite List.filter_app, length_app. f_equal. destruct ev; try done. cbn.
  case_decide as Hk; [by rewrite bool_decide_true | by rewrite bool_decide_false].
Qed.

(** *** What a step does to the semaphores *)

Definition calm (σ σ' : t) : Prop :=
  alive σ' = alive σ /\ upstream_caps σ' = upstream_caps σ /\ length (sems σ') = length (sems σ).

Lemma calm_refl σ : calm σ σ.
Proof. done. Qed.
Lemma calm_release p σ σ' : calm σ σ' -> calm σ (release p σ').
Proof.
  intros (Ha & Hc & Hs). unfold release. destruct (sems σ' !! p); [|done]. split_and!; try done.
  cbn. by rewrite length_insert.
Qed.
Lemma calm_release_all ps σ σ' : calm σ σ' -> calm σ (foldr release σ' ps).
Proof. intros H. induction ps; [done | by apply calm_release]. Qed.
Lemma calm_collect e σ σ' : calm σ σ' -> calm σ (collect e σ').
Proof.
  intros H. unfold collect. destruct (referenced e σ'); [done|]. destruct (endpoints σ' !! e); [|done].
  by apply calm_release_all.
Qed.
Lemma calm_abort e σ σ' : calm σ σ' -> calm σ (abort_at e σ').
Proof. intros H. unfold abort_at. by destruct (endpoints σ' !! e). Qed.
Lemma calm_notify e σ σ' : calm σ σ' -> calm σ (notify e σ').
Proof. intros H. unfold notify. by destruct (endpoints σ' !! e). Qed.
Lemma calm_take s σ σ' : try_acquire s σ = Some σ' -> calm σ σ'.
Proof.
  unfold try_acquire. destruct (sems σ !! s) as [[|n]|]; intros [= <-]. split_and!; try done. apply length_insert.
Qed.
Lemma calm_pop e r σ σ' : pop_spare e σ = Some (r, σ') -> calm σ σ'.
Proof.
  unfold pop_spare. destruct (endpoints σ !! e) as [x|]; [|done]. destruct (queue (spares x)); [done|]. by intros [= _ <-].
Qed.
Lemma calm_put i c σ σ' : calm σ σ' -> calm σ (put_client i c σ').
Proof. done. Qed.

Lemma calm_set e x σ σ' : calm σ σ' -> calm σ (put_endpoint e x σ').
Proof. done. Qed.

Create HintDb calm.
#[local] Hint Resolve calm_refl calm_release calm_release_all calm_collect calm_abort calm_notify calm_take
  calm_pop calm_put calm_set : calm.

(** A semaphore made for [k]. *)
Definition grown (k : Key) (σ σ' : t) : Prop :=
  upstream_caps σ !! k = None /\ upstream_caps σ' = <[k := length (sems σ)]> (upstream_caps σ) /\
  length (sems σ') = S (length (sems σ)) /\ alive σ' = alive σ.
Definition calm_or_grown (σ σ' : t) : Prop := calm σ σ' \/ exists k, grown k σ σ'.

Lemma upstream_grows k σ : calm_or_grown σ (upstream_semaphore k σ).2.
Proof.
  unfold upstream_semaphore. destruct (upstream_caps σ !! k) eqn:E; [by left|]. right. exists k. split_and!; try done.
  cbn. rewrite length_app. cbn. lia.
Qed.

(** Only a caller that is inside a call can make one, ... *)
Lemma caps_client_step dead i σ σ' : client_step dead i σ = Some σ' ->
  calm σ σ' \/ (exists k, grown k σ σ') /\ existsb in_call (clients σ) = true.
Proof.
  unfold client_step. destruct (clients σ !! i) as [c|] eqn:Hc; [|done].
  cbn [mbind option_bind]. intros Hs. destruct (pc c) eqn:Hpc; try done.
  - left. destruct (negb _); [|destruct (pools σ !! k)]; by injection Hs as <-.
  - left. destruct (pop_spare e σ) as [[pw σ1]|] eqn:Hpop; [destruct (_ && _)|]; injection Hs as <-; eauto with calm.
  - left. injection Hs as <-. eauto with calm.
  - pose proof (upstream_grows k σ) as Hg. destruct (upstream_semaphore k σ) as [s σ1]. injection Hs as <-.
    destruct Hg as [Hg|[k' Hg]]; [left; exact Hg|]. right. split; [exists k'; exact Hg|].
    apply existsb_exists. exists c. split; [|unfold in_call; by rewrite Hpc].
    apply list_elem_of_In. by eapply list_elem_of_lookup_2.
  - left. destruct (try_acquire s σ) as [σ1|] eqn:Ht; injection Hs as <-; eauto with calm.
  - left. destruct (pools σ !! k ≫= _) as [[pw σ1]|] eqn:Hpop; injection Hs as <-; [|eauto with calm].
    apply bind_Some in Hpop as (e & _ & Hpop). eauto with calm.
  - left. destruct (try_acquire s σ) as [σ1|] eqn:Ht; injection Hs as <-; eauto with calm.
  - left. destruct (held c); injection Hs as <-; eauto with calm.
Qed.

Lemma calm_task_events e ok σ σ' :
  task_step e σ = Some σ' \/ task_connected ok e σ = Some σ' \/ task_woken e σ = Some σ' \/
  task_notified e σ = Some σ' \/ task_aged e σ = Some σ' \/ task_cancelled e σ = Some σ' -> calm σ σ'.
Proof.
  unfold task_step, task_connected, task_woken, task_notified, task_aged, task_cancelled.
  destruct (endpoints σ !! e) as [x|] eqn:Hx; [|naive_solver]. cbn [mbind option_bind].
  intros [Hs|[Hs|[Hs|[Hs|[Hs|Hs]]]]].
  - destruct (phase (task x)) eqn:Hph; try done; try (injection Hs as <-; by eauto with calm).
    + destruct (try_acquire _ σ) as [σ1|] eqn:Ht; injection Hs as <-; [|done]. by apply calm_take in Ht.
    + destruct (queue (spares x)); by injection Hs as <-.
    + destruct keepers; [|destruct (_ <? _)%nat]; injection Hs as <-; eauto with calm.
  - destruct (phase (task x)); try done. destruct ok; [destruct (_ <? _)%nat|]; injection Hs as <-; eauto with calm.
  - destruct (phase (task x)); try done. by injection Hs as <-.
  - destruct (phase (task x)); try done. destruct (notified (spares x)); [|done]. by injection Hs as <-.
  - destruct (phase (task x)); try done. by injection Hs as <-.
  - destruct (aborted (task x)); [|done].
    assert (Hgoal : calm σ (collect e (foldr release (put_endpoint e (with_phase x Ended) σ) (phase_permits (phase (task x)))))).
    { by apply calm_collect, calm_release_all. }
    destruct (phase (task x)); try done; by injection Hs as <-.
Qed.

Lemma caps_spawn k σ : calm_or_grown σ (spawn_refill_for k σ).
Proof.
  unfold spawn_refill_for. destruct (negb _); [by left|]. destruct (pools σ !! k); [by left|].
  pose proof (upstream_grows k σ) as Hg. destruct (upstream_semaphore k σ) as [s σ1]. cbn [snd] in Hg. cbv zeta.
  set (σ2 := publish _ _ _ σ1). assert (H2 : calm_or_grown σ σ2) by exact Hg.
  destruct (_ !! k) as [old|]; [|exact H2].
  assert (Hab : forall τ, calm_or_grown σ τ -> calm_or_grown σ (abort_at old τ)).
  { intros τ. unfold abort_at. by destruct (endpoints τ !! old). }
  exact (Hab _ H2).
Qed.

(** ... or a spawn, before the pool is dropped; a forget and the drop take them out of the
    map. *)
Lemma caps_exec ev σ σ' : exec ev σ = Some σ' ->
  match ev with
  | ForgetNext => length (sems σ') = length (sems σ) /\ alive σ' = alive σ /\
      exists k, (lock σ = Some (k, false) /\ lock σ' = Some (k, true) /\ upstream_caps σ' = delete k (upstream_caps σ)) \/
                (lock σ = Some (k, true) /\ lock σ' = None /\ upstream_caps σ' = upstream_caps σ)
  | DropPool => length (sems σ') = length (sems σ) /\ upstream_caps σ' = ∅ /\ alive σ' = false /\ lock σ' = lock σ /\
      existsb in_call (clients σ') = false
  | Forget k => calm σ σ' /\ lock σ = None /\ lock σ' = Some (k, false)
  | _ => lock σ' = lock σ /\
      (calm σ σ' \/ (exists k, grown k σ σ') /\ (alive σ = true \/ existsb in_call (clients σ) = true))
  end.
Proof.
  intros Hs.
  assert (Hstart : forall c, start c σ = Some σ' -> lock σ' = lock σ /\ calm σ σ').
  { intros c. unfold start. destruct (alive σ); [|done]. by intros [= <-]. }
  assert (Htask : forall e ok, task_step e σ = Some σ' \/ task_connected ok e σ = Some σ' \/ task_woken e σ = Some σ' \/
    task_notified e σ = Some σ' \/ task_aged e σ = Some σ' \/ task_cancelled e σ = Some σ' -> tame σ σ' ->
    lock σ' = lock σ /\ (calm σ σ' \/ (exists k, grown k σ σ') /\ (alive σ = true \/ existsb in_call (clients σ) = true))).
  { intros e ok H T. split; [apply (tame_lock _ _ T)|]. left. by eapply calm_task_events. }
  destruct ev; cbn [exec] in Hs; try (apply Hstart in Hs as [? ?]; split; [done | by left]).
  - destruct (0 <=? d); [|done]. injection Hs as <-. split; [done | by left].
  - split; [by eapply tame_lock, tame_client_step|]. apply caps_client_step in Hs as [?|[? ?]]; [by left | right; split; [done | by right]].
  - unfold client_dialed in Hs. destruct (clients σ !! i) as [c|]; [|done]. cbn [mbind option_bind] in Hs.
    destruct (pc c); try done. injection Hs as <-. split; [done | by left].
  - unfold client_dropped in Hs. destruct (clients σ !! i) as [c|]; [|done]. cbn [mbind option_bind] in Hs.
    destruct (pc c); try done; injection Hs as <-; (split; [done | by left]).
  - destruct (lock σ) eqn:Hl; [done|]. destruct (alive σ) eqn:Ha; [|done]. injection Hs as <-. split.
    + unfold spawn_refill_for. destruct (negb _); [done|]. destruct (pools σ !! k); [done|].
      pose proof (tame_lock _ _ (tame_upstream k σ)) as Hl1. destruct (upstream_semaphore k σ) as [s σ1]. cbn [snd] in Hl1.
      cbv zeta. destruct (_ !! k) as [old|]; [|by rewrite <- Hl]. cbn [lock set_tasks].
      rewrite (proj1 (proj2 (proj2 (abort_at_parts old _)))). cbn. congruence.
    + destruct (caps_spawn k σ) as [?|?]; [by left | right; split; [done | by left]].
  - destruct (lock σ) eqn:Hl; [done|]. destruct (alive σ); [|done]. injection Hs as <-. unfold forget_queue.
    destruct (pools σ !! k) as [e|]; [|by split_and!].
    split; [by apply calm_collect|]. split; [done|].
    exact (tame_lock _ _ (tame_collect e (set_lock (Some (k, false)) (set_pools (delete k (pools σ)) σ)))).
  - destruct (lock σ) as [[k []]|] eqn:Hl; [| |done]; injection Hs as <-.
    + unfold forget_task. destruct (refill_tasks σ !! k) as [e|]; [|split; [done|]; split; [done|]; exists k; by right].
      destruct (calm_abort e _ _ (calm_refl (set_lock None (set_tasks (delete k (refill_tasks σ)) σ)))) as (Ha & Hc & Hn).
      destruct (abort_at_parts e (set_lock None (set_tasks (delete k (refill_tasks σ)) σ))) as (_ & _ & El & _).
      split; [exact Hn|]. split; [exact Ha|]. exists k. right. split_and!; [done | exact El | exact Hc].
    + split; [done|]. split; [done|]. exists k. by left.
  - eapply (Htask e true); [by left | by eapply tame_task_step].
  - eapply (Htask e ok); [by right; left | by eapply tame_task_connected].
  - eapply (Htask e true); [by right; right; left | eapply tame_task_wakes; eauto].
  - eapply (Htask e true); [by right; right; right; left | eapply tame_task_wakes; eauto].
  - eapply (Htask e true); [by do 4 right; left | eapply tame_task_wakes; eauto].
  - eapply (Htask e true); [by do 5 right | by eapply tame_task_cancelled].
  - destruct (lock σ) eqn:Hl; [done|]. destruct (alive σ) eqn:Ha; [|done]. destruct (existsb in_call (clients σ)) eqn:Hi; [done|].
    injection Hs as <-. unfold drop_pool.
    assert (H : calm σ (foldr (fun kv => abort_at kv.2) σ (map_to_list (refill_tasks σ))) /\
      lock (foldr (fun kv => abort_at kv.2) σ (map_to_list (refill_tasks σ))) = lock σ /\
      clients (foldr (fun kv => abort_at kv.2) σ (map_to_list (refill_tasks σ))) = clients σ).
    { induction (map_to_list (refill_tasks σ)) as [|kv kvs (IH1 & IH2 & IH3)]; [done|]. cbn [foldr]. split; [by apply calm_abort|].
      rewrite (proj1 (proj2 (proj2 (abort_at_parts kv.2 _)))), clients_abort. by split. }
    destruct H as ((_ & _ & Hn) & Hlk & Hcl). cbn. rewrite Hlk, Hcl. by split_and!.
Qed.

(** After the drop nobody is inside a call any more. *)
Lemma idle_exec ev σ σ' : exec ev σ = Some σ' -> (alive σ = false -> existsb in_call (clients σ) = false) ->
  alive σ' = false -> existsb in_call (clients σ') = false.
Proof.
  intros Hs H Ha. pose proof (caps_exec _ _ _ Hs) as Hc. pose proof (clients_exec _ _ _ Hs) as Hcl.
  assert (Hput : forall i c c', clients σ !! i = Some c -> clients σ' = clients (put_client i c' σ) ->
    alive σ' = alive σ -> (in_call c = false -> in_call c' = false) -> existsb in_call (clients σ') = false).
  { intros i c c' Hi -> Hal Hcc. rewrite Hal in Ha. specialize (H Ha). apply not_true_is_false. intros (d & Hd & Hin)%existsb_exists.
    apply list_elem_of_In, list_elem_of_lookup_1 in Hd as [j Hj]. cbn in Hj.
    assert (Hno : forall d, d ∈ clients σ -> in_call d = false).
    { intros d' Hd'. apply not_true_is_false. intros Ht. enough (existsb in_call (clients σ) = true) by congruence.
      apply existsb_exists. exists d'. split; [by apply list_elem_of_In | done]. }
    destruct (decide (j = i)) as [->|Hne].
    - rewrite list_lookup_insert_eq in Hj by (by eapply lookup_lt_Some). injection Hj as <-.
      rewrite Hcc in Hin; [done|]. apply Hno. by eapply list_elem_of_lookup_2.
    - rewrite list_lookup_insert_ne in Hj by done. rewrite Hno in Hin; [done|]. by eapply list_elem_of_lookup_2. }
  assert (Hnew : forall c, start c σ = Some σ' -> existsb in_call (clients σ') = false).
  { intros c. unfold start. destruct (alive σ) eqn:E; [|done]. intros [= <-]. cbn in Ha. congruence. }
  destruct ev; cbn [exec] in Hs; try (by eapply Hnew; exact Hs); try (by apply Hc);
    try (rewrite Hcl; destruct Hc as [_ [(Hal & _)|[[k' (_ & _ & _ & Hal)] _]]]; apply H; congruence).
  - destruct Hc as [_ Hc]. assert (Hal : alive σ' = alive σ) by (destruct Hc as [(? & _)|[[k (_ & _ & _ & ?)] _]]; done).
    assert (Hidle : existsb in_call (clients σ) = false) by (apply H; congruence). clear Hc Hcl.
    unfold client_step in Hs. destruct (clients σ !! i) as [c|] eqn:Hi; [|done]. cbn [mbind option_bind] in Hs.
    assert (Hno : in_call c = false).
    { apply not_true_is_false. intros Ht. enough (existsb in_call (clients σ) = true) by congruence.
      apply existsb_exists. exists c. split; [apply list_elem_of_In; by eapply list_elem_of_lookup_2 | done]. }
    unfold in_call in Hno. destruct (pc c) eqn:Hpc; try done. destruct (held c); injection Hs as <-.
    + by eapply (Hput i c (goto Done c)).
    + eapply (Hput i c (mkClient Dropping l (inner c) (failed c))); [done | by apply release_parts | done | done].
  - unfold client_dialed in Hs. destruct (clients σ !! i) as [c|] eqn:Hi; [|done]. cbn [mbind option_bind] in Hs.
    destruct (pc c) eqn:Hpc; try done. injection Hs as <-. eapply Hput; [exact Hi | done | done |].
    unfold in_call at 1. by rewrite Hpc.
  - unfold client_dropped in Hs. destruct (clients σ !! i) as [c|] eqn:Hi; [|done]. cbn [mbind option_bind] in Hs.
    destruct (pc c) eqn:Hpc; try done; injection Hs as <-; (by eapply (Hput i c (goto Dropping c))).
  - rewrite Hcl. destruct Hc as [(Hal & _) _]. apply H. congruence.
  - rewrite Hcl. destruct Hc as (_ & Hal & _). apply H. congruence.
Qed.

(** Every run has its history. *)
Lemma caps_made ev σ σ' : exec ev σ = Some σ' ->
  length (sems σ') = length (sems σ) \/ (exists k, grown k σ σ').
Proof.
  intros Hs. pose proof (caps_exec _ _ _ Hs) as Hc.
  destruct ev; try (destruct Hc as [_ [(_ & _ & ?)|[Hg _]]]; [by left | by right]).
  - left. by destruct Hc as [(_ & _ & ?) _].
  - left. by destruct Hc.
  - left. by destruct Hc.
Qed.

Lemma reachable_traced σ0 σ : reachable σ0 σ -> exists evs own, traced σ0 evs own σ.
Proof.
  induction 1 as [|σ ev σ' _ (evs & own & IH) Hs]; [exists [], []; constructor|].
  destruct (caps_made _ _ _ Hs) as [Hn|[k (_ & Hc & Hn & _)]].
  - exists (evs ++ [ev]), own. by eapply traced_step.
  - exists (evs ++ [ev]), (own ++ [k]). eapply traced_made; [done..|]. rewrite Hc. apply lookup_insert_eq.
Qed.

(** *** Everybody's permits are of the right upstream *)

Definition client_owned (own : list Key) (c : Client) : Prop :=
  match pc c with
  | Trying _ k s | Stealing _ k s | Retrying _ k s => own !! s = Some k
  | Dialing k => exists p rest, held c = p :: rest /\ own !! p = Some k
  | _ => True
  end.
Record owned (own : list Key) (σ : t) : Prop := {
  owned_len : length own = length (sems σ);
  owned_caps : forall k s, upstream_caps σ !! k = Some s -> own !! s = Some k;
  owned_tasks : Forall (fun x => own !! t_sem (task x) = Some (t_key (task x))) (endpoints σ);
  owned_clients : Forall (client_owned own) (clients σ) }.

Lemma client_owned_more own more c : client_owned own c -> client_owned (own ++ more) c.
Proof.
  unfold client_owned. destruct (pc c); try done; try (intros; by apply lookup_app_l_Some).
  intros (p & rest & Hh & Ho). exists p, rest. split; [done|]. by apply lookup_app_l_Some.
Qed.

Definition core (x : Endpoint) : Key * nat := (t_key (task x), t_sem (task x)).

Lemma cores_tame σ σ' : tame σ σ' -> map core (endpoints σ') = map core (endpoints σ).
Proof.
  intros T. induction (tame_endpoints _ _ T) as [|x x' l l' [(Hk & Hs & _) _] _ IH]; [done|]. cbn. rewrite IH.
  unfold core. by rewrite Hk, Hs.
Qed.
Lemma cores_abort e σ : map core (endpoints (abort_at e σ)) = map core (endpoints σ).
Proof.
  destruct (abort_at_parts e σ) as (_ & _ & _ & _ & _ & _ & ->). apply list_eq. intros i.
  rewrite !list_lookup_fmap. destruct (decide (i = e)) as [->|Hne]; [rewrite list_lookup_alter_eq | by rewrite list_lookup_alter_ne].
  by destruct (endpoints σ !! e).
Qed.

(** The endpoints a step leaves or adds. *)
Lemma cores_exec ev σ σ' : exec ev σ = Some σ' ->
  map core (endpoints σ') = map core (endpoints σ) \/
  exists k s, map core (endpoints σ') = map core (endpoints σ) ++ [(k, s)] /\ upstream_caps σ' !! k = Some s.
Proof.
  intros Hs.
  assert (Hstart : forall c, start c σ = Some σ' -> map core (endpoints σ') = map core (endpoints σ)).
  { intros c. unfold start. destruct (alive σ); [|done]. by intros [= <-]. }
  destruct ev; cbn [exec] in Hs; try (left; by eapply Hstart);
    try (left; apply cores_tame; eapply tame_task_wakes; by eauto).
  - left. destruct (0 <=? d); [|done]. by injection Hs as <-.
  - left. by eapply cores_tame, tame_client_step.
  - left. unfold client_dialed in Hs. destruct (clients σ !! i) as [c|]; [|done]. cbn [mbind option_bind] in Hs.
    destruct (pc c); try done. by injection Hs as <-.
  - left. unfold client_dropped in Hs. destruct (clients σ !! i) as [c|]; [|done]. cbn [mbind option_bind] in Hs.
    destruct (pc c); try done; by injection Hs as <-.
  - destruct (lock σ); [done|]. destruct (alive σ); [|done]. injection Hs as <-. unfold spawn_refill_for.
    destruct (negb _); [by left|]. destruct (pools σ !! k); [by left|].
    pose proof (upstream_spec k σ) as Hup. destruct (upstream_semaphore k σ) as [s σ1]. destruct Hup as (Hcap & _ & He).
    cbv zeta. right. exists k, s. destruct (refill_tasks _ !! k) as [old|].
    + destruct (abort_at_parts old (publish k s (Nat.min (spare_per_proxy (config σ) `max` 1) (max_per_upstream σ)) σ1))
        as (_ & _ & _ & _ & Hc & _). split; [|exact (eq_trans (f_equal (fun m => m !! k) Hc) Hcap)].
      cbn [endpoints set_tasks]. rewrite cores_abort. cbn. by rewrite map_app, He.
    + split; [|done]. cbn. by rewrite map_app, He.
  - left. destruct (lock σ); [done|]. destruct (alive σ); [|done]. injection Hs as <-. unfold forget_queue.
    destruct (pools σ !! k); [|done]. apply (cores_tame (set_lock (Some (k, false)) (set_pools (delete k (pools σ)) σ))).
    apply tame_collect.
  - left. destruct (lock σ) as [[k []]|]; [| |done]; injection Hs as <-; unfold forget_task; [|done].
    destruct (refill_tasks σ !! k); [|done]. apply (cores_abort n (set_lock None (set_tasks (delete k (refill_tasks σ)) σ))).
  - left. by eapply cores_tame, tame_task_step.
  - left. by eapply cores_tame, tame_task_connected.
  - left. by eapply cores_tame, tame_task_cancelled.
  - left. destruct (lock σ); [done|]. destruct (_ && _); [|done]. injection Hs as <-. unfold drop_pool. cbn.
    induction (map_to_list (refill_tasks σ)) as [|kv kvs IH]; [done|]. cbn [foldr]. by rewrite cores_abort.
Qed.

(** A spare popped from the queue callers of [k] find is of [k]. *)
Lemma popped_owned own k e pw σ σ' : wf σ -> owned own σ -> pools σ !! k = Some e ->
  pop_spare e σ = Some (pw, σ') -> own !! permit pw = Some k.
Proof.
  intros W O Hp Hpop. unfold pop_spare in Hpop. destruct (endpoints σ !! e) as [x|] eqn:Hx; [|done].
  destruct (queue (spares x)) as [|pw' rest] eqn:Hq; [done|]. injection Hpop as -> _.
  destruct (wf_tasks _ W k e) as ((y & Hy & Hk & _) & _); [by apply (wf_pools _ W)|].
  rewrite Hx in Hy. injection Hy as <-. pose proof (Forall_lookup_1 _ _ _ _ (wf_endpoints _ W) Hx) as (_ & Hpe & _).
  unfold endpoint_permits in Hpe. rewrite Hq in Hpe. cbn [map app] in Hpe.
  apply Forall_cons in Hpe as [Heq _].
  rewrite <- Heq, <- Hk. by apply (Forall_lookup_1 _ _ _ _ (owned_tasks _ _ O) Hx).
Qed.

Lemma owned_granted own fresh k p c : own !! p = Some k -> client_owned own (granted fresh k p c).
Proof.
  intros Ho. unfold granted. destruct fresh; [by exists p, (held c)|]. unfold next_node, client_owned. by destruct (inner _).
Qed.

(** A caller just given a semaphore is about to try it. *)
Definition promised (own : list Key) (σ : t) (c : Client) : Prop :=
  client_owned own c \/ exists f k s, pc c = Trying f k s /\ upstream_caps σ !! k = Some s.

Lemma clients_owned_exec own ev σ σ' : exec ev σ = Some σ' -> wf σ -> owned own σ ->
  Forall (promised own σ') (clients σ').
Proof.
  intros Hs W O. pose proof (clients_exec _ _ _ Hs) as Hcl. pose proof (owned_clients _ _ O) as HF.
  assert (H0 : Forall (promised own σ') (clients σ)).
  { eapply Forall_impl; [exact HF|]. intros c Hc. by left. }
  assert (Hput : forall i c' τ, clients τ = clients σ -> clients σ' = clients (put_client i c' τ) ->
    promised own σ' c' ->
    Forall (promised own σ') (clients σ')).
  { intros i c' τ Hτ -> Hc'. cbn. rewrite Hτ. by apply Forall_insert. }
  assert (Hnew : forall c, client_owned own c -> start c σ = Some σ' ->
    Forall (promised own σ') (clients σ')).
  { intros c Hc. unfold start. destruct (alive σ); [|done]. intros [= <-]. cbn. apply Forall_app. split; [exact H0|]. constructor; [by left | done]. }
  assert (Hnext : forall c, client_owned own (next_node c)) by (intros c; unfold next_node, client_owned; by destruct (inner c)).
  destruct ev; try (by rewrite Hcl); cbn [exec] in Hs; try (by eapply Hnew; [|exact Hs]).
  - unfold client_step in Hs. destruct (clients σ !! i) as [c|] eqn:Hc; [|done]. cbn [mbind option_bind] in Hs.
    pose proof (Forall_lookup_1 _ _ _ _ HF Hc) as Hok. unfold client_owned in Hok.
    destruct (pc c) eqn:Hpc; try done.
    + destruct (negb _); [|destruct (pools σ !! k)]; injection Hs as <-; (eapply Hput; [done | done |]); left; by destruct w.
    + destruct (pop_spare e σ) as [[pw σ1]|] eqn:Hpop; [destruct (_ && _)|]; injection Hs as <-.
      * eapply Hput; [by eapply clients_pop | apply clients_collect |]. left. destruct w; [apply Hnext | done | done].
      * eapply Hput; [by eapply clients_pop | done |]. by left.
      * eapply Hput; [apply clients_notify | apply clients_collect |]. left. by destruct w.
    + injection Hs as <-. eapply Hput; [done | apply release_parts |]. by left.
    + pose proof (clients_upstream k σ) as Hcl1. pose proof (upstream_spec k σ) as Hup.
      destruct (upstream_semaphore k σ) as [s σ1]. injection Hs as <-. eapply Hput; [exact Hcl1 | done |].
      right. exists fresh, k, s. split; [done|]. apply Hup.
    + destruct (try_acquire s σ) as [σ1|] eqn:Ht; injection Hs as <-; [|eapply Hput; [done | done |]; by left].
      eapply Hput; [by eapply clients_take | done |]. left. by apply owned_granted.
    + destruct (pools σ !! k ≫= _) as [[pw σ1]|] eqn:Hpop; injection Hs as <-; [|eapply Hput; [done | done |]; by left].
      apply bind_Some in Hpop as (e & He & Hpop). eapply Hput; [by eapply clients_pop | done |]. left.
      apply owned_granted. by eapply popped_owned.
    + destruct (try_acquire s σ) as [σ1|] eqn:Ht; injection Hs as <-; [|eapply Hput; [done | done |]; by left].
      eapply Hput; [by eapply clients_take | done |]. left. by apply owned_granted.
    + destruct (held c); injection Hs as <-; [eapply Hput; [done | done |]; by left|].
      eapply Hput; [done | apply release_parts |]. by left.
  - unfold client_dialed in Hs. destruct (clients σ !! i) as [c|] eqn:Hc; [|done]. cbn [mbind option_bind] in Hs.
    destruct (pc c) eqn:Hpc; try done. injection Hs as <-. eapply Hput; [done | done |]. left. destruct r; [done | apply Hnext].
  - unfold client_dropped in Hs. destruct (clients σ !! i) as [c|] eqn:Hc; [|done]. cbn [mbind option_bind] in Hs.
    destruct (pc c) eqn:Hpc; try done; injection Hs as <-; (eapply Hput; [done | done |]); by left.
Qed.

Lemma owned_exec own own' ev σ σ' : exec ev σ = Some σ' -> wf σ -> owned own σ ->
  own `prefix_of` own' -> length own' = length (sems σ') ->
  (forall k s, upstream_caps σ' !! k = Some s -> own' !! s = Some k) -> owned own' σ'.
Proof.
  intros Hs W O [more ->] Hlen Hcaps. split; [done | done | |].
  - assert (Hc : Forall (fun ks : Key * nat => (own ++ more) !! ks.2 = Some ks.1) (map core (endpoints σ'))).
    { assert (H0 : Forall (fun ks : Key * nat => (own ++ more) !! ks.2 = Some ks.1) (map core (endpoints σ))).
      { apply Forall_fmap. eapply Forall_impl; [apply (owned_tasks _ _ O)|]. intros x Hx. cbn. by apply lookup_app_l_Some. }
      destruct (cores_exec _ _ _ Hs) as [->|(k & s & -> & Hk)]; [done|]. apply Forall_app. split; [done|].
      repeat constructor. cbn. by apply Hcaps. }
    apply Forall_fmap in Hc. exact Hc.
  - pose proof (clients_owned_exec own _ _ _ Hs W O) as Hc. eapply Forall_impl; [exact Hc|].
    intros c [Ho|(f & k & s & Hpc & Hk)]; [by apply client_owned_more|]. unfold client_owned. rewrite Hpc. by apply Hcaps.
Qed.

(** *** The history's invariant *)

(** One semaphore may be in use for [k], and one for each time it was forgotten. *)
Definition slot (k : Key) (σ : t) : nat :=
  if alive σ then match upstream_caps σ !! k with Some _ => 1 | None => 0 end else 1.
Definition pending (k : Key) (σ : t) : nat :=
  match lock σ with Some (k', false) => if decide (k' = k) then 1 else 0 | _ => 0 end.

Record accounted (evs : list Event) (own : list Key) (σ : t) : Prop := {
  acc_wf : wf σ;
  acc_owned : owned own σ;
  acc_idle : alive σ = false -> existsb in_call (clients σ) = false;
  acc_made : forall k, (length (generations k own) + pending k σ <= forgets k evs + slot k σ)%nat }.

Lemma slot_calm k σ σ' : calm σ σ' -> slot k σ' = slot k σ.
Proof. intros (Ha & Hc & _). unfold slot. by rewrite Ha, Hc. Qed.

Lemma accounted_same ev evs own σ σ' : exec ev σ = Some σ' -> length (sems σ') = length (sems σ) ->
  accounted evs own σ -> accounted (evs ++ [ev]) own σ'.
Proof.
  intros Hs Hn [W O Hi Hm]. pose proof (caps_exec _ _ _ Hs) as Hc.
  assert (Hcaps : forall k s, upstream_caps σ' !! k = Some s -> upstream_caps σ !! k = Some s).
  { destruct ev; try (destruct Hc as [_ [(_ & -> & _)|[[k1 (_ & _ & Hlen & _)] _]]]; [done | lia]).
    - by destruct Hc as [(_ & -> & _) _].
    - destruct Hc as (_ & _ & k & [(_ & _ & ->)|(_ & _ & ->)]); [|done]. by intros k' s [_ ?]%lookup_delete_Some.
    - destruct Hc as (_ & -> & _). intros k s Hk. by rewrite lookup_empty in Hk. }
  split; [by eapply wf_exec | | by eapply idle_exec |].
  - apply (owned_exec own own ev σ); try done; [rewrite Hn; apply (owned_len _ _ O)|].
    intros k s Hk. by apply (owned_caps _ _ O), Hcaps.
  - intros k. specialize (Hm k). rewrite forgets_snoc.
    assert (Hplain : lock σ' = lock σ -> calm σ σ' -> (length (generations k own) + pending k σ' <= forgets k evs + 0 + slot k σ')%nat).
    { intros Hl Hcalm. rewrite (slot_calm _ _ _ Hcalm). unfold pending in *. rewrite Hl. lia. }
    destruct ev; try (destruct Hc as [Hl [Hcalm|[[k' (_ & _ & Hlen & _)] _]]]; [by apply Hplain | lia]).
    + destruct Hc as (Hcalm & Hl & Hl'). rewrite (slot_calm _ _ _ Hcalm). unfold pending in *. rewrite Hl'. rewrite Hl in Hm.
      destruct (decide (k0 = k)); lia.
    + destruct Hc as (_ & Ha & k' & [(Hl & Hl' & Hd)|(Hl & Hl' & Hd)]); unfold pending, slot in *; rewrite Hl', Ha, Hd; rewrite Hl in Hm.
      * destruct (alive σ); [|destruct (decide (k' = k)); lia]. destruct (decide (k' = k)) as [->|Hne].
        -- rewrite lookup_delete_eq. destruct (upstream_caps σ !! k); lia.
        -- rewrite lookup_delete_ne by done. lia.
      * lia.
    + destruct Hc as (_ & Hd & Ha & Hl & _). unfold pending, slot in *. rewrite Ha, Hl.
      destruct (lock σ) as [[k' []]|]; destruct (alive σ); try destruct (upstream_caps σ !! k); try destruct (decide (k' = k)); lia.
Qed.

Lemma accounted_made ev evs own σ σ' k : exec ev σ = Some σ' -> length (sems σ') = S (length (sems σ)) ->
  upstream_caps σ' !! k = Some (length (sems σ)) -> accounted evs own σ -> accounted (evs ++ [ev]) (own ++ [k]) σ'.
Proof.
  intros Hs Hn Hk [W O Hi Hm]. pose proof (caps_exec _ _ _ Hs) as Hc.
  assert (Hg : lock σ' = lock σ /\ grown k σ σ' /\ alive σ = true /\ forall k', (match ev with Forget k0 => if decide (k0 = k') then 1 else 0 | _ => 0 end = 0)%nat).
  { assert (Hmain : lock σ' = lock σ -> calm σ σ' \/ (exists k, grown k σ σ') /\ (alive σ = true \/ existsb in_call (clients σ) = true) ->
      lock σ' = lock σ /\ grown k σ σ' /\ alive σ = true).
    { intros Hl [(_ & _ & ?)|[[k' G] Ha]]; [lia|]. split; [done|]. split.
      - destruct G as (Hno & Hins & Hlen & Hal). rewrite Hins, lookup_insert in Hk. case_decide as E; [by subst k'|].
        apply (wf_caps _ W) in Hk. lia.
      - destruct Ha as [?|Ha]; [done|]. destruct (alive σ) eqn:E; [done|]. by rewrite Hi in Ha. }
    destruct ev; try (destruct Hc as [Hl Hc]; destruct (Hmain Hl Hc) as (? & ? & ?); by split_and!).
    - destruct Hc as [(_ & _ & ?) _]. lia.
    - destruct Hc as [? _]. lia.
    - destruct Hc as [? _]. lia. }
  destruct Hg as (Hl & (Hno & Hins & _ & Hal) & Ha & Hf). split; [by eapply wf_exec | | by eapply idle_exec |].
  - apply (owned_exec own (own ++ [k]) ev σ); try done; [by exists [k] | |].
    + rewrite length_app, (owned_len _ _ O). cbn. lia.
    + intros k' s. rewrite Hins, lookup_insert. case_decide as E; [intros [= <-]; subst k'; by rewrite <- (owned_len _ _ O), list_lookup_middle|].
      intros H%(owned_caps _ _ O). by apply lookup_app_l_Some.
  - intros k'. specialize (Hm k'). rewrite forgets_snoc, Hf, generations_snoc, length_app. unfold pending, slot in *.
    rewrite Hl, Hal, Ha, Hins. rewrite Ha in Hm. destruct (decide (k = k')) as [->|Hne]; cbn.
    + rewrite lookup_insert_eq. rewrite Hno in Hm. lia.
    + rewrite lookup_insert_ne by done. lia.
Qed.

Lemma traced_accounted config max now evs own σ : traced (new config max now) evs own σ -> accounted evs own σ.
Proof.
  induction 1 as [|evs own σ ev σ' _ IH Hs Hn|evs own σ ev σ' k _ IH Hs Hn Hk]; [|by eapply accounted_same | by eapply accounted_made].
  split; [apply wf_new | | done |].
  - split; [done | | constructor | constructor]. intros k s Hk. cbn in Hk. by rewrite lookup_empty in Hk.
  - intros k. cbn. unfold pending, slot. cbn. rewrite lookup_empty. lia.
Qed.

Lemma sum_bound {A} (f : A -> nat) b l : (forall x, f x <= b)%nat -> (sum_list_with f l <= length l * b)%nat.
Proof. intros H. induction l as [|x l IH]; [done|]. cbn. specialize (H x). lia. Qed.

(** ** Properties *)

Lemma sum_zero {A} (f : A -> nat) l : (forall x, x ∈ l -> f x = 0%nat) -> sum_list_with f l = 0%nat.
Proof.
  induction l as [|a l IH]; intros H; [done|]. cbn. rewrite H by by left. rewrite IH; [done|].
  intros x Hx. apply H. by right.
Qed.

(** C25: The pool's books always balance. Whatever callers, refill tasks, [forget] and
    cancellations do, in whatever order: the free permits of every semaphore, those of the
    spares and refill connects, and those the callers hold add up to the cap, so no path
    leaks a permit or makes one; a refill task keeps, and a caller about to open a socket
    has just taken, a permit of that very upstream; and the permits of an upstream that
    are out are at most the cap, and at most the cap once more for every time the upstream
    was forgotten: [forget] drops the semaphore with its permits still out, and the next
    caller gets a fresh one. So sockets that count never exceed the cap between forgets
    (those [checkout_unguarded] gave away have returned their permit and do not count).
    Once the callers have finished and the tasks have ended, every permit is free again. *)
Theorem pool_accounting config max now evs own σ :
  traced (new config max now) evs own σ ->
  (forall s, available s σ + warm s σ + taken s σ = Nat.max max 1)%nat /\
  (forall x, x ∈ endpoints σ -> Forall (fun p => own !! p = Some (t_key (task x))) (endpoint_permits x)) /\
  (forall c k, c ∈ clients σ -> pc c = Dialing k -> exists p rest, held c = p :: rest /\ own !! p = Some k) /\
  (forall k, length (generations k own) <= S (forgets k evs) /\ out k own σ <= S (forgets k evs) * Nat.max max 1)%nat /\
  (Forall (fun c => pc c = Done) (clients σ) -> Forall (fun x => phase (task x) = Ended) (endpoints σ) ->
   forall s, available s σ = Nat.max max 1).
Proof.
  intros Htr. pose proof (traced_reachable _ _ _ _ Htr) as Hr. pose proof (traced_accounted _ _ _ _ _ _ Htr) as [W O Hidle Hmade].
  pose proof (reachable_max _ _ _ _ Hr) as Hmax.
  assert (H : forall s, (available s σ + warm s σ + taken s σ = Nat.max max 1)%nat).
  { intros s. pose proof (reachable_owes _ _ _ _ Hr s) as H. rewrite Hmax in H. unfold balance in H.
    change (cnt s []) with 0%nat in H. lia. }
  split; [done|]. split; [|split; [|split]].
  - intros x Hx. pose proof (proj1 (Forall_forall _ _) (wf_endpoints _ W) _ Hx) as (_ & Hp & _).
    pose proof (proj1 (Forall_forall _ _) (owned_tasks _ _ O) _ Hx) as Ho. eapply Forall_impl; [exact Hp|]. by intros p <-.
  - intros c k Hc Hpc. pose proof (proj1 (Forall_forall _ _) (owned_clients _ _ O) _ Hc) as Ho. unfold client_owned in Ho.
    by rewrite Hpc in Ho.
  - intros k. specialize (Hmade k). assert (Hslot : (slot k σ <= 1)%nat) by (unfold slot; destruct (alive σ), (upstream_caps σ !! k); lia).
    assert (Hg : (length (generations k own) <= S (forgets k evs))%nat) by lia. split; [done|].
    etrans; [apply (sum_bound _ (Nat.max max 1)); intros s; specialize (H s); lia | by apply Nat.mul_le_mono_r].
  - intros Hdone Hended s. assert (Hw : warm s σ = 0%nat).
    { apply sum_zero. intros x Hx. pose proof (proj1 (Forall_forall _ _) Hended _ Hx) as Hph. cbn in Hph.
      apply list_elem_of_lookup_1 in Hx as [e Hx].
      destruct (reachable_drained _ _ _ _ Hr e x (fun f => f) Hx Hph) as [(c & Hc & Hp)%existsb_exists|Hq].
      - apply list_elem_of_In in Hc. pose proof (proj1 (Forall_forall _ _) Hdone _ Hc) as Hpc. cbn in Hpc.
        unfold pops_from in Hp. by rewrite Hpc in Hp.
      - unfold endpoint_permits. by rewrite Hq, Hph. }
    assert (Ht : taken s σ = 0%nat).
    { apply sum_zero. intros c Hc. pose proof (proj1 (Forall_forall _ _) Hdone _ Hc) as Hpc. cbn in Hpc.
      pose proof (proj1 (Forall_forall _ _) (reachable_clients _ _ _ _ Hr) _ Hc) as Hok.
      unfold client_ok in Hok. unfold client_permits. rewrite Hpc in *. by rewrite Hok. }
    specialize (H s). lia.
Qed.

(** The only error a caller's own steps give is the cap's. *)
Lemma client_step_refused dead i σ σ' c c' e : client_step dead i σ = Some σ' ->
  clients σ !! i = Some c -> failed c = None -> clients σ' !! i = Some c' -> failed c' = Some e ->
  exists fresh k s, pc c = Retrying fresh k s /\ e = AtCapacityError (mkAtCapacity k.1 k.2) /\
    try_acquire s σ = None.
Proof.
  unfold client_step. intros Hs Hc Hf Hc' He. rewrite Hc in Hs. cbn [mbind option_bind] in Hs.
  assert (Hlen : (i < length (clients σ))%nat) by by eapply lookup_lt_Some.
  assert (Hput : forall d σ1, clients σ1 = clients σ -> clients σ' = clients (put_client i d σ1) -> failed d = None -> False).
  { intros d σ1 Hcl Heq Hd. rewrite Heq in Hc'. cbn in Hc'.
    rewrite list_lookup_insert_eq in Hc' by (by rewrite Hcl). congruence. }
  assert (Hnext : forall d, failed (next_node d) = failed d) by (intros d; unfold next_node; by destruct (inner d)).
  assert (Hgr : forall f k p, failed (granted f k p c) = None).
  { intros f k p. unfold granted. destruct f; [done|]. by rewrite Hnext. }
  destruct (pc c) eqn:Hpc; try done.
  - exfalso. destruct (negb _); [|destruct (pools σ !! k)]; injection Hs as <-; (eapply Hput; [..|done|]; [done|]); by destruct w.
  - exfalso. destruct (pop_spare e0 σ) as [[pw σ1]|] eqn:Hpop; [destruct (_ && _)|]; injection Hs as <-.
    + eapply Hput; [by eapply clients_pop | apply clients_collect |]. destruct w; [by cbn; rewrite Hnext | done | done].
    + eapply Hput; [by eapply clients_pop | done | done].
    + eapply Hput; [apply clients_notify | apply clients_collect | by destruct w].
  - exfalso. injection Hs as <-. eapply Hput; [done | apply release_parts | done].
  - exfalso. pose proof (clients_upstream k σ) as Hcl. destruct (upstream_semaphore k σ) as [s σ1].
    injection Hs as <-. by eapply Hput.
  - exfalso. destruct (try_acquire s σ) as [σ1|] eqn:Ht; injection Hs as <-; [|by eapply Hput].
    eapply Hput; [by eapply clients_take | done | apply Hgr].
  - exfalso. destruct (pools σ !! k ≫= _) as [[pw σ1]|] eqn:Hpop; injection Hs as <-; [|by eapply Hput].
    apply bind_Some in Hpop as (e' & _ & Hpop). eapply Hput; [by eapply clients_pop | done | apply Hgr].
  - destruct (try_acquire s σ) as [σ1|] eqn:Ht; injection Hs as <-.
    + exfalso. eapply Hput; [by eapply clients_take | done | apply Hgr].
    + exists fresh, k, s. split_and!; [done| |done]. cbn in Hc'. rewrite list_lookup_insert_eq in Hc' by done.
      injection Hc' as <-. cbn in He. congruence.
  - exfalso. destruct (held c); injection Hs as <-; [by eapply Hput|]. eapply Hput; [done | apply release_parts | done].
Qed.

(** A caller is refused only when the upstream is full: the one error a caller's own
    steps can give is [AtCapacity], naming the upstream it asked for, and at that moment
    every permit of that upstream's cap is out, with a spare, a refill connect or a
    caller. A refused caller of a chain gives back what it had reserved before. *)
Theorem pool_refusal config max now σ σ' i dead c c' e :
  reachable (new config max now) σ -> exec (Run i dead) σ = Some σ' ->
  clients σ !! i = Some c -> failed c = None -> clients σ' !! i = Some c' -> failed c' = Some e ->
  exists fresh k s, pc c = Retrying fresh k s /\ e = AtCapacityError (mkAtCapacity k.1 k.2) /\
    (warm s σ + taken s σ = Nat.max max 1)%nat /\ pc c' = Dropping /\ held c' = held c.
Proof.
  intros Hr Hs Hc Hf Hc' He. cbn [exec] in Hs.
  destruct (client_step_refused _ _ _ _ _ _ _ Hs Hc Hf Hc' He) as (fresh & k & s & Hpc & -> & Ht).
  exists fresh, k, s. split; [done|]. split; [done|]. split.
  - pose proof (Forall_lookup_1 _ _ _ _ (reachable_clients _ _ _ _ Hr) Hc) as Hok.
    unfold client_ok in Hok. rewrite Hpc in Hok. apply lookup_lt_is_Some in Hok as [n Hn].
    pose proof (reachable_owes _ _ _ _ Hr s) as H.
    rewrite (reachable_max _ _ _ _ Hr) in H. change (cnt s []) with 0%nat in H.
    unfold try_acquire in Ht. unfold balance, available in H. rewrite Hn in Ht, H.
    destruct n; [lia|done].
  - unfold client_step in Hs. rewrite Hc in Hs. cbn [mbind option_bind] in Hs. rewrite Hpc, Ht in Hs.
    injection Hs as <-. cbn in Hc'. rewrite list_lookup_insert_eq in Hc' by (by eapply lookup_lt_Some).
    by injection Hc' as <-.
Qed.

(** The lifecycle of an endpoint is consistent whatever races. At any moment at most
    one refill task per upstream can still be aborted, and it is the registered one: no
    late registration ever detaches a task. A queue callers can find has its task
    registered and counts on the very semaphore callers of that upstream use; it never
    holds more than its target, which is at least one and at most the cap; and the
    backoff of a task stays between a tenth of a second and ten seconds. *)
Theorem pool_endpoints config max now σ :
  reachable (new config max now) σ ->
  (forall e1 e2 x1 x2, endpoints σ !! e1 = Some x1 -> endpoints σ !! e2 = Some x2 ->
     aborted (task x1) = false -> aborted (task x2) = false -> t_key (task x1) = t_key (task x2) -> e1 = e2) /\
  (forall e x, endpoints σ !! e = Some x -> aborted (task x) = false ->
     refill_tasks σ !! t_key (task x) = Some e) /\
  (forall k e, pools σ !! k = Some e -> refill_tasks σ !! k = Some e /\
     exists x, endpoints σ !! e = Some x /\ t_key (task x) = k /\ aborted (task x) = false /\
       phase (task x) <> Ended /\ upstream_caps σ !! k = Some (t_sem (task x))) /\
  Forall (fun x => Forall (eq (t_sem (task x))) (endpoint_permits x) /\
    (length (queue (spares x)) <= t_target (task x))%nat /\ (1 <= t_target (task x) <= Nat.max max 1)%nat /\
    BACKOFF_MIN <= backoff (task x) <= BACKOFF_MAX) (endpoints σ).
Proof.
  intros Hr. pose proof (reachable_wf _ _ _ _ Hr) as W. destruct W as [Wm Wp Wt Wl Wk Wc We].
  rewrite (reachable_max _ _ _ _ Hr) in We. split_and!.
  - intros e1 e2 x1 x2 H1 H2 A1 A2 Hk. pose proof (Wl _ _ H1 A1) as R1. pose proof (Wl _ _ H2 A2) as R2.
    rewrite Hk in R1. congruence.
  - done.
  - intros k e Hp. destruct (Wp _ _ Hp) as (Hreg & x & Hx & Hcap). split; [done|]. exists x.
    destruct (Wt _ _ Hreg) as ((x' & Hx' & Hk & Ha) & _). rewrite Hx in Hx'. injection Hx' as <-.
    split_and!; try done. intros Hph. pose proof (Forall_lookup_1 _ _ _ _ We Hx) as [Hok _].
    rewrite (Hok Hph) in Ha. done.
  - eapply Forall_impl; [exact We|]. intros x (_ & Hp & Hl & Hc & Ht & Hb). split_and!; try done; lia.
Qed.

(** ** Witnesses *)

Lemma run_reachable evs : forall σ0 σ σ', reachable σ0 σ -> run evs σ = Some σ' -> reachable σ0 σ'.
Proof.
  unfold run. induction evs as [|ev evs IH]; intros σ0 σ σ' Hr; cbn [foldl].
  - by intros [= <-].
  - cbn [mbind option_bind]. destruct (exec ev σ) as [σ1|] eqn:Hs.
    + apply IH. by eapply reach_step.
    + intros H. exfalso. revert H. clear. induction evs; [done|]. exact IHevs.
Qed.

Definition demo_key : Key := (lit "proxy.example", 1080).
Definition demo_pool : t := new (mkPoolConfig true 1 30) 2 0.
(** One spare is connected and taken, a second socket is dialed, a third caller asks. *)
Definition demo_schedule : list Event :=
  [SpawnRefill demo_key; Refill 0; Refill 0; Refill 0; Connected 0 true; Refill 0;
   Acquire demo_key []; Run 0 false; Run 0 false; Notified 0; Refill 0;
   Acquire demo_key []; Run 1 false; Run 1 false; Run 1 false; Run 1 false; Dialed 1 None;
   Acquire demo_key []; Run 2 false; Run 2 false; Run 2 false; Run 2 false; Run 2 false].
Definition demo_full : t := default demo_pool (run demo_schedule demo_pool).
Definition demo_refused : t := default demo_pool (exec (Run 2 false) demo_full).

Lemma demo_full_reachable : reachable demo_pool demo_full.
Proof. apply (run_reachable demo_schedule _ demo_pool); [constructor | vm_compute; reflexivity]. Qed.

(** The history of a schedule. *)
Fixpoint owners (evs : list Event) (σ : t) (own : list Key) : option (list Key * t) :=
  match evs with
  | [] => Some (own, σ)
  | ev :: evs =>
      σ' ← exec ev σ;
      let grew := (length (sems σ') =? S (length (sems σ)))%nat in
      match List.find (fun kv => (kv.2 =? length (sems σ))%nat) (map_to_list (upstream_caps σ')) with
      | Some (k, _) => owners evs σ' (if grew then own ++ [k] else own)
      | None => if grew then None else owners evs σ' own
      end
  end.

Lemma owners_traced evs : forall σ0 pre own σ own' σ', traced σ0 pre own σ ->
  owners evs σ own = Some (own', σ') -> traced σ0 (pre ++ evs) own' σ'.
Proof.
  induction evs as [|ev evs IH]; intros σ0 pre own σ own' σ' Htr; cbn [owners].
  { intros [= <- <-]. by rewrite app_nil_r. }
  destruct (exec ev σ) as [σ1|] eqn:Hs; cbn [mbind option_bind]; [|done].
  replace (pre ++ ev :: evs) with ((pre ++ [ev]) ++ evs) by (by rewrite <- app_assoc).
  destruct (Nat.eqb_spec (length (sems σ1)) (S (length (sems σ)))) as [Hn|Hn].
  - destruct (List.find _ _) as [[k s]|] eqn:E; [|done]. apply List.find_some in E as [Hin He%Nat.eqb_eq].
    cbn in He. subst s. apply list_elem_of_In, elem_of_map_to_list in Hin. intros Hrun. eapply IH; [|exact Hrun].
    by eapply traced_made.
  - assert (Hsame : length (sems σ1) = length (sems σ)) by (destruct (caps_made _ _ _ Hs) as [?|[k (_ & _ & ? & _)]]; lia).
    destruct (List.find _ _) as [[k s]|]; intros Hrun; (eapply IH; [|exact Hrun]); by eapply traced_step.
Qed.

Lemma demo_full_traced : traced demo_pool demo_schedule [demo_key] demo_full.
Proof. apply (owners_traced demo_schedule demo_pool [] [] demo_pool); [constructor | vm_compute; reflexivity]. Qed.

Lemma pool_accounting_witness :
  (available 0 demo_full + warm 0 demo_full + taken 0 demo_full = 2)%nat /\ taken 0 demo_full = 2%nat /\
  (out demo_key [demo_key] demo_full <= 1 * 2)%nat.
Proof.
  destruct (pool_accounting (mkPoolConfig true 1 30) 2 0 demo_schedule [demo_key] demo_full demo_full_traced) as (H & _ & _ & Hk & _).
  split; [exact (H 0%nat)|]. split; [vm_compute; reflexivity|]. exact (proj2 (Hk demo_key)).
Defined.

(** The bound is met: an upstream with a cap of one, forgotten with its socket open, has
    two permits out once a second caller has dialed. *)
Definition demo_forgotten : list Event :=
  [Reserve demo_key; Run 0 false; Run 0 false; Forget demo_key; ForgetNext; ForgetNext;
   Acquire demo_key []; Run 1 false; Run 1 false; Run 1 false; Dialed 1 None].
Example pool_forget_exceeds :
  option_map (fun r => (r.1, out demo_key r.1 r.2)) (owners demo_forgotten (new (mkPoolConfig true 1 30) 1 0) []) =
  Some ([demo_key; demo_key], 2%nat).
Proof. vm_compute. reflexivity. Qed.

(** A socket that [checkout_unguarded] gave away does not count: with a cap of one a
    second one is dialed while the first is with its caller. *)
Definition demo_unguarded : list Event :=
  [SpawnRefill demo_key; Refill 0; Refill 0; Refill 0; Connected 0 true; Refill 0;
   CheckoutUnguarded demo_key; Run 0 false; Run 0 false; Run 0 false; Run 0 false;
   Acquire demo_key []; Run 1 false; Run 1 false; Run 1 false; Run 1 false; Dialed 1 None].
Example pool_unguarded_exceeds :
  option_map (fun r => (map pc (clients r.2), out demo_key r.1 r.2)) (owners demo_unguarded (new (mkPoolConfig true 1 30) 1 0) []) =
  Some ([Done; Open], 1%nat).
Proof. vm_compute. reflexivity. Qed.

Lemma pool_refusal_witness :
  exists c, clients demo_refused !! 2%nat = Some c /\
    failed c = Some (AtCapacityError (mkAtCapacity (lit "proxy.example") 1080)) /\
    (warm 0 demo_full + taken 0 demo_full = 2)%nat.
Proof.
  eexists. split; [vm_compute; reflexivity|].
  destruct (pool_refusal (mkPoolConfig true 1 30) 2 0 demo_full demo_refused 2 false
    (mkClient (Retrying true demo_key 0) [] [] None)
    (mkClient Dropping [] [] (Some (AtCapacityError (mkAtCapacity (lit "proxy.example") 1080))))
    (AtCapacityError (mkAtCapacity (lit "proxy.example") 1080)))
    as (fresh & k & s & Hpc & He & Hfull & _).
  - apply demo_full_reachable.
  - vm_compute. reflexivity.
  - vm_compute. reflexivity.
  - reflexivity.
  - vm_compute. reflexivity.
  - reflexivity.
  - injection Hpc as <- <- <-. split; [reflexivity | exact Hfull].
Defined.

Lemma pool_endpoints_witness :
  pools demo_full !! demo_key = Some 0%nat /\ refill_tasks demo_full !! demo_key = Some 0%nat.
Proof.
  assert (Hp : pools demo_full !! demo_key = Some 0%nat) by (vm_compute; reflexivity).
  split; [exact Hp|].
  destruct (pool_endpoints (mkPoolConfig true 1 30) 2 0 demo_full demo_full_reachable) as (_ & _ & H & _).
  apply (H _ _ Hp).
Defined.

End PoolProofs.
