(* ===== verification/PoolDial.v ===== *)
(** * PoolDial: connecting with sockets taken from a pool

    Model of the pool-backed entry points: [connect_proxy] and [connect_proxy_on]
    ([connect/proxy_connect/connect_proxy.rs]), the three protocol connectors
    beside it, and [connect_chain] ([connect/dial/chain_pool.rs]), against the
    interface a pool offers them ([PoolOps]).  The pool behind it is [Pool]. *)
From S2P Require Import Prelude Text HostPort ProxyTypes Errors Stream ChainPlan Upstream Dial.

Module PoolDial.
Import Stream Upstream Dial.

(** What a connector asks of a pool: a socket with its permit, or a permit alone. Only
    the cap makes [reserve_permit] fail, as [PoolProofs.pool_refusal] shows of the pool. *)
Class PoolOps (X : Type) := {
  acquire : ProxyConfig -> D ConnectError (conn X);
  reserve_permit : ProxyConfig -> D ConnectError unit;
  reserve_errors : forall proxy w e w', reserve_permit proxy w = (Err e, w') ->
    e = AtCapacityError (mkAtCapacity (host proxy) (port proxy)) }.

Section PoolDial.
Context {X : Type} `{PoolOps X}.
Variables (early_eof write_zero : IoError).
Variable encode64 : bytes -> bytes.
Variable pace : nat -> option N.
Variable valid_name : bytes -> bool.
Variable tls_connect : bytes -> conn X -> poll (result IoError unit) * conn X.

Abbreviation over_stream := (handshake_over_stream (X := X) early_eof write_zero).
Abbreviation run_http_tcp := (http_connect_on_tcp (X := X) early_eof write_zero encode64).
Abbreviation https_on := (https_on_stream (X := X) write_zero encode64 pace valid_name tls_connect).
Abbreviation run_hops := (run_chain_hops (X := X) early_eof write_zero encode64 pace valid_name tls_connect).
Abbreviation hop_on := (hop (X := X) early_eof write_zero encode64 pace valid_name tls_connect).
Abbreviation tunnels_through := (tunnels (X := X) early_eof write_zero encode64 tls_connect).

(** ** One upstream *)

Definition socks5_on_acquired (stream : conn X) (target_addr : bytes) (proxy : ProxyConfig)
    (handshake_timeout : Z) : D ConnectError (conn X) := fun w =>
  shake pace (now w + handshake_timeout) (timed_out proxy handshake_timeout Socks5Handshake)
    (over_stream target_addr (socks5_auth proxy)) stream w.

Definition http_on_acquired (stream : conn X) (target_addr : bytes) (proxy : ProxyConfig)
    (handshake_timeout : Z) : D ConnectError (conn X) := fun w =>
  shake pace (now w + handshake_timeout) (timed_out proxy handshake_timeout HttpHandshake)
    (run_http_tcp target_addr proxy) stream w.

Definition connect_socks5_proxy (target_addr : bytes) (proxy : ProxyConfig) (handshake_timeout : Z)
    : D ConnectError (conn X) :=
  stream ← acquire proxy; socks5_on_acquired stream target_addr proxy handshake_timeout.
Definition connect_http_proxy (target_addr : bytes) (proxy : ProxyConfig) (handshake_timeout : Z)
    : D ConnectError (conn X) :=
  stream ← acquire proxy; http_on_acquired stream target_addr proxy handshake_timeout.
Definition connect_https_proxy (target_addr : bytes) (proxy : ProxyConfig) (handshake_timeout : Z)
    : D ConnectError (conn X) :=
  stream ← acquire proxy; https_on target_addr proxy handshake_timeout stream.

Definition connect_proxy_on (stream : conn X) (target_addr : bytes) (proxy : ProxyConfig)
    (handshake_timeout : Z) (has_connector : bool) : D ConnectError (AnyUpstream (X := X)) :=
  _ ← lift (check_tls_slot proxy has_connector);
  match protocol proxy with
  | Socks5 => map_ok Plain (socks5_on_acquired stream target_addr proxy handshake_timeout)
  | Http => map_ok Plain (http_on_acquired stream target_addr proxy handshake_timeout)
  | Https => map_ok TlsUpstream (https_on target_addr proxy handshake_timeout stream)
  end.

(** An HTTPS upstream that cannot be served must not take a socket. *)
Definition connect_proxy (target_addr : bytes) (proxy : ProxyConfig) (handshake_timeout : Z)
    (has_connector : bool) : D ConnectError (AnyUpstream (X := X)) :=
  _ ← lift (check_tls_slot proxy has_connector);
  stream ← acquire proxy;
  connect_proxy_on stream target_addr proxy handshake_timeout has_connector.

(** ** A chain *)

(** A permit for every inner node, from node [i] on. *)
Fixpoint reserve_inner (i : nat) (ns : list ProxyConfig) : D ChainError unit :=
  match ns with
  | [] => mret tt
  | node :: rest =>
      _ ← map_error (mkChainError (SHop (i - 1))) (reserve_permit node);
      reserve_inner (S i) rest
  end.

Definition connect_chain (chain : ProxyConfig) (target_addr : bytes) (handshake_timeout : Z)
    (has_connector : bool) : D ChainError (AnyUpstream (X := X)) :=
  match HostPort.parse target_addr with
  | None => err (mkChainError STarget (InvalidTarget target_addr))
  | Some target =>
      let ns := nodes chain in
      _ ← lift (map_err (mkChainError SConnect) (check_tls ns has_connector));
      stream ← map_error (mkChainError SConnect) (acquire (hd chain ns));
      if (length ns =? 1)%nat then
        map_error (mkChainError STarget)
          (connect_proxy_on stream target_addr (hd chain ns) handshake_timeout has_connector)
      else
        _ ← reserve_inner 1 (tail ns);
        map_ok Gate (map_error as_chain_error
          (run_hops (fun _ => mret tt) 0 ns
             (HostPort.format (HostPort.host target) (HostPort.port target))
             handshake_timeout has_connector stream))
  end.

(** ** Where a chain fails *)

(** Every way a chain of at least two nodes can fail, in the order it is tried. *)
Inductive chain_fails (chain : ProxyConfig) (target_addr : bytes) (hs : Z) (has_connector : bool)
    : ChainError -> Prop :=
| BadTarget :
    HostPort.parse target_addr = None ->
    chain_fails chain target_addr hs has_connector (mkChainError STarget (InvalidTarget target_addr))
| NoTls t e :
    HostPort.parse target_addr = Some t -> check_tls (nodes chain) has_connector = Err e ->
    chain_fails chain target_addr hs has_connector (mkChainError SConnect e)
| FirstFails w e w' :
    check_tls (nodes chain) has_connector = Ok tt ->
    acquire (outermost chain) w = (Err e, w') ->
    chain_fails chain target_addr hs has_connector (mkChainError SConnect e)
| InnerFull k n :
    nodes chain !! S k = Some n ->
    chain_fails chain target_addr hs has_connector
      (mkChainError (SHop k) (AtCapacityError (mkAtCapacity (host n) (port n))))
| TunnelFails t k n c ck w e :
    HostPort.parse target_addr = Some t -> nodes chain !! k = Some n ->
    tunnels_through k (nodes chain) (HostPort.format (HostPort.host t) (HostPort.port t)) c ck ->
    (hop_on n (next_target (HostPort.format (HostPort.host t) (HostPort.port t)) (drop (S k) (nodes chain)))
       hs has_connector ck w).1 = Err e ->
    chain_fails chain target_addr hs has_connector (mkChainError (stage_at 0 k (nodes chain)) e).

Lemma reserve_inner_spec ns : forall i w e w', reserve_inner (S i) ns w = (Err e, w') ->
  exists k n, ns !! k = Some n /\
    e = mkChainError (SHop (i + k)) (AtCapacityError (mkAtCapacity (host n) (port n))).
Proof.
  induction ns as [|n ns IH]; intros i w e w'; cbn [reserve_inner]; [done|].
  unfold mbind, D_bind, map_error. destruct (reserve_permit n w) as [[[]|e1] w1] eqn:Hr; cbn [map_err].
  - intros Hrun. destruct (IH _ _ _ _ Hrun) as (k & n' & Hn & ->). exists (S k), n'. split; [done|].
    by rewrite Nat.add_succ_r.
  - intros [= <- <-]. apply reserve_errors in Hr as ->. exists 0%nat, n. split; [done|]. f_equal. f_equal. lia.
Qed.

(** The hops without a progress cell. *)
Lemma run_hops_result target hs tls ns : 0 <= hs -> forall i c w r w',
  run_hops (fun _ => mret tt) i ns target hs tls c w = (r, w') ->
  match r with
  | Ok c' => tunnels_through (length ns) ns target c c'
  | Err (st, e) => exists k n ck w1, ns !! k = Some n /\ st = stage_at i k ns /\
      tunnels_through k ns target c ck /\ (hop_on n (next_target target (drop (S k) ns)) hs tls ck w1).1 = Err e
  end.
Proof.
  intros Hs. induction ns as [|n rest IH]; intros i c w r w'; cbn [run_chain_hops]; [by intros [= <- <-]|].
  unfold mbind, D_bind, map_error, mret, D_ret.
  destruct (hop_on n _ hs tls c w) as [h w1] eqn:Eh.
  destruct (hop_spec early_eof write_zero encode64 pace valid_name tls_connect _ _ _ _ _ _ _ _ Eh Hs) as [_ Hspeak].
  destruct h as [c1|e]; cbn [map_err].
  - intros Hrun. specialize (IH (S i) c1 w1 r w' Hrun). specialize (Hspeak c1 eq_refl).
    destruct r as [c'|[st e]]; [by exists c1|]. destruct IH as (k & n' & ck & w2 & Hn & -> & Ht & He).
    exists (S k), n', ck, w2. rewrite stage_at_cons. split_and!; [done | done | by exists c1 | done].
  - intros [= <- <-]. exists 0%nat, n, c, w. change (drop 1 (n :: rest)) with rest. rewrite Eh.
    rewrite <- stage_of_at. by split_and!.
Qed.

(** How a pooled chain of at least two nodes fails. A bad target or a missing TLS
    connector fails before the pool is touched; then the outermost node's socket is
    acquired, then one permit for every inner node, outermost first, before a byte of
    any handshake: a full inner node [k + 1] is reported as hop [k] with the error that
    no health accounting counts against an upstream. A failed tunnel names its node,
    every node before it having granted its tunnel. *)
Theorem connect_chain_fails chain g target_addr hs tls w e w' :
  gate chain = Some g -> 0 <= hs ->
  connect_chain chain target_addr hs tls w = (Err e, w') ->
  chain_fails chain target_addr hs tls e.
Proof.
  intros Hg Hs. unfold connect_chain.
  destruct (HostPort.parse target_addr) as [t|] eqn:Hp; [|intros [= <- <-]; by apply BadTarget].
  unfold map_ok, map_error, lift, mbind, D_bind.
  destruct (check_tls (nodes chain) tls) as [[]|e0] eqn:Ht; cbn [map_err];
    [|intros [= <- <-]; by eapply NoTls].
  rewrite (first_node chain). destruct (acquire (outermost chain) w) as [[c|e0] w1] eqn:Ha; cbn [map_err];
    [|intros [= <- <-]; by eapply FirstFails].
  destruct (Nat.eqb_spec (length (nodes chain)) 1) as [Hl|_].
  { exfalso. rewrite <- chain_len_nodes, chain_len_eq, Hg in Hl. rewrite chain_len_eq in Hl. lia. }
  destruct (reserve_inner 1 (tail (nodes chain)) w1) as [[[]|e0] w2] eqn:Hr.
  - destruct (run_hops _ 0 (nodes chain) _ hs tls c w2) as [[c'|[st e0]] w3] eqn:Hrun; cbn [map_err as_chain_error fst snd];
      intros [= <- <-].
    apply run_hops_result in Hrun as (k & n & ck & w4 & Hn & -> & Htun & He); [|done].
    by eapply TunnelFails.
  - intros [= <- <-]. apply reserve_inner_spec in Hr as (k & n & Hn & ->). apply InnerFull.
    destruct (nodes chain); [done|]. exact Hn.
Qed.

End PoolDial.

(** ** Witness *)

(** A pool that has a socket for anyone and is full for one host. *)
#[local] Program Instance demo_pool_ops : PoolOps unit := {
  acquire _ := mret (mkConn [] Eof None []);
  reserve_permit p := fun w =>
    if bool_decide (host p = lit "exit.example")
    then (Err (AtCapacityError (mkAtCapacity (host p) (port p))), w) else (Ok tt, w) }.
Next Obligation. intros p w e w'. cbn. case_bool_decide; congruence. Defined.

Lemma connect_chain_fails_witness :
  chain_fails demo_io demo_io demo_encode demo_pace demo_names (fun _ c => (Ready (Ok tt), c))
    demo_chain (lit "a.b:443") (from_secs 10) false
    (mkChainError (SHop 0) (AtCapacityError (mkAtCapacity (lit "exit.example") 8080))).
Proof.
  eapply (connect_chain_fails demo_io demo_io demo_encode demo_pace demo_names (fun _ c => (Ready (Ok tt), c))
    demo_chain (with_auth (ProxyTypes.new Socks5 (lit "gate.example") 1080) (lit "u") (lit "pw"))
    (lit "a.b:443") (from_secs 10) false (mkWorld 0 0 [])).
  - reflexivity.
  - vm_compute. congruence.
  - vm_compute. reflexivity.
Defined.

End PoolDial.
