(* ===== verification/Hedged.v ===== *)
(** Hedged connecting: a race of connect attempts through candidate upstreams
    (src/crates/resocks5-net/src/connect/proxy_connect/hedged.rs).

    The coordinator and the attempts it spawns are interleaved one shared access at a
    time; what the pool and the upstreams answer, panics, the clock and the drop of the
    future are events. [history] is what the target sees.

    - the target never sees two CONNECTs at once, nor one after a success
      ([hedged_exclusive]), which makes a late success impossible;
    - every launched attempt is reported exactly once ([hedged_reports]);
    - what is returned is what happened ([hedged_result]);
    - attempts are launched in order, the next one beside others only at a tick that finds
      nobody talking to the target ([hedged_launches]);
    - the race ends ([hedged_ends]). *)
From S2P Require Import Prelude ProxyTypes Errors.

Module Hedged.

(** ** Options *)

Record HedgeOptions := mkHedgeOptions { hedge_delay : Z; handshake_timeout : Z }.
Definition default_options : HedgeOptions := mkHedgeOptions (from_secs 2) (from_secs 10).
Definition with_hedge_delay (d : Z) (o : HedgeOptions) : HedgeOptions :=
  mkHedgeOptions d (handshake_timeout o).
Definition with_handshake_timeout (d : Z) (o : HedgeOptions) : HedgeOptions :=
  mkHedgeOptions (hedge_delay o) d.

Section Race.
(** The established streams. *)
Context {U : Type}.

(** ** Data *)

Inductive AttemptOutcome := Won | LateSuccess | Lost | FailedWith (e : ConnectError).
Record AttemptReport := mkReport {
  r_index : nat; r_proxy : ProxyConfig; r_elapsed : Z; r_outcome : AttemptOutcome; after_win : bool
}.
Record Hedged := mkHedged { stream : U; winner : nat }.
Record HedgeError := mkHedgeError { attempts : nat; last : option ConnectError }.

Inductive AttemptFailure := FLost | FFailed (e : ConnectError).
Record Finished := mkFinished { f_index : nat; f_result : result AttemptFailure U; f_elapsed : Z }.

(** Where an attempt is: waiting for the pool; with a socket, before the first look at
    [won]; before the lock; in the lock's queue (or just granted it); talking to its
    upstream; about to drop the guard; finished ([None]: it panicked). *)
Inductive Phase :=
| Acquiring | Acquired | Admitting | Queued | Handshaking
| Releasing (r : result ConnectError U)
| Ended (f : option Finished).
Record Task := mkTask { t_started : Z; t_phase : Phase }.

(** What happens between attempts and the target. *)
Inductive Mark := Began (i : nat) | Succeeded (i : nat) | GaveUp (i : nat) | Stopped (i : nat).

(** [RaceState]; the mutex hands itself to its waiters first come first served. *)
Record RaceState := mkRaceState {
  won : bool; slot : option nat; queue : list nat; history : list Mark
}.

Inductive Coord := Looping | Returned (r : result HedgeError Hedged) | Dropped.

Record Race := mkRace {
  race : RaceState;
  pending : list (nat * ProxyConfig);
  running : gmap nat Task;                  (* the JoinSet *)
  launched : list ProxyConfig;
  last_error : option ConnectError;
  hedge_at : option Z;
  clock : Z;
  reports : list AttemptReport;             (* the callback's calls *)
  coord : Coord
}.

(** ** An attempt *)

Definition set_won (s : RaceState) : RaceState := mkRaceState true (slot s) (queue s) (history s).
Definition note (m : Mark) (s : RaceState) : RaceState :=
  mkRaceState (won s) (slot s) (queue s) (history s ++ [m]).
Definition lock (i : nat) (s : RaceState) : RaceState :=
  match slot s with
  | None => mkRaceState (won s) (Some i) (queue s) (history s)
  | Some _ => mkRaceState (won s) (slot s) (queue s ++ [i]) (history s)
  end.
Definition unlock (s : RaceState) : RaceState :=
  mkRaceState (won s) (head (queue s)) (tail (queue s)) (history s).

(** What the environment lets an attempt do. *)
Inductive Stimulus := Acquire (r : result ConnectError unit) | Poll | Shake (r : result ConnectError U) | Panic.

(** One step of [attempt], inside the closure that [launch] spawns. *)
Definition attempt (i : nat) (e : Stimulus) (elapsed : Z) (s : RaceState) (p : Phase)
    : option (RaceState * Phase) :=
  let finish (r : result AttemptFailure U) := Ended (Some (mkFinished i r elapsed)) in
  match p, e with
  | Acquiring, Acquire (Err err) => Some (s, finish (Err (FFailed err)))
  | Acquiring, Acquire (Ok _) => Some (s, Acquired)
  | Acquired, Poll => Some (s, if won s then finish (Err FLost) else Admitting)
  | Admitting, Poll => Some (lock i s, Queued)
  | Queued, Poll =>
      if bool_decide (slot s = Some i) then
        if won s then Some (unlock s, finish (Err FLost))
        else Some (note (Began i) s, Handshaking)
      else None
  | Handshaking, Shake (Ok u) => Some (set_won (note (Succeeded i) s), Releasing (Ok u))
  | Handshaking, Shake (Err err) => Some (note (GaveUp i) s, Releasing (Err err))
  | Releasing r, Poll => Some (unlock s, finish (map_err FFailed r))
  | Acquiring, Panic => Some (note (Stopped i) s, Ended None)
  | Handshaking, Panic => Some (unlock (note (Stopped i) s), Ended None)
  | _, _ => None
  end.

(** ** The coordinator *)

Definition hedge_deadline (o : HedgeOptions) (pending_len : nat) (now : Z) : option Z :=
  if (hedge_delay o =? 0) || (pending_len =? 0)%nat then None else instant_checked_add now (hedge_delay o).

Definition launch (i : nat) (p : ProxyConfig) (rest : list (nat * ProxyConfig)) (c : Race) : Race :=
  mkRace (race c) rest (<[i := mkTask (clock c) Acquiring]> (running c)) (launched c ++ [p])
    (last_error c) (hedge_at c) (clock c) (reports c) (coord c).

Definition set_race (s : RaceState) (c : Race) : Race :=
  mkRace s (pending c) (running c) (launched c) (last_error c) (hedge_at c) (clock c) (reports c) (coord c).
Definition set_running (m : gmap nat Task) (c : Race) : Race :=
  mkRace (race c) (pending c) m (launched c) (last_error c) (hedge_at c) (clock c) (reports c) (coord c).
Definition set_last (e : ConnectError) (c : Race) : Race :=
  mkRace (race c) (pending c) (running c) (launched c) (Some e) (hedge_at c) (clock c) (reports c) (coord c).
Definition set_hedge_at (t : option Z) (c : Race) : Race :=
  mkRace (race c) (pending c) (running c) (launched c) (last_error c) t (clock c) (reports c) (coord c).
Definition set_clock (t : Z) (c : Race) : Race :=
  mkRace (race c) (pending c) (running c) (launched c) (last_error c) (hedge_at c) t (reports c) (coord c).
Definition callback (r : AttemptReport) (c : Race) : Race :=
  mkRace (race c) (pending c) (running c) (launched c) (last_error c) (hedge_at c) (clock c) (reports c ++ [r]) (coord c).
Definition set_coord (k : Coord) (c : Race) : Race :=
  mkRace (race c) (pending c) (running c) (launched c) (last_error c) (hedge_at c) (clock c) (reports c) k.

(** The top of the loop. *)
Definition top (o : HedgeOptions) (c : Race) : Race :=
  if bool_decide (running c = ∅) then
    match pending c with
    | [] => set_coord (Returned (Err (mkHedgeError (length (launched c)) (last_error c)))) c
    | (i, p) :: rest =>
        let c := launch i p rest c in set_hedge_at (hedge_deadline o (length rest) (clock c)) c
    end
  else c.

Definition enumerate (ps : list ProxyConfig) : list (nat * ProxyConfig) := zip (seq 0 (length ps)) ps.

Definition connect_hedged (o : HedgeOptions) (candidates : list ProxyConfig) (now : Z) : Race :=
  let c := mkRace (mkRaceState false None [] []) (enumerate candidates) ∅ [] None None now [] Looping in
  match candidates with
  | [] => set_coord (Returned (Err (mkHedgeError 0 None))) c
  | _ => top o c
  end.

(** [join_next], in the loop. *)
Definition joined (o : HedgeOptions) (proxy : ProxyConfig) (f : Finished) (c : Race) : Race :=
  let report out after := mkReport (f_index f) proxy (f_elapsed f) out after in
  match f_result f with
  | Ok s =>
      set_coord (Returned (Ok (mkHedged s (f_index f)))) (callback (report Won false) (set_race (set_won (race c)) c))
  | Err (FFailed err) => top o (set_last err (callback (report (FailedWith err) false) c))
  | Err FLost => top o (callback (report Lost (won (race c))) c)
  end.

(** [report], in the drain. *)
Definition drained (proxy : ProxyConfig) (f : Finished) (after : bool) (c : Race) : Race :=
  let out :=
    match f_result f with
    | Ok _ => if after then LateSuccess else Won
    | Err FLost => Lost
    | Err (FFailed err) => FailedWith err
    end in
  callback (mkReport (f_index f) proxy (f_elapsed f) out after) c.

(** A dropped JoinSet aborts its tasks, each at its next await. *)
Definition leave (i : nat) (s : RaceState) : RaceState :=
  if bool_decide (slot s = Some i) then unlock s
  else mkRaceState (won s) (slot s) (List.filter (fun j => negb (bool_decide (j = i))) (queue s)) (history s).

Inductive Event :=
| OfAttempt (i : nat) (e : Stimulus) | Join (i : nat) | Tick | Advance (d : Z) | Abandon | Abort (i : nat).

Definition step (o : HedgeOptions) (c : Race) (e : Event) : option Race :=
  match e with
  | OfAttempt i e =>
      t ← running c !! i;
      '(s, p) ← attempt i e (saturating_duration_since (clock c) (t_started t)) (race c) (t_phase t);
      Some (set_running (<[i := mkTask (t_started t) p]> (running c)) (set_race s c))
  | Join i =>
      t ← running c !! i;
      match t_phase t with
      | Ended f =>
          let c' := set_running (delete i (running c)) c in
          match coord c, f with
          | Looping, None => Some (top o c')
          | Looping, Some f => proxy ← launched c !! f_index f; Some (joined o proxy f c')
          | Returned _, None => Some c'
          | Returned _, Some f => proxy ← launched c !! f_index f; Some (drained proxy f true c')
          | Dropped, _ => None
          end
      | _ => None
      end
  | Tick =>
      match coord c, hedge_at c with
      | Looping, Some at_ =>
          if negb (hedge_delay o =? 0) && (0 <? length (pending c))%nat && (at_ <=? clock c) then
            let c := set_hedge_at (hedge_deadline o (length (pending c)) (clock c)) c in
            match slot (race c), pending c with
            | None, (i, p) :: rest => Some (launch i p rest c)
            | _, _ => Some c
            end
          else None
      | _, _ => None
      end
  | Advance d => if 0 <=? d then Some (set_clock (clock c + d) c) else None
  | Abandon =>
      match coord c with
      | Looping => Some (set_coord Dropped c)
      | _ => None
      end
  | Abort i =>
      match coord c, running c !! i with
      | Dropped, Some t =>
          match t_phase t with
          | Ended _ => None
          | _ => Some (set_running (delete i (running c)) (set_race (leave i (note (Stopped i) (race c))) c))
          end
      | _, _ => None
      end
  end.

(** Events that cannot happen are skipped. *)
Definition run (o : HedgeOptions) (es : list Event) (c : Race) : Race :=
  foldl (fun c e => default c (step o c e)) c es.

(** ** What the target sees *)

(** Whom the target is being talked to by, and whether it has said yes; [None]: two at
    once, or one after a success. *)
Definition watch (w : option (option nat * bool)) (m : Mark) : option (option nat * bool) :=
  match w with
  | None => None
  | Some (cur, ok) =>
      match m with
      | Began i => if bool_decide (cur = None) && negb ok then Some (Some i, ok) else None
      | Succeeded i => if bool_decide (cur = Some i) && negb ok then Some (None, true) else None
      | GaveUp i => if bool_decide (cur = Some i) then Some (None, ok) else None
      | Stopped i => Some (if bool_decide (cur = Some i) then None else cur, ok)
      end
  end.
Definition watched (h : list Mark) : option (option nat * bool) := foldl watch (Some (None, false)) h.

Lemma watched_snoc h m : watched (h ++ [m]) = watch (watched h) m.
Proof. unfold watched. by rewrite foldl_app. Qed.

Lemma watched_won h cur ok : watched h = Some (cur, ok) -> (ok = true <-> exists i, Succeeded i ∈ h).
Proof.
  revert cur ok. induction h as [|m h IH] using rev_ind; intros cur ok.
  - cbn. intros [= <- <-]. split; [done|]. intros [i Hi]. by apply elem_of_nil in Hi.
  - rewrite watched_snoc. destruct (watched h) as [[c b]|]; [|done]. cbn.
    assert (Hold : b = true <-> exists i, Succeeded i ∈ h) by (by eapply IH).
    assert (Hex : (exists i, Succeeded i ∈ h ++ [m]) <-> (exists i, Succeeded i ∈ h) \/ exists i, m = Succeeded i).
    { setoid_rewrite elem_of_app. setoid_rewrite list_elem_of_singleton. naive_solver. }
    rewrite Hex. destruct m; cbn.
    + destruct (bool_decide (c = None) && negb b); [|done]. intros [= <- <-]. naive_solver.
    + destruct (bool_decide (c = Some i) && negb b); [|done]. intros [= <- <-]. naive_solver.
    + destruct (bool_decide (c = Some i)); [|done]. intros [= <- <-]. naive_solver.
    + intros [= <- <-]. naive_solver.
Qed.

(** There is one success at most. *)
Lemma watched_once h i j : watched h <> None -> Succeeded i ∈ h -> Succeeded j ∈ h -> i = j.
Proof.
  induction h as [|m h IH] using rev_ind; [by intros _ ?%elem_of_nil|].
  rewrite watched_snoc. destruct (watched h) as [[c b]|] eqn:E; [|done].
  pose proof (watched_won h c b E) as Hw. rewrite !elem_of_app, !list_elem_of_singleton.
  intros Hne [Hi|<-] [Hj|Hj]; [by apply IH | | | congruence].
  - subst m. exfalso. cbn in Hne. assert (b = true) as -> by (apply Hw; eauto).
    by rewrite andb_false_r in Hne.
  - exfalso. cbn in Hne. assert (b = true) as -> by (apply Hw; eauto). by rewrite andb_false_r in Hne.
Qed.

(** ** Where the lock is *)

Definition phase_ok (i : nat) (p : Phase) (s : RaceState) : Prop :=
  match p with
  | Acquiring | Acquired | Admitting => slot s <> Some i /\ i ∉ queue s
  | Queued => slot s = Some i /\ i ∉ queue s \/ slot s <> Some i /\ i ∈ queue s
  | Handshaking | Releasing (Err _) => slot s = Some i /\ i ∉ queue s
  | Releasing (Ok _) => slot s = Some i /\ i ∉ queue s /\ Succeeded i ∈ history s
  | Ended f => slot s <> Some i /\ i ∉ queue s /\
      match f with
      | None => Stopped i ∈ history s
      | Some f => f_index f = i /\
          match f_result f with
          | Ok _ => Succeeded i ∈ history s
          | Err FLost => won s = true
          | Err (FFailed _) => True
          end
      end
  end.

(** The lock's holder and waiters are attempts that run; a free lock has no waiters. *)
Record lock_ok (m : gmap nat Task) (s : RaceState) : Prop := {
  l_phase : forall i t, m !! i = Some t -> phase_ok i (t_phase t) s;
  l_slot : forall i, slot s = Some i -> is_Some (m !! i);
  l_queue : Forall (fun i => is_Some (m !! i)) (queue s);
  l_nodup : NoDup (queue s);
  l_free : slot s = None -> queue s = []
}.

(** Facts about the others do not depend on more than the lock. *)
Lemma phase_mono j p s s' : slot s' = slot s -> queue s' = queue s ->
  (forall m, m ∈ history s -> m ∈ history s') -> (won s = true -> won s' = true) ->
  phase_ok j p s -> phase_ok j p s'.
Proof.
  intros Hs Hq Hh Hw. destruct p as [| | | | |[u|e]|f]; cbn; rewrite ?Hs, ?Hq; try tauto.
  - intros (H1 & H2 & H3). by split_and!; try apply Hh.
  - intros (H1 & H2 & H3). split; [done|]. split; [done|]. destruct f as [f|]; [|by apply Hh].
    destruct H3 as [H3 H4]. split; [done|]. destruct (f_result f) as [u|[|e]]; [by apply Hh | by apply Hw | done].
Qed.

(** The running attempts, but for [i]. *)
Definition but (i : nat) (m m' : gmap nat Task) : Prop := forall j, j <> i -> m' !! j = m !! j.

Lemma but_insert i t m : but i m (<[i := t]> m).
Proof. intros j Hj. by rewrite lookup_insert_ne. Qed.
Lemma but_delete i m : but i m (delete i m).
Proof. intros j Hj. by rewrite lookup_delete_ne. Qed.

Lemma lock_ok_keep i m m' s s' : lock_ok m s -> but i m m' ->
  slot s' = slot s -> queue s' = queue s ->
  (forall m, m ∈ history s -> m ∈ history s') -> (won s = true -> won s' = true) ->
  (forall t, m' !! i = Some t -> phase_ok i (t_phase t) s') ->
  (m' !! i = None -> slot s <> Some i /\ i ∉ queue s) -> lock_ok m' s'.
Proof.
  intros [H1 H2 H3 H4 H5] Hb Hs Hq Hh Hw Hi Hn. split.
  - intros j t Hj. destruct (decide (j = i)) as [->|Hne]; [by apply Hi|]. rewrite Hb in Hj by done.
    eapply phase_mono; eauto.
  - intros j. rewrite Hs. intros Hj. destruct (decide (j = i)) as [->|Hne]; [|rewrite Hb by done; eauto].
    destruct (m' !! i) eqn:E; [by eexists | by destruct (Hn eq_refl)].
  - rewrite Hq. rewrite Forall_forall in *. intros j Hj. destruct (decide (j = i)) as [->|Hne]; [|rewrite Hb by done; eauto].
    destruct (m' !! i) eqn:E; [by eexists | by destruct (Hn eq_refl)].
  - by rewrite Hq.
  - by rewrite Hs, Hq.
Qed.

Lemma queue_off m s j : lock_ok m s -> j ∈ queue s -> slot s <> Some j.
Proof.
  intros [H1 H2 H3 H4 H5] Hj. rewrite Forall_forall in H3. destruct (H3 _ Hj) as [t Ht].
  specialize (H1 _ _ Ht). destruct (t_phase t) as [| | | | |[u|e]|f]; cbn in H1; tauto.
Qed.

(** The holder leaves. *)
Lemma lock_ok_unlock i m m' s : lock_ok m s -> but i m m' -> slot s = Some i ->
  (forall t, m' !! i = Some t -> phase_ok i (t_phase t) (unlock s)) -> lock_ok m' (unlock s).
Proof.
  intros Hok Hb Hs Hi. pose proof Hok as [H1 H2 H3 H4 H5]. rewrite Forall_forall in H3.
  assert (Hni : i ∉ queue s) by (intros Hq; by apply (queue_off m s i Hok Hq)).
  unfold unlock in *. destruct (queue s) as [|q qs] eqn:Eq; cbn in *.
  - split; cbn; try done; try (by constructor). intros j t Hj. destruct (decide (j = i)) as [->|Hne]; [by apply Hi|].
    rewrite Hb in Hj by done. specialize (H1 _ _ Hj). destruct (t_phase t) as [| | | | |[u|e]|f]; cbn in *;
      rewrite ?Eq, ?Hs in *; try (split; [done|apply not_elem_of_nil]).
    + destruct H1 as [[H _]|[_ H]]; [congruence | by apply elem_of_nil in H].
    + destruct H1; congruence.
    + destruct H1; congruence.
    + destruct H1; congruence.
    + destruct H1 as (_ & _ & H). by split_and!; [|apply not_elem_of_nil|].
  - apply NoDup_cons in H4 as [Hq Hnd]. apply not_elem_of_cons in Hni as [Hqi Hni]. split; cbn; try done.
    + intros j t Hj. destruct (decide (j = i)) as [->|Hne]; [by apply Hi|].
      rewrite Hb in Hj by done. specialize (H1 _ _ Hj). destruct (t_phase t) as [| | | | |[u|e]|f]; cbn in *;
        rewrite ?Eq, ?Hs, ?elem_of_cons, ?not_elem_of_cons in *; try (destruct H1; congruence).
      * split; [|tauto]. naive_solver.
      * split; [|tauto]. naive_solver.
      * split; [|tauto]. naive_solver.
      * destruct H1 as [[H _]|[_ H]]; [congruence|]. destruct (decide (j = q)) as [->|]; [by left|]. right. naive_solver.
      * split; [naive_solver|]. split; [tauto | apply H1].
    + intros j [= <-]. rewrite Hb by done. apply H3. by left.
    + apply Forall_forall. intros j Hj. rewrite Hb by naive_solver. apply H3. by right.
Qed.

(** An attempt takes the lock, or joins its queue. *)
Lemma lock_ok_lock i st m s : lock_ok m s -> slot s <> Some i -> i ∉ queue s ->
  lock_ok (<[i := mkTask st Queued]> m) (lock i s).
Proof.
  intros Hok Hs Hq. pose proof Hok as [H1 H2 H3 H4 H5]. rewrite Forall_forall in H3. unfold lock.
  destruct (slot s) as [k|] eqn:Es.
  - split; cbn.
    + intros j t. rewrite lookup_insert. destruct (decide (i = j)) as [<-|Hne].
      * intros [= <-]. cbn. right. split; [done|]. apply elem_of_app. right. by left.
      * intros Hj. specialize (H1 _ _ Hj). destruct (t_phase t) as [| | | | |[u|e]|f]; cbn in *;
          rewrite ?Es, ?elem_of_app, ?list_elem_of_singleton, ?not_elem_of_app in *; naive_solver.
    + intros j [= <-]. rewrite lookup_insert_ne by congruence. apply H2. done.
    + apply Forall_app. split.
      * apply Forall_forall. intros j Hj. rewrite lookup_insert_ne by naive_solver. by apply H3.
      * apply Forall_singleton. rewrite lookup_insert_eq. by eexists.
    + apply NoDup_app. split; [done|]. split; [|apply NoDup_singleton]. intros j Hj ->%list_elem_of_singleton. done.
    + done.
  - rewrite (H5 eq_refl) in *. split; cbn; try done.
    + intros j t. rewrite lookup_insert. destruct (decide (i = j)) as [<-|Hne].
      * intros [= <-]. cbn. left. split; [done | apply not_elem_of_nil].
      * intros Hj. specialize (H1 _ _ Hj). destruct (t_phase t) as [| | | | |[u|e]|f]; cbn in *;
          rewrite ?Es, ?(H5 eq_refl) in *; naive_solver.
    + intros j [= <-]. rewrite lookup_insert_eq. by eexists.
Qed.

(** ** The invariant of the race state *)

(** Who the target is talked to by, according to the attempts. *)
Definition talks (m : gmap nat Task) (cur : option nat) : Prop :=
  forall i, cur = Some i <-> t_phase <$> m !! i = Some Handshaking.

Record race_ok (m : gmap nat Task) (s : RaceState) : Prop := {
  k_lock : lock_ok m s;
  k_watched : exists cur, watched (history s) = Some (cur, won s) /\ talks m cur /\ (is_Some cur -> won s = false)
}.

Lemma talks_other m m' i cur : talks m cur -> but i m m' -> t_phase <$> m !! i <> Some Handshaking ->
  t_phase <$> m' !! i <> Some Handshaking -> talks m' cur.
Proof.
  intros Ht Hb H H' j. destruct (decide (j = i)) as [->|Hne]; [|by rewrite Hb].
  specialize (Ht i). naive_solver.
Qed.

Lemma talks_stop m m' i : talks m (Some i) -> but i m m' -> t_phase <$> m' !! i <> Some Handshaking -> talks m' None.
Proof.
  intros Ht Hb H' j. destruct (decide (j = i)) as [->|Hne]; [naive_solver|]. rewrite Hb by done.
  specialize (Ht j). naive_solver.
Qed.

Lemma talks_holder m s cur i : lock_ok m s -> talks m cur -> cur = Some i -> slot s = Some i.
Proof.
  intros Hl Ht E. apply Ht in E. destruct (m !! i) as [t|] eqn:Ei; [|done]. cbn in E. injection E as E.
  pose proof (l_phase _ _ Hl _ _ Ei) as H. rewrite E in H. apply H.
Qed.

Ltac phases := first [rewrite lookup_insert_eq | rewrite lookup_delete_eq | idtac]; cbn; congruence.
Ltac not_talking := try done; try (eapply talks_other; eauto; phases).

Lemma attempt_ok i e el s p s' p' st m : m !! i = Some (mkTask st p) -> race_ok m s ->
  attempt i e el s p = Some (s', p') -> race_ok (<[i := mkTask st p']> m) s'.
Proof.
  intros Hi [Hl (cur & Hw & Ht & Hcw)] Ha. pose proof (l_phase _ _ Hl _ _ Hi) as Hp. cbn [t_phase] in Hp.
  assert (Hmi : t_phase <$> m !! i = Some p) by (by rewrite Hi).
  assert (Hb : but i m (<[i := mkTask st p']> m)) by apply but_insert.
  assert (Hself : forall s0, phase_ok i p' s0 -> forall t, <[i := mkTask st p']> m !! i = Some t -> phase_ok i (t_phase t) s0).
  { intros s0 H t. rewrite lookup_insert_eq. by intros [= <-]. }
  assert (Hsome : <[i := mkTask st p']> m !! i = None -> slot s <> Some i /\ i ∉ queue s) by (by rewrite lookup_insert_eq).
  assert (Hkeep : forall cur', (forall m, m ∈ history s -> m ∈ history s') -> (won s = true -> won s' = true) ->
    slot s' = slot s -> queue s' = queue s -> phase_ok i p' s' ->
    watched (history s') = Some (cur', won s') -> talks (<[i := mkTask st p']> m) cur' -> (is_Some cur' -> won s' = false) ->
    race_ok (<[i := mkTask st p']> m) s').
  { intros cur' H1 H2 H3 H4 H5 H6 H7 H8. split; [|by exists cur']. by eapply (lock_ok_keep i m); eauto. }
  assert (Hun : forall s0 cur', history s0 = history s' -> won s0 = won s' -> s' = unlock s0 -> slot s = Some i -> slot s0 = slot s -> queue s0 = queue s ->
    (forall m, m ∈ history s -> m ∈ history s0) -> won s0 = won s ->
    phase_ok i p' s' ->
    watched (history s') = Some (cur', won s') -> talks (<[i := mkTask st p']> m) cur' -> (is_Some cur' -> won s' = false) ->
    race_ok (<[i := mkTask st p']> m) s').
  { intros s0 cur' E1 E2 -> Hs Es Eq Eh Ew H5 H6 H7 H8. split; [|by exists cur'].
    assert (Hl0 : lock_ok m s0).
    { refine (lock_ok_keep i m m s s0 Hl _ Es Eq Eh _ _ _); [done | by rewrite Ew | | by rewrite Hi].
      rewrite Hi. intros t [= <-]. cbn. apply (phase_mono i p s s0); try done. by rewrite Ew. }
    refine (lock_ok_unlock i m _ s0 Hl0 Hb _ (Hself _ H5)). congruence. }
  assert (Hhead : slot s = Some i -> slot (unlock s) <> Some i /\ i ∉ queue (unlock s)).
  { intros Hs. assert (Hni : i ∉ queue s) by (intros Hq; by apply (queue_off m s i Hl Hq)).
    unfold unlock; cbn. destruct (queue s); cbn; [split; [done | apply not_elem_of_nil]|].
    apply not_elem_of_cons in Hni. naive_solver. }
  destruct p as [| | | | |r|f], e as [[[]|err]| |[u|err]|]; cbn [attempt] in Ha; try discriminate Ha.
  - (* the pool answers *) injection Ha as <- <-. apply (Hkeep cur); not_talking.
  - injection Ha as <- <-. apply (Hkeep cur); not_talking. by destruct Hp.
  - (* a panic there *) injection Ha as <- <-.
    assert (Hne : cur <> Some i) by (intros E; apply Ht in E; congruence).
    apply (Hkeep cur); cbn; not_talking.
    + by intros; apply elem_of_app; left.
    + destruct Hp. split; [done|]. split; [done|]. apply elem_of_app. right. by left.
    + rewrite watched_snoc, Hw. cbn. by rewrite bool_decide_false.
  - (* the first look *) destruct (won s) eqn:Ew; injection Ha as <- <-;
      (apply (Hkeep cur); not_talking; rewrite ?Ew; by destruct Hp).
  - (* the lock *) injection Ha as <- <-. destruct Hp as [Hp1 Hp2]. split; [by apply lock_ok_lock|].
    exists cur. assert (history (lock i s) = history s /\ won (lock i s) = won s) as [-> ->] by (unfold lock; by destruct (slot s)).
    split; [done|]. split; [|done]. eapply talks_other; eauto; [congruence | phases].
  - (* granted *) case_bool_decide as Hs; [|done]. destruct (won s) eqn:Ew; injection Ha as <- <-.
    + apply (Hun s cur); try done; cbn; rewrite ?Ew; not_talking.
      destruct (Hhead Hs). by split_and!.
    + assert (cur = None) as ->.
      { destruct cur as [j|]; [|done]. pose proof (talks_holder _ _ _ j Hl Ht eq_refl) as E.
        assert (Some j = Some i) as Ej by congruence. apply Ht in Ej. congruence. }
      apply (Hkeep (Some i)); cbn; try done.
      * by intros; apply elem_of_app; left.
      * naive_solver.
      * rewrite watched_snoc, Hw, Ew. done.
      * intros j. destruct (decide (j = i)) as [->|Hne]; [rewrite lookup_insert_eq; done|].
        rewrite lookup_insert_ne by congruence. specialize (Ht j). naive_solver.
  - (* the upstream answers *) injection Ha as <- <-. assert (cur = Some i) as -> by (by apply Ht).
    rewrite Hcw in Hw by (by eexists).
    apply (Hkeep None); cbn; try done.
    + by intros; apply elem_of_app; left.
    + destruct Hp. split; [done|]. split; [done|]. apply elem_of_app. right. by left.
    + rewrite watched_snoc, Hw. cbn. by rewrite bool_decide_true.
    + eapply talks_stop; eauto; phases.
  - injection Ha as <- <-. assert (cur = Some i) as -> by (by apply Ht).
    apply (Hkeep None); cbn; try done.
    + by intros; apply elem_of_app; left.
    + rewrite watched_snoc, Hw. cbn. by rewrite bool_decide_true.
    + eapply talks_stop; eauto; phases.
  - (* a panic there *) injection Ha as <- <-. assert (cur = Some i) as -> by (by apply Ht). destruct Hp as [Hs Hq].
    destruct (Hhead Hs) as [Hs1 Hs2].
    apply (Hun (note (Stopped i) s) None); cbn; try done.
    + by intros; apply elem_of_app; left.
    + split; [done|]. split; [done|]. apply elem_of_app. right. by left.
    + rewrite watched_snoc, Hw. cbn. by rewrite bool_decide_true.
    + eapply talks_stop; eauto; phases.
  - (* the guard is dropped *) injection Ha as <- <-.
    assert (Hs : slot s = Some i) by (by destruct r; apply Hp). destruct (Hhead Hs) as [Hs1 Hs2].
    apply (Hun s cur); not_talking.
    split; [done|]. split; [done|]. cbn. destruct r as [u|err]; cbn; [|done]. split; [done|]. apply Hp.
Qed.

(** ** The invariant of the race *)

Definition failure (r : AttemptReport) : option ConnectError :=
  match r_outcome r with FailedWith e => Some e | _ => None end.

Record report_ok (c : Race) (r : AttemptReport) : Prop := {
  p_proxy : launched c !! r_index r = Some (r_proxy r);
  p_gone : running c !! r_index r = None;
  p_whole : Stopped (r_index r) ∉ history (race c);
  p_outcome : match r_outcome r with
    | Won => Succeeded (r_index r) ∈ history (race c) /\ after_win r = false
    | LateSuccess => False
    | Lost => won (race c) = true /\ after_win r = true
    | FailedWith _ => after_win r = true -> exists h, coord c = Returned (Ok h)
    end
}.

(** Whose success has not been joined yet. *)
Definition succeeding (p : Phase) : bool :=
  match p with
  | Releasing (Ok _) => true
  | Ended (Some f) => is_ok (f_result f)
  | _ => false
  end.

Definition coord_ok (c : Race) : Prop :=
  match coord c with
  | Looping => running c <> ∅ /\ last_error c = list.last (omap failure (reports c)) /\
      forall i, Succeeded i ∈ history (race c) -> exists t, running c !! i = Some t /\ succeeding (t_phase t) = true
  | Returned (Ok h) => exists r, r ∈ reports c /\ r_index r = winner h /\ r_outcome r = Won
  | Returned (Err e) => running c = ∅ /\ pending c = [] /\ attempts e = length (launched c) /\
      last e = list.last (omap failure (reports c)) /\ won (race c) = false
  | Dropped => True
  end.

Lemma success_won m s i : race_ok m s -> Succeeded i ∈ history s -> won s = true.
Proof. intros [_ (cur & Hw & _)] H. apply (watched_won _ _ _ Hw). eauto. Qed.
Lemma won_success m s : race_ok m s -> won s = true -> exists i, Succeeded i ∈ history s.
Proof. intros [_ (cur & Hw & _)] H. by apply (watched_won _ _ _ Hw). Qed.
Lemma success_once m s i j : race_ok m s -> Succeeded i ∈ history s -> Succeeded j ∈ history s -> i = j.
Proof. intros [_ (cur & Hw & _)]. apply watched_once. by rewrite Hw. Qed.

(** A launch at the head of what is pending. *)
Lemma seq_cons_inv i (rest : list (nat * ProxyConfig)) n p :
  map fst ((i, p) :: rest) = seq n (length ((i, p) :: rest)) -> i = n /\ map fst rest = seq (S n) (length rest).
Proof. cbn. by intros [= -> ->]. Qed.

(** What holds whatever the coordinator does. *)
Record Pre (cands : list ProxyConfig) (c : Race) : Prop := {
  q_race : race_ok (running c) (race c);
  q_launched : launched c ++ map snd (pending c) = cands;
  q_pending : map fst (pending c) = seq (length (launched c)) (length (pending c));
  q_running : forall i, is_Some (running c !! i) -> (i < length (launched c))%nat;
  q_stopped : forall i, Stopped i ∈ history (race c) -> (i < length (launched c))%nat /\
    forall t, running c !! i = Some t -> t_phase t = Ended None;
  q_nodup : NoDup (map r_index (reports c));
  q_reports : Forall (report_ok c) (reports c);
  q_all : forall i, (i < length (launched c))%nat ->
    is_Some (running c !! i) \/ i ∈ map r_index (reports c) \/ Stopped i ∈ history (race c)
}.

Record Inv (cands : list ProxyConfig) (c : Race) : Prop := { i_pre : Pre cands c; i_coord : coord_ok c }.

Lemma report_ok_mono c c' r : report_ok c r ->
  (forall k p, launched c !! k = Some p -> launched c' !! k = Some p) ->
  running c' !! r_index r = None -> Stopped (r_index r) ∉ history (race c') ->
  (forall m, m ∈ history (race c) -> m ∈ history (race c')) ->
  (won (race c) = true -> won (race c') = true) ->
  (forall h, coord c = Returned (Ok h) -> exists h', coord c' = Returned (Ok h')) -> report_ok c' r.
Proof.
  intros [H1 H2 H3 H4] Hl Hr Hs Hh Hw Hc. split; [by apply Hl | done | done |].
  destruct (r_outcome r); [| done | |].
  - destruct H4. split; [by apply Hh | done].
  - destruct H4. split; [by apply Hw | done].
  - intros Ha. destruct (H4 Ha) as [h E]. by eapply Hc.
Qed.

(** What neither the pool, nor the clock, nor the result touches. *)
Lemma Pre_same cands c c' : Pre cands c -> race c' = race c -> pending c' = pending c -> running c' = running c ->
  launched c' = launched c -> reports c' = reports c ->
  (forall h, coord c = Returned (Ok h) -> exists h', coord c' = Returned (Ok h')) -> Pre cands c'.
Proof.
  intros [H1 H2 H3 H4 H5 H6 H7 H8] E1 E2 E3 E4 E5 Hc. split; rewrite ?E1, ?E2, ?E3, ?E4, ?E5; try done.
  eapply Forall_impl; [exact H7|]. intros r Hr. pose proof Hr as [? ? ? ?].
  apply (report_ok_mono c); rewrite ?E1, ?E2, ?E3, ?E4, ?E5; done.
Qed.

Lemma launch_Pre cands c i p rest : Pre cands c -> pending c = (i, p) :: rest -> Pre cands (launch i p rest c) /\ i = length (launched c).
Proof.
  intros [[Hl (cur & Hw & Ht & Hcw)] H2 H3 H4 H5 H6 H7 H8] Hp. rewrite Hp in *.
  apply seq_cons_inv in H3 as [-> H3]. split; [|done].
  set (i := length (launched c)) in *.
  assert (Hnone : running c !! i = None).
  { destruct (running c !! i) eqn:E; [|done]. assert (i < i)%nat by (apply H4; by eexists). lia. }
  assert (Hb : but i (running c) (<[i := mkTask (clock c) Acquiring]> (running c))) by apply but_insert.
  assert (Hs : slot (race c) <> Some i) by (intros E; apply (l_slot _ _ Hl) in E as [? E]; congruence).
  assert (Hq : i ∉ queue (race c)).
  { intros E. pose proof (l_queue _ _ Hl) as Hfa. rewrite Forall_forall in Hfa. destruct (Hfa _ E). congruence. }
  split; cbn.
  - split.
    + eapply (lock_ok_keep i (running c)); eauto. intros t. rewrite lookup_insert_eq. by intros [= <-].
    + exists cur. split; [done|]. split; [|done]. eapply talks_other; eauto; [by rewrite Hnone | phases].
  - rewrite <- H2. cbn. by rewrite <- app_assoc.
  - rewrite length_app. cbn. by rewrite Nat.add_1_r.
  - intros j. rewrite length_app. cbn. destruct (decide (j = i)) as [->|]; [lia|]. rewrite lookup_insert_ne by done.
    intros Hj%H4. lia.
  - intros j Hj. destruct (H5 j Hj) as [Hlt Hj']. rewrite length_app. split; [lia|]. intros t.
    rewrite lookup_insert_ne by lia. apply Hj'.
  - done.
  - eapply Forall_impl; [exact H7|]. intros r Hr. pose proof Hr as [P1 P2 P3 P4]. apply lookup_lt_Some in P1 as Hlt.
    apply (report_ok_mono c); cbn; try done; [by intros k q Hk; apply lookup_app_l_Some | | by eauto].
    rewrite lookup_insert_ne by lia. done.
  - intros j. rewrite length_app. cbn. intros Hj. destruct (decide (j = i)) as [->|]; [left; rewrite lookup_insert_eq; by eexists|].
    rewrite lookup_insert_ne by done. apply H8. lia.
Qed.

(** The top of the loop: somebody runs, or the race is over. *)
Lemma top_Inv o cands c : Pre cands c -> coord c = Looping ->
  last_error c = list.last (omap failure (reports c)) ->
  (forall i, Succeeded i ∈ history (race c) -> exists t, running c !! i = Some t /\ succeeding (t_phase t) = true) ->
  Inv cands (top o c).
Proof.
  intros Hp Hc Hl Hs. unfold top. case_bool_decide as He; [destruct (pending c) as [|[i p] rest] eqn:Ep|].
  - split; [by eapply Pre_same; eauto; cbn; rewrite Hc|]. unfold coord_ok. cbn. split_and!; try done.
    apply not_true_is_false. intros E. apply (won_success _ _ (q_race _ _ Hp)) in E as [i Hi].
    destruct (Hs i Hi) as (t & Ht & _). by rewrite He, lookup_empty in Ht.
  - destruct (launch_Pre _ _ _ _ _ Hp Ep) as [Hp' Hi]. split; [by eapply Pre_same; eauto|].
    unfold coord_ok. cbn. rewrite Hc. split; [|split; [done|]].
    + intros E. apply (f_equal (lookup i)) in E. by rewrite lookup_insert_eq, lookup_empty in E.
    + intros j Hj. destruct (Hs j Hj) as (t & Ht & _). by rewrite He, lookup_empty in Ht.
  - split; [done|]. unfold coord_ok. by rewrite Hc.
Qed.

(** What one step of an attempt does to the history. *)
Lemma attempt_history i e el s p s' p' : attempt i e el s p = Some (s', p') ->
  (forall f, p <> Ended f) /\ (forall m, m ∈ history s -> m ∈ history s') /\ (won s = true -> won s' = true) /\
  (forall j, Stopped j ∈ history s' -> Stopped j ∈ history s \/ j = i /\ p' = Ended None) /\
  (forall j, Succeeded j ∈ history s' -> Succeeded j ∈ history s \/ j = i /\ succeeding p' = true) /\
  (succeeding p = true -> succeeding p' = true).
Proof.
  assert (Hin : forall m m' (h : list Mark), m ∈ h ++ [m'] -> m ∈ h \/ m = m').
  { intros m m' h. rewrite elem_of_app, list_elem_of_singleton. done. }
  intros Ha. destruct p as [| | | | |r|f], e as [[[]|err]| |[u|err]|]; cbn [attempt] in Ha; try discriminate Ha;
    repeat match type of Ha with context [if ?b then _ else _] => destruct b eqn:? end; try discriminate Ha; injection Ha as <- <-;
    split_and!; try done; try (by intros; apply elem_of_app; left); try (intros j [Hj|Hj]%Hin; [by left | try discriminate Hj]);
    unfold lock; repeat case_match; try tauto; try (injection Hj as ->; by right); try (by destruct r).
Qed.

Lemma attempt_Inv o cands c i e c' : Inv cands c -> step o c (OfAttempt i e) = Some c' -> Inv cands c'.
Proof.
  intros [Hp Hk] Hs. cbn [step] in Hs. destruct (running c !! i) as [[st p]|] eqn:Ei; cbn in Hs; [|done].
  destruct (attempt i e _ (race c) p) as [[s p']|] eqn:Ea; cbn in Hs; [|done]. injection Hs as <-.
  pose proof (attempt_ok _ _ _ _ _ _ _ _ _ Ei (q_race _ _ Hp) Ea) as Hrace.
  apply attempt_history in Ea as (Hend & Hh & Hw & Hstop & Hsucc & Hkeep). destruct Hp as [H1 H2 H3 H4 H5 H6 H7 H8].
  assert (Hns : Stopped i ∉ history (race c)).
  { intros Hin. destruct (H5 _ Hin) as [_ Hf]. exact (Hend _ (Hf _ Ei)). }
  assert (Hlt : (i < length (launched c))%nat) by (apply H4; by eexists).
  split; [split; cbn; try done|].
  - intros j. destruct (decide (j = i)) as [->|]; [done|]. rewrite lookup_insert_ne by done. apply H4.
  - intros j Hj. destruct (Hstop j Hj) as [Hj'|[-> ->]].
    + destruct (H5 j Hj') as [? Hf]. split; [done|]. intros t. rewrite lookup_insert_ne by (intros ->; done). apply Hf.
    + split; [done|]. intros t. rewrite lookup_insert_eq. by intros [= <-].
  - eapply Forall_impl; [exact H7|]. intros r Hr. pose proof Hr as [P1 P2 P3 P4].
    assert (Hri : r_index r <> i) by congruence.
    apply (report_ok_mono c); cbn; try done; [rewrite lookup_insert_ne; done | | by eauto].
    intros Hin. by destruct (Hstop _ Hin) as [|[? _]].
  - intros j Hj. destruct (decide (j = i)) as [->|]; [left; rewrite lookup_insert_eq; by eexists|].
    rewrite lookup_insert_ne by done. destruct (H8 j Hj) as [|[|]]; [by left | by right; left | right; right; by apply Hh].
  - revert Hk. unfold coord_ok. cbn. destruct (coord c) as [|[h|er]|]; [|done| |done].
    + intros (Hne & Hl & Hs). split; [|split; [done|]].
      * intros E. apply (f_equal (lookup i)) in E. by rewrite lookup_insert_eq, lookup_empty in E.
      * intros j Hj. destruct (decide (j = i)) as [->|Hne'].
        -- rewrite lookup_insert_eq. eexists. split; [done|]. cbn. destruct (Hsucc _ Hj) as [Hj'|[_ ?]]; [|done].
           destruct (Hs _ Hj') as (t & Ht & Hts). rewrite Ei in Ht. injection Ht as <-. by apply Hkeep.
        -- rewrite lookup_insert_ne by done. destruct (Hsucc _ Hj) as [Hj'|[? _]]; [by apply Hs | done].
    + intros (He & _). by rewrite He, lookup_empty in Ei.
Qed.

(** An attempt leaves the JoinSet. *)
Lemma delete_race m s i f st : race_ok m s -> m !! i = Some (mkTask st (Ended f)) -> race_ok (delete i m) s.
Proof.
  intros [Hl (cur & Hw & Ht & Hc)] Hi. pose proof (l_phase _ _ Hl _ _ Hi) as (P1 & P2 & _).
  assert (Hb : but i m (delete i m)) by apply but_delete. split.
  - eapply (lock_ok_keep i m); eauto. intros t. by rewrite lookup_delete_eq.
  - exists cur. split; [done|]. split; [|done]. eapply talks_other; eauto; [rewrite Hi | rewrite lookup_delete_eq]; done.
Qed.

Lemma delete_Pre cands c i st : Pre cands c -> running c !! i = Some (mkTask st (Ended None)) ->
  Pre cands (set_running (delete i (running c)) c).
Proof.
  intros [H1 H2 H3 H4 H5 H6 H7 H8] Hi. pose proof (l_phase _ _ (k_lock _ _ H1) _ _ Hi) as (_ & _ & Hst).
  split; cbn; try done.
  - by eapply delete_race.
  - intros j [t Ht]. apply lookup_delete_Some in Ht as [_ Ht]. apply H4. by eexists.
  - intros j Hj. destruct (H5 j Hj) as [? Hf]. split; [done|]. intros t Ht. apply lookup_delete_Some in Ht as [_ Ht]. by apply Hf.
  - eapply Forall_impl; [exact H7|]. intros r Hr. pose proof Hr as [P1 P2 P3 P4].
    apply (report_ok_mono c); cbn; try done; [|by eauto]. apply lookup_delete_None. by right.
  - intros j Hj. destruct (decide (j = i)) as [->|]; [by right; right|]. rewrite lookup_delete_ne by done. by apply H8.
Qed.

(** And its outcome is reported. *)
Lemma report_Pre cands c i st f proxy out after : Pre cands c ->
  running c !! i = Some (mkTask st (Ended (Some f))) -> launched c !! f_index f = Some proxy ->
  match out with
  | Won => is_ok (f_result f) = true /\ after = false
  | LateSuccess => False
  | Lost => f_result f = Err FLost /\ after = true
  | FailedWith _ => after = true -> exists h, coord c = Returned (Ok h)
  end ->
  Pre cands (callback (mkReport (f_index f) proxy (f_elapsed f) out after) (set_running (delete i (running c)) c)).
Proof.
  intros [H1 H2 H3 H4 H5 H6 H7 H8] Hi Hproxy Hout.
  pose proof (l_phase _ _ (k_lock _ _ H1) _ _ Hi) as (_ & _ & Hidx & Hres). cbn [t_phase] in Hidx, Hres. subst i.
  assert (Hrep : Forall (report_ok (callback (mkReport (f_index f) proxy (f_elapsed f) out after) (set_running (delete (f_index f) (running c)) c))) (reports c)).
  { eapply Forall_impl; [exact H7|]. intros r Hr. pose proof Hr as [P1 P2 P3 P4].
    apply (report_ok_mono c); cbn; try done; [|by eauto]. apply lookup_delete_None. by right. }
  split; cbn; try done.
  - by eapply delete_race.
  - intros j [t Ht]. apply lookup_delete_Some in Ht as [_ Ht]. apply H4. by eexists.
  - intros j Hj. destruct (H5 j Hj) as [? Hf]. split; [done|]. intros t Ht. apply lookup_delete_Some in Ht as [_ Ht]. by apply Hf.
  - rewrite map_app. cbn. apply NoDup_app. split; [done|]. split; [|apply NoDup_singleton].
    intros j (r & -> & Hr)%list_elem_of_fmap Heq%list_elem_of_singleton. rewrite Forall_forall in H7.
    pose proof (p_gone _ _ (H7 _ Hr)). cbn in Heq. congruence.
  - apply Forall_app. split; [exact Hrep|]. apply Forall_singleton. split; cbn; [done | apply lookup_delete_eq | |].
    + intros Hin. destruct (H5 _ Hin) as [_ Hf]. specialize (Hf _ Hi). discriminate Hf.
    + destruct out; [| done | |].
      * destruct Hout as [Hok ->]. destruct (f_result f); [done | discriminate Hok].
      * destruct Hout as [Hl ->]. by rewrite Hl in Hres.
      * exact Hout.
  - intros j Hj. rewrite map_app. destruct (decide (j = f_index f)) as [->|].
    + right; left. apply elem_of_app. right. by left.
    + rewrite lookup_delete_ne by done. destruct (H8 j Hj) as [|[|]]; [by left | | by right; right].
      right; left. apply elem_of_app. by left.
Qed.

(** An aborted attempt leaves the lock to the next, or the queue. *)
Lemma lock_ok_leave i t m s : lock_ok m s -> m !! i = Some t -> (forall f, t_phase t <> Ended f) ->
  lock_ok (delete i m) (leave i s).
Proof.
  intros Hok Hi Hne. unfold leave. case_bool_decide as Hs.
  { apply (lock_ok_unlock i m); [done | apply but_delete | done |]. intros t'. by rewrite lookup_delete_eq. }
  pose proof Hok as [H1 H2 H3 H4 H5]. rewrite Forall_forall in H3.
  assert (Hin : forall j, j ∈ List.filter (fun j => negb (bool_decide (j = i))) (queue s) <-> j ∈ queue s /\ j <> i).
  { intros j. rewrite !list_elem_of_In, filter_In. case_bool_decide; naive_solver. }
  split; cbn.
  - intros j tj [Hj Htj]%lookup_delete_Some. specialize (H1 _ _ Htj). specialize (Hin j).
    destruct (t_phase tj) as [| | | | |[u|e]|f]; cbn in *; try tauto. naive_solver.
  - intros j Hj. rewrite lookup_delete_ne by congruence. by apply H2.
  - apply Forall_forall. intros j [Hj Hji]%Hin. rewrite lookup_delete_ne by done. by apply H3.
  - by apply NoDup_ListNoDup, List.NoDup_filter, NoDup_ListNoDup.
  - intros E. by rewrite (H5 E).
Qed.

Lemma abort_race i t m s : race_ok m s -> m !! i = Some t -> (forall f, t_phase t <> Ended f) ->
  race_ok (delete i m) (leave i (note (Stopped i) s)).
Proof.
  intros [Hl (cur & Hw & Ht & Hc)] Hi Hne. split.
  - apply (lock_ok_leave i t); [|done|done]. destruct t as [st p]. apply (lock_ok_keep i m m s); try done.
    + by intros; apply elem_of_app; left.
    + rewrite Hi. intros t [= <-]. apply (phase_mono i p s); [done | done | by intros; apply elem_of_app; left | done |].
      by apply (l_phase _ _ Hl _ _ Hi).
    + by rewrite Hi.
  - exists (if bool_decide (cur = Some i) then None else cur).
    assert (Hh : history (leave i (note (Stopped i) s)) = history s ++ [Stopped i]) by (unfold leave; by case_bool_decide).
    assert (Hw' : won (leave i (note (Stopped i) s)) = won s) by (unfold leave; by case_bool_decide).
    rewrite Hh, Hw', watched_snoc, Hw. split; [done|]. case_bool_decide as E.
    + split; [|by intros []]. subst cur. eapply talks_stop; [exact Ht | apply but_delete | phases].
    + split; [|done]. eapply talks_other; [exact Ht | apply but_delete | | phases].
      intros Hph. by apply Ht in Hph.
Qed.

Lemma set_won_id (s : RaceState) : won s = true -> set_won s = s.
Proof. destruct s; cbn. by intros ->. Qed.

Lemma join_Inv o cands c i c' : Inv cands c -> step o c (Join i) = Some c' -> Inv cands c'.
Proof.
  intros [Hp Hk] Hs. cbn [step] in Hs. destruct (running c !! i) as [[st p]|] eqn:Ei; cbn in Hs; [|done].
  destruct p as [| | | | |r|f]; try discriminate Hs.
  pose proof (l_phase _ _ (k_lock _ _ (q_race _ _ Hp)) _ _ Ei) as Hph. cbn [t_phase] in Hph. unfold coord_ok in Hk.
  assert (Hsucc : coord c = Looping -> (forall f0, f = Some f0 -> is_ok (f_result f0) = false) ->
    forall j, Succeeded j ∈ history (race c) -> exists t, delete i (running c) !! j = Some t /\ succeeding (t_phase t) = true).
  { intros Ec Hf j Hj. rewrite Ec in Hk. destruct Hk as (_ & _ & Hk). destruct (Hk j Hj) as (t & Ht & Hst).
    exists t. split; [|done]. rewrite lookup_delete_ne; [done|]. intros ->. rewrite Ei in Ht. injection Ht as <-.
    cbn in Hst. destruct f as [f|]; [|done]. by rewrite Hf in Hst. }
  destruct (coord c) as [|[h|er]|] eqn:Ec; cbn in Hs.
  - destruct Hk as (_ & Hlast & _). destruct f as [f|].
    + destruct Hph as (_ & _ & Hidx & Hres). destruct (launched c !! f_index f) as [proxy|] eqn:El; cbn in Hs; [|done].
      injection Hs as <-. unfold joined. destruct (f_result f) as [u|[|err]] eqn:Er.
      * pose proof (report_Pre _ _ _ _ _ proxy Won false Hp Ei El) as Hp'. rewrite Er in Hp'.
        assert (Hwon : won (race c) = true) by (eapply success_won; [apply Hp | exact Hres]).
        cbn [race set_running]. rewrite set_won_id by done. split.
        -- eapply Pre_same; [by apply Hp'|..]; try done. cbn. by eauto.
        -- unfold coord_ok. cbn. eexists. split; [apply elem_of_app; right; by left|]. done.
      * pose proof (report_Pre _ _ _ _ _ proxy Lost true Hp Ei El) as Hp'. cbn [race set_running]. rewrite Hres.
        apply top_Inv; [by apply Hp' | done | |].
        -- cbn. by rewrite omap_app, app_nil_r.
        -- cbn. apply Hsucc; [done|]. intros ? [= <-]. by rewrite Er.
      * pose proof (report_Pre _ _ _ _ _ proxy (FailedWith err) false Hp Ei El) as Hp'.
        apply top_Inv; [by eapply Pre_same; [by apply Hp'|done..|eauto] | done | |].
        -- cbn. rewrite omap_app. cbn. by rewrite last_snoc.
        -- cbn. apply Hsucc; [done|]. intros ? [= <-]. by rewrite Er.
    + injection Hs as <-. apply top_Inv; [by eapply delete_Pre | done | done |].
      cbn. by apply Hsucc.
  - destruct Hk as (r & Hr & Hrw & Hro). destruct f as [f|].
    + destruct Hph as (_ & _ & Hidx & Hres). destruct (launched c !! f_index f) as [proxy|] eqn:El; cbn in Hs; [|done].
      injection Hs as <-. unfold drained.
      assert (Hck : forall out c1, coord c1 = Returned (Ok h) -> reports c1 = reports c -> coord_ok (callback (mkReport (f_index f) proxy (f_elapsed f) out true) c1)).
      { intros out c1 E1 E2. unfold coord_ok. cbn. rewrite E1, E2. exists r. split; [by apply elem_of_app; left | done]. }
      destruct (f_result f) as [u|[|err]] eqn:Er.
      * exfalso. pose proof (q_reports _ _ Hp) as Hfa. rewrite Forall_forall in Hfa. specialize (Hfa _ Hr).
        pose proof (p_outcome _ _ Hfa) as Ho. rewrite Hro in Ho. destruct Ho as [Ho _].
        pose proof (success_once _ _ _ _ (q_race _ _ Hp) Ho Hres) as E.
        pose proof (p_gone _ _ Hfa) as Hg. congruence.
      * split; [by eapply report_Pre; eauto | by apply Hck].
      * split; [eapply report_Pre; eauto | by apply Hck].
    + injection Hs as <-. split; [by eapply delete_Pre|]. unfold coord_ok. cbn. rewrite Ec. by exists r.
  - destruct Hk as (He & _). by rewrite He, lookup_empty in Ei.
  - done.
Qed.

Lemma race_step_Inv o cands c e c' : Inv cands c -> step o c e = Some c' -> Inv cands c'.
Proof.
  intros Hi Hs. destruct e as [i e|i| |d| |i]; [by eapply attempt_Inv | by eapply join_Inv | | | |].
  - destruct Hi as [Hp Hk]. cbn [step] in Hs. unfold coord_ok in Hk. destruct (coord c) eqn:Ec; try discriminate Hs.
    destruct (hedge_at c) as [at_|]; [|done]. destruct (_ && _); [|done].
    destruct Hk as (Hne & Hl & Hsu). set (t := hedge_deadline _ _ _) in Hs.
    assert (Hp1 : Pre cands (set_hedge_at t c)) by (by eapply Pre_same; eauto).
    assert (Hsame : Inv cands (set_hedge_at t c)).
    { split; [done|]. unfold coord_ok. cbn. rewrite Ec. done. }
    cbn [race pending set_hedge_at] in Hs.
    destruct (slot (race c)) as [k|]; [injection Hs as <-; exact Hsame|].
    destruct (pending c) as [|[i p] rest] eqn:Ep; [injection Hs as <-; exact Hsame|]. injection Hs as <-.
    destruct (launch_Pre cands (set_hedge_at t c) i p rest Hp1 Ep) as [Hp2 Hi]. cbn [launched set_hedge_at] in Hi.
    split; [exact Hp2|]. unfold coord_ok. cbn. rewrite Ec. split; [|split; [done|]].
    + intros E. apply (f_equal (lookup i)) in E. by rewrite lookup_insert_eq, lookup_empty in E.
    + intros j Hj. destruct (Hsu j Hj) as (tk & Htk & Hts). exists tk. split; [|done]. rewrite lookup_insert_ne; [done|].
      intros <-. assert (i < length (launched c))%nat by (apply (q_running _ _ Hp); by eexists). lia.
  - cbn [step] in Hs. destruct (0 <=? d); [|done]. injection Hs as <-. destruct Hi as [Hp Hk].
    split; [by eapply Pre_same; eauto | exact Hk].
  - cbn [step] in Hs. destruct (coord c) eqn:Ec; try discriminate Hs. injection Hs as <-. destruct Hi as [Hp Hk].
    split; [|done]. eapply Pre_same; eauto. by rewrite Ec.
  - cbn [step] in Hs. destruct (coord c) eqn:Ec; try discriminate Hs. destruct (running c !! i) as [[st p]|] eqn:Ei; [|done].
    assert (Hne : forall f, p <> Ended f) by (intros f ->; discriminate Hs).
    assert (Hs' : c' = set_running (delete i (running c)) (set_race (leave i (note (Stopped i) (race c))) c))
      by (cbn in Hs; destruct p; try congruence; by destruct (Hne f)).
    clear Hs. subst c'. destruct Hi as [[H1 H2 H3 H4 H5 H6 H7 H8] _].
    pose proof (abort_race _ _ _ _ H1 Ei Hne) as Hrace.
    assert (Hh : history (leave i (note (Stopped i) (race c))) = history (race c) ++ [Stopped i]) by (unfold leave; by case_bool_decide).
    assert (Hw : won (leave i (note (Stopped i) (race c))) = won (race c)) by (unfold leave; by case_bool_decide).
    split; [split; cbn; try done|].
    + intros j [t Ht]. apply lookup_delete_Some in Ht as [_ Ht]. apply H4. by eexists.
    + intros j. rewrite Hh, elem_of_app, list_elem_of_singleton. intros [Hj|[= ->]].
      * destruct (H5 j Hj) as [? Hf]. split; [done|]. intros t Ht. apply lookup_delete_Some in Ht as [_ Ht]. by apply Hf.
      * split; [by apply H4; eexists|]. intros t. by rewrite lookup_delete_eq.
    + eapply Forall_impl; [exact H7|]. intros r Hr. pose proof Hr as [P1 P2 P3 P4].
      apply (report_ok_mono c); cbn; rewrite ?Hh, ?Hw; try done.
      * apply lookup_delete_None. by right.
      * rewrite elem_of_app, list_elem_of_singleton. intros [|[= E]]; [done | congruence].
      * by intros; apply elem_of_app; left.
      * by eauto.
    + intros j Hj. rewrite Hh, elem_of_app, list_elem_of_singleton. destruct (decide (j = i)) as [->|]; [by right; right; right|].
      rewrite lookup_delete_ne by done. destruct (H8 j Hj) as [|[|]]; [by left | by right; left | by right; right; left].
    + unfold coord_ok. cbn. by rewrite Ec.
Qed.

Lemma start_Inv o cands now : Inv cands (connect_hedged o cands now).
Proof.
  set (c := mkRace (mkRaceState false None [] []) (enumerate cands) ∅ [] None None now [] Looping).
  assert (Hp : Pre cands c).
  { split; cbn; try done.
    - split; [split; cbn; try done; by constructor|]. exists None. split; [done|]. split; [|by intros []]. intros i.
      by rewrite lookup_empty.
    - unfold enumerate. apply snd_zip. by rewrite length_seq.
    - unfold enumerate. rewrite fst_zip by (by rewrite length_seq). by rewrite length_zip_with, length_seq, Nat.min_id.
    - intros i. rewrite lookup_empty. by intros [].
    - intros i Hi. by apply elem_of_nil in Hi.
    - constructor.
    - intros i Hi. lia. }
  unfold connect_hedged. destruct cands as [|p ps].
  - split; [by eapply Pre_same; eauto; cbn|]. unfold coord_ok. by cbn.
  - apply top_Inv; [done | done | done |]. intros i Hi. by apply elem_of_nil in Hi.
Qed.

Lemma race_run_Inv o cands now es : Inv cands (run o es (connect_hedged o cands now)).
Proof.
  unfold run. generalize (start_Inv o cands now). generalize (connect_hedged o cands now). induction es as [|e es IH]; intros c Hc; [done|].
  cbn. apply IH. destruct (step o c e) as [c'|] eqn:E; cbn; [by eapply race_step_Inv | done].
Qed.

(** *** How long a race is *)

Definition rank (p : Phase) : nat :=
  match p with
  | Acquiring => 6 | Acquired => 5 | Admitting => 4 | Queued => 3 | Handshaking => 2 | Releasing _ => 1 | Ended _ => 0
  end.
Definition weigh (m : gmap nat Task) : nat := map_fold (fun _ t n => (S (rank (t_phase t)) + n)%nat) 0%nat m.
Definition work_left (c : Race) : nat := (8 * length (pending c) + weigh (running c))%nat.

Lemma weigh_insert m i t : m !! i = None -> weigh (<[i := t]> m) = (S (rank (t_phase t)) + weigh m)%nat.
Proof. intros H. unfold weigh. rewrite map_fold_insert_L; [done | intros; lia | done]. Qed.
Lemma weigh_delete m i t : m !! i = Some t -> weigh m = (S (rank (t_phase t)) + weigh (delete i m))%nat.
Proof. intros H. unfold weigh. rewrite (map_fold_delete_L _ _ i t m); [done | intros; lia | done]. Qed.

(** The moves of attempts and of the coordinator. *)
Definition moves (e : Event) : bool := match e with OfAttempt _ _ | Join _ => true | _ => false end.

Fixpoint moved (o : HedgeOptions) (es : list Event) (c : Race) : nat :=
  match es with
  | [] => 0
  | e :: es' =>
      match step o c e with
      | Some c' => (Nat.b2n (moves e) + moved o es' c')%nat
      | None => moved o es' c
      end
  end.

Lemma attempt_rank i e el s p s' p' : attempt i e el s p = Some (s', p') -> (rank p' < rank p)%nat.
Proof.
  destruct p as [| | | | |r|f], e as [[[]|err]| |[u|err]|]; cbn [attempt]; intros Ha; try discriminate Ha;
    repeat match type of Ha with context [if ?b then _ else _] => destruct b end; try discriminate Ha; injection Ha as <- <-; cbn; lia.
Qed.

Lemma top_left o c : (work_left (top o c) <= work_left c)%nat.
Proof.
  unfold top. case_bool_decide as E; [|done]. destruct (pending c) as [|[i p] rest] eqn:Ep.
  - unfold work_left. cbn. by rewrite Ep.
  - unfold work_left. cbn. rewrite E, Ep, weigh_insert by apply lookup_empty. cbn. lia.
Qed.

Lemma step_left o cands c e c' : Inv cands c -> step o c e = Some c' ->
  (Nat.b2n (moves e) + work_left c' <= work_left c)%nat.
Proof.
  intros [Hp _] Hs. destruct e as [i e|i| |d| |i]; cbn [step] in Hs.
  - destruct (running c !! i) as [[st p]|] eqn:Ei; cbn in Hs; [|done].
    destruct (attempt i e _ (race c) p) as [[s p']|] eqn:Ea; cbn in Hs; [|done]. injection Hs as <-.
    apply attempt_rank in Ea. unfold work_left. cbn. rewrite (weigh_delete (running c) i _ Ei).
    rewrite <- insert_delete_eq, weigh_insert by apply lookup_delete_eq. cbn. lia.
  - destruct (running c !! i) as [[st p]|] eqn:Ei; cbn in Hs; [|done]. destruct p as [| | | | |r|f]; try discriminate Hs.
    assert (Hd : (1 + work_left (set_running (delete i (running c)) c) <= work_left c)%nat).
    { unfold work_left. cbn. rewrite (weigh_delete (running c) i _ Ei). cbn. lia. }
    set (c1 := set_running _ c) in *. change (coord c) with (coord c1) in Hs. clearbody c1. change (Nat.b2n (moves (Join i))) with 1%nat.
    destruct (coord c1), f as [f|]; try discriminate Hs; try (injection Hs as <-; try pose proof (top_left o c1); lia).
    + destruct (launched c !! f_index f) as [proxy|]; cbn in Hs; [|done]. injection Hs as <-. unfold joined.
      destruct (f_result f) as [u|[|err]]; [unfold work_left in *; cbn; lia|..].
      * etransitivity; [apply le_n_S, top_left; tauto|]. unfold work_left in *. cbn. lia.
      * etransitivity; [apply le_n_S, top_left; tauto|]. unfold work_left in *. cbn. lia.
    + destruct (launched c !! f_index f) as [proxy|]; cbn in Hs; [|done]. injection Hs as <-. unfold drained, work_left in *. cbn. lia.
  - destruct (coord c), (hedge_at c) as [a|]; try discriminate Hs. destruct (_ && _); [|done]. cbn [race pending set_hedge_at] in Hs.
    destruct (slot (race c)), (pending c) as [|[i p] rest] eqn:Ep; injection Hs as <-; unfold work_left; cbn; rewrite ?Ep; try lia.
    destruct (launch_Pre _ _ _ _ _ Hp Ep) as [_ ->].
    assert (Hn : running c !! length (launched c) = None).
    { destruct (running c !! length (launched c)) eqn:E; [|done].
      assert (length (launched c) < length (launched c))%nat by (apply (q_running _ _ Hp); by eexists). lia. }
    rewrite weigh_insert by done. cbn. lia.
  - destruct (0 <=? d); [|done]. injection Hs as <-. done.
  - destruct (coord c); try discriminate Hs. injection Hs as <-. done.
  - destruct (coord c); try discriminate Hs. destruct (running c !! i) as [[st p]|] eqn:Ei; [|done].
    destruct p; try discriminate Hs; injection Hs as <-; unfold work_left; cbn; rewrite (weigh_delete (running c) i _ Ei); lia.
Qed.

Lemma moved_left o cands es : forall c, Inv cands c -> (moved o es c <= work_left c)%nat.
Proof.
  induction es as [|e es IH]; intros c Hc; cbn [moved]; [lia|]. destruct (step o c e) as [c'|] eqn:E; [|by apply IH].
  pose proof (step_left _ _ _ _ _ Hc E). specialize (IH c' (race_step_Inv _ _ _ _ _ Hc E)). lia.
Qed.

Lemma start_left o cands now : (work_left (connect_hedged o cands now) <= 8 * length cands)%nat.
Proof.
  unfold connect_hedged. destruct cands as [|p ps]; [done|].
  etransitivity; [apply top_left; tauto|]. unfold work_left. cbn [pending running]. unfold enumerate.
  rewrite length_zip_with, length_seq, Nat.min_id. change (weigh ∅) with 0%nat. lia.
Qed.

(** Whether an attempt waits for the pool or for its upstream. *)
Definition waits (p : Phase) : bool := match p with Acquiring | Handshaking => true | _ => false end.

Lemma someone_moves o cands c : Inv cands c -> coord c = Looping ->
  exists i t, running c !! i = Some t /\
    (waits (t_phase t) = true \/ is_Some (step o c (OfAttempt i Poll)) \/ is_Some (step o c (Join i))).
Proof.
  intros [Hp Hk] Hc. unfold coord_ok in Hk. rewrite Hc in Hk. destruct Hk as (Hne & _).
  apply map_choose in Hne as (i & [st p] & Hi).
  assert (Hmove : forall i st p, running c !! i = Some (mkTask st p) -> p <> Queued \/ slot (race c) = Some i ->
    waits p = true \/ is_Some (step o c (OfAttempt i Poll)) \/ is_Some (step o c (Join i))).
  { clear i st p Hi. intros i st p Hi Hq. destruct (waits p) eqn:Ew; [by left|]. right. cbn [step]. rewrite Hi. cbn.
    destruct p as [| | | | |r|f]; try discriminate Ew; cbn.
    - left. by eexists.
    - left. by eexists.
    - left. destruct Hq as [|Hq]; [done|]. rewrite bool_decide_true by done. destruct (won (race c)); by eexists.
    - left. by eexists.
    - right. rewrite Hc. destruct f as [f|]; [|by eexists].
      pose proof (l_phase _ _ (k_lock _ _ (q_race _ _ Hp)) _ _ Hi) as (_ & _ & Hidx & _).
      destruct (lookup_lt_is_Some_2 (launched c) (f_index f)) as [px Hpx]; [rewrite Hidx; apply (q_running _ _ Hp); by eexists|].
      rewrite Hpx. cbn. by eexists. }
  destruct (decide (slot (race c) = Some i)) as [Hs|Hs]; [exists i, (mkTask st p); split; [done|]; by eapply Hmove; eauto|].
  destruct p; try (exists i; eexists; split; [exact Hi|]; by eapply Hmove; eauto).
  pose proof (l_phase _ _ (k_lock _ _ (q_race _ _ Hp)) _ _ Hi) as Hph. cbn in Hph.
  destruct (slot (race c)) as [k|] eqn:Es.
  - destruct (l_slot _ _ (k_lock _ _ (q_race _ _ Hp)) _ Es) as [[stk pk] Hk]. exists k, (mkTask stk pk).
      split; [done|]. eapply Hmove; [done|]. by right.
  - rewrite (l_free _ _ (k_lock _ _ (q_race _ _ Hp)) Es) in Hph. destruct Hph as [[? _]|[_ ?%elem_of_nil]]; done.
Qed.

(** *** Launches *)

Lemma top_launches o cands c : Pre cands c ->
  launched (top o c) = launched c \/
  exists p, cands !! length (launched c) = Some p /\ launched (top o c) = launched c ++ [p] /\
    running (top o c) = {[ length (launched c) := mkTask (clock c) Acquiring ]}.
Proof.
  intros Hp. unfold top. case_bool_decide as E; [|by left]. destruct (pending c) as [|[i p] rest] eqn:Ep; [by left|].
  right. exists p. destruct (launch_Pre _ _ _ _ _ Hp Ep) as [_ ->]. cbn. rewrite E.
  split; [|done]. rewrite <- (q_launched _ _ Hp), Ep. cbn. by rewrite list_lookup_middle.
Qed.

(** ** Theorems *)

(** C6: The target of a hedged connect never sees two handshakes at once, and none begins
    after one has succeeded, whatever the pool and the upstreams answer, however the
    attempts, the ticks, the joins, panics and the drop of the future interleave: an
    upstream waiting with its socket sends nothing. So a success after the win, which the
    reports have a name for, cannot happen. *)
Theorem hedged_exclusive o cands now es :
  let c := run o es (connect_hedged o cands now) in
  watched (history (race c)) <> None /\
  (forall i j, Succeeded i ∈ history (race c) -> Succeeded j ∈ history (race c) -> i = j) /\
  Forall (fun r => r_outcome r <> LateSuccess) (reports c).
Proof.
  intros c. destruct (race_run_Inv o cands now es) as [Hp _]. fold c in Hp.
  destruct (k_watched _ _ (q_race _ _ Hp)) as (cur & Hw & _). split; [by rewrite Hw|]. split.
  - intros i j. eapply success_once, Hp.
  - eapply Forall_impl; [apply Hp|]. intros r Hr E. pose proof (p_outcome _ _ Hr) as Ho. by rewrite E in Ho.
Qed.

(** Every launched attempt is still running, or has been reported, or was stopped (a
    panic, the drop of the future): exactly one of these, and reported once, under its own
    upstream. A win is reported as such before any other attempt's later end; an attempt
    is reported lost only after a win. *)
Theorem hedged_reports o cands now es :
  let c := run o es (connect_hedged o cands now) in
  NoDup (map r_index (reports c)) /\
  (forall i, (i < length (launched c))%nat ->
     is_Some (running c !! i) \/ i ∈ map r_index (reports c) \/ Stopped i ∈ history (race c)) /\
  Forall (fun r => cands !! r_index r = Some (r_proxy r) /\ running c !! r_index r = None /\
    Stopped (r_index r) ∉ history (race c) /\
    match r_outcome r with
    | Won => Succeeded (r_index r) ∈ history (race c) /\ after_win r = false
    | LateSuccess => False
    | Lost => after_win r = true
    | FailedWith _ => after_win r = true -> exists h, coord c = Returned (Ok h)
    end) (reports c).
Proof.
  intros c. destruct (race_run_Inv o cands now es) as [Hp _]. fold c in Hp.
  split; [apply Hp|]. split; [apply Hp|]. eapply Forall_impl; [apply Hp|]. intros r [H1 H2 H3 H4].
  split; [|split_and!; try done].
  - rewrite <- (q_launched _ _ Hp). by apply lookup_app_l_Some.
  - destruct (r_outcome r); tauto.
Qed.

(** C27: What the race returns. A stream: that of the one attempt whose handshake has
    succeeded, the only one reported as won. An error: every candidate was launched and
    counted, each was reported failed, or panicked, none succeeded, and the last error is
    that of the last failure reported. *)
Theorem hedged_result o cands now es r :
  let c := run o es (connect_hedged o cands now) in
  coord c = Returned r ->
  match r with
  | Ok h => is_Some (cands !! winner h) /\ Succeeded (winner h) ∈ history (race c) /\
      winner h ∈ map r_index (reports c) /\
      Forall (fun r => r_outcome r = Won <-> r_index r = winner h) (reports c)
  | Err e => attempts e = length cands /\ launched c = cands /\
      last e = list.last (omap failure (reports c)) /\ (forall i, Succeeded i ∉ history (race c)) /\
      forall i, (i < length cands)%nat ->
        (exists r, r ∈ reports c /\ r_index r = i /\ is_Some (failure r)) \/ Stopped i ∈ history (race c)
  end.
Proof.
  intros c Hc. destruct (race_run_Inv o cands now es) as [Hp Hk]. fold c in Hp, Hk. unfold coord_ok in Hk. rewrite Hc in Hk.
  pose proof (q_reports _ _ Hp) as Hfa. rewrite Forall_forall in Hfa. destruct r as [h|e].
  - destruct Hk as (r & Hr & Hw & Ho). pose proof (Hfa _ Hr) as [P1 P2 P3 P4]. rewrite Ho, Hw in *. destruct P4 as [P4 _].
    split; [rewrite <- (q_launched _ _ Hp); eexists; by apply lookup_app_l_Some|]. split; [done|].
    split; [rewrite <- Hw; by apply list_elem_of_fmap_2|]. apply Forall_forall. intros r' Hr'. split.
    + intros Ho'. pose proof (p_outcome _ _ (Hfa _ Hr')) as P. rewrite Ho' in P. destruct P as [P _].
      by eapply success_once; [apply Hp|..].
    + intros E. pose proof (q_nodup _ _ Hp) as Hnd.
      apply list_elem_of_lookup in Hr as [k Hk]. apply list_elem_of_lookup in Hr' as [k' Hk'].
      assert (k' = k) as ->; [|congruence].
      eapply NoDup_lookup; [exact Hnd|..]; rewrite list_lookup_fmap; [by rewrite Hk' | rewrite Hk; cbn; congruence].
  - destruct Hk as (He & Hpe & Ha & Hl & Hw). pose proof (q_launched _ _ Hp) as Hla. rewrite Hpe, app_nil_r in Hla.
    assert (Hno : forall i, Succeeded i ∉ history (race c)).
    { intros i Hi. rewrite (success_won _ _ _ (q_race _ _ Hp) Hi) in Hw. done. }
    split; [congruence|]. split; [done|]. split; [done|]. split; [done|]. intros i Hi. rewrite <- Hla in Hi.
    destruct (q_all _ _ Hp i Hi) as [Hr|[Hr|Hr]]; [rewrite He, lookup_empty in Hr; by destruct Hr | | by right].
    left. apply list_elem_of_fmap in Hr as (r & -> & Hr). exists r. split; [done|]. split; [done|].
    pose proof (p_outcome _ _ (Hfa _ Hr)) as P. unfold failure. destruct (r_outcome r); [| done | | by eexists].
    + destruct P as [P _]. by apply Hno in P.
    + destruct P as [P _]. congruence.
Qed.

(** Candidates are launched in the order they are given, one at a time: alone, when
    every attempt before has ended, or beside the others at a tick of the timer that finds
    the handshake slot free, so that no launch joins an attempt that is talking to the
    target, and without a delay never beside another. *)
Theorem hedged_launches o cands now es e c' :
  let c := run o es (connect_hedged o cands now) in
  step o c e = Some c' ->
  launched c' = launched c \/
  exists p, cands !! length (launched c) = Some p /\ launched c' = launched c ++ [p] /\
    (running c' = {[ length (launched c) := mkTask (clock c) Acquiring ]} \/
     e = Tick /\ slot (race c) = None /\ hedge_delay o <> 0 /\ exists at_, hedge_at c = Some at_ /\ at_ <= clock c).
Proof.
  intros c Hs. pose proof (race_run_Inv o cands now es) as [Hp _]. fold c in Hp.
  destruct e as [i e|i| |d| |i]; cbn [step] in Hs.
  - destruct (running c !! i) as [t|]; cbn in Hs; [|done].
    destruct (attempt i e _ (race c) (t_phase t)) as [[s p']|]; cbn in Hs; [|done]. injection Hs as <-. by left.
  - destruct (running c !! i) as [[st p]|] eqn:Ei; cbn in Hs; [|done]. destruct p as [| | | | |r|f]; try discriminate Hs.
    assert (Htop : forall c1, launched c1 = launched c -> clock c1 = clock c -> Pre cands c1 ->
      launched (top o c1) = launched c \/ exists p, cands !! length (launched c) = Some p /\ launched (top o c1) = launched c ++ [p] /\
        (running (top o c1) = {[ length (launched c) := mkTask (clock c) Acquiring ]} \/
         Join i = Tick /\ slot (race c) = None /\ hedge_delay o <> 0 /\ exists at_, hedge_at c = Some at_ /\ at_ <= clock c)).
    { intros c1 E1 E2 Hc1. destruct (top_launches o cands c1 Hc1) as [H|(p & H1 & H2 & H3)]; [left; congruence|].
      right. exists p. rewrite <- E1, <- E2. split_and!; [done | done | by left]. }
    pose proof (l_phase _ _ (k_lock _ _ (q_race _ _ Hp)) _ _ Ei) as Hph. cbn [t_phase phase_ok] in Hph.
    destruct (coord c) eqn:Ec; try discriminate Hs; (destruct f as [f|]; [destruct (launched c !! f_index f) as [proxy|] eqn:El; cbn in Hs; [|done]|]);
      injection Hs as Hs; subst c'; try (by left).
    + unfold joined. destruct Hph as (_ & _ & Hidx & Hres). destruct (f_result f) as [u|[|err]] eqn:Er; [by left| |].
      * cbn [race set_running]. rewrite Hres. apply Htop; [done | done|].
        eapply (report_Pre _ _ _ _ _ proxy Lost true Hp Ei El). by rewrite Er.
      * apply Htop; [done | done|].
        eapply Pre_same; [by apply (report_Pre _ _ _ _ _ proxy (FailedWith err) false Hp Ei El)|done..|eauto].
    + apply Htop; [done | done|]. by eapply delete_Pre.
  - destruct (coord c), (hedge_at c) as [a|] eqn:Ea; try discriminate Hs.
    destruct (negb (hedge_delay o =? 0) && (0 <? length (pending c))%nat && (a <=? clock c)) eqn:Eg; [|done].
    cbn [race pending set_hedge_at] in Hs. destruct (slot (race c)), (pending c) as [|[i p] rest] eqn:Ep; injection Hs as <-; try (by left).
    right. exists p. destruct (launch_Pre _ _ _ _ _ Hp Ep) as [_ ->]. cbn. rewrite <- (q_launched _ _ Hp), Ep. cbn.
    split; [by rewrite list_lookup_middle|]. split; [done|]. right. split; [done|]. split; [done|].
    rewrite !andb_true_iff, negb_true_iff in Eg. destruct Eg as [[E1 _] E2]. split; [by apply Z.eqb_neq|].
    exists a. split; [done | by apply Z.leb_le].
  - destruct (0 <=? d); [|done]. injection Hs as <-. by left.
  - destruct (coord c); try discriminate Hs. injection Hs as <-. by left.
  - destruct (coord c); try discriminate Hs. destruct (running c !! i) as [[st p]|]; [|done].
    destruct p; try discriminate Hs; injection Hs as <-; by left.
Qed.

(** The race ends: the attempts and the coordinator make eight moves at most for every
    candidate, whatever the ticks, and until the race has returned some attempt waits for
    the pool or for its upstream, or can go on, or is to be joined: never does everyone
    wait for the handshake slot. *)
Theorem hedged_ends o cands now es :
  (moved o es (connect_hedged o cands now) <= 8 * length cands)%nat /\
  let c := run o es (connect_hedged o cands now) in
  coord c <> Looping \/
  exists i t, running c !! i = Some t /\
    (waits (t_phase t) = true \/ is_Some (step o c (OfAttempt i Poll)) \/ is_Some (step o c (Join i))).
Proof.
  split.
  - etransitivity; [eapply moved_left, start_Inv | apply start_left].
  - intros c. destruct (coord c) eqn:E; [right | by left..]. eapply someone_moves; [apply race_run_Inv | exact E].
Qed.

End Race.

(** ** A concrete race *)

(** The first upstream hangs at its handshake; a tick may not launch beside it. It fails,
    and the second wins while the third waits for the slot. *)
Definition demo_up (h : string) : ProxyConfig := ProxyTypes.new Socks5 (lit h) 1080.
Definition demo_cands : list ProxyConfig := map demo_up ["a"; "b"; "c"]%string.
Definition demo_poll (i n : nat) : list (Event (U := nat)) := replicate n (OfAttempt i Poll).
Definition demo_race : list (Event (U := nat)) :=
  OfAttempt 0 (Acquire (Ok tt)) :: Advance (from_secs 2) :: Tick :: demo_poll 0 3 ++
  [Advance (from_secs 2); Tick; OfAttempt 1 (Acquire (Ok tt))] ++ demo_poll 1 3 ++
  [OfAttempt 0 (Shake (Err (Timeout StageConnect TcpConnect (lit "a") 1)))] ++ demo_poll 0 1 ++
  [Advance (from_secs 2); Tick; Join 0; OfAttempt 1 Poll; OfAttempt 1 (Shake (Ok 7%nat)); OfAttempt 1 Poll; Join 1].
Notation demo_run := (run default_options demo_race (connect_hedged default_options demo_cands 0)).

Example demo_outcome : coord demo_run = Returned (Ok (mkHedged 7%nat 1)) /\
  map (fun r => (r_index r, after_win r)) (reports demo_run) = [(0%nat, false); (1%nat, false)] /\
  history (race demo_run) = [Began 0; GaveUp 0; Began 1; Succeeded 1].
Proof. vm_compute. repeat split. Qed.

Lemma hedged_result_witness :
  coord demo_run = Returned (Ok (mkHedged 7%nat 1)) /\
  (is_Some (demo_cands !! 1%nat) /\ Succeeded 1 ∈ history (race demo_run) /\
   1%nat ∈ map r_index (reports demo_run) /\
   Forall (fun r => r_outcome r = Won <-> r_index r = 1%nat) (reports demo_run)).
Proof.
  assert (H : coord demo_run = Returned (Ok (mkHedged 7%nat 1))) by (vm_compute; reflexivity).
  split; [exact H|]. exact (hedged_result default_options demo_cands 0 demo_race _ H).
Defined.

(** The tick that launches the second attempt. *)
Notation demo_before := (run default_options (take 1 demo_race ++ [Advance (from_secs 2)]) (connect_hedged default_options demo_cands 0)).
Lemma hedged_launches_witness :
  is_Some (step default_options demo_before Tick) /\
  exists c', step default_options demo_before Tick = Some c' /\
  (launched c' = launched demo_before \/
   exists p, demo_cands !! length (launched demo_before) = Some p /\ launched c' = launched demo_before ++ [p] /\
    (running c' = {[ length (launched demo_before) := mkTask (clock demo_before) Acquiring ]} \/
     Tick = Tick (U := nat) /\ slot (race demo_before) = None /\ hedge_delay default_options <> 0 /\
       exists at_, hedge_at demo_before = Some at_ /\ at_ <= clock demo_before)).
Proof.
  assert (H : exists c', step default_options demo_before Tick = Some c') by (vm_compute; eexists; reflexivity).
  split; [exact H|]. destruct H as [c' H]. exists c'. split; [exact H|].
  exact (hedged_launches default_options demo_cands 0 (take 1 demo_race ++ [Advance (from_secs 2)]) Tick c' H).
Defined.

End Hedged.
