(* ===== verification/Probes.v ===== *)
(** Background probes of quarantined upstreams
    (src/crates/resocks5/src/server/connect/establish_connection/probes.rs).

    Before a request is routed, the quarantined nodes that are due are claimed and
    checked in the background: the directly dialed ones by their own rotators, an inner
    gate through a chain of healthy nodes of the levels above it ([healthy_prefix]). What
    a check settles ([probe_chain]) depends on which node failed, and on the lease.

    - a probe is over before its lease is ([probe_fits_lease]);
    - what a probe changes ([probe_settlement]);
    - the prefix it goes through ([healthy_prefix_spec]). *)
From S2P Require Import Prelude Text ProxyTypes Errors HostPort Stream Floats Rating Select Quarantine Ratings Rotator ChainPlan Upstream Dial PoolDial.

Module Probes.
Import ChainPlan.

(** ** Budgets *)

Definition dur_saturating_add (a b : Z) : Z := Z.min (a + b) DURATION_MAX.
Definition dur_saturating_mul (d n : Z) : Z := Z.min (d * n) DURATION_MAX.
Definition dur_saturating_sub (a b : Z) : Z := Z.max (a - b) 0.

Definition PROBE_LEASE_MARGIN : Z := from_secs 5.

(** [u32::try_from(depth.saturating_add(1)).unwrap_or(u32::MAX)] handshakes. *)
Definition probe_deadline (connect_timeout handshake_timeout : Z) (depth : nat) : Z :=
  let handshakes := Z.min (Z.min (Z.of_nat depth + 1) U64_MAX) U32_MAX in
  dur_saturating_add connect_timeout (dur_saturating_mul handshake_timeout handshakes).

Definition probe_lease (connect_timeout handshake_timeout : Z) (depth : nat) : Z :=
  dur_saturating_add (probe_deadline connect_timeout handshake_timeout depth) PROBE_LEASE_MARGIN.

(** ** Verdicts *)

Inductive ProbeVerdict := HardFailure | Inconclusive.

Definition classify_probe_error (st : ChainStage) (err : ConnectError) : ProbeVerdict :=
  match st, err with
  | STarget, ProxyRejected _ _ _ => HardFailure
  | _, _ => Inconclusive
  end.

Section Probes.
Context {F : Type} `{Float F}.
Local Abbreviation Store := (list (Rotator.t F)).

Definition quarantined (rs : Store) (i : nat) (p : ProxyConfig) : bool :=
  match rs !! i with Some r => Rotator.is_quarantined r p | None => false end.

(** The loop of [healthy_prefix]; [clock k] is its [k]-th reading of the clock. *)
Fixpoint healthy_nodes (gates : list (Z * nat)) (rank : Z) (clock : nat -> Z) (k : nat) (rs : Store)
    : option (list ProxyConfig) * Store :=
  match gates with
  | [] => (Some [], rs)
  | (level_rank, i) :: gates' =>
      if level_rank =? rank then (Some [], rs)
      else if rank <? level_rank then
        let '(order, rs1) := with_rotator rs i [] (Rotator.pick_order (clock k)) in
        match List.find (fun p => negb (quarantined rs1 i p)) order with
        | None => (None, rs1)
        | Some p =>
            let '(rest, rs2) := healthy_nodes gates' rank clock (S k) rs1 in (cons p <$> rest, rs2)
        end
      else healthy_nodes gates' rank clock (S k) rs
  end.

Definition healthy_prefix (gates : list (Z * nat)) (rank : Z) (clock : nat -> Z) (rs : Store)
    : option ProxyConfig * Store :=
  let '(ns, rs') := healthy_nodes gates rank clock 0 rs in (ns ≫= chain, rs').

(** ** Claims *)

(** A node claimed for a probe, and when. *)
Record Claim := mkClaim { c_rank : Z; c_rotator : nat; c_proxy : ProxyConfig; claimed : Z }.

(** [gates.iter().skip(1)]: an inner level's due nodes, each for a task of its own. The
    clock is read before the claim. *)
Fixpoint claim_probes (gates : list (Z * nat)) (clock : nat -> Z) (k : nat) (rs : Store)
    : list Claim * Store :=
  match gates with
  | [] => ([], rs)
  | (rank, i) :: gates' =>
      let claimed := clock k in
      let '(ps, rs1) := with_rotator rs i [] (Rotator.take_probes (clock (S k))) in
      let '(rest, rs2) := claim_probes gates' clock (S (S k)) rs1 in
      (map (fun p => mkClaim rank i p claimed) ps ++ rest, rs2)
  end.

(** What is started: the rotators whose due nodes are dialed directly, the claims, and
    the lease of each. *)
Record Spawned := mkSpawned { direct : list nat; claims : list Claim; lease : Z }.

Definition spawn_chain_probes (gates : list (Z * nat)) (exits : list nat)
    (connect_timeout handshake_timeout : Z) (clock : nat -> Z) (rs : Store) : Spawned * Store :=
  let outermost := match gates with (_, i) :: _ => [i] | [] => [] end in
  let lease := probe_lease connect_timeout handshake_timeout (length gates) in
  let '(cs, rs') := claim_probes (tail gates) clock 0 rs in
  (mkSpawned (outermost ++ exits) cs lease, rs').

(** ** A probe *)

(** [outcome]: what is recorded of the tested node. *)
Definition outcome (c : Claim) (success : bool) (now : Z) (rs : Store) : Store :=
  (with_rotator rs (c_rotator c) tt (fun r =>
     (tt, if success then Rotator.record_success (c_proxy c) now r
          else (Rotator.record_hard_failure (c_proxy c) now r).2))).2.

Section Attempt.
Context {X : Type} `{PoolDial.PoolOps X}.
Variables (early_eof write_zero : IoError) (encode64 : bytes -> bytes) (pace : nat -> option N).
Variables (valid_name : bytes -> bool) (tls_connect : bytes -> Stream.conn X -> Stream.poll (result IoError unit) * Stream.conn X).
Variables (handshake_timeout : Z) (has_connector : bool).

Definition connect_prefix (prefix : ProxyConfig) (target : bytes) : Dial.D ChainError (Dial.AnyUpstream (X := X)) :=
  PoolDial.connect_chain early_eof write_zero encode64 pace valid_name tls_connect prefix target
    handshake_timeout has_connector.

(** [timeout_at(deadline, future)]. *)
Definition timeout_at {E A} (deadline : Z) (m : Dial.D E A) (w : Dial.world) : option (result E A) * Dial.world :=
  let '(r, w') := m w in
  if Dial.now w' <=? deadline then (Some r, w')
  else (None, Dial.cut (Z.max (Dial.now w) deadline) w').

Definition probe_chain (prefix : ProxyConfig) (c : Claim) (deadline lease_until : Z)
    (w : Dial.world) (rs : Store) : Dial.world * Store :=
  match PoolDial.reserve_permit (c_proxy c) w with
  | (Err _, w) => (w, rs)
  | (Ok _, w) =>
      let target := HostPort.format (host (c_proxy c)) (port (c_proxy c)) in
      let '(attempt, w) := timeout_at deadline (connect_prefix prefix target) w in
      if lease_until <=? Dial.now w then (w, rs)
      else
        match attempt with
        | Some (Ok _) => (w, outcome c true (Dial.now w) rs)
        | Some (Err e) =>
            match classify_probe_error (stage e) (error e) with
            | HardFailure => (w, outcome c false (Dial.now w) rs)
            | Inconclusive => (w, rs)
            end
        | None => (w, rs)
        end
  end.

(** The deadline of a claim whose prefix has that many nodes. *)
Definition claim_deadline (connect_timeout handshake_timeout : Z) (depth : nat) (c : Claim) : Z :=
  claimed c + dur_saturating_sub (probe_deadline connect_timeout handshake_timeout depth) (from_secs 1).

(** The task spawned for a claim. *)
Definition probe_task (gates : list (Z * nat)) (connect_timeout lease : Z) (c : Claim)
    (clock : nat -> Z) (w : Dial.world) (rs : Store) : Dial.world * Store :=
  let '(prefix, rs) := healthy_prefix gates (c_rank c) clock rs in
  match prefix with
  | None => (w, rs)
  | Some prefix =>
      probe_chain prefix c
        (claim_deadline connect_timeout handshake_timeout (length (nodes prefix)) c)
        (claimed c + lease) w rs
  end.
End Attempt.
End Probes.

(** ** Theorems *)

Section Facts.
Context {F : Type} `{FloatLaws F}.
Implicit Types rs : list (Rotator.t F).

Lemma from_secs_pos n : 0 < n -> 0 < from_secs n.
Proof. unfold from_secs, NANOS. lia. Qed.

Lemma deadline_mono ct hs d d' : 0 <= hs -> (d <= d')%nat -> probe_deadline ct hs d <= probe_deadline ct hs d'.
Proof.
  intros Hh Hd. unfold probe_deadline, dur_saturating_add, dur_saturating_mul.
  assert (hs * Z.min (Z.min (Z.of_nat d + 1) U64_MAX) U32_MAX <= hs * Z.min (Z.min (Z.of_nat d' + 1) U64_MAX) U32_MAX)
    by (apply Z.mul_le_mono_nonneg_l; lia). lia.
Qed.

(** A pick order draws random numbers and changes nothing else. *)
Lemma pick_order_keeps now (r : Rotator.t F) :
  let r' := (Rotator.pick_order now r).2 in
  Rotator.proxies r' = Rotator.proxies r /\ (forall p, Rotator.is_quarantined r' p = Rotator.is_quarantined r p) /\
  Ratings.qcells (Rotator.ratings r') = Ratings.qcells (Rotator.ratings r).
Proof.
  unfold Rotator.pick_order, Ratings.pick_order. destruct (Select.weighted_keys _ _) as [keyed rng']. done.
Qed.

Lemma store_insert rs i r r' j : rs !! i = Some r -> <[i := r']> rs !! j = if decide (i = j) then Some r' else rs !! j.
Proof.
  intros Hi. destruct (decide (i = j)) as [<-|]; [|by rewrite list_lookup_insert_ne].
  rewrite list_lookup_insert_eq; [done | by eapply lookup_lt_Some].
Qed.

Lemma with_order_keeps rs i now order rs' : with_rotator rs i [] (Rotator.pick_order now) = (order, rs') ->
  (forall j p, quarantined rs' j p = quarantined rs j p) /\ (forall j, all_proxies rs' j = all_proxies rs j) /\
  quarantines rs' = quarantines rs /\
  match rs !! i with Some r => order = (Rotator.pick_order now r).1 | None => order = [] end.
Proof.
  unfold with_rotator. destruct (rs !! i) as [r|] eqn:Ei; [|by intros [= <- <-]].
  pose proof (pick_order_keeps now r) as (H1 & H2 & H3). destruct (Rotator.pick_order now r) as [o r'].
  intros [= <- <-]. cbn in H1, H2, H3. split_and!.
  - intros j p. unfold quarantined. rewrite (store_insert _ _ _ _ _ Ei). destruct (decide (i = j)) as [<-|]; [by rewrite Ei|done].
  - intros j. unfold all_proxies. rewrite (store_insert _ _ _ _ _ Ei). destruct (decide (i = j)) as [<-|]; [by rewrite Ei|done].
  - unfold quarantines. apply list_eq. intros j. rewrite !list_lookup_fmap, (store_insert _ _ _ _ _ Ei).
    destruct (decide (i = j)) as [<-|]; [|done]. by rewrite Ei; cbn; rewrite H3.
  - done.
Qed.

(** The levels the loop goes through. *)
Fixpoint above (gates : list (Z * nat)) (rank : Z) : list (Z * nat) :=
  match gates with
  | [] => []
  | g :: gates' => if g.1 =? rank then [] else if rank <? g.1 then g :: above gates' rank else above gates' rank
  end.

(** Levels that go down, as [GateLevels] sorts them. *)
Definition descending (gates : list (Z * nat)) : Prop := StronglySorted (fun a b => b.1 < a.1) gates.

Lemma above_filter gates rank : descending gates -> above gates rank = List.filter (fun g => rank <? g.1) gates.
Proof.
  induction 1 as [|g gs Hs IH Hf]; [done|]. cbn. destruct (Z.eqb_spec g.1 rank) as [E|E].
  - rewrite (proj2 (Z.ltb_ge rank g.1)) by lia. clear IH Hs. induction Hf as [|h hs Hh Hf IH]; [done|].
    cbn. rewrite (proj2 (Z.ltb_ge rank h.1)) by lia. exact IH.
  - by destruct (rank <? g.1); rewrite IH.
Qed.

(** A node of a level that may be gone through. *)
Definition usable rs (g : Z * nat) (p : ProxyConfig) : Prop :=
  p ∈ all_proxies rs g.2 /\ quarantined rs g.2 p = false.

Definition rotators_wf rs (gates : list (Z * nat)) : Prop :=
  Forall (fun g => exists r, rs !! g.2 = Some r /\ Rotator.wf r) gates.

(** A pick order holds a healthy node when there is one. *)
Lemma order_usable rs i r now p : rs !! i = Some r -> Rotator.wf r ->
  p ∈ all_proxies rs i -> quarantined rs i p = false ->
  exists q, q ∈ (Rotator.pick_order now r).1 /\ quarantined rs i q = false.
Proof.
  intros Hi Hw Hp Hq. unfold all_proxies, quarantined in *. rewrite Hi in *.
  destruct (Rotator.pick_order_members now r Hw) as (Hne & _ & Hmem).
  destruct (Rotator.pick_order now r).1 as [|q qs] eqn:Eo; [done|].
  assert (Hh : Rotator.healthy r now p).
  { unfold Rotator.is_quarantined in Hq. apply list_elem_of_lookup in Hp as [k Hk].
    assert (Hix : Rotator.index_of r p = Some k) by (apply Rotator.index_of_spec; eauto).
    rewrite Hix in Hq. exists k. split; [done|]. unfold Ratings.is_quarantined in Hq. unfold Ratings.healthy_at.
    pose proof (proj1 (proj2 (proj2 (proj2 Hw)))) as Hrw. pose proof (proj1 (proj2 (proj2 (proj2 (proj2 Hw))))) as Hlen.
    assert (Hlt : (k < length (Ratings.qcells (Rotator.ratings r)))%nat).
    { rewrite (proj1 Hrw), Hlen. unfold Rotator.len. by eapply lookup_lt_Some. }
    apply lookup_lt_is_Some_2 in Hlt as [c Hc]. exists c. split; [done|]. rewrite Hc in Hq.
    unfold Quarantine.is_tripped in Hq. unfold Quarantine.state. by destruct (Quarantine.until c). }
  exists p. split; [|done]. apply Hmem. split; [done|]. done.
Qed.

Lemma healthy_nodes_spec gates : forall rank clock k rs ns rs',
  healthy_nodes gates rank clock k rs = (ns, rs') -> rotators_wf rs gates ->
  quarantines rs' = quarantines rs /\
  match ns with
  | Some ns => Forall2 (usable rs) (above gates rank) ns
  | None => Exists (fun g => forall p, p ∈ all_proxies rs g.2 -> quarantined rs g.2 p = true) (above gates rank)
  end.
Proof.
  induction gates as [|[lr i] gates IH]; intros rank clock k rs ns rs' Hrun Hw; cbn [healthy_nodes above fst] in *.
  { injection Hrun as <- <-. split; [done | constructor]. }
  apply Forall_cons in Hw as [(r & Hr & Hrw) Hw]. cbn [snd] in Hr.
  destruct (lr =? rank); [injection Hrun as <- <-; split; [done | constructor]|].
  destruct (rank <? lr); [|by eapply IH].
  destruct (with_rotator rs i [] _) as [order rs1] eqn:Eo. pose proof (with_order_keeps _ _ _ _ _ Eo) as (K1 & K2 & K3 & K4).
  rewrite Hr in K4.
  assert (Hw1 : rotators_wf rs1 gates).
  { eapply Forall_impl; [exact Hw|]. intros [lr' j] (r' & Hr' & Hrw'). cbn [snd] in *.
    unfold with_rotator in Eo. rewrite Hr in Eo. destruct (Rotator.pick_order (clock k) r) as [o rn] eqn:Ep.
    injection Eo as <- <-. rewrite (store_insert _ _ _ _ _ Hr). destruct (decide (i = j)) as [<-|]; [|by exists r'].
    exists rn. split; [done|]. change rn with (o, rn).2. rewrite <- Ep. by apply Rotator.pick_order_wf. }
  assert (Hus : forall g p, usable rs1 g p <-> usable rs g p) by (intros g p; unfold usable; by rewrite K1, K2).
  destruct (List.find _ order) as [p|] eqn:Ef.
  - apply find_some in Ef as [Hin Hq]. rewrite K1 in Hq. apply negb_true_iff in Hq.
    destruct (healthy_nodes gates rank clock (S k) rs1) as [rest rs2] eqn:Er.
    destruct (IH _ _ _ _ _ _ Er Hw1) as [Hqs Hrest]. injection Hrun as <- <-. split; [congruence|].
    destruct rest as [ns|]; cbn.
    + constructor.
      * split; [|done]. subst order. unfold all_proxies. cbn [snd]. rewrite Hr.
        destruct (Rotator.pick_order_members (clock k) r Hrw) as (_ & _ & Hmem). apply list_elem_of_In, Hmem in Hin. apply Hin.
      * eapply Forall2_impl; [exact Hrest|]. intros g q. apply Hus.
    + right. eapply Exists_impl; [exact Hrest|]. intros g Hg q. rewrite <- K1, <- K2. apply Hg.
  - injection Hrun as <- <-. split; [done|]. left. intros p Hp. destruct (quarantined rs i p) eqn:Eq; [done|]. exfalso.
    destruct (order_usable rs i r (clock k) p Hr Hrw Hp Eq) as (q & Hq1 & Hq2). rewrite <- K4 in Hq1.
    apply list_elem_of_In in Hq1. pose proof (find_none _ _ Ef _ Hq1) as Hn. cbn in Hn. rewrite K1, Hq2 in Hn. done.
Qed.

(** The chain an inner gate is probed through: one configured and not quarantined node
    for every level above it, outermost first; there is none exactly when the node is of
    the outermost level or all the nodes of a level above are quarantined; and looking for
    it changes nobody's quarantine. *)
Theorem healthy_prefix_spec gates rank clock rs prefix rs' :
  rotators_wf rs gates -> descending gates ->
  healthy_prefix gates rank clock rs = (prefix, rs') ->
  let levels := List.filter (fun g => rank <? g.1) gates in
  quarantines rs' = quarantines rs /\
  match prefix with
  | Some c => levels <> [] /\ exists ns, Forall2 (usable rs) levels ns /\ map ident (nodes c) = map ident ns
  | None => levels = [] \/ Exists (fun g => forall p, p ∈ all_proxies rs g.2 -> quarantined rs g.2 p = true) levels
  end.
Proof.
  intros Hw Hd Hrun. cbn zeta. rewrite <- (above_filter gates rank Hd). unfold healthy_prefix in Hrun.
  destruct (healthy_nodes gates rank clock 0 rs) as [ns rs1] eqn:En.
  destruct (healthy_nodes_spec _ _ _ _ _ _ _ En Hw) as [Hq Hns]. injection Hrun as <- <-. split; [done|].
  destruct ns as [ns|]; cbn; [|by right]. destruct ns as [|n ns].
  - left. by apply Forall2_nil_inv_r in Hns.
  - destruct (chain_Some (n :: ns)) as [c Hc]; [done|]. rewrite Hc. split.
    + intros E. rewrite E in Hns. by apply Forall2_nil_inv_l in Hns.
    + exists (n :: ns). split; [done|]. by apply nodes_of_chain_ident.
Qed.

(** ** Leases *)

Lemma healthy_nodes_length gates : forall rank clock k rs ns rs',
  healthy_nodes gates rank clock k rs = (Some ns, rs') -> (length ns <= length gates)%nat.
Proof.
  induction gates as [|[lr i] gates IH]; intros rank clock k rs ns rs' Hrun; cbn [healthy_nodes] in Hrun.
  - injection Hrun as <- <-. done.
  - destruct (lr =? rank); [injection Hrun as <- <-; cbn; lia|].
    destruct (rank <? lr); [|apply IH in Hrun; cbn; lia].
    destruct (with_rotator rs i [] _) as [order rs1]. destruct (List.find _ order) as [p|]; [|done].
    destruct (healthy_nodes gates rank clock (S k) rs1) as [[rest|] rs2] eqn:Er; [|done].
    injection Hrun as <- <-. apply IH in Er. cbn. lia.
Qed.

Lemma healthy_prefix_length gates rank clock rs prefix rs' :
  healthy_prefix gates rank clock rs = (Some prefix, rs') -> (length (nodes prefix) <= length gates)%nat.
Proof.
  unfold healthy_prefix. destruct (healthy_nodes gates rank clock 0 rs) as [[ns|] rs1] eqn:E; [|done].
  intros [= Hc <-]. apply nodes_of_chain_ident, (f_equal length) in Hc. rewrite !length_map in Hc.
  rewrite Hc. by eapply healthy_nodes_length.
Qed.

(** An attempt is over before the lease of the node it tests: whatever prefix is found,
    its deadline, which counts from the claim, is at least a second before the lease runs
    out, also where the durations saturate. So the probe of a lease never overlaps with the
    next one's. *)
Theorem probe_fits_lease gates exits ct hs c clock clock' rs prefix rs' rs0 :
  0 <= ct -> 0 <= hs ->
  healthy_prefix gates (c_rank c) clock rs = (Some prefix, rs') ->
  claim_deadline ct hs (length (nodes prefix)) c + from_secs 1
    <= claimed c + lease (spawn_chain_probes gates exits ct hs clock' rs0).1.
Proof.
  intros Hct Hhs Hp%healthy_prefix_length. unfold spawn_chain_probes.
  destruct (claim_probes (tail gates) clock' 0 rs0) as [cs rs1]. cbn [fst lease].
  pose proof (deadline_mono ct hs _ _ Hhs Hp) as Hm.
  assert (Hpd : 0 <= probe_deadline ct hs (length gates) <= DURATION_MAX).
  { unfold probe_deadline, dur_saturating_add, dur_saturating_mul, DURATION_MAX.
    assert (0 <= hs * Z.min (Z.min (Z.of_nat (length gates) + 1) U64_MAX) U32_MAX)
      by (apply Z.mul_nonneg_nonneg; [done | unfold U64_MAX, U32_MAX; lia]).
    set (h := hs * _) in *. unfold U64_MAX, NANOS. lia. }
  unfold claim_deadline, probe_lease, dur_saturating_sub, dur_saturating_add, PROBE_LEASE_MARGIN.
  set (d := probe_deadline ct hs (length (nodes prefix))) in *. set (e := probe_deadline ct hs (length gates)) in *.
  unfold DURATION_MAX, U64_MAX, from_secs, NANOS in *. lia.
Qed.

(** ** Settlement *)

(** The quarantine of a rotator's [k]-th node. *)
Definition qcell rs (j k : nat) : option Quarantine.Cell := r ← rs !! j; Rotator.cell r k.

Lemma on_success_qcells i now (x : Ratings.t F) : (i < Ratings.len x)%nat ->
  Ratings.qcells (Ratings.on_success i now x) = alter Quarantine.success i (Ratings.qcells x).
Proof.
  intros Hi. unfold Ratings.on_success. unfold Ratings.len in Hi.
  destruct (lookup_lt_is_Some_2 (Ratings.cells x) i) as [s Hs]; [done|]. rewrite Hs.
  by destruct (Policy.enabled (Ratings.policy x)).
Qed.

(** What [outcome] makes of the cell of the tested node; it touches no other one. *)
Lemma outcome_cells c ok now rs r k c0 :
  rs !! c_rotator c = Some r -> Rotator.wf r -> Quarantine.enabled (Rotator.qpolicy r) = true ->
  Rotator.index_of r (c_proxy c) = Some k -> Rotator.cell r k = Some c0 ->
  qcell (outcome c ok now rs) (c_rotator c) k =
    Some (if ok then Quarantine.success c0 else (Quarantine.hard_failure c0 now (Rotator.qpolicy r)).2) /\
  (forall j l, (j, l) <> (c_rotator c, k) -> qcell (outcome c ok now rs) j l = qcell rs j l).
Proof.
  intros Hr Hw He Hk Hc. pose proof (Rotator.index_of_lt _ _ _ Hw Hk) as Hlt.
  assert (Hlr : (k < Ratings.len (Rotator.ratings r))%nat).
  { destruct Hw as (_ & _ & _ & _ & Hl & _). by rewrite Hl. }
  assert (Hq : exists r', outcome c ok now rs = <[c_rotator c := r']> rs /\
    Ratings.qcells (Rotator.ratings r') = <[k := if ok then Quarantine.success c0
      else (Quarantine.hard_failure c0 now (Rotator.qpolicy r)).2]> (Ratings.qcells (Rotator.ratings r))).
  { unfold outcome, with_rotator. rewrite Hr. cbn [snd]. eexists. split; [reflexivity|]. destruct ok.
    - unfold Rotator.record_success. rewrite Hk. cbn. rewrite on_success_qcells by done.
      apply list_alter_insert_eq_aux || (apply list_eq; intros l; destruct (decide (k = l)) as [<-|];
        [rewrite list_lookup_alter_eq, list_lookup_insert_eq by (by eapply lookup_lt_Some); unfold Rotator.cell in Hc; by rewrite Hc
        | by rewrite list_lookup_alter_ne, list_lookup_insert_ne]).
    - pose proof (Rotator.record_hard_failure_spec (c_proxy c) now r k c0 Hw He Hk Hc) as Hs.
      destruct (Rotator.record_hard_failure (c_proxy c) now r) as [res r']. apply Hs. }
  destruct Hq as (r' & -> & Hq). unfold qcell. split.
  - rewrite list_lookup_insert_eq by (by eapply lookup_lt_Some). cbn. unfold Rotator.cell. rewrite Hq.
    apply list_lookup_insert_eq. by eapply lookup_lt_Some.
  - intros j l Hne. destruct (decide (c_rotator c = j)) as [<-|]; [|by rewrite list_lookup_insert_ne].
    rewrite list_lookup_insert_eq by (by eapply lookup_lt_Some). rewrite Hr. cbn. unfold Rotator.cell. rewrite Hq.
    apply list_lookup_insert_ne. congruence.
Qed.

Section Settled.
Context {X : Type} `{PoolDial.PoolOps X}.
Variables (early_eof write_zero : IoError) (encode64 : bytes -> bytes) (pace : nat -> option N).
Variables (valid_name : bytes -> bool) (tls_connect : bytes -> Stream.conn X -> Stream.poll (result IoError unit) * Stream.conn X).
Variables (handshake_timeout : Z) (has_connector : bool).
Local Abbreviation probe := (probe_chain early_eof write_zero encode64 pace valid_name tls_connect handshake_timeout has_connector).
Local Abbreviation dial_prefix := (connect_prefix early_eof write_zero encode64 pace valid_name tls_connect handshake_timeout has_connector).

(** The attempt ended with [a] at the world's time, by its deadline and before the lease. *)
Definition settled (prefix : ProxyConfig) (c : Claim) (deadline lease_until : Z) (w w' : Dial.world)
    (a : result ChainError (Dial.AnyUpstream (X := X))) : Prop :=
  exists w1, PoolDial.reserve_permit (c_proxy c) w = (Ok tt, w1) /\
    dial_prefix prefix (HostPort.format (host (c_proxy c)) (port (c_proxy c))) w1 = (a, w') /\
    Dial.now w' <= deadline /\ Dial.now w' < lease_until.

(** The tested node answered the CONNECT of the last node of the prefix with a refusal. *)
Definition refused (e : ChainError) : Prop :=
  stage e = STarget /\ match error e with ProxyRejected _ _ _ => True | _ => False end.

Lemma probe_settled prefix c deadline lease_until w rs w' rs' a :
  probe prefix c deadline lease_until w rs = (w', rs') -> settled prefix c deadline lease_until w w' a ->
  rs' = match a with
        | Ok _ => outcome c true (Dial.now w') rs
        | Err e => match classify_probe_error (stage e) (error e) with
                   | HardFailure => outcome c false (Dial.now w') rs
                   | Inconclusive => rs
                   end
        end.
Proof.
  intros Hrun (w1 & Hres & Hdial & Hd & Hl). revert Hrun. unfold probe_chain, timeout_at.
  destruct (PoolDial.reserve_permit (c_proxy c) w) as [[[]|e0] w0]; [|discriminate Hres].
  assert (w0 = w1) as -> by congruence. destruct (dial_prefix prefix _ w1) as [a0 w2].
  assert (a0 = a) as -> by congruence. assert (w2 = w') as -> by congruence.
  destruct (Z.leb_spec (Dial.now w') deadline); [|lia]. destruct (Z.leb_spec lease_until (Dial.now w')); [lia|].
  destruct a as [u|e]; [|destruct (classify_probe_error (stage e) (error e))]; by intros [= <-].
Qed.

Lemma probe_unsettled prefix c deadline lease_until w rs w' rs' :
  probe prefix c deadline lease_until w rs = (w', rs') ->
  rs' = rs \/ exists a, settled prefix c deadline lease_until w w' a.
Proof.
  unfold probe_chain, timeout_at, settled.
  destruct (PoolDial.reserve_permit (c_proxy c) w) as [[[]|e0] w1]; [|intros [= _ <-]; by left].
  destruct (dial_prefix prefix (HostPort.format (host (c_proxy c)) (port (c_proxy c))) w1) as [a w2] eqn:Ea.
  destruct (Z.leb_spec (Dial.now w2) deadline) as [Hd|Hd].
  - destruct (Z.leb_spec lease_until (Dial.now w2)) as [Hl|Hl]; [intros [= _ <-]; by left|].
    intros Hrun. assert (w2 = w') as ->.
    { destruct a as [u|e]; [|destruct (classify_probe_error (stage e) (error e))]; by injection Hrun. }
    right. exists a, w1. split; [reflexivity|]. split; [exact Ea|]. split; [exact Hd | exact Hl].
  - intros Hrun. left. destruct (lease_until <=? _); by injection Hrun.
Qed.

Lemma refused_hard e : refused e <-> classify_probe_error (stage e) (error e) = HardFailure.
Proof. unfold refused, classify_probe_error. destruct (stage e), (error e); naive_solver. Qed.

(** C10: What a probe settles: a connection heals the tested node, the refusal of the tested
    node itself is a hard failure of it, and anything else, a full pool, a failing prefix,
    a run past the deadline or the lease, leaves every rotator as it was. No probe
    touches the quarantine of a node other than the tested one. *)
Theorem probe_settlement prefix c deadline lease_until w rs w' rs' r k c0 :
  rs !! c_rotator c = Some r -> Rotator.wf r -> Quarantine.enabled (Rotator.qpolicy r) = true ->
  Rotator.index_of r (c_proxy c) = Some k -> Rotator.cell r k = Some c0 ->
  probe prefix c deadline lease_until w rs = (w', rs') ->
  let ended := settled prefix c deadline lease_until w w' in
  (forall u, ended (Ok u) -> qcell rs' (c_rotator c) k = Some Quarantine.cell_default) /\
  (forall e, ended (Err e) -> refused e ->
     qcell rs' (c_rotator c) k = Some (Quarantine.hard_failure c0 (Dial.now w') (Rotator.qpolicy r)).2) /\
  (forall j l, (j, l) <> (c_rotator c, k) -> qcell rs' j l = qcell rs j l) /\
  (rs' <> rs -> exists a, ended a /\ match a with Ok _ => True | Err e => refused e end).
Proof.
  intros Hr Hw He Hk Hc Hrun. cbn zeta.
  pose proof (fun a => probe_settled _ _ _ _ _ _ _ _ a Hrun) as Hset.
  pose proof (fun ok now => outcome_cells c ok now rs r k c0 Hr Hw He Hk Hc) as Hout.
  split; [|split; [|split]].
  - intros u Hu. rewrite (Hset _ Hu). apply Hout.
  - intros e Hu He'. rewrite (Hset _ Hu). rewrite (proj1 (refused_hard e) He'). apply Hout.
  - intros j l Hne. destruct (probe_unsettled _ _ _ _ _ _ _ _ Hrun) as [->|[a Ha]]; [done|]. rewrite (Hset _ Ha).
    destruct a as [u|e]; [by apply Hout|]. destruct (classify_probe_error _ _); [by apply Hout | done].
  - intros Hne. destruct (probe_unsettled _ _ _ _ _ _ _ _ Hrun) as [?|[a Ha]]; [done|]. exists a. split; [done|].
    specialize (Hset _ Ha). destruct a as [u|e]; [done|]. apply refused_hard. by destruct (classify_probe_error _ _).
Qed.
End Settled.
End Facts.

(** ** Witnesses *)

#[local] Existing Instance Ratings.demo_float.
#[local] Existing Instance Ratings.demo_laws.

(** Two levels of gates; the only free socket leads to a gate that says the next node
    refused. *)
Definition demo_gates : list (Z * nat) := [(2, 0%nat); (1, 1%nat)].
Definition demo_rs : list (Rotator.t Rotator.F64t) := [Rotator.demo; Rotator.demo_dead].
Definition demo_claim : Claim := mkClaim 1 1 (Rotator.up (lit "b")) (from_secs 60).
Definition refusal : bytes := map byte_of [5; 0; 5; 5; 0; 1; 0; 0; 0; 0; 0; 0].
#[local] Program Instance refusing_pool : PoolDial.PoolOps unit := {
  acquire _ w := (Ok (Stream.mkConn (Stream.chunk_of refusal) Stream.Eof None []), w);
  reserve_permit p w := (Ok tt, w) }.
Next Obligation. intros p w e w' E. discriminate E. Defined.

Lemma demo_dead_wf : Rotator.wf Rotator.demo_dead.
Proof. apply Rotator.rotator_quarantine_now_wf, Rotator.rotator_quarantine_now_wf, Rotator.demo_with_wf. Qed.

Lemma demo_rotators_wf : rotators_wf demo_rs demo_gates.
Proof.
  constructor; [exists Rotator.demo; split; [done | apply Rotator.demo_with_wf]|].
  constructor; [exists Rotator.demo_dead; split; [done | apply demo_dead_wf] | constructor].
Qed.

Lemma healthy_prefix_spec_witness :
  let '(prefix, rs') := healthy_prefix demo_gates 1 (fun _ => 5) demo_rs in
  quarantines rs' = quarantines demo_rs /\
  match prefix with
  | Some c => [(2, 0%nat)] <> [] /\ exists ns, Forall2 (usable demo_rs) [(2, 0%nat)] ns /\ map ident (nodes c) = map ident ns
  | None => [(2, 0%nat)] = [] \/ Exists (fun g => forall p, p ∈ all_proxies demo_rs g.2 -> quarantined demo_rs g.2 p = true) [(2, 0%nat)]
  end.
Proof.
  destruct (healthy_prefix demo_gates 1 (fun _ => 5) demo_rs) as [prefix rs'] eqn:E.
  refine (healthy_prefix_spec demo_gates 1 (fun _ => 5) demo_rs prefix rs' demo_rotators_wf _ E). repeat constructor.
Defined.

Lemma probe_fits_lease_witness :
  exists prefix, (healthy_prefix demo_gates 1 (fun _ => 5) demo_rs).1 = Some prefix /\
    claim_deadline (from_secs 10) (from_secs 10) (length (nodes prefix)) demo_claim + from_secs 1
      <= from_secs 60 + from_secs 45.
Proof.
  destruct (healthy_prefix demo_gates 1 (fun _ => 5) demo_rs) as [[prefix|] rs'] eqn:E.
  - exists prefix. split; [done|].
    refine (probe_fits_lease demo_gates [] (from_secs 10) (from_secs 10) demo_claim (fun _ => 5) (fun _ => 5)
              demo_rs prefix rs' [] _ _ E); by vm_compute.
  - exfalso. vm_compute in E. discriminate E.
Defined.

(** The refusal of the tested node puts it back into quarantine; past the lease nothing
    happens. *)
Abbreviation demo_probe := (probe_chain Dial.demo_io Dial.demo_io Dial.demo_encode Dial.demo_pace Dial.demo_names
  (fun _ c => (Stream.Ready (Ok tt), c)) (from_secs 10) false (Rotator.up (lit "a")) demo_claim).
Abbreviation demo_world := (Dial.mkWorld (from_secs 60) 0 []).

Example demo_refused :
  qcell (demo_probe (from_secs 89) (from_secs 105) demo_world demo_rs).2 1 1 =
    Some (Quarantine.mkCell 4 2 (Some (from_secs 121)) None) /\
  (demo_probe (from_secs 89) (from_secs 61) demo_world demo_rs).2 = demo_rs.
Proof. split; vm_compute; reflexivity. Qed.

Lemma probe_settlement_witness :
  let '(w', rs') := demo_probe (from_secs 89) (from_secs 105) demo_world demo_rs in
  let ended := settled Dial.demo_io Dial.demo_io Dial.demo_encode Dial.demo_pace Dial.demo_names
    (fun _ c => (Stream.Ready (Ok tt), c)) (from_secs 10) false (Rotator.up (lit "a")) demo_claim
    (from_secs 89) (from_secs 105) demo_world w' in
  rs' <> demo_rs /\ exists a, ended a /\ match a with Ok _ => True | Err e => refused e end.
Proof.
  destruct (demo_probe (from_secs 89) (from_secs 105) demo_world demo_rs) as [w' rs'] eqn:E.
  assert (Hne : rs' <> demo_rs).
  { intros ->. apply (f_equal snd), (f_equal (fun rs => qcell rs 1 1)) in E. vm_compute in E. discriminate E. }
  split; [exact Hne|].
  destruct (probe_settlement Dial.demo_io Dial.demo_io Dial.demo_encode Dial.demo_pace Dial.demo_names
    (fun _ c => (Stream.Ready (Ok tt), c)) (from_secs 10) false (Rotator.up (lit "a")) demo_claim
    (from_secs 89) (from_secs 105) demo_world demo_rs w' rs' Rotator.demo_dead 1
    (Quarantine.mkCell 3 1 (Some (3 + from_secs 30)) None)) as (_ & _ & _ & Hchange).
  - reflexivity.
  - exact demo_dead_wf.
  - reflexivity.
  - vm_compute. reflexivity.
  - vm_compute. reflexivity.
  - exact E.
  - exact (Hchange Hne).
Defined.
End Probes.
