(* ===== verification/Establish.v ===== *)
(** Establishing a connection for a request
    (src/crates/resocks5/src/server/connect/establish_connection/dial.rs and route.rs).

    A request tries its target's sticky routes, then the chains of the plan, then races
    the direct upstreams, within one budget of attempts. The rotators are a store that
    other requests change at every await ([others]).

    - it always comes to the race, or to a result ([establish_total]);
    - no route is tried twice, the budget is kept ([establish_budget]);
    - the plan leaves the direct fallback its share ([plan_keeps_reserve]);
    - the sticky cache after a connection ([chain_becomes_sticky]);
    - a request that is dropped, at whatever await, leaves what it had done by then
      ([establish_until]): some rotators ([establish_until_total]), those of the whole
      request if it was over ([establish_until_late]). *)
From S2P Require Import Prelude Text ProxyTypes Errors HostPort Stream Floats Rating Select Quarantine Ratings Sticky Rotator ChainPlan Upstream Dial PoolDial Hedged Probes.

Module Establish.
Import ChainPlan.

(** ** Data *)

(** One upstream a request may race through. *)
Record Candidate := mkCandidate {
  c_rotator : nat;
  c_proxy : ProxyConfig;
  cached : bool               (* it came from the target's sticky entry *)
}.

Inductive EstablishError :=
| BannedTarget
| MaxAttempts (max : nat) (target_addr : bytes)
| AllFailed (attempts : nat) (target_addr : bytes).

Section Establish.
Context {F : Type} `{Float F} {X : Type} `{PoolDial.PoolOps X}.
Variables (early_eof write_zero : IoError) (encode64 : bytes -> bytes) (pace : nat -> option N).
Variables (valid_name : bytes -> bool) (tls_connect : bytes -> Stream.conn X -> Stream.poll (result IoError unit) * Stream.conn X).
Variable has_connector : bool.
(** The configured pattern set. *)
Variable banned : bytes -> bool.
(** The gate levels, the exit rotators, and the network configuration. *)
Variables (gates : list (Z * nat)) (v6_rotator v4_rotator : option nat).
Variables (connect_timeout handshake_timeout hedge_delay : Z) (max_attempts : nat).
Variable target_addr : bytes.
Local Abbreviation Store := (list (Rotator.t F)).
(** What other requests make of the rotators during the [k]-th await; when the [k]-th
    report of the race comes; and the race's events. *)
Variables (others : nat -> Store -> Store) (report_time : nat -> Z).
Local Abbreviation U := (Dial.AnyUpstream (X := X)).
Variable events : list (Hedged.Event (U := U)).

Definition connect (config : ProxyConfig) : Dial.D ChainError U :=
  PoolDial.connect_chain early_eof write_zero encode64 pace valid_name tls_connect config target_addr
    handshake_timeout has_connector.

Definition exits : list nat := omap id [v6_rotator; v4_rotator].

(** The variables of the function; [dialled] is what [connect] was asked for. *)
Record St := mkSt {
  store : Store;
  world : Dial.world;
  attempts : nat;
  tried_routes : list ChainKey;
  plan : option ChainPlan.t;
  candidates : list Candidate;
  direct_reserve : nat;
  dialled : list ProxyConfig
}.

Definition now (s : St) : Z := Dial.now (world s).
Definition set_store (rs : Store) (s : St) : St :=
  mkSt rs (world s) (attempts s) (tried_routes s) (plan s) (candidates s) (direct_reserve s) (dialled s).
Definition set_plan (p : ChainPlan.t) (s : St) : St :=
  mkSt (store s) (world s) (attempts s) (tried_routes s) (Some p) (candidates s) (direct_reserve s) (dialled s).
Definition set_candidates (cs : list Candidate) (s : St) : St :=
  mkSt (store s) (world s) (attempts s) (tried_routes s) (plan s) cs (direct_reserve s) (dialled s).
Definition insert_route (k : ChainKey) (s : St) : St :=
  mkSt (store s) (world s) (attempts s) (set_insert k (tried_routes s)) (plan s) (candidates s) (direct_reserve s) (dialled s).
Definition reserve_at_least (n : nat) (s : St) : St :=
  mkSt (store s) (world s) (attempts s) (tried_routes s) (plan s) (candidates s) (Nat.max (direct_reserve s) n) (dialled s).

Definition on_rotator (i : nat) (f : Rotator.t F -> Rotator.t F) (s : St) : St :=
  set_store (with_rotator (store s) i tt (fun r => (tt, f r))).2 s.
Definition unlink (i : nat) (s : St) : St := on_rotator i (Rotator.unlink_proxy target_addr) s.
Definition link (i : nat) (config : ProxyConfig) (s : St) : St :=
  on_rotator i (Rotator.link_proxy target_addr config (now s)) s.

(** [pick.config()], and the route of an upstream dialed directly. *)
Definition config (pick : ChainPick) : ProxyConfig :=
  default (exit (pick_key pick)) (chain (map proxy (hops pick))).
Definition direct_route (p : ProxyConfig) : ChainKey := mkChainKey (default p (chain [p])).

(** An attempt of the budget; [k] of the await is the number of attempts before. *)
Definition dial_route (pick : ChainPick) (s : St) : result ChainError U * St :=
  let '(r, w) := connect (config pick) (world s) in
  (r, mkSt (others (attempts s) (store s)) w (S (attempts s)) (set_insert (pick_key pick) (tried_routes s))
        (plan s) (candidates s) (direct_reserve s) (dialled s ++ [config pick])).

Definition chain_succeeded (pick : ChainPick) (s : St) : St :=
  set_store (ChainPlan.record_success (fun _ => now s) 0 (hops pick) (store s)) s.
Definition chain_failed (pick : ChainPick) (e : ChainError) (p : ChainPlan.t) (s : St) : St :=
  let '(_, p', rs) := ChainPlan.record_failure pick e (fun _ => now s) p (store s) in
  set_plan p' (set_store rs s).

Definition new_plan (gates : list (Z * nat)) (exits : list nat) (s : St) : ChainPlan.t * St :=
  let '(p, rs) := ChainPlan.new gates exits (fun _ => now s) (store s) in (p, set_store rs s).

Inductive Flow := Next (s : St) | Done (r : result EstablishError U) (s : St).
Definition flow_state (f : Flow) : St := match f with Next s | Done _ s => s end.

(** ** Sticky routes *)

(** The gates of a resolved chain, not its exit. *)
Definition gate_quarantined (pick : ChainPick) (rs : Store) : bool :=
  existsb (fun h => Probes.quarantined rs (rotator h) (proxy h)) (take (length (hops pick) - 1) (hops pick)).

Definition cached_chain (i : nat) (pick : ChainPick) (s : St) : Flow :=
  if gate_quarantined pick (store s) then Next (unlink i s)
  else if mem (pick_key pick) (tried_routes s) then Next s
  else if (max_attempts <=? attempts s)%nat then Done (Err (MaxAttempts max_attempts target_addr)) s
  else
    match dial_route pick s with
    | (Ok stream, s) => Done (Ok stream) (chain_succeeded pick s)
    | (Err e, s) =>
        let '(p, s) :=
          match plan s with
          | Some p => (p, s)
          | None => if (attempts s + direct_reserve s <? max_attempts)%nat
                    then new_plan gates exits s else new_plan [] [] s
          end in
        Next (unlink i (chain_failed pick e p s))
    end.

(** The body of the loop over the exit rotators. *)
Definition cached_route (i : nat) (s : St) : Flow :=
  let '(linked, rs) := with_rotator (store s) i None (Rotator.get_linked target_addr (now s)) in
  let s := set_store rs s in
  match linked with
  | None => Next s
  | Some cached_proxy =>
      match gate cached_proxy with
      | None =>
          let route := direct_route cached_proxy in
          if mem route (tried_routes s) then Next s
          else
            let s := insert_route route s in
            let s := set_candidates (candidates s ++ [mkCandidate i cached_proxy true]) s in
            Next (reserve_at_least (length (candidates s)) s)
      | Some _ =>
          match resolve (store s) gates [i] cached_proxy with
          | None => Next (unlink i s)
          | Some pick => cached_chain i pick s
          end
      end
  end.

Fixpoint cached_routes (ids : list nat) (s : St) : Flow :=
  match ids with
  | [] => Next s
  | i :: ids' =>
      match cached_route i s with
      | Next s => cached_routes ids' s
      | done => done
      end
  end.

(** ** The plan *)

Definition start_plan (s : St) : St :=
  match gates, plan s with
  | _ :: _, None =>
      if (attempts s + direct_reserve s <? max_attempts)%nat
      then let '(p, s) := new_plan gates exits s in set_plan p s else s
  | _, _ => s
  end.

Definition exit_rotator (pick : ChainPick) : nat :=
  match last (hops pick) with Some h => rotator h | None => 0%nat end.

(** The loop; [None] is running out of fuel, or the [expect]. *)
Fixpoint plan_loop (fuel : nat) (s : St) : option Flow :=
  match fuel with
  | O => None
  | S fuel =>
      if negb (bool_decide (gates = [])) && (attempts s + direct_reserve s <? max_attempts)%nat then
        match plan s with
        | None => None
        | Some p =>
            let '(next, p) := next_pick p in
            let s := set_plan p s in
            match next with
            | None => Some (Next s)
            | Some pick =>
                if mem (pick_key pick) (tried_routes s) then plan_loop fuel s
                else
                  match dial_route pick s with
                  | (Ok stream, s) =>
                      Some (Done (Ok stream) (link (exit_rotator pick) (config pick) (chain_succeeded pick s)))
                  | (Err e, s) => plan_loop fuel (chain_failed pick e p s)
                  end
            end
        end
      else Some (Next s)
  end.

(** More passes than the plan has combinations. *)
Definition plan_fuel (s : St) : nat := match plan s with Some p => S (next_fuel p) | None => 1 end.

(** ** Direct upstreams *)

Fixpoint queue_order (i : nat) (order : list ProxyConfig) (s : St) : St :=
  match order with
  | [] => s
  | p :: order' =>
      let route := direct_route p in
      if mem route (tried_routes s) then queue_order i order' s
      else if (max_attempts <=? attempts s + length (candidates s))%nat then s
      else
        let s := insert_route route s in
        queue_order i order' (set_candidates (candidates s ++ [mkCandidate i p false]) s)
  end.

Fixpoint queue_direct (ids : list nat) (s : St) : St :=
  match ids with
  | [] => s
  | i :: ids' =>
      if (max_attempts <=? attempts s + length (candidates s))%nat then s
      else
        let '(order, rs) := with_rotator (store s) i [] (Rotator.pick_order (now s)) in
        queue_direct ids' (queue_order i order (set_store rs s))
  end.

Definition truncate (s : St) : St := set_candidates (take (max_attempts - attempts s) (candidates s)) s.

Definition should_record_connect_failure (e : ConnectError) : bool := counts_against_upstream e.
Definition record_proxy_failure (p : ProxyConfig) (e : ConnectError) (t : Z) (r : Rotator.t F) : Rotator.t F :=
  if negb (should_record_connect_failure e) then r else (Rotator.record_error p e t r).2.

(** What a report does to the candidate's rotator. *)
Definition report_attempt (c : Candidate) (report : Hedged.AttemptReport) (t : Z) (r : Rotator.t F) : Rotator.t F :=
  match Hedged.r_outcome report with
  | Hedged.Won =>
      let r := Rotator.record_success (c_proxy c) t r in
      if negb (Hedged.after_win report) && cached c then r
      else if negb (Hedged.after_win report) then Rotator.link_proxy target_addr (c_proxy c) t r
      else r
  | Hedged.LateSuccess => Rotator.record_success (c_proxy c) t r
  | Hedged.Lost => r
  | Hedged.FailedWith e =>
      let r := if cached c && negb (Hedged.after_win report) then Rotator.unlink_proxy target_addr r else r in
      if should_record_connect_failure e then record_proxy_failure (c_proxy c) e t r else r
  end.

Fixpoint report_all (k : nat) (reports : list Hedged.AttemptReport) (s : St) : St :=
  match reports with
  | [] => s
  | report :: reports' =>
      let s := set_store (others (attempts s + k) (store s)) s in
      let s := match candidates s !! Hedged.r_index report with
               | Some c => on_rotator (c_rotator c) (report_attempt c report (report_time k)) s
               | None => s
               end in
      report_all (S k) reports' s
  end.

Definition hedge_options : Hedged.HedgeOptions :=
  Hedged.with_handshake_timeout handshake_timeout (Hedged.with_hedge_delay hedge_delay Hedged.default_options).
Definition race (s : St) : Hedged.Race (U := U) :=
  Hedged.run hedge_options events (Hedged.connect_hedged hedge_options (map c_proxy (candidates s)) (now s)).

(** ** The request *)

(** [returned] is [None] while the race goes on. *)
Record Outcome := mkOutcome {
  returned : option (result EstablishError U);
  ended : Z;                                     (* when it returned, or now *)
  final : St;
  raced : list ProxyConfig                       (* the launched upstreams *)
}.

Definition finish (s : St) : Outcome :=
  let s := truncate (queue_direct exits s) in
  let c := race s in
  mkOutcome
    (match Hedged.coord c with
     | Hedged.Returned (Ok h) => Some (Ok (Hedged.stream h))
     | Hedged.Returned (Err e) => Some (Err (AllFailed (attempts s + Hedged.attempts e) target_addr))
     | _ => None
     end)
    (Hedged.clock c) (report_all 0 (Hedged.reports c) s) (Hedged.launched c).

Definition initial (rs : Store) (w : Dial.world) : St :=
  mkSt rs w 0 [] None []
    (if existsb (fun i => negb (bool_decide (all_proxies rs i = []))) exits then 1 else 0) [].

Definition establish_connection (rs : Store) (w : Dial.world) : option Outcome :=
  let s := initial rs w in
  if banned target_addr then Some (mkOutcome (Some (Err BannedTarget)) (now s) s [])
  else
    let '(_, rs) := Probes.spawn_chain_probes gates exits connect_timeout handshake_timeout (fun _ => now s) (store s) in
    match cached_routes exits (set_store rs s) with
    | Done r s => Some (mkOutcome (Some r) (now s) s [])
    | Next s =>
        let s := start_plan s in
        flow ← plan_loop (plan_fuel s) s;
        Some match flow with
             | Done r s => mkOutcome (Some r) (now s) s []
             | Next s => finish s
             end
    end.

(** ** A request that is dropped *)

Section Until.
(** Whether the future is still polled at a time. *)
Variable in_time : Z -> bool.

(** The request goes on, or it was dropped at an await, with these rotators. *)
Inductive Cut := Kept (f : Flow) | Gone (rs : Store).

(** Time passes in the dial only. *)
Definition cached_route_until (i : nat) (s : St) : Cut :=
  let f := cached_route i s in
  if in_time (now (flow_state f)) then Kept f
  else Gone (others (attempts s) (with_rotator (store s) i None (Rotator.get_linked target_addr (now s))).2).

Fixpoint cached_routes_until (ids : list nat) (s : St) : Cut :=
  match ids with
  | [] => Kept (Next s)
  | i :: ids' =>
      match cached_route_until i s with
      | Kept (Next s) => cached_routes_until ids' s
      | done => done
      end
  end.

Fixpoint plan_loop_until (fuel : nat) (s : St) : option Cut :=
  match fuel with
  | O => None
  | S fuel =>
      if negb (bool_decide (gates = [])) && (attempts s + direct_reserve s <? max_attempts)%nat then
        match plan s with
        | None => None
        | Some p =>
            let '(next, p) := next_pick p in
            let s := set_plan p s in
            match next with
            | None => Some (Kept (Next s))
            | Some pick =>
                if mem (pick_key pick) (tried_routes s) then plan_loop_until fuel s
                else
                  let '(r, s) := dial_route pick s in
                  if negb (in_time (now s)) then Some (Gone (store s))
                  else
                    match r with
                    | Ok stream =>
                        Some (Kept (Done (Ok stream) (link (exit_rotator pick) (config pick) (chain_succeeded pick s))))
                    | Err e => plan_loop_until fuel (chain_failed pick e p s)
                    end
            end
        end
      else Some (Kept (Next s))
  end.

(** The events of the race, with its drop before the first that comes too late. *)
Fixpoint abandoned (es : list (Hedged.Event (U := U))) (c : Hedged.Race (U := U)) : list (Hedged.Event (U := U)) :=
  match es with
  | [] => [Hedged.Abandon]
  | e :: es' =>
      let c' := default c (Hedged.step hedge_options c e) in
      if in_time (Hedged.clock c') then e :: abandoned es' c' else Hedged.Abandon :: es
  end.

Definition finish_until (s : St) : Store :=
  let s := truncate (queue_direct exits s) in
  let c := Hedged.connect_hedged hedge_options (map c_proxy (candidates s)) (now s) in
  store (report_all 0 (Hedged.reports (Hedged.run hedge_options (abandoned events c) c)) s).

(** What it leaves the rotators as: a race that was over reports to the end. *)
Definition establish_until (rs : Store) (w : Dial.world) : option Store :=
  let s := initial rs w in
  if negb (in_time (now s)) || banned target_addr then Some rs
  else
    let '(_, rs) := Probes.spawn_chain_probes gates exits connect_timeout handshake_timeout (fun _ => now s) (store s) in
    match cached_routes_until exits (set_store rs s) with
    | Gone rs => Some rs
    | Kept (Done _ s) => Some (store s)
    | Kept (Next s) =>
        let s := start_plan s in
        cut ← plan_loop_until (plan_fuel s) s;
        Some match cut with
             | Gone rs => rs
             | Kept (Done _ s) => store s
             | Kept (Next s) => finish_until s
             end
    end.
End Until.

(** ** Routes *)

(** What [ChainKey] compares. *)
Definition route (c : ProxyConfig) : list _ := map ident (nodes c).
Definition routes (ks : list ChainKey) : list _ := map (fun k => route (exit k)) ks.

Lemma mem_routes k ks : mem k ks = true <-> route (exit k) ∈ routes ks.
Proof.
  unfold mem. rewrite existsb_exists. unfold routes. rewrite list_elem_of_fmap. split.
  - intros (k' & Hin & E%key_eqb_spec). exists k'. split; [exact E | by apply list_elem_of_In].
  - intros (k' & E & Hin). exists k'. split; [by apply list_elem_of_In | by apply key_eqb_spec].
Qed.

Lemma set_insert_routes k ks r : r ∈ routes (set_insert k ks) <-> r = route (exit k) \/ r ∈ routes ks.
Proof.
  unfold set_insert. destruct (mem k ks) eqn:E; cbn; [|apply elem_of_cons].
  apply mem_routes in E. split; [by right | by intros [->|]].
Qed.

Lemma direct_route_spec p : route (exit (direct_route p)) = [ident p].
Proof.
  unfold direct_route, route. destruct (chain_Some [p]) as [c Hc]; [done|]. rewrite Hc. change (default p (Some c)) with c. cbn [exit].
  by rewrite (nodes_of_chain_ident _ _ Hc).
Qed.

(** A pick whose key is that of the chain it stands for. *)
Definition pick_ok (pick : ChainPick) : Prop :=
  pick_key pick = mkChainKey (config pick) /\ length (nodes (config pick)) = length (hops pick).

Lemma pick_of_ok cs pick : pick_of cs = Some pick -> pick_ok pick /\ hops pick = map hop cs.
Proof.
  unfold pick_of, pick_ok, config. destruct (chain (map (fun c => proxy (hop c)) cs)) as [c|] eqn:Ec; [|done].
  intros [= <-]. cbn [hops pick_key exit]. rewrite map_map, Ec. change (default c (Some c)) with c. split; [|done]. split; [done|].
  apply nodes_of_chain_ident, (f_equal length) in Ec. by rewrite !length_map in *.
Qed.

Lemma resolve_ok (rs : Store) levels is_ c pick : resolve rs levels is_ c = Some pick ->
  pick_ok pick /\ length (hops pick) = length (nodes c).
Proof.
  unfold resolve. destruct (Nat.eqb_spec (length (nodes c)) (length levels + 1)) as [El|]; [|done]. cbn [negb].
  destruct (resolve_gates rs levels (nodes c)) as [hs|] eqn:Eg; [|done]. cbn [mbind option_bind].
  destruct (last (nodes c)) as [x|]; [|done]. cbn [mbind option_bind].
  destruct (resolve_exit rs is_ x) as [hx|]; [|done]. cbn [mbind option_bind].
  destruct (chain (map proxy (hs ++ [hx]))) as [cfg|] eqn:Ec; [|done]. intros [= <-].
  unfold pick_ok, config. cbn [hops pick_key exit]. rewrite Ec. change (default cfg (Some cfg)) with cfg.
  pose proof (f_equal length (nodes_of_chain_ident _ _ Ec)) as El'. rewrite !length_map in El'.
  split; [by split|]. rewrite length_app. cbn. rewrite El.
  assert (Hl : length hs = Nat.min (length levels) (length (nodes c))); [|lia]. clear -Eg.
  revert hs Eg. generalize (nodes c). induction levels as [|[rank r] levels IH]; intros [|n ns] hs Eg; cbn in Eg;
    try (by injection Eg as <-).
  destruct (negb (gate_level n =? rank)); [done|]. destruct (List.find _ _) as [p|]; [|done].
  destruct (resolve_gates rs levels ns) as [hs'|] eqn:E'; [|done]. injection Eg as <-. cbn. by rewrite (IH _ _ E').
Qed.

(** ** Invariant *)

(** The routes tried: the chains dialed, then the upstreams queued. *)
Definition trace (s : St) : list _ :=
  map route (dialled s) ++ map (fun c => [ident (c_proxy c)]) (candidates s).

Definition plan_ok (p : ChainPlan.t) : Prop :=
  ChainPlan.wf p /\ Forall (fun cs => length cs = S (length gates)) (viable p).

Record Inv (s : St) : Prop := {
  v_attempts : attempts s = length (dialled s);
  v_budget : (attempts s <= max_attempts)%nat;
  v_nodup : NoDup (trace s);
  v_tried : forall r, r ∈ routes (tried_routes s) <-> r ∈ trace s;
  v_plan : forall p, plan s = Some p -> plan_ok p;
  v_long : Forall (fun c => (2 <= length (nodes c))%nat) (dialled s)
}.

Lemma Inv_store rs s : Inv s -> Inv (set_store rs s).
Proof. by intros []; split. Qed.

Lemma Inv_plan p s : plan_ok p -> Inv s -> Inv (set_plan p s).
Proof. intros Hp []. split; try done. cbn. by intros ? [= <-]. Qed.

Lemma not_tried k s : Inv s -> mem k (tried_routes s) = false -> route (exit k) ∉ trace s.
Proof. intros Hv E Hin. apply (v_tried _ Hv), mem_routes in Hin. congruence. Qed.

Lemma dial_route_Inv pick s r s' : Inv s -> pick_ok pick -> (2 <= length (hops pick))%nat ->
  mem (pick_key pick) (tried_routes s) = false -> (attempts s < max_attempts)%nat ->
  dial_route pick s = (r, s') -> Inv s' /\ plan s' = plan s /\ candidates s' = candidates s /\
    attempts s' = S (attempts s) /\ direct_reserve s' = direct_reserve s /\ dialled s' = dialled s ++ [config pick].
Proof.
  intros Hv [Hk Hl] H2 Hm Ha. unfold dial_route. destruct (connect (config pick) (world s)) as [res w].
  intros [= <- <-]. split; [|done]. pose proof (not_tried _ _ Hv Hm) as Hn. rewrite Hk in Hn. cbn [exit] in Hn.
  destruct Hv as [V1 V2 V3 V4 V5 V6]. split; cbn.
  - rewrite length_app. cbn. lia.
  - lia.
  - unfold trace. cbn. rewrite map_app. cbn. rewrite <- app_assoc. cbn. rewrite <- Permutation_middle. by constructor.
  - intros x. rewrite set_insert_routes, V4, Hk. unfold trace. cbn. rewrite map_app, !elem_of_app. cbn.
    rewrite list_elem_of_singleton. naive_solver.
  - done.
  - apply Forall_app. split; [done|]. constructor; [lia | constructor].
Qed.

Lemma queue_Inv i p c s : Inv s -> mem (direct_route p) (tried_routes s) = false ->
  Inv (set_candidates (candidates s ++ [mkCandidate i p c]) (insert_route (direct_route p) s)).
Proof.
  intros Hv Hm. pose proof (not_tried _ _ Hv Hm) as Hn. rewrite direct_route_spec in Hn.
  destruct Hv as [V1 V2 V3 V4 V5 V6]. split; try done.
  - unfold trace. cbn. rewrite map_app, app_assoc. apply NoDup_app. split; [done|]. split; [|apply NoDup_singleton].
    intros x Hx. cbn. rewrite list_elem_of_singleton. by intros ->.
  - intros x. cbn. rewrite set_insert_routes, V4, direct_route_spec. unfold trace. cbn.
    rewrite map_app, !elem_of_app. cbn. rewrite list_elem_of_singleton. naive_solver.
Qed.

(** *** Plans *)

Lemma pick_orders_length clock ids : forall k (rs : Store), length (pick_orders clock k ids rs).1 = length ids.
Proof.
  induction ids as [|i ids IH]; intros k rs; [done|]. cbn.
  destruct (with_rotator rs i [] _) as [order rs1]. specialize (IH (S k) rs1).
  destruct (pick_orders clock (S k) ids rs1) as [l rs2]. cbn in *. congruence.
Qed.

Lemma plan_of_ok gs es : Forall (fun cs => length cs = S (length gs)) (viable (plan_of gs es)).
Proof.
  apply Forall_forall. intros cs Hcs. rewrite plan_of_viable in Hcs.
  apply product_elem, Forall2_length in Hcs. rewrite Hcs. cbn. rewrite length_app, length_map. cbn. lia.
Qed.

Lemma new_plan_ok s p s' : Inv s -> new_plan gates exits s = (p, s') ->
  plan_ok p /\ Inv s' /\ exists rs, s' = set_store rs s.
Proof.
  intros Hv. unfold new_plan, new. pose proof (pick_orders_length (fun _ => now s) (map snd gates) 0 (store s)) as Hl.
  destruct (pick_orders _ 0 _ _) as [gs rs1]. destruct (pick_orders _ _ exits rs1) as [es rs2]. cbn in Hl.
  intros [= <- <-]. rewrite length_map in Hl. split; [|split; [by apply Inv_store | by eexists]].
  split; [apply plan_of_wf|]. rewrite <- Hl. apply plan_of_ok.
Qed.

Lemma no_plan_ok s p s' : Inv s -> new_plan [] [] s = (p, s') ->
  plan_ok p /\ Inv s' /\ exists rs, s' = set_store rs s.
Proof.
  intros Hv. unfold new_plan, new. cbn. intros [= <- <-].
  split; [|split; [by apply Inv_store | by eexists]]. split; [apply plan_of_wf|].
  rewrite plan_of_viable. constructor.
Qed.

Lemma chain_failed_Inv pick e p s : Inv s -> plan_ok p -> Inv (chain_failed pick e p s) /\
  exists p' rs, chain_failed pick e p s = set_plan p' (set_store rs s) /\ plan_ok p' /\
    (length (viable p') <= length (viable p))%nat.
Proof.
  intros Hv Hp. unfold chain_failed, record_failure.
  assert (Hgen : forall h, plan_ok (mark_dead h p) /\ (length (viable (mark_dead h p)) <= length (viable p))%nat).
  { intros h. destruct Hp as [Hw Hl]. split; [split|].
    - by apply mark_dead_wf.
    - rewrite mark_dead_viable by done. rewrite Forall_forall in *. intros cs Hcs. apply Hl.
      apply list_elem_of_In, filter_In in Hcs as [Hcs _]. by apply list_elem_of_In.
    - rewrite mark_dead_viable by done. apply filter_length_le. }
  destruct (negb _).
  { split; [by apply Inv_plan, Inv_store | by exists p, (store s)]. }
  destruct (blamed _ _ _) as [h|].
  - destruct (hard h (error e) _ (store s)) as [q rs]. destruct (Hgen (proxy h)) as [G1 G2].
    split; [by apply Inv_plan, Inv_store | by exists (mark_dead (proxy h) p), rs].
  - split; [by apply Inv_plan, Inv_store | by eexists p, _].
Qed.

(** *** Sticky routes *)


(** What is returned agrees with what was tried. *)
Definition flow_ok (f : Flow) : Prop :=
  Inv (flow_state f) /\
  match f with
  | Next s => True
  | Done r s =>
      match r with
      | Ok _ => dialled s <> []
      | Err (MaxAttempts n t) => n = max_attempts /\ attempts s = max_attempts /\ t = target_addr
      | Err _ => False
      end
  end.

Lemma cached_chain_ok i pick s : Inv s -> pick_ok pick -> (2 <= length (hops pick))%nat ->
  flow_ok (cached_chain i pick s).
Proof.
  intros Hv Hp H2. unfold cached_chain. destruct (gate_quarantined _ _); [split; [by apply Inv_store | done]|].
  destruct (mem _ _) eqn:Em; [by split|].
  destruct (Nat.leb_spec max_attempts (attempts s)) as [Ha|Ha].
  { split; [done|]. pose proof (v_budget _ Hv). cbn. split_and!; [done | lia | done]. }
  destruct (dial_route pick s) as [r s1] eqn:Ed.
  destruct (dial_route_Inv _ _ _ _ Hv Hp H2 Em Ha Ed) as (Hv1 & Hpl & Hc & _ & _ & Hd).
  destruct r as [u|e].
  { split; [by apply Inv_store|]. cbn. rewrite Hd. by destruct (dialled s). }
  assert (Hplan : exists p s2, (match plan s1 with
     | Some p => (p, s1)
     | None => if (attempts s1 + direct_reserve s1 <? max_attempts)%nat then new_plan gates exits s1 else new_plan [] [] s1
     end) = (p, s2) /\ plan_ok p /\ Inv s2).
  { destruct (plan s1) as [p|] eqn:Ep1; [exists p, s1; split_and!; [done | by eapply v_plan | done]|].
    destruct (_ <? _)%nat; [destruct (new_plan gates exits s1) as [p s2] eqn:En | destruct (new_plan [] [] s1) as [p s2] eqn:En];
      [destruct (new_plan_ok _ _ _ Hv1 En) as (H3 & H4 & _) | destruct (no_plan_ok _ _ _ Hv1 En) as (H3 & H4 & _)]; by exists p, s2. }
  destruct Hplan as (p & s2 & -> & Hp2 & Hv2). split; [|done].
  apply Inv_store. by apply chain_failed_Inv.
Qed.

Lemma cached_route_ok i s : Inv s -> flow_ok (cached_route i s).
Proof.
  intros Hv. unfold cached_route. destruct (with_rotator (store s) i None _) as [linked rs].
  apply (Inv_store rs) in Hv. destruct linked as [c|]; [|by split].
  destruct (gate c) as [g|] eqn:Eg.
  - destruct (resolve _ gates [i] c) as [pick|] eqn:Er; [|split; [by apply Inv_store | done]].
    apply resolve_ok in Er as [Hp Hl]. apply cached_chain_ok; [done | done|]. rewrite Hl.
    unfold nodes. rewrite length_rev. destruct c as [? ? ? ? ? ? ? []]; cbn in *; [|done]. destruct p; cbn; lia.
  - destruct (mem _ _) eqn:Em; [by split|]. split; [|done].
    pose proof (queue_Inv i c true _ Hv Em) as []. by split.
Qed.

Lemma cached_routes_ok ids : forall s, Inv s -> flow_ok (cached_routes ids s).
Proof.
  induction ids as [|i ids IH]; intros s Hv; [by split|]. cbn.
  pose proof (cached_route_ok i s Hv) as Hf. destruct (cached_route i s) as [s1|r s1]; [apply IH, Hf | exact Hf].
Qed.

(** *** The plan *)

(** The plan is there when the loop needs it. *)
Definition ready (s : St) : Prop :=
  gates <> [] -> (attempts s + direct_reserve s < max_attempts)%nat -> plan s <> None.

(** What the plan loop leaves alone, and how much of the budget it may use. *)
Definition planned (s s' : St) : Prop :=
  candidates s' = candidates s /\ direct_reserve s' = direct_reserve s /\
  (attempts s <= attempts s' <= Nat.max (attempts s) (max_attempts - direct_reserve s))%nat.

Lemma start_plan_ok s : Inv s -> Inv (start_plan s) /\ ready (start_plan s) /\ planned s (start_plan s).
Proof.
  intros Hv. assert (Hsame : planned s s) by (split; [done|]; split; [done|]; lia).
  unfold start_plan, ready. destruct gates as [|g gs] eqn:Eg; [done|].
  destruct (plan s) as [p|] eqn:Ep; [by rewrite Ep|].
  destruct (Nat.ltb_spec (attempts s + direct_reserve s) max_attempts); [|split_and!; [done | lia | done..]].
  rewrite <- Eg. destruct (new_plan gates exits s) as [p s1] eqn:En.
  destruct (new_plan_ok _ _ _ Hv En) as (Hp & Hv1 & rs & ->). split; [by apply Inv_plan|]. done.
Qed.

Lemma plan_loop_ok fuel : forall s, Inv s -> ready s -> (0 < fuel)%nat ->
  (forall p, plan s = Some p -> (length (viable p) < fuel)%nat) ->
  exists f, plan_loop fuel s = Some f /\ flow_ok f /\ planned s (flow_state f).
Proof.
  induction fuel as [|fuel IH]; intros s Hv Hr Hpos Hf; [lia|]. cbn [plan_loop].
  assert (Hsame : planned s s) by (split; [done|]; split; [done|]; lia).
  case_bool_decide as Eg; [exists (Next s); by split_and!|]. cbn [negb andb].
  destruct (Nat.ltb_spec (attempts s + direct_reserve s) max_attempts) as [Ha|Ha]; [|exists (Next s); by split_and!].
  destruct (plan s) as [p|] eqn:Ep; [|by destruct (Hr Eg Ha)].
  pose proof (v_plan _ Hv _ Ep) as [Hw Hl]. pose proof (next_pick_popped p Hw) as (Hw' & _ & _ & Hpop).
  destruct (next_pick p) as [next p']. cbn [fst snd] in *. specialize (Hf p eq_refl).
  destruct (viable p) as [|cs tl] eqn:Evp.
  { destruct Hpop as [-> Hvp']. exists (Next (set_plan p' s)). split_and!; try done.
    split; [|done]. apply Inv_plan; [|done]. split; [done|]. rewrite Hvp'. constructor. }
  destruct Hpop as (-> & [pick Hpick] & Hvp'). rewrite Hpick. apply Forall_cons in Hl as [Hcs Hl].
  assert (Hp' : plan_ok p') by (split; [done|]; by rewrite Hvp').
  pose proof (Inv_plan p' s Hp' Hv) as Hv1. destruct (pick_of_ok _ _ Hpick) as [Hok Hhops].
  assert (H2 : (2 <= length (hops pick))%nat).
  { rewrite Hhops, length_map, Hcs. destruct gates; [done|]. cbn. lia. }
  cbn [length] in Hf. destruct (mem _ _) eqn:Em.
  - destruct (IH (set_plan p' s)) as (f & E1 & E2 & E3); [done | by unfold ready | lia | |].
    + cbn. intros ? [= <-]. rewrite Hvp'. lia.
    + exists f. done.
  - destruct (dial_route pick (set_plan p' s)) as [r s1] eqn:Ed.
    assert (Ha1 : (attempts (set_plan p' s) < max_attempts)%nat) by (cbn; lia).
    destruct (dial_route_Inv _ _ _ _ Hv1 Hok H2 Em Ha1 Ed) as (Hvd & Hpl & Hc & Hat & Hres & Hd).
    cbn in Hpl, Hc, Hat, Hres, Hd. destruct r as [u|e].
    + eexists. split; [done|]. split; [split; [exact (Inv_store _ _ (Inv_store _ _ Hvd))|]; cbn; rewrite Hd; by destruct (dialled s)|].
      split; [done|]. split; [done|]. cbn. lia.
    + destruct (chain_failed_Inv pick e p' s1 Hvd Hp') as [Hv2 (p2 & rs & Es & Hp2 & Hlen)].
      destruct (IH (chain_failed pick e p' s1)) as (f & E1 & E2 & E3); [done | by rewrite Es | lia | |].
      * rewrite Es. cbn. intros ? [= <-]. rewrite Hvp' in Hlen. lia.
      * exists f. split; [done|]. split; [done|]. rewrite Es in E3. destruct E3 as (A1 & A2 & A3). cbn in A1, A2, A3.
        split; [congruence|]. split; [congruence|]. lia.
Qed.

Lemma plan_fuel_enough s : (0 < plan_fuel s)%nat /\ forall p, plan s = Some p -> (length (viable p) < plan_fuel s)%nat.
Proof.
  unfold plan_fuel. destruct (plan s) as [p|]; [|split; [lia|done]]. split; [lia|]. intros ? [= <-].
  unfold viable, next_fuel. pose proof (rest_length (layers p)). rewrite product_length in *.
  destruct (done p); [cbn; lia|]. pose proof (filter_length_le (admissible (seen p) (dead p)) (rest (layers p))). lia.
Qed.

(** *** Direct upstreams *)

(** What queueing leaves alone. *)
Definition queued (s s' : St) : Prop :=
  Inv s' /\ attempts s' = attempts s /\ dialled s' = dialled s /\ exists cs, candidates s' = candidates s ++ cs.

Lemma queued_refl s : Inv s -> queued s s.
Proof. intros Hv. split_and!; try done. exists []. by rewrite app_nil_r. Qed.
Lemma queued_trans s1 s2 s3 : queued s1 s2 -> queued s2 s3 -> queued s1 s3.
Proof.
  intros (_ & A2 & A3 & ca & A4) (B1 & B2 & B3 & cb & B4). split_and!; [done | congruence | congruence|].
  exists (ca ++ cb). by rewrite B4, A4, app_assoc.
Qed.

Lemma queue_order_ok i order : forall s, Inv s -> queued s (queue_order i order s).
Proof.
  induction order as [|p order IH]; intros s Hv; [by apply queued_refl|]. cbn.
  destruct (mem _ _) eqn:Em; [by apply IH|]. destruct (_ <=? _)%nat; [by apply queued_refl|].
  pose proof (queue_Inv i p false _ Hv Em) as Hv'. eapply queued_trans; [|by apply IH].
  split_and!; try done. by exists [mkCandidate i p false].
Qed.

Lemma queue_direct_ok ids : forall s, Inv s -> queued s (queue_direct ids s).
Proof.
  induction ids as [|i ids IH]; intros s Hv; [by apply queued_refl|]. cbn.
  destruct (_ <=? _)%nat; [by apply queued_refl|]. destruct (with_rotator _ _ _ _) as [order rs].
  pose proof (queue_order_ok i order _ (Inv_store rs s Hv)) as Hq. eapply queued_trans; [exact Hq|]. apply IH, Hq.
Qed.

Lemma report_all_same reports : forall k s,
  dialled (report_all k reports s) = dialled s /\ attempts (report_all k reports s) = attempts s.
Proof.
  induction reports as [|r reports IH]; intros k s; [done|]. cbn [report_all].
  match goal with |- dialled (report_all _ _ ?s') = _ /\ _ => destruct (IH (S k) s') as [-> ->] end.
  cbn [candidates set_store]. by destruct (candidates s !! _).
Qed.

(** ** Theorems *)

Lemma initial_Inv rs w : Inv (initial rs w).
Proof. split; try done; [cbn; lia | constructor]. Qed.

Lemma race_launched (s : St) : let c := race s in
  (exists rest, Hedged.launched c ++ rest = map c_proxy (candidates s)) /\
  (forall e, Hedged.coord c = Hedged.Returned (Err e) -> Hedged.attempts e = length (Hedged.launched c)).
Proof.
  cbn zeta. unfold race. destruct (Hedged.race_run_Inv hedge_options (map c_proxy (candidates s)) (now s) events) as [Hp Hk].
  split; [eexists; apply Hp|]. intros e He. unfold Hedged.coord_ok in Hk. rewrite He in Hk. apply Hk.
Qed.

(** Every route this request tried, in order. *)
Definition tried (o : Outcome) : list _ := map route (dialled (final o)) ++ map (fun p => [ident p]) (raced o).

Lemma finish_ok s : Inv s ->
  NoDup (tried (finish s)) /\ (length (tried (finish s)) <= max_attempts)%nat /\
  match returned (finish s) with
  | Some (Err e) => e = AllFailed (length (tried (finish s))) target_addr
  | _ => True
  end.
Proof.
  intros Hv. destruct (queue_direct_ok exits s Hv) as (Hv' & _ & _ & _). unfold finish, tried.
  set (s1 := truncate (queue_direct exits s)). cbn [returned final raced].
  destruct (report_all_same (Hedged.reports (race s1)) 0 s1) as [-> _].
  destruct (race_launched s1) as [[rest Hl] He].
  assert (Hlen : (length (Hedged.launched (race s1)) <= max_attempts - attempts s1)%nat).
  { assert (Hc : (length (candidates s1) <= max_attempts - attempts s1)%nat) by (cbn; rewrite length_take; lia).
    apply (f_equal length) in Hl. rewrite length_app, length_map in Hl. lia. }
  pose proof (v_attempts _ Hv') as Ha. pose proof (v_budget _ Hv') as Hb.
  change (attempts (queue_direct exits s)) with (attempts s1) in Ha, Hb.
  change (dialled (queue_direct exits s)) with (dialled s1) in Ha.
  rewrite length_app, !length_map. split; [|split; [lia|]].
  - pose proof (v_nodup _ Hv') as Hnd. unfold trace in Hnd. change (dialled (queue_direct exits s)) with (dialled s1) in Hnd.
    rewrite <- (take_drop (max_attempts - attempts s1) (candidates (queue_direct exits s))) in Hnd.
    change (take (max_attempts - attempts s1) (candidates (queue_direct exits s))) with (candidates s1) in Hnd.
    rewrite map_app, <- (map_map c_proxy (fun p => [ident p]) (candidates s1)), <- Hl, map_app, !app_assoc in Hnd.
    by apply NoDup_app in Hnd as [[Hnd _]%NoDup_app _].
  - destruct (Hedged.coord (race s1)) as [|[h|e]|] eqn:Ec; try done. by rewrite (He e eq_refl), Ha.
Qed.

(** A win is that of a launched upstream. *)
Lemma race_winner (s : St) h : Hedged.coord (race s) = Hedged.Returned (Ok h) -> Hedged.launched (race s) <> [].
Proof.
  unfold race. destruct (Hedged.race_run_Inv hedge_options (map c_proxy (candidates s)) (now s) events) as [Hp Hk].
  intros Hc. unfold Hedged.coord_ok in Hk. rewrite Hc in Hk. destruct Hk as (r & Hr & _).
  pose proof (Hedged.q_reports _ _ Hp) as Hfa. rewrite Forall_forall in Hfa. destruct (Hfa _ Hr) as [Hl _ _ _].
  intros E. rewrite E in Hl. discriminate Hl.
Qed.

(** C7: A request tries no route twice, sticky or planned or raced, whatever the other
    requests do to the rotators meanwhile, and at most [max_attempts] of them. A stream
    comes from a route that was tried; an error says how many were: all failed, or the
    budget was spent on sticky chains, or the target is banned and nothing was done. *)
Theorem establish_budget rs w o :
  establish_connection rs w = Some o ->
  NoDup (tried o) /\ (length (tried o) <= max_attempts)%nat /\
  match returned o with
  | Some (Ok _) => tried o <> []
  | Some (Err BannedTarget) => banned target_addr = true /\ tried o = [] /\ store (final o) = rs /\ world (final o) = w
  | Some (Err (MaxAttempts n t)) => n = max_attempts /\ length (tried o) = n /\ t = target_addr
  | Some (Err (AllFailed n t)) => n = length (tried o) /\ t = target_addr
  | None => True
  end.
Proof.
  unfold establish_connection. destruct (banned target_addr) eqn:Eb.
  { intros [= <-]. unfold tried. cbn. split; [constructor|]. split; [lia|]. done. }
  destruct (Probes.spawn_chain_probes _ _ _ _ _ _) as [sp rs1].
  assert (Hdone : forall r s, flow_ok (Done r s) ->
    NoDup (tried (mkOutcome (Some r) (now s) s [])) /\ (length (tried (mkOutcome (Some r) (now s) s [])) <= max_attempts)%nat /\
    match r with
    | Ok _ => tried (mkOutcome (Some r) (now s) s []) <> []
    | Err (MaxAttempts n t) => n = max_attempts /\ length (tried (mkOutcome (Some r) (now s) s [])) = n /\ t = target_addr
    | Err _ => False
    end).
  { intros r s [Hv Hr]. cbn in Hv. unfold tried. cbn [final raced map]. rewrite app_nil_r, length_map, <- (v_attempts _ Hv).
    pose proof (v_nodup _ Hv) as Hnd. unfold trace in Hnd. apply NoDup_app in Hnd as [Hnd _].
    split; [done|]. split; [apply Hv|]. destruct r as [u|[|n t|n t]]; try done.
    - intros E%map_eq_nil. done.
    - destruct Hr as (-> & ? & ->). done. }
  assert (Hend : forall r s, flow_ok (Done r s) -> Some (mkOutcome (Some r) (now s) s []) = Some o ->
    NoDup (tried o) /\ (length (tried o) <= max_attempts)%nat /\
    match returned o with
    | Some (Ok _) => tried o <> []
    | Some (Err BannedTarget) => false = true /\ tried o = [] /\ store (final o) = rs /\ world (final o) = w
    | Some (Err (MaxAttempts n t)) => n = max_attempts /\ length (tried o) = n /\ t = target_addr
    | Some (Err (AllFailed n t)) => n = length (tried o) /\ t = target_addr
    | None => True
    end).
  { intros r s Hf [= <-]. destruct (Hdone r s Hf) as (H1 & H2 & H3). split; [done|]. split; [done|].
    cbn [returned]. by destruct r as [u|[|n t|n t]]. }
  pose proof (cached_routes_ok exits _ (Inv_store rs1 _ (initial_Inv rs w))) as Hf.
  destruct (cached_routes exits _) as [s|r s]; [|by apply Hend].
  destruct (start_plan_ok s (proj1 Hf)) as (Hv & Hr & _). destruct (plan_fuel_enough (start_plan s)) as [P1 P2].
  destruct (plan_loop_ok _ _ Hv Hr P1 P2) as (f & -> & Hf2 & _). cbn [mbind option_bind].
  destruct f as [s2|r s2]; [|by apply Hend]. intros [= <-].
  destruct (finish_ok s2 (proj1 Hf2)) as (F1 & F2 & F3). split; [done|]. split; [done|].
  destruct (returned (finish s2)) as [[u|e]|] eqn:Er; [|by subst e|done].
  unfold finish in Er |- *. cbn [returned] in Er. unfold tried. cbn [raced].
  destruct (Hedged.coord (race _)) as [|[h|e]|] eqn:Ec; try discriminate Er. apply race_winner in Ec.
  intros [_ E%map_eq_nil]%app_eq_nil. done.
Qed.

Lemma plan_runs s : Inv s -> is_Some (plan_loop (plan_fuel (start_plan s)) (start_plan s)).
Proof.
  intros Hi. destruct (start_plan_ok s Hi) as (Hv & Hr & _). destruct (plan_fuel_enough (start_plan s)) as [P1 P2].
  destruct (plan_loop_ok _ _ Hv Hr P1 P2) as (f & Hf & _). by exists f.
Qed.

(** C9: A request always comes to a result or to its race, and the race, as
    [Hedged.hedged_ends] says, to an end: a plan offers finitely many chains, each is
    dialed once, and the loop never looks for a plan that is not there. *)
Theorem establish_total rs w : exists o, establish_connection rs w = Some o /\
  (returned o = None -> exists s, o = finish s /\ forall r, Hedged.coord (race (truncate (queue_direct exits s))) <> Hedged.Returned r).
Proof.
  unfold establish_connection. destruct (banned target_addr); [by eexists|].
  destruct (Probes.spawn_chain_probes _ _ _ _ _ _) as [sp rs1].
  pose proof (cached_routes_ok exits _ (Inv_store rs1 _ (initial_Inv rs w))) as Hf.
  destruct (cached_routes exits _) as [s|r s]; [|by eexists].
  destruct (plan_runs s (proj1 Hf)) as [f ->]. cbn [mbind option_bind].
  destruct f as [s2|r s2]; [|by eexists]. eexists. split; [done|]. intros Hn. exists s2. split; [done|].
  intros r E. unfold finish in Hn. cbn [returned] in Hn. rewrite E in Hn. by destruct r.
Qed.

(** *** The share of the direct upstreams *)

Lemma cached_chain_queue i pick s : candidates (flow_state (cached_chain i pick s)) = candidates s /\
  direct_reserve (flow_state (cached_chain i pick s)) = direct_reserve s.
Proof.
  unfold cached_chain. destruct (gate_quarantined _ _); [done|]. destruct (mem _ _); [done|].
  destruct (_ <=? _)%nat; [done|]. unfold dial_route. destruct (connect _ _) as [[u|e] w]; [done|].
  unfold chain_failed, new_plan. cbn [plan]. destruct (plan s) as [p|].
  - by destruct (record_failure _ _ _ _ _) as [[q p'] rs].
  - destruct (_ <? _)%nat; destruct (new _ _ _ _) as [p rs0]; by destruct (record_failure _ _ _ _ _) as [[q p'] rs].
Qed.

(** The queued sticky upstreams are within the reserve. *)
Definition reserved (s : St) : Prop :=
  (length (candidates s) <= direct_reserve s)%nat /\ Forall (fun c => cached c = true) (candidates s).

Lemma cached_route_reserved i s : reserved s -> reserved (flow_state (cached_route i s)).
Proof.
  intros [H1 H2]. unfold cached_route. destruct (with_rotator _ _ _ _) as [[c|] rs]; [|by split].
  destruct (gate c) as [g|].
  - destruct (resolve _ gates [i] c) as [pick|]; [|by split]. unfold reserved.
    destruct (cached_chain_queue i pick (set_store rs s)) as [-> ->]. by split.
  - destruct (mem _ _); [by split|]. split; cbn; [rewrite length_app; cbn; lia|].
    apply Forall_app. split; [done|]. by repeat constructor.
Qed.

Lemma cached_routes_reserved ids : forall s, reserved s -> reserved (flow_state (cached_routes ids s)).
Proof.
  induction ids as [|i ids IH]; intros s Hs; [done|]. cbn. pose proof (cached_route_reserved i s Hs) as H1.
  destruct (cached_route i s); [by apply IH | done].
Qed.

(** An upstream that may be queued is: the first of the order, when nothing is. *)
Lemma queue_order_first i p order s : mem (direct_route p) (tried_routes s) = false ->
  (attempts s + length (candidates s) < max_attempts)%nat -> Inv s ->
  candidates (queue_order i (p :: order) s) <> [].
Proof.
  intros Hm Ha Hv. cbn. rewrite Hm, (proj2 (Nat.leb_gt _ _) Ha).
  destruct (queue_order_ok i order _ (queue_Inv i p false s Hv Hm)) as (_ & _ & _ & cs & ->). cbn.
  by destruct (candidates s).
Qed.

(** ** Dropped *)

Section Late.
Variable in_time : Z -> bool.

Lemma cached_routes_until_kept ids : forall s f, cached_routes_until in_time ids s = Kept f -> cached_routes ids s = f.
Proof.
  induction ids as [|i ids IH]; intros s f; cbn; [by intros [= <-]|]. unfold cached_route_until.
  destruct (in_time _); [|done]. destruct (cached_route i s); [apply IH | by intros [= <-]].
Qed.

Lemma plan_loop_until_kept fuel : forall s,
  match plan_loop_until in_time fuel s with
  | None => plan_loop fuel s = None
  | Some (Kept f) => plan_loop fuel s = Some f
  | Some (Gone _) => True
  end.
Proof.
  induction fuel as [|fuel IH]; intros s; [done|]. cbn [plan_loop plan_loop_until]. destruct (_ && _); [|done].
  destruct (plan s) as [p|]; [|done]. destruct (next_pick p) as [[pick|] p']; [|done].
  destruct (mem _ _); [apply IH|]. destruct (dial_route pick _) as [r s1]. destruct (in_time _); cbn [negb]; [|done].
  destruct r; [done | apply IH].
Qed.

(** A request is dropped somewhere: never for want of fuel. *)
Lemma establish_until_total rs w : is_Some (establish_until in_time rs w).
Proof.
  unfold establish_until. destruct (_ || _); [done|]. destruct (Probes.spawn_chain_probes _ _ _ _ _ _) as [cs rs1].
  pose proof (cached_routes_ok exits _ (Inv_store rs1 _ (initial_Inv rs w))) as Hf.
  destruct (cached_routes_until _ _ _) as [[s|r s]|] eqn:Ec; try done.
  apply cached_routes_until_kept in Ec. rewrite Ec in Hf. destruct (plan_runs s (proj1 Hf)) as [f Hr].
  pose proof (plan_loop_until_kept (plan_fuel (start_plan s)) (start_plan s)) as Hl.
  destruct (plan_loop_until _ _ _); [done|]. by rewrite Hl in Hr.
Qed.

Lemma abandoned_late es : forall c : Hedged.Race (U := U), (forall t, in_time t = true) ->
  abandoned in_time es c = es ++ [Hedged.Abandon].
Proof. induction es as [|e es IH]; intros c Hl; cbn; [done|]. by rewrite Hl, IH. Qed.

(** Dropped when it is over, it leaves what it leaves. *)
Lemma establish_until_late rs w : (forall t, in_time t = true) ->
  establish_until in_time rs w = store ∘ final <$> establish_connection rs w.
Proof.
  intros Hl. unfold establish_until, establish_connection. rewrite Hl. cbn [negb orb].
  destruct (banned _); [done|]. destruct (Probes.spawn_chain_probes _ _ _ _ _ _) as [cs rs1].
  assert (Hc : forall ids s, cached_routes_until in_time ids s = Kept (cached_routes ids s)).
  { induction ids as [|i ids IH]; intros s; cbn; [done|]. unfold cached_route_until. rewrite Hl. by destruct (cached_route i s). }
  assert (Hp : forall fuel s, plan_loop_until in_time fuel s = Kept <$> plan_loop fuel s).
  { induction fuel as [|fuel IH]; intros s; cbn [plan_loop plan_loop_until]; [done|]. destruct (_ && _); [|done].
    destruct (plan s) as [p|]; [|done]. destruct (next_pick p) as [[pick|] p']; [|done].
    destruct (mem _ _); [apply IH|]. destruct (dial_route pick _) as [[u|e] s1]; rewrite Hl; [done | apply IH]. }
  rewrite Hc. destruct (cached_routes exits _) as [s|r s]; [|done]. rewrite Hp.
  destruct (plan_loop _ _) as [[s1|r s1]|]; [|done..]. cbn. f_equal. unfold finish_until.
  rewrite abandoned_late by done. do 2 f_equal. unfold race, Hedged.run. rewrite foldl_app. cbn.
  by destruct (Hedged.coord _).
Qed.
End Late.

(** ** The rotators *)

(** What the calls on a rotator keep. *)
Definition sound (rs rs' : Store) : Prop :=
  Forall Rotator.wf rs -> Forall Rotator.wf rs' /\ map Rotator.proxies rs' = map Rotator.proxies rs.

#[local] Instance sound_preorder : PreOrder sound.
Proof.
  split; [done|]. intros a b c Hab Hbc Ha. destruct (Hab Ha) as [Hb E1]. destruct (Hbc Hb) as [Hc E2].
  split; [done | congruence].
Qed.
Lemma sound_trans a b c : sound a b -> sound b c -> sound a c.
Proof. intros H1 H2. by transitivity b. Qed.

Section Laws.
Context `{!FloatLaws F}.
Hypothesis others_sound : forall k rs, sound rs (others k rs).

Lemma with_rotator_sound {A} (rs : Store) i (d : A) f :
  (forall r, Rotator.wf r -> Rotator.wf (f r).2 /\ Rotator.proxies (f r).2 = Rotator.proxies r) ->
  sound rs (with_rotator rs i d f).2.
Proof.
  intros Hf Hw. unfold with_rotator. destruct (rs !! i) as [r|] eqn:Ei; [|done].
  pose proof (Forall_lookup_1 _ _ _ _ Hw Ei) as Hr. destruct (Hf r Hr) as [H1 H2]. destruct (f r) as [a r']. cbn in *.
  split; [by apply Forall_insert|]. apply list_eq. intros j. rewrite !list_lookup_fmap, (Probes.store_insert _ _ _ _ _ Ei).
  destruct (decide (i = j)) as [<-|]; [|done]. rewrite Ei. cbn. by rewrite H2.
Qed.

Definition calls (k : Rotator.Call) : Rotator.call_ok k ->
  forall r, Rotator.wf r -> Rotator.wf (Rotator.run k r) /\ Rotator.proxies (Rotator.run k r) = Rotator.proxies r :=
  fun Hk r Hr => Rotator.rotator_run_wf k r Hk Hr.

Lemma pick_orders_sound clock ids : forall k (rs : Store), sound rs (pick_orders clock k ids rs).2.
Proof.
  induction ids as [|i ids IH]; intros k rs; [done|]. cbn [pick_orders].
  pose proof (with_rotator_sound rs i [] (Rotator.pick_order (clock k)) (calls (Rotator.KPickOrder (clock k)) I)) as H1.
  destruct (with_rotator rs i [] _) as [order rs1]. specialize (IH (S k) rs1).
  destruct (pick_orders clock (S k) ids rs1) as [l rs2]. by eapply sound_trans.
Qed.

Lemma new_plan_sound gs es s : sound (store s) (store (new_plan gs es s).2).
Proof.
  unfold new_plan, new. pose proof (pick_orders_sound (fun _ => now s) (map snd gs) 0 (store s)) as H1.
  destruct (pick_orders _ 0 _ _) as [g rs1]. pose proof (pick_orders_sound (fun _ => now s) es (length gs) rs1) as H2.
  destruct (pick_orders _ _ es rs1) as [e rs2]. by eapply sound_trans.
Qed.

Lemma claim_probes_sound gs clock : forall k (rs : Store), sound rs (Probes.claim_probes gs clock k rs).2.
Proof.
  induction gs as [|[rank i] gs IH]; intros k rs; [done|]. cbn [Probes.claim_probes].
  pose proof (with_rotator_sound rs i [] (Rotator.take_probes (clock (S k))) (calls (Rotator.KTakeProbes (clock (S k))) I)) as H1.
  destruct (with_rotator rs i [] _) as [ps rs1]. specialize (IH (S (S k)) rs1).
  destruct (Probes.claim_probes gs clock (S (S k)) rs1) as [l rs2]. by eapply sound_trans.
Qed.

Lemma soft_all_sound clock hs : forall k (rs : Store), sound rs (soft_all clock k hs rs).
Proof.
  induction hs as [|h hs IH]; intros k rs; [done|]. cbn. eapply sound_trans; [|apply IH].
  apply with_rotator_sound, (calls (Rotator.KFailure (proxy h) (clock k)) I).
Qed.

Lemma record_success_sound clock hs : forall k (rs : Store), sound rs (record_success clock k hs rs).
Proof.
  induction hs as [|h hs IH]; intros k rs; [done|]. cbn. eapply sound_trans; [|apply IH].
  apply with_rotator_sound, (calls (Rotator.KSuccess (proxy h) (clock k)) I).
Qed.

Lemma chain_failed_sound pick e p s : sound (store s) (store (chain_failed pick e p s)).
Proof.
  unfold chain_failed, record_failure. destruct (negb _); [done|]. destruct (blamed _ _ _) as [h|].
  - unfold hard. pose proof (with_rotator_sound (store s) (rotator h) None (Rotator.record_error (proxy h) (error e) (now s))
      (calls (Rotator.KError (proxy h) (error e) (now s)) I)) as H1.
    by destruct (with_rotator _ _ _ _) as [q rs].
  - apply soft_all_sound.
Qed.

Lemma dial_route_sound pick s : sound (store s) (store (dial_route pick s).2).
Proof. unfold dial_route. destruct (connect _ _). apply others_sound. Qed.

Lemma unlink_sound i s : sound (store s) (store (unlink i s)).
Proof. apply with_rotator_sound, (calls (Rotator.KUnlink target_addr) I). Qed.
Lemma link_sound i c s : sound (store s) (store (link i c s)).
Proof. apply with_rotator_sound, (calls (Rotator.KLink target_addr c (now s)) I). Qed.

Lemma cached_chain_sound i pick s : sound (store s) (store (flow_state (cached_chain i pick s))).
Proof.
  unfold cached_chain. destruct (gate_quarantined _ _); [apply unlink_sound|]. destruct (mem _ _); [done|].
  destruct (_ <=? _)%nat; [done|]. pose proof (dial_route_sound pick s) as H1.
  destruct (dial_route pick s) as [[u|e] s1]; cbn [snd] in H1; (eapply sound_trans; [exact H1|]).
  - apply record_success_sound.
  - assert (Hplan : sound (store s1) (store (match plan s1 with
       | Some p => (p, s1)
       | None => if (attempts s1 + direct_reserve s1 <? max_attempts)%nat then new_plan gates exits s1 else new_plan [] [] s1
       end).2)) by (destruct (plan s1); [done|]; destruct (_ <? _)%nat; apply new_plan_sound).
    destruct (match plan s1 with Some p => _ | None => _ end) as [p s2]. cbn [flow_state snd] in *.
    eapply sound_trans; [exact Hplan|]. eapply sound_trans; [apply chain_failed_sound | apply unlink_sound].
Qed.

Lemma cached_route_sound i s : sound (store s) (store (flow_state (cached_route i s))).
Proof.
  unfold cached_route. pose proof (with_rotator_sound (store s) i None (Rotator.get_linked target_addr (now s))
    (calls (Rotator.KGetLinked target_addr (now s)) I)) as H1.
  destruct (with_rotator _ _ _ _) as [[c|] rs]; cbn [snd] in H1; [|exact H1].
  eapply sound_trans; [exact H1|]. destruct (gate c) as [g|]; [|by destruct (mem _ _)].
  destruct (resolve _ gates [i] c) as [pick|]; [|apply (unlink_sound i (set_store rs s))].
  apply (cached_chain_sound i pick (set_store rs s)).
Qed.

Lemma cached_routes_sound ids : forall s, sound (store s) (store (flow_state (cached_routes ids s))).
Proof.
  induction ids as [|i ids IH]; intros s; [done|]. cbn. pose proof (cached_route_sound i s) as H1.
  destruct (cached_route i s) as [s1|r s1]; [|done]. by eapply sound_trans; [exact H1|].
Qed.

Lemma start_plan_sound s : sound (store s) (store (start_plan s)).
Proof.
  unfold start_plan. pose proof (new_plan_sound gates exits s) as H1. destruct (new_plan gates exits s) as [p s1].
  destruct gates, (plan s); try done. by destruct (_ <? _)%nat.
Qed.

Lemma plan_loop_sound fuel : forall s f, plan_loop fuel s = Some f -> sound (store s) (store (flow_state f)).
Proof.
  induction fuel as [|fuel IH]; intros s f; [done|]. cbn [plan_loop].
  destruct (_ && _); [|by intros [= <-]]. destruct (plan s) as [p|]; [|done].
  destruct (next_pick p) as [[pick|] p']; [|by intros [= <-]]. destruct (mem _ _); [apply (IH (set_plan p' s))|].
  pose proof (dial_route_sound pick (set_plan p' s)) as H1. destruct (dial_route pick _) as [[u|e] s1]; cbn [snd] in H1.
  - intros [= <-]. eapply sound_trans; [exact H1|]. cbn [flow_state].
    eapply sound_trans; [apply record_success_sound | apply (link_sound _ _ (chain_succeeded pick s1))].
  - intros Hrun. eapply sound_trans; [exact H1|]. eapply sound_trans; [apply chain_failed_sound | by apply IH].
Qed.

Lemma queue_order_store i order : forall s, store (queue_order i order s) = store s.
Proof.
  induction order as [|p order IH]; intros s; [done|]. cbn. destruct (mem _ _); [apply IH|].
  destruct (_ <=? _)%nat; [done|]. by rewrite IH.
Qed.

Lemma queue_direct_sound ids : forall s, sound (store s) (store (queue_direct ids s)).
Proof.
  induction ids as [|i ids IH]; intros s; [done|]. cbn. destruct (_ <=? _)%nat; [done|].
  pose proof (with_rotator_sound (store s) i [] (Rotator.pick_order (now s)) (calls (Rotator.KPickOrder (now s)) I)) as H1.
  destruct (with_rotator _ _ _ _) as [order rs]. eapply sound_trans; [exact H1|]. eapply sound_trans; [|apply IH].
  by rewrite queue_order_store.
Qed.

Lemma report_attempt_wf c report t r : Rotator.wf r ->
  Rotator.wf (report_attempt c report t r) /\ Rotator.proxies (report_attempt c report t r) = Rotator.proxies r.
Proof.
  intros Hr. destruct (calls (Rotator.KSuccess (c_proxy c) t) I r Hr) as [S1 S2]. cbn [Rotator.run] in S1, S2.
  unfold report_attempt. destruct (Hedged.r_outcome report) as [| | |e]; [| done | done |].
  - destruct (_ && _); [done|]. destruct (negb _); [|done]. rewrite <- S2.
    by apply (calls (Rotator.KLink target_addr (c_proxy c) t) I).
  - set (r1 := if _ && _ then _ else r).
    assert (H1 : Rotator.wf r1 /\ Rotator.proxies r1 = Rotator.proxies r)
      by (unfold r1; destruct (_ && _); [by apply (calls (Rotator.KUnlink target_addr) I) | done]).
    unfold record_proxy_failure. destruct (should_record_connect_failure e); [|done]. cbn [negb]. destruct H1 as [H1 <-].
    by apply (calls (Rotator.KError (c_proxy c) e t) I).
Qed.

Lemma report_all_sound reports : forall k s, sound (store s) (store (report_all k reports s)).
Proof.
  induction reports as [|r reports IH]; intros k s; [done|]. cbn [report_all].
  eapply sound_trans; [apply (others_sound (attempts s + k))|]. eapply sound_trans; [|apply IH].
  cbn [candidates set_store]. destruct (candidates s !! _) as [c|]; [|done].
  apply with_rotator_sound. intros x Hx. by apply report_attempt_wf.
Qed.

Lemma establish_keeps rs w o : establish_connection rs w = Some o -> sound rs (store (final o)).
Proof.
  unfold establish_connection. destruct (banned target_addr); [by intros [= <-]|].
  unfold Probes.spawn_chain_probes. pose proof (claim_probes_sound (tail gates) (fun _ => now (initial rs w)) 0 rs) as H1.
  cbn [store initial]. destruct (Probes.claim_probes _ _ 0 rs) as [cs rs1]. cbn [snd] in H1.
  pose proof (cached_routes_sound exits (set_store rs1 (initial rs w))) as H2.
  destruct (cached_routes exits _) as [s|r s]; cbn [flow_state] in H2.
  2:{ intros [= <-]. by eapply sound_trans. }
  pose proof (plan_loop_sound (plan_fuel (start_plan s)) (start_plan s)) as H3.
  destruct (plan_loop _ _) as [f|]; cbn [mbind option_bind]; [|done].
  assert (Hf : sound rs (store (flow_state f))).
  { eapply sound_trans; [exact H1|]. eapply sound_trans; [exact H2|].
    eapply sound_trans; [apply start_plan_sound | by apply H3]. }
  destruct f as [s2|r s2]; intros [= <-]; [|done]. eapply sound_trans; [exact Hf|].
  eapply sound_trans; [apply (queue_direct_sound exits s2)|]. unfold finish. cbn [final].
  apply (report_all_sound _ 0 (truncate (queue_direct exits s2))).
Qed.

(** *** ... and one that is dropped *)

Definition cut_store (c : Cut) : Store := match c with Kept f => store (flow_state f) | Gone rs => rs end.

Lemma get_linked_sound i s : sound (store s) (with_rotator (store s) i None (Rotator.get_linked target_addr (now s))).2.
Proof. apply with_rotator_sound, (calls (Rotator.KGetLinked target_addr (now s)) I). Qed.

Lemma cached_routes_until_sound in_time ids : forall s, sound (store s) (cut_store (cached_routes_until in_time ids s)).
Proof.
  induction ids as [|i ids IH]; intros s; [done|]. cbn. pose proof (cached_route_sound i s) as H1.
  unfold cached_route_until. destruct (in_time _).
  - destruct (cached_route i s) as [s1|r s1]; [|done]. by eapply sound_trans; [exact H1|].
  - eapply sound_trans; [apply (get_linked_sound i) | apply others_sound].
Qed.

Lemma plan_loop_until_sound in_time fuel : forall s c,
  plan_loop_until in_time fuel s = Some c -> sound (store s) (cut_store c).
Proof.
  induction fuel as [|fuel IH]; intros s f; [done|]. cbn [plan_loop_until].
  destruct (_ && _); [|by intros [= <-]]. destruct (plan s) as [p|]; [|done].
  destruct (next_pick p) as [[pick|] p']; [|by intros [= <-]]. destruct (mem _ _); [apply (IH (set_plan p' s))|].
  pose proof (dial_route_sound pick (set_plan p' s)) as H1. destruct (dial_route pick _) as [r s1]; cbn [snd] in H1.
  destruct (in_time _); cbn [negb]; [|by intros [= <-]]. destruct r as [u|e].
  - intros [= <-]. eapply sound_trans; [exact H1|]. cbn [cut_store flow_state].
    eapply sound_trans; [apply record_success_sound | apply (link_sound _ _ (chain_succeeded pick s1))].
  - intros Hrun. eapply sound_trans; [exact H1|]. eapply sound_trans; [apply chain_failed_sound | by apply IH].
Qed.

Lemma finish_until_sound in_time s : sound (store s) (finish_until in_time s).
Proof.
  eapply sound_trans; [apply (queue_direct_sound exits s)|].
  apply (report_all_sound _ 0 (truncate (queue_direct exits s))).
Qed.

Lemma establish_until_sound in_time rs w rs' : establish_until in_time rs w = Some rs' -> sound rs rs'.
Proof.
  unfold establish_until. destruct (_ || _); [by intros [= <-]|].
  unfold Probes.spawn_chain_probes. pose proof (claim_probes_sound (tail gates) (fun _ => now (initial rs w)) 0 rs) as H1.
  cbn [store initial]. destruct (Probes.claim_probes _ _ 0 rs) as [cs rs1]. cbn [snd] in H1.
  pose proof (cached_routes_until_sound in_time exits (set_store rs1 (initial rs w))) as H2.
  destruct (cached_routes_until _ exits _) as [[s|r s]|rs2]; cbn [cut_store flow_state] in H2; [|intros [= <-]; by eapply sound_trans..].
  pose proof (plan_loop_until_sound in_time (plan_fuel (start_plan s)) (start_plan s)) as H3.
  destruct (plan_loop_until _ _ _) as [c|]; cbn [mbind option_bind]; [|done].
  assert (Hc : sound rs (cut_store c)).
  { eapply sound_trans; [exact H1|]. eapply sound_trans; [exact H2|].
    eapply sound_trans; [apply start_plan_sound | by apply H3]. }
  destruct c as [[s2|r s2]|rs2]; intros [= <-]; [|done..]. eapply sound_trans; [exact Hc | apply finish_until_sound].
Qed.

(** Whatever a request tries and whatever becomes of it, every rotator stays well
    formed and keeps its list of upstreams: establishing a connection is made of rotator
    calls, and so are the others' requests. *)
Theorem establish_sound rs w o :
  Forall Rotator.wf rs -> establish_connection rs w = Some o ->
  Forall Rotator.wf (store (final o)) /\ map Rotator.proxies (store (final o)) = map Rotator.proxies rs.
Proof. intros Hw Hrun. by apply (establish_keeps rs w). Qed.

(** The plan leaves the direct upstreams their share: as long as the sticky chains had
    not spent it, every sticky upstream queued is in the race, ahead of the others, after
    however many chains have failed; and with an exit configured the race is never empty,
    its first upstream being one that the request has not tried. *)
Theorem plan_keeps_reserve rs w s s' :
  cached_routes exits (initial rs w) = Next s ->
  plan_loop (plan_fuel (start_plan s)) (start_plan s) = Some (Next s') ->
  (attempts s + direct_reserve s <= max_attempts)%nat ->
  let raced := candidates (truncate (queue_direct exits s')) in
  (attempts s' + length raced <= max_attempts)%nat /\
  candidates s `prefix_of` raced /\ Forall (fun c => cached c = true) (candidates s) /\
  (direct_reserve s <> 0%nat -> exits <> [] ->
   (forall i, i ∈ exits -> exists r, store s' !! i = Some r /\ Rotator.wf r) -> raced <> []).
Proof.
  intros Hc Hp Hb. cbn zeta.
  pose proof (cached_routes_ok exits _ (initial_Inv rs w)) as [Hv _].
  assert (Hr0 : reserved (initial rs w)) by (split; [cbn; lia | constructor]).
  pose proof (cached_routes_reserved exits _ Hr0) as [Hlen Hcached]. rewrite Hc in Hv, Hlen, Hcached. cbn in Hv, Hlen, Hcached.
  destruct (start_plan_ok s Hv) as (Hv1 & Hready & Hsame). destruct (plan_fuel_enough (start_plan s)) as [P1 P2].
  destruct (plan_loop_ok _ _ Hv1 Hready P1 P2) as (f & E & [Hv2 _] & Hpl). rewrite Hp in E. injection E as <-. cbn in Hv2, Hpl.
  destruct Hsame as (A1 & A2 & A3), Hpl as (B1 & B2 & B3).
  destruct (queue_direct_ok exits s' Hv2) as (_ & Q1 & _ & cs & Q2).
  pose proof (v_budget _ Hv2) as Hbud. assert (Hatt : (attempts s' + direct_reserve s <= max_attempts)%nat) by lia.
  unfold truncate. cbn [candidates set_candidates]. rewrite Q1, Q2, B1, A1. split; [rewrite length_take; lia|]. split.
  { rewrite take_app_ge by lia. by eexists. }
  split; [done|]. intros Hres Hex Hrot. destruct (candidates s) as [|c cands] eqn:Ecs.
  2:{ destruct (max_attempts - attempts s')%nat eqn:Em; [lia|]. done. }
  destruct exits as [|i ids] eqn:Ei; [done|]. destruct (Hrot i) as (r & Hr & Hwr); [by left|].
  assert (Hq : candidates (queue_direct (i :: ids) s') <> []).
  { cbn [queue_direct]. rewrite B1, A1. cbn [length]. rewrite (proj2 (Nat.leb_gt _ _)) by lia.
    unfold with_rotator. rewrite Hr. destruct (Rotator.pick_order_members (now s') r Hwr) as (Hne & _).
    destruct (Rotator.pick_order (now s') r) as [[|p order] r']; [done|].
    set (s1 := set_store _ s'). assert (Hv3 : Inv s1) by (by apply Inv_store).
    assert (Hnew : mem (direct_route p) (tried_routes s1) = false).
    { destruct (mem _ _) eqn:Em; [|done]. apply mem_routes in Em. rewrite direct_route_spec in Em.
      apply (v_tried _ Hv3) in Em. unfold trace in Em. cbn in Em. rewrite B1, A1, app_nil_r in Em.
      apply list_elem_of_fmap in Em as (c & Hcr & Hin). pose proof (v_long _ Hv3) as Hl. cbn in Hl.
      rewrite Forall_forall in Hl. specialize (Hl c Hin). unfold route in Hcr.
      apply (f_equal length) in Hcr. rewrite length_map in Hcr. cbn in Hcr. lia. }
    pose proof (queue_order_first i p order s1 Hnew) as Hqo.
    destruct (queue_direct_ok ids (queue_order i (p :: order) s1)) as (_ & _ & _ & cs' & ->).
    { by apply queue_order_ok. }
    intros [E _]%app_eq_nil. revert E. apply Hqo; [cbn; rewrite B1, A1; cbn; lia | done]. }
  rewrite Q2, B1, A1 in Hq. cbn [app] in Hq |- *. destruct cs; [done|].
  destruct (max_attempts - attempts s')%nat eqn:Em; [lia|]. done.
Qed.

(** A node that was just recorded a success is not quarantined. *)
Lemma success_heals p q t (r : Rotator.t F) : Rotator.wf r -> ident q = ident p ->
  Rotator.is_quarantined (Rotator.record_success p t r) q = false.
Proof.
  intros Hw E. unfold Rotator.record_success, Rotator.is_quarantined.
  assert (Hix : Rotator.index_of r q = Rotator.index_of r p).
  { apply option_eq. intros k. rewrite !Rotator.index_of_spec by done. by setoid_rewrite E. }
  destruct (Rotator.index_of r p) as [k|] eqn:Ek; [|by rewrite Hix].
  rewrite Rotator.set_ratings_index, Hix. unfold Ratings.is_quarantined. cbn [Rotator.ratings Rotator.set_ratings].
  pose proof (Rotator.index_of_lt _ _ _ Hw Ek) as Hk. destruct Hw as (_ & _ & _ & _ & Hl & _).
  rewrite Probes.on_success_qcells by (by rewrite Hl). rewrite list_lookup_alter_eq.
  by destruct (Ratings.qcells _ !! k).
Qed.

Lemma config_exit pick hs h c : hops pick = hs ++ [h] -> chain (map proxy (hops pick)) = Some c ->
  config pick = c /\ ident c = ident (proxy h).
Proof.
  intros Hh Hc. unfold config. rewrite Hc. split; [done|]. rewrite Hh, map_app in Hc. cbn in Hc.
  rewrite chain_snoc in Hc. injection Hc as <-. apply ident_set_gate.
Qed.

Lemma record_success_snoc clock hs h : forall k (rs : Store), record_success clock k (hs ++ [h]) rs =
  (with_rotator (record_success clock k hs rs) (rotator h) tt
     (fun r => (tt, Rotator.record_success (proxy h) (clock (k + length hs)%nat) r))).2.
Proof.
  induction hs as [|h' hs IH]; intros k rs; cbn; [by rewrite Nat.add_0_r|]. rewrite IH.
  by rewrite Nat.add_succ_r.
Qed.

(** The entry of the exit's rotator, right after a success of the chain. *)
Lemma linked_after_success pick hs h c s r : Forall Rotator.wf (store s) ->
  hops pick = hs ++ [h] -> chain (map proxy (hops pick)) = Some c ->
  store (link (rotator h) (config pick) (chain_succeeded pick s)) !! rotator h = Some r ->
  Sticky.max_entries (Rotator.sticky r) <> 0%nat -> now s + Sticky.ttl (Rotator.sticky r) <= INSTANT_MAX ->
  forall t, t < now s + Sticky.ttl (Rotator.sticky r) -> (Rotator.get_linked target_addr t r).1 = Some (config pick).
Proof.
  intros Hw Hh Hc Hr Hm Hi t Ht. destruct (config_exit pick hs h c Hh Hc) as [Hcfg Hid].
  unfold link, on_rotator, chain_succeeded in Hr. cbn [store set_store] in Hr.
  rewrite Hh, record_success_snoc in Hr.
  pose proof (record_success_sound (fun _ => now s) hs 0 (store s) Hw) as [Hw0 _].
  set (rs0 := record_success _ 0 hs (store s)) in *. unfold with_rotator in Hr.
  destruct (rs0 !! rotator h) as [r0|] eqn:E0; cbn [snd] in Hr; [|by rewrite E0 in Hr; cbn in Hr; congruence].
  pose proof (Forall_lookup_1 _ _ _ _ Hw0 E0) as Hw1. pose proof (lookup_lt_Some _ _ _ E0) as Hlt.
  rewrite list_lookup_insert_eq in Hr by done. cbn [snd] in Hr.
  rewrite list_lookup_insert_eq in Hr by (by rewrite length_insert). injection Hr as <-.
  set (r1 := Rotator.record_success (proxy h) (now s) r0) in *.
  assert (Hw2 : Rotator.wf r1) by (by apply Rotator.record_success_wf).
  change (now (set_store _ s)) with (now s) in *.
  assert (Hst : Sticky.max_entries (Rotator.sticky (Rotator.link_proxy target_addr (config pick) (now s) r1)) = Sticky.max_entries (Rotator.sticky r1) /\
                Sticky.ttl (Rotator.sticky (Rotator.link_proxy target_addr (config pick) (now s) r1)) = Sticky.ttl (Rotator.sticky r1)).
  { unfold Rotator.link_proxy, Sticky.insert. cbn [Rotator.sticky Rotator.set_sticky]. case_bool_decide as E; [done|].
    fold (Sticky.make_room target_addr (now s) (Rotator.sticky r1)).
    pose proof (Sticky.make_room_spec target_addr (now s) (Rotator.sticky r1)) as Hmr.
    destruct Hmr as (Hm1 & Hm2 & _); [apply Hw2 | done |]. cbn. by rewrite Hm1, Hm2. }
  destruct Hst as [Hs1 Hs2]. rewrite Hs1 in Hm. rewrite Hs2 in Hi, Ht.
  destruct (Rotator.sticky_affinity target_addr (config pick) (now s) t r1 Hw2 Hm Hi) as [-> _].
  rewrite (proj2 (Z.leb_gt _ _) Ht). cbn [orb]. unfold r1. by rewrite success_heals by (by rewrite ?Hcfg, ?Hid).
Qed.

Lemma plan_loop_links fuel : forall s u s', Forall Rotator.wf (store s) -> Inv s ->
  plan_loop fuel s = Some (Done (Ok u) s') ->
  exists pick, last (dialled s') = Some (config pick) /\
    forall r, store s' !! exit_rotator pick = Some r -> Sticky.max_entries (Rotator.sticky r) <> 0%nat ->
      now s' + Sticky.ttl (Rotator.sticky r) <= INSTANT_MAX ->
      forall t, t < now s' + Sticky.ttl (Rotator.sticky r) ->
        (Rotator.get_linked target_addr t r).1 = Some (config pick).
Proof.
  induction fuel as [|fuel IH]; intros s u s' Hw Hv; [done|]. cbn [plan_loop].
  case_bool_decide as Eg; [done|]. cbn [negb andb].
  destruct (Nat.ltb_spec (attempts s + direct_reserve s) max_attempts) as [Ha|Ha]; [|done].
  destruct (plan s) as [p|] eqn:Ep; [|done].
  pose proof (v_plan _ Hv _ Ep) as [Hpw Hl]. pose proof (next_pick_popped p Hpw) as (Hw' & _ & _ & Hpop).
  destruct (next_pick p) as [[pick|] p'] eqn:En; [|done]. cbn [fst snd] in *.
  destruct (viable p) as [|cs tl]; [by destruct Hpop|]. destruct Hpop as (Hpick & _ & Hvp'). apply Forall_cons in Hl as [Hcs Hl].
  assert (Hp' : plan_ok p') by (split; [done | by rewrite Hvp']).
  pose proof (Inv_plan p' s Hp' Hv) as Hv1. destruct (mem _ _) eqn:Em; [by apply (IH (set_plan p' s))|].
  destruct (pick_of_ok _ _ (eq_sym Hpick)) as [Hok Hhops].
  assert (H2 : (2 <= length (hops pick))%nat).
  { rewrite Hhops, length_map, Hcs. destruct gates; [done|]. cbn. lia. }
  destruct (dial_route pick (set_plan p' s)) as [r s1] eqn:Ed.
  assert (Ha1 : (attempts (set_plan p' s) < max_attempts)%nat) by (cbn; lia).
  destruct (dial_route_Inv _ _ _ _ Hv1 Hok H2 Em Ha1 Ed) as (Hvd & _ & _ & _ & _ & Hd).
  pose proof (dial_route_sound pick (set_plan p' s) Hw) as [Hw1 _]. rewrite Ed in Hw1. cbn [snd] in Hw1.
  destruct r as [u1|e].
  - intros [= -> <-]. exists pick. split; [cbn; rewrite Hd; apply last_snoc|].
    destruct (hops pick) as [|h0 hs0 _] eqn:Eh using rev_ind; [cbn in H2; lia|].
    unfold exit_rotator. rewrite Eh, last_snoc. intros r Hr Hm Hi t Ht.
    destruct (chain (map proxy (hops pick))) as [c|] eqn:Ec.
    + eapply (linked_after_success pick hs0 h0 c s1); eauto.
    + exfalso. destruct (chain_Some (map proxy (hops pick))) as [c Hc]; [rewrite Eh, map_app; by destruct (map proxy hs0) | congruence].
  - destruct (chain_failed_Inv pick e p' s1 Hvd Hp') as [Hv2 _]. apply IH; [|done].
    by apply (chain_failed_sound pick e p' s1 Hw1).
Qed.

(** A chain that connects becomes its target's sticky route: right away and until the
    entry expires, the exit's rotator answers the target with exactly the chain that was
    dialed, its exit being back in rotation even if it had been quarantined. *)
Theorem chain_becomes_sticky rs w s u s' :
  Forall Rotator.wf rs -> cached_routes exits (initial rs w) = Next s ->
  plan_loop (plan_fuel (start_plan s)) (start_plan s) = Some (Done (Ok u) s') ->
  exists pick, last (dialled s') = Some (config pick) /\
    forall r, store s' !! exit_rotator pick = Some r -> Sticky.max_entries (Rotator.sticky r) <> 0%nat ->
      now s' + Sticky.ttl (Rotator.sticky r) <= INSTANT_MAX ->
      forall t, t < now s' + Sticky.ttl (Rotator.sticky r) ->
        (Rotator.get_linked target_addr t r).1 = Some (config pick).
Proof.
  intros Hw Hc. pose proof (cached_routes_ok exits _ (initial_Inv rs w)) as [Hv _].
  pose proof (cached_routes_sound exits (initial rs w) Hw) as [Hw1 _]. rewrite Hc in Hv, Hw1. cbn in Hv, Hw1.
  destruct (start_plan_ok s Hv) as (Hv1 & _). apply plan_loop_links; [|done].
  by apply (start_plan_sound s Hw1).
Qed.
End Laws.
End Establish.

(** ** Witnesses *)

#[local] Existing Instance Ratings.demo_float.
#[local] Existing Instance Ratings.demo_laws.
#[local] Existing Instance Probes.refusing_pool.

(** One gate level, one exit rotator, and a first node that refuses everything. *)
Definition demo_target : bytes := lit "a.b:443".
Abbreviation demo_gates := [(1, 0%nat)].
Definition demo_rs : list (Rotator.t Rotator.F64t) := [Rotator.demo; Rotator.demo].
Definition demo_world : Dial.world := Dial.mkWorld 0 0 [].
Definition demo_events : list (Hedged.Event (U := Dial.AnyUpstream (X := unit))) :=
  [Hedged.OfAttempt 0 (Hedged.Acquire (Err Rotator.down_error)); Hedged.Join 0].
Abbreviation demo_tls := (fun _ c => (Stream.Ready (Ok tt), c)).
Abbreviation demo_establish := (establish_connection Dial.demo_io Dial.demo_io Dial.demo_encode Dial.demo_pace Dial.demo_names
  demo_tls false (fun _ => false) demo_gates None (Some 1%nat) (from_secs 10) (from_secs 10) (from_secs 2) 3
  demo_target (fun _ rs => rs) (fun _ => from_secs 20) demo_events demo_rs demo_world).

Lemma demo_rs_wf : Forall Rotator.wf demo_rs.
Proof. constructor; [apply Rotator.demo_with_wf|]. constructor; [apply Rotator.demo_with_wf | constructor]. Qed.

(** Two chains and the reserved direct attempt. *)
Example demo_all_failed : (fun o => (returned o, length (dialled (final o)), length (raced o))) <$> demo_establish =
  Some (Some (Err (AllFailed 3 demo_target)), 2%nat, 1%nat).
Proof. vm_compute. reflexivity. Qed.

(** Dropped during its first dial, its second, or the race. *)
Definition demo_slow : list (Hedged.Event (U := Dial.AnyUpstream (X := unit))) := Hedged.Advance (from_secs 5) :: demo_events.
Abbreviation demo_until := (fun stop => establish_until Dial.demo_io Dial.demo_io Dial.demo_encode Dial.demo_pace Dial.demo_names
  demo_tls false (fun _ => false) demo_gates None (Some 1%nat) (from_secs 10) (from_secs 10) (from_secs 2) 3
  demo_target (fun _ rs => rs) (fun _ => from_secs 20) demo_slow (fun t => t <=? stop) demo_rs demo_world).
Definition demo_at (ok : Z -> bool) (rs : list (Rotator.t Rotator.F64t)) : nat :=
  length (filter (fun c => ok (Sand.last c)) (concat (map (fun r => Ratings.cells (Rotator.ratings r)) rs))).

Example demo_dropped :
  map (fun stop => demo_at (fun t => 0 <? t) <$> demo_until stop) [-1; from_secs 1 - 1; from_secs 1; from_secs 2] =
    [Some 0; Some 0; Some 2; Some 3]%nat /\
  map (fun stop => demo_at (Z.eqb (from_secs 20)) <$> demo_until stop) [from_secs 7 - 1; from_secs 7] = [Some 0; Some 1]%nat.
Proof. split; vm_compute; reflexivity. Qed.

Lemma establish_budget_witness :
  exists o, demo_establish = Some o /\ returned o = Some (Err (AllFailed 3 demo_target)) /\
    NoDup (tried o) /\ (length (tried o) <= 3)%nat /\ 3%nat = length (tried o).
Proof.
  destruct demo_establish as [o|] eqn:E.
  - exists o. split; [reflexivity|].
    assert (Hr : returned o = Some (Err (AllFailed 3 demo_target))).
    { apply (f_equal (fmap (fun o => (returned o, length (dialled (final o)), length (raced o))))) in E.
      change (fmap _ (Some o)) with (Some (returned o, length (dialled (final o)), length (raced o))) in E.
      rewrite demo_all_failed in E. congruence. }
    destruct (establish_budget Dial.demo_io Dial.demo_io Dial.demo_encode Dial.demo_pace Dial.demo_names
      demo_tls false (fun _ => false) demo_gates None (Some 1%nat) (from_secs 10) (from_secs 10) (from_secs 2) 3
      demo_target (fun _ rs => rs) (fun _ => from_secs 20) demo_events demo_rs demo_world o E) as (H1 & H2 & H3).
    rewrite Hr in H3. split; [exact Hr|]. split; [exact H1|]. split; [exact H2|]. apply H3.
  - exfalso. pose proof demo_all_failed as D. rewrite E in D. discriminate D.
Defined.

Lemma establish_sound_witness :
  exists o, demo_establish = Some o /\ Forall Rotator.wf (store (final o)) /\
    map Rotator.proxies (store (final o)) = map Rotator.proxies demo_rs.
Proof.
  destruct demo_establish as [o|] eqn:E.
  - exists o. split; [reflexivity|].
    refine (establish_sound Dial.demo_io Dial.demo_io Dial.demo_encode Dial.demo_pace Dial.demo_names
      demo_tls false (fun _ => false) demo_gates None (Some 1%nat) (from_secs 10) (from_secs 10) (from_secs 2) 3
      demo_target (fun _ rs => rs) (fun _ => from_secs 20) demo_events _ demo_rs demo_world o demo_rs_wf E).
    intros k rs Hrs. split; [exact Hrs | reflexivity].
  - exfalso. pose proof demo_all_failed as D. rewrite E in D. discriminate D.
Defined.

(** The same network, and one where every node of a chain grants its tunnel. *)
#[local] Program Instance granting_pool : PoolDial.PoolOps bool := {
  acquire _ w := (Ok (Stream.mkConn (Stream.chunk_of (let ok := map byte_of [5; 0; 5; 0; 0; 1; 0; 0; 0; 0; 0; 0] in ok ++ ok))
                        Stream.Eof None []), w);
  reserve_permit p w := (Ok tt, w) }.
Next Obligation. intros p w e w' E. discriminate E. Defined.

Abbreviation demo_sticky X := (cached_routes (X := X) Dial.demo_io Dial.demo_io Dial.demo_encode Dial.demo_pace Dial.demo_names
  demo_tls false demo_gates None (Some 1%nat) (from_secs 10) 3 demo_target (fun _ rs => rs) (exits None (Some 1%nat))
  (initial None (Some 1%nat) demo_rs demo_world)).
Abbreviation demo_start := (fun s => start_plan demo_gates None (Some 1%nat) 3 s).
Abbreviation demo_loop X := (fun s => plan_loop (X := X) Dial.demo_io Dial.demo_io Dial.demo_encode Dial.demo_pace Dial.demo_names
  demo_tls false demo_gates (from_secs 10) 3 demo_target (fun _ rs => rs) (plan_fuel (demo_start s)) (demo_start s)).
(** The race is next, a stream, or an error. *)
Definition kind {X F} (f : @Flow F X) : nat := match f with Next _ => 0 | Done (Ok _) _ => 1 | Done (Err _) _ => 2 end.

Example demo_flows :
  match demo_sticky unit with Next s => (kind <$> demo_loop unit s, attempts s, direct_reserve s) | Done _ _ => (None, 0, 0)%nat end
    = (Some 0, 0, 1)%nat /\
  match demo_sticky bool with Next s => kind <$> demo_loop bool s | Done _ _ => None end = Some 1%nat.
Proof. split; vm_compute; reflexivity. Qed.

Lemma plan_keeps_reserve_witness :
  exists s s', demo_sticky unit = Next s /\ demo_loop unit s = Some (Next s') /\
    let raced := candidates (truncate 3 (queue_direct 3 (exits None (Some 1%nat)) s')) in
    (attempts s' + length raced <= 3)%nat /\ candidates s `prefix_of` raced.
Proof.
  pose proof (proj1 demo_flows) as D. destruct (demo_sticky unit) as [s|r s] eqn:Es; [|discriminate D].
  destruct (demo_loop unit s) as [[s'|[u|e] s']|] eqn:El; rewrite ?El in D; cbn in D; try discriminate D.
  exists s, s'. split; [reflexivity|]. split; [exact El|].
  destruct (plan_keeps_reserve Dial.demo_io Dial.demo_io Dial.demo_encode Dial.demo_pace Dial.demo_names
    demo_tls false (fun _ => false) demo_gates None (Some 1%nat) (from_secs 10) 3 demo_target (fun _ rs => rs) (fun _ => 0)
    demo_rs demo_world s s' Es El) as (H1 & H2 & _).
  - injection D as D1 D2. lia.
  - split; [exact H1 | exact H2].
Defined.

Lemma chain_becomes_sticky_witness :
  exists s u s' pick, demo_sticky bool = Next s /\ demo_loop bool s = Some (Done (Ok u) s') /\
    last (dialled s') = Some (config pick) /\
    forall r, store s' !! exit_rotator pick = Some r -> Sticky.max_entries (Rotator.sticky r) <> 0%nat ->
      now s' + Sticky.ttl (Rotator.sticky r) <= INSTANT_MAX ->
      forall t, t < now s' + Sticky.ttl (Rotator.sticky r) ->
        (Rotator.get_linked demo_target t r).1 = Some (config pick).
Proof.
  pose proof (proj2 demo_flows) as D. destruct (demo_sticky bool) as [s|r s] eqn:Es; [|discriminate D].
  destruct (demo_loop bool s) as [[s'|[u|e] s']|] eqn:El; rewrite ?El in D; cbn in D; try discriminate D.
  destruct (chain_becomes_sticky Dial.demo_io Dial.demo_io Dial.demo_encode Dial.demo_pace Dial.demo_names
      demo_tls false (fun _ => false) demo_gates None (Some 1%nat) (from_secs 10) 3 demo_target (fun _ rs => rs) (fun _ => 0)
      ltac:(intros k rs Hrs; split; [exact Hrs | reflexivity]) demo_rs demo_world s u s' demo_rs_wf Es El) as (pick & H1 & H2).
  exists s, u, s', pick. split; [reflexivity|]. split; [exact El|]. split; [exact H1 | exact H2].
Defined.
End Establish.
