(* ===== verification/Fragment.v ===== *)
(** Sending the first bytes of a tunnel, a ClientHello in fragments
    (src/crates/resocks5-net/src/connect/tls/tls_fragment/mod.rs, with the counter of
    src/crates/resocks5-net/src/session/progress.rs).

    The writer is an environment: what becomes of each write or flush, when, and which
    bytes the layers below it confirm meanwhile. [wire] is what it has accepted.

    - what is on the wire, and how it is cut ([send_exact]);
    - a send stalls exactly on silence ([send_stalls]);
    - a verdict on a prefix is final ([classify_final]). *)
From S2P Require Import Prelude ProxyTypes Errors Stream Tls.

Module Fragment.
Import Stream(poll, Ready, Pending).

(** ** Data *)

Record FragmentSpec := mkFragmentSpec { enabled : bool; fragment_size : nat; delay_ms : Z }.

Inductive ClientHelloMatch := ClientHello | Other | Indeterminate.
Inductive SendProgress := Completed | Stalled.

Definition classify_client_hello (data : bytes) : ClientHelloMatch :=
  if bool_decide (data = []) then Indeterminate
  else if negb (Tls.at_ data 0 =? 22) then Other
  else if (length data <? 2)%nat then Indeterminate
  else if negb (Tls.at_ data 1 =? 3) then Other
  else if (length data <? 6)%nat then Indeterminate
  else if Tls.at_ data 5 =? 1 then ClientHello
  else Other.

Definition is_tls_client_hello (data : bytes) : bool :=
  match classify_client_hello data with ClientHello => true | _ => false end.

(** ** The writer *)

(** One write or flush future: when the layers below confirm bytes and how many, when it
    resolves (never, if [None]) and to what; times count from its first poll. *)
Record Attempt := mkAttempt {
  confirms : list (Z * Z);
  ends : option (Z * result IoError nat)
}.

Inductive Mark := Accepted (bs : bytes) | Flushed | Paused (ms : Z).

Record Writer := mkWriter {
  next : nat;                  (* the next attempt of the environment's *)
  clock : Z;
  wire : list Mark
}.
Definition log (m : Mark) (w : Writer) : Writer := mkWriter (next w) (clock w) (wire w ++ [m]).
Definition spend (d : Z) (w : Writer) : Writer := mkWriter (S (next w)) (clock w + d) (wire w).

(** [FlushProgress::record], for the confirmations made by time [t]. *)
Definition record (total n : Z) : Z := if n =? 0 then total else wrapping_add64 total n.
Definition total_at (total : Z) (a : Attempt) (t : Z) : Z :=
  foldl (fun acc c => if c.1 <=? t then record acc c.2 else acc) total (confirms a).

Section Send.
Variable write_zero : IoError.
(** What the writer does, attempt by attempt. *)
Variable script : nat -> Attempt.
Variable idle : Z.

(** ** One attempt *)

(** The loop of windows: [start] is the total the attempt began with, [before] the one the
    window begins with, [elapsed] where it begins. [None] in the result: abandoned. *)
Fixpoint windows (fuel : nat) (start before elapsed : Z) (a : Attempt)
    : option (option (result IoError nat) * Z * Z) :=
  match fuel with
  | O => None
  | S fuel =>
      let deadline := elapsed + idle in
      let late :=
        let after := total_at start a deadline in
        if before <? after then windows fuel start after deadline a
        else Some (None, deadline, after) in
      match ends a with
      | Some (t, status) => if t <=? deadline then Some (Some status, t, total_at start a t) else late
      | None => late
      end
  end.
Definition windows_fuel (a : Attempt) : nat := (2 + length (confirms a))%nat.

(** [write_bounded_by_confirmed_progress] and [flush_bounded_by_confirmed_progress]: the
    future is pinned, and polled over its windows. *)
Definition bounded (progress : Z) (w : Writer) : option (result IoError nat) * Z * Writer :=
  let a := script (next w) in
  match windows (windows_fuel a) progress progress 0 a with
  | Some (status, t, total) => (status, total, spend t w)
  | None => (None, progress, w)
  end.

(** ** Writing everything *)

(** [None] is a stall. *)
Fixpoint write_bounded (fuel : nat) (buf : bytes) (progress : Z) (w : Writer)
    : option (result IoError unit) * Z * Writer :=
  match buf, fuel with
  | [], _ | _, O => (Some (Ok tt), progress, w)
  | _, S fuel =>
      match bounded progress w with
      | (None, total, w) => (None, total, w)
      | (Some (Err e), total, w) => (Some (Err e), total, w)
      | (Some (Ok O), total, w) => (Some (Err write_zero), total, w)
      | (Some (Ok n), total, w) => write_bounded fuel (drop n buf) total (log (Accepted (take n buf)) w)
      end
  end.

(** [write_all]: [None] is pending for good. *)
Fixpoint write_all (fuel : nat) (buf : bytes) (w : Writer) : option (result IoError unit) * Writer :=
  match buf, fuel with
  | [], _ | _, O => (Some (Ok tt), w)
  | _, S fuel =>
      match ends (script (next w)) with
      | None => (None, spend 0 w)
      | Some (t, Err e) => (Some (Err e), spend t w)
      | Some (t, Ok O) => (Some (Err write_zero), spend t w)
      | Some (t, Ok n) => write_all fuel (drop n buf) (log (Accepted (take n buf)) (spend t w))
      end
  end.

Definition write_progress_bounded (buf : bytes) (w : Writer) : poll (result IoError SendProgress) * Writer :=
  if idle =? 0 then
    match write_all (length buf) buf w with
    | (None, w) => (Pending, w)
    | (Some (Err e), w) => (Ready (Err e), w)
    | (Some (Ok _), w) =>
        match ends (script (next w)) with
        | None => (Pending, spend 0 w)
        | Some (t, Err e) => (Ready (Err e), spend t w)
        | Some (t, Ok _) => (Ready (Ok Completed), log Flushed (spend t w))
        end
    end
  else
    match write_bounded (length buf) buf 0 w with
    | (None, _, w) => (Ready (Ok Stalled), w)
    | (Some (Err e), _, w) => (Ready (Err e), w)
    | (Some (Ok _), progress, w) =>
        match bounded progress w with
        | (None, _, w) => (Ready (Ok Stalled), w)
        | (Some (Err e), _, w) => (Ready (Err e), w)
        | (Some (Ok _), _, w) => (Ready (Ok Completed), log Flushed w)
        end
    end.

(** ** Fragments *)

(** [data.chunks(k)]. *)
Fixpoint chunks_loop (fuel k : nat) (data : bytes) : list bytes :=
  match data, fuel with
  | [], _ | _, O => []
  | _, S fuel => take k data :: chunks_loop fuel k (drop k data)
  end.
Definition chunks (k : nat) (data : bytes) : list bytes := chunks_loop (length data) k data.

Fixpoint send_chunks (delay_ms : Z) (cs : list bytes) (w : Writer) : poll (result IoError SendProgress) * Writer :=
  match cs with
  | [] => (Ready (Ok Completed), w)
  | c :: cs' =>
      match write_progress_bounded c w with
      | (Ready (Ok Completed), w) =>
          send_chunks delay_ms cs'
            (if 0 <? delay_ms then log (Paused delay_ms) (mkWriter (next w) (clock w + delay_ms * 1000000) (wire w)) else w)
      | stop => stop
      end
  end.

Definition send_possibly_fragmented (data : bytes) (cfg : FragmentSpec) (w : Writer)
    : poll (result IoError SendProgress) * Writer :=
  if negb (enabled cfg) || negb (is_tls_client_hello data) then write_progress_bounded data w
  else send_chunks (delay_ms cfg) (chunks (Nat.max (fragment_size cfg) 1) data) w.

(** ** What is on the wire *)

Definition accepted (ms : list Mark) : bytes :=
  concat (map (fun m => match m with Accepted bs => bs | _ => [] end) ms).

(** The bytes between flushes, and those after the last one. *)
Fixpoint segments (cur : bytes) (ms : list Mark) : list bytes * bytes :=
  match ms with
  | [] => ([], cur)
  | Accepted bs :: ms' => segments (cur ++ bs) ms'
  | Flushed :: ms' => let '(done, last) := segments [] ms' in (cur :: done, last)
  | Paused _ :: ms' => segments cur ms'
  end.

Definition only_bytes (ms : list Mark) : Prop := Forall (fun m => exists bs, m = Accepted bs) ms.

Lemma segments_bytes ms : forall cur rest, only_bytes ms ->
  segments cur (ms ++ rest) = segments (cur ++ accepted ms) rest.
Proof.
  induction ms as [|m ms IH]; intros cur rest Hm; [by rewrite app_nil_r|]. apply Forall_cons in Hm as [[bs ->] Hm].
  cbn. rewrite IH by done. by rewrite <- app_assoc.
Qed.

(** Written marks: some of [buf], all of it on success. *)
Definition writes_of (buf : bytes) (all : Prop) (w w' : Writer) : Prop :=
  exists ms, wire w' = wire w ++ ms /\ only_bytes ms /\ accepted ms `prefix_of` buf /\ (all -> accepted ms = buf).

Lemma writes_of_nothing buf (all : Prop) w w' : wire w' = wire w -> (all -> buf = []) -> writes_of buf all w w'.
Proof.
  intros E Hall. exists []. rewrite app_nil_r. split_and!; [done | constructor | apply prefix_nil |].
  intros H. by rewrite Hall.
Qed.

Lemma writes_of_step buf n (all : Prop) w w1 w2 : wire w1 = wire w ++ [Accepted (take n buf)] ->
  writes_of (drop n buf) all w1 w2 -> writes_of buf all w w2.
Proof.
  intros E (ms & Hms & Hb & [x Hx] & Hall). exists (Accepted (take n buf) :: ms).
  rewrite Hms, E, <- app_assoc. split_and!; [done | constructor; eauto | |].
  - exists x. cbn. unfold accepted in Hx. rewrite <- app_assoc, <- Hx. by rewrite take_drop.
  - intros H. cbn. unfold accepted in Hall. rewrite Hall by done. by rewrite take_drop.
Qed.

Lemma bounded_wire progress w res total w' : bounded progress w = (res, total, w') -> wire w' = wire w.
Proof. unfold bounded. destruct (windows _ _ _ _ _) as [[[st t] tot]|]; by intros [= <- <- <-]. Qed.

Lemma write_bounded_wire fuel : forall buf progress w res total w', (length buf <= fuel)%nat ->
  write_bounded fuel buf progress w = (res, total, w') -> writes_of buf (res = Some (Ok tt)) w w'.
Proof.
  induction fuel as [|fuel IH]; intros [|b buf] progress w res total w' Hl; cbn in Hl; try lia.
  1,2: intros [= <- <- <-]; by apply writes_of_nothing.
  cbn [write_bounded]. destruct (bounded progress w) as [[[[n|e]|] tot] w1] eqn:Eb; apply bounded_wire in Eb.
  2,3: intros [= <- <- <-]; by apply writes_of_nothing.
  destruct n as [|n]; [intros [= <- <- <-]; by apply writes_of_nothing|]. intros Hrun.
  apply IH in Hrun; [|cbn; rewrite length_drop; lia]. eapply (writes_of_step _ (S n)); [|exact Hrun]. cbn. by rewrite Eb.
Qed.

Lemma write_all_wire fuel : forall buf w res w', (length buf <= fuel)%nat ->
  write_all fuel buf w = (res, w') -> writes_of buf (res = Some (Ok tt)) w w'.
Proof.
  induction fuel as [|fuel IH]; intros [|b buf] w res w' Hl; cbn in Hl; try lia.
  1,2: intros [= <- <-]; by apply writes_of_nothing.
  cbn [write_all]. destruct (ends (script (next w))) as [[t [n|e]]|].
  2,3: intros [= <- <-]; by apply writes_of_nothing.
  destruct n as [|n]; [intros [= <- <-]; by apply writes_of_nothing|]. intros Hrun.
  apply IH in Hrun; [|cbn; rewrite length_drop; lia]. by eapply (writes_of_step _ (S n)); [|exact Hrun].
Qed.

(** One payload: its bytes, then a flush exactly when it is completed. *)
Definition sent (buf : bytes) (r : poll (result IoError SendProgress)) (w w' : Writer) : Prop :=
  exists ms, only_bytes ms /\ accepted ms `prefix_of` buf /\
    (r = Ready (Ok Completed) /\ accepted ms = buf /\ wire w' = wire w ++ ms ++ [Flushed] \/
     r <> Ready (Ok Completed) /\ wire w' = wire w ++ ms).

Lemma write_progress_bounded_wire buf w r w' : write_progress_bounded buf w = (r, w') -> sent buf r w w'.
Proof.
  unfold write_progress_bounded. destruct (idle =? 0).
  - destruct (write_all (length buf) buf w) as [res w1] eqn:Ew. apply write_all_wire in Ew as (ms & H1 & H2 & H3 & H4); [|done].
    destruct res as [[[]|e]|]; [|intros [= <- <-]; exists ms; split_and!; [done | done | by right] ..].
    specialize (H4 eq_refl). destruct (ends (script (next w1))) as [[t [n|e]]|]; intros [= <- <-]; exists ms; split_and!; try done; cbn.
    + left. split_and!; [done | done|]. by rewrite H1, <- app_assoc.
    + right. split; [done | by rewrite H1].
    + right. split; [done | by rewrite H1].
  - destruct (write_bounded (length buf) buf 0 w) as [[res p] w1] eqn:Ew. apply write_bounded_wire in Ew as (ms & H1 & H2 & H3 & H4); [|done].
    destruct res as [[[]|e]|]; [|intros [= <- <-]; exists ms; split_and!; [done | done | by right] ..].
    specialize (H4 eq_refl). destruct (bounded p w1) as [[[[n|e]|] tot] w2] eqn:Eb; apply bounded_wire in Eb; intros [= <- <-];
      exists ms; split_and!; try done; cbn.
    + left. split_and!; [done | done|]. by rewrite Eb, H1, <- app_assoc.
    + right. split; [done | by rewrite Eb, H1].
    + right. split; [done | by rewrite Eb, H1].
Qed.

(** ** Fragments *)

Lemma chunks_loop_spec k fuel : forall data, (0 < k)%nat -> (length data <= fuel)%nat ->
  concat (chunks_loop fuel k data) = data /\ Forall (fun c => (0 < length c <= k)%nat) (chunks_loop fuel k data) /\
  forall n c, chunks_loop fuel k data !! n = Some c -> is_Some (chunks_loop fuel k data !! S n) -> length c = k.
Proof.
  induction fuel as [|fuel IH]; intros [|b data] Hk Hl; cbn in Hl; try lia; [by split_and!..|].
  cbn [chunks_loop]. destruct (IH (drop k (b :: data)) Hk) as (H1 & H2 & H3); [rewrite length_drop; cbn; lia|].
  split_and!.
  - cbn. rewrite H1. by rewrite take_drop.
  - constructor; [|done]. rewrite length_take. cbn [length]. lia.
  - intros [|n] c; [|apply H3]. cbn [lookup list_lookup]. intros [= <-] Hs. rewrite length_take.
    enough (k < length (b :: data))%nat by lia. apply Nat.nle_gt. intros Hle.
    rewrite drop_ge in Hs by done. destruct fuel; by destruct Hs.
Qed.

Lemma chunks_spec k data : (0 < k)%nat -> concat (chunks k data) = data /\
  Forall (fun c => (0 < length c <= k)%nat) (chunks k data) /\
  forall n c, chunks k data !! n = Some c -> is_Some (chunks k data !! S n) -> length c = k.
Proof. intros Hk. by apply chunks_loop_spec. Qed.

(** How far a send got: whole pieces, then a part of the next. *)
Definition got (cuts : list bytes) (r : poll (result IoError SendProgress)) (w w' : Writer) : Prop :=
  exists ms n part, wire w' = wire w ++ ms /\ segments [] ms = (take n cuts, part) /\
    accepted ms = concat (take n cuts) ++ part /\ part `prefix_of` default [] (cuts !! n) /\
    (r = Ready (Ok Completed) <-> (length cuts <= n)%nat).

Lemma send_chunks_wire d cs : forall w r w', send_chunks d cs w = (r, w') -> got cs r w w'.
Proof.
  induction cs as [|c cs IH]; intros w r w'; cbn [send_chunks].
  { intros [= <- <-]. exists [], 0%nat, []. rewrite app_nil_r. by split_and!. }
  destruct (write_progress_bounded c w) as [r1 w1] eqn:Ew.
  apply write_progress_bounded_wire in Ew as (ms & Hb & Hpre & Hcase).
  destruct Hcase as [(-> & Hall & Hw1)|[Hne Hw1]].
  - intros Hrun. apply IH in Hrun as (ms' & n & part & H1 & H2 & H3 & H4 & H5).
    set (w2 := if 0 <? d then _ else w1) in *.
    assert (Hp : exists ps, wire w2 = wire w1 ++ ps /\ accepted ps = [] /\ forall rest, segments [] (ps ++ rest) = segments [] rest).
    { unfold w2. destruct (0 <? d); [exists [Paused d] | exists []; rewrite app_nil_r]; by split_and!. }
    destruct Hp as (ps & Hp & Hpa & Hps). exists (ms ++ [Flushed] ++ ps ++ ms'), (S n), part. split_and!.
    + by rewrite H1, Hp, Hw1, <- !app_assoc.
    + rewrite segments_bytes by done. cbn [app segments]. rewrite Hps, H2. cbn. by rewrite Hall.
    + unfold accepted in *. rewrite !map_app, !concat_app, Hall, Hpa, H3. cbn. by rewrite app_assoc.
    + done.
    + cbn. rewrite H5. lia.
  - assert (Hstop : match r1 with Ready (Ok Completed) => False | _ => True end) by (destruct r1 as [[[]|]|]; done).
    intros Hrun. assert (r = r1 /\ w' = w1) as [-> ->].
    { destruct r1 as [[[]|e]|]; try done; by injection Hrun as <- <-. }
    exists ms, 0%nat, (accepted ms). split; [done|]. split.
    { rewrite <- (app_nil_r ms), segments_bytes by done. cbn. by rewrite app_nil_r. }
    split; [done|]. split; [done|]. split; [by intros ?%Hne | cbn; lia].
Qed.

(** The pieces a payload is sent in. *)
Definition cuts (data : bytes) (cfg : FragmentSpec) : list bytes :=
  if enabled cfg && is_tls_client_hello data then chunks (Nat.max (fragment_size cfg) 1) data else [data].

Lemma send_got data cfg w r w' : send_possibly_fragmented data cfg w = (r, w') -> got (cuts data cfg) r w w'.
Proof.
  intros Hrun. unfold send_possibly_fragmented, cuts in *. rewrite <- negb_andb in Hrun.
  destruct (enabled cfg && is_tls_client_hello data); cbn [negb] in Hrun; [by eapply send_chunks_wire|].
  apply (send_chunks_wire 0 [data]). cbn. rewrite Hrun. by destruct r as [[[]|e]|].
Qed.

Lemma cuts_spec data cfg : concat (cuts data cfg) = data /\
  (if enabled cfg && is_tls_client_hello data
   then Forall (fun c => (0 < length c <= Nat.max (fragment_size cfg) 1)%nat) (cuts data cfg) /\
        (forall n c, cuts data cfg !! n = Some c -> is_Some (cuts data cfg !! S n) ->
           length c = Nat.max (fragment_size cfg) 1)
   else cuts data cfg = [data]).
Proof.
  unfold cuts. destruct (enabled cfg && is_tls_client_hello data); [apply chunks_spec; lia | split; [apply app_nil_r | done]].
Qed.

(** The bytes on the wire are a prefix of the payload, all of it when completed. *)
Lemma got_accepted data cfg r w w' : got (cuts data cfg) r w w' -> exists ms, wire w' = wire w ++ ms /\
  accepted ms `prefix_of` data /\
  (r = Ready (Ok Completed) -> accepted ms = data /\ segments [] ms = (cuts data cfg, [])).
Proof.
  intros (ms & n & part & H1 & H2 & H3 & H4 & H5). exists ms. split; [done|].
  destruct (cuts_spec data cfg) as [Hc _]. rewrite H3. split.
  - rewrite <- Hc at 2. rewrite <- (take_drop n (cuts data cfg)) at 2. rewrite concat_app. apply prefix_app.
    destruct (cuts data cfg !! n) as [c|] eqn:E; cbn in H4; [|apply prefix_nil_inv in H4; subst part; apply prefix_nil].
    rewrite (drop_S _ _ _ E). cbn. by apply prefix_app_r.
  - intros Hr. apply H5 in Hr. rewrite (lookup_ge_None_2 _ _ Hr) in H4. cbn in H4. apply prefix_nil_inv in H4. subst part.
    rewrite take_ge in H2 |- * by done. rewrite app_nil_r. by split.
Qed.

(** C19: What a send puts on the wire, whatever the writer does and however it ends: the
    pieces of the payload in order, each flushed before the next begins, and a part of the
    next one, so that no byte is sent twice or out of order; all of it exactly when the
    send reports completion. An enabled spec cuts a ClientHello in pieces of the configured
    size, the last one shorter at most, and nothing else in any. *)
Theorem send_exact data cfg w r w' :
  send_possibly_fragmented data cfg w = (r, w') ->
  got (cuts data cfg) r w w' /\ concat (cuts data cfg) = data /\
  (if enabled cfg && is_tls_client_hello data
   then Forall (fun c => (0 < length c <= Nat.max (fragment_size cfg) 1)%nat) (cuts data cfg) /\
        (forall n c, cuts data cfg !! n = Some c -> is_Some (cuts data cfg !! S n) ->
           length c = Nat.max (fragment_size cfg) 1)
   else cuts data cfg = [data]).
Proof. intros Hrun. split; [by apply send_got | apply cuts_spec]. Qed.

(** ** Silence *)

(** A future that resolves, and lets no idle window before that pass without confirmed
    bytes. *)
Definition lively (a : Attempt) : Prop :=
  exists t st, ends a = Some (t, st) /\
    forall j : nat, Z.of_nat (S j) * idle < t ->
      exists s n, (s, n) ∈ confirms a /\ 0 < n /\ s <= Z.of_nat (S j) * idle /\ (j = 0%nat \/ Z.of_nat j * idle < s).

Definition confirmed (a : Attempt) : Z := foldr (fun c acc => c.2 + acc) 0 (confirms a).
(** The counter's width is enough for what the first [k] attempts confirm. *)
Definition confirmed_before (k : nat) : Z := foldr (fun i acc => confirmed (script i) + acc) 0 (seq 0 k).

Section Counted.
Hypothesis confirms_nonneg : forall k, Forall (fun c => 0 <= c.2) (confirms (script k)).
Hypothesis no_overflow : forall k, confirmed_before k < 2 ^ 64.

(** What is confirmed by time [t], unbounded. *)
Definition confirmed_by (a : Attempt) (t : Z) : Z :=
  foldr (fun c acc => (if c.1 <=? t then c.2 else 0) + acc) 0 (confirms a).

Lemma total_at_exact (cs : list (Z * Z)) t : forall total, Forall (fun c => 0 <= c.2) cs -> 0 <= total ->
  total + foldr (fun c acc => c.2 + acc) 0 cs < 2 ^ 64 ->
  foldl (fun acc c => if c.1 <=? t then record acc c.2 else acc) total cs =
    total + foldr (fun c acc => (if c.1 <=? t then c.2 else 0) + acc) 0 cs.
Proof.
  induction cs as [|[s n] cs IH]; intros total Hn H0 Hlt; [cbn; lia|]. apply Forall_cons in Hn as [Hn Hcs]. cbn in Hn, Hlt |- *.
  assert (0 <= foldr (fun c acc => c.2 + acc) 0 cs) by (clear -Hcs; induction Hcs; cbn; lia).
  destruct (s <=? t).
  - rewrite IH; try done; unfold record; destruct (Z.eqb_spec n 0); try lia;
      unfold wrapping_add64, wrap; rewrite Z.mod_small; lia.
  - rewrite IH; try done; lia.
Qed.

Lemma confirmed_by_mono (cs : list (Z * Z)) t t' : Forall (fun c => 0 <= c.2) cs -> t <= t' ->
  0 <= foldr (fun c acc => (if c.1 <=? t then c.2 else 0) + acc) 0 cs <=
    foldr (fun c acc => (if c.1 <=? t' then c.2 else 0) + acc) 0 cs /\
  foldr (fun c acc => (if c.1 <=? t' then c.2 else 0) + acc) 0 cs <= foldr (fun c acc => c.2 + acc) 0 cs.
Proof.
  intros Hcs Ht. induction Hcs as [|[s n] cs Hn _ IH]; cbn in *; [lia|].
  destruct (Z.leb_spec s t), (Z.leb_spec s t'); lia.
Qed.

(** Something was confirmed between two times. *)
Lemma confirmed_between (cs : list (Z * Z)) t t' : Forall (fun c => 0 <= c.2) cs -> t <= t' ->
  foldr (fun c acc => (if c.1 <=? t then c.2 else 0) + acc) 0 cs <
    foldr (fun c acc => (if c.1 <=? t' then c.2 else 0) + acc) 0 cs <->
  exists s n, (s, n) ∈ cs /\ 0 < n /\ t < s <= t'.
Proof.
  intros Hcs Ht. induction Hcs as [|[s n] cs Hn Hcs IH]; cbn in *.
  - split; [lia|]. by intros (s & n & ?%elem_of_nil & _).
  - pose proof (confirmed_by_mono cs t t' Hcs Ht) as Hm. setoid_rewrite elem_of_cons.
    assert (Hex : (exists s' n', ((s', n') = (s, n) \/ (s', n') ∈ cs) /\ 0 < n' /\ t < s' <= t') <->
      (0 < n /\ t < s <= t') \/ exists s' n', (s', n') ∈ cs /\ 0 < n' /\ t < s' <= t') by naive_solver.
    rewrite Hex, <- IH. destruct (Z.leb_spec s t), (Z.leb_spec s t'); lia.
Qed.

(** Window [j] has confirmed bytes; the first one reaches back. *)
Definition confirmed_in (a : Attempt) (j : nat) : Prop :=
  exists s n, (s, n) ∈ confirms a /\ 0 < n /\ s <= Z.of_nat (S j) * idle /\ (j = 0%nat \/ Z.of_nat j * idle < s).

(** The total a window begins with. *)
Definition base (start : Z) (a : Attempt) (j : nat) : Z :=
  match j with O => start | S _ => start + confirmed_by a (Z.of_nat j * idle) end.

Lemma lively_in a : lively a <-> exists t st, ends a = Some (t, st) /\ forall j, Z.of_nat (S j) * idle < t -> confirmed_in a j.
Proof. done. Qed.

(** The confirmations of window [j] and after. *)
Definition from_window (j : nat) (c : Z * Z) : bool := bool_decide (j = 0%nat) || (Z.of_nat j * idle <? c.1).
Definition to_come (a : Attempt) (j : nat) : nat := length (List.filter (from_window j) (confirms a)).

Lemma filter_length_lt {A} (f g : A -> bool) l x : (forall y, f y = true -> g y = true) ->
  x ∈ l -> f x = false -> g x = true -> (length (List.filter f l) < length (List.filter g l))%nat.
Proof.
  intros Hfg Hin Hf Hg. assert (Hle : forall l, (length (List.filter f l) <= length (List.filter g l))%nat).
  { clear Hin l. induction l as [|y l IH]; [done|]. cbn. destruct (f y) eqn:E; [rewrite (Hfg _ E); cbn; lia|].
    destruct (g y); cbn; lia. }
  apply list_elem_of_split in Hin as (l1 & l2 & ->). rewrite !List.filter_app, !length_app. cbn. rewrite Hf, Hg. cbn.
  pose proof (Hle l1). pose proof (Hle l2). lia.
Qed.

Lemma to_come_less a j : 0 < idle -> confirmed_in a j -> (to_come a (S j) < to_come a j)%nat.
Proof.
  intros Hi (s & n & Hin & Hn & Hs & Hj). unfold to_come. eapply (filter_length_lt _ _ _ (s, n)); [|exact Hin|..]; unfold from_window; cbn.
  - intros [s' n']. cbn. case_bool_decide; [done|]. cbn. rewrite !Z.ltb_lt. lia.
  - apply Z.ltb_ge. lia.
  - destruct Hj as [->|Hj]; [done|]. rewrite (proj2 (Z.ltb_lt _ _) Hj). apply orb_true_r.
Qed.

Lemma base_confirmed a start j : Forall (fun c => 0 <= c.2) (confirms a) -> 0 < idle ->
  base start a j < start + confirmed_by a (Z.of_nat (S j) * idle) <-> confirmed_in a j.
Proof.
  intros Hn Hi. unfold base, confirmed_in. destruct j as [|j].
  - assert (Hpos : 0 < confirmed_by a (Z.of_nat 1 * idle) <-> exists s n, (s, n) ∈ confirms a /\ 0 < n /\ s <= Z.of_nat 1 * idle).
    { unfold confirmed_by. induction Hn as [|[s n] cs Hn Hcs IH]; cbn [foldr fst snd] in *.
      - split; [lia|]. by intros (s & n & ?%elem_of_nil & _).
      - setoid_rewrite elem_of_cons. pose proof (confirmed_by_mono cs (Z.of_nat 1 * idle) (Z.of_nat 1 * idle) Hcs ltac:(lia)).
        assert (Hex : (exists s' n', ((s', n') = (s, n) \/ (s', n') ∈ cs) /\ 0 < n' /\ s' <= Z.of_nat 1 * idle) <->
          (0 < n /\ s <= Z.of_nat 1 * idle) \/ exists s' n', (s', n') ∈ cs /\ 0 < n' /\ s' <= Z.of_nat 1 * idle) by naive_solver.
        rewrite Hex, <- IH. destruct (Z.leb_spec s (Z.of_nat 1 * idle)); lia. }
    split.
    + intros Hl. destruct (proj1 Hpos) as (s & n & H1 & H2 & H3); [lia|]. exists s, n. split_and!; try done. by left.
    + intros (s & n & H1 & H2 & H3 & _). enough (0 < confirmed_by a (Z.of_nat 1 * idle)) by lia. apply Hpos. by exists s, n.
  - pose proof (confirmed_between (confirms a) (Z.of_nat (S j) * idle) (Z.of_nat (S (S j)) * idle) Hn ltac:(nia)) as Hb.
    unfold confirmed_by. split.
    + intros Hl. destruct (proj1 Hb) as (s & n & H1 & H2 & H3); [lia|]. exists s, n. split_and!; [done | done | lia | right; lia].
    + intros (s & n & H1 & H2 & H3 & [?|H4]); [lia|]. enough (confirmed_by a (Z.of_nat (S j) * idle) < confirmed_by a (Z.of_nat (S (S j)) * idle)) by (unfold confirmed_by in *; lia).
      apply Hb. exists s, n. split_and!; [done | done | lia | lia].
Qed.

Lemma windows_spec a start fuel : forall j,
  0 < idle -> Forall (fun c => 0 <= c.2) (confirms a) -> 0 <= start -> start + confirmed a < 2 ^ 64 ->
  (to_come a j < fuel)%nat -> (forall i, (i < j)%nat -> confirmed_in a i) ->
  (forall t st, ends a = Some (t, st) -> j = 0%nat \/ Z.of_nat j * idle < t) ->
  exists res e total, windows fuel start (base start a j) (Z.of_nat j * idle) a = Some (res, e, total) /\
    start <= total <= start + confirmed a /\
    match res with
    | Some st => lively a /\ ends a = Some (e, st)
    | None => exists j', e = Z.of_nat (S j') * idle /\ ~ confirmed_in a j' /\ forall t st, ends a = Some (t, st) -> e < t
    end.
Proof.
  induction fuel as [|fuel IH]; intros j Hi Hn H0 Hlt Hf Hpast Hends; [lia|]. cbn [windows].
  assert (Htot : forall t, total_at start a t = start + confirmed_by a t) by (intros t; by apply total_at_exact).
  assert (Hrange : forall t, start <= start + confirmed_by a t <= start + confirmed a).
  { intros t. pose proof (confirmed_by_mono (confirms a) t t Hn ltac:(lia)). unfold confirmed_by, confirmed. lia. }
  replace (Z.of_nat j * idle + idle) with (Z.of_nat (S j) * idle) by lia.
  pose proof (base_confirmed a start j Hn Hi) as Hbase.
  assert (Hlate : (forall t st, ends a = Some (t, st) -> Z.of_nat (S j) * idle < t) ->
    exists res e total, (if base start a j <? total_at start a (Z.of_nat (S j) * idle)
      then windows fuel start (total_at start a (Z.of_nat (S j) * idle)) (Z.of_nat (S j) * idle) a
      else Some (None, Z.of_nat (S j) * idle, total_at start a (Z.of_nat (S j) * idle))) = Some (res, e, total) /\
    start <= total <= start + confirmed a /\
    match res with
    | Some st => lively a /\ ends a = Some (e, st)
    | None => exists j', e = Z.of_nat (S j') * idle /\ ~ confirmed_in a j' /\ forall t st, ends a = Some (t, st) -> e < t
    end).
  { intros Hl. rewrite Htot. destruct (Z.ltb_spec (base start a j) (start + confirmed_by a (Z.of_nat (S j) * idle))) as [Hc|Hc].
    - apply Hbase in Hc. pose proof (to_come_less a j Hi Hc). apply (IH (S j)); try done; [lia | | right; by eapply Hl].
      intros i' Hi'. destruct (decide (i' = j)) as [->|]; [done|]. apply Hpast. lia.
    - exists None, (Z.of_nat (S j) * idle), (start + confirmed_by a (Z.of_nat (S j) * idle)). split; [done|]. split; [apply Hrange|].
      exists j. split; [done|]. split; [|done]. rewrite <- Hbase. lia. }
  destruct (ends a) as [[t st]|] eqn:Ee; [|by apply Hlate].
  destruct (Z.leb_spec t (Z.of_nat (S j) * idle)) as [Ht|Ht]; [|apply Hlate; by intros ? ? [= <- <-]].
  exists (Some st), t, (total_at start a t). split; [done|]. split; [rewrite Htot; apply Hrange|]. split; [|done].
  exists t, st. split; [done|]. intros j' Hj'. apply Hpast. nia.
Qed.

(** *** Sends *)

Hypothesis idle_nonneg : 0 <= idle.

(** An attempt the send does not get past. *)
Definition blocked (k : nat) : Prop :=
  if idle =? 0 then ends (script k) = None else ~ lively (script k).
Definition stuck : poll (result IoError SendProgress) := if idle =? 0 then Pending else Ready (Ok Stalled).

(** The attempts from [w] to [w'] were got past; or the last one was not. *)
Definition passed (w w' : Writer) : Prop :=
  (next w <= next w')%nat /\ forall k, (next w <= k < next w')%nat -> ~ blocked k.
Definition stopped (w w' : Writer) : Prop :=
  exists k, next w' = S k /\ (next w <= k)%nat /\ blocked k.

Lemma passed_refl w : passed w w.
Proof. split; [done | lia]. Qed.
Lemma passed_trans w1 w2 w3 : passed w1 w2 -> passed w2 w3 -> passed w1 w3.
Proof. intros [A1 A2] [B1 B2]. split; [lia|]. intros k Hk. destruct (decide (k < next w2)%nat); [apply A2 | apply B2]; lia. Qed.
Lemma passed_stopped w1 w2 w3 : passed w1 w2 -> stopped w2 w3 -> stopped w1 w3.
Proof. intros [A1 _] (k & H1 & H2 & H3). exists k. split_and!; [done | lia | done]. Qed.
Lemma passed_one w w' : next w' = S (next w) -> ~ blocked (next w) -> passed w w'.
Proof. intros E Hb. split; [lia|]. intros k Hk. by replace k with (next w) by lia. Qed.
Lemma stopped_one w w' : next w' = S (next w) -> blocked (next w) -> stopped w w'.
Proof. intros E Hb. exists (next w). split_and!; [done | lia | done]. Qed.

Lemma confirmed_before_S k : confirmed_before (S k) = confirmed_before k + confirmed (script k).
Proof.
  unfold confirmed_before. rewrite seq_S, foldr_app. cbn.
  assert (Hg : forall (l : list nat) x, foldr (fun i acc => confirmed (script i) + acc) x l = foldr (fun i acc => confirmed (script i) + acc) 0 l + x).
  { induction l as [|y l IH]; intros x; cbn; [lia|]. rewrite IH. lia. }
  rewrite Hg. lia.
Qed.

Lemma confirmed_nonneg k : 0 <= confirmed (script k) /\ 0 <= confirmed_before k.
Proof.
  assert (Hc : forall k, 0 <= confirmed (script k)).
  { intros i. unfold confirmed. induction (confirms_nonneg i); cbn in *; lia. }
  split; [apply Hc|]. induction k as [|k IH]; [done|]. rewrite confirmed_before_S. pose proof (Hc k). lia.
Qed.

(** The total a send has counted is within what the attempts before have confirmed. *)
Definition counted (progress : Z) (w : Writer) : Prop := 0 <= progress <= confirmed_before (next w).

Lemma bounded_spec progress w res total w' : idle <> 0 -> counted progress w -> bounded progress w = (res, total, w') ->
  counted total w' /\ match res with Some _ => passed w w' | None => stopped w w' end /\
  (res = None -> exists j, clock w' = clock w + Z.of_nat (S j) * idle /\ ~ confirmed_in (script (next w)) j).
Proof.
  intros Hi [H1 H2]. unfold bounded.
  pose proof (no_overflow (S (next w))) as Ho. rewrite confirmed_before_S in Ho. pose proof (confirmed_nonneg (next w)) as [Hc _].
  destruct (windows_spec (script (next w)) progress (windows_fuel (script (next w))) 0)
    as (r & e & tot & E & Ht & Hr); [lia | apply confirms_nonneg | lia | lia | | lia | auto |].
  { unfold to_come, windows_fuel. pose proof (filter_length_le (from_window 0) (confirms (script (next w)))). lia. }
  cbn [base] in E. replace (Z.of_nat 0 * idle) with 0 in E by lia. rewrite E. intros [= <- <- <-].
  split; [unfold counted; change (next (spend e w)) with (S (next w)); rewrite confirmed_before_S; lia|]. unfold blocked.
  assert (Hz : (idle =? 0) = false) by (by apply Z.eqb_neq). destruct r as [st|].
  - split; [|done]. apply passed_one; [done|]. unfold blocked. rewrite Hz. destruct Hr as [Hr _]. tauto.
  - destruct Hr as (j & -> & Hn & Hends). split; [|by exists j]. apply stopped_one; [done|]. unfold blocked. rewrite Hz.
    intros (t & st & Ee & Hl). apply Hn. apply (Hl j). by eapply Hends.
Qed.

Lemma write_bounded_spec fuel : forall buf progress w res total w', idle <> 0 -> counted progress w ->
  write_bounded fuel buf progress w = (res, total, w') ->
  counted total w' /\ match res with Some _ => passed w w' | None => stopped w w' end.
Proof.
  induction fuel as [|fuel IH]; intros [|b buf] progress w res total w' Hi Hc; cbn [write_bounded].
  1-3: intros [= <- <- <-]; split; [done | apply passed_refl].
  destruct (bounded progress w) as [[[[n|e]|] tot] w1] eqn:Eb; pose proof (bounded_spec _ _ _ _ _ Hi Hc Eb) as (Hc1 & Hp & _).
  2,3: by intros [= <- <- <-].
  destruct n as [|n]; [by intros [= <- <- <-]|]. intros Hrun. apply IH in Hrun; [|done|done].
  destruct Hrun as [Hc2 Hr]. split; [done|]. destruct res; [by eapply passed_trans | by eapply passed_stopped].
Qed.

Lemma write_all_spec fuel : forall buf w res w', idle = 0 -> write_all fuel buf w = (res, w') ->
  match res with Some _ => passed w w' | None => stopped w w' end.
Proof.
  induction fuel as [|fuel IH]; intros [|b buf] w res w' Hi; cbn [write_all].
  1-3: intros [= <- <-]; apply passed_refl.
  assert (Hb : forall k, blocked k <-> ends (script k) = None) by (intros k; unfold blocked; by rewrite Hi).
  destruct (ends (script (next w))) as [[t [n|e]]|] eqn:Ee.
  3:{ intros [= <- <-]. apply stopped_one; [done | by apply Hb]. }
  2:{ intros [= <- <-]. apply passed_one; [done|]. rewrite Hb. congruence. }
  assert (Hp : passed w (spend t w)) by (apply passed_one; [done|]; rewrite Hb; congruence).
  destruct n as [|n]; [by intros [= <- <-]|]. intros Hrun. apply IH in Hrun; [|done].
  destruct res; [by eapply passed_trans | by eapply passed_stopped].
Qed.

(** How a send ends: stuck exactly when it meets an attempt that blocks it. *)
Definition ended (r : poll (result IoError SendProgress)) (w w' : Writer) : Prop :=
  r = stuck /\ stopped w w' \/ (exists e, r = Ready e /\ e <> Ok Stalled) /\ passed w w'.

Lemma write_progress_bounded_spec buf w r w' : write_progress_bounded buf w = (r, w') -> ended r w w'.
Proof.
  unfold write_progress_bounded, ended, stuck. destruct (Z.eqb_spec idle 0) as [Hi|Hi].
  - destruct (write_all (length buf) buf w) as [res w1] eqn:Ew. pose proof (write_all_spec _ _ _ _ _ Hi Ew) as Hp.
    destruct res as [[[]|e]|]; [|intros [= <- <-]; right; split; [by eexists|done]|intros [= <- <-]; by left].
    assert (Hb : forall k, blocked k <-> ends (script k) = None) by (intros k; unfold blocked; by rewrite Hi).
    destruct (ends (script (next w1))) as [[t [n|e]]|] eqn:Ee; intros [= <- <-].
    + right. split; [by eexists|]. eapply passed_trans; [exact Hp|]. apply passed_one; [done|]. rewrite Hb. congruence.
    + right. split; [by eexists|]. eapply passed_trans; [exact Hp|]. apply passed_one; [done|]. rewrite Hb. congruence.
    + left. split; [done|]. eapply passed_stopped; [exact Hp|]. apply stopped_one; [done | by apply Hb].
  - destruct (write_bounded (length buf) buf 0 w) as [[res p] w1] eqn:Ew.
    assert (Hzero : counted 0 w) by (split; [done | apply confirmed_nonneg]).
    destruct (write_bounded_spec _ _ _ _ _ _ _ Hi Hzero Ew) as [Hc Hp].
    destruct res as [[[]|e]|]; [|intros [= <- <-]; right; split; [by eexists|done]|intros [= <- <-]; by left].
    destruct (bounded p w1) as [[[[n|e]|] tot] w2] eqn:Eb; pose proof (bounded_spec _ _ _ _ _ Hi Hc Eb) as (_ & Hp2 & _); intros [= <- <-].
    + right. split; [by eexists|]. by eapply passed_trans.
    + right. split; [by eexists|]. by eapply passed_trans.
    + left. split; [done|]. by eapply passed_stopped.
Qed.

Lemma send_chunks_spec d cs : forall w r w', send_chunks d cs w = (r, w') -> ended r w w'.
Proof.
  induction cs as [|c cs IH]; intros w r w'; cbn [send_chunks].
  { intros [= <- <-]. right. split; [by eexists | apply passed_refl]. }
  destruct (write_progress_bounded c w) as [r1 w1] eqn:Ew. apply write_progress_bounded_spec in Ew.
  destruct r1 as [[[]|e]|]; try by intros [= <- <-].
  destruct Ew as [[Hs _]|[_ Hp]]; [unfold stuck in Hs; by destruct (idle =? 0)|]. intros Hrun. apply IH in Hrun.
  assert (Hp2 : passed w (if 0 <? d then log (Paused d) (mkWriter (next w1) (clock w1 + d * 1000000) (wire w1)) else w1))
    by (by destruct (0 <? d)).
  destruct Hrun as [[-> Hs]|[He Hp3]]; [left; split; [done | by eapply passed_stopped] | right; split; [done | by eapply passed_trans]].
Qed.

(** A send is given up exactly on silence. With an idle bound: when, and only when, it
    meets a write or flush that lets a whole idle window pass without resolving and
    without a byte confirmed underneath, be the send as long as it may; the pauses between
    fragments do not count. Without a bound it is never given up, and hangs exactly on a
    write or flush that never resolves. The attempts before that one are got past. *)
Theorem send_stalls data cfg w r w' :
  send_possibly_fragmented data cfg w = (r, w') ->
  (r = stuck <-> exists k, next w' = S k /\ (next w <= k)%nat /\ blocked k) /\
  (r <> stuck -> exists e, r = Ready e /\ e <> Ok Stalled /\ forall k, (next w <= k < next w')%nat -> ~ blocked k).
Proof.
  intros Hrun. assert (He : ended r w w').
  { unfold send_possibly_fragmented in Hrun. destruct (_ || _); [by eapply write_progress_bounded_spec | by eapply send_chunks_spec]. }
  assert (Hstuck : forall e, stuck = Ready e -> e = Ok Stalled) by (intros e; unfold stuck; destruct (idle =? 0); congruence).
  destruct He as [[-> Hs]|[(e & -> & Hne) [Hle Hp]]].
  - split; [by split|done].
  - split; [|intros _; by exists e]. split; [intros E; symmetry in E; by apply Hstuck in E|].
    intros (k & H1 & H2 & H3). exfalso. apply (Hp k); [lia | done].
Qed.
End Counted.
End Send.

(** ** Verdicts on a prefix *)

Definition hello_signature : bytes := map byte_of [22; 3; 0; 0; 0; 1].

Lemma at_byte_of z s : 0 <= z < 256 -> Tls.at_ (byte_of z :: s) 0 = z.
Proof. intros Hz. unfold Tls.at_. cbn. by apply byte_val_of. Qed.

(** The verdict on the first bytes is final: more bytes change it only while fewer than
    six have arrived, and then they can turn it either way. *)
Theorem classify_final data :
  (classify_client_hello data <> Indeterminate ->
   forall more, classify_client_hello (data ++ more) = classify_client_hello data) /\
  (classify_client_hello data = Indeterminate ->
   (length data < 6)%nat /\ (exists more, classify_client_hello (data ++ more) = ClientHello) /\
   exists more, classify_client_hello (data ++ more) = Other).
Proof.
  unfold classify_client_hello. destruct data as [|b0 data]; [split; [done|]; intros _; split; [cbn; lia|]; split;
    [by exists hello_signature | by exists [byte_of 0]]|].
  rewrite !bool_decide_false by done. change (Tls.at_ (b0 :: data) 0) with (byte_val b0).
  destruct (byte_val b0 =? 22) eqn:E0; cbn [negb].
  2:{ split; [|done]. intros _ more. cbn. unfold Tls.at_. cbn. by rewrite E0. }
  destruct data as [|b1 data].
  { split; [done|]. intros _. cbn [length]. split; [lia|].
    split; [exists (tail hello_signature) | exists [byte_of 0]]; cbn; unfold Tls.at_; cbn; by rewrite E0. }
  cbn [length]. change ((S (S (length data)) <? 2)%nat) with false. cbv iota.
  change (Tls.at_ (b0 :: b1 :: data) 1) with (byte_val b1). destruct (byte_val b1 =? 3) eqn:E1; cbn [negb].
  2:{ split; [|done]. intros _ more. cbn. unfold Tls.at_. cbn. by rewrite E0, E1. }
  destruct (Nat.ltb_spec (S (S (length data))) 6) as [Hl|Hl].
  - split; [done|]. intros _. split; [done|].
    assert (Hext : forall v, 0 <= v < 256 -> exists more, classify_client_hello ((b0 :: b1 :: data) ++ more) = if v =? 1 then ClientHello else Other).
    { intros v Hv. exists (drop (length data) (map byte_of [0; 0; 0; v])). unfold classify_client_hello. cbn [app].
      rewrite bool_decide_false by done. change (Tls.at_ (b0 :: _) 0) with (byte_val b0).
      change (Tls.at_ (b0 :: b1 :: _) 1) with (byte_val b1). rewrite E0, E1. cbn [negb length].
      destruct data as [|b2 [|b3 [|b4 [|b5 data]]]]; cbn in Hl; try lia; cbn; unfold Tls.at_; cbn [nth];
        rewrite byte_val_of by lia; by destruct (v =? 1). }
    split; [apply (Hext 1) | apply (Hext 0)]; lia.
  - split; [|by destruct (_ =? 1)]. intros _ more. cbn [app]. rewrite bool_decide_false by done.
    change (Tls.at_ (b0 :: b1 :: data ++ more) 0) with (byte_val b0). change (Tls.at_ (b0 :: b1 :: data ++ more) 1) with (byte_val b1).
    rewrite E0, E1. cbn [negb length]. change ((S (S (length (data ++ more))) <? 2)%nat) with false. cbv iota.
    rewrite (proj2 (Nat.ltb_ge _ _)) by (rewrite length_app; lia).
    replace (Tls.at_ (b0 :: b1 :: data ++ more) 5) with (Tls.at_ (b0 :: b1 :: data) 5); [done|].
    symmetry. apply (Tls.at_app (b0 :: b1 :: data) more). cbn. lia.
Qed.

(** ** Witnesses *)

(** A hello of eight bytes in pieces of three; the third write hangs for good. *)
Definition demo_hello : bytes := map byte_of [22; 3; 1; 0; 3; 1; 7; 7].
Definition demo_spec : FragmentSpec := mkFragmentSpec true 3 10.
Definition demo_script (k : nat) : Attempt := mkAttempt [] (if (k <? 4)%nat then Some (1, Ok 3%nat) else None).
Abbreviation demo_write_zero := (mkIoError []).
Abbreviation demo_send := (send_possibly_fragmented demo_write_zero demo_script (from_secs 1) demo_hello demo_spec (mkWriter 0 0 [])).

Example demo_stall : demo_send = (Ready (Ok Stalled), mkWriter 5 (4 + 2 * 10000000 + from_secs 1)
  [Accepted (map byte_of [22; 3; 1]); Flushed; Paused 10; Accepted (map byte_of [0; 3; 1]); Flushed; Paused 10]).
Proof. vm_compute. reflexivity. Qed.

Lemma send_exact_witness :
  let '(r, w') := demo_send in
  got (cuts demo_hello demo_spec) r (mkWriter 0 0 []) w' /\ concat (cuts demo_hello demo_spec) = demo_hello /\
  Forall (fun c => (0 < length c <= 3)%nat) (cuts demo_hello demo_spec).
Proof.
  destruct demo_send as [r w'] eqn:E.
  destruct (send_exact demo_write_zero demo_script (from_secs 1) demo_hello demo_spec (mkWriter 0 0 []) r w' E) as (H1 & H2 & H3).
  split; [exact H1|]. split; [exact H2|]. vm_compute in H3. apply H3.
Defined.

Lemma send_stalls_witness :
  exists w', demo_send = (Ready (Ok Stalled), w') /\
    exists k, next w' = S k /\ (0 <= k)%nat /\ blocked demo_script (from_secs 1) k.
Proof.
  exists (demo_send).2. split; [rewrite demo_stall; reflexivity|].
  destruct (send_stalls demo_write_zero demo_script (from_secs 1)) with (data := demo_hello) (cfg := demo_spec)
    (w := mkWriter 0 0 []) (r := (demo_send).1) (w' := (demo_send).2) as [H1 _].
  - intros k. constructor.
  - intros k. enough (confirmed_before demo_script k = 0) as -> by reflexivity.
    induction k as [|k IH]; [reflexivity|]. rewrite confirmed_before_S, IH. reflexivity.
  - vm_compute. congruence.
  - apply surjective_pairing.
  - apply H1. rewrite demo_stall. reflexivity.
Defined.
End Fragment.
