(* ===== verification/Tunnel.v ===== *)
(** A tunnel: its first bytes, the copying with its deadlines, and their composition
    (src/crates/resocks5/src/server/tunnel/forward_tunnel.rs and tunnel_log.rs,
    src/crates/resocks5-net/src/connect/tunnel/mod.rs and tracked.rs).

    What the two streams do is an environment: the steps of the prelude, in the order the
    select meets them, then the wakes of the copying task with the calls it makes on the
    streams.

    - what goes upstream first is what the client's reads brought, nothing lost, doubled
      or reordered ([payload_exact]);
    - a ClientHello is held until it is whole, and sent as soon as it is ([hello_held]);
    - the lazily reset idle timer is an exact one ([tunnel_exact_timeouts]);
    - a tunnel does not outlive its lifetime ([forward_lifetime]). *)
From S2P Require Import Prelude ProxyTypes Errors Stream Tls Fragment.

Module Tunnel.
Import Stream(poll, Ready, Pending).
Import Fragment.

(** ** The first bytes *)

Definition PREFIX_CAP : nat := 16 * 1024.

(** What the step of the loop meets first, after how long. *)
Inductive StepKind :=
| ClientRead (r : result IoError bytes)
| UpstreamRead (r : result IoError bytes) (relayed : nat) (relay : option (result IoError unit))
                                          (* [None]: the relay is not over in time *)
| Quiet.
Record Step := mkStep { took : Z; kind : StepKind }.

Inductive Prepared := Sent | GaveUp | Failed (e : IoError) | Waiting | Panicked.

(** Where the prelude is: what came from the client, and went to it, besides the writer. *)
Record Intake := mkIntake { first : bytes; to_client : bytes; writer : Writer }.

Section Prepare.
Variable write_zero : IoError.
Variable script : nat -> Attempt.
Variable idle : Z.
Variable frag : FragmentSpec.

Definition send (data : bytes) (p : Intake) : Prepared * Intake :=
  let '(r, w) := send_possibly_fragmented write_zero script idle data frag (writer p) in
  (match r with
   | Ready (Ok Completed) => Sent
   | Ready (Ok Stalled) => GaveUp
   | Ready (Err e) => Failed e
   | Pending => Waiting
   end, mkIntake (first p) (to_client p) w).

Definition pass (d : Z) (p : Intake) : Intake :=
  mkIntake (first p) (to_client p) (mkWriter (next (writer p)) (clock (writer p) + d) (wire (writer p))).

(** [exhausted] is whether no more can come or fit. *)
Definition decided (data : bytes) (exhausted : bool) : bool :=
  match classify_client_hello data with
  | Other => true
  | Indeterminate => exhausted
  | ClientHello => exhausted || Tls.client_hello_is_complete data
  end.

Definition send_first (p : Intake) : Prepared * Intake :=
  if bool_decide (first p = []) then (Sent, p) else send (first p) p.

Fixpoint prepare_loop (steps : list Step) (p : Intake) : Prepared * Intake :=
  match steps with
  | [] => (Waiting, p)
  | s :: steps =>
      let p := pass (took s) p in
      match kind s with
      | Quiet => if idle =? 0 then (Waiting, p) else (GaveUp, p)
      | ClientRead (Err e) => (Failed e, p)
      | ClientRead (Ok bs) =>
          let got := take (PREFIX_CAP - length (first p)) bs in
          let p := mkIntake (first p ++ got) (to_client p) (writer p) in
          if decided (first p) (bool_decide (got = []) || (length (first p) =? PREFIX_CAP)%nat)
          then send_first p else prepare_loop steps p
      | UpstreamRead (Err e) _ _ => (Failed e, p)
      | UpstreamRead (Ok []) _ _ => send_first p
      | UpstreamRead (Ok bs) n relay =>
          match relay with
          | Some (Ok _) => prepare_loop steps (mkIntake (first p) (to_client p ++ bs) (writer p))
          | Some (Err e) => (Failed e, mkIntake (first p) (to_client p ++ take n bs) (writer p))
          | None => (if idle =? 0 then Waiting else GaveUp, mkIntake (first p) (to_client p ++ take n bs) (writer p))
          end
      end
  end.

Definition unfinished_hello (initial : bytes) : bool :=
  enabled frag &&
  match classify_client_hello initial with
  | Indeterminate => true
  | ClientHello => negb (Tls.client_hello_is_complete initial)
  | Other => false
  end.

Definition prepare_payload (initial : bytes) (steps : list Step) (w : Writer) : Prepared * Intake :=
  let p := mkIntake initial [] w in
  if negb (bool_decide (initial = [])) && negb (unfinished_hello initial) then send initial p
  else if negb (enabled frag) then (Sent, p)
  else if (PREFIX_CAP <? length initial)%nat then (Panicked, p)       (* [first[len..]] *)
  else prepare_loop steps p.
End Prepare.

(** ** Copying *)

Inductive Side := A | B.

(** A call on a tracked stream: what it returned, and what was confirmed below meanwhile. *)
Inductive Io :=
| PollRead (s : Side) (r : poll (result IoError nat))
| PollWrite (s : Side) (below : list Z) (r : poll (result IoError nat))
| PollFlush (s : Side) (below : list Z)
| PollShutdown (s : Side) (below : list Z).

(** [Activity], [Bytes] and the shared [FlushProgress]. *)
Record Tracking := mkTracking { epoch : Z; nanos : Z; a_to_b : Z; b_to_a : Z; confirmed : Z }.

Definition record_activity (t : Z) (k : Tracking) : Tracking :=
  mkTracking (epoch k) (Z.min (saturating_duration_since t (epoch k)) U64_MAX) (a_to_b k) (b_to_a k) (confirmed k).
Definition confirm (below : list Z) (k : Tracking) : Tracking :=
  mkTracking (epoch k) (nanos k) (a_to_b k) (b_to_a k) (foldl record (confirmed k) below).
(** Writing to a side counts the other's bytes. *)
Definition forwarded (s : Side) (n : nat) (k : Tracking) : Tracking :=
  match s with
  | B => mkTracking (epoch k) (nanos k) (wrapping_add64 (a_to_b k) (Z.of_nat n)) (b_to_a k) (confirmed k)
  | A => mkTracking (epoch k) (nanos k) (a_to_b k) (wrapping_add64 (b_to_a k) (Z.of_nat n)) (confirmed k)
  end.
Definition progressed (r : poll (result IoError nat)) : bool :=
  match r with Ready (Ok n) => (0 <? n)%nat | _ => false end.

Definition tracked (t : Z) (k : Tracking) (io : Io) : Tracking :=
  match io with
  | PollRead _ r => if progressed r then record_activity t k else k
  | PollWrite s below r =>
      let k1 := confirm below k in
      let k2 := match r with Ready (Ok n) => if (0 <? n)%nat then forwarded s n k1 else k1 | _ => k1 end in
      if progressed r || (confirmed k <? confirmed k1) then record_activity t k2 else k2
  | PollFlush _ below | PollShutdown _ below =>
      let k1 := confirm below k in
      if confirmed k <? confirmed k1 then record_activity t k1 else k1
  end.

(** One poll of the task: when, the calls [copy_bidirectional] makes if it is polled, and
    its result if it is over. *)
Record Wake := mkWake { at_ : Z; calls : list Io; over : option (result IoError unit) }.

Inductive TunnelEnd := Eof | IdleTimeout | LifetimeTimeout.
Record TunnelOutcome := mkTunnelOutcome { end_ : TunnelEnd; sent_a_to_b : Z; sent_b_to_a : Z }.

Section Copy.
Variables idle max_lifetime : Z.

Record Copying := mkCopying { tracking : Tracking; idle_timer : Z }.
(** Ended: with what, when, and the sides shut down on the way. *)
Record Ended := mkEnded { outcome : result IoError TunnelOutcome; ended_at : Z; shut : list Side }.

Definition outcome_of (e : TunnelEnd) (k : Tracking) : result IoError TunnelOutcome :=
  Ok (mkTunnelOutcome e (a_to_b k) (b_to_a k)).
Definition tear_down (e : TunnelEnd) (t : Z) (k : Tracking) : Ended := mkEnded (outcome_of e k) t [A; B].

Definition last_activity (k : Tracking) : Z := epoch k + nanos k.

(** The transfer's turn. *)
Definition transfer (x : Wake) (c : Copying) : Copying + Ended :=
  let k := foldl (tracked (at_ x)) (tracking c) (calls x) in
  match over x with
  | None => inl (mkCopying k (idle_timer c))
  | Some (Ok _) => inr (mkEnded (outcome_of Eof k) (at_ x) [])
  | Some (Err e) => inr (mkEnded (Err e) (at_ x) [])
  end.

(** The biased select, until it is pending or the loop is left. *)
Definition wake (c : Copying) (x : Wake) : Copying + Ended :=
  let k := tracking c in
  if negb (max_lifetime =? 0) && (epoch k + max_lifetime <=? at_ x) then inr (tear_down LifetimeTimeout (at_ x) k)
  else if negb (idle =? 0) && (idle_timer c <=? at_ x) then
    let deadline := last_activity k + idle in
    if deadline <=? at_ x then inr (tear_down IdleTimeout (at_ x) k)
    else transfer x (mkCopying k deadline)
  else transfer x c.

Fixpoint copy (xs : list Wake) (c : Copying) : Copying + Ended :=
  match xs with
  | [] => inl c
  | x :: xs => match wake c x with inl c => copy xs c | ended => ended end
  end.

Definition tunnel_with_timeouts (now : Z) (xs : list Wake) : Copying + Ended :=
  copy xs (mkCopying (mkTracking now 0 0 0 0) (now + idle)).
End Copy.

(** ** The whole tunnel *)

Inductive Closed := StalledFirst | ClosedEof | ClosedIdle | MaxLifetime.
Definition closed_text (c : Closed) : bytes :=
  match c with
  | StalledFirst => lit "stalled sending the first bytes"
  | ClosedEof => lit "closed"
  | ClosedIdle => lit "idle timeout"
  | MaxLifetime => lit "max lifetime"
  end.

Section Forward.
Variable write_zero : IoError.
Variable script : nat -> Attempt.
Variables idle lifetime : Z.
Variable frag : FragmentSpec.

(** What becomes of a future: its result and when it is there; it runs; it panics. *)
Inductive Fate := Over (r : result IoError Closed) (t : Z) | Running | Crashed.

Definition closed_by (o : TunnelOutcome) : Closed :=
  match end_ o with Eof => ClosedEof | IdleTimeout => ClosedIdle | LifetimeTimeout => MaxLifetime end.

(** The inner future. *)
Definition forwarding (initial : bytes) (steps : list Step) (wakes : list Wake) (w : Writer) : Fate * Intake :=
  let '(r, p) := prepare_payload write_zero script idle frag initial steps w in
  (match r with
   | Failed e => Over (Err e) (clock (writer p))
   | GaveUp => Over (Ok StalledFirst) (clock (writer p))
   | Waiting => Running
   | Panicked => Crashed
   | Sent =>
       match tunnel_with_timeouts idle 0 (clock (writer p)) wakes with
       | inl _ => Running
       | inr e => Over (closed_by <$> outcome e) (ended_at e)
       end
   end, p).

(** The lifetime is looked at when it is over, the inner future first. *)
Definition forward_tunnel (initial : bytes) (steps : list Step) (wakes : list Wake) (w : Writer) : Fate :=
  let deadline := clock w + lifetime in
  match (forwarding initial steps wakes w).1 with
  | Over r t => if (lifetime =? 0) || (t <=? deadline) then Over r t else Over (Ok MaxLifetime) deadline
  | Running => if lifetime =? 0 then Running else Over (Ok MaxLifetime) deadline
  | Crashed => Crashed
  end.
End Forward.

(** ** The log of a tunnel *)

Record Counters := mkCounters { c_sent : Z; c_received : Z; upstream_failed : bool }.
Definition failed_side (c : Counters) : bytes := if upstream_failed c then lit "upstream" else lit "client".
Definition note {T} (r : poll (result IoError T)) (c : Counters) : Counters :=
  match r with Ready (Err _) => mkCounters (c_sent c) (c_received c) true | _ => c end.
Definition counted_read (r : poll (result IoError nat)) (c : Counters) : Counters :=
  note r (match r with
          | Ready (Ok n) => mkCounters (c_sent c) (wrapping_add64 (c_received c) (Z.of_nat n)) (upstream_failed c)
          | _ => c
          end).
Definition counted_write (r : poll (result IoError nat)) (c : Counters) : Counters :=
  note r (match r with
          | Ready (Ok n) => mkCounters (wrapping_add64 (c_sent c) (Z.of_nat n)) (c_received c) (upstream_failed c)
          | _ => c
          end).

(** The lines written: how it ended, and the warning. *)
Definition report (r : result IoError Closed) (c : Counters) : bytes * bool :=
  (match r with
   | Ok c => closed_text c
   | Err e => lit "failed on " ++ failed_side c ++ lit " side: " ++ io_text e
   end, (c_received c =? 0) && (0 <? c_sent c)).

(** ** The first bytes *)

Definition client_bytes (s : Step) : bytes := match kind s with ClientRead (Ok bs) => bs | _ => [] end.
Definition upstream_bytes (s : Step) : bytes := match kind s with UpstreamRead (Ok bs) _ _ => bs | _ => [] end.

(** What the buffer holds after these steps; a read fits into its room. *)
Definition gathered (initial : bytes) (steps : list Step) : bytes :=
  foldl (fun acc s => acc ++ take (PREFIX_CAP - length acc) (client_bytes s)) initial steps.
Definition relayed (steps : list Step) : bytes := concat (map upstream_bytes steps).

(** The client's bytes these steps read, in order. *)
Definition client_sent (steps : list Step) : bytes := concat (map client_bytes steps).

(** Nothing more can come: the client or the upstream is at its end, or the buffer is full. *)
Definition exhausted (data : bytes) (last_step : option Step) : Prop :=
  length data = PREFIX_CAP \/
  match last_step with
  | Some s => match kind s with
              | ClientRead (Ok bs) => bs = []
              | UpstreamRead (Ok bs) _ _ => bs = []
              | _ => False
              end
  | None => False
  end.

(** What the bytes say for certain, with no classifier: not the start of a TLS record that
    carries a ClientHello (its first byte 22, its second 3, its sixth 1, as far as they are
    there), or records whose handshake payloads hold the whole message they declare. *)
Definition not_hello (data : bytes) : Prop :=
  (1 <= length data)%nat /\ Tls.at_ data 0 <> 22 \/ (2 <= length data)%nat /\ Tls.at_ data 1 <> 3 \/
  (6 <= length data)%nat /\ Tls.at_ data 5 <> 1.
Definition whole_hello (data : bytes) : Prop :=
  (5 <= length data)%nat /\ Tls.at_ data 0 = 22 /\ Tls.msg_done (Tls.hs_stream data) = true /\
  Tls.first_kind (Tls.hs_stream data) = Some 1.
Definition certain (data : bytes) : Prop := not_hello data \/ whole_hello data.

(** The signature is there, or may still come. *)
Lemma classify_spec data :
  (classify_client_hello data = Other -> not_hello data) /\
  (not_hello data -> classify_client_hello data = Other) /\
  (whole_hello data <-> Tls.client_hello_is_complete data = true).
Proof.
  split_and!.
  - unfold classify_client_hello, not_hello. case_bool_decide as E0; [done|].
    assert (1 <= length data)%nat by (destruct data; [done | cbn; lia]).
    destruct (Z.eqb_spec (Tls.at_ data 0) 22) as [E1|E1]; cbn [negb]; [|intros _; by left].
    destruct (Nat.ltb_spec (length data) 2); [done|].
    destruct (Z.eqb_spec (Tls.at_ data 1) 3) as [E2|E2]; cbn [negb]; [|intros _; right; by left].
    destruct (Nat.ltb_spec (length data) 6); [done|].
    destruct (Z.eqb_spec (Tls.at_ data 5) 1); [done|]. intros _. right. by right.
  - unfold classify_client_hello, not_hello. intros Hd. case_bool_decide as E0; [subst data; cbn in Hd; lia|].
    destruct (Z.eqb_spec (Tls.at_ data 0) 22) as [E1|E1]; cbn [negb]; [|done].
    destruct Hd as [[_ Hd]|Hd]; [done|].
    destruct (Nat.ltb_spec (length data) 2); [lia|].
    destruct (Z.eqb_spec (Tls.at_ data 1) 3) as [E2|E2]; cbn [negb]; [|done].
    destruct Hd as [[_ Hd]|[Hd Hd2]]; [done|]. rewrite (proj2 (Nat.ltb_ge _ _)) by lia. by rewrite (proj2 (Z.eqb_neq _ _)).
  - rewrite (proj2 (Tls.assemble_exact data)). unfold whole_hello, Tls.HANDSHAKE.
    rewrite !andb_true_iff, Nat.leb_le, Z.eqb_eq, bool_decide_eq_true. tauto.
Qed.

Lemma decided_certain data : decided data false = true -> certain data.
Proof.
  destruct (classify_spec data) as (H1 & _ & H3). unfold decided, certain.
  destruct (classify_client_hello data); cbn; [|by intros _; left; apply H1 | done]. intros Hd. right. by apply H3.
Qed.
Lemma stream_short data : (length data < 6)%nat -> Tls.hs_stream data = [].
Proof.
  intros Hl. unfold Tls.hs_stream. cbn [Tls.hs]. destruct (_ && _); [|done].
  rewrite (drop_ge data 5) by lia. rewrite (drop_ge data (5 + _)) by lia. rewrite take_nil. apply Tls.hs_nil.
Qed.
Lemma undecided_uncertain data b : decided data b = false -> ~ certain data.
Proof.
  destruct (classify_spec data) as (_ & H2 & H3). unfold decided, certain. intros Hd [Hc|Hc].
  - by rewrite (H2 Hc) in Hd.
  - assert (Hl : (6 <= length data)%nat).
    { destruct (le_lt_dec 6 (length data)) as [|Hl]; [done|]. destruct Hc as (_ & _ & Hm & _). by rewrite stream_short in Hm. }
    apply H3 in Hc. unfold classify_client_hello in Hd. rewrite bool_decide_false in Hd by (intros ->; cbn in Hl; lia).
    destruct (negb (Tls.at_ data 0 =? 22)); [done|]. rewrite (proj2 (Nat.ltb_ge _ _)) in Hd by lia.
    destruct (negb (Tls.at_ data 1 =? 3)); [done|]. rewrite (proj2 (Nat.ltb_ge _ _)) in Hd by lia.
    destruct (Tls.at_ data 5 =? 1); [|done]. by rewrite Hc, orb_true_r in Hd.
Qed.

Section Facts.
Variable write_zero : IoError.
Variable script : nat -> Attempt.
Variable idle : Z.
Variable frag : FragmentSpec.
Local Abbreviation prepare := (prepare_payload write_zero script idle frag).
Local Abbreviation loop := (prepare_loop write_zero script idle frag).

(** What a preparation leaves: [used] are the steps it went through. *)
Definition prepared (initial : bytes) (used : list Step) (w : Writer) (r : Prepared) (p : Intake) : Prop :=
  first p = gathered initial used /\ to_client p `prefix_of` relayed used /\
  exists ms, wire (writer p) = wire w ++ ms /\ accepted ms `prefix_of` first p /\
    (r = Sent -> accepted ms = first p /\ to_client p = relayed used /\
       (first p <> [] -> segments [] ms = (cuts (first p) frag, []))).

Lemma send_prepared initial used w r p p' : first p = gathered initial used -> to_client p = relayed used ->
  wire (writer p) = wire w -> send write_zero script idle frag (first p) p = (r, p') -> prepared initial used w r p'.
Proof.
  intros Hf Hc Hw. unfold send. destruct (send_possibly_fragmented _ _ _ _ _ _) as [res w1] eqn:E.
  apply send_got, got_accepted in E as (ms & Hms & Hpre & Hall). intros [= <- <-].
  split; [done|]. split; [by rewrite Hc|]. exists ms. split; [cbn; by rewrite Hms, Hw|]. split; [done|].
  intros Hr. assert (res = Ready (Ok Completed)) as -> by (destruct res as [[[]|]|]; done).
  by destruct (Hall eq_refl) as [H1 H2].
Qed.

Lemma unsent_prepared initial used w r p : first p = gathered initial used -> to_client p `prefix_of` relayed used ->
  wire (writer p) = wire w -> r <> Sent -> prepared initial used w r p.
Proof.
  intros Hf Hc Hw Hr. split; [done|]. split; [done|]. exists []. rewrite app_nil_r. split; [done|].
  split; [apply prefix_nil | done].
Qed.

Lemma send_first_prepared initial used w r p p' : first p = gathered initial used -> to_client p = relayed used ->
  wire (writer p) = wire w -> send_first write_zero script idle frag p = (r, p') -> prepared initial used w r p'.
Proof.
  intros Hf Hc Hw. unfold send_first. case_bool_decide as E; [|by apply send_prepared].
  intros [= <- <-]. split; [done|]. split; [by rewrite Hc|]. exists []. rewrite app_nil_r, E. split_and!; try done.
Qed.

Lemma gathered_snoc initial used s : gathered initial (used ++ [s]) =
  gathered initial used ++ take (PREFIX_CAP - length (gathered initial used)) (client_bytes s).
Proof. unfold gathered. by rewrite foldl_app. Qed.
Lemma take_more (k : nat) (l m : bytes) : take k l ++ take (k - length (take k l)) m = take k (l ++ m).
Proof.
  rewrite take_app, length_take. destruct (le_lt_dec (length l) k).
  - by rewrite Nat.min_r, (take_ge l) by done.
  - rewrite Nat.min_l by lia. by replace (k - length l)%nat with (k - k)%nat by lia.
Qed.
(** The buffer is what the client sent so far, as much of it as fits. *)
Lemma gathered_take initial used : (length initial <= PREFIX_CAP)%nat ->
  gathered initial used = take PREFIX_CAP (initial ++ client_sent used).
Proof.
  intros Hl. induction used as [|s used IH] using rev_ind.
  - unfold gathered, client_sent. cbn [foldl map concat]. by rewrite app_nil_r, take_ge.
  - rewrite gathered_snoc, IH, take_more. f_equal. unfold client_sent. rewrite map_app, concat_app. cbn [map concat]. by rewrite app_nil_r, app_assoc.
Qed.
Lemma relayed_snoc used s : relayed (used ++ [s]) = relayed used ++ upstream_bytes s.
Proof. unfold relayed. rewrite map_app, concat_app. cbn. by rewrite app_nil_r. Qed.

(** When the loop sends: the last step decided, none before did. *)
Definition unsettled (initial : bytes) (used : list Step) : Prop :=
  forall before s after, used = before ++ s :: after -> ~ certain (gathered initial before).
Definition held (initial : bytes) (used : list Step) (p : Intake) : Prop :=
  (certain (first p) \/ exhausted (first p) (last used)) /\ unsettled initial used.

Lemma unsettled_snoc initial used s : unsettled initial used -> ~ certain (gathered initial used) ->
  unsettled initial (used ++ [s]).
Proof.
  intros Hu Hn before s0 after E. destruct after as [|s1 after _] using rev_ind.
  - by apply app_inj_tail in E as [<- _].
  - rewrite app_comm_cons, app_assoc in E. apply app_inj_tail in E as [E _]. by eapply Hu.
Qed.

Lemma send_first_same p r p' : send_first write_zero script idle frag p = (r, p') -> first p' = first p.
Proof.
  unfold send_first, send. case_bool_decide; [by intros [= <- <-]|].
  destruct (send_possibly_fragmented _ _ _ _ _ _). by intros [= <- <-].
Qed.

(** The steps gone through, and the rest. *)
Definition went (initial : bytes) (steps : list Step) (w : Writer) (r : Prepared) (p : Intake) : Prop :=
  exists used rest, steps = used ++ rest /\ prepared initial used w r p /\ (r = Sent -> held initial used p).

Lemma send_outcome data p r p' : send write_zero script idle frag data p = (r, p') -> r <> Panicked.
Proof. unfold send. destruct (send_possibly_fragmented _ _ _ _ _ _) as [[[[]|]|] w1]; by intros [= <- <-]. Qed.
Lemma send_first_outcome p r p' : send_first write_zero script idle frag p = (r, p') -> r <> Panicked.
Proof. unfold send_first. case_bool_decide; [by intros [= <- <-] | apply send_outcome]. Qed.

(** The loop is left by sending, having decided, *)
Lemma went_sent initial used rest w p r p' : first p = gathered initial used -> to_client p = relayed used ->
  wire (writer p) = wire w -> held initial used p -> send_first write_zero script idle frag p = (r, p') ->
  went initial (used ++ rest) w r p' /\ r <> Panicked.
Proof.
  intros Hf Hc Hw Hh Hs. split; [|by eapply send_first_outcome]. exists used, rest. split; [done|].
  split; [by eapply send_first_prepared|]. intros _. unfold held. by rewrite (send_first_same _ _ _ Hs).
Qed.
(** or without. *)
Lemma went_stopped initial used s rest w p (q : Intake) r : r <> Sent -> r <> Panicked -> first p = gathered initial used ->
  first q = first p -> to_client q `prefix_of` relayed (used ++ [s]) -> wire (writer q) = wire w -> client_bytes s = [] ->
  went initial (used ++ s :: rest) w r q /\ r <> Panicked.
Proof.
  intros Hr Hp Hf Hq1 Hq2 Hq3 Hcb. split; [|done]. exists (used ++ [s]), rest. split; [by rewrite <- app_assoc|].
  split; [|done]. apply unsent_prepared; try done. by rewrite gathered_snoc, Hcb, take_nil, app_nil_r, Hq1.
Qed.

(** A read that decides: for certain, or with nothing more to come. *)
Lemma read_decides used d (bs data : bytes) : (length data <= PREFIX_CAP)%nat ->
  let got := take (PREFIX_CAP - length data) bs in
  decided (data ++ got) (bool_decide (got = []) || (length (data ++ got) =? PREFIX_CAP)%nat) = true ->
  certain (data ++ got) \/ exhausted (data ++ got) (last (used ++ [mkStep d (ClientRead (Ok bs))])).
Proof.
  intros Hl got Hd. destruct (decided (data ++ got) false) eqn:Ef; [left; by apply decided_certain|]. right.
  unfold exhausted. rewrite last_snoc. cbn [kind].
  assert (Hx : bool_decide (got = []) || (length (data ++ got) =? PREFIX_CAP)%nat = true).
  { destruct (_ || _); [done|]. by rewrite Ef in Hd. }
  apply orb_true_iff in Hx as [Hx%bool_decide_eq_true|Hx%Nat.eqb_eq]; [|by left].
  destruct bs as [|b bs]; [by right|]. left. rewrite Hx, app_nil_r. apply (f_equal length) in Hx.
  unfold got in Hx. rewrite length_take in Hx. cbn [length] in Hx. lia.
Qed.

Lemma prepare_loop_spec steps : forall used p initial w r p',
  first p = gathered initial used -> to_client p = relayed used -> wire (writer p) = wire w ->
  (length (first p) <= PREFIX_CAP)%nat -> unsettled initial used -> ~ certain (first p) -> loop steps p = (r, p') ->
  went initial (used ++ steps) w r p' /\ r <> Panicked.
Proof.
  induction steps as [|s steps IH]; intros used p initial w r p' Hf Hc Hw Hl Hu Hn; cbn [prepare_loop].
  { intros [= <- <-]. split; [|done]. exists used, []. split; [done|]. split; [|done]. by apply unsent_prepared; rewrite ?Hc. }
  assert (Hu' : unsettled initial (used ++ [s])) by (apply unsettled_snoc; [done | by rewrite <- Hf]).
  replace (used ++ s :: steps) with ((used ++ [s]) ++ steps) by (by rewrite <- app_assoc).
  assert (Hkeep : upstream_bytes s = [] -> to_client p `prefix_of` relayed (used ++ [s])).
  { intros E. by rewrite relayed_snoc, E, app_nil_r, Hc. }
  assert (Hstop : forall r0 q, r0 <> Sent -> r0 <> Panicked -> first q = first p -> to_client q `prefix_of` relayed (used ++ [s]) ->
    wire (writer q) = wire w -> client_bytes s = [] -> (r0, q) = (r, p') -> went initial ((used ++ [s]) ++ steps) w r p' /\ r <> Panicked).
  { intros r0 q H1 H2 H3 H4 H5 H6 [= <- <-]. rewrite <- app_assoc. by apply (went_stopped initial used s steps w p). }
  destruct s as [d [[bs|e]|[bs|e] n relay|]]; cbn [kind took] in *.
  - pose proof (read_decides used d bs (first p) Hl) as Hdec. cbv zeta in Hdec. cbn [pass first to_client writer] in *.
    set (room := take (PREFIX_CAP - length (first p)) bs) in *.
    assert (Hq1 : first p ++ room = gathered initial (used ++ [mkStep d (ClientRead (Ok bs))])) by (rewrite gathered_snoc, <- Hf; done).
    assert (Hq2 : to_client p = relayed (used ++ [mkStep d (ClientRead (Ok bs))])) by (rewrite relayed_snoc; cbn [upstream_bytes kind]; by rewrite app_nil_r).
    assert (Hlq : (length (first p ++ room) <= PREFIX_CAP)%nat) by (unfold room; rewrite length_app, length_take; lia).
    destruct (decided (first p ++ room) _) eqn:Ed.
    + by apply went_sent; [..| split; [apply Hdec|] ].
    + apply IH; try done. by apply undecided_uncertain in Ed.
  - apply Hstop; try done. by apply Hkeep.
  - destruct bs as [|b bs].
    + apply went_sent; try done.
      * rewrite gathered_snoc. cbn [client_bytes kind]. by rewrite take_nil, app_nil_r.
      * rewrite relayed_snoc. cbn [upstream_bytes kind]. by rewrite app_nil_r.
      * split; [|done]. right. right. by rewrite last_snoc.
    + assert (Hpart : forall m, to_client p ++ take m (b :: bs) `prefix_of` relayed (used ++ [mkStep d (UpstreamRead (Ok (b :: bs)) n relay)])).
      { intros m. rewrite relayed_snoc, Hc. apply prefix_app. apply prefix_take. }
      destruct relay as [[[]|e]|].
      * apply IH; try done.
        -- rewrite gathered_snoc. cbn [client_bytes kind]. by rewrite take_nil, app_nil_r.
        -- rewrite relayed_snoc. cbn. by rewrite Hc.
      * apply Hstop; try done. apply (Hpart n).
      * destruct (idle =? 0); apply Hstop; try done; apply (Hpart n).
  - apply Hstop; try done. by apply Hkeep.
  - destruct (idle =? 0); apply Hstop; try done; by apply Hkeep.
Qed.

(** An empty buffer is not certain. *)
Lemma empty_uncertain : ~ certain [].
Proof. intros [[[H _]|[[H _]|[H _]]]|[H _]]; cbn in H; lia. Qed.
Lemma unsettled_nil initial : unsettled initial [].
Proof. intros before s after E. by destruct before. Qed.

Lemma unfinished_uncertain initial : unfinished_hello frag initial = true -> ~ certain initial.
Proof.
  unfold unfinished_hello. intros [_ H]%andb_true_iff. apply (undecided_uncertain initial false). unfold decided.
  destruct (classify_client_hello initial); [|done|done]. by apply negb_true_iff in H.
Qed.
Lemma finished_certain initial : enabled frag = true -> initial <> [] -> unfinished_hello frag initial = false -> certain initial.
Proof.
  unfold unfinished_hello. intros -> _ H. cbn [andb] in H. apply decided_certain. unfold decided.
  destruct (classify_client_hello initial); [by apply negb_false_iff in H | done | done].
Qed.

(** With fragmentation off only what came with the request goes out. *)
Lemma payload_prepared initial steps w r p :
  prepare initial steps w = (r, p) -> (length initial <= PREFIX_CAP)%nat ->
  r <> Panicked /\
  exists used rest, steps = used ++ rest /\ prepared initial used w r p /\
    (r = Sent -> if enabled frag then held initial used p else used = []).
Proof.
  intros Hrun Hl. unfold prepare_payload in Hrun.
  destruct (negb (bool_decide (initial = [])) && _) eqn:Ec.
  { split; [by eapply send_outcome|]. exists [], steps. split; [done|].
    pose proof (send_prepared initial [] w r (mkIntake initial [] w) p eq_refl eq_refl eq_refl Hrun) as Hp.
    split; [done|]. intros ->. destruct (enabled frag) eqn:Ef; [|done]. split; [|apply unsettled_nil]. left.
    destruct Hp as [-> _]. apply andb_true_iff in Ec as [E1%negb_true_iff%bool_decide_eq_false E2%negb_true_iff].
    by apply finished_certain. }
  destruct (enabled frag) eqn:Ef; cbn [negb] in Hrun.
  2:{ injection Hrun as <- <-. split; [done|]. exists [], steps. split; [done|]. split; [|done].
    assert (initial = []) as ->.
    { unfold unfinished_hello in Ec. rewrite Ef in Ec. cbn in Ec. rewrite andb_true_r in Ec.
      by apply negb_false_iff, bool_decide_eq_true in Ec. }
    split; [done|]. split; [done|]. exists []. rewrite app_nil_r. by split_and!. }
  rewrite (proj2 (Nat.ltb_ge _ _)) in Hrun by done.
  assert (Hn : ~ certain initial).
  { apply andb_false_iff in Ec as [E%negb_false_iff%bool_decide_eq_true|E%negb_false_iff];
      [subst initial; apply empty_uncertain | by apply unfinished_uncertain]. }
  destruct (prepare_loop_spec steps [] (mkIntake initial [] w) initial w r p) as [(used & rest & H1 & H2 & H3) Hr]; try done.
  1: apply unsettled_nil.
  split; [done|]. by exists used, rest.
Qed.


(** C31: With fragmentation on, no hello leaves early, and nothing is held longer than it
    must be. When the first bytes are sent after the steps [used], the buffer, which is all
    the client sent up to there, is certainly no ClientHello, or it holds a whole one (the
    signature alone does not do), or nothing more could come: the client or the upstream at
    its end, or the buffer full. And before none of these steps was it certain already. *)
Theorem hello_held initial steps w p :
  prepare initial steps w = (Sent, p) -> (length initial <= PREFIX_CAP)%nat -> enabled frag = true ->
  exists used rest, steps = used ++ rest /\
    first p = take PREFIX_CAP (initial ++ concat (map client_bytes used)) /\
    (not_hello (first p) \/ whole_hello (first p) \/ exhausted (first p) (last used)) /\
    forall before s after, used = before ++ s :: after ->
      let held_so_far := take PREFIX_CAP (initial ++ concat (map client_bytes before)) in
      ~ not_hello held_so_far /\ ~ whole_hello held_so_far.
Proof.
  intros Hrun Hl He. destruct (payload_prepared initial steps w Sent p Hrun Hl) as (_ & used & rest & H0 & (H1 & _) & H2).
  rewrite He in H2. destruct (H2 eq_refl) as [H3 H4]. exists used, rest. split; [done|].
  split; [by rewrite H1, gathered_take|]. split; [unfold certain in H3; tauto|].
  intros before s after E. specialize (H4 before s after E). rewrite gathered_take in H4 by done. cbv zeta.
  split; intros Hx; apply H4; [by left | by right].
Qed.
End Facts.

(** ** Deadlines *)

Section Deadlines.
Variables idle max_lifetime : Z.

(** The reference: the time since the last activity is looked at at every wake, there is
    no timer to reset. *)
Definition eager_wake (k : Tracking) (x : Wake) : Tracking + Ended :=
  if negb (max_lifetime =? 0) && (epoch k + max_lifetime <=? at_ x) then inr (tear_down LifetimeTimeout (at_ x) k)
  else if negb (idle =? 0) && (last_activity k + idle <=? at_ x) then inr (tear_down IdleTimeout (at_ x) k)
  else
    let k := foldl (tracked (at_ x)) k (calls x) in
    match over x with
    | None => inl k
    | Some (Ok _) => inr (mkEnded (outcome_of Eof k) (at_ x) [])
    | Some (Err e) => inr (mkEnded (Err e) (at_ x) [])
    end.
Fixpoint eager (xs : list Wake) (k : Tracking) : Tracking + Ended :=
  match xs with
  | [] => inl k
  | x :: xs => match eager_wake k x with inl k => eager xs k | ended => ended end
  end.

(** The wakes come one after the other, within the width of the activity cell. *)
Fixpoint in_order (start now : Z) (xs : list Wake) : Prop :=
  match xs with
  | [] => True
  | x :: xs => now <= at_ x /\ at_ x - start <= U64_MAX /\ in_order start (at_ x) xs
  end.

(** Activity is in the past, and only moves forward. *)
Definition past (k : Tracking) (t : Z) : Prop := epoch k <= last_activity k <= t.

Lemma tracked_past t k io : past k t -> t - epoch k <= U64_MAX ->
  past (tracked t k io) t /\ epoch (tracked t k io) = epoch k /\ last_activity k <= last_activity (tracked t k io).
Proof.
  intros [H1 H2] Ht.
  assert (Hrec : forall k', epoch k' = epoch k -> past (record_activity t k') t /\ epoch (record_activity t k') = epoch k /\
    last_activity k <= last_activity (record_activity t k')).
  { intros k' E. unfold past, last_activity, record_activity, saturating_duration_since in *. cbn. rewrite E in *. lia. }
  assert (Hkeep : forall k', epoch k' = epoch k -> nanos k' = nanos k -> past k' t /\ epoch k' = epoch k /\ last_activity k <= last_activity k').
  { intros k' E1 E2. unfold past, last_activity in *. rewrite E1, E2. lia. }
  destruct io as [s r|s below r|s below|s below]; cbn [tracked].
  - destruct (progressed r); [by apply Hrec | by apply Hkeep].
  - set (k2 := match r with Ready (Ok n) => _ | _ => _ end).
    assert (Hk2 : epoch k2 = epoch k /\ nanos k2 = nanos k).
    { unfold k2. destruct r as [[n|e]|]; [|done|done]. destruct (0 <? n)%nat; [|done]. by destruct s. }
    destruct Hk2 as [E1 E2]. destruct (_ || _); [by apply Hrec | by apply Hkeep].
  - destruct (_ <? _); [by apply Hrec | by apply Hkeep].
  - destruct (_ <? _); [by apply Hrec | by apply Hkeep].
Qed.

Lemma tracked_all_past t ios : forall k, past k t -> t - epoch k <= U64_MAX ->
  past (foldl (tracked t) k ios) t /\ epoch (foldl (tracked t) k ios) = epoch k /\
  last_activity k <= last_activity (foldl (tracked t) k ios).
Proof.
  induction ios as [|io ios IH]; intros k Hp Ht; cbn; [split; [done|]; split; [done | lia]|].
  destruct (tracked_past t k io Hp Ht) as (H1 & H2 & H3). destruct (IH (tracked t k io) H1) as (H4 & H5 & H6); [by rewrite H2|].
  split; [done|]. split; [congruence | lia].
Qed.

Lemma copy_eager xs : forall c now, past (tracking c) now -> idle_timer c <= last_activity (tracking c) + idle -> 0 <= idle ->
  in_order (epoch (tracking c)) now xs ->
  match copy idle max_lifetime xs c with inl c => inl (tracking c) | inr e => inr e end = eager xs (tracking c).
Proof.
  induction xs as [|x xs IH]; intros [k timer] now Hp Ht Hi Ho; [done|]. cbn [copy eager]. cbn [tracking idle_timer] in *.
  destruct Ho as (H1 & H2 & Ho). assert (Hpx : past k (at_ x)) by (unfold past in *; lia).
  destruct (tracked_all_past (at_ x) (calls x) k Hpx H2) as (P1 & P2 & P3). unfold wake, eager_wake, transfer. cbn [tracking idle_timer].
  destruct (negb (max_lifetime =? 0) && _); [done|].
  assert (Hnext : forall timer', timer' <= last_activity k + idle ->
    match over x with
    | None => match copy idle max_lifetime xs (mkCopying (foldl (tracked (at_ x)) k (calls x)) timer') with inl c => inl (tracking c) | inr e => inr e end
    | Some (Ok _) => inr (mkEnded (outcome_of Eof (foldl (tracked (at_ x)) k (calls x))) (at_ x) [])
    | Some (Err e) => inr (mkEnded (Err e) (at_ x) [])
    end = match over x with
          | None => eager xs (foldl (tracked (at_ x)) k (calls x))
          | Some (Ok _) => inr (mkEnded (outcome_of Eof (foldl (tracked (at_ x)) k (calls x))) (at_ x) [])
          | Some (Err e) => inr (mkEnded (Err e) (at_ x) [])
          end).
  { intros timer' Ht'. destruct (over x) as [[u|e]|]; [done | done|].
    apply (IH (mkCopying _ timer') (at_ x)); cbn [tracking idle_timer]; [done | lia | done | by rewrite P2]. }
  destruct (idle =? 0) eqn:Ei; cbn [negb andb].
  { specialize (Hnext timer Ht). by destruct (over x) as [[u|e]|]. }
  destruct (Z.leb_spec (last_activity k + idle) (at_ x)) as [Hl|Hl].
  - rewrite (proj2 (Z.leb_le timer (at_ x))) by lia. done.
  - destruct (timer <=? at_ x); [specialize (Hnext (last_activity k + idle) ltac:(lia)) | specialize (Hnext timer Ht)];
      by destruct (over x) as [[u|e]|].
Qed.

(** C18: The idle timer of a tunnel, reset only when it fires, is exact: at every wake the
    tunnel does what it would if the time since the last byte read, written or confirmed
    underneath were looked at directly. It ends as idle at the first wake that long after
    the last activity and never before, at its lifetime if that comes first, and else as
    the transfer does, with the same counters. *)
Theorem tunnel_exact_timeouts now xs : 0 <= idle -> in_order now now xs ->
  match tunnel_with_timeouts idle max_lifetime now xs with inl c => inl (tracking c) | inr e => inr e end
  = eager xs (mkTracking now 0 0 0 0).
Proof.
  intros Hi Ho. unfold tunnel_with_timeouts.
  apply (copy_eager xs (mkCopying (mkTracking now 0 0 0 0) (now + idle)) now); [|cbn; unfold last_activity; cbn; lia | done | done].
  unfold past, last_activity. cbn. lia.
Qed.

End Deadlines.

Lemma copy_no_lifetime idle xs : forall c e, copy idle 0 xs c = inr e ->
  match outcome e with Ok o => end_ o <> LifetimeTimeout | Err _ => True end.
Proof.
  induction xs as [|x xs IH]; intros c e; [done|]. cbn [copy]. unfold wake, transfer. cbn [negb Z.eqb andb].
  destruct (negb (idle =? 0) && _).
  - destruct (_ <=? _); [by intros [= <-]|]. destruct (over x) as [[u|err]|]; [by intros [= <-] | by intros [= <-] | apply IH].
  - destruct (over x) as [[u|err]|]; [by intros [= <-] | by intros [= <-] | apply IH].
Qed.

(** C30: A tunnel with a lifetime always ends, by its deadline, whatever the streams do:
    with the inner result when that is there in time, and as [MaxLifetime] exactly when it
    is not, at the deadline. *)
Theorem forward_lifetime write_zero script idle lifetime frag initial steps wakes w :
  0 < lifetime -> (length initial <= PREFIX_CAP)%nat ->
  let inner := (forwarding write_zero script idle frag initial steps wakes w).1 in
  exists r t, forward_tunnel write_zero script idle lifetime frag initial steps wakes w = Over r t /\
    t <= clock w + lifetime /\
    (r = Ok MaxLifetime <-> match inner with Over _ t' => clock w + lifetime < t' | _ => True end) /\
    (r = Ok MaxLifetime -> t = clock w + lifetime) /\ (r <> Ok MaxLifetime -> inner = Over r t).
Proof.
  intros Hl Hc. cbn zeta. unfold forward_tunnel. rewrite (proj2 (Z.eqb_neq lifetime 0)) by lia. cbn [orb].
  unfold forwarding. destruct (prepare_payload write_zero script idle frag initial steps w) as [r p] eqn:Ep. cbn [fst].
  assert (Hfate : forall r t, r <> Ok MaxLifetime -> exists r' t',
    (if t <=? clock w + lifetime then Over r t else Over (Ok MaxLifetime) (clock w + lifetime)) = Over r' t' /\
    t' <= clock w + lifetime /\ (r' = Ok MaxLifetime <-> clock w + lifetime < t) /\
    (r' = Ok MaxLifetime -> t' = clock w + lifetime) /\ (r' <> Ok MaxLifetime -> Over r t = Over r' t')).
  { intros r0 t Hr. destruct (Z.leb_spec t (clock w + lifetime)) as [Ht|Ht].
    - exists r0, t. split; [done|]. split; [done|]. split; [split; [done | lia]|]. by split.
    - exists (Ok MaxLifetime), (clock w + lifetime). split; [done|]. split; [lia|]. split; [by split|]. by split. }
  assert (Hlate : exists r' t', Over (Ok MaxLifetime) (clock w + lifetime) = Over r' t' /\ t' <= clock w + lifetime /\
    (r' = Ok MaxLifetime <-> True) /\ (r' = Ok MaxLifetime -> t' = clock w + lifetime) /\ (r' <> Ok MaxLifetime -> Running = Over r' t')).
  { exists (Ok MaxLifetime), (clock w + lifetime). split; [done|]. split; [lia|]. split; [by split|]. by split. }
  destruct r as [| |e| |]; [|by apply Hfate | by apply Hfate | exact Hlate |].
  - destruct (tunnel_with_timeouts idle 0 _ wakes) as [c|e] eqn:Et; [exact Hlate|]. apply Hfate.
    apply copy_no_lifetime in Et. destruct (outcome e) as [[[] a b]|err]; done.
  - exfalso. by destruct (payload_prepared write_zero script idle frag initial steps w _ _ Ep Hc).
Qed.

(** ** Witnesses *)

(** A hello that comes in two reads, the upstream greeting in between; then silence. *)
Definition demo_hello : bytes := map byte_of [22; 3; 1; 0; 5; 1; 0; 0; 1; 9].
Definition demo_steps : list Step :=
  [mkStep 1 (ClientRead (Ok (take 4 (drop 3 demo_hello)))); mkStep 1 (UpstreamRead (Ok (lit "hi")) 2 (Some (Ok tt)));
   mkStep 1 (ClientRead (Ok (drop 7 demo_hello)))].
Definition demo_frag : FragmentSpec := mkFragmentSpec true 4 0.
Definition demo_writer (k : nat) : Attempt := mkAttempt [] (Some (1, Ok 4%nat)).
Definition demo_wakes : list Wake :=
  [mkWake 9 [PollRead A (Ready (Ok 5%nat)); PollWrite B [] (Ready (Ok 5%nat))] None;
   mkWake 18 [PollFlush B [7]] None; mkWake 27 [] None; mkWake 28 [] None].
Abbreviation demo_start := (mkWriter 0 0 []).
Abbreviation demo_prepare := (prepare_payload (mkIoError []) demo_writer 10 demo_frag (take 3 demo_hello) demo_steps demo_start).

Example demo_prepared : demo_prepare = (Sent, mkIntake demo_hello (lit "hi")
  (mkWriter 6 9 [Accepted (take 4 demo_hello); Flushed; Accepted (take 4 (drop 4 demo_hello)); Flushed; Accepted (drop 8 demo_hello); Flushed])).
Proof. vm_compute. reflexivity. Qed.

(** The flush that confirmed bytes is the last activity. *)
Example demo_idle : tunnel_with_timeouts 10 0 0 demo_wakes = inr (mkEnded (Ok (mkTunnelOutcome IdleTimeout 5 0)) 28 [A; B]).
Proof. vm_compute. reflexivity. Qed.


(** The seven bytes that came first, signature and all, were not sent. *)
Lemma hello_held_witness :
  exists used rest, demo_steps = used ++ rest /\ ~ first (demo_prepare).2 = take 7 demo_hello /\
    (not_hello (first (demo_prepare).2) \/ whole_hello (first (demo_prepare).2) \/ exhausted (first (demo_prepare).2) (last used)).
Proof.
  destruct (hello_held (mkIoError []) demo_writer 10 demo_frag (take 3 demo_hello) demo_steps demo_start (demo_prepare).2)
    as (used & rest & H0 & _ & H2 & _).
  - rewrite demo_prepared. reflexivity.
  - apply Nat.leb_le. reflexivity.
  - reflexivity.
  - exists used, rest. split; [exact H0|]. split; [|exact H2]. rewrite demo_prepared. discriminate.
Defined.

Lemma tunnel_exact_timeouts_witness :
  inr (mkEnded (Ok (mkTunnelOutcome IdleTimeout 5 0)) 28 [A; B]) = eager 10 0 demo_wakes (mkTracking 0 0 0 0 0).
Proof.
  rewrite <- (tunnel_exact_timeouts 10 0 0 demo_wakes); [rewrite demo_idle; reflexivity | lia |].
  vm_compute. repeat split; congruence.
Defined.

Lemma forward_lifetime_witness :
  exists r t, forward_tunnel (mkIoError []) demo_writer 10 20 demo_frag (take 3 demo_hello) demo_steps [] demo_start = Over r t /\
    t <= 20 /\ r = Ok MaxLifetime.
Proof.
  destruct (forward_lifetime (mkIoError []) demo_writer 10 20 demo_frag (take 3 demo_hello) demo_steps [] demo_start)
    as (r & t & H1 & H2 & H3 & _).
  - lia.
  - apply Nat.leb_le. reflexivity.
  - exists r, t. split; [exact H1|]. split; [exact H2|]. apply H3. vm_compute. exact I.
Defined.
End Tunnel.
