(* ===== verification/Recovery.v ===== *)
(** Peeking at the first bytes of a client that asked for a bare address
    (src/crates/resocks5/src/server/tunnel/recovery.rs), and the sessions it runs in.

    A session is the client's connection, the clock, what the requests share, and the log
    of what was done for the client; it runs under the deadline of the phase it is in.
    How a connection is established is an interface, [Egress].

    - a prefix is read until a name is found, or cannot be, and no further
      ([prefix_decides]);
    - the peek loses no byte, ends by its deadline, dials at most once and only for a
      client that kept silent ([peek_exact]). *)
From S2P Require Import Prelude ProxyTypes Errors Stream Sni Server.

(** What a session needs of establishing a connection: its outcome and when it is there,
    what is left of one that is dropped, and what an upstream sends first. A banned
    target is refused on the spot. *)
Class Egress (U Sh E : Type) := {
  banned : bytes -> bool;
  establish_connection : bytes -> Z -> Sh -> Stream.poll (Z * result E U) * Sh;
  dropped : bytes -> Z -> Z -> Sh -> Sh;
  greets : U -> Z -> Stream.poll (Z * result IoError bytes);
  banned_refused t now s : banned t = true ->
    exists e s', establish_connection t now s = (Stream.Ready (now, Err e), s')
}.

Module Recovery.
Import Stream(poll, Ready, Pending, conn, chunks, inbound, unread, Eof, Fails, Silent).
Import Server(Credentials, Reply).

(** [?] in the peek. *)
#[export] Instance IoError_from_io : Stream.FromIo IoError := id.

Definition PEEK_MAX : nat := 16 * 1024.
Definition CLIENT_FIRST_GRACE : Z := from_secs 1.

(** ** Sessions *)

(** What becomes of a future under a deadline. *)
Inductive Got (A : Type) := Value (a : A) | TimedOut | Running | Crashed.
Arguments Value {A} a.
Arguments TimedOut {A}.
Arguments Running {A}.
Arguments Crashed {A}.

(** What was done for the client: a reply, a dial through the pool or past it, a permit
    for the latter, a greeting relayed, a tunnel and the bytes it starts with. *)
Inductive Act :=
| Replied (r : Reply)
| Connecting (target : bytes)
| ConnectingDirect (target : bytes)
| PermitTaken
| PermitReturned
| Relayed (bs : bytes)
| Tunnelled (target initial : bytes).

Inductive RecoveryPeek (U : Type) := Client (prefix : bytes) | ClientClosed | ServerFirst (u : U) (banner : bytes).
Arguments Client {U} prefix.
Arguments ClientClosed {U}.
Arguments ServerFirst {U} u banner.

Section Recovery.
Context {U Sh Er : Type} `{Egress U Sh Er}.
(** When a read resolves that finds the client with so many bytes to come, and which
    branch of a select goes first at a tie. *)
Variable arrives : nat -> Z.
Variable tie : Z -> bool.

Record Session := mkSession { now : Z; client : conn Credentials; shared : Sh; acts : list Act }.
Definition at_time (t : Z) (s : Session) : Session := mkSession t (client s) (shared s) (acts s).
Definition with_client (c : conn Credentials) (s : Session) : Session := mkSession (now s) c (shared s) (acts s).
Definition with_shared (σ : Sh) (s : Session) : Session := mkSession (now s) (client s) σ (acts s).
Definition log (a : Act) (s : Session) : Session := mkSession (now s) (client s) (shared s) (acts s ++ [a]).

(** A program fails with an error of type [X]. *)
Definition R (X A : Type) : Type := option Z -> Session -> Got (result X A) * Session.
#[export] Instance R_ret X : MRet (R X) := fun A a d s => (Value (Ok a), s).
#[export] Instance R_bind X : MBind (R X) := fun A B f m d s =>
  match m d s with
  | (Value (Ok a), s) => f a d s
  | (Value (Err e), s) => (Value (Err e), s)
  | (TimedOut, s) => (TimedOut, s)
  | (Running, s) => (Running, s)
  | (Crashed, s) => (Crashed, s)
  end.
Definition fails {X A} (e : X) : R X A := fun d s => (Value (Err e), s).
Definition act {X} (a : Act) : R X unit := fun d s => (Value (Ok tt), log a s).

(** Waiting for good, and to a time; a future is polled before the deadline is looked at. *)
Definition hang {X A} : R X A := fun d s =>
  match d with
  | None => (Running, s)
  | Some d => (TimedOut, at_time (Z.max (now s) d) s)
  end.
Definition await {X} (t : option Z) : R X unit := fun d s =>
  match t with
  | None => hang d s
  | Some t =>
      let t := Z.max (now s) t in
      if match d with Some d => t <=? d | None => true end
      then (Value (Ok tt), at_time t s) else hang d s
  end.

(** What the client's connection does. *)
Definition on_client {X Y A} (wrap : Y -> X) (m : Stream.M Credentials Y A) : R X A := fun d s =>
  match m (client s) with
  | (Ready r, c) => (Value (map_err wrap r), with_client c s)
  | (Pending, c) => hang d (with_client c s)
  end.

(** When a read resolves. *)
Definition readable (s : Session) : option Z :=
  match unread (client s), inbound (client s) with
  | [], Silent => None
  | _, _ => Some (Z.max (now s) (arrives (length (unread (client s)))))
  end.
Definition read {X} (wrap : IoError -> X) (n : nat) : R X bytes :=
  fun d s => (_ ← await (readable s); on_client wrap (Stream.read n)) d s.

(** ** The prefix *)

Definition decided (buf : bytes) : bool :=
  bool_decide (is_Some (Sni.parse_sni buf)) || bool_decide (is_Some (Sni.parse_http_host buf))
  || negb (Sni.sni_might_still_appear buf) && negb (Sni.http_host_might_still_appear buf)
  || (PEEK_MAX <=? length buf)%nat.
Definition unless_empty (buf : bytes) : option bytes := if bool_decide (buf = []) then None else Some buf.

Fixpoint read_prefix (fuel : nat) (buf : bytes) : R IoError (option bytes) :=
  match fuel with
  | O => hang
  | S fuel =>
      if decided buf then mret (unless_empty buf)
      else
        tmp ← read id (Nat.min (PEEK_MAX - length buf) 4096);
        if bool_decide (tmp = []) then mret (unless_empty buf) else read_prefix fuel (buf ++ tmp)
  end.
Definition read_recovery_prefix (buf : bytes) : R IoError (option bytes) := read_prefix (S PEEK_MAX) buf.

Definition as_peek (prefix : option bytes) : RecoveryPeek U :=
  match prefix with Some p => Client p | None => ClientClosed end.
Definition prefix_peek (buf : bytes) : R IoError (RecoveryPeek U) :=
  prefix ← read_recovery_prefix buf; mret (as_peek prefix).

Definition client_prefix (seed : bytes) : R IoError (RecoveryPeek U) :=
  if bool_decide (seed = []) then mret ClientClosed else prefix_peek seed.

(** ** The peek *)

Definition over_at {A} (t : Z) (r : poll (Z * A)) : option Z :=
  match r with Ready (t', _) => Some (Z.max t t') | Pending => None end.
(** The first branch of a select wins. *)
Definition sooner (a b : option Z) : bool :=
  match a, b with
  | None, _ => false
  | Some _, None => true
  | Some x, Some y => if x =? y then tie x else x <? y
  end.

Definition client_first : R IoError (RecoveryPeek U) := bs ← read id 4096; client_prefix bs.

(** Establishing, whatever comes of it; one that is not over is dropped at the deadline. *)
Definition establish {X} (target : bytes) : R X (result Er U) := fun d s =>
  let '(r, σ) := establish_connection target (now s) (shared s) in
  match await (X := X) (over_at (now s) r) d (log (Connecting target) s) with
  | (Value _, s') => match r with Ready (_, r) => (Value (Ok r), with_shared σ s') | Pending => (Running, s') end
  | (TimedOut, s') => (TimedOut, with_shared (dropped target (now s) (now s') (shared s)) s')
  | (Running, s') => (Running, s')
  | (Crashed, s') => (Crashed, s')
  end.

(** The connection is there: who speaks first. *)
Definition greeted (upstream : U) : R IoError (RecoveryPeek U) := fun d s =>
  let g := greets upstream (now s) in
  if sooner (readable s) (over_at (now s) g) then client_first d s
  else
    (_ ← await (over_at (now s) g);
     match g with
     | Ready (_, Ok (x :: bs)) => mret (ServerFirst upstream (take 4096 (x :: bs)))
     | _ => prefix_peek []
     end) d s.

Definition connect_race (target : bytes) : R IoError (RecoveryPeek U) := fun d s =>
  let '(r, _) := establish_connection target (now s) (shared s) in
  if sooner (readable s) (over_at (now s) r) then
    client_first d (with_shared (dropped target (now s) (default (now s) (readable s)) (shared s)) (log (Connecting target) s))
  else
    (connected ← establish target;
     match connected with Ok upstream => greeted upstream | Err _ => prefix_peek [] end) d s.

Definition peek_recovery (initial target : bytes) : R IoError (RecoveryPeek U) :=
  if negb (bool_decide (initial = [])) then prefix_peek initial
  else fun d s =>
    let grace := now s + CLIENT_FIRST_GRACE in
    if match readable s with Some t => t <=? grace | None => false end then client_first d s
    else (_ ← await (Some grace); connect_race target) d s.

(** ** A phase of the client's budget *)

Definition remaining_client_budget (deadline : Z) (s : Session) : Z := saturating_duration_since deadline (now s).

(** [inr]: the budget it was entered with ran out. *)
Definition run_phase_in_client_budget {X A} (deadline : Z) (op : R X A) : R X (A + Z) := fun d s =>
  let budget := remaining_client_budget deadline s in
  if budget =? 0 then (Value (Ok (inr budget)), s)
  else
    match op (Some (now s + budget)) s with
    | (Value (Ok a), s) => (Value (Ok (inl a)), s)
    | (Value (Err e), s) => (Value (Err e), s)
    | (TimedOut, s) | (Running, s) => (Value (Ok (inr budget)), s)
    | (Crashed, s) => (Crashed, s)
    end.

(** ** Where a session goes *)

(** From [s] to [s'] under the deadline, having read [used]. *)
Record went (d : option Z) (used : bytes) (s s' : Session) : Prop := {
  went_bytes : unread (client s) = used ++ unread (client s');
  went_end : inbound (client s') = inbound (client s);
  went_calls : Stream.calls (client s') = Stream.calls (client s);
  went_on : now s <= now s';
  went_by : forall t, d = Some t -> now s <= t -> now s' <= t
}.

Definition untouched (s s' : Session) : Prop := shared s' = shared s /\ acts s' = acts s.

Lemma went_refl d s : went d [] s s.
Proof. by split. Qed.
Lemma went_trans d u v s1 s2 s3 : went d u s1 s2 -> went d v s2 s3 -> went d (u ++ v) s1 s3.
Proof.
  intros [b1 e1 c1 o1 y1] [b2 e2 c2 o2 y2]. split; try congruence; [| lia |].
  - by rewrite b1, b2, app_assoc.
  - intros t Ht Hs. apply y2; [done|]. by apply y1.
Qed.
Lemma went_then d v s1 s2 s3 : went d [] s1 s2 -> went d v s2 s3 -> went d v s1 s3.
Proof. apply (went_trans d []). Qed.
Lemma untouched_trans s1 s2 s3 : untouched s1 s2 -> untouched s2 s3 -> untouched s1 s3.
Proof. unfold untouched. intuition congruence. Qed.

(** How a wait that does not end shows. *)
Definition halted {A} (d : option Z) (g : Got A) : Prop :=
  match d with None => g = Running | Some _ => g = TimedOut end.

Lemma hang_spec {X A} d s (g : Got (result X A)) s' : hang d s = (g, s') ->
  halted d g /\ went d [] s s' /\ untouched s s'.
Proof.
  unfold hang, halted. destruct d; intros [= <- <-]; repeat split; cbn; try done; try lia.
  intros t [= <-]. lia.
Qed.

Lemma await_unit_spec {X} t d s (g : Got (result X unit)) s' : await t d s = (g, s') ->
  went d [] s s' /\ untouched s s' /\
  (halted d g /\ (d = None -> t = None) \/
   g = Value (Ok tt) /\ exists t', t = Some t' /\ s' = at_time (Z.max (now s) t') s).
Proof.
  unfold await. destruct t as [t|].
  - destruct (match d with Some d => _ | None => _ end) eqn:E.
    + intros [= <- <-]. split; [split; cbn; try done; [lia|] | split; [done|right; eauto]].
      intros t' ->. zify_bools. lia.
    + intros (Hh & Hw & Hu)%hang_spec. split; [done|]. split; [done|]. left. split; [done|]. by intros ->.
  - intros (Hh & Hw & Hu)%hang_spec. auto.
Qed.

(** A program that stopped, and the one it was part of. *)
Definition same_stop {X A B} (g1 : Got (result X A)) (g : Got (result X B)) : Prop :=
  match g1, g with
  | Value (Err e), Value (Err e') => e = e'
  | TimedOut, TimedOut | Running, Running | Crashed, Crashed => True
  | _, _ => False
  end.

Lemma bind_cases {X A B} (m : R X A) (f : A -> R X B) d s g s' : (m ≫= f) d s = (g, s') ->
  (exists a s1, m d s = (Value (Ok a), s1) /\ f a d s1 = (g, s')) \/
  (exists g1, m d s = (g1, s') /\ same_stop g1 g).
Proof.
  unfold mbind, R_bind. destruct (m d s) as [[[a|e]| | |] s1]; intros Hb; try (injection Hb as <- <-; right; eexists; split; [done|]; done).
  left. eauto.
Qed.

(** What a read of the client finds. *)
Definition read_found {X} (wrap : IoError -> X) (d : option Z) (used : bytes) (s s' : Session) (g : Got (result X bytes)) : Prop :=
  match g with
  | Value (Ok bs) => used = bs /\ (bs = [] -> unread (client s) = [] /\ inbound (client s) = Eof)
  | Value (Err x) => used = [] /\ unread (client s) = [] /\ exists e, inbound (client s) = Fails e /\ x = wrap e
  | Running => d = None /\ used = [] /\ unread (client s) = [] /\ inbound (client s) = Silent
  | TimedOut => is_Some d /\ used = []
  | Crashed => False
  end.

Lemma readable_None s : readable s = None -> unread (client s) = [] /\ inbound (client s) = Silent.
Proof. unfold readable. by destruct (unread (client s)), (inbound (client s)). Qed.

Lemma read_found_at {X} (wrap : IoError -> X) n d s g s' : (0 < n)%nat -> readable s <> None ->
  on_client wrap (Stream.read n) d s = (g, s') ->
  exists used, went d used s s' /\ untouched s s' /\ read_found wrap d used s s' g /\ (length used <= n)%nat.
Proof.
  intros Hn Hr Ho. unfold on_client in Ho. destruct (decide (unread (client s) = [])) as [Hu|Hu].
  - unfold readable in Hr. rewrite Hu in Hr. rewrite (Stream.read_none n _ Hu) in Ho.
    exists []. destruct (inbound (client s)) eqn:Ei; [| |done]; injection Ho as <- <-;
      (split; [split; cbn [client now at_time with_client]; rewrite ?Stream.calls_log, ?app_nil_r; auto with lia|]);
      (split; [done|]; cbn; split; [|lia]; eauto).
  - destruct (Stream.read_some n _ Hn Hu) as (bs & c & Hc & Hb & Hl & Hi & Hm & Ht). rewrite Hc in Ho.
    injection Ho as <- <-. exists bs. split; [split; cbn; try done|]; try lia.
    { unfold Stream.calls. rewrite Ht. by rewrite omap_app, app_nil_r. }
    split; [done|]. cbn. split; [|lia]. split; [done|]. intros ->. cbn in Hl. lia.
Qed.

Lemma read_spec {X} (wrap : IoError -> X) n d s g s' : (0 < n)%nat -> read wrap n d s = (g, s') ->
  exists used, went d used s s' /\ untouched s s' /\ read_found wrap d used s s' g /\ (length used <= n)%nat.
Proof.
  intros Hn Hr. unfold read in Hr. apply bind_cases in Hr as [([] & s1 & Ha & Ho) | (g1 & Ha & Hg)];
    apply await_unit_spec in Ha as (Hw & Hu & Hc).
  - destruct Hc as [[Hh _] | (_ & t & Ht & ->)]; [by destruct d|].
    edestruct (read_found_at wrap n d (at_time (Z.max (now s) t) s)) as (used & H1 & H2 & H3 & H4); [done| |exact Ho|].
    { unfold readable in *. cbn [client now at_time]. destruct (unread (client s)), (inbound (client s)); congruence. }
    exists used. split; [by apply (went_then _ _ _ _ _ Hw)|]. split; [by apply (untouched_trans _ _ _ Hu)|]. done.
  - exists []. split; [done|]. split; [done|]. split; [|cbn; lia].
    destruct Hc as [[Hh Hn'] | (-> & _)]; [|done]. destruct d; cbn in Hh; subst g1; destruct g; try done.
    split; [done|]. split; [done|]. apply readable_None. by apply Hn'.
Qed.

(** ** The prefix is what decides *)

(** [pieces] were read one by one, each while nothing was decided. *)
Definition undecided_before (buf : bytes) (pieces : list bytes) : Prop :=
  forall ps x rest, pieces = ps ++ x :: rest -> decided (buf ++ concat ps) = false.

Lemma undecided_before_cons buf x ps : decided buf = false -> undecided_before (buf ++ x) ps ->
  undecided_before buf (x :: ps).
Proof.
  intros Hd Hp [|y ps'] z rest; cbn; [by rewrite app_nil_r|].
  intros [= -> ->]. rewrite app_assoc. by eapply Hp.
Qed.

(** How reading a prefix ends. *)
Definition prefix_found (buf : bytes) (d : option Z) (used : bytes) (s s' : Session) (g : Got (result IoError (option bytes))) : Prop :=
  match g with
  | Value (Ok p) => p = unless_empty (buf ++ used) /\
      (decided (buf ++ used) = true \/ unread (client s') = [] /\ inbound (client s) = Eof)
  | Value (Err e) => unread (client s') = [] /\ inbound (client s) = Fails e
  | Running => d = None /\ unread (client s') = [] /\ inbound (client s) = Silent
  | TimedOut => is_Some d
  | Crashed => False
  end.

Lemma decided_room buf : decided buf = false -> (length buf < PEEK_MAX)%nat.
Proof. unfold decided. intros [_ Hl]%orb_false_iff. by apply Nat.leb_gt. Qed.

Lemma read_prefix_spec fuel : forall buf d s g s', (PEEK_MAX - length buf < fuel)%nat ->
  read_prefix fuel buf d s = (g, s') ->
  exists pieces, went d (concat pieces) s s' /\ untouched s s' /\ undecided_before buf pieces /\
    (length (buf ++ concat pieces) <= Nat.max (length buf) PEEK_MAX)%nat /\
    prefix_found buf d (concat pieces) s s' g.
Proof.
  induction fuel as [|fuel IH]; intros buf d s g s' Hf Hr; [lia|]. cbn [read_prefix] in Hr.
  assert (Hnone : undecided_before buf []) by (intros [|] ? ?; discriminate).
  destruct (decided buf) eqn:Hd.
  { injection Hr as <- <-. exists []. cbn [concat]. unfold prefix_found. rewrite app_nil_r.
    split; [apply went_refl|]. split; [done|]. split; [done|]. split; [lia|]. auto. }
  pose proof (decided_room _ Hd) as Hroom.
  apply bind_cases in Hr as [(tmp & s1 & Ha & Hr) | (g1 & Ha & Hg)]; apply read_spec in Ha as (used & Hw & Hu & Hc & Hl); try lia.
  - destruct Hc as [-> Heof]. case_bool_decide as Ht.
    + injection Hr as <- <-. subst tmp. destruct (Heof eq_refl) as [He1 He2]. exists []. cbn [concat].
      unfold prefix_found. rewrite app_nil_r. split; [done|]. split; [done|]. split; [done|]. split; [lia|].
      split; [done|]. right. split; [|done]. pose proof (went_bytes _ _ _ _ Hw) as Hb. by rewrite He1 in Hb.
    + assert (Hlen : (0 < length tmp)%nat) by (destruct tmp; [done | cbn; lia]).
      destruct (IH (buf ++ tmp) d s1 g s') as (ps & Hw' & Hu' & Hp & Hm & Hfound); [rewrite length_app; lia | done |].
      exists (tmp :: ps). cbn [concat]. split; [by apply (went_trans _ _ _ _ s1)|].
      split; [by apply (untouched_trans _ s1)|]. split; [by apply undecided_before_cons|].
      rewrite app_assoc. split; [rewrite (length_app buf tmp) in Hm; lia|].
      unfold prefix_found in *. rewrite <- app_assoc in *. by rewrite (went_end _ _ _ _ Hw) in Hfound.
  - exists []. cbn [concat]. unfold prefix_found. rewrite app_nil_r.
    assert (used = [] /\ match g with
       | Value (Ok _) | Crashed => False
       | Value (Err e) => unread (client s) = [] /\ inbound (client s) = Fails e
       | Running => d = None /\ unread (client s) = [] /\ inbound (client s) = Silent
       | TimedOut => is_Some d end) as [-> Hx].
    { destruct g1 as [[|e]| | |], g as [[|e']| | |]; try done; cbn in Hc; try tauto.
      destruct Hc as (-> & ? & ex & ? & Hex). cbn in Hex, Hg. by subst. }
    split; [done|]. split; [done|]. split; [done|]. split; [lia|].
    pose proof (went_bytes _ _ _ _ Hw) as Hb. cbn in Hb. rewrite <- Hb. destruct g as [[|e']| | |]; tauto.
Qed.

Lemma prefix_spec buf d s g s' : read_recovery_prefix buf d s = (g, s') ->
  exists pieces, went d (concat pieces) s s' /\ untouched s s' /\ undecided_before buf pieces /\
    (length (buf ++ concat pieces) <= Nat.max (length buf) PEEK_MAX)%nat /\
    prefix_found buf d (concat pieces) s s' g.
Proof. apply read_prefix_spec. apply Nat.lt_succ_r, Nat.le_sub_l. Qed.

(** ** The peek, whoever speaks *)

Lemma undecided_nil : decided [] = false.
Proof. reflexivity. Qed.
Lemma read_fits : (4096 <= PEEK_MAX)%nat.
Proof. by apply Nat.leb_le. Qed.
#[local] Opaque PEEK_MAX.

(** What a peek that began with [initial] has found; [dialed] is what a greeting takes. *)
Definition peek_found (initial : bytes) (dialed : Prop) (d : option Z) (used : bytes) (s s' : Session)
    (g : Got (result IoError (RecoveryPeek U))) : Prop :=
  match g with
  | Value (Ok (Client p)) => p = initial ++ used /\ p <> [] /\ (length p <= Nat.max (length initial) PEEK_MAX)%nat /\
      (decided p = true \/ unread (client s') = [] /\ inbound (client s) = Eof)
  | Value (Ok ClientClosed) => initial = [] /\ used = [] /\ unread (client s) = [] /\ inbound (client s) = Eof
  | Value (Ok (ServerFirst _ banner)) => initial = [] /\ used = [] /\ banner <> [] /\ dialed
  | Value (Err e) => unread (client s') = [] /\ inbound (client s) = Fails e
  | Running => d = None
  | TimedOut => is_Some d
  | Crashed => False
  end.

(** A step before it, in which nothing was read. *)
Lemma peek_found_after initial dialed d used s0 s s' g : went d [] s0 s ->
  peek_found initial dialed d used s s' g -> peek_found initial dialed d used s0 s' g.
Proof.
  intros [b e _ _ _] Hf. cbn in b. destruct g as [[[| |]|]| | |]; cbn in *; rewrite ?b, <- ?e; done.
Qed.
Lemma peek_found_mono initial (P Q : Prop) d used s s' g : (P -> Q) ->
  peek_found initial P d used s s' g -> peek_found initial Q d used s s' g.
Proof. intros HPQ. destruct g as [[[| |]|]| | |]; cbn; tauto. Qed.


Lemma prefix_peek_spec buf dialed d s g s' : prefix_peek buf d s = (g, s') ->
  exists used, went d used s s' /\ untouched s s' /\ peek_found buf dialed d used s s' g.
Proof.
  unfold prefix_peek. intros [(p & s1 & Hr & Hm) | (g1 & Hr & Hg)]%bind_cases; apply prefix_spec in Hr as (ps & Hw & Hu & _ & Hl & Hf);
    exists (concat ps); (split; [try (injection Hm as <- <-); done|]); (split; [try (injection Hm as <- <-); done|]).
  - injection Hm as <- <-. destruct Hf as [-> Hd]. unfold unless_empty. case_bool_decide as He; [|done].
    apply app_eq_nil in He as [-> He]. rewrite He in *. cbn. split; [done|]. split; [done|].
    destruct Hd as [Hd|[Hd1 Hd2]]; [by change (decided [] = true) in Hd; rewrite undecided_nil in Hd|]. split; [|done].
    pose proof (went_bytes _ _ _ _ Hw) as Hb. by rewrite Hb, Hd1.
  - destruct g1 as [[|]| | |], g as [[|]| | |]; try done; cbn in *; try tauto. by subst.
Qed.

Lemma client_first_spec dialed d s g s' : client_first d s = (g, s') ->
  exists used, went d used s s' /\ untouched s s' /\ peek_found [] dialed d used s s' g.
Proof.
  unfold client_first. intros [(seed & s1 & Hr & Hm) | (g1 & Hr & Hg)]%bind_cases; apply read_spec in Hr as (used & Hw & Hu & Hf & Hl); try lia.
  - destruct Hf as [-> He]. unfold client_prefix in Hm. case_bool_decide as Hs.
    + injection Hm as <- <-. exists []. subst seed. destruct (He eq_refl) as [He1 He2]. cbn. tauto.
    + apply (prefix_peek_spec seed dialed) in Hm as (more & Hw' & Hu' & Hf). exists (seed ++ more).
      split; [by apply (went_trans _ _ _ _ s1)|]. split; [by apply (untouched_trans _ s1)|].
      destruct g as [[[| |]|]| | |]; cbn in *; rewrite ?(went_end _ _ _ _ Hw) in Hf; try tauto.
      destruct Hf as (? & ? & Hf & ?). split; [done|]. split; [done|]. split; [|done].
      pose proof read_fits. lia.
  - exists used. split; [done|]. split; [done|].
    destruct g1 as [[|]| | |], g as [[|]| | |]; try done; cbn in Hf; cbn; try tauto.
    destruct Hf as (-> & Hn & ex & Hi & Hex). cbn in Hex, Hg. subst. split; [|done].
    pose proof (went_bytes _ _ _ _ Hw) as Hb. by rewrite Hn in Hb.
Qed.

Lemma halts_found {A} initial dialed d used s s' (g1 : Got (result IoError A)) g : halted d g1 -> same_stop g1 g ->
  peek_found initial dialed d used s s' g.
Proof. destruct d; cbn; intros ->; destruct g; cbn; try done; eauto. Qed.

Lemma greeted_spec upstream d s g s' : greeted upstream d s = (g, s') ->
  exists used, went d used s s' /\ untouched s s' /\ peek_found [] True d used s s' g.
Proof.
  unfold greeted. destruct (sooner _ _); [apply client_first_spec|].
  intros [([] & s1 & Ha & Hm) | (g1 & Ha & Hg)]%bind_cases; apply await_unit_spec in Ha as (Hw & Hu & Hc).
  - assert (exists used, went d used s1 s' /\ untouched s1 s' /\ peek_found [] True d used s1 s' g)
      as (used & Hw' & Hu' & Hf).
    { destruct (greets upstream (now s)) as [[t [[|x bs]|e]]|]; try (by apply (prefix_peek_spec [] True) in Hm).
      injection Hm as <- <-. exists []. split; [apply went_refl|]. split; [done|]. done. }
    exists used. split; [by apply (went_then _ _ _ _ _ Hw)|]. split; [by apply (untouched_trans _ _ _ Hu)|].
    by apply (peek_found_after _ _ _ _ _ s1).
  - exists []. split; [done|]. split; [done|].
    destruct Hc as [[Hh _] | (-> & _)]; [|done]. exact (halts_found _ _ _ _ _ _ g1 g Hh Hg).
Qed.

(** A connection to the target was established, at some time and with what was shared
    then; not if it is banned. *)
Definition reached (target : bytes) : Prop :=
  exists start σ t u σ', establish_connection target start σ = (Ready (t, Ok u), σ').
Lemma reached_allowed target : reached target -> banned target = false.
Proof.
  intros (start & σ & t & u & σ' & He). destruct (banned target) eqn:Hb; [|done].
  destruct (banned_refused _ start σ Hb) as (e & σ1 & He'). congruence.
Qed.

(** A dial was logged, and nothing else. *)
Definition dialed_from (target : bytes) (s s' : Session) : Prop := acts s' = acts s ++ [Connecting target].

Lemma establish_spec {X} target d s (g : Got (result X (result Er U))) s' : establish target d s = (g, s') ->
  went d [] s s' /\ dialed_from target s s' /\
  match g with
  | Value (Ok r) => exists t, establish_connection target (now s) (shared s) = (Ready (t, r), shared s')
  | Value (Err _) | Crashed => False
  | TimedOut => is_Some d
  | Running => d = None
  end.
Proof.
  unfold establish, dialed_from. destruct (establish_connection target (now s) (shared s)) as [r σ].
  destruct (await _ _ _) as [g1 s1] eqn:Ha. apply await_unit_spec in Ha as (Hw & [Hu1 Hu2] & Hc).
  assert (Hw' : went d [] s s1) by (destruct Hw; by split). cbn in Hu1, Hu2.
  destruct Hc as [[Hh _]|(-> & t & Ht & _)].
  - destruct d; cbn in Hh; subst g1; intros [= <- <-]; (split; [destruct Hw'; by split | by split]).
  - destruct r as [[t' r]|]; [|done]. intros [= <- <-].
    split; [destruct Hw'; by split|]. split; [done|]. cbn. by exists t'.
Qed.

Lemma connect_race_spec target d s g s' : connect_race target d s = (g, s') ->
  exists used, went d used s s' /\ dialed_from target s s' /\ peek_found [] (reached target) d used s s' g.
Proof.
  unfold connect_race. destruct (establish_connection target (now s) (shared s)) as [r σ].
  destruct (sooner _ _).
  - set (s0 := with_shared _ _). intros (used & Hw & [_ Hu] & Hf)%(client_first_spec (reached target)). exists used.
    assert (went d [] s s0) by (by split). split; [by apply (went_then _ _ _ s0)|]. split; [done|].
    by apply (peek_found_after _ _ _ _ _ s0).
  - intros [(c & s1 & Ha & Hm) | (g1 & Ha & Hg)]%bind_cases; apply establish_spec in Ha as (Hw & Hd & Hc).
    + assert (exists used, went d used s1 s' /\ untouched s1 s' /\ peek_found [] (reached target) d used s1 s' g)
        as (used & Hw' & [_ Hu] & Hf).
      { destruct c as [upstream|e]; [|by apply (prefix_peek_spec [] (reached target)) in Hm].
        apply greeted_spec in Hm as (used & H1 & H2 & H3). exists used. split; [done|]. split; [done|].
        apply (peek_found_mono _ True); [|done]. intros _. destruct Hc as [t Hc]. by repeat eexists. }
      exists used. split; [by apply (went_then _ _ _ s1)|]. split; [unfold dialed_from in *; congruence|].
      by apply (peek_found_after _ _ _ _ _ s1).
    + exists []. split; [done|]. split; [done|]. destruct g1 as [[|]| | |], g as [[|]| | |]; done.
Qed.

(** The client is silent for the grace. *)
Definition silent (s : Session) : Prop :=
  match readable s with Some t => now s + CLIENT_FIRST_GRACE < t | None => True end.

Lemma peek_spec initial target d s g s' : peek_recovery initial target d s = (g, s') ->
  exists used, went d used s s' /\ peek_found initial (dialed_from target s s' /\ reached target) d used s s' g /\
    (untouched s s' \/
     initial = [] /\ silent s /\ now s + CLIENT_FIRST_GRACE <= now s' /\ dialed_from target s s').
Proof.
  unfold peek_recovery. destruct (bool_decide (initial = [])) eqn:Ei; cbn [negb]; zify_bools.
  - subst initial. destruct (match readable s with Some t => _ | None => _ end) eqn:Er'.
    + intros (used & Hw & Hu & Hf)%(client_first_spec (dialed_from target s s' /\ reached target)). eauto.
    + assert (Hs : silent s) by (unfold silent; destruct (readable s); zify_bools; done).
      intros [([] & s1 & Ha & Hm) | (g1 & Ha & Hg)]%bind_cases; apply await_unit_spec in Ha as (Hw & Hu & Hc).
      * apply connect_race_spec in Hm as (used & Hw' & Hd & Hf). exists used.
        assert (Hd' : dialed_from target s s') by (destruct Hu as [_ Hu]; unfold dialed_from in *; congruence).
        split; [by apply (went_then _ _ _ s1)|].
        split; [apply (peek_found_after _ _ _ _ _ s1); [done | by apply (peek_found_mono _ (reached target))]|].
        right. split; [done|]. split; [done|]. split; [|done].
        destruct Hc as [[Hh _]|(_ & t & [= <-] & ->)]; [by destruct d|]. pose proof (went_on _ _ _ _ Hw') as Ho. cbn in Ho. lia.
      * exists []. split; [done|]. split; [|by left].
        destruct Hc as [[Hh _] | (-> & _)]; [|done]. exact (halts_found _ _ _ _ _ _ g1 g Hh Hg).
  - intros (used & Hw & Hu & Hf)%(prefix_peek_spec initial (dialed_from target s s' /\ reached target)). eauto.
Qed.

Lemma phase_spec {X A} deadline (op : R X A) d s g s' : run_phase_in_client_budget deadline op d s = (g, s') ->
  deadline <= now s /\ g = Value (Ok (inr 0)) /\ s' = s \/
  now s < deadline /\ exists g1, op (Some deadline) s = (g1, s') /\
    match g1, g with
    | Value (Ok a), Value (Ok (inl a')) => a = a'
    | Value (Err e), Value (Err e') => e = e'
    | TimedOut, Value (Ok (inr b)) | Running, Value (Ok (inr b)) => b = deadline - now s
    | Crashed, Crashed => True
    | _, _ => False
    end.
Proof.
  unfold run_phase_in_client_budget, remaining_client_budget, saturating_duration_since.
  destruct (Z.leb_spec deadline (now s)).
  - rewrite Z.max_r by lia. intros [= <- <-]. by left.
  - rewrite Z.max_l by lia. replace (now s + (deadline - now s)) with deadline by lia.
    destruct (Z.eqb_spec (deadline - now s) 0); [lia|].
    destruct (op (Some deadline) s) as [[[a|e]| | |] s1]; intros [= <- <-]; right; (split; [lia|]); eexists; (split; [reflexivity|]); done.
Qed.

(** ** The claims *)

(** A prefix is read piece by piece and no further than it takes: when it is given
    back, a name is in it, or none can come any more, or the buffer is full, or the client
    is at its end, and that was not so before any of the pieces. It is what came before
    and exactly the bytes taken from the client, and outgrows the buffer by nothing. *)
Theorem prefix_decides buf d s g s' : read_recovery_prefix buf d s = (g, s') ->
  exists pieces, unread (client s) = concat pieces ++ unread (client s') /\
    (forall ps x rest, pieces = ps ++ x :: rest -> decided (buf ++ concat ps) = false) /\
    (length (buf ++ concat pieces) <= Nat.max (length buf) PEEK_MAX)%nat /\
    match g with
    | Value (Ok p) => p = unless_empty (buf ++ concat pieces) /\
        (decided (buf ++ concat pieces) = true \/ unread (client s') = [] /\ inbound (client s) = Eof)
    | Value (Err e) => unread (client s') = [] /\ inbound (client s) = Fails e
    | Running => d = None /\ unread (client s') = [] /\ inbound (client s) = Silent
    | TimedOut => is_Some d
    | Crashed => False
    end.
Proof.
  intros (ps & Hw & _ & Hp & Hl & Hf)%prefix_spec. exists ps. split; [apply Hw|]. split; [exact Hp|]. by split.
Qed.

(** C21: The peek loses no byte: a prefix is what was pipelined and exactly what was read,
    and nothing was read from a client found closed, or when the upstream spoke first. It
    is over by its deadline, if it has one. At most one dial is begun, of the bare address,
    and only for a client that sent nothing with its request or within the grace; a
    greeting takes one, and a target that is not banned. *)
Theorem peek_exact initial target d s g s' : peek_recovery initial target d s = (g, s') ->
  (exists used, unread (client s) = used ++ unread (client s') /\
     match g with
     | Value (Ok (Client p)) => p = initial ++ used /\ p <> [] /\
         (length p <= Nat.max (length initial) PEEK_MAX)%nat /\
         (decided p = true \/ unread (client s') = [] /\ inbound (client s) = Eof)
     | Value (Ok ClientClosed) => initial = [] /\ used = [] /\ unread (client s) = [] /\ inbound (client s) = Eof
     | Value (Ok (ServerFirst _ banner)) => initial = [] /\ used = [] /\ banner <> [] /\
         acts s' = acts s ++ [Connecting target] /\ banned target = false
     | Value (Err e) => unread (client s') = [] /\ inbound (client s) = Fails e
     | Running => d = None
     | TimedOut => is_Some d
     | Crashed => False
     end) /\
  (forall t, d = Some t -> now s <= t -> now s' <= t) /\
  (acts s' = acts s \/
   acts s' = acts s ++ [Connecting target] /\ initial = [] /\ silent s /\ now s + CLIENT_FIRST_GRACE <= now s').
Proof.
  intros (used & Hw & Hf & Ha)%peek_spec. split; [exists used; split; [apply Hw|]|].
  { apply (peek_found_mono _ _ (acts s' = acts s ++ [Connecting target] /\ banned target = false)) in Hf; [exact Hf|].
    intros [H1 H2%reached_allowed]. by split. }
  split; [apply Hw|]. destruct Ha as [[_ Ha]|(? & ? & ? & Ha)]; [by left | by right].
Qed.
End Recovery.

(** ** Witnesses *)

(** The upstream greets a second after it is there. *)
#[local] Program Instance demo_egress : Egress unit nat unit := {
  banned _ := false;
  establish_connection t now n := (Ready (now + from_secs 1, Ok tt), S n);
  dropped _ _ _ n := n;
  greets _ now := Ready (now + from_secs 1, Ok (lit "220 ready"))
}.
Next Obligation. discriminate. Defined.

Definition demo_session (bs : bytes) : Session := mkSession 0 (Stream.mkConn (Stream.chunk_of bs) Silent None []) 0%nat [].
Abbreviation demo_get := (lit "GET / HTTP/1.1" ++ [CR; LF]).
Abbreviation demo_prefix := (read_recovery_prefix (fun _ => from_secs 1) demo_get (Some (from_secs 9))
  (demo_session (lit "Host: a.b" ++ [CR; LF; CR; LF] ++ lit "more"))).
Abbreviation demo_peek := (peek_recovery (U := unit) (Er := unit) (fun _ => from_secs 9) (fun _ => true) [] (lit "1.2.3.4:22") (Some (from_secs 9)) (demo_session [])).

Example demo_prefix_run : demo_prefix.1 = Value (Ok (Some (demo_get ++ lit "Host: a.b" ++ [CR; LF; CR; LF] ++ lit "more"))).
Proof. vm_compute. reflexivity. Qed.
Example demo_peek_run : demo_peek.1 = Value (Ok (ServerFirst tt (lit "220 ready"))).
Proof. vm_compute. reflexivity. Qed.

Lemma prefix_decides_witness : exists pieces,
  unread (client (demo_session (lit "Host: a.b" ++ [CR; LF; CR; LF] ++ lit "more"))) = concat pieces ++ unread (client demo_prefix.2) /\
  (forall ps x rest, pieces = ps ++ x :: rest -> decided (demo_get ++ concat ps) = false) /\
  decided (demo_get ++ concat pieces) = true.
Proof.
  destruct (prefix_decides (fun _ => from_secs 1) demo_get (Some (from_secs 9))
    (demo_session (lit "Host: a.b" ++ [CR; LF; CR; LF] ++ lit "more")) demo_prefix.1 demo_prefix.2) as (ps & Hb & Hp & _ & Hf).
  - apply surjective_pairing.
  - exists ps. split; [exact Hb|]. split; [exact Hp|]. rewrite demo_prefix_run in Hf.
    destruct Hf as [_ [Hf|[_ Hf]]]; [exact Hf | discriminate Hf].
Defined.

Lemma peek_exact_witness : now demo_peek.2 <= from_secs 9 /\ acts demo_peek.2 = [Connecting (lit "1.2.3.4:22")].
Proof.
  destruct (peek_exact (U := unit) (Er := unit) (fun _ => from_secs 9) (fun _ => true) [] (lit "1.2.3.4:22")
    (Some (from_secs 9)) (demo_session []) demo_peek.1 demo_peek.2) as ((used & _ & Hf) & Ht & _).
  - apply surjective_pairing.
  - split; [apply Ht; [reflexivity | vm_compute; discriminate]|].
    rewrite demo_peek_run in Hf. apply Hf.
Defined.
End Recovery.
