(* ===== verification/Handle.v ===== *)
(** Handling one client (src/crates/resocks5/src/server/handle/handle_client.rs and
    handle_socks5_client/, src/crates/resocks5/src/http_proxy/handle_http_client/,
    src/crates/resocks5/src/server/connect/establish_direct.rs).

    A client is admitted, its request accepted, and served: past the pool, through it, or
    through it by the name its first bytes carry. What establishing needs is [Egress];
    the authentication is that of [Auth], the tunnel that of [Tunnel].

    - nothing is done for a client that was not admitted ([only_admitted]);
    - one reply, which says what came of the connection, and what may come before and
      after it ([session_protocol]);
    - the tunnel begins with exactly the bytes that came ([tunnel_bytes]);
    - who goes where ([routes_kept]). *)
From S2P Require Import Prelude Text TextFmt ProxyTypes Errors Stream Clients Users Auth Sni Server Upstream Fragment Tunnel Recovery.

Module Handle.
Import Stream(poll, Ready, Pending, conn, chunks, inbound, unread, Eof, Fails, Silent).
Import Server(Credentials, Reply, IncomingRequest, ServerError, protocol, target, req_username, pipeline).
Import Recovery.
#[local] Existing Instance Server.ServerError_from_io.

Section Handle.
Context {U Sh Er : Type} `{Egress U Sh Er}.
Variables (early_eof write_zero : IoError) (decode : bytes -> option bytes) (str_debug : bytes -> bytes).
Variable arrives : nat -> Z.
Variable tie : Z -> bool.
(** The snapshot of the users, and what becomes of a login. *)
Variable auth : Auth.AuthState.
Variable verify_async : bytes -> bytes -> option bool.
(** The global rule, and the address of the peer, if it can be had. *)
Variable allowed_clients : option Clients.AllowedClients.
Variable peer : option Clients.IpAddr.
(** The configuration. *)
Variables (recover_host_from_payload : bool) (connect_timeout : Z) (frag : Fragment.FragmentSpec) (idle lifetime : Z).
Variable client_deadline : Z.
(** The network: [set_nodelay] on an upstream, [TcpStream::connect], the free permits of
    the direct limiter, and what meets the tunnel. *)
Variable nodelay : U -> result IoError unit.
Variable tcp_connect : bytes -> Z -> poll (Z * result IoError U).
Variable direct_free : nat.
Variables (script : nat -> Fragment.Attempt) (steps : list Tunnel.Step) (wakes : list Tunnel.Wake).
(** When the phases of accepting begin, and when it is over. *)
Variables (first_phase second_phase accepted_at : Z).

Inductive Failure :=
| ClientRejected (ip : option Clients.IpAddr)
| Serving (e : ServerError)
| PeekTimedOut (budget : Z)
| NotEstablished (e : Er)
| BannedTarget
| DirectFailed (e : IoError)
| DirectTimedOut (after : Z)
| StreamFailed (e : IoError).

Local Abbreviation P := (R (Sh := Sh) Failure).

(** [?] between error types. *)
Definition map_error {X Y A} (f : X -> Y) (m : R (Sh := Sh) X A) : R (Sh := Sh) Y A := fun d s =>
  match m d s with
  | (Value r, s) => (Value (map_err f r), s)
  | (TimedOut, s) => (TimedOut, s)
  | (Running, s) => (Running, s)
  | (Crashed, s) => (Crashed, s)
  end.

(** ** Replies, tunnels *)

Definition reply (req : IncomingRequest) (rep : Reply) : P unit :=
  _ ← act (Replied rep); on_client Serving (Server.reply write_zero req rep).
(** [let _ = req.reply(..)]. *)
Definition reply_anyway (req : IncomingRequest) (rep : Reply) : P unit := fun d s =>
  match reply req rep d s with (Value _, s) => (Value (Ok tt), s) | other => other end.

Definition forward (target_addr : bytes) (initial : bytes) : P unit := fun d s =>
  let s := log (Tunnelled target_addr initial) s in
  match Tunnel.forward_tunnel write_zero script idle lifetime frag initial steps wakes (Fragment.mkWriter 0 (now s) []) with
  | Tunnel.Over r t => (Value (map_err StreamFailed (_ ← r; Ok tt)), at_time (Z.max (now s) t) s)
  | Tunnel.Running => (Running, s)
  | Tunnel.Crashed => (Crashed, s)
  end.

Definition no_delay (upstream : U) : P unit :=
  if Fragment.enabled frag then
    match nodelay upstream with Ok _ => mret tt | Err e => fails (StreamFailed e) end
  else mret tt.

(** ** Past the pool *)

Definition dial_direct (target_addr : bytes) : P (result Failure U) := fun d s =>
  let r := tcp_connect target_addr (now s) in
  let deadline := now s + connect_timeout in
  let late : P (result Failure U) := _ ← await (Some deadline); mret (Err (DirectTimedOut connect_timeout)) in
  match r with
  | Ready (t, r) =>
      if Z.max (now s) t <=? deadline then (_ ← await (Some t); mret (map_err DirectFailed r)) d s else late d s
  | Pending => late d s
  end.
Definition establish_direct (target_addr : bytes) : P (result Failure U) :=
  if banned target_addr then mret (Err BannedTarget)
  else _ ← act (ConnectingDirect target_addr); dial_direct target_addr.

(** ** Recovery *)

Definition ipv4_literal_port (target_addr : bytes) : option bytes :=
  '(host, port) ← rsplit_once ":"%char target_addr;
  match Upstream.parse_ipv4 host with Some _ => Some port | None => None end.

Definition recovered_host (buf : bytes) : option bytes :=
  match Sni.parse_sni buf with Some h => Some h | None => Sni.parse_http_host buf end.
Definition effective_target (target_addr port buf : bytes) : bytes :=
  match recovered_host buf with Some host => host ++ lit ":" ++ port | None => target_addr end.

(** The early reply and the peek. *)
Definition recovery_phase (req : IncomingRequest) (target_addr pipelined : bytes) : P (RecoveryPeek U) :=
  _ ← reply req Server.Established;
  map_error StreamFailed (peek_recovery arrives tie pipelined target_addr).

(** The upstream spoke first: by the address. *)
Definition tunnel_by_ip (target_addr : bytes) (upstream : U) (banner : bytes) : P unit :=
  _ ← act (Relayed banner);
  _ ← on_client StreamFailed (Stream.write_all write_zero banner);
  _ ← no_delay upstream;
  forward target_addr [].

(** By the name, if there is one. *)
Definition tunnel_by_name (target_addr port buf : bytes) : P unit :=
  let effective := effective_target target_addr port buf in
  r ← establish effective;
  match r with
  | Err e => fails (NotEstablished e)
  | Ok upstream => _ ← no_delay upstream; forward effective buf
  end.

Definition recover_and_tunnel_http (req : IncomingRequest) (target_addr port pipelined : bytes) : P unit :=
  peeked ← run_phase_in_client_budget client_deadline (recovery_phase req target_addr pipelined);
  match peeked with
  | inr budget => fails (PeekTimedOut budget)
  | inl ClientClosed => mret tt
  | inl (ServerFirst upstream banner) => tunnel_by_ip target_addr upstream banner
  | inl (Client buf) => tunnel_by_name target_addr port buf
  end.
(** A SOCKS client's pipeline is not looked at. *)
Definition recover_and_tunnel (req : IncomingRequest) (target_addr port pipelined : bytes) : P unit :=
  recover_and_tunnel_http req target_addr port [].

(** ** The request *)

(** Held until the function returns, or its future is dropped. *)
Definition with_permit {A} (body : P A) : P A := fun d s =>
  match body d (log PermitTaken s) with
  | (Running, s) => (Running, s)
  | (g, s) => (g, log PermitReturned s)
  end.

Definition refuse (req : IncomingRequest) (target_addr : bytes) (e : Failure) : P unit :=
  _ ← reply_anyway req (if banned target_addr then Server.Forbidden else Server.UpstreamUnavailable);
  fails e.

Definition tunnel_to (req : IncomingRequest) (direct : bool) (pipelined : bytes) : P unit :=
  let target_addr := target req in
  r ← (if direct then establish_direct target_addr
       else r ← establish target_addr; mret (map_err NotEstablished r));
  match r with
  | Err e => refuse req target_addr e
  | Ok upstream =>
      _ ← reply req Server.Established;
      _ ← no_delay upstream;
      forward target_addr pipelined
  end.

(** The two handlers are the same code, but for the recovery. *)
Definition serve (recover : IncomingRequest -> bytes -> bytes -> bytes -> P unit) (req : IncomingRequest) : P unit :=
  let '(pipelined, req) := Server.Request.take_pipeline req in
  let target_addr := target req in
  let is_direct := match req_username req with Some user => Auth.is_direct auth user | None => false end in
  if is_direct then
    if (direct_free =? 0)%nat then reply_anyway req Server.Overloaded
    else with_permit (tunnel_to req true pipelined)
  else if recover_host_from_payload then
    match ipv4_literal_port target_addr with
    | Some port => recover req target_addr port pipelined
    | None => tunnel_to req false pipelined
    end
  else tunnel_to req false pipelined.
Definition handle_socks5_client : IncomingRequest -> P unit := serve recover_and_tunnel.
Definition handle_http_client : IncomingRequest -> P unit := serve recover_and_tunnel_http.

(** ** The client *)

Definition global_allowed : bool :=
  match allowed_clients with
  | None => true
  | Some rule => match peer with Some ip => Clients.matches rule ip | None => false end
  end.

(** The closure [accept] is given: the user's rule comes before the login. *)
Definition authenticate (credentials : Credentials) : option bool :=
  if negb (Auth.client_ip_allowed auth (Server.username credentials) peer) then Some false
  else verify_async (Server.username credentials) (Server.password credentials).

Definition options : Server.ServerOptions :=
  Server.Options.new client_deadline (Auth.allow_anonymous auth) (negb (Auth.is_empty auth)).

Definition accept : P IncomingRequest := fun d s =>
  on_client Serving (Server.accept early_eof write_zero decode str_debug authenticate first_phase second_phase options) d
    (at_time (Z.max (now s) accepted_at) s).

Definition handle_client : P unit :=
  if negb global_allowed then fails (ClientRejected peer)
  else
    req ← accept;
    match protocol req with
    | Server.Socks5 => handle_socks5_client req
    | Server.Http => handle_http_client req
    end.

(** ** What a part of it does *)

(** Between [s] and [s'], [used] was read and [new] was done. *)
Definition did (used : bytes) (new : list Act) (s s' : Session (Sh := Sh)) : Prop :=
  unread (client s) = used ++ unread (client s') /\ acts s' = acts s ++ new.

Lemma did_nothing s s' : client s' = client s -> acts s' = acts s -> did [] [] s s'.
Proof. intros Hc Ha. unfold did. by rewrite Hc, Ha, app_nil_r. Qed.
Lemma did_trans u v m n s1 s2 s3 : did u m s1 s2 -> did v n s2 s3 -> did (u ++ v) (m ++ n) s1 s3.
Proof. intros [H1 H2] [H3 H4]. unfold did. by rewrite H1, H3, H4, H2, !app_assoc. Qed.
Lemma did_then m n v s1 s2 s3 : did [] m s1 s2 -> did v n s2 s3 -> did v (m ++ n) s1 s3.
Proof. apply (did_trans []). Qed.
Lemma did_last u m n s1 s2 s3 : did u m s1 s2 -> did [] n s2 s3 -> did u (m ++ n) s1 s3.
Proof. intros H1 H2. pose proof (did_trans _ _ _ _ _ _ _ H1 H2) as H3. by rewrite app_nil_r in H3. Qed.
Lemma went_did d used s s' : went d used s s' -> acts s' = acts s -> did used [] s s'.
Proof. intros Hw Ha. split; [apply Hw | by rewrite Ha, app_nil_r]. Qed.

(** A program of the stream that reads nothing. *)
Definition reads_nothing {A Y} (m : Stream.M Credentials Y A) : Prop := forall c, unread (m c).2 = unread c.

Lemma write_all_reads_nothing {Y} `{Stream.FromIo Y} bs : reads_nothing (Stream.write_all (E := Y) write_zero bs).
Proof.
  intros c. unfold Stream.write_all. destruct (Stream.room c) as [[n e]|]; [|done].
  destruct (_ <=? _)%nat; [done|]. by destruct e.
Qed.
Lemma reply_reads_nothing req rep : reads_nothing (Server.reply write_zero req rep).
Proof.
  intros c. unfold Server.reply. destruct (Server.reply_bytes _ _) as [bs|]; [|done].
  unfold Server.send, mbind, Stream.M_bind. pose proof (write_all_reads_nothing (Y := ServerError) bs c) as Hw.
  destruct (Stream.write_all write_zero bs c) as [[[[]|]|] c1]; cbn in Hw; try done. rewrite <- Hw.
  unfold Stream.flush. destruct (Stream.room c1) as [[[|] []]|]; done.
Qed.

Lemma on_client_did {X Y A} (wrap : Y -> X) (m : Stream.M Credentials Y A) d s (g : Got (result X A)) s' :
  reads_nothing m -> on_client wrap m d s = (g, s') -> did [] [] s s' /\ g <> Crashed.
Proof.
  intros Hm. unfold on_client. specialize (Hm (client s)). destruct (m (client s)) as [[r|] c]; cbn in Hm.
  - intros [= <- <-]. split; [|done]. split; cbn; [done | by rewrite app_nil_r].
  - intros (Hh & Hw & [_ Ha])%hang_spec. split; [|by destruct d; cbn in Hh; subst g].
    split; [rewrite <- Hm; apply Hw | cbn in Ha; by rewrite Ha, app_nil_r].
Qed.

Lemma act_then {X A} a (m : R (Sh := Sh) X A) d s : (act a ≫= fun _ => m) d s = m d (log a s).
Proof. done. Qed.
Lemma did_log a u new s s' : did u new (log a s) s' -> did u (a :: new) s s'.
Proof. intros [H1 H2]. split; [done|]. rewrite H2. cbn. by rewrite <- app_assoc. Qed.

Lemma reply_did req rep d s g s' : reply req rep d s = (g, s') -> did [] [Replied rep] s s' /\ g <> Crashed.
Proof.
  unfold reply. rewrite act_then. intros [Hd Hg]%on_client_did; [|apply reply_reads_nothing].
  split; [by apply did_log | done].
Qed.
Lemma reply_anyway_did req rep d s g s' : reply_anyway req rep d s = (g, s') ->
  did [] [Replied rep] s s' /\ g <> Crashed /\ forall e, g <> Value (Err e).
Proof.
  unfold reply_anyway. destruct (reply req rep d s) as [[r| | |] s1] eqn:Er'; apply reply_did in Er' as [Hd Hg];
    intros [= <- <-]; done.
Qed.

Lemma await_did {X} t d s (g : Got (result X unit)) s' : await t d s = (g, s') -> did [] [] s s' /\ g <> Crashed.
Proof.
  intros (Hw & [_ Ha] & Hc)%await_unit_spec. split; [by apply (went_did d)|].
  destruct Hc as [[Hh _]|[-> _]]; [|done]. by destruct d; cbn in Hh; subst g.
Qed.

Lemma no_delay_did upstream d s g s' : no_delay upstream d s = (g, s') -> s' = s /\ g <> Crashed.
Proof.
  unfold no_delay. destruct (Fragment.enabled frag); [|by intros [= <- <-]].
  destruct (nodelay upstream) as [[]|e]; by intros [= <- <-].
Qed.

(** A tunnel whose first bytes fit does not crash. *)
Lemma forward_did target_addr initial d s g s' : forward target_addr initial d s = (g, s') ->
  did [] [Tunnelled target_addr initial] s s' /\ ((length initial <= Tunnel.PREFIX_CAP)%nat -> g <> Crashed).
Proof.
  unfold forward. destruct (Tunnel.forward_tunnel _ _ _ _ _ _ _ _ _) as [r t| |] eqn:Ef; intros [= <- <-].
  1-3: split; [split; [done | done] |]; try done.
  intros Hl _. revert Ef. unfold Tunnel.forward_tunnel, Tunnel.forwarding.
  destruct (Tunnel.prepare_payload _ _ _ _ _ _ _) as [r p] eqn:Ep.
  apply Tunnel.payload_prepared in Ep as [Hp _]; [|done]. cbn [fst].
  destruct r; try done; try (by repeat case_match).
Qed.

Lemma dial_direct_did target_addr d s g s' : dial_direct target_addr d s = (g, s') ->
  did [] [] s s' /\ g <> Crashed /\ forall e, g <> Value (Err e).
Proof.
  assert (Hlate : forall t (r : result Failure U) d s g s', (_ ← await t; mret r) d s = (g, s') ->
    did [] [] s s' /\ g <> Crashed /\ forall e : Failure, g <> Value (Err e)).
  { clear. intros t r d s g s' [([] & s1 & Ha & [= <- <-]) | (g1 & Ha & Hg)]%bind_cases.
    - by apply await_did in Ha as [Hd _].
    - pose proof Ha as (_ & _ & Hc)%await_unit_spec. apply await_did in Ha as [Hd Hg'].
      destruct Hc as [[Hh _]|[-> _]]; [|done]. destruct d; cbn in Hh; subst g1; destruct g; done. }
  unfold dial_direct. destruct (tcp_connect target_addr (now s)) as [[t r]|]; [destruct (_ <=? _)|]; apply Hlate.
Qed.

(** ** Through the pool or past it *)

(** What dialing the target comes to when it begins at [start], with [σ] shared: a
    connection, or none (past the pool: a banned target, an error, or too late). *)
Definition got_through (direct : bool) (target_addr : bytes) (start : Z) (σ : Sh) : Prop :=
  if direct then
    banned target_addr = false /\
    exists t u, tcp_connect target_addr start = Ready (t, Ok u) /\ Z.max start t <= start + connect_timeout
  else exists t u σ', establish_connection target_addr start σ = (Ready (t, Ok u), σ').
Definition fell_through (direct : bool) (target_addr : bytes) (start : Z) (σ : Sh) : Prop :=
  if direct then
    banned target_addr = true \/
    match tcp_connect target_addr start with
    | Ready (t, Ok _) => start + connect_timeout < Z.max start t
    | _ => True
    end
  else exists t e σ', establish_connection target_addr start σ = (Ready (t, Err e), σ').

Lemma dial_direct_result target_addr d s (r : result Failure U) s' : banned target_addr = false ->
  dial_direct target_addr d s = (Value (Ok r), s') ->
  match r with
  | Ok _ => got_through true target_addr (now s) (shared s)
  | Err _ => fell_through true target_addr (now s) (shared s)
  end.
Proof.
  intros Hb. assert (Hthen : forall t (r1 : result Failure U), (_ ← await (X := Failure) t; mret r1) d s = (Value (Ok r), s') -> r1 = r).
  { intros t r1. intros [([] & s1 & _ & [= <- _]) | (g1 & Ha & Hg)]%bind_cases; [done|].
    apply await_unit_spec in Ha as (_ & _ & [[Hh _]|[-> _]]); [|done]. by destruct d; cbn in Hh; subst g1. }
  unfold dial_direct, got_through, fell_through. destruct (tcp_connect target_addr (now s)) as [[t rt]|].
  - destruct (Z.leb_spec (Z.max (now s) t) (now s + connect_timeout)) as [Hle|Hgt]; intros <-%Hthen.
    + destruct rt as [u|e]; cbn; [split; [done|]; by exists t, u | by right].
    + right. by destruct rt.
  - intros <-%Hthen. by right.
Qed.

(** What dialing shows as. *)
Definition dial_act (direct : bool) (target_addr : bytes) : Act :=
  if direct then ConnectingDirect target_addr else Connecting target_addr.

(** The courses of a plain request. *)
Inductive plain_course (start : Z) (σ : Sh) (target_addr : bytes) (direct : bool) (pipelined : bytes) : list Act -> Prop :=
| plain_unasked : direct = true -> banned target_addr = true ->
    plain_course start σ target_addr direct pipelined [Replied Server.Forbidden]
| plain_waiting : (direct = true -> banned target_addr = false) ->
    plain_course start σ target_addr direct pipelined [dial_act direct target_addr]
| plain_refused : (direct = true -> banned target_addr = false) -> fell_through direct target_addr start σ ->
    plain_course start σ target_addr direct pipelined
      [dial_act direct target_addr; Replied (if banned target_addr then Server.Forbidden else Server.UpstreamUnavailable)]
| plain_granted : banned target_addr = false -> got_through direct target_addr start σ ->
    plain_course start σ target_addr direct pipelined [dial_act direct target_addr; Replied Server.Established]
| plain_tunnelled : banned target_addr = false -> got_through direct target_addr start σ ->
    plain_course start σ target_addr direct pipelined
      [dial_act direct target_addr; Replied Server.Established; Tunnelled target_addr pipelined].

Lemma establish_did {X} target_addr d s (g : Got (result X (result Er U))) s' : establish target_addr d s = (g, s') ->
  did [] [Connecting target_addr] s s' /\ g <> Crashed /\ (forall e, g <> Value (Err e)) /\
  (forall r, g = Value (Ok r) -> exists t σ', establish_connection target_addr (now s) (shared s) = (Ready (t, r), σ')).
Proof.
  intros (Hw & Hd & Hc)%establish_spec. split; [split; [apply Hw | done]|].
  split; [by intros ->|]. split; [by intros e ->|]. intros r ->. destruct Hc as [t Ht]. by exists t, (shared s').
Qed.
Lemma established_reached target_addr t start σ u σ' : establish_connection target_addr start σ = (Ready (t, Ok u), σ') ->
  reached target_addr.
Proof. intros He. by exists start, σ, t, u, σ'. Qed.

(** The first half: an upstream, or why there is none. *)
Definition connecting (direct : bool) (target_addr : bytes) : P (result Failure U) :=
  if direct then establish_direct target_addr
  else r ← establish target_addr; mret (map_err NotEstablished r).

Lemma connecting_did direct target_addr d s g s' : connecting direct target_addr d s = (g, s') ->
  g <> Crashed /\ (forall e, g <> Value (Err e)) /\
  (direct = true /\ banned target_addr = true /\ did [] [] s s' /\ (exists e, g = Value (Ok (Err e))) \/
   (direct = true -> banned target_addr = false) /\ did [] [dial_act direct target_addr] s s' /\
   forall r, g = Value (Ok r) ->
     match r with
     | Ok _ => got_through direct target_addr (now s) (shared s)
     | Err _ => fell_through direct target_addr (now s) (shared s)
     end).
Proof.
  unfold connecting. destruct direct.
  - unfold establish_direct. destruct (banned target_addr) eqn:Hb.
    + intros [= <- <-]. split; [done|]. split; [done|]. left. split; [done|]. split; [done|].
      split; [by apply did_nothing | by eexists].
    + rewrite act_then. intros Hdial. pose proof Hdial as (Hd & Hg & He)%dial_direct_did. split; [done|]. split; [done|]. right.
      split; [done|]. split; [by apply did_log|]. intros r ->. by apply (dial_direct_result _ _ _ _ _ Hb) in Hdial.
  - intros [(r & s1 & Ha & [= <- <-]) | (g1 & Ha & Hg)]%bind_cases; apply establish_did in Ha as (Hd & Hn & He & Hb).
    + split; [done|]. split; [done|]. right. split; [done|]. split; [done|].
      intros r' [= <-]. destruct (Hb r eq_refl) as (t & σ' & Hes). destruct r as [u|e]; cbn; by eexists _, _, _.
    + destruct g1 as [[a|e]| | |]; [done | by destruct (He e) | | | done]; destruct g; try done;
        (split; [done|]; split; [done|]; right; split; [done|]; by split).
Qed.

Lemma through_allowed direct target_addr start σ : (direct = true -> banned target_addr = false) ->
  got_through direct target_addr start σ -> banned target_addr = false.
Proof.
  destruct direct; [by intros Hb _; apply Hb|]. intros _ (t & u & σ' & He). by apply reached_allowed, (established_reached _ _ _ _ _ _ He).
Qed.

Lemma tunnel_to_course req direct pipelined d s g s' : tunnel_to req direct pipelined d s = (g, s') ->
  exists new, did [] new s s' /\ plain_course (now s) (shared s) (target req) direct pipelined new /\
    ((length pipelined <= Tunnel.PREFIX_CAP)%nat -> g <> Crashed).
Proof.
  unfold tunnel_to. change (if direct then establish_direct (target req) else _) with (connecting direct (target req)).
  intros [(r & s1 & Ha & Hm) | (g1 & Ha & Hg)]%bind_cases; apply connecting_did in Ha as (Hn & He & Hc).
  - assert (Hrefuse : forall e, refuse req (target req) e d s1 = (g, s') ->
      did [] [Replied (if banned (target req) then Server.Forbidden else Server.UpstreamUnavailable)] s1 s' /\ g <> Crashed).
    { clear. intros e. unfold refuse. intros [([] & s2 & Hr & [= <- <-]) | (g1 & Hr & Hg)]%bind_cases;
        apply reply_anyway_did in Hr as (Hd & Hr & He); (split; [done|]); [done|].
      by destruct g1 as [[]| | |], g. }
    destruct r as [upstream|e].
    + destruct Hc as [(_ & _ & _ & e & [=])|(Hb & Hd & Hok)]. specialize (Hok _ eq_refl). cbn in Hok.
      pose proof (through_allowed _ _ _ _ Hb Hok) as Hnb.
      apply bind_cases in Hm as [([] & s2 & Hr & Hm) | (g1 & Hr & Hg)]; apply reply_did in Hr as [Hr Hrn].
      * apply bind_cases in Hm as [([] & s3 & Hnd & Hm) | (g1 & Hnd & Hg)]; apply no_delay_did in Hnd as [-> Hnd].
        -- apply forward_did in Hm as [Hf Hfn]. eexists. split; [|split; [by apply plain_tunnelled | done]].
           exact (did_then [_] [_; _] _ _ _ _ Hd (did_then [_] [_] _ _ _ _ Hr Hf)).
        -- eexists. split; [exact (did_then [_] [_] _ _ _ _ Hd Hr)|]. split; [by apply plain_granted|].
           by destruct g1 as [[]| | |], g.
      * eexists. split; [exact (did_then [_] [_] _ _ _ _ Hd Hr)|]. split; [by apply plain_granted|].
        by destruct g1 as [[]| | |], g.
    + apply Hrefuse in Hm as [Hr Hrn]. destruct Hc as [(Hdir & Hban & Hd & _)|(Hb & Hd & Hbad)].
      * rewrite Hban in Hr. eexists. split; [exact (did_then [] [_] _ _ _ _ Hd Hr)|].
        split; [by apply plain_unasked | done].
      * specialize (Hbad _ eq_refl). eexists. split; [exact (did_then [_] [_] _ _ _ _ Hd Hr)|]. split; [by apply plain_refused | done].
  - destruct Hc as [(_ & _ & _ & e & ->)|(Hb & Hd & _)]; [by destruct g as [[]| | |]|].
    eexists. split; [exact Hd|]. split; [by apply plain_waiting|]. by destruct g1 as [[]| | |], g.
Qed.

(** ** By the name *)

(** The courses of a recovery, and what is read of the client in them. *)
Inductive recovery_course (target_addr port pipelined : bytes) : bytes -> list Act -> Prop :=
| recovery_late : recovery_course target_addr port pipelined [] []
| recovery_peeking used : recovery_course target_addr port pipelined used [Replied Server.Established]
| recovery_dialed used : pipelined = [] ->
    recovery_course target_addr port pipelined used [Replied Server.Established; Connecting target_addr]
| recovery_greeted banner : pipelined = [] -> reached target_addr ->
    recovery_course target_addr port pipelined [] [Replied Server.Established; Connecting target_addr; Relayed banner]
| recovery_tunnelled_ip banner : pipelined = [] -> reached target_addr ->
    recovery_course target_addr port pipelined []
      [Replied Server.Established; Connecting target_addr; Relayed banner; Tunnelled target_addr []]
| recovery_named early used t : (early = [] \/ pipelined = [] /\ early = [Connecting target_addr]) ->
    t = effective_target target_addr port (pipelined ++ used) ->
    recovery_course target_addr port pipelined used (Replied Server.Established :: early ++ [Connecting t])
| recovery_tunnelled early used t : (early = [] \/ pipelined = [] /\ early = [Connecting target_addr]) ->
    t = effective_target target_addr port (pipelined ++ used) -> reached t ->
    (length (pipelined ++ used) <= Nat.max (length pipelined) PEEK_MAX)%nat ->
    recovery_course target_addr port pipelined used
      (Replied Server.Established :: early ++ [Connecting t; Tunnelled t (pipelined ++ used)]).

Lemma tunnel_by_ip_did target_addr upstream banner d s g s' : tunnel_by_ip target_addr upstream banner d s = (g, s') ->
  g <> Crashed /\ (did [] [Relayed banner] s s' \/ did [] [Relayed banner; Tunnelled target_addr []] s s').
Proof.
  unfold tunnel_by_ip. rewrite act_then.
  intros [([] & s2 & Hr & Hm) | (g1 & Hr & Hg)]%bind_cases; apply on_client_did in Hr as [Hr Hrn];
    try apply write_all_reads_nothing; apply did_log in Hr.
  - apply bind_cases in Hm as [([] & s3 & Hnd & Hm) | (g1 & Hnd & Hg)]; apply no_delay_did in Hnd as [-> Hnd].
    + apply forward_did in Hm as [Hf Hfn]. split; [apply Hfn; cbn; lia|]. right. exact (did_then [_] [_] _ _ _ _ Hr Hf).
    + split; [by destruct g1 as [[]| | |], g | by left].
  - split; [by destruct g1 as [[]| | |], g | by left].
Qed.

Lemma tunnel_by_name_did target_addr port buf d s g s' : tunnel_by_name target_addr port buf d s = (g, s') ->
  let t := effective_target target_addr port buf in
  ((length buf <= Tunnel.PREFIX_CAP)%nat -> g <> Crashed) /\
  (did [] [Connecting t] s s' \/ reached t /\ did [] [Connecting t; Tunnelled t buf] s s').
Proof.
  unfold tunnel_by_name. cbn zeta. set (t := effective_target _ _ _).
  intros [(r & s1 & Ha & Hm) | (g1 & Ha & Hg)]%bind_cases; apply establish_did in Ha as (Hd & Hn & He & Hb).
  - destruct r as [upstream|e]; [|injection Hm as <- <-; split; [done | by left]].
    assert (Hnb : reached t) by (destruct (Hb _ eq_refl) as (t0 & σ' & Hes); by apply (established_reached _ _ _ _ _ _ Hes)).
    apply bind_cases in Hm as [([] & s3 & Hnd & Hm) | (g1 & Hnd & Hg)]; apply no_delay_did in Hnd as [-> Hnd].
    + apply forward_did in Hm as [Hf Hfn]. split; [done|]. right. split; [done|]. exact (did_then [_] [_] _ _ _ _ Hd Hf).
    + split; [by destruct g1 as [[]| | |], g | by left].
  - split; [by destruct g1 as [[]| | |], g | by left].
Qed.

Lemma fits_prefix : PEEK_MAX = Tunnel.PREFIX_CAP.
Proof. reflexivity. Qed.
Lemma within_prefix (k n : nat) : (k <= 1024)%nat -> (n <= Nat.max k PEEK_MAX)%nat -> (n <= Tunnel.PREFIX_CAP)%nat.
Proof. pose proof read_fits as Hp. rewrite fits_prefix in *. lia. Qed.

Lemma recovery_phase_did req target_addr pipelined d s g s' : recovery_phase req target_addr pipelined d s = (g, s') ->
  g <> Crashed /\ exists used early, did used (Replied Server.Established :: early) s s' /\
    (early = [] \/ early = [Connecting target_addr] /\ pipelined = []) /\
    match g with
    | Value (Ok (Client p)) => p = pipelined ++ used /\ (length p <= Nat.max (length pipelined) PEEK_MAX)%nat
    | Value (Ok (ServerFirst _ _)) => pipelined = [] /\ used = [] /\ early = [Connecting target_addr] /\ reached target_addr
    | _ => True
    end.
Proof.
  unfold recovery_phase. intros [([] & s1 & Ha & Hm) | (g1 & Ha & Hg)]%bind_cases; apply reply_did in Ha as [Hd Hn].
  - unfold map_error in Hm. destruct (peek_recovery _ _ _ _ _ _) as [g1 s2] eqn:Ep.
    apply peek_spec in Ep as (used & Hw & Hf & Ha).
    assert (Hearly : exists early, did used (Replied Server.Established :: early) s s2 /\
      (early = [] \/ early = [Connecting target_addr] /\ pipelined = []) /\
      (dialed_from target_addr s1 s2 -> early = [Connecting target_addr])).
    { destruct Ha as [[_ Ha]|(Hp & _ & _ & Ha)].
      - exists []. split; [exact (did_then [_] [] _ _ _ _ Hd (went_did _ _ _ _ Hw Ha))|]. split; [by left|].
        unfold dialed_from. rewrite Ha. intros Hx. apply (f_equal length) in Hx. rewrite length_app in Hx. cbn in Hx. lia.
      - exists [Connecting target_addr]. split; [|split; [by right | done]].
        apply (did_then [_] [_] _ _ _ _ Hd). split; [apply Hw | exact Ha]. }
    destruct Hearly as (early & Hdid & Hearly & Hin).
    destruct g1 as [[[p| |u b]|e]| | |]; injection Hm as <- <-; (split; [done|]); exists used, early;
      (split; [done|]); (split; [done|]); try done; cbn in Hf.
    + destruct Hf as (-> & _ & Hl & _). done.
    + destruct Hf as (-> & -> & _ & Hf & Hb). split; [done|]. split; [done|]. by split; [apply Hin|].
  - split; [by destruct g1 as [[]| | |], g|]. exists [], []. split; [done|]. split; [by left|]. by destruct g1 as [[]| | |], g as [[]| | |].
Qed.

(** The phase keeps to its deadline. *)
Lemma on_client_by {X Y A} (wrap : Y -> X) (m : Stream.M Credentials Y A) t (s : Session (Sh := Sh)) (g : Got (result X A)) s' :
  on_client wrap m (Some t) s = (g, s') -> now s <= t -> now s' <= t.
Proof. unfold on_client. destruct (m (client s)) as [[r|] c]; intros [= <- <-]; cbn; lia. Qed.
Lemma recovery_phase_by req target_addr pipelined t s g s' :
  recovery_phase req target_addr pipelined (Some t) s = (g, s') -> now s <= t -> now s' <= t.
Proof.
  unfold recovery_phase. intros [([] & s1 & Ha & Hm) | (g1 & Ha & _)]%bind_cases Hs;
    unfold reply in Ha; rewrite act_then in Ha; apply on_client_by in Ha; try done.
  unfold map_error in Hm. destruct (peek_recovery _ _ _ _ _ _) as [g1 s2] eqn:Ep.
  apply peek_spec in Ep as (used & Hw & _). pose proof (went_by _ _ _ _ Hw t eq_refl Ha) as Hb.
  by destruct g1; injection Hm as <- <-.
Qed.

Lemma recovery_course_of req target_addr port pipelined d s g s' :
  recover_and_tunnel_http req target_addr port pipelined d s = (g, s') ->
  exists used new, did used new s s' /\ recovery_course target_addr port pipelined used new /\
    ((length pipelined <= Tunnel.PREFIX_CAP)%nat -> g <> Crashed).
Proof.
  unfold recover_and_tunnel_http.
  intros [(peeked & s1 & Ha & Hm) | (g1 & Ha & Hg)]%bind_cases;
    apply phase_spec in Ha as [(_ & Hx & ->)|(_ & g2 & Hop & Hx)].
  - injection Hx as ->. injection Hm as <- <-. exists [], []. split; [by apply did_nothing|]. split; [constructor | done].
  - apply recovery_phase_did in Hop as (Hn & used & early & Hd & He & Hf).
    assert (Hstop : recovery_course target_addr port pipelined used (Replied Server.Established :: early)).
    { destruct He as [->|[-> Hp]]; by constructor. }
    destruct peeked as [[p| |u b]|bud].
    + destruct g2 as [[p'|e]| | |]; try done. subst p'. destruct Hf as [-> Hl].
      apply tunnel_by_name_did in Hm as [Hcr Ht]. exists used.
      assert (He' : early = [] \/ pipelined = [] /\ early = [Connecting target_addr]) by tauto.
      destruct Ht as [Ht|[Hb Ht]]; (eexists; split; [|split]).
      * exact (did_last _ (_ :: early) [_] _ _ _ Hd Ht).
      * by apply recovery_named.
      * intros Hle. apply Hcr. rewrite fits_prefix in Hl. lia.
      * exact (did_last _ (_ :: early) [_; _] _ _ _ Hd Ht).
      * by apply recovery_tunnelled.
      * intros Hle. apply Hcr. rewrite fits_prefix in Hl. lia.
    + injection Hm as <- <-. exists used, (Replied Server.Established :: early). done.
    + destruct g2 as [[p'|e]| | |]; try done. subst p'. destruct Hf as (Hp & -> & -> & Hb).
      apply tunnel_by_ip_did in Hm as [Hcr Ht]. exists [].
      destruct Ht as [Ht|Ht]; (eexists; split; [|split; [|done]]).
      * exact (did_then [_; _] [_] _ _ _ _ Hd Ht).
      * by apply recovery_greeted.
      * exact (did_then [_; _] [_; _] _ _ _ _ Hd Ht).
      * by apply recovery_tunnelled_ip.
    + injection Hm as <- <-. exists used, (Replied Server.Established :: early). done.
  - subst g1. by destruct g.
  - apply recovery_phase_did in Hop as (Hn & used & early & Hd & He & Hf).
    exists used, (Replied Server.Established :: early). split; [done|]. split.
    + destruct He as [->|[-> Hp]]; by constructor.
    + destruct g1 as [[[]|e]| | |], g as [[]| | |], g2 as [[]| | |]; done.
Qed.

(** ** The courses of a request *)

Definition direct_user (req : IncomingRequest) : bool :=
  match req_username req with Some user => Auth.is_direct auth user | None => false end.

(** Whether the client is answered before anything is established: its request goes
    through the pool to an address, and the name it wants is looked for. *)
Definition answered_early (req : IncomingRequest) : bool :=
  negb (direct_user req) && recover_host_from_payload && bool_decide (is_Some (ipv4_literal_port (target req))).

Inductive serve_course (start : Z) (σ : Sh) (req : IncomingRequest) (running : bool) : bytes -> list Act -> Prop :=
| served_overloaded : direct_user req = true -> direct_free = 0%nat ->
    serve_course start σ req running [] [Replied Server.Overloaded]
| served_direct new : direct_user req = true -> (0 < direct_free)%nat ->
    plain_course start σ (target req) true (pipeline req) new ->
    serve_course start σ req running [] (PermitTaken :: new ++ if running then [] else [PermitReturned])
| served_plain new : direct_user req = false -> answered_early req = false ->
    plain_course start σ (target req) false (pipeline req) new ->
    serve_course start σ req running [] new
| served_recovery port used new : direct_user req = false -> recover_host_from_payload = true ->
    ipv4_literal_port (target req) = Some port -> recovery_course (target req) port (pipeline req) used new ->
    serve_course start σ req running used new.

Definition is_running {A} (g : Got A) : bool := match g with Running => true | _ => false end.

Lemma serve_course_of recover req d s g s' : (length (pipeline req) <= 1024)%nat ->
  recover = recover_and_tunnel_http \/ recover = recover_and_tunnel /\ pipeline req = [] ->
  serve recover req d s = (g, s') ->
  exists used new, did used new s s' /\ serve_course (now s) (shared s) req (is_running g) used new /\ g <> Crashed.
Proof.
  intros Hl Hrec. unfold serve. cbn [Server.Request.take_pipeline]. set (req' := Server.mkRequest _ _ _ _ _ _).
  change (target req') with (target req). change (match req_username req' with Some user => _ | None => _ end) with (direct_user req).
  assert (Hfit : (length (pipeline req) <= Tunnel.PREFIX_CAP)%nat) by (apply (within_prefix _ _ Hl); lia).
  assert (Hplain : forall d s g s', direct_user req = false -> answered_early req = false -> tunnel_to req' false (pipeline req) d s = (g, s') ->
    exists used new, did used new s s' /\ serve_course (now s) (shared s) req (is_running g) used new /\ g <> Crashed).
  { intros d0 s0 g0 s0' Hd Hea (new & H1 & H2 & H3)%tunnel_to_course. exists [], new.
    split; [done|]. split; [by apply served_plain | auto]. }
  destruct (direct_user req) eqn:Hd.
  - destruct (Nat.eqb_spec direct_free 0) as [Hz|Hz].
    + intros (H1 & H2 & _)%reply_anyway_did. exists [], [Replied Server.Overloaded].
      split; [done|]. split; [by apply served_overloaded | done].
    + unfold with_permit. destruct (tunnel_to req' true (pipeline req) d (log PermitTaken s)) as [g1 s1] eqn:Et.
      apply tunnel_to_course in Et as (new & H1 & H2 & H3). apply did_log in H1. intros Hg.
      exists [], (PermitTaken :: new ++ if is_running g then [] else [PermitReturned]).
      specialize (H3 Hfit). assert (g = g1) as -> by (by destruct g1; injection Hg as <- <-).
      split; [|split; [apply served_direct; [done | lia | done] | done]].
      destruct (is_running g1) eqn:Er'.
      * rewrite app_nil_r. by destruct g1; injection Hg as <-.
      * change (PermitTaken :: new ++ [PermitReturned]) with ((PermitTaken :: new) ++ [PermitReturned]).
        apply (did_last _ _ _ _ s1); [done|]. by destruct g1; injection Hg as <-; split.
  - destruct recover_host_from_payload eqn:Hr; [|by apply Hplain; [|unfold answered_early; rewrite Hd, Hr]].
    destruct (ipv4_literal_port (target req)) as [port|] eqn:Hp.
    2:{ apply Hplain; [done|]. unfold answered_early. rewrite Hp, bool_decide_false by (by intros [? ?]). apply andb_false_r. }
    assert (Hsame : recover req' (target req) port (pipeline req) d s = recover_and_tunnel_http req' (target req) port (pipeline req) d s).
    { destruct Hrec as [->|[-> ->]]; reflexivity. }
    rewrite Hsame. intros (used & new & H1 & H2 & H3)%recovery_course_of. exists used, new.
    split; [done|]. split; [by apply (served_recovery _ _ _ _ port) | auto].
Qed.

Lemma accept_did d s g s' : accept d s = (g, s') ->
  acts s' = acts s /\ g <> Crashed /\
  forall req, g = Value (Ok req) -> now s' = Z.max (now s) accepted_at /\ shared s' = shared s /\
    Server.accept early_eof write_zero decode str_debug authenticate first_phase second_phase options (client s)
    = (Ready (Ok req), client s').
Proof.
  unfold accept, on_client. cbn [client at_time].
  destruct (Server.accept _ _ _ _ _ _ _ _ (client s)) as [[r|] c].
  - intros [= <- <-]. split; [done|]. split; [done|]. intros req. by destruct r as [r|e]; intros [= ->].
  - intros (Hh & _ & [_ Ha])%hang_spec. split; [done|]. by destruct d; cbn in Hh; subst g.
Qed.

(** A client that was turned away, or served. *)
Lemma handle_cases d s g s' : handle_client d s = (g, s') ->
  g <> Crashed /\
  (acts s' = acts s \/
   exists req c used new, global_allowed = true /\
     Server.accept early_eof write_zero decode str_debug authenticate first_phase second_phase options (client s) = (Ready (Ok req), c) /\
     unread c = used ++ unread (client s') /\ acts s' = acts s ++ new /\ serve_course (Z.max (now s) accepted_at) (shared s) req (is_running g) used new).
Proof.
  unfold handle_client. destruct global_allowed eqn:Hga; cbn [negb].
  - intros [(req & s1 & Ha & Hm) | (g1 & Ha & Hg)]%bind_cases; apply accept_did in Ha as (Ha & Hn & Hreq).
    + destruct (Hreq req eq_refl) as (Hnow & Hsh & Hacc). pose proof Hacc as [Hl Hp]%Server.accept_ahead.
      assert (exists used new, did used new s1 s' /\ serve_course (now s1) (shared s1) req (is_running g) used new /\ g <> Crashed)
        as (used & new & [Hu Hd] & Hc & Hcr).
      { destruct (protocol req); eapply serve_course_of; try exact Hm; auto. }
      split; [done|]. right. exists req, (client s1), used, new. split; [done|]. split; [done|]. split; [done|].
      split; [by rewrite Hd, Ha | by rewrite <- Hnow, <- Hsh].
    + split; [by destruct g1 as [[]| | |], g | by left].
  - intros [= <- <-]. split; [done | by left].
Qed.

(** ** The protocol of a session *)






Lemma effective_cases target_addr port buf :
  effective_target target_addr port buf = target_addr \/
  exists host, recovered_host buf = Some host /\ effective_target target_addr port buf = host ++ lit ":" ++ port.
Proof. unfold effective_target. destruct (recovered_host buf) as [host|]; [right; by exists host | by left]. Qed.

(** ** What the requests share *)

(** An invariant of it that establishing keeps, over or dropped. *)
Section Shared.
Variable I : Sh -> Prop.
Hypothesis established_keeps : forall t now σ, I σ -> I (establish_connection t now σ).2.
Hypothesis dropped_keeps : forall t start stop σ, I σ -> I (dropped t start stop σ).

Definition keeps {X A} (m : R (Sh := Sh) X A) : Prop := forall d s g s', m d s = (g, s') -> I (shared s) -> I (shared s').

Lemma keeps_bind {X A B} (m : R (Sh := Sh) X A) (f : A -> R (Sh := Sh) X B) :
  keeps m -> (forall a, keeps (f a)) -> keeps (m ≫= f).
Proof.
  intros Hm Hf d s g s' [(a & s1 & Ha & Hb)|(g1 & Ha & _)]%bind_cases Hs.
  - by apply (Hf a _ _ _ _ Hb), (Hm _ _ _ _ Ha).
  - by apply (Hm _ _ _ _ Ha).
Qed.
Lemma keeps_same {X A} (m : R (Sh := Sh) X A) : (forall d s, shared (m d s).2 = shared s) -> keeps m.
Proof. intros Hm d s g s' Hr Hs. specialize (Hm d s). rewrite Hr in Hm. cbn in Hm. by rewrite Hm. Qed.

Lemma keeps_ret {X A} (a : A) : keeps (mret a : R (Sh := Sh) X A).
Proof. by apply keeps_same. Qed.
Lemma keeps_fails {X A} (e : X) : keeps (fails e : R (Sh := Sh) X A).
Proof. by apply keeps_same. Qed.
Lemma keeps_act {X} a : keeps (act a : R (Sh := Sh) X unit).
Proof. by apply keeps_same. Qed.
Lemma keeps_hang {X A} : keeps (hang : R (Sh := Sh) X A).
Proof. apply keeps_same. by intros []. Qed.
Lemma keeps_await {X} t : keeps (await t : R (Sh := Sh) X unit).
Proof. intros d s g s' (_ & [Hs _] & _)%await_unit_spec. by rewrite Hs. Qed.
Lemma keeps_on_client {X Y A} (wrap : Y -> X) (m : Stream.M Credentials Y A) : keeps (on_client (Sh := Sh) wrap m).
Proof. apply keeps_same. intros d s. unfold on_client. by destruct (m (client s)) as [[r|] c], d. Qed.
Lemma keeps_if {X A} (b : bool) (m n : R (Sh := Sh) X A) : keeps m -> keeps n -> keeps (if b then m else n).
Proof. by destruct b. Qed.
(** A program that looks at the session. *)
Lemma keeps_at {X A} (f : Session (Sh := Sh) -> R (Sh := Sh) X A) : (forall s, keeps (f s)) -> keeps (fun d s => f s d s).
Proof. intros Hf d s. apply Hf. Qed.
Create HintDb keeps.
#[local] Hint Resolve keeps_bind keeps_ret keeps_fails keeps_act keeps_hang keeps_await keeps_on_client keeps_if : keeps.

Lemma keeps_read {X} (wrap : IoError -> X) n : keeps (read (Sh := Sh) arrives wrap n).
Proof. unfold read. apply (keeps_at (fun s => _ ← await (readable arrives s); on_client wrap (Stream.read n))). auto with keeps. Qed.
Lemma keeps_establish {X} t : keeps (establish t : R (Sh := Sh) X (result Er U)).
Proof.
  intros d s g s'. unfold establish. pose proof (established_keeps t (now s) (shared s)) as He.
  destruct (establish_connection t (now s) (shared s)) as [r σ]. cbn in He.
  destruct (await _ _ _) as [g1 s1] eqn:Ha. apply await_unit_spec in Ha as (_ & [Hs _] & _). cbn in Hs.
  destruct g1; [destruct r as [[? ?]|]| | |]; intros [= <- <-]; cbn; rewrite ?Hs; auto.
Qed.
#[local] Hint Resolve keeps_read keeps_establish : keeps.

Lemma keeps_prefix_peek buf : keeps (prefix_peek (U := U) (Sh := Sh) arrives buf).
Proof.
  apply keeps_bind; [|auto with keeps]. unfold read_recovery_prefix. generalize (S PEEK_MAX). intros fuel. revert buf.
  induction fuel as [|fuel IH]; intros buf; cbn [read_prefix]; auto with keeps.
Qed.
#[local] Hint Resolve keeps_prefix_peek : keeps.
Lemma keeps_client_first : keeps (client_first (U := U) (Sh := Sh) arrives).
Proof. unfold client_first, client_prefix. auto with keeps. Qed.
#[local] Hint Resolve keeps_client_first : keeps.
Lemma keeps_greeted u : keeps (greeted (Sh := Sh) arrives tie u).
Proof.
  intros d s g s'. unfold greeted. destruct (sooner _ _ _); [apply keeps_client_first|].
  apply keeps_bind; [auto with keeps|]. intros _. destruct (greets u (now s)) as [[t [[|]|]]|]; auto with keeps.
Qed.
#[local] Hint Resolve keeps_greeted : keeps.
Lemma keeps_connect_race t : keeps (connect_race (Sh := Sh) arrives tie t).
Proof.
  intros d s g s'. unfold connect_race. destruct (establish_connection t (now s) (shared s)) as [r σ].
  destruct (sooner _ _ _).
  - intros Hr Hs. apply (keeps_client_first _ _ _ _ Hr). cbn. auto.
  - apply keeps_bind; [auto with keeps|]. intros [u|e]; auto with keeps.
Qed.
#[local] Hint Resolve keeps_connect_race : keeps.
Lemma keeps_peek initial t : keeps (peek_recovery (Sh := Sh) arrives tie initial t).
Proof.
  unfold peek_recovery. destruct (negb _); [auto with keeps|]. intros d s g s'.
  destruct (match readable _ _ with Some _ => _ | None => _ end); [apply keeps_client_first|].
  apply keeps_bind; auto with keeps.
Qed.
Lemma keeps_map_error {X Y A} (f : X -> Y) (m : R (Sh := Sh) X A) : keeps m -> keeps (map_error f m).
Proof. intros Hm d s g s'. unfold map_error. specialize (Hm d s). destruct (m d s) as [[]]; intros [= <- <-]; eauto. Qed.
Lemma keeps_phase {X A} t (m : R (Sh := Sh) X A) : keeps m -> keeps (run_phase_in_client_budget t m).
Proof.
  intros Hm d s g s' [(_ & _ & ->)|(_ & g1 & Hop & _)]%phase_spec; [done|]. by apply (Hm _ _ _ _ Hop).
Qed.
#[local] Hint Resolve keeps_peek keeps_map_error keeps_phase : keeps.

Lemma keeps_reply req rep : keeps (reply req rep).
Proof. unfold reply. auto with keeps. Qed.
#[local] Hint Resolve keeps_reply : keeps.
Lemma keeps_reply_anyway req rep : keeps (reply_anyway req rep).
Proof.
  intros d s g s'. unfold reply_anyway. pose proof (keeps_reply req rep d s) as Hr.
  destruct (reply req rep d s) as [[]]; intros [= <- <-]; eauto.
Qed.
Lemma keeps_forward t initial : keeps (forward t initial).
Proof. apply keeps_same. intros d s. unfold forward. by destruct (Tunnel.forward_tunnel _ _ _ _ _ _ _ _ _). Qed.
Lemma keeps_no_delay u : keeps (no_delay u).
Proof. unfold no_delay. destruct (nodelay u); auto with keeps. Qed.
Lemma keeps_dial_direct t : keeps (dial_direct t).
Proof.
  intros d s g s'. unfold dial_direct. destruct (tcp_connect t (now s)) as [[t' r]|]; [destruct (_ <=? _)|];
    apply keeps_bind; auto with keeps.
Qed.
#[local] Hint Resolve keeps_reply_anyway keeps_forward keeps_no_delay keeps_dial_direct : keeps.
Lemma keeps_connecting direct t : keeps (connecting direct t).
Proof. unfold connecting, establish_direct. auto with keeps. Qed.
Lemma keeps_tunnel_to req direct pipelined : keeps (tunnel_to req direct pipelined).
Proof.
  unfold tunnel_to. apply keeps_bind; [apply keeps_connecting|]. intros [u|e]; unfold refuse; auto with keeps.
Qed.
Lemma keeps_recover req t port pipelined : keeps (recover_and_tunnel_http req t port pipelined).
Proof.
  unfold recover_and_tunnel_http, recovery_phase. apply keeps_bind; [auto with keeps|].
  intros [[buf| |u banner]|budget]; [| |unfold tunnel_by_ip|]; auto with keeps.
  unfold tunnel_by_name. apply keeps_bind; [auto with keeps|]. intros [u|e]; auto with keeps.
Qed.
#[local] Hint Resolve keeps_tunnel_to keeps_recover : keeps.
Lemma keeps_serve recover req : (forall req t port pipelined, keeps (recover req t port pipelined)) -> keeps (serve recover req).
Proof.
  intros Hr. unfold serve. cbn [Server.Request.take_pipeline].
  destruct (match req_username _ with Some _ => _ | None => _ end).
  - apply keeps_if; [auto with keeps|]. intros d s g s'. unfold with_permit.
    pose proof (keeps_tunnel_to (Server.mkRequest (protocol req) (target req) (req_username req) (Server.req_username_raw req)
      (Server.credentials req) []) true (pipeline req) d (log PermitTaken s)) as Hk.
    destruct (tunnel_to _ true (pipeline req) d (log PermitTaken s)) as [[]]; intros [= <- <-] Hs; cbn; by eapply Hk.
  - apply keeps_if; [|auto with keeps]. destruct (ipv4_literal_port _); auto with keeps.
Qed.

Lemma keeps_handle_client : keeps handle_client.
Proof.
  unfold handle_client. apply keeps_if; [auto with keeps|]. apply keeps_bind.
  - intros d s g s' Ha Hs. unfold accept in Ha. apply (keeps_on_client _ _ _ _ _ _ Ha). done.
  - intros req. destruct (protocol req); apply keeps_serve; intros; unfold recover_and_tunnel; auto with keeps.
Qed.
End Shared.

(** ** The claims *)

(** The request that was accepted of a client, and what is left of its connection. *)
Definition accepted (s : Session (Sh := Sh)) (req : IncomingRequest) (c : conn Credentials) : Prop :=
  Server.accept early_eof write_zero decode str_debug authenticate first_phase second_phase options (client s) = (Ready (Ok req), c).

(** C3: Nothing is done for a client that was not admitted: no reply of the handler's, no
    permit, no dial, no tunnel. Admitted is who passes the global rule, and either asked
    for no name where nameless clients are let in, or named a user whose own rule lets
    the address pass, who then proved the password, and nobody else was asked about. *)
Theorem only_admitted d s g s' : handle_client d s = (g, s') -> acts s' <> acts s ->
  global_allowed = true /\
  exists req c, accepted s req c /\
    match req_username req with
    | None => Auth.allow_anonymous auth = true /\ Stream.calls c = Stream.calls (client s)
    | Some user => exists creds, user = Server.username creds /\ Stream.calls c = Stream.calls (client s) ++ [creds] /\
        Auth.client_ip_allowed auth user peer = true /\ verify_async user (Server.password creds) = Some true
    end.
Proof.
  intros [_ [Ha|(req & c & used & new & Hga & Hacc & _)]]%handle_cases Hne; [done|].
  split; [done|]. exists req, c. split; [exact Hacc|].
  apply Server.accept_gated in Hacc as ([(Han & Hu & _ & _ & Hc)|(user & Hu & creds & Hc & _ & -> & _ & _ & Hca & _)] & _ & _).
  - by rewrite Hu.
  - rewrite Hu. exists creds. split; [done|]. split; [done|]. unfold authenticate in Hc.
    by destruct (Auth.client_ip_allowed _ _ _).
Qed.


(** C4: A tunnel begins with exactly what the client sent after its request: its first
    bytes and those still unread are what was taken ahead and not read when the request
    was accepted. They fit the tunnel's buffer, so the handler never crashes. Its target
    is not banned, and is the one asked for, or, for an address, the name those very
    bytes carry with the port that was asked for. *)
Theorem tunnel_bytes d s g s' : handle_client d s = (g, s') ->
  g <> Crashed /\
  exists new, acts s' = acts s ++ new /\
    Forall (fun a => match a with
      | Tunnelled t initial => exists req c, accepted s req c /\
          initial ++ unread (client s') = pipeline req ++ unread c /\
          (length initial <= Tunnel.PREFIX_CAP)%nat /\ banned t = false /\
          (t = target req \/ exists host port, recover_host_from_payload = true /\
             ipv4_literal_port (target req) = Some port /\ recovered_host initial = Some host /\ t = host ++ lit ":" ++ port)
      | _ => True
      end) new.
Proof.
  intros [Hcr [Ha|(req & c & used & new & _ & Hacc & Hu & Ha & Hc)]]%handle_cases; (split; [done|]).
  { exists []. by rewrite app_nil_r. }
  exists new. split; [done|]. pose proof Hacc as [Hl _]%Server.accept_ahead.
  assert (Hfit : (length (pipeline req) <= Tunnel.PREFIX_CAP)%nat) by (apply (within_prefix _ _ Hl); lia).
  destruct Hc as [Hd Hf | new' Hd Hf Hc | new' Hd _ Hc | port used' new' Hd Hrec Hport Hc].
  - by repeat constructor.
  - constructor; [done|]. apply Forall_app. split; [|by destruct (is_running g); repeat constructor].
    destruct Hc; repeat constructor; try done. exists req, c. split; [done|]. by rewrite Hu; auto.
  - destruct Hc; repeat constructor; try done. exists req, c. split; [done|]. by rewrite Hu; auto.
  - destruct Hc as [| | | |banner Hp Hb|early ? ? [->|[_ ->]]|early ? t [->|[_ ->]] Ht Hb Hm]; repeat constructor; try done;
      exists req, c; (split; [done|]).
    + rewrite Hu, Hp. split; [done|]. split; [cbn; lia|]. auto using reached_allowed.
    + rewrite Hu, app_assoc. split; [done|]. split; [by apply (within_prefix _ _ Hl)|]. split; [by apply reached_allowed|]. subst t.
      destruct (effective_cases (target req) port (pipeline req ++ used)) as [?|(host & ? & ?)]; eauto 8.
    + rewrite Hu, app_assoc. split; [done|]. split; [by apply (within_prefix _ _ Hl)|]. split; [by apply reached_allowed|]. subst t.
      destruct (effective_cases (target req) port (pipeline req ++ used)) as [?|(host & ? & ?)]; eauto 8.
Qed.

(** C5: Who goes where. Past the pool goes only a user who is marked so, to the target
    that was asked for and is not banned, while there is a permit; through the pool only
    who is not, to that target or, with recovery on and an address asked for, to a name
    with its port. A greeting is relayed only to a client that sent nothing ahead. A
    refusal says that the target is banned exactly when it is, and that there is no room
    only when no permit was left. *)
Theorem routes_kept d s g s' : handle_client d s = (g, s') ->
  exists new, acts s' = acts s ++ new /\
    (new = [] \/ exists req c, accepted s req c /\
       Forall (fun a => match a with
         | PermitTaken | PermitReturned => direct_user req = true
         | ConnectingDirect t => direct_user req = true /\ t = target req /\ banned t = false /\ (0 < direct_free)%nat
         | Connecting t => direct_user req = false /\
             (t = target req \/ exists host port, recover_host_from_payload = true /\
                ipv4_literal_port (target req) = Some port /\ t = host ++ lit ":" ++ port)
         | Relayed _ => direct_user req = false /\ recover_host_from_payload = true /\ pipeline req = []
         | Replied Server.Established | Tunnelled _ _ => True
         | Replied Server.Forbidden => banned (target req) = true
         | Replied Server.UpstreamUnavailable => banned (target req) = false
         | Replied Server.Overloaded => direct_user req = true /\ direct_free = 0%nat
         | Replied _ => False
         end) new).
Proof.
  intros [_ [Ha|(req & c & used & new & _ & Hacc & _ & Ha & Hc)]]%handle_cases.
  { exists []. rewrite app_nil_r. auto. }
  exists new. split; [done|]. right. exists req, c. split; [exact Hacc|].
  destruct Hc as [Hd Hf | new' Hd Hf Hc | new' Hd _ Hc | port used' new' Hd Hrec Hport Hc].
  - by repeat constructor.
  - constructor; [done|]. apply Forall_app. split; [|by destruct (is_running g); repeat constructor].
    destruct Hc as [|Hb|Hb| |]; try specialize (Hb eq_refl); rewrite ?Hb; repeat constructor; auto.
  - destruct Hc as [Hx| | | |]; [done|..]; try destruct (banned (target req)) eqn:Eb; repeat constructor; auto.
  - assert (Hname : forall buf, effective_target (target req) port buf = target req \/
      exists host port0, recover_host_from_payload = true /\ ipv4_literal_port (target req) = Some port0 /\
        effective_target (target req) port buf = host ++ lit ":" ++ port0).
    { intros buf. destruct (effective_cases (target req) port buf) as [?|(host & _ & ?)]; eauto 6. }
    destruct Hc as [| | | | |early ? t [->|[_ ->]] ->|early ? t [->|[_ ->]] ->];
      repeat (apply Forall_cons; split); try apply Forall_nil; auto.
Qed.

(** C28: The recovery is within the client's budget, whatever the client and the upstream
    do: entered after the deadline it does nothing at all, not even answer; entered before
    it, the answer and the peek are over by the deadline, with a result or as timed out. *)
Theorem recovery_in_budget req target_addr pipelined d s g s' :
  run_phase_in_client_budget client_deadline (recovery_phase req target_addr pipelined) d s = (g, s') ->
  (client_deadline <= now s -> g = Value (Ok (inr 0)) /\ s' = s) /\
  (now s < client_deadline -> now s' <= client_deadline /\ exists r, g = Value r).
Proof.
  intros [(Hd & -> & ->)|(Hd & g1 & Hop & Hx)]%phase_spec; (split; [|]); try lia; [auto|]. intros _.
  split; [by apply (recovery_phase_by _ _ _ _ _ _ _ Hop); lia|]. apply recovery_phase_did in Hop as [Hn _].
  destruct g1 as [[a|e]| | |], g as [r| | |]; try done; eauto.
Qed.
End Handle.

(** ** Witnesses *)

#[local] Existing Instance Recovery.demo_egress.

(** A nameless SOCKS client that asks for an address and says the name at once. *)
Definition demo_auth : Auth.AuthState := Auth.mkAuth [] None ∅ 1 2 ∅ true [] ∅.
Definition demo_socks : bytes := map byte_of [5; 1; 0; 5; 1; 0; 1; 1; 2; 3; 4; 1; 187].
Definition demo_payload : bytes := lit "GET / HTTP/1.1" ++ [CR; LF] ++ lit "Host: a.b" ++ [CR; LF; CR; LF].
Definition demo_io : IoError := mkIoError (lit "closed").
Definition demo_wakes : list Tunnel.Wake := [Tunnel.mkWake (from_secs 5) [] (Some (Ok tt))].
Definition demo_client : Session (Sh := nat) := Recovery.demo_session (demo_socks ++ demo_payload).
Abbreviation with_demo f := (f demo_io demo_io Some (fun s => s) (fun _ => 1) (fun _ => true) demo_auth
  (fun _ _ => None) None None true (from_secs 10) (Fragment.mkFragmentSpec false 1 0) 0 0 (from_secs 30) (fun _ => Ok tt)
  (fun _ _ => Pending) 0%nat (fun _ => Fragment.mkAttempt [] (Some (1, Ok 1000%nat))) [] demo_wakes 0 1 2) (only parsing).
Abbreviation demo_run := (with_demo (handle_client (U := unit) (Sh := nat) (Er := unit)) None demo_client).

Example demo_run_acts : acts demo_run.2 =
  [Replied Server.Established; Connecting (lit "a.b:443"); Tunnelled (lit "a.b:443") demo_payload].
Proof. vm_compute. reflexivity. Qed.

Lemma only_admitted_witness : global_allowed None None = true.
Proof.
  refine (proj1 (with_demo (only_admitted (U := unit) (Sh := nat) (Er := unit)) None demo_client demo_run.1 demo_run.2
    (surjective_pairing _) _)).
  rewrite demo_run_acts. discriminate.
Defined.


Lemma tunnel_bytes_witness : demo_run.1 <> Crashed /\ exists t initial, acts demo_run.2 !! 2%nat = Some (Tunnelled t initial) /\
  (length initial <= Tunnel.PREFIX_CAP)%nat.
Proof.
  destruct (with_demo (tunnel_bytes (U := unit) (Sh := nat) (Er := unit)) None demo_client demo_run.1 demo_run.2
    (surjective_pairing _)) as (Hc & new & Ha & Hn).
  split; [exact Hc|]. rewrite demo_run_acts in Ha |- *. exists (lit "a.b:443"), demo_payload. split; [reflexivity|].
  change (_ ++ new) with new in Ha. subst new.
  pose proof (Forall_lookup_1 _ _ 2%nat (Tunnelled (lit "a.b:443") demo_payload) Hn eq_refl) as (req & c & _ & _ & Hl & _).
  exact Hl.
Defined.

Lemma routes_kept_witness : exists new, acts demo_run.2 = new /\ new <> [].
Proof.
  destruct (with_demo (routes_kept (U := unit) (Sh := nat) (Er := unit)) None demo_client demo_run.1 demo_run.2
    (surjective_pairing _)) as (new & Ha & _).
  exists new. split; [exact Ha|]. rewrite demo_run_acts in Ha. intros ->. discriminate Ha.
Defined.

(** A client that says nothing, and an upstream that is late. *)
Definition demo_request : IncomingRequest := Server.mkRequest Server.Socks5 (lit "1.2.3.4:443") None None None [].
Abbreviation demo_phase := (run_phase_in_client_budget (from_secs 2)
  (recovery_phase (U := unit) (Sh := nat) (Er := unit) demo_io (fun _ => 1) (fun _ => true) demo_request (lit "1.2.3.4:443") [])
  None (Recovery.demo_session [])).

Lemma recovery_in_budget_witness : now demo_phase.2 <= from_secs 2 /\ exists r, demo_phase.1 = Value r.
Proof.
  apply (proj2 (recovery_in_budget demo_io (fun _ => 1) (fun _ => true) (from_secs 2) demo_request (lit "1.2.3.4:443") []
    None (Recovery.demo_session []) demo_phase.1 demo_phase.2 (surjective_pairing _))).
  vm_compute. reflexivity.
Defined.
End Handle.
