(* ===== verification/Egress.v ===== *)
(** Sessions over the real way to a connection: [Establish] as the [Egress] that
    [Recovery] and [Handle] take, and what a session does to the rotators.

    The rotators are shared by all requests. A session's requests are numbered; the calls
    that the others make on the rotators meanwhile, and what the network answers, are the
    environment's, request by request. A request that is dropped leaves what it had done
    by then ([Establish.establish_until]). *)
From S2P Require Import Prelude Text ProxyTypes Errors Stream Floats Ratings Rotator ChainPlan Dial PoolDial Hedged Probes Establish Clients Auth Server Fragment Tunnel Recovery Handle.

Module Egresses.

Section Egress.
Context {F : Type} `{Float F} {X : Type} `{PoolDial.PoolOps X}.
Variables (early_eof write_zero : IoError) (encode64 : bytes -> bytes) (pace : nat -> nat -> option N).
Variables (valid_name : bytes -> bool) (tls_connect : bytes -> Stream.conn X -> Stream.poll (result IoError unit) * Stream.conn X).
Variables (has_connector : bool) (banned_set : bytes -> bool).
Variables (gates : list (Z * nat)) (v6_rotator v4_rotator : option nat).
Variables (connect_timeout handshake_timeout hedge_delay : Z) (max_attempts : nat).
Local Abbreviation Store := (list (Rotator.t F)).
Local Abbreviation U := (Dial.AnyUpstream (X := X)).
(** By the number of the request: the calls of others on the rotators before it, and at
    each of its awaits; when its reports come, and its race; and whether it is polled once
    more at the very time it is dropped. *)
Variables (before : nat -> list (nat * Rotator.Call)) (meanwhile : nat -> nat -> list (nat * Rotator.Call)).
Variables (report_time : nat -> nat -> Z) (events : nat -> list (Hedged.Event (U := U))) (last_poll : nat -> bool).
Variable first_bytes : U -> Z -> Stream.poll (Z * result IoError bytes).

Definition by_calls (calls : list (nat * Rotator.Call)) (rs : Store) : Store :=
  foldl (fun rs '(i, c) => (ChainPlan.with_rotator rs i tt (fun r => (tt, Rotator.run c r))).2) rs calls.

(** The requests so far, and the rotators. *)
Definition Shared : Type := nat * Store.


Definition request (target_addr : bytes) (now : Z) (σ : Shared) : option (Establish.Outcome (F := F) (X := X)) :=
  let '(k, rs) := σ in
  Establish.establish_connection early_eof write_zero encode64 (pace k) valid_name tls_connect has_connector banned_set
    gates v6_rotator v4_rotator connect_timeout handshake_timeout hedge_delay max_attempts target_addr
    (fun i => by_calls (meanwhile k i)) (report_time k) (events k) (by_calls (before k) rs) (Dial.mkWorld now 0 []).

Definition establish_connection (target_addr : bytes) (now : Z) (σ : Shared)
    : Stream.poll (Z * result Establish.EstablishError U) * Shared :=
  match request target_addr now σ with
  | None => (Stream.Pending, σ)
  | Some o =>
      (match Establish.returned o with
       | Some r => Stream.Ready (Establish.ended o, r)
       | None => Stream.Pending
       end, (S σ.1, Establish.store (Establish.final o)))
  end.

Definition dropped (target_addr : bytes) (start stop : Z) (σ : Shared) : Shared :=
  let '(k, rs) := σ in
  let rs := by_calls (before k) rs in
  (S k, default rs (Establish.establish_until early_eof write_zero encode64 (pace k) valid_name tls_connect has_connector banned_set
    gates v6_rotator v4_rotator connect_timeout handshake_timeout hedge_delay max_attempts target_addr
    (fun i => by_calls (meanwhile k i)) (report_time k) (events k)
    (fun t => if last_poll k then t <=? stop else t <? stop) rs (Dial.mkWorld start 0 []))).

#[export] Program Instance establish_egress : Egress U Shared Establish.EstablishError := {
  banned := banned_set;
  establish_connection := establish_connection;
  dropped := dropped;
  greets := first_bytes
}.
Next Obligation.
  intros t now [k rs] Hb. exists Establish.BannedTarget. unfold establish_connection, request, Establish.establish_connection.
  rewrite Hb.
  by eexists.
Qed.

(** ** Sessions *)

Section Laws.
Context `{!FloatLaws F}.
Hypothesis before_ok : forall k, Forall (fun c => Rotator.call_ok c.2) (before k).
Hypothesis meanwhile_ok : forall k i, Forall (fun c => Rotator.call_ok c.2) (meanwhile k i).




End Laws.
End Egress.

(** ** Witness *)

#[local] Existing Instance Ratings.demo_float.
#[local] Existing Instance Ratings.demo_laws.
#[local] Existing Instance Probes.refusing_pool.
Local Abbreviation demo_upstream := (Dial.AnyUpstream (X := unit)).
(** Another request finds no sticky route, and takes the next upstream. *)
Definition demo_calls : list (nat * Rotator.Call) := [(1%nat, Rotator.KGetLinked Establish.demo_target 0); (0%nat, Rotator.KGetNext)].
#[local] Instance demo_egress : Egress demo_upstream (Shared (F := Rotator.F64t)) Establish.EstablishError :=
  establish_egress Dial.demo_io Dial.demo_io Dial.demo_encode (fun _ => Dial.demo_pace) Dial.demo_names
    (fun _ c => (Stream.Ready (Ok tt), c)) false (fun _ => false) [(1, 0%nat)] None (Some 1%nat)
    (from_secs 10) (from_secs 10) (from_secs 2) 3 (fun _ => []) (fun _ _ => demo_calls) (fun _ _ => from_secs 20) (fun _ => Establish.demo_events)
    (fun _ => true) (fun _ _ => Stream.Pending).


(** The client of [Handle], with recovery off: nothing can be reached. *)
Definition demo_client : Recovery.Session (Sh := Shared (F := Rotator.F64t)) :=
  Recovery.mkSession 0 (Stream.mkConn (Stream.chunk_of Handle.demo_socks) Stream.Silent None []) (0%nat, Establish.demo_rs) [].
Abbreviation with_demo f := (f Some (fun s => s) (fun _ => 1) (fun _ => true) Handle.demo_auth
  (fun _ _ => None) None None false (from_secs 10) (Fragment.mkFragmentSpec false 1 0) 0 0 (from_secs 30) (fun _ => Ok tt)
  (fun _ _ => Stream.Pending) 0%nat (fun _ => Fragment.mkAttempt [] None) [] [] 0 1 2 None demo_client) (only parsing).
Abbreviation demo_run := (with_demo (Handle.handle_client (U := demo_upstream) (Sh := Shared (F := Rotator.F64t)) Dial.demo_io Dial.demo_io)).


End Egresses.
