(* ===== verification/Health.v ===== *)
(** Upstream health across restarts (src/crates/resocks5/src/server/health/mod.rs).

    What is dead is saved to a file while the server runs and put back when it starts.

    - [snapshot] of the routing groups, and [restore] of a file into them;
    - the saver: one round, the loop, the final write, with every system call of the
      atomic write of [UsersFile] failing as it may.

    A group is a name and a handle on a rotator of the store. What [ktav] makes of a
    file is a parameter. *)
From S2P Require Import Prelude Text ProxyTypes Errors Floats Rating Quarantine Ratings Sticky Rotator UsersFile Alone.

Module Health.
Import UsersFile(File, mkFile, Fs, Ret, Disk, mkDisk, Decision, Works, Leaves, call, target, tmp, data,
                 WriteError, write_atomic).
Import Alone(exec, runs, runs_write_atomic, written_data).

(** ** The file *)

Definition STATE_ALIVE : bytes := lit "alive".
Definition STATE_QUARANTINED : bytes := lit "quarantined".
Definition STATE_PROBATION : bytes := lit "probation".

Record HealthEntry := mkEntry {
  upstream : bytes; gate : Z; group : bytes; state : bytes;
  remaining_sec : Z; trips : Z; failures : Z
}.
#[export] Instance HealthEntry_eq_dec : EqDecision HealthEntry.
Proof. solve_decision. Defined.

Record HealthFile := mkFileOf { saved_at : Z; upstreams : list HealthEntry }.
#[export] Instance HealthFile_eq_dec : EqDecision HealthFile.
Proof. solve_decision. Defined.

Record HealthGroup := mkGroup { name : bytes; rotator : nat }.

Record Restored := mkRestored { quarantined : nat; probation : nat }.
Definition Restored_default : Restored := mkRestored 0 0.
Definition total (r : Restored) : nat := quarantined r + probation r.

Definition upstream_label (p : ProxyConfig) : bytes :=
  let protocol := to_ascii_lowercase (protocol_debug (protocol p)) in
  match user p with
  | Some user => protocol ++ lit "://" ++ user ++ lit "@" ++ host p ++ lit ":" ++ fmt_dec (port p)
  | None => protocol ++ lit "://" ++ host p ++ lit ":" ++ fmt_dec (port p)
  end.

Definition state_name (s : Ratings.UpstreamState) : bytes :=
  match s with
  | Ratings.UQuarantined => STATE_QUARANTINED
  | Ratings.UProbation => STATE_PROBATION
  | Ratings.Alive => STATE_ALIVE
  end.

Definition as_secs (d : Z) : Z := d / NANOS.

Abbreviation Key := (bytes * Z * bytes)%type.

Section Ops.
Context {F : Type} `{Float F}.
Local Abbreviation Store := (list (Rotator.t F)).

(** ** Taking the picture *)

Definition entry_of (group : bytes) (e : Rotator.UpstreamHealth) : HealthEntry :=
  let p := Rotator.uh_proxy e in
  let h := Rotator.uh_health e in
  mkEntry (upstream_label p) (gate_level p) group (state_name (Ratings.h_state h))
    (as_secs (Ratings.remaining h)) (Ratings.h_trips h) (Ratings.h_consecutive h).

(** [clock i]: the instant a handle's rotator is looked at. *)
Definition group_entries (clock : nat -> Z) (rs : Store) (g : HealthGroup) : list HealthEntry :=
  match rs !! rotator g with
  | Some r => map (entry_of (name g)) (Rotator.health r (clock (rotator g)))
  | None => []
  end.

Definition snapshot (groups : list HealthGroup) (now : Z) (clock : nat -> Z) (rs : Store) : HealthFile :=
  mkFileOf now (concat (map (group_entries clock rs) groups)).

Definition signature (f : HealthFile) : list (bytes * bytes * Z * bytes * Z * Z) :=
  map (fun e => (upstream e, group e, gate e, state e, trips e, failures e)) (upstreams f).

(** ** Putting it back *)

Definition key_of (e : HealthEntry) : Key := (upstream e, gate e, group e).

(** [collect] into a [HashMap]: of equal keys the last one stays. *)
Definition saved (f : HealthFile) : gmap Key HealthEntry :=
  foldl (fun m e => <[key_of e := e]> m) ∅ (upstreams f).

Definition record_for (m : gmap Key HealthEntry) (group : bytes) (p : ProxyConfig) : option HealthEntry :=
  let label := upstream_label p in
  match m !! (label, gate_level p, group) with
  | Some e => Some e
  | None => m !! (label, gate_level p, [])
  end.

Definition health_from (idle : Z) (e : HealthEntry) : option Ratings.Health :=
  let left := saturating_sub (from_secs (remaining_sec e)) idle in
  if bool_decide (state e = STATE_QUARANTINED) && negb (left =? 0)
  then Some (Ratings.mkHealth Ratings.UQuarantined left (trips e) (failures e))
  else if bool_decide (state e = STATE_QUARANTINED) || bool_decide (state e = STATE_PROBATION)
  then Some (Ratings.mkHealth Ratings.UProbation 0 (trips e) (failures e))
  else None.

Definition entry_for (m : gmap Key HealthEntry) (idle : Z) (group : bytes) (p : ProxyConfig)
    : option Rotator.UpstreamHealth :=
  e ← record_for m group p;
  h ← health_from idle e;
  Some (Rotator.mkUpstreamHealth p h).

(** Those of [es] the rotator now has in quarantine, by what they were saved as. *)
Definition count_one (r : Rotator.t F) (acc : Restored) (e : Rotator.UpstreamHealth) : Restored :=
  if Rotator.is_quarantined r (Rotator.uh_proxy e) then
    match Ratings.h_state (Rotator.uh_health e) with
    | Ratings.UQuarantined => mkRestored (S (quarantined acc)) (probation acc)
    | _ => mkRestored (quarantined acc) (S (probation acc))
    end
  else acc.

Definition restore_group (m : gmap Key HealthEntry) (idle : Z) (clock : nat -> Z)
    (acc : Restored * Store) (g : HealthGroup) : Restored * Store :=
  let '(n, rs) := acc in
  match rs !! rotator g with
  | None => (n, rs)
  | Some r =>
      let entries := omap (entry_for m idle (name g)) (Rotator.proxies r) in
      let r' := (Rotator.restore_health entries (clock (rotator g)) r).2 in
      (foldl (count_one r') n entries, <[rotator g := r']> rs)
  end.

Definition restore (groups : list HealthGroup) (f : HealthFile) (now : Z) (clock : nat -> Z)
    (rs : Store) : Restored * Store :=
  let idle := from_secs (saturating_sub now (saved_at f)) in
  foldl (restore_group (saved f) idle clock) (Restored_default, rs) groups.

(** ** The file on disk *)

(** [ktav::to_string] and [ktav::from_str] on a [HealthFile]. *)
Context (to_string : HealthFile -> option bytes) (from_str : bytes -> option HealthFile).

(** The first error: the file cannot be read, or is no [HealthFile]. *)
Definition load (readable : bool) (w : Disk) : result unit (option HealthFile) :=
  match target w with
  | None => Ok None
  | Some f => if readable then (match from_str (data f) with Some h => Ok (Some h) | None => Err tt end) else Err tt
  end.

Record Resumed := mkResumed { r_saved : option HealthFile; r_restored : Restored; warned : bool }.

Definition resume (groups : list HealthGroup) (readable : bool) (w : Disk) (now : Z) (clock : nat -> Z)
    (rs : Store) : Resumed * Store :=
  match load readable w with
  | Ok (Some f) =>
      let '(n, rs') := restore groups f now clock rs in (mkResumed (Some f) n false, rs')
  | Ok None => (mkResumed None Restored_default false, rs)
  | Err _ => (mkResumed None Restored_default true, rs)
  end.

(** ** Saving *)

Inductive SaveError := ReclaimFailed | Save (e : WriteError) | WriterPanicked.

(** Whether a leftover temporary file was removed; an error when it cannot be. *)
Definition reclaim_own_temp (d : Decision) (w : Disk) : result SaveError bool * Disk :=
  match tmp w with
  | None => (if UsersFile.works d then Ok false else Err ReclaimFailed, w)
  | Some _ => if UsersFile.works d then (Ok true, UsersFile.set_tmp None w) else (Err ReclaimFailed, w)
  end.

(** [write_atomic] of the whole file. *)
Definition save (f : HealthFile) : Fs (result WriteError unit) := write_atomic to_string f.

(** What one attempt meets: the removal's answer, the calls' answers (the writer dies
    when they run out). *)
Record Attempt := mkAttempt { reclaiming : Decision; writing : list Decision }.

Definition save_offloaded (a : Attempt) (f : HealthFile) (w : Disk) : result SaveError unit * Disk :=
  match reclaim_own_temp (reclaiming a) w with
  | (Err e, w1) => (Err e, w1)
  | (Ok _, w1) =>
      match exec (writing a) w1 (save f) with
      | (w2, Ret r) => (map_err Save r, w2)
      | (w2, _) => (Err WriterPanicked, w2)
      end
  end.

(** ** The saver *)

(** [reports]: the errors logged so far. *)
Record Saver := mkSaver { last : option HealthFile; failing : bool; reports : list SaveError }.

(** One round: the clock ticked. *)
Definition round (current : HealthFile) (a : Attempt) (σ : Saver * Disk) : Saver * Disk :=
  let '(s, w) := σ in
  if (match last s with Some l => bool_decide (signature l = signature current) | None => false end)
  then (s, w)
  else
    match save_offloaded a current w with
    | (Ok _, w') => (mkSaver (Some current) false (reports s), w')
    | (Err e, w') => (mkSaver (last s) true (if failing s then reports s else reports s ++ [e]), w')
    end.

(** What the rotators look like in each round, and what its write meets. *)
Record Tick := mkTick { tick_now : Z; tick_clock : nat -> Z; tick_store : Store; tick_attempt : Attempt }.

Definition picture (groups : list HealthGroup) (t : Tick) : HealthFile :=
  snapshot groups (tick_now t) (tick_clock t) (tick_store t).

(** [run_saver], until it is stopped. *)
Definition run_saver (groups : list HealthGroup) (initial : option HealthFile) (ts : list Tick) (w : Disk)
    : Saver * Disk :=
  foldl (fun σ t => round (picture groups t) (tick_attempt t) σ) (mkSaver initial false [], w) ts.

(** How the loop's task ends when asked to stop. *)
Inductive Stop := Joined | Panicked | TimedOut.

(** The final write, unless the loop could not be stopped. *)
Definition finish (groups : list HealthGroup) (stop : Stop) (t : Tick) (σ : Saver * Disk)
    : option (result SaveError unit) * Disk :=
  match stop with
  | Joined | Panicked =>
      let '(r, w) := save_offloaded (tick_attempt t) (picture groups t) σ.2 in (Some r, w)
  | TimedOut => (None, σ.2)
  end.

(** [start]: what was saved is put back; the saver runs only with the lock. *)
Definition start (groups : list HealthGroup) (readable locked : bool) (stale : Decision) (w : Disk) (now1 now2 : Z)
    (clock1 clock2 : nat -> Z) (rs : Store) : option (option HealthFile) * bool * Disk * Store :=
  let '(resumed, rs') := resume groups readable w now1 clock1 rs in
  let found := bool_decide (is_Some (r_saved resumed)) in
  let initial := if found then Some (snapshot groups now2 clock2 rs') else None in
  let w' := if locked then (reclaim_own_temp stale w).2 else w in
  ((if locked then Some initial else None), found, w', rs').
End Ops.

(** ** Writing *)

Section Write.
Context (to_string : HealthFile -> option bytes).

(** The file is replaced by the whole text or left alone; a write that works replaced it. *)
Definition whole (f : HealthFile) (t : option File) : Prop :=
  exists text, to_string f = Some text /\ data <$> t = Some text.

Lemma save_spec f ds w w' p' : exec ds w (save to_string f) = (w', p') ->
  (target w' = target w /\ p' <> Ret (Ok tt)) \/ whole f (target w').
Proof.
  intros He. destruct (runs_write_atomic to_string f w _ _ _ He) as [[Ht|Hw] Hq]; [|right; by apply written_data in Hw].
  destruct (decide (is_Some (match p' with Ret (Ok u) => Some u | _ => None end))) as [[[] Hp]|Hp].
  - right. destruct p' as [[[]|]| | | | | | | | | | | | | | | | |]; try discriminate. eapply written_data, (Hq _ eq_refl).
  - left. split; [done|]. intros ->. by apply Hp.
Qed.

Lemma save_offloaded_spec a f w r w' : save_offloaded to_string a f w = (r, w') ->
  (target w' = target w /\ r <> Ok tt) \/ whole f (target w').
Proof.
  unfold save_offloaded, reclaim_own_temp. intros Hs.
  assert (Hrun : forall w1 r w', target w1 = target w ->
    match exec (writing a) w1 (save to_string f) with
    | (w2, Ret r) => (map_err Save r, w2) | (w2, _) => (Err WriterPanicked, w2) end = (r, w') ->
    (target w' = target w /\ r <> Ok tt) \/ whole f (target w')).
  { intros w1 r1 w1' <- . destruct (exec _ _ _) as [w2 p2] eqn:Ee. destruct (save_spec f _ w1 _ _ Ee) as [[Ht Hp]|Hw].
    - destruct p2 as [[[]|e]| | | | | | | | | | | | | | | | |]; intros [= <- <-]; cbn; try (left; split; [done|discriminate]). done.
    - destruct p2; intros [= _ <-]; by right. }
  destruct (tmp w); destruct (UsersFile.works _); [by eapply Hrun in Hs | | by eapply Hrun in Hs |];
    injection Hs as <- <-; by left.
Qed.
End Write.

(** ** Restoring into one rotator *)

Section Laws.
Context {F : Type} `{FloatLaws F}.
Implicit Types r : Rotator.t F.

(** The cells after the records of [f], one per upstream that has one. *)
Definition put_back (q : Quarantine.QuarantinePolicy) (now : Z) (f : ProxyConfig -> option Ratings.Health)
    (p : ProxyConfig) (c : Quarantine.Cell) : Quarantine.Cell :=
  match f p with
  | Some h => Quarantine.restore (bool_decide (Ratings.h_state h = Ratings.UQuarantined))
                (Ratings.remaining h) (Ratings.h_trips h) (Ratings.h_consecutive h) now q c
  | None => c
  end.

Definition records (f : ProxyConfig -> option Ratings.Health) (ps : list ProxyConfig) : list Rotator.UpstreamHealth :=
  omap (fun p => Rotator.mkUpstreamHealth p <$> f p) ps.

Definition restorable (f : ProxyConfig -> option Ratings.Health) (ps : list ProxyConfig) : Prop :=
  forall p h, p ∈ ps -> f p = Some h -> Ratings.h_state h <> Ratings.Alive /\ Ratings.health_ok h.

Lemma cells_length r : Rotator.wf r -> length (Ratings.qcells (Rotator.ratings r)) = Rotator.len r.
Proof. intros (_ & _ & _ & Hr & Hl & _). by rewrite (proj1 Hr). Qed.

Lemma restore_records f now r k : restorable f (Rotator.proxies r) ->
  Rotator.wf r -> Quarantine.enabled (Rotator.qpolicy r) = true -> (k <= Rotator.len r)%nat ->
  let r' := (foldl (Rotator.restore_one now) (0%nat, r) (records f (take k (Rotator.proxies r)))).2 in
  Rotator.wf r' /\ Rotator.proxies r' = Rotator.proxies r /\ Rotator.qpolicy r' = Rotator.qpolicy r /\
  (forall x, Rotator.index_of r' x = Rotator.index_of r x) /\
  Ratings.qcells (Rotator.ratings r') =
    zip_with (put_back (Rotator.qpolicy r) now f) (take k (Rotator.proxies r)) (take k (Ratings.qcells (Rotator.ratings r)))
    ++ drop k (Ratings.qcells (Rotator.ratings r)).
Proof.
  intros Hf Hw He. pose proof (cells_length r Hw) as Hlen. induction k as [|k IH]; intros Hk; [done|].
  specialize (IH ltac:(lia)). assert (Hlt : (k < Rotator.len r)%nat) by lia.
  destruct (lookup_lt_is_Some_2 _ _ Hlt) as [p Hp].
  destruct (lookup_lt_is_Some_2 (Ratings.qcells (Rotator.ratings r)) k ltac:(lia)) as [c Hc].
  rewrite (take_S_r _ _ _ Hp), (take_S_r _ _ _ Hc), (drop_S _ _ _ Hc) in *.
  unfold records in *. rewrite omap_app, foldl_app. cbn [omap list_omap].
  destruct (foldl (Rotator.restore_one now) _ _) as [n rk]. cbn [snd] in IH.
  destruct IH as (Hwk & Hpk & Hqk & Hik & Hck).
  assert (Hl1 : length (zip_with (put_back (Rotator.qpolicy r) now f) (take k (Rotator.proxies r))
     (take k (Ratings.qcells (Rotator.ratings r)))) = k)
    by (rewrite length_zip_with, !length_take; unfold Rotator.len in *; lia).
  rewrite zip_with_app by (rewrite !length_take; unfold Rotator.len in *; lia). cbn [zip_with].
  rewrite <- app_assoc. cbn [app]. unfold put_back at 2.
  destruct (f p) as [h|] eqn:Efp; cbn [fmap option_fmap option_map foldl].
  - destruct (Hf p h (list_elem_of_lookup_2 _ _ _ Hp) Efp) as [Ha Hok].
    pose proof (Rotator.restore_one_wf now n (Rotator.mkUpstreamHealth p h) rk Hwk Hok) as Hw'.
    pose proof (Rotator.restore_one_same now (n, rk) (Rotator.mkUpstreamHealth p h)) as (S1 & S2 & S3).
    unfold Rotator.restore_one in *. cbn [Rotator.uh_proxy Rotator.uh_health] in *.
    assert (Hi : Rotator.index_of rk p = Some k)
      by (rewrite Hik; apply Rotator.index_of_spec; eauto).
    rewrite Hi in *. unfold Ratings.restore_health in *. fold (Rotator.qpolicy rk) in *. rewrite Hqk, He in *.
    rewrite (bool_decide_eq_false_2 _ Ha) in *. cbn [negb orb] in *.
    rewrite Hck in *. rewrite (list_lookup_middle _ _ _ _ (eq_sym Hl1)) in *. cbn [snd] in *.
    split; [done|]. split; [congruence|]. split; [done|]. split.
    + intros x. rewrite <- Hik. unfold Rotator.index_of. by rewrite S1, S2, S3.
    + cbn. rewrite insert_app_r_alt by lia. rewrite Hl1, Nat.sub_diag. done.
  - split; [done|]. done.
Qed.

Lemma restored_rotator f now r : restorable f (Rotator.proxies r) ->
  Rotator.wf r -> Quarantine.enabled (Rotator.qpolicy r) = true ->
  let r' := (Rotator.restore_health (records f (Rotator.proxies r)) now r).2 in
  Rotator.wf r' /\ Rotator.proxies r' = Rotator.proxies r /\
  (forall x, Rotator.index_of r' x = Rotator.index_of r x) /\
  Ratings.qcells (Rotator.ratings r') =
    zip_with (put_back (Rotator.qpolicy r) now f) (Rotator.proxies r) (Ratings.qcells (Rotator.ratings r)).
Proof.
  intros Hf Hw He. pose proof (restore_records f now r (Rotator.len r) Hf Hw He ltac:(lia)) as Hr.
  pose proof (cells_length r Hw) as Hlen. rewrite !take_ge, drop_ge, app_nil_r in Hr by (unfold Rotator.len in *; lia).
  unfold Rotator.restore_health. cbn zeta in *. tauto.
Qed.

(** What a restored cell shows at the instant it is restored. *)
Lemma health_of_put_back b left tr co now q c :
  1 <= tr -> Quarantine.threshold q <= co -> 0 <= left -> 0 <= Quarantine.max q ->
  now + Quarantine.max q <= INSTANT_MAX ->
  Ratings.health_of now (Quarantine.restore b left tr co now q c) =
    let len := if b then Z.min left (Quarantine.max q) else 0 in
    if len =? 0 then Ratings.mkHealth Ratings.UProbation 0 tr co
    else Ratings.mkHealth Ratings.UQuarantined len tr co.
Proof.
  intros Ht Hc Hl Hm Hn. unfold Quarantine.restore, Ratings.health_of, Quarantine.snapshot, Quarantine.state.
  cbn [Quarantine.until Quarantine.trips Quarantine.consecutive]. cbn zeta.
  set (len := if b then _ else 0). assert (0 <= len <= Quarantine.max q) by (subst len; destruct b; lia).
  rewrite Quarantine.deadline_exact by lia. unfold saturating_duration_since.
  rewrite (Z.max_l co) by lia. rewrite (Z.max_l tr) by lia.
  destruct (len =? 0) eqn:E; zify_bools.
  - by rewrite (proj2 (Z.ltb_ge _ _)) by lia.
  - rewrite (proj2 (Z.ltb_lt _ _)) by lia. f_equal. lia.
Qed.

(** ** Finding a record *)

Lemma saved_other es : forall m k, k ∉ map key_of es ->
  foldl (fun m e => <[key_of e := e]> m) m es !! k = (m : gmap Key HealthEntry) !! k.
Proof.
  induction es as [|e es IH]; intros m k; cbn [map foldl]; [done|].
  rewrite not_elem_of_cons. intros [Hk Hes]. rewrite IH by done. by apply lookup_insert_ne.
Qed.

Lemma saved_lookup f e : NoDup (map key_of (upstreams f)) -> e ∈ upstreams f -> saved f !! key_of e = Some e.
Proof.
  unfold saved. generalize (∅ : gmap Key HealthEntry). induction (upstreams f) as [|x es IH]; intros m; cbn [map foldl].
  - by intros _ ?%not_elem_of_nil.
  - intros [Hx Hnd]%NoDup_cons [->|He]%elem_of_cons; [|by apply IH].
    rewrite saved_other by done. apply lookup_insert_eq.
Qed.

(** Upstreams of a group that differ in more than the password have labels of their
    own; groups have names of their own. *)
Definition labels r : list (bytes * Z) := map (fun p => (upstream_label p, gate_level p)) (Rotator.proxies r).
Definition distinct (groups : list HealthGroup) (rs : list (Rotator.t F)) : Prop :=
  NoDup (map name groups) /\ NoDup (map rotator groups) /\
  forall g r, g ∈ groups -> rs !! rotator g = Some r -> NoDup (labels r).

Lemma group_keys clock (rs : list (Rotator.t F)) g r : rs !! rotator g = Some r -> Rotator.wf r ->
  map key_of (group_entries clock rs g) = map (fun x => (x, name g)) (labels r).
Proof.
  intros Hr Hw. unfold group_entries, labels. rewrite Hr. apply list_eq. intros i.
  rewrite !list_lookup_fmap, Rotator.health_lookup. unfold Rotator.cell. pose proof (cells_length r Hw) as Hl.
  destruct (Rotator.proxies r !! i) as [p|] eqn:Ep; [|done].
  destruct (lookup_lt_is_Some_2 (Ratings.qcells (Rotator.ratings r)) i) as [c ->]; [|done].
  apply lookup_lt_Some in Ep. unfold Rotator.len in Hl. lia.
Qed.

Lemma group_entry_name clock (rs : list (Rotator.t F)) g e : e ∈ group_entries clock rs g -> group e = name g.
Proof.
  unfold group_entries. destruct (rs !! rotator g); [|by intros ?%not_elem_of_nil].
  by intros (x & -> & _)%list_elem_of_fmap.
Qed.

Lemma elem_of_snapshot groups now clock (rs : list (Rotator.t F)) e :
  e ∈ upstreams (snapshot groups now clock rs) <-> exists g, g ∈ groups /\ e ∈ group_entries clock rs g.
Proof.
  cbn. induction groups as [|g gs IH]; cbn.
  - split; [by intros ?%not_elem_of_nil | intros (g & Hg & _); by apply not_elem_of_nil in Hg].
  - rewrite elem_of_app, IH. split.
    + intros [He | (g' & Hg' & He)]; [exists g | exists g']; split; [left | done | by right | done].
    + intros (g' & [->|Hg']%elem_of_cons & He); [by left | right; by exists g'].
Qed.

Lemma snapshot_keys groups now clock (rs : list (Rotator.t F)) :
  NoDup (map name groups) -> Forall Rotator.wf rs ->
  (forall g r, g ∈ groups -> rs !! rotator g = Some r -> NoDup (labels r)) ->
  NoDup (map key_of (upstreams (snapshot groups now clock rs))).
Proof.
  intros Hn Hw Hl. cbn. induction groups as [|g gs IH]; [constructor|]. cbn in *.
  apply NoDup_cons in Hn as [Hg Hn]. rewrite map_app. apply NoDup_app. split; [|split].
  - unfold group_entries. destruct (rs !! rotator g) as [r|] eqn:Er; [|constructor].
    pose proof (group_keys clock rs g r Er (Forall_lookup_Some _ _ _ _ Hw Er)) as Hk.
    unfold group_entries in Hk. rewrite Er in Hk. rewrite Hk. apply NoDup_fmap_2; [intros ?? [=]; done|].
    apply (Hl g r); [left|done].
  - intros k (e & -> & He)%list_elem_of_fmap (e' & [=Hu Hk Hgr] & He')%list_elem_of_fmap. apply Hg.
    apply (elem_of_snapshot gs now clock rs) in He' as (g' & Hg' & He').
    apply group_entry_name in He, He'. rewrite <- He, Hgr, He'. apply list_elem_of_fmap. by exists g'.
  - apply IH; [done|]. intros g' r Hg'. apply Hl. by right.
Qed.

(** ** Restoring every group *)

Lemma restore_groups m idle clock groups : forall (n : Restored) (rs : list (Rotator.t F)),
  NoDup (map rotator groups) ->
  let '(n', rs') := foldl (restore_group m idle clock) (n, rs) groups in
  (forall i, i ∉ map rotator groups -> rs' !! i = rs !! i) /\
  forall g r, g ∈ groups -> rs !! rotator g = Some r ->
    rs' !! rotator g =
      Some (Rotator.restore_health (omap (entry_for m idle (name g)) (Rotator.proxies r)) (clock (rotator g)) r).2.
Proof.
  induction groups as [|g gs IH]; intros n rs; cbn [map foldl].
  { intros _. split; [done|]. by intros g r ?%not_elem_of_nil. }
  intros [Hg Hnd]%NoDup_cons. destruct (restore_group m idle clock (n, rs) g) as [n1 rs1] eqn:E1.
  specialize (IH n1 rs1 Hnd). destruct (foldl _ _ gs) as [n' rs']. destruct IH as [IHo IHg].
  assert (Ho : forall i, i <> rotator g -> rs1 !! i = rs !! i).
  { intros i Hi. unfold restore_group in E1. destruct (rs !! rotator g) as [r|] eqn:Er; injection E1 as <- <-; [|done].
    by apply list_lookup_insert_ne. }
  split.
  - intros i [Hi Hin]%not_elem_of_cons. rewrite IHo by done. by apply Ho.
  - intros g' r [->|Hin]%elem_of_cons Hr.
    + rewrite IHo by done. unfold restore_group in E1. rewrite Hr in E1. injection E1 as <- <-.
      apply list_lookup_insert_eq. by eapply lookup_lt_Some.
    + apply IHg; [done|]. rewrite Ho; [done|]. intros Heq. apply Hg. rewrite <- Heq. apply list_elem_of_fmap. by exists g'.
Qed.

(** ** A restart *)

(** What becomes of an upstream's record over a restart that took [idle]. *)
Definition resumed (mx idle : Z) (h : Ratings.Health) : Ratings.Health :=
  match Ratings.h_state h with
  | Ratings.Alive => Ratings.mkHealth Ratings.Alive 0 0 0
  | Ratings.UProbation => Ratings.mkHealth Ratings.UProbation 0 (Ratings.h_trips h) (Ratings.h_consecutive h)
  | Ratings.UQuarantined =>
      let left := Z.min (saturating_sub (from_secs (as_secs (Ratings.remaining h))) idle) mx in
      if left =? 0 then Ratings.mkHealth Ratings.UProbation 0 (Ratings.h_trips h) (Ratings.h_consecutive h)
      else Ratings.mkHealth Ratings.UQuarantined left (Ratings.h_trips h) (Ratings.h_consecutive h)
  end.
Definition resumed_one (mx idle : Z) (e : Rotator.UpstreamHealth) : Rotator.UpstreamHealth :=
  Rotator.mkUpstreamHealth (Rotator.uh_proxy e) (resumed mx idle (Rotator.uh_health e)).

Lemma health_from_entry idle n p h :
  health_from idle (entry_of n (Rotator.mkUpstreamHealth p h)) =
  match Ratings.h_state h with
  | Ratings.Alive => None
  | Ratings.UProbation => Some (Ratings.mkHealth Ratings.UProbation 0 (Ratings.h_trips h) (Ratings.h_consecutive h))
  | Ratings.UQuarantined =>
      let left := saturating_sub (from_secs (as_secs (Ratings.remaining h))) idle in
      Some (if left =? 0 then Ratings.mkHealth Ratings.UProbation 0 (Ratings.h_trips h) (Ratings.h_consecutive h)
            else Ratings.mkHealth Ratings.UQuarantined left (Ratings.h_trips h) (Ratings.h_consecutive h))
  end.
Proof. unfold health_from, entry_of. cbn. by destruct (Ratings.h_state h); cbn; [..|]; [|destruct (_ =? 0)|]. Qed.

(** [m] has the records of [r] as they were at [now]. *)
Definition holds (m : gmap Key HealthEntry) (n : bytes) (now : Z) r : Prop :=
  forall e, e ∈ Rotator.health r now -> m !! key_of (entry_of n e) = Some (entry_of n e).

Lemma entry_for_held m n now idle r i p c : holds m n now r ->
  Rotator.proxies r !! i = Some p -> Rotator.cell r i = Some c ->
  entry_for m idle n p =
    Rotator.mkUpstreamHealth p <$> health_from idle (entry_of n (Rotator.mkUpstreamHealth p (Ratings.health_of now c))).
Proof.
  intros Hm Hp Hc. specialize (Hm (Rotator.mkUpstreamHealth p (Ratings.health_of now c))).
  unfold entry_for, record_for. unfold key_of in Hm. cbn [entry_of upstream gate group Rotator.uh_proxy] in Hm.
  cbn zeta. rewrite Hm.
  - cbn [mbind option_bind]. by destruct (health_from _ _).
  - apply (list_elem_of_lookup_2 _ i). by rewrite Rotator.health_lookup, Hp, Hc.
Qed.

Lemma remaining_secs now c q : Quarantine.wf q c ->
  let h := Ratings.health_of now c in Ratings.health_ok h /\ 0 <= from_secs (as_secs (Ratings.remaining h)).
Proof.
  intros Hc. cbn zeta. pose proof (Rotator.health_of_ok q now c Hc) as Hok. split; [done|].
  destruct Hok as (Hr & _). unfold from_secs, as_secs, NANOS in *. pose proof (Z.div_pos _ 1000000000 Hr). lia.
Qed.

(** A cell left default by a rebuilt rotator, restored from the record of a cell like it. *)
Lemma put_back_resumed q now now' idle n p c (f : ProxyConfig -> option Ratings.Health) :
  Quarantine.valid q -> Quarantine.wf q c -> now' + Quarantine.max q <= INSTANT_MAX ->
  f p = health_from idle (entry_of n (Rotator.mkUpstreamHealth p (Ratings.health_of now c))) ->
  Ratings.health_of now' (put_back q now' f p Quarantine.cell_default) =
  resumed (Quarantine.max q) idle (Ratings.health_of now c).
Proof.
  intros ((Ht0 & _) & (Hi & Him) & _) Hc Hmax Hf. unfold put_back. rewrite Hf, health_from_entry. clear Hf.
  pose proof (remaining_secs now c q Hc) as [_ Hs]. cbn zeta in Hs.
  assert (Hal : Ratings.h_state (Ratings.health_of now c) <> Ratings.Alive ->
    1 <= Ratings.h_trips (Ratings.health_of now c) /\ Quarantine.threshold q <= Ratings.h_consecutive (Ratings.health_of now c)).
  { intros Hn. rewrite Ratings.health_of_alive in Hn. unfold Quarantine.is_tripped in Hn. destruct Hc as (_ & _ & Hu).
    unfold Ratings.health_of, Quarantine.snapshot. cbn. destruct (Quarantine.until c); [split; apply Hu | done]. }
  unfold resumed. destruct (Ratings.h_state (Ratings.health_of now c)) eqn:Est; [done|destruct (Hal ltac:(done))..]; cbv zeta.
  - set (left := saturating_sub _ _). assert (0 <= left) by (subst left; unfold saturating_sub; lia).
    destruct (left =? 0) eqn:El; zify_bools; cbn [Ratings.h_state Ratings.remaining Ratings.h_trips Ratings.h_consecutive];
      rewrite health_of_put_back by lia; cbv zeta.
    + rewrite bool_decide_eq_false_2 by done. by rewrite El, (Z.min_l 0) by lia.
    + by rewrite bool_decide_eq_true_2 by done.
  - cbn [Ratings.h_state Ratings.remaining Ratings.h_trips Ratings.h_consecutive].
    rewrite health_of_put_back by lia. by rewrite bool_decide_eq_false_2 by done.
Qed.

(** One rotator, from the records of one like it. *)
Lemma resumed_rotator m n now idle now' r r0 : holds m n now r ->
  Rotator.wf r -> Rotator.wf r0 -> Rotator.proxies r0 = Rotator.proxies r -> Rotator.qpolicy r0 = Rotator.qpolicy r ->
  Quarantine.enabled (Rotator.qpolicy r) = true ->
  Forall (fun c => c = Quarantine.cell_default) (Ratings.qcells (Rotator.ratings r0)) ->
  now' + Quarantine.max (Rotator.qpolicy r) <= INSTANT_MAX ->
  let entries := omap (entry_for m idle n) (Rotator.proxies r0) in
  let r1 := (Rotator.restore_health entries now' r0).2 in
  Rotator.wf r1 /\ Rotator.health r1 now' = map (resumed_one (Quarantine.max (Rotator.qpolicy r)) idle) (Rotator.health r now).
Proof.
  intros Hm Hw Hw0 Hp Hq He Hd Hmax. cbn zeta. set (q := Rotator.qpolicy r) in *.
  pose proof (cells_length r Hw) as Hlen. pose proof (cells_length r0 Hw0) as Hlen0. unfold Rotator.len in Hlen, Hlen0.
  assert (Hr : Ratings.wf (Rotator.ratings r)) by (destruct Hw as (_ & _ & _ & Hr & _); done).
  assert (Hv : Quarantine.valid q) by (by apply Ratings.wf_valid).
  assert (Hcell : forall i p, Rotator.proxies r !! i = Some p -> exists c, Rotator.cell r i = Some c /\ Quarantine.wf q c).
  { intros i p Hi. apply lookup_lt_Some in Hi. unfold Rotator.cell.
    destruct (lookup_lt_is_Some_2 (Ratings.qcells (Rotator.ratings r)) i ltac:(lia)) as [c Hc]. exists c. split; [done|].
    by apply (Ratings.wf_qcell (Rotator.ratings r) i). }
  set (f := fun p => Rotator.uh_health <$> entry_for m idle n p).
  assert (Hf : forall i p c, Rotator.proxies r !! i = Some p -> Rotator.cell r i = Some c ->
     f p = health_from idle (entry_of n (Rotator.mkUpstreamHealth p (Ratings.health_of now c)))).
  { intros i p c Hi Hc. unfold f. rewrite (entry_for_held m n now idle r i p c) by done. by destruct (health_from _ _). }
  assert (Hrec : omap (entry_for m idle n) (Rotator.proxies r0) = records f (Rotator.proxies r0)).
  { unfold records. rewrite Hp. apply list_omap_ext. apply Forall2_same_length_lookup_2; [done|].
    intros i p p' Hi Hi'. assert (p = p') as <- by congruence. destruct (Hcell i p Hi) as (c & Hc & _).
    rewrite (Hf i p c), (entry_for_held m n now idle r i p c) by done. by destruct (health_from _ _). }
  rewrite Hrec.
  assert (Hres : restorable f (Rotator.proxies r0)).
  { intros p h Hin Hfp. rewrite Hp in Hin. apply list_elem_of_lookup in Hin as [i Hi]. destruct (Hcell i p Hi) as (c & Hc & Hcw).
    rewrite (Hf i p c) in Hfp by done. rewrite health_from_entry in Hfp. destruct (remaining_secs now c q Hcw) as ((Hr0 & Ht & Hco) & Hs).
    cbn zeta in Hfp. unfold saturating_sub in Hfp. revert Hfp. repeat case_match; intros [= <-]; (split; [done|]);
      unfold Ratings.health_ok; cbn [Ratings.remaining Ratings.h_trips Ratings.h_consecutive]; (split; [lia | split; assumption]). }
  pose proof (restored_rotator f now' r0 Hres Hw0 ltac:(by rewrite Hq)) as Hr1. cbn zeta in Hr1.
  set (r1 := (Rotator.restore_health (records f (Rotator.proxies r0)) now' r0).2) in *.
  destruct Hr1 as (Hw1 & Hp1 & _ & Hc1). split; [done|].
  apply list_eq. intros i. rewrite list_lookup_fmap, !Rotator.health_lookup. unfold Rotator.cell at 1. rewrite Hc1, lookup_zip_with, Hp1, Hp.
  destruct (Rotator.proxies r !! i) as [p|] eqn:Hi; [|done]. destruct (Hcell i p Hi) as (c & Hc & Hcw). rewrite Hc.
  destruct (lookup_lt_is_Some_2 (Ratings.qcells (Rotator.ratings r0)) i ltac:(apply lookup_lt_Some in Hi; rewrite Hp in Hlen0; lia)) as [c0 Hc0].
  assert (c0 = Quarantine.cell_default) as -> by (by eapply (Forall_lookup_Some _ _ _ _ Hd)).
  rewrite Hc0, Hq. unfold resumed_one. cbn [mbind option_bind fmap option_fmap option_map Rotator.uh_proxy Rotator.uh_health].
  do 2 f_equal. apply (put_back_resumed q now now' idle n); [done..|]. by apply (Hf i).
Qed.

(** ** Counting *)

Definition dead (e : HealthEntry) : bool := negb (bool_decide (state e = STATE_ALIVE)).

Lemma count_all r es : forall acc, Forall (fun e => Rotator.is_quarantined r (Rotator.uh_proxy e) = true) es ->
  total (foldl (count_one r) acc es) = (total acc + length es)%nat.
Proof.
  induction es as [|e es IH]; intros acc; cbn [foldl length]; [lia|]. intros [He Hes]%Forall_cons. rewrite IH by done.
  unfold count_one. rewrite He. unfold total. destruct (Ratings.h_state _); cbn; lia.
Qed.

Lemma resumed_alive mx idle h : Ratings.h_state (resumed mx idle h) = Ratings.Alive <-> Ratings.h_state h = Ratings.Alive.
Proof. unfold resumed. destruct (Ratings.h_state h); cbn; [done| |done]. by destruct (_ =? 0). Qed.

Lemma shown_quarantined r now i p h : Rotator.wf r ->
  Rotator.health r now !! i = Some (Rotator.mkUpstreamHealth p h) -> Ratings.h_state h <> Ratings.Alive ->
  Rotator.is_quarantined r p = true.
Proof.
  intros Hw. rewrite Rotator.health_lookup. destruct (Rotator.proxies r !! i) as [p'|] eqn:Hp; [|done].
  destruct (Rotator.cell r i) as [c|] eqn:Hc; [|done]. intros [= -> <-] Hn. unfold Rotator.is_quarantined.
  assert (Rotator.index_of r p = Some i) as -> by (apply Rotator.index_of_spec; eauto).
  unfold Ratings.is_quarantined. unfold Rotator.cell in Hc. rewrite Hc.
  apply not_false_iff_true. intros Hf. by apply Hn, Ratings.health_of_alive.
Qed.

Lemma entry_dead n e : dead (entry_of n e) = negb (bool_decide (Ratings.h_state (Rotator.uh_health e) = Ratings.Alive)).
Proof. unfold dead, entry_of. by destruct (Ratings.h_state (Rotator.uh_health e)). Qed.

(** The records that are put back are those of the dead. *)
Lemma entries_dead m n now idle r : holds m n now r -> Rotator.wf r ->
  length (omap (entry_for m idle n) (Rotator.proxies r)) = length (List.filter dead (map (entry_of n) (Rotator.health r now))).
Proof.
  intros Hm Hw. pose proof (cells_length r Hw) as Hlen. unfold Rotator.len in Hlen.
  assert (Hk : forall k, (k <= length (Rotator.proxies r))%nat ->
    length (omap (entry_for m idle n) (take k (Rotator.proxies r)))
    = length (List.filter dead (map (entry_of n) (take k (Rotator.health r now))))).
  { induction k as [|k IH]; intros Hk; [done|]. destruct (lookup_lt_is_Some_2 (Rotator.proxies r) k ltac:(lia)) as [p Hp].
    destruct (lookup_lt_is_Some_2 (Ratings.qcells (Rotator.ratings r)) k ltac:(lia)) as [c Hc].
    assert (Hh : Rotator.health r now !! k = Some (Rotator.mkUpstreamHealth p (Ratings.health_of now c)))
      by (by rewrite Rotator.health_lookup, Hp; unfold Rotator.cell; rewrite Hc).
    rewrite (take_S_r _ _ _ Hp), (take_S_r _ _ _ Hh), omap_app, map_app, List.filter_app, !length_app, IH by lia. f_equal.
    cbn [omap list_omap map List.filter]. rewrite entry_dead, (entry_for_held m n now idle r k p c Hm Hp Hc), health_from_entry.
    cbn [Rotator.uh_health]. by destruct (Ratings.h_state (Ratings.health_of now c)). }
  specialize (Hk (length (Rotator.proxies r)) ltac:(lia)). rewrite !take_ge in Hk; [done| |done].
  unfold Rotator.health, Ratings.health. rewrite length_zip_with, length_map. lia.
Qed.

Lemma restore_total m idle clock (cnt : HealthGroup -> nat) groups : forall (n : Restored) (rs : list (Rotator.t F)),
  NoDup (map rotator groups) ->
  (forall g, g ∈ groups -> exists r, rs !! rotator g = Some r /\ forall acc,
     let entries := omap (entry_for m idle (name g)) (Rotator.proxies r) in
     total (foldl (count_one (Rotator.restore_health entries (clock (rotator g)) r).2) acc entries) = (total acc + cnt g)%nat) ->
  total (foldl (restore_group m idle clock) (n, rs) groups).1 = (total n + list_sum (map cnt groups))%nat.
Proof.
  induction groups as [|g gs IH]; intros n rs; cbn [map foldl]; unfold list_sum; cbn [foldr fst]; [lia|]; fold (list_sum (map cnt gs)).
  intros [Hg Hnd]%NoDup_cons Hall. destruct (Hall g) as (r & Hr & Hc); [left|].
  unfold restore_group at 2. rewrite Hr. rewrite IH; [|done|].
  - rewrite Hc. lia.
  - intros g' Hg'. destruct (Hall g') as (r' & Hr' & Hc'); [by right|]. exists r'. split; [|done].
    rewrite list_lookup_insert_ne; [done|]. intros Heq. apply Hg. rewrite Heq. apply list_elem_of_fmap. by exists g'.
Qed.

(** A rotator rebuilt over the same list, as it is before anything has failed. *)
Definition rebuilt (now' : Z) r r0 : Prop :=
  Rotator.wf r0 /\ Rotator.proxies r0 = Rotator.proxies r /\ Rotator.qpolicy r0 = Rotator.qpolicy r /\
  Forall (fun c => c = Quarantine.cell_default) (Ratings.qcells (Rotator.ratings r0)) /\
  Quarantine.enabled (Rotator.qpolicy r) = true /\ now' + Quarantine.max (Rotator.qpolicy r) <= INSTANT_MAX.

Lemma snapshot_holds groups now clock (rs : list (Rotator.t F)) g r : distinct groups rs -> Forall Rotator.wf rs ->
  g ∈ groups -> rs !! rotator g = Some r ->
  holds (saved (snapshot groups now clock rs)) (name g) (clock (rotator g)) r.
Proof.
  intros (Hn & _ & Hl) Hw Hg Hr e He. apply saved_lookup; [by apply snapshot_keys|].
  apply elem_of_snapshot. exists g. split; [done|]. unfold group_entries. rewrite Hr. by apply list_elem_of_fmap_2.
Qed.

Lemma restored_count m n now idle now' r r0 acc : holds m n now r -> Rotator.wf r -> rebuilt now' r r0 ->
  let entries := omap (entry_for m idle n) (Rotator.proxies r0) in
  total (foldl (count_one (Rotator.restore_health entries now' r0).2) acc entries)
  = (total acc + length (List.filter dead (map (entry_of n) (Rotator.health r now))))%nat.
Proof.
  intros Hm Hw (Hw0 & Hp & Hq & Hd & He & Hmax). cbn zeta.
  destruct (resumed_rotator m n now idle now' r r0 Hm Hw Hw0 Hp Hq He Hd Hmax) as [Hw1 Hh].
  rewrite count_all; [by rewrite Hp, entries_dead with (now := now)|]. apply Forall_forall.
  intros e (p & Hin & Hep)%list_elem_of_omap. rewrite Hp in Hin. apply list_elem_of_lookup in Hin as [i Hi].
  assert (Hrow : is_Some (Rotator.health r now !! i)).
  { apply lookup_lt_is_Some_2. unfold Rotator.health, Ratings.health. rewrite length_zip_with, length_map, cells_length by done.
    unfold Rotator.len. apply lookup_lt_Some in Hi. lia. }
  destruct Hrow as [x Hx]. pose proof Hx as Hx'. rewrite Rotator.health_lookup, Hi in Hx'.
  destruct (Rotator.cell r i) as [c|] eqn:Hc; [|done]. injection Hx' as <-.
  rewrite (entry_for_held m n now idle r i p c Hm Hi Hc), health_from_entry in Hep.
  assert (Rotator.uh_proxy e = p /\ Ratings.h_state (Ratings.health_of now c) <> Ratings.Alive) as [-> Hal]
    by (destruct (Ratings.h_state (Ratings.health_of now c)); [done|..]; injection Hep as <-; done).
  apply (shown_quarantined _ now' i p (resumed (Quarantine.max (Rotator.qpolicy r)) idle (Ratings.health_of now c)));
    [done| |by rewrite resumed_alive].
  by rewrite Hh, list_lookup_fmap, Hx.
Qed.

Lemma dead_snapshot groups now clock (rs : list (Rotator.t F)) :
  length (List.filter dead (upstreams (snapshot groups now clock rs)))
  = list_sum (map (fun g => length (List.filter dead (group_entries clock rs g))) groups).
Proof.
  cbn. induction groups as [|g gs IH]; [done|]. cbn. by rewrite List.filter_app, length_app, IH.
Qed.

(** A restart resumes with the picture that was saved. When the snapshot of the groups
    was written, a process that reads it into rotators rebuilt over the same lists, however
    much later, has every upstream as it was: an upstream that was well is well, one that
    was quarantined stays so for the whole seconds it had left less the seconds that have
    passed, one that has none left is on probation, and trips and failures are kept. The
    number reported is the number of upstreams that were not well. *)
Theorem health_restart (to_string : HealthFile -> option bytes) (from_str : bytes -> option HealthFile)
    groups now now' clock clock' (rs rs0 : list (Rotator.t F)) a w w' :
  (forall f text, to_string f = Some text -> from_str text = Some f) ->
  distinct groups rs -> Forall Rotator.wf rs ->
  (forall g, g ∈ groups -> exists r r0, rs !! rotator g = Some r /\ rs0 !! rotator g = Some r0 /\
     rebuilt (clock' (rotator g)) r r0) ->
  save_offloaded to_string a (snapshot groups now clock rs) w = (Ok tt, w') ->
  let '(res, rs1) := resume from_str groups true w' now' clock' rs0 in
  r_saved res = Some (snapshot groups now clock rs) /\ warned res = false /\
  total (r_restored res) = length (List.filter dead (upstreams (snapshot groups now clock rs))) /\
  forall g r, g ∈ groups -> rs !! rotator g = Some r ->
    exists r1, rs1 !! rotator g = Some r1 /\ Rotator.wf r1 /\
      Rotator.health r1 (clock' (rotator g)) =
        map (resumed_one (Quarantine.max (Rotator.qpolicy r)) (from_secs (saturating_sub now' now)))
          (Rotator.health r (clock (rotator g))).
Proof.
  intros Hcodec Hd Hw Hre Hs. destruct (save_offloaded_spec _ _ _ _ _ _ Hs) as [[_ ?]|(text & Ht & Hw')]; [done|].
  apply fmap_Some in Hw' as (f & Hf & ->). unfold resume, load. rewrite Hf, (Hcodec _ _ Ht).
  unfold restore. cbn [saved_at snapshot]. fold (snapshot groups now clock rs).
  set (m := saved (snapshot groups now clock rs)). set (idle := from_secs (saturating_sub now' now)).
  pose proof Hd as (_ & Hnd & _).
  pose proof (restore_groups m idle clock' groups Restored_default rs0 Hnd) as Hg.
  pose proof (restore_total m idle clock' (fun g => length (List.filter dead (group_entries clock rs g))) groups
    Restored_default rs0 Hnd) as Ht'.
  destruct (foldl (restore_group m idle clock') (Restored_default, rs0) groups) as [res rs1]. destruct Hg as [_ Hg].
  split; [done|]. split; [done|]. split.
  - cbn [r_restored fst] in *. rewrite Ht', dead_snapshot; [done|]. intros g Hin. destruct (Hre g Hin) as (r & r0 & Hr & Hr0 & Hb).
    exists r0. split; [done|]. intros acc. unfold group_entries. rewrite Hr.
    apply restored_count; [by apply snapshot_holds | by eapply Forall_lookup_Some | done].
  - intros g r Hin Hr. destruct (Hre g Hin) as (r' & r0 & Hr' & Hr0 & Hb). assert (r' = r) as -> by congruence.
    eexists. split; [by apply Hg|]. destruct Hb as (Hw0 & Hp & Hq & Hdef & He & Hmax).
    apply resumed_rotator; [by apply snapshot_holds | by eapply Forall_lookup_Some | done..].
Qed.

(** ** The saver *)

Section SaverLaws.
Context (to_string : HealthFile -> option bytes).
Variable groups : list HealthGroup.
Implicit Types ts : list (Tick (F := F)).

Lemma round_spec current a s w s' w' : round to_string current a (s, w) = (s', w') ->
  (s' = s /\ w' = w /\ exists l, last s = Some l /\ signature l = signature current) \/
  (last s' = Some current /\ failing s' = false /\ whole to_string current (target w')) \/
  (failing s' = true /\ (target w' = target w \/ whole to_string current (target w'))).
Proof.
  unfold round. destruct (match last s with Some l => _ | None => false end) eqn:E.
  { destruct (last s) as [l|]; [|done]. intros [= <- <-]. left. apply bool_decide_eq_true in E. eauto. }
  destruct (save_offloaded to_string a current w) as [r w1] eqn:Es. pose proof (save_offloaded_spec _ _ _ _ _ _ Es) as Hs.
  destruct r as [[]|e]; intros [= <- <-]; right.
  - left. destruct Hs as [[_ ?]|Hs]; [done|]. done.
  - right. split; [done|]. destruct Hs as [[-> _]|]; auto.
Qed.

(** What the loop knows after the rounds [ts], begun over [w0]. *)
Definition up_to_date (initial : option HealthFile) (w0 : Disk) ts (s : Saver) (w : Disk) : Prop :=
  match list.last ts with
  | None => last s = initial /\ target w = target w0
  | Some t => exists l, last s = Some l /\ signature l = signature (picture groups t) /\
      (initial = Some l /\ target w = target w0 \/ whole to_string l (target w))
  end.

Lemma run_saver_spec initial ts w s w' : run_saver to_string groups initial ts w = (s, w') ->
  (target w' = target w \/ exists t, t ∈ ts /\ whole to_string (picture groups t) (target w')) /\
  (failing s = false -> up_to_date initial w ts s w').
Proof.
  unfold run_saver, up_to_date. revert s w'. induction ts as [|t ts IH] using rev_ind; intros s w'.
  { intros [= <- <-]. cbn. auto. }
  rewrite foldl_snoc, last_snoc. destruct (foldl _ _ ts) as [s1 w1]. specialize (IH s1 w1 eq_refl) as [IHt IHf].
  assert (Hmono : target w1 = target w \/ (exists t0, t0 ∈ ts ++ [t] /\ whole to_string (picture groups t0) (target w1))).
  { destruct IHt as [|(t0 & Ht0 & Hw)]; [by left|]. right. exists t0. split; [apply elem_of_app; by left | done]. }
  assert (Hin : t ∈ ts ++ [t]) by (apply elem_of_app; right; by left).
  intros [(-> & -> & l & Hl & Hsig) | [(Hl & Hff & Hw) | (Hff & Hw)]]%round_spec.
  - split; [done|]. intros Hff. specialize (IHf Hff). exists l. split; [done|]. split; [done|].
    destruct (list.last ts) as [t0|]; [|left; destruct IHf; split; congruence].
    destruct IHf as (l' & Hl' & _ & Hcase). assert (l' = l) as -> by congruence. done.
  - split; [right; by exists t|]. intros _. exists (picture groups t). auto.
  - split; [|congruence]. destruct Hw as [->|Hw]; [done | right; by exists t].
Qed.

(** C14: Whatever fails and whenever, the file is what it was or the whole of one picture
    taken since. While nothing is failing, the last picture on file, by what was read at
    the start or by what was written, agrees with the rotators in everything but the
    countdowns. The final write is as whole, and one that works leaves the final picture. *)
Theorem saver_file initial ts w s w' stop (t : Tick (F := F)) res w'' :
  run_saver to_string groups initial ts w = (s, w') -> finish to_string groups stop t (s, w') = (res, w'') ->
  (target w' = target w \/ exists t, t ∈ ts /\ whole to_string (picture groups t) (target w')) /\
  (failing s = false -> up_to_date initial w ts s w') /\
  (target w'' = target w' \/ whole to_string (picture groups t) (target w'')) /\
  (res = Some (Ok tt) -> whole to_string (picture groups t) (target w'')).
Proof.
  intros [Hr Hu]%run_saver_spec Hf. split; [done|]. split; [done|]. unfold finish in Hf. cbn [snd] in Hf.
  destruct stop; [| |injection Hf as <- <-; split; [by left | discriminate]];
    destruct (save_offloaded to_string (tick_attempt t) (picture groups t) w') as [r1 w1] eqn:Es;
    pose proof (save_offloaded_spec _ _ _ _ _ _ Es) as Hs; injection Hf as <- <-;
    (split; [destruct Hs as [[? _]|]; [by left | by right] | intros [= ->]; by destruct Hs as [[_ ?]|]]).
Qed.
End SaverLaws.

(** ** Passwords *)

Definition same_but_password (p p' : ProxyConfig) : Prop :=
  protocol p = protocol p' /\ host p = host p' /\ port p = port p' /\ user p = user p' /\ gate_level p = gate_level p'.

(** What is saved does not depend on any password. *)
Theorem snapshot_without_passwords groups now clock (rs rs' : list (Rotator.t F)) :
  Forall2 (fun r r' => Rotator.ratings r = Rotator.ratings r' /\
             Forall2 same_but_password (Rotator.proxies r) (Rotator.proxies r')) rs rs' ->
  snapshot groups now clock rs = snapshot groups now clock rs'.
Proof.
  intros Hrs. unfold snapshot. f_equal. f_equal. apply map_ext. intros g. unfold group_entries.
  pose proof (Forall2_length _ _ _ Hrs) as Hlen.
  destruct (rs !! rotator g) as [r|] eqn:Er; destruct (rs' !! rotator g) as [r'|] eqn:Er'.
  - destruct (Forall2_lookup_lr _ _ _ _ _ _ Hrs Er Er') as [Hq Hp]. unfold Rotator.health. rewrite <- Hq.
    generalize (Ratings.health (Rotator.ratings r) (clock (rotator g))). clear -Hp.
    induction Hp as [|p p' ps ps' (H1 & H2 & H3 & H4 & H5) _ IH]; intros [|h hs]; [done..|]. cbn. f_equal; [|apply IH].
    unfold entry_of, upstream_label. cbn. by rewrite H1, H2, H3, H4, H5.
  - apply lookup_lt_Some in Er. apply lookup_ge_None in Er'. lia.
  - apply lookup_lt_Some in Er'. apply lookup_ge_None in Er. lia.
  - done.
Qed.
End Laws.

(** ** A concrete restart

    Two groups with the same two upstreams: in the first one "b" is quarantined. *)
#[local] Existing Instance Ratings.demo_float.
#[local] Existing Instance Ratings.demo_laws.

(** A codec: the bits of stdpp's encoding. *)
#[local] Instance HealthEntry_countable : Countable HealthEntry.
Proof.
  refine (inj_countable' (fun e => (upstream e, gate e, group e, state e, remaining_sec e, trips e, failures e))
    (fun x => let '(a, b, c, d, e, f, g) := x in mkEntry a b c d e f g) _). by intros [].
Defined.
#[local] Instance HealthFile_countable : Countable HealthFile.
Proof.
  refine (inj_countable' (fun f => (saved_at f, upstreams f)) (fun x => mkFileOf x.1 x.2) _). by intros [].
Defined.
Fixpoint demo_bits (p : positive) : bytes :=
  match p with xH => [] | xO p => "0"%char :: demo_bits p | xI p => "1"%char :: demo_bits p end.
Fixpoint demo_number (s : bytes) : positive :=
  match s with
  | [] => xH
  | c :: s => if bool_decide (c = "1"%char) then xI (demo_number s) else xO (demo_number s)
  end.
Definition demo_to_string (f : HealthFile) : option bytes := Some (demo_bits (encode f)).
Definition demo_from_str (s : bytes) : option HealthFile := decode (demo_number s).

Lemma demo_number_bits p : demo_number (demo_bits p) = p.
Proof. by induction p as [p IH|p IH|]; cbn; rewrite ?IH. Qed.
Lemma demo_health_codec f text : demo_to_string f = Some text -> demo_from_str text = Some f.
Proof. intros [= <-]. unfold demo_from_str. by rewrite demo_number_bits, decode_encode. Qed.

Definition demo_groups : list HealthGroup := [mkGroup (lit "v6") 0; mkGroup (lit "v4") 1].
Definition demo_b_down : Rotator.t Rotator.F64t := (Rotator.quarantine_now (Rotator.up (lit "b")) (from_secs 3) Rotator.demo).2.
Definition demo_before : list (Rotator.t Rotator.F64t) := [demo_b_down; Rotator.demo].
Definition demo_after : list (Rotator.t Rotator.F64t) :=
  [Rotator.demo_with (fun i => i.1.1.1.2) 2; Rotator.demo_with (fun i => i.1.1.1.2) 2].
Definition demo_works : Attempt := mkAttempt Works (replicate 10 Works).
Definition demo_disk : Disk := mkDisk None None None 0 [].
Definition demo_at (t : Z) : nat -> Z := fun _ => from_secs t.

Example demo_label : upstream_label (ProxyTypes.with_auth (Rotator.up (lit "b")) (lit "me") (lit "secret")) = lit "socks5://me@b:1080".
Proof. vm_compute. reflexivity. Qed.

(** The file is written 5 s into a quarantine of 30; the process is back 15 s later. *)
Example demo_restart :
  let '(r, w) := save_offloaded demo_to_string demo_works (snapshot demo_groups 1000 (demo_at 8) demo_before) demo_disk in
  let '(res, rs) := resume demo_from_str demo_groups true w 1015 (demo_at 7) demo_after in
  (r, r_restored res, map (fun r => map Rotator.uh_health (Rotator.health r (from_secs 7))) rs)
  = (Ok tt, mkRestored 1 0,
     [[Ratings.mkHealth Ratings.Alive 0 0 0; Ratings.mkHealth Ratings.UQuarantined (from_secs 10) 1 3];
      [Ratings.mkHealth Ratings.Alive 0 0 0; Ratings.mkHealth Ratings.Alive 0 0 0]]).
Proof. vm_compute. reflexivity. Qed.

Lemma demo_before_wf : Forall Rotator.wf demo_before.
Proof.
  apply Forall_cons; split; [apply Rotator.rotator_quarantine_now_wf|apply Forall_singleton]; apply Rotator.demo_with_wf.
Qed.

Lemma demo_distinct (rs : list (Rotator.t Rotator.F64t)) : Forall (fun r => Rotator.proxies r = [Rotator.up (lit "a"); Rotator.up (lit "b")]) rs ->
  distinct demo_groups rs.
Proof.
  intros Hrs. split; [|split].
  - apply (bool_decide_unpack _). by vm_compute.
  - apply (bool_decide_unpack _). by vm_compute.
  - intros g r _ Hr. unfold labels. rewrite (Forall_lookup_Some _ _ _ _ Hrs Hr).
    apply (bool_decide_unpack _). by vm_compute.
Qed.

Lemma demo_rebuilt (g : HealthGroup) : g ∈ demo_groups -> exists r r0, demo_before !! rotator g = Some r /\
  demo_after !! rotator g = Some r0 /\ rebuilt (demo_at 7 (rotator g)) r r0.
Proof.
  intros [->|[->|Hx%not_elem_of_nil]%elem_of_cons]%elem_of_cons; [| |done]; (eexists _, _; split; [reflexivity|]; split; [reflexivity|]);
    (split; [apply Rotator.demo_with_wf|]); (repeat split); [repeat constructor | vm_compute; congruence | repeat constructor | vm_compute; congruence].
Qed.

Lemma demo_written :
  (save_offloaded demo_to_string demo_works (snapshot demo_groups 1000 (demo_at 8) demo_before) demo_disk).1 = Ok tt.
Proof. vm_compute. reflexivity. Qed.

Lemma health_restart_witness :
  let w' := (save_offloaded demo_to_string demo_works (snapshot demo_groups 1000 (demo_at 8) demo_before) demo_disk).2 in
  let '(res, rs1) := resume demo_from_str demo_groups true w' 1015 (demo_at 7) demo_after in
  r_saved res = Some (snapshot demo_groups 1000 (demo_at 8) demo_before) /\ warned res = false /\
  total (r_restored res) = length (List.filter dead (upstreams (snapshot demo_groups 1000 (demo_at 8) demo_before))) /\
  forall g r, g ∈ demo_groups -> demo_before !! rotator g = Some r ->
    exists r1, rs1 !! rotator g = Some r1 /\ Rotator.wf r1 /\
      Rotator.health r1 (demo_at 7 (rotator g)) =
        map (resumed_one (Quarantine.max (Rotator.qpolicy r)) (from_secs (saturating_sub 1015 1000)))
          (Rotator.health r (demo_at 8 (rotator g))).
Proof.
  cbn zeta. eapply (health_restart demo_to_string demo_from_str demo_groups 1000 1015 (demo_at 8) (demo_at 7)
    demo_before demo_after demo_works demo_disk _ demo_health_codec).
  - apply demo_distinct. repeat constructor.
  - exact demo_before_wf.
  - exact demo_rebuilt.
  - rewrite <- demo_written. apply surjective_pairing.
Defined.

(** ** Rounds *)

Definition demo_tick (b_down : bool) (a : Attempt) : Tick (F := Rotator.F64t) :=
  mkTick 1000 (demo_at 8) (if b_down then demo_before else [Rotator.demo; Rotator.demo]) a.
(** The replacement is made, and the directory cannot be synced. *)
Definition demo_unsynced : Attempt := mkAttempt Works (replicate 6 Works ++ [UsersFile.Fails]).
Definition demo_ticks : list (Tick (F := Rotator.F64t)) :=
  [demo_tick false demo_works; demo_tick false demo_works; demo_tick true (mkAttempt Works [Works; UsersFile.Fails]); demo_tick true demo_works].
Abbreviation demo_loop := (run_saver demo_to_string demo_groups None demo_ticks demo_disk).

Lemma saver_file_witness :
  (target demo_loop.2 = target demo_disk \/
   exists t, t ∈ demo_ticks /\ whole demo_to_string (picture demo_groups t) (target demo_loop.2)) /\
  reports demo_loop.1 = [Save UsersFile.CreateFailed] /\
  up_to_date demo_to_string demo_groups None demo_disk demo_ticks demo_loop.1 demo_loop.2.
Proof.
  destruct (saver_file demo_to_string demo_groups None demo_ticks demo_disk demo_loop.1 demo_loop.2 Joined
    (demo_tick true demo_works) _ _ (surjective_pairing _) (surjective_pairing _)) as (H1 & H2 & _).
  split; [exact H1|]. split; [vm_compute; reflexivity|]. apply H2. vm_compute. reflexivity.
Defined.

(** When the directory cannot be synced after the replacement, the loop takes the new
    picture for not written: when the next picture is the old one again, it leaves the
    file as it is. *)
Theorem saver_stale :
  let σ := run_saver demo_to_string demo_groups None
    [demo_tick false demo_works; demo_tick true demo_unsynced; demo_tick false demo_works; demo_tick false demo_works] demo_disk in
  last σ.1 = Some (picture demo_groups (demo_tick false demo_works)) /\
  data <$> target σ.2 = demo_to_string (picture demo_groups (demo_tick true demo_works)).
Proof. cbv zeta. apply (bool_decide_unpack _). by vm_compute. Qed.
End Health.
