(* ===== verification/Startup.v ===== *)
(** Start-up (src/crates/resocks5/src/server/bootstrap/startup.rs): from the configuration
    to the state the server runs with.

    - reading the upstream lists ([parse_proxy_list_checked]);
    - splitting the upstreams into exits and gate levels;
    - building a rotator per group, and whether there is anything to serve
      ([run_server_inner], up to [server::run_server]).

    The rotators are the store of [ChainPlan]; hashers, clock and seeds are the
    environment's. What is printed and logged is left out. *)
From S2P Require Import Prelude Text TextFmt ProxyTypes Errors Floats Rating Quarantine Ratings Sticky Rotator ChainPlan Clients Users Auth Pool Dial PoolDial Probes Health.

Module Startup.
Import Health(HealthGroup, mkGroup, name, rotator).

(** ** Is there a route? *)

Definition should_bail_no_upstreams (no_usable_route : bool) (users : list Users.User) : bool :=
  if negb no_usable_route then false
  else
    let has_active_direct := existsb (fun u => Users.is_enabled u && Users.direct u) users in
    negb has_active_direct.

Definition has_usable_route (has_v4_rotator has_v6_rotator : bool) : bool := has_v4_rotator || has_v6_rotator.

(** ** Reading a list *)

(** The loop from line [idx] on. *)
Fixpoint parse_lines (idx : nat) (lines : list bytes) (proto : ProxyProtocol)
    (parsed : list ProxyConfig) (failed : list nat) : list ProxyConfig * list nat :=
  match lines with
  | [] => (parsed, failed)
  | line :: lines' =>
      if starts_with (lit "#") line then parse_lines (S idx) lines' proto parsed failed
      else
        match parse_proxy_str line proto with
        | Ok config => parse_lines (S idx) lines' proto (parsed ++ [config]) failed
        | Err _ => parse_lines (S idx) lines' proto parsed (failed ++ [(idx + 1)%nat])
        end
  end.

Definition parse_proxy_list_checked (lines : list bytes) (proto : ProxyProtocol)
    : list ProxyConfig * list nat :=
  parse_lines 0 lines proto [] [].

Definition skipped_line_message (list_name : bytes) (line_no : nat) : bytes :=
  lit "warning: " ++ list_name ++ lit "[" ++ fmt_dec (Z.of_nat line_no) ++ lit "]: failed to parse proxy entry "
  ++ map byte_of [226; 128; 148] ++ lit " line skipped (entry redacted)".

(** With what is printed. *)
Definition parse_proxy_list (list_name : bytes) (lines : list bytes) (proto : ProxyProtocol)
    : list ProxyConfig * list bytes :=
  let '(parsed, failed) := parse_proxy_list_checked lines proto in
  (parsed, map (skipped_line_message list_name) failed).

(** ** Groups *)

Class GateSplit (P : Type) := { gs_is_gate : P -> bool; gs_gate_level : P -> Z }.
#[export] Instance proxy_gate_split : GateSplit ProxyConfig := {
  gs_is_gate := is_gate;
  gs_gate_level := gate_level
}.

Section Groups.
Context {P : Type} `{GateSplit P}.

(** One of the two loops. *)
Fixpoint split_gates (all plain gates : list P) : list P * list P :=
  match all with
  | [] => (plain, gates)
  | proxy :: all' =>
      if gs_is_gate proxy then split_gates all' plain (gates ++ [proxy])
      else split_gates all' (plain ++ [proxy]) gates
  end.

Definition partition_proxy_groups (all_v6 all_v4 : list P) : list P * list P * list P :=
  let '(v6, gates) := split_gates all_v6 [] [] in
  let '(v4, gates) := split_gates all_v4 [] gates in
  (v6, v4, gates).

(** A [BTreeMap] is the list of its entries, in order. *)
Fixpoint entry_push (k : Z) (x : P) (m : list (Z * list P)) : list (Z * list P) :=
  match m with
  | [] => [(k, [x])]
  | (k', xs) :: m' =>
      if k <? k' then (k, [x]) :: m
      else if k =? k' then (k', xs ++ [x]) :: m'
      else (k', xs) :: entry_push k x m'
  end.

Definition group_gate_levels (gates : list P) : list (Z * list P) :=
  foldl (fun levels gate => entry_push (gs_gate_level gate) gate levels) [] gates.
End Groups.

(** Handles: the outermost gate level, then the exits. *)
Definition directly_dialed_rotators (gates : list (Z * nat)) (exits : list (option nat)) : list nat :=
  map snd (take 1 gates) ++ omap id exits.

(** ** Settings of older versions *)

(** [str::lines]. *)
Definition str_lines (s : bytes) : list bytes :=
  let pieces := split_all LF s in
  map (fun l => default l (strip_suffix1 CR l)) (removelast pieces)
  ++ match last pieces with Some [] | None => [] | Some l => [l] end.

Definition trim_start (s : bytes) : bytes :=
  match utf8_chars s with
  | Some l => concat (map snd (drop_while (fun c => char_is_whitespace c.1) l))
  | None => s
  end.

Definition obsolete_cb_keys (text : bytes) : list bytes :=
  omap (fun line =>
    let line := trim_start line in
    if starts_with (lit "cb_") line then
      '(name, _) ← split_once ":"%char (drop 3 line);
      Some (lit "cb_" ++ str_trim name)
    else None) (str_lines text).

(** The lines of a list of an older version. *)
Definition read_proxy_lines (text : bytes) : list bytes :=
  List.filter (fun line => negb (bool_decide (line = [])) && negb (starts_with (lit "#") line)) (map str_trim (str_lines text)).

(** ** Configuration *)

Record ProxyListConfig := mkProxyListConfig {
  socks5_v4 : list bytes; socks5_v6 : list bytes;
  http_v4 : list bytes; http_v6 : list bytes;
  https_v4 : list bytes; https_v6 : list bytes
}.

(** What start-up reads of [MainConfig]; the five [sand_*] knobs are the policy. *)
Record MainConfig (F : Type) := mkMainConfig {
  allow_anonymous : bool;
  allowed_clients : bytes;
  rating_policy : Policy.RatingPolicy F;
  connect_timeout_sec : Z;
  handshake_timeout_sec : Z;
  quarantine_threshold : Z;
  quarantine_initial_sec : Z;
  quarantine_max_sec : Z;
  health_save_sec : Z
}.
Arguments mkMainConfig {F}.
Arguments allow_anonymous {F}.
Arguments allowed_clients {F}.
Arguments rating_policy {F}.
Arguments connect_timeout_sec {F}.
Arguments handshake_timeout_sec {F}.
Arguments quarantine_threshold {F}.
Arguments quarantine_initial_sec {F}.
Arguments quarantine_max_sec {F}.
Arguments health_save_sec {F}.

Definition ProxyListConfig_default : ProxyListConfig := mkProxyListConfig [] [] [] [] [] [].

(** The lists a first run begins with: [None] where there is no file of the older
    version; an unreadable one is an error. *)
Definition migrate (old_v4 old_v6 : option (option bytes)) : option ProxyListConfig :=
  let read (old : option (option bytes)) :=
    match old with None => Some [] | Some None => None | Some (Some text) => Some (read_proxy_lines text) end in
  v4 ← read old_v4; v6 ← read old_v6;
  Some (mkProxyListConfig v4 v6 [] [] [] []).

(** The lists of one address family, in order. *)
Definition all_v6 (pl : ProxyListConfig) : list ProxyConfig * list bytes :=
  let '(a, f1) := parse_proxy_list (lit "socks5_v6") (socks5_v6 pl) Socks5 in
  let '(b, f2) := parse_proxy_list (lit "http_v6") (http_v6 pl) Http in
  let '(c, f3) := parse_proxy_list (lit "https_v6") (https_v6 pl) Https in
  (a ++ b ++ c, f1 ++ f2 ++ f3).
Definition all_v4 (pl : ProxyListConfig) : list ProxyConfig * list bytes :=
  let '(a, f1) := parse_proxy_list (lit "socks5_v4") (socks5_v4 pl) Socks5 in
  let '(b, f2) := parse_proxy_list (lit "http_v4") (http_v4 pl) Http in
  let '(c, f3) := parse_proxy_list (lit "https_v4") (https_v4 pl) Https in
  (a ++ b ++ c, f1 ++ f2 ++ f3).

(** ** Building *)

Section Start.
Context {F : Type} `{Float F}.
Local Abbreviation Store := (list (Rotator.t F)).

Inductive StartError :=
| BadAllowedClients (e : Clients.Error)
| BadUsers (e : Auth.BuildError)
| BadPolicy (e : Rotator.RotatorError F)
| NoUpstreams.

Definition validate_allowed_clients (cfg : MainConfig F) (users : list Users.User)
    (random : option bytes) (parallelism : option nat) : result StartError (Clients.AllowedClients * Auth.AuthState) :=
  rule ← map_err BadAllowedClients (Clients.compile_allowed_clients (allowed_clients cfg));
  auth ← map_err BadUsers (Auth.build (allow_anonymous cfg) users random parallelism);
  Ok (rule, auth).

(** With [depth] gate levels. *)
Definition quarantine_policy (cfg : MainConfig F) (depth : nat) : Quarantine.QuarantinePolicy :=
  let lease := Probes.probe_lease (from_secs (connect_timeout_sec cfg)) (from_secs (handshake_timeout_sec cfg)) depth in
  Quarantine.with_probe_lease
    (Quarantine.with_max
      (Quarantine.with_initial
        (Quarantine.with_threshold Quarantine.default (quarantine_threshold cfg))
        (from_secs (quarantine_initial_sec cfg)))
      (from_secs (quarantine_max_sec cfg))) lease.

(** What the [k]-th rotator built is given. *)
Variables (hasher : nat -> Rotator.RandomState) (clock seed : nat -> Z).
Variable cfg : MainConfig F.

Definition new_rotator (depth : nat) (rs : Store) (proxies : list ProxyConfig) : result StartError (nat * Store) :=
  let k := length rs in
  r ← map_err BadPolicy (Rotator.try_with_quarantine proxies (rating_policy cfg) (quarantine_policy cfg depth)
        Rotator.DEFAULT_STICKY_CACHE_MAX_ENTRIES Rotator.DEFAULT_STICKY_CACHE_TTL (hasher k) (clock k) (seed k));
  Ok (k, rs ++ [r]).

Definition exit_rotator (depth : nat) (rs : Store) (proxies : list ProxyConfig) : result StartError (option nat * Store) :=
  match proxies with
  | [] => Ok (None, rs)
  | _ => '(k, rs) ← new_rotator depth rs proxies; Ok (Some k, rs)
  end.

Fixpoint gate_rotators (depth : nat) (rs : Store) (groups : list (Z * list ProxyConfig))
    : result StartError (list (Z * nat) * Store) :=
  match groups with
  | [] => Ok ([], rs)
  | (rank, proxies) :: groups' =>
      '(k, rs) ← new_rotator depth rs proxies;
      '(gates, rs) ← gate_rotators depth rs groups';
      Ok ((rank, k) :: gates, rs)
  end.

Record Routes := mkRoutes {
  gate_levels : list (Z * nat); v6_rotator : option nat; v4_rotator : option nat; store : Store
}.

Definition routes (pl : ProxyListConfig) : result StartError Routes :=
  let '(v6_proxies, v4_proxies, gate_proxies) := partition_proxy_groups (all_v6 pl).1 (all_v4 pl).1 in
  let gate_groups := group_gate_levels gate_proxies in
  let depth := length gate_groups in
  '(v6, rs) ← exit_rotator depth [] v6_proxies;
  '(gates, rs) ← gate_rotators depth rs gate_groups;
  '(v4, rs) ← exit_rotator depth rs v4_proxies;
  Ok (mkRoutes (ChainPlan.GateLevels_new gates) v6 v4 rs).

Definition health_groups (r : Routes) : list HealthGroup :=
  map (fun g => mkGroup (lit "gate" ++ fmt_dec g.1) g.2) (gate_levels r)
  ++ match v6_rotator r with Some i => [mkGroup (lit "v6") i] | None => [] end
  ++ match v4_rotator r with Some i => [mkGroup (lit "v4") i] | None => [] end.

(** What the server starts with. *)
Record Started := mkStarted {
  rule : Clients.AllowedClients; auth : Auth.AuthState; routing : Routes;
  skipped : list bytes; only_direct : bool; has_https : bool; saves_health : bool
}.

Definition run_server_inner (pl : ProxyListConfig) (users : list Users.User) (random : option bytes)
    (parallelism : option nat) : result StartError Started :=
  '(rule, auth) ← validate_allowed_clients cfg users random parallelism;
  r ← routes pl;
  let no_usable_route := negb (has_usable_route (bool_decide (is_Some (v4_rotator r))) (bool_decide (is_Some (v6_rotator r)))) in
  if should_bail_no_upstreams no_usable_route users then Err NoUpstreams
  else
    Ok (mkStarted rule auth r ((all_v6 pl).2 ++ (all_v4 pl).2) no_usable_route
          (negb (bool_decide (https_v4 pl = [])) || negb (bool_decide (https_v6 pl = [])))
          ((0 <? health_save_sec cfg) && (0 <? quarantine_threshold cfg))).

(** The rotators checked at once after a start without a saved picture. *)
Definition checked_at_start (s : Started) (health_found : bool) : list nat :=
  if (0 <? quarantine_threshold cfg) && negb health_found
  then directly_dialed_rotators (gate_levels (routing s)) [v6_rotator (routing s); v4_rotator (routing s)]
  else [].

(** Spare connections for what is dialed directly. *)
Definition spawn_refills (r : Routes) (pool : Pool.t) : Pool.t :=
  if Pool.enabled (Pool.config pool) then
    foldl (fun pool p => Pool.spawn_refill_for (Pool.key_of p) pool) pool
      (concat (map (ChainPlan.all_proxies (store r))
        (directly_dialed_rotators (gate_levels r) [v6_rotator r; v4_rotator r])))
  else pool.

(** The checks of each rotator, as they complete. *)
Definition quarantine_unreachable_at_start (rotators : list nat)
    (done : nat -> list (ProxyConfig * Rotator.CheckResult * Z)) (rs : Store) : Store :=
  foldl (fun rs i => (ChainPlan.with_rotator rs i [] (Rotator.drain_start (done i))).2) rs rotators.
End Start.

(** ** Lists *)

Definition comment (line : bytes) : bool := starts_with (lit "#") line.

(** A line that is dropped. *)
Definition bad (proto : ProxyProtocol) (line : bytes) : bool :=
  negb (comment line) && negb (is_ok (parse_proxy_str line proto)).
Definition entry (proto : ProxyProtocol) (line : bytes) : option ProxyConfig :=
  match parse_proxy_str line proto with Ok c => Some c | Err _ => None end.

Lemma parse_comment proto line : comment line = true -> entry proto line = None.
Proof.
  unfold comment, entry, parse_proxy_str. intros ->. by destruct (bool_decide _).
Qed.

(** The upstreams are those of the lines that can be read, in their order, and what is
    reported are the numbers of the others, comments apart. *)
Lemma parse_lines_spec proto lines : forall idx parsed failed,
  parse_lines idx lines proto parsed failed =
  (parsed ++ omap (entry proto) lines,
   failed ++ omap (fun x => if bad proto x.2 then Some (x.1 + 1)%nat else None) (zip (seq idx (length lines)) lines)).
Proof.
  induction lines as [|l lines IH]; intros idx parsed failed; cbn [parse_lines length seq zip zip_with].
  - cbn. by rewrite !app_nil_r.
  - cbn [omap list_omap fst snd]. unfold bad at 1. fold (comment l). destruct (comment l) eqn:Ec; cbn [negb andb].
    + by rewrite IH, parse_comment.
    + unfold entry at 1. destruct (parse_proxy_str l proto); cbn [is_ok negb]; rewrite IH, <- app_assoc; done.
Qed.

Section Splitting.
Context {P : Type} `{GateSplit P}.

Lemma split_gates_spec all : forall plain gates,
  split_gates all plain gates =
  (plain ++ List.filter (fun p => negb (gs_is_gate p)) all, gates ++ List.filter gs_is_gate all).
Proof.
  induction all as [|p all IH]; intros plain gates; cbn; [by rewrite !app_nil_r|].
  destruct (gs_is_gate p); cbn; rewrite IH, <- app_assoc; done.
Qed.

Lemma partition_spec v6 v4 :
  partition_proxy_groups v6 v4 =
  (List.filter (fun p => negb (gs_is_gate p)) v6, List.filter (fun p => negb (gs_is_gate p)) v4,
   List.filter gs_is_gate v6 ++ List.filter gs_is_gate v4).
Proof. unfold partition_proxy_groups. rewrite split_gates_spec. cbn. by rewrite split_gates_spec. Qed.

Lemma filter_negb_perm (f : P -> bool) l : List.filter (fun p => negb (f p)) l ++ List.filter f l ≡ₚ l.
Proof.
  induction l as [|x l IH]; [done|]. cbn. destruct (f x); cbn; [|by rewrite IH].
  by rewrite <- Permutation_middle, IH.
Qed.

(** Every upstream goes to one group. *)
Theorem partition_is_permutation v6 v4 :
  let '(a, b, g) := partition_proxy_groups v6 v4 in a ++ b ++ g ≡ₚ v6 ++ v4.
Proof.
  rewrite partition_spec. rewrite <- (filter_negb_perm gs_is_gate v6) at 3. rewrite <- (filter_negb_perm gs_is_gate v4) at 3.
  rewrite <- !app_assoc. f_equiv. rewrite !app_assoc. f_equiv. apply Permutation_app_comm.
Qed.

(** The gates of a level. *)
Fixpoint level (k : Z) (m : list (Z * list P)) : list P :=
  match m with
  | [] => []
  | (k', xs) :: m' => if k' =? k then xs else level k m'
  end.

(** Levels in ascending order, none empty, each with its gates in their order. *)
Definition levels_of (gs : list P) (m : list (Z * list P)) : Prop :=
  StronglySorted Z.lt (map fst m) /\ Forall (fun e => e.2 <> []) m /\
  forall k, level k m = List.filter (fun g => gs_gate_level g =? k) gs.

Lemma entry_push_key k (x : P) m k' : k' ∈ map fst (entry_push k x m) <-> k' = k \/ k' ∈ map fst m.
Proof.
  induction m as [|[k1 xs] m IH]; cbn [entry_push map fst].
  - rewrite list_elem_of_singleton. split; [by left | intros [?|?%not_elem_of_nil]; done].
  - destruct (k <? k1); [cbn [map fst]; by rewrite elem_of_cons|]. destruct (k =? k1) eqn:E; cbn [map fst]; rewrite elem_of_cons; zify_bools.
    + subst. tauto.
    + rewrite IH, elem_of_cons. tauto.
Qed.

Lemma entry_push_sorted k (x : P) m : StronglySorted Z.lt (map fst m) -> StronglySorted Z.lt (map fst (entry_push k x m)).
Proof.
  induction m as [|[k1 xs] m IH]; cbn [entry_push map fst]; [repeat constructor|].
  intros [Hs Hk]%StronglySorted_inv. destruct (k <? k1) eqn:E1; [|destruct (k =? k1) eqn:E2]; cbn [map fst]; zify_bools.
  - constructor; [by constructor|]. constructor; [done|]. eapply Forall_impl; [exact Hk|]. cbn. intros; lia.
  - by constructor.
  - constructor; [by apply IH|]. apply Forall_forall. intros k' [->|Hin]%entry_push_key; [lia|]. by eapply Forall_forall in Hk.
Qed.

Lemma level_absent k m : Forall (Z.lt k) (map fst m) -> level k m = [].
Proof.
  induction m as [|[k1 xs] m IH]; cbn; [done|]. intros [H1 H2]%Forall_cons.
  destruct (k1 =? k) eqn:E; zify_bools; [lia|]. by apply IH.
Qed.

Lemma level_push k (x : P) m k' : StronglySorted Z.lt (map fst m) ->
  level k' (entry_push k x m) = if k =? k' then level k m ++ [x] else level k' m.
Proof.
  induction m as [|[k1 xs] m IH]; cbn [entry_push map fst]; [cbn; by destruct (k =? k')|].
  intros [Hs Hk]%StronglySorted_inv. destruct (k <? k1) eqn:E1; [|destruct (k =? k1) eqn:E2]; zify_bools; cbn [level].
  - rewrite (proj2 (Z.eqb_neq k1 k)) by lia. destruct (k =? k'); [|done]. rewrite level_absent; [done|].
    eapply Forall_impl; [exact Hk|]. cbn. intros; lia.
  - subst k1. rewrite Z.eqb_refl. by destruct (k =? k').
  - rewrite IH by done. rewrite (proj2 (Z.eqb_neq k1 k)) by lia. destruct (k =? k') eqn:E3; zify_bools; [|done].
    by rewrite (proj2 (Z.eqb_neq k1 k')) by lia.
Qed.

Lemma group_gate_levels_spec gs : levels_of gs (group_gate_levels gs).
Proof.
  unfold group_gate_levels. induction gs as [|g gs (Hs & Hne & Hl)] using rev_ind; [split; [constructor | by split]|].
  rewrite foldl_snoc. split; [by apply entry_push_sorted|]. split.
  - clear Hs Hl. induction Hne as [|[k1 xs] m Hx Hm IH]; cbn [entry_push]; [by repeat constructor|].
    destruct (_ <? k1); [by repeat constructor|]. destruct (_ =? k1); constructor; cbn in *; [by destruct xs | done..].
  - intros k. rewrite level_push by done. rewrite List.filter_app. cbn [List.filter].
    destruct (gs_gate_level g =? k) eqn:E; zify_bools; [by rewrite Hl, E | by rewrite Hl, app_nil_r].
Qed.

Lemma level_entry k xs m : StronglySorted Z.lt (map fst m) -> (k, xs) ∈ m -> level k m = xs.
Proof.
  induction m as [|[k1 ys] m IH]; cbn [map fst]; [by intros _ ?%not_elem_of_nil|].
  intros [Hs Hk]%StronglySorted_inv [[= -> ->]|Hin]%elem_of_cons; cbn [level]; [by rewrite Z.eqb_refl|].
  rewrite (proj2 (Z.eqb_neq k1 k)); [by apply IH|]. eapply Forall_forall in Hk; [|apply list_elem_of_fmap_2, Hin]. cbn in Hk. lia.
Qed.

Lemma level_key k m : level k m <> [] -> k ∈ map fst m.
Proof.
  induction m as [|[k1 xs] m IH]; cbn; [done|]. rewrite elem_of_cons. destruct (k1 =? k) eqn:E; zify_bools; auto.
Qed.
End Splitting.

(** ** The rotators built *)

Section Built.
Context {F : Type} `{FloatLaws F}.
Variable cfg : MainConfig F.

(** The configured numbers are [u64]s, the threshold a [u32]. *)
Definition typed : Prop :=
  0 <= quarantine_threshold cfg <= U32_MAX /\ 0 <= quarantine_initial_sec cfg /\
  0 <= quarantine_max_sec cfg <= U64_MAX /\ 0 <= connect_timeout_sec cfg <= U64_MAX /\ 0 <= handshake_timeout_sec cfg.

Lemma probe_lease_range ct hs depth : 0 <= ct -> 0 <= hs -> 0 <= Probes.probe_lease ct hs depth <= DURATION_MAX.
Proof.
  intros Hct Hhs. unfold Probes.probe_lease, Probes.probe_deadline, Probes.dur_saturating_add, Probes.dur_saturating_mul, Probes.PROBE_LEASE_MARGIN.
  assert (0 <= hs * Z.min (Z.min (Z.of_nat depth + 1) U64_MAX) U32_MAX)
    by (apply Z.mul_nonneg_nonneg; [done | unfold U64_MAX, U32_MAX; lia]).
  set (h := hs * _) in *. unfold DURATION_MAX, U64_MAX, from_secs, NANOS. lia.
Qed.

Lemma quarantine_policy_typed depth : typed -> Ratings.typed (quarantine_policy cfg depth).
Proof.
  intros (Ht & Hi & Hm & Hc & Hh). unfold Ratings.typed, quarantine_policy. cbn.
  split; [done|]. split; [unfold from_secs, NANOS; lia|]. split; [unfold from_secs, DURATION_MAX, NANOS in *; lia|].
  apply probe_lease_range; unfold from_secs, NANOS; lia.
Qed.

(** A rotator over [ps] as start-up builds it. *)
Definition fresh (depth : nat) (ps : list ProxyConfig) (r : Rotator.t F) : Prop :=
  Rotator.wf r /\ Rotator.proxies r = Rotator.first_occurrences ps /\ Rotator.qpolicy r = quarantine_policy cfg depth /\
  Forall (fun c => c = Quarantine.cell_default) (Ratings.qcells (Rotator.ratings r)).

Lemma built_fresh depth ps m d h now seed r : typed ->
  Rotator.try_with_quarantine ps (rating_policy cfg) (quarantine_policy cfg depth) m d h now seed = Ok r -> fresh depth ps r.
Proof.
  intros Ht Hr. destruct (Rotator.built_wf _ _ _ _ _ _ _ _ _ (quarantine_policy_typed depth Ht) Hr) as (Hw & Hp & Hq).
  split; [done|]. split; [done|]. split; [done|]. unfold Rotator.try_with_quarantine in Hr. destruct ps; [done|].
  destruct (Rotator.dedup _ _) as [u m0]. unfold Ratings.try_with_quarantine, mbind, result_bind in Hr.
  destruct (Policy.validate _); [|done]. destruct (Quarantine.validate _); [|done]. injection Hr as <-. cbn.
  by apply Ratings.Forall_replicate_same.
Qed.

Variables (hasher : nat -> Rotator.RandomState) (clock seed : nat -> Z).

Lemma new_rotator_spec depth rs ps k rs' : typed -> new_rotator hasher clock seed cfg depth rs ps = Ok (k, rs') ->
  k = length rs /\ exists r, rs' = rs ++ [r] /\ fresh depth ps r.
Proof.
  intros Ht. unfold new_rotator, mbind, result_bind. destruct (Rotator.try_with_quarantine _ _ _ _ _ _ _ _) as [r|e] eqn:E; cbn; [|done].
  intros [= <- <-]. split; [done|]. exists r. split; [done|]. by eapply built_fresh.
Qed.

(** The groups a family contributes, and the handle of its rotator. *)
Definition opt_list (ps : list ProxyConfig) : list (list ProxyConfig) := match ps with [] => [] | _ => [ps] end.
Definition handle (k : nat) (ps : list ProxyConfig) : option nat := match ps with [] => None | _ => Some k end.

Lemma exit_rotator_spec depth rs ps k rs' : typed -> exit_rotator hasher clock seed cfg depth rs ps = Ok (k, rs') ->
  k = handle (length rs) ps /\ exists new, rs' = rs ++ new /\ Forall2 (fresh depth) (opt_list ps) new.
Proof.
  intros Ht. unfold exit_rotator. destruct ps as [|p ps].
  - intros [= <- <-]. split; [done|]. exists []. by rewrite app_nil_r.
  - unfold mbind, result_bind. destruct (new_rotator _ _ _ _ _ _ _) as [[k1 rs1]|] eqn:E; [|done]. intros [= <- <-].
    apply new_rotator_spec in E as (-> & r & -> & Hf); [|done]. split; [done|]. exists [r]. split; [done|]. constructor; [done|constructor].
Qed.

Lemma gate_rotators_spec depth groups : forall rs gates rs', typed ->
  gate_rotators hasher clock seed cfg depth rs groups = Ok (gates, rs') ->
  gates = zip (map fst groups) (seq (length rs) (length groups)) /\
  exists new, rs' = rs ++ new /\ Forall2 (fresh depth) (map snd groups) new.
Proof.
  induction groups as [|[rank ps] groups IH]; intros rs gates rs' Ht; cbn [gate_rotators].
  - intros [= <- <-]. split; [done|]. exists []. by rewrite app_nil_r.
  - unfold mbind, result_bind. destruct (new_rotator _ _ _ _ _ _ _) as [[k1 rs1]|] eqn:E; [|done].
    apply new_rotator_spec in E as (-> & r & -> & Hf); [|done].
    destruct (gate_rotators _ _ _ _ _ _ _) as [[gates1 rs2]|] eqn:E2; [|done]. intros [= <- <-].
    apply IH in E2 as (-> & new & -> & Hn); [|done]. rewrite length_app, Nat.add_1_r. split; [done|].
    exists (r :: new). rewrite <- app_assoc. split; [done|]. by constructor.
Qed.

(** The list is ascending, so that it is turned around. *)
Lemma gate_levels_rev l : StronglySorted Z.lt (map fst l) -> ChainPlan.GateLevels_new l = rev l.
Proof.
  unfold ChainPlan.GateLevels_new. induction l as [|x l IH] using rev_ind; [done|]. rewrite map_app, foldl_snoc, rev_app_distr.
  intros Hs. rewrite IH by (by eapply StronglySorted_app_1_l). cbn [rev app].
  destruct (rev l) as [|y l'] eqn:E; [done|]. cbn [ChainPlan.insert_desc].
  assert (Hy : y ∈ l) by (apply list_elem_of_In, in_rev; rewrite E; by left).
  assert (y.1 < x.1) as Hlt; [|by rewrite (proj2 (Z.ltb_lt _ _) Hlt)].
  eapply (StronglySorted_app_1_elem_of Z.lt); [exact Hs | by apply list_elem_of_fmap_2 | cbn; by left].
Qed.

(** The groups of a list, and the rotators they become. *)
Definition v6_plain (pl : ProxyListConfig) : list ProxyConfig := List.filter (fun p => negb (is_gate p)) (all_v6 pl).1.
Definition v4_plain (pl : ProxyListConfig) : list ProxyConfig := List.filter (fun p => negb (is_gate p)) (all_v4 pl).1.
Definition gate_list (pl : ProxyListConfig) : list ProxyConfig :=
  List.filter is_gate (all_v6 pl).1 ++ List.filter is_gate (all_v4 pl).1.
Definition groups_of (pl : ProxyListConfig) : list (list ProxyConfig) :=
  opt_list (v6_plain pl) ++ map snd (group_gate_levels (gate_list pl)) ++ opt_list (v4_plain pl).

Lemma routes_spec pl r : typed -> routes hasher clock seed cfg pl = Ok r ->
  let levels := group_gate_levels (gate_list pl) in
  let first := length (opt_list (v6_plain pl)) in
  v6_rotator r = handle 0 (v6_plain pl) /\
  gate_levels r = rev (zip (map fst levels) (seq first (length levels))) /\
  v4_rotator r = handle (first + length levels) (v4_plain pl) /\
  Forall2 (fresh (length levels)) (groups_of pl) (store r).
Proof.
  intros Ht. unfold routes. rewrite partition_spec. cbn [gs_is_gate proxy_gate_split].
  fold (v6_plain pl) (v4_plain pl) (gate_list pl). cbn zeta. set (levels := group_gate_levels (gate_list pl)).
  unfold mbind, result_bind. destruct (exit_rotator _ _ _ _ _ [] _) as [[v6 rs1]|] eqn:E1; [|done].
  apply exit_rotator_spec in E1 as (-> & n1 & -> & H1); [|done]. cbn [app length] in *.
  destruct (gate_rotators _ _ _ _ _ _ _) as [[gates rs2]|] eqn:E2; [|done].
  apply gate_rotators_spec in E2 as (-> & n2 & -> & H2); [|done].
  destruct (exit_rotator _ _ _ _ _ _ _) as [[v4 rs3]|] eqn:E3; [|done].
  apply exit_rotator_spec in E3 as (-> & n3 & -> & H3); [|done]. intros [= <-]. cbn [v6_rotator gate_levels v4_rotator store].
  pose proof (Forall2_length _ _ _ H1) as L1. pose proof (Forall2_length _ _ _ H2) as L2. rewrite length_map in L2.
  split; [done|]. split; [|split].
  - rewrite gate_levels_rev, L1; [done|]. destruct (group_gate_levels_spec (gate_list pl)) as (Hs & _). fold levels in Hs.
    rewrite fst_zip by (rewrite length_map, length_seq; lia). done.
  - by rewrite length_app, L1, L2.
  - unfold groups_of. rewrite <- app_assoc. by repeat apply Forall2_app.
Qed.

(** The rotators in use: the gate levels, then the exits. *)
Definition handles (r : Routes (F := F)) : list nat :=
  map snd (gate_levels r) ++ omap id [v6_rotator r; v4_rotator r].

Lemma handle_list k ps : omap id [handle k ps] = match opt_list ps with [] => [] | _ => [k] end.
Proof. by destruct ps. Qed.

Lemma handles_seq pl r : typed -> routes hasher clock seed cfg pl = Ok r -> handles r ≡ₚ seq 0 (length (store r)).
Proof.
  intros Ht Hr. destruct (routes_spec pl r Ht Hr) as (H6 & Hg & H4 & Hs). cbn zeta in *.
  apply Forall2_length in Hs. unfold groups_of in Hs. rewrite !length_app, length_map in Hs.
  unfold handles. rewrite Hg, H6, H4, map_rev, snd_zip by (rewrite length_map, length_seq; lia).
  rewrite <- Hs, !seq_app. rewrite <- (Permutation_rev (seq _ _)).
  destruct (v6_plain pl) as [|p6 l6], (v4_plain pl) as [|p4 l4]; cbn [handle opt_list length omap list_omap id seq app Nat.add];
    rewrite ?app_nil_r; [done..| |].
  - apply Permutation_app_comm with (l' := [0%nat]).
  - rewrite <- Permutation_middle. done.
Qed.

(** The names under which the health of the groups is kept. *)
Lemma gate_name_inj a b : 0 <= a -> 0 <= b -> lit "gate" ++ fmt_dec a = lit "gate" ++ fmt_dec b -> a = b.
Proof.
  intros Ha Hb Heq. apply app_inv_head in Heq.
  pose proof (parse_fmt_dec (Z.max a b) a ltac:(lia)) as Pa. pose proof (parse_fmt_dec (Z.max a b) b ltac:(lia)) as Pb. congruence.
Qed.

Lemma all_v6_lists pl : (all_v6 pl).1 =
  (parse_proxy_list (lit "socks5_v6") (socks5_v6 pl) Socks5).1 ++ (parse_proxy_list (lit "http_v6") (http_v6 pl) Http).1
  ++ (parse_proxy_list (lit "https_v6") (https_v6 pl) Https).1.
Proof. unfold all_v6. by destruct (parse_proxy_list _ _ Socks5), (parse_proxy_list _ _ Http), (parse_proxy_list _ _ Https). Qed.
Lemma all_v4_lists pl : (all_v4 pl).1 =
  (parse_proxy_list (lit "socks5_v4") (socks5_v4 pl) Socks5).1 ++ (parse_proxy_list (lit "http_v4") (http_v4 pl) Http).1
  ++ (parse_proxy_list (lit "https_v4") (https_v4 pl) Https).1.
Proof. unfold all_v4. by destruct (parse_proxy_list _ _ Socks5), (parse_proxy_list _ _ Http), (parse_proxy_list _ _ Https). Qed.

Lemma parse_proxy_list_entries n lines proto : (parse_proxy_list n lines proto).1 = omap (entry proto) lines.
Proof. unfold parse_proxy_list, parse_proxy_list_checked. by rewrite parse_lines_spec. Qed.

Lemma parsed_wf pl p : p ∈ (all_v6 pl).1 ++ (all_v4 pl).1 -> line_wf p.
Proof.
  assert (Hone : forall (lines : list bytes) proto, p ∈ omap (entry proto) lines -> line_wf p).
  { intros lines proto (l & _ & He)%list_elem_of_omap. unfold entry in He.
    destruct (parse_proxy_str l proto) as [c|] eqn:E; [|done]. injection He as <-. by eapply parse_proxy_str_wf. }
  rewrite all_v6_lists, all_v4_lists, !parse_proxy_list_entries, !elem_of_app.
  intros [[|[]]|[|[]]]; by eapply Hone.
Qed.

Lemma gate_list_elem pl p : p ∈ gate_list pl -> 1 <= gate_level p <= U8_MAX /\ p ∈ (all_v6 pl).1 ++ (all_v4 pl).1.
Proof.
  unfold gate_list. rewrite !elem_of_app, !list_elem_of_In, !filter_In, <- !list_elem_of_In. intros Hin.
  assert (Hp : (p ∈ (all_v6 pl).1 \/ p ∈ (all_v4 pl).1) /\ is_gate p = true) by tauto. destruct Hp as [Hp Hg]. split; [|done].
  apply elem_of_app, parsed_wf in Hp as (_ & Hl & Hgl & _). rewrite Hg in Hgl. symmetry in Hgl. zify_bools. lia.
Qed.

Lemma rank_range pl k : k ∈ map fst (group_gate_levels (gate_list pl)) -> 1 <= k <= U8_MAX.
Proof.
  intros ([k' xs] & -> & Hin)%list_elem_of_fmap. cbn. destruct (group_gate_levels_spec (gate_list pl)) as (Hs & Hne & Hl).
  pose proof (level_entry _ _ _ Hs Hin) as Hx. rewrite Hl in Hx. rewrite Forall_forall in Hne. specialize (Hne _ Hin). cbn in Hne.
  destruct xs as [|g xs]; [done|]. assert (Hg : g ∈ List.filter (fun g => gs_gate_level g =? k') (gate_list pl)) by (rewrite Hx; left).
  apply list_elem_of_In, filter_In in Hg as [Hg Hk]. zify_bools. cbn in Hk. subst k'. apply list_elem_of_In in Hg. by apply gate_list_elem in Hg as [? _].
Qed.

Lemma group_names pl r : typed -> routes hasher clock seed cfg pl = Ok r -> NoDup (map name (health_groups r)).
Proof.
  intros Ht Hr. destruct (routes_spec pl r Ht Hr) as (H6 & Hg & H4 & _). cbn zeta in *. unfold health_groups. rewrite H6, H4, Hg.
  pose proof (rank_range pl) as Hrange. destruct (group_gate_levels_spec (gate_list pl)) as (Hs & _).
  set (ranks := map fst (group_gate_levels (gate_list pl))) in *.
  assert (Hnd : NoDup (map (fun g : Z * nat => lit "gate" ++ fmt_dec g.1) (zip ranks (seq (length (opt_list (v6_plain pl))) (length (group_gate_levels (gate_list pl))))))).
  { rewrite <- (map_map fst (fun k => lit "gate" ++ fmt_dec k)). rewrite fst_zip by (unfold ranks; rewrite length_map, length_seq; lia).
    clear -Hs Hrange. induction Hs as [|k ks Hs IH Hk]; cbn; constructor.
    - intros (k' & Heq & Hin)%list_elem_of_fmap. apply gate_name_inj in Heq as ->; [|specialize (Hrange k ltac:(left)); lia|specialize (Hrange k' ltac:(by right)); lia].
      rewrite Forall_forall in Hk. specialize (Hk _ Hin). lia.
    - apply IH. intros k' ?. apply Hrange. by right. }
  rewrite !map_app, map_map. rewrite map_rev. apply NoDup_app. split; [by rewrite <- Permutation_rev|]. split.
  - intros n. rewrite <- Permutation_rev. intros (x & -> & _)%list_elem_of_fmap.
    destruct (v6_plain pl), (v4_plain pl); cbn; rewrite ?elem_of_cons, ?elem_of_nil; naive_solver.
  - destruct (v6_plain pl), (v4_plain pl); cbn; repeat constructor; rewrite ?list_elem_of_singleton; try apply not_elem_of_nil. done.
Qed.

Lemma group_handles r : map rotator (health_groups r) = handles r.
Proof.
  unfold health_groups, handles. rewrite !map_app, map_map. cbn. by destruct (v6_rotator r), (v4_rotator r).
Qed.

(** The rotator of a handle holds the upstreams [ps], each once. *)
Definition serves (r : Routes (F := F)) (i : nat) (ps : list ProxyConfig) : Prop :=
  exists rt, store r !! i = Some rt /\ Rotator.wf rt /\ Rotator.proxies rt = Rotator.first_occurrences ps.
Definition exit_of (r : Routes (F := F)) (h : option nat) (ps : list ProxyConfig) : Prop :=
  match h with Some i => ps <> [] /\ serves r i ps | None => ps = [] end.

Lemma serves_nth pl r i ps : Forall2 (fresh (length (group_gate_levels (gate_list pl)))) (groups_of pl) (store r) ->
  groups_of pl !! i = Some ps -> serves r i ps.
Proof.
  intros Hs Hi. destruct (Forall2_lookup_l _ _ _ _ _ Hs Hi) as (rt & Hrt & Hw & Hp & _). by exists rt.
Qed.

Lemma routes_shape pl r : typed -> routes hasher clock seed cfg pl = Ok r ->
  exit_of r (v6_rotator r) (v6_plain pl) /\ exit_of r (v4_rotator r) (v4_plain pl) /\
  StronglySorted (fun a b => b < a) (map fst (gate_levels r)) /\
  (forall rank i, (rank, i) ∈ gate_levels r -> serves r i (List.filter (fun g => gate_level g =? rank) (gate_list pl))) /\
  (forall g, g ∈ gate_list pl -> gate_level g ∈ map fst (gate_levels r)).
Proof.
  intros Ht Hr. destruct (routes_spec pl r Ht Hr) as (H6 & Hg & H4 & Hs). cbn zeta in *.
  destruct (group_gate_levels_spec (gate_list pl)) as (Hsort & Hne & Hl). set (levels := group_gate_levels (gate_list pl)) in *.
  assert (Hfst : map fst (gate_levels r) = rev (map fst levels))
    by (rewrite Hg, map_rev, fst_zip; [done|]; rewrite length_map, length_seq; lia).
  split; [|split; [|split; [|split]]].
  - rewrite H6. destruct (v6_plain pl) as [|p ps] eqn:E; [done|]. split; [done|]. apply (serves_nth pl _ _ _ Hs). unfold groups_of. by rewrite E.
  - rewrite H4. destruct (v4_plain pl) as [|p ps] eqn:E; [done|]. split; [done|]. apply (serves_nth pl _ _ _ Hs). unfold groups_of.
    fold levels. rewrite E, lookup_app_r by lia. rewrite lookup_app_r by (rewrite length_map; lia). rewrite length_map.
    by replace (_ - _ - _)%nat with 0%nat by lia.
  - rewrite Hfst. clear -Hsort. induction Hsort as [|k ks Hs IH Hk]; cbn; [constructor|]. apply StronglySorted_app. split; [|split; [done|repeat constructor]].
    intros a b Ha%list_elem_of_In ->%list_elem_of_singleton. apply in_rev, list_elem_of_In in Ha. rewrite Forall_forall in Hk. by apply Hk.
  - intros rank i Hin. rewrite Hg in Hin. apply list_elem_of_In, in_rev, list_elem_of_In, list_elem_of_lookup in Hin as [j Hj].
    apply lookup_zip_Some in Hj as [Hr1 Hr2]. apply list_lookup_fmap_Some in Hr1 as ([k xs] & -> & Hk). cbn in *.
    apply lookup_seq in Hr2 as [-> Hj]. apply (serves_nth pl _ _ _ Hs). unfold groups_of. fold levels.
    rewrite lookup_app_r by lia. replace (_ + j - _)%nat with j by lia. rewrite lookup_app_l by (rewrite length_map; lia).
    rewrite list_lookup_fmap, Hk. cbn. f_equal. rewrite <- (Hl k). symmetry. apply level_entry; [done|]. by eapply list_elem_of_lookup_2.
  - intros g Hin. rewrite Hfst. apply list_elem_of_In. rewrite <- in_rev. apply list_elem_of_In, level_key. rewrite Hl.
    intros Hnil. apply list_elem_of_In in Hin. assert (Hx : In g (List.filter (fun x => gs_gate_level x =? gate_level g) (gate_list pl)))
      by (apply filter_In; split; [done | cbn; by apply Z.eqb_refl]). by rewrite Hnil in Hx.
Qed.

(** C13: A server that starts has what was configured. The exits of a family, and each level
    of gates, have a rotator with the upstreams that the lists give for them, in order and
    each once; the levels go from the outermost in; there is no rotator besides, and none
    without upstreams; their health is kept under names that differ. There is a way to
    serve somebody: an exit, or a user who is enabled and direct. *)
Theorem startup_routes pl users random parallelism s : typed ->
  run_server_inner hasher clock seed cfg pl users random parallelism = Ok s ->
  let r := routing s in
  exit_of r (v6_rotator r) (v6_plain pl) /\ exit_of r (v4_rotator r) (v4_plain pl) /\
  StronglySorted (fun a b => b < a) (map fst (gate_levels r)) /\
  (forall rank i, (rank, i) ∈ gate_levels r -> serves r i (List.filter (fun g => gate_level g =? rank) (gate_list pl))) /\
  (forall g, g ∈ gate_list pl -> gate_level g ∈ map fst (gate_levels r)) /\
  handles r ≡ₚ seq 0 (length (store r)) /\
  map rotator (health_groups r) = handles r /\ NoDup (map name (health_groups r)) /\
  (is_Some (v6_rotator r) \/ is_Some (v4_rotator r) \/
   exists u, u ∈ users /\ Users.is_enabled u = true /\ Users.direct u = true).
Proof.
  intros Ht. unfold run_server_inner, mbind, result_bind. destruct (validate_allowed_clients cfg users random parallelism) as [[ru au]|]; [|done].
  destruct (routes hasher clock seed cfg pl) as [r|] eqn:Er; [|done]. destruct (should_bail_no_upstreams _ users) eqn:Eb; [done|].
  intros [= <-]. cbn [routing]. cbn zeta. destruct (routes_shape pl r Ht Er) as (H1 & H2 & H3 & H4 & H5).
  do 5 (split; [done|]). split; [by apply (handles_seq pl)|]. split; [apply group_handles|]. split; [by apply (group_names pl)|].
  unfold should_bail_no_upstreams, has_usable_route in Eb. destruct (v6_rotator r); [left; eauto|]. destruct (v4_rotator r); [right; left; eauto|].
  right. right. cbn in Eb. apply negb_false_iff, Rotator.existsb_elem in Eb as (u & Hu & [He Hd]%andb_true_iff). eauto.
Qed.
End Built.

Section Resuming.
Context {F : Type} `{FloatLaws F}.
Variable cfg : MainConfig F.
Variables (hasher hasher' : nat -> Rotator.RandomState) (clock clock' seed seed' : nat -> Z).

Lemma same_routes pl r r0 : typed cfg -> routes hasher clock seed cfg pl = Ok r -> routes hasher' clock' seed' cfg pl = Ok r0 ->
  health_groups r0 = health_groups r /\
  Forall2 (fun x y => Rotator.wf y /\ Rotator.proxies y = Rotator.proxies x /\ Rotator.qpolicy y = Rotator.qpolicy x /\
    Forall (fun c => c = Quarantine.cell_default) (Ratings.qcells (Rotator.ratings y))) (store r) (store r0) /\
  Forall (fun x => Rotator.qpolicy x = quarantine_policy cfg (length (group_gate_levels (gate_list pl)))) (store r).
Proof.
  intros Ht (H6 & Hg & H4 & Hs)%routes_spec (H6' & Hg' & H4' & Hs')%routes_spec; [|done..]. cbn zeta in *.
  split; [|split].
  - unfold health_groups. by rewrite H6, Hg, H4, H6', Hg', H4'.
  - apply Forall2_same_length_lookup_2; [by rewrite <- (Forall2_length _ _ _ Hs), (Forall2_length _ _ _ Hs')|].
    intros i x y Hx Hy. destruct (Forall2_lookup_r _ _ _ _ _ Hs Hx) as (ps & Hps & _ & Hp & Hq & _).
    destruct (Forall2_lookup_r _ _ _ _ _ Hs' Hy) as (ps' & Hps' & Hw & Hp' & Hq' & Hd). assert (ps' = ps) as -> by congruence.
    split; [done|]. split; [congruence|]. by split; [congruence|].
  - apply Forall_lookup. intros i x Hx. by destruct (Forall2_lookup_r _ _ _ _ _ Hs Hx) as (ps & _ & _ & _ & Hq & _).
Qed.

Lemma enabled_policy depth : 0 < quarantine_threshold cfg -> Quarantine.enabled (quarantine_policy cfg depth) = true.
Proof. intros Ht. unfold Quarantine.enabled. cbn. by apply Z.ltb_lt. Qed.

(** C11: A server that was stopped resumes when it is started again with the same
    configuration, provided that quarantines are on (a threshold above zero: with none,
    nobody is ever out) and that no two upstreams of a group share their label and level:
    the label is the protocol, the user, the host and the port, so two upstreams that
    differ only in their password do share it, and are confused ([same_label_confused]).
    Whatever its requests made of the rotators, once the last picture was written, the next
    process, which builds its rotators anew, has every upstream of every group as it was:
    the well ones well, the quarantined ones quarantined for the whole seconds left less
    the seconds that have passed, or on probation when none are left, with their trips and
    failures. The number reported is that of the upstreams that were not well. *)
Theorem restart_resumes pl r r0 (rs : list (Rotator.t F)) to_string from_str now now' clock1 clock2 a w w' :
  typed cfg -> 0 < quarantine_threshold cfg ->
  routes hasher clock seed cfg pl = Ok r -> routes hasher' clock' seed' cfg pl = Ok r0 ->
  Forall2 (fun x y => Rotator.wf y /\ Rotator.proxies y = Rotator.proxies x /\ Rotator.qpolicy y = Rotator.qpolicy x) (store r) rs ->
  Forall (fun x => NoDup (Health.labels x)) (store r) ->
  (forall i, clock2 i + from_secs (quarantine_max_sec cfg) <= INSTANT_MAX) ->
  (forall f text, to_string f = Some text -> from_str text = Some f) ->
  Health.save_offloaded to_string a (Health.snapshot (health_groups r) now clock1 rs) w = (Ok tt, w') ->
  let '(res, rs1) := Health.resume from_str (health_groups r0) true w' now' clock2 (store r0) in
  Health.r_saved res = Some (Health.snapshot (health_groups r) now clock1 rs) /\ Health.warned res = false /\
  Health.total (Health.r_restored res) =
    length (List.filter Health.dead (Health.upstreams (Health.snapshot (health_groups r) now clock1 rs))) /\
  forall g x, g ∈ health_groups r -> rs !! rotator g = Some x ->
    exists y, rs1 !! rotator g = Some y /\ Rotator.wf y /\
      Rotator.health y (clock2 (rotator g)) =
        map (Health.resumed_one (from_secs (quarantine_max_sec cfg)) (from_secs (saturating_sub now' now)))
          (Rotator.health x (clock1 (rotator g))).
Proof.
  intros Ht Hth Hr Hr0 Hrs Hl Hmax Hcodec Hs.
  destruct (same_routes pl r r0 Ht Hr Hr0) as (-> & Hfresh & Hq).
  pose proof (group_handles r) as Hgh. pose proof (handles_seq _ _ _ _ pl r Ht Hr) as Hseq.
  assert (Hall : forall g, g ∈ health_groups r -> exists x y z, store r !! rotator g = Some x /\ rs !! rotator g = Some y /\ store r0 !! rotator g = Some z).
  { intros g Hg. assert (Hin : rotator g ∈ seq 0 (length (store r))) by (rewrite <- Hseq, <- Hgh; by apply list_elem_of_fmap_2).
    apply elem_of_seq in Hin as [_ Hlt]. destruct (lookup_lt_is_Some_2 (store r) (rotator g) ltac:(lia)) as [x Hx].
    destruct (Forall2_lookup_l _ _ _ _ _ Hrs Hx) as (y & Hy & _). destruct (Forall2_lookup_l _ _ _ _ _ Hfresh Hx) as (z & Hz & _). eauto 6. }
  assert (Hpol : forall i y, rs !! i = Some y -> Quarantine.max (Rotator.qpolicy y) = from_secs (quarantine_max_sec cfg) /\
     Quarantine.enabled (Rotator.qpolicy y) = true).
  { intros i y Hy. destruct (Forall2_lookup_r _ _ _ _ _ Hrs Hy) as (x & Hx & _ & _ & ->).
    rewrite (Forall_lookup_Some _ _ _ _ Hq Hx). split; [done | by apply enabled_policy]. }
  assert (Hd : Health.distinct (health_groups r) rs).
  { split; [by apply (group_names cfg hasher clock seed pl)|]. split; [rewrite Hgh, Hseq; apply NoDup_seq|].
    intros g y _ Hy. destruct (Forall2_lookup_r _ _ _ _ _ Hrs Hy) as (x & Hx & _ & Hp & _).
    unfold Health.labels. rewrite Hp. by apply (Forall_lookup_Some _ _ _ _ Hl Hx). }
  assert (Hw : Forall Rotator.wf rs).
  { apply Forall_lookup. intros i y Hy. by destruct (Forall2_lookup_r _ _ _ _ _ Hrs Hy) as (x & _ & Hw & _). }
  assert (Hre : forall g, g ∈ health_groups r -> exists y z, rs !! rotator g = Some y /\ store r0 !! rotator g = Some z /\
     Health.rebuilt (clock2 (rotator g)) y z).
  { intros g Hg. destruct (Hall g Hg) as (x & y & z & Hx & Hy & Hz). exists y, z. split; [done|]. split; [done|].
    destruct (Forall2_lookup_lr _ _ _ _ _ _ Hrs Hx Hy) as (_ & P1 & Q1). destruct (Forall2_lookup_lr _ _ _ _ _ _ Hfresh Hx Hz) as (Wz & P2 & Q2 & Dz).
    destruct (Hpol _ _ Hy) as [Hm He]. split; [done|]. split; [congruence|]. split; [congruence|]. split; [done|]. split; [done|]. by rewrite Hm. }
  pose proof (Health.health_restart to_string from_str (health_groups r) now now' clock1 clock2 rs (store r0) a w w' Hcodec Hd Hw Hre Hs) as Hres.
  destruct (Health.resume _ _ _ _ _ _ _) as [res rs1]. destruct Hres as (R1 & R2 & R3 & R4). split; [done|]. split; [done|]. split; [done|].
  intros g y Hg Hy. destruct (R4 g y Hg Hy) as (y1 & Hy1 & Hw1 & Hh). exists y1. split; [done|]. split; [done|].
  by rewrite Hh, (proj1 (Hpol _ _ Hy)).
Qed.
End Resuming.

(** ** A concrete start

    An exit and two levels of gates; a line that cannot be read. *)
#[local] Existing Instance Ratings.demo_float.
#[local] Existing Instance Ratings.demo_laws.
Definition demo_lists : ProxyListConfig :=
  mkProxyListConfig [lit "me:pw@b.example:1080"; lit "# off"; lit "*near:1"; lit "nonsense"] [] [lit "**far:8080"] [] [] [].
Definition demo_config : MainConfig Rotator.F64t :=
  mkMainConfig true (lit "*") Policy.default 10 10 3 30 600 60.
Definition demo_routes (h : nat -> Rotator.RandomState) (t : Z) : result (StartError (F := Rotator.F64t)) (Routes (F := Rotator.F64t)) :=
  routes h (fun _ => t) (fun _ => 42) demo_config demo_lists.
Definition demo_hash (k : nat) : Rotator.RandomState := fun i => i.1.1.1.2 + Z.of_nat k.
Definition demo_built (h : nat -> Rotator.RandomState) (t : Z) : Routes (F := Rotator.F64t) :=
  match demo_routes h t with Ok r => r | Err _ => mkRoutes [] None None [] end.

Example demo_layout :
  let r := demo_built demo_hash 0 in
  (gate_levels r, v6_rotator r, v4_rotator r, map (fun r => map host (Rotator.proxies r)) (store r), all_v4 demo_lists)
  = ([(2, 1%nat); (1, 0%nat)], None, Some 2%nat, [[lit "near"]; [lit "far"]; [lit "b.example"]],
     ((all_v4 demo_lists).1, [skipped_line_message (lit "socks5_v4") 4])).
Proof. vm_compute. reflexivity. Qed.

Example demo_old_keys :
  obsolete_cb_keys (lit "network: {" ++ [LF] ++ lit "  cb_limit : 3" ++ [CR; LF] ++ lit "  x: cb_no" ++ [LF] ++ lit "cb_b:1")
  = [lit "cb_limit"; lit "cb_b"].
Proof. vm_compute. reflexivity. Qed.

Lemma demo_ok h t : is_ok (demo_routes h t) = true -> demo_routes h t = Ok (demo_built h t).
Proof. unfold demo_built. by destruct (demo_routes h t). Qed.

Lemma demo_config_typed : typed demo_config.
Proof. unfold typed. vm_compute. repeat split; congruence. Qed.

Definition demo_start : result (StartError (F := Rotator.F64t)) (Started (F := Rotator.F64t)) :=
  run_server_inner demo_hash (fun _ => 0) (fun _ => 42) demo_config demo_lists [] (Some []) None.
Definition demo_started : Started (F := Rotator.F64t) :=
  match demo_start with
  | Ok s => s
  | Err _ => mkStarted (Clients.mk true []) (Auth.mkAuth [] None ∅ 0 0 ∅ true [] ∅) (mkRoutes [] None None []) [] true false false
  end.

Lemma startup_routes_witness :
  map fst (gate_levels (routing demo_started)) = [2; 1] /\ NoDup (map name (health_groups (routing demo_started))).
Proof.
  split; [vm_compute; reflexivity|].
  assert (Hs : demo_start = Ok demo_started)
    by (assert (is_ok demo_start = true) as Hok by (vm_compute; reflexivity); unfold demo_started; by destruct demo_start).
  apply (startup_routes demo_config demo_hash (fun _ => 0) (fun _ => 42) demo_lists [] (Some []) None demo_started demo_config_typed Hs).
Defined.

Lemma quarantine_now_same p now (x : Rotator.t Rotator.F64t) :
  Rotator.proxies (Rotator.quarantine_now p now x).2 = Rotator.proxies x /\
  Rotator.qpolicy (Rotator.quarantine_now p now x).2 = Rotator.qpolicy x.
Proof.
  unfold Rotator.quarantine_now. destruct (Rotator.index_of x p) as [k|]; [|done].
  pose proof (Rotator.rating_run_qpolicy x (Ratings.CQuarantineNow k now)) as Hq. cbn [Ratings.run] in Hq.
  by destruct (Ratings.quarantine_now _ _ _).
Qed.

(** "b.example" fails and is quarantined. *)
Definition demo_later : list (Rotator.t Rotator.F64t) :=
  map (fun r => (Rotator.quarantine_now (ProxyTypes.with_auth (ProxyTypes.new Socks5 (lit "b.example") 1080) (lit "me") (lit "pw")) (from_secs 3) r).2)
    (store (demo_built demo_hash 0)).
Definition demo_rehash (k : nat) : Rotator.RandomState := Rotator.collide.
Abbreviation demo_groups := (health_groups (demo_built demo_hash 0)).
Abbreviation demo_picture := (Health.snapshot demo_groups 1000 (Health.demo_at 8) demo_later).
Abbreviation demo_write := (Health.save_offloaded Health.demo_to_string Health.demo_works demo_picture Health.demo_disk).

Lemma demo_picture_written : demo_write.1 = Ok tt.
Proof. vm_compute. reflexivity. Qed.

Lemma demo_evolved : Forall2 (fun x y => Rotator.wf y /\ Rotator.proxies y = Rotator.proxies x /\ Rotator.qpolicy y = Rotator.qpolicy x)
  (store (demo_built demo_hash 0)) demo_later.
Proof.
  assert (Hr : routes demo_hash (fun _ => 0) (fun _ => 42) demo_config demo_lists = Ok (demo_built demo_hash 0))
    by (apply (demo_ok demo_hash 0); vm_compute; reflexivity).
  destruct (routes_spec demo_config _ _ _ _ _ demo_config_typed Hr) as (_ & _ & _ & Hs). cbn zeta in Hs.
  apply Forall2_same_length_lookup_2; [by unfold demo_later; rewrite length_map|].
  intros i x y Hx Hy. unfold demo_later in Hy. rewrite list_lookup_fmap, Hx in Hy. injection Hy as <-.
  destruct (Forall2_lookup_r _ _ _ _ _ Hs Hx) as (ps & _ & Hw & _).
  split; [by apply Rotator.rotator_quarantine_now_wf|].
  apply quarantine_now_same.
Qed.

Example demo_resumed :
  let '(res, rs) := Health.resume Health.demo_from_str demo_groups true demo_write.2 1015 (Health.demo_at 7) (store (demo_built demo_rehash 2)) in
  (Health.r_restored res, map (fun r => map Rotator.uh_health (Rotator.health r (from_secs 7))) rs)
  = (Health.mkRestored 1 0,
     [[Ratings.mkHealth Ratings.Alive 0 0 0]; [Ratings.mkHealth Ratings.Alive 0 0 0];
      [Ratings.mkHealth Ratings.UQuarantined (from_secs 10) 1 3]]).
Proof. vm_compute. reflexivity. Qed.

(** Two upstreams that differ only in their password are two for the rotator, and one for
    the file: only the second is in quarantine when the picture is taken, and after the
    restart both are; had only the first been, neither would be. *)
Definition demo_account (pw : bytes) : ProxyConfig :=
  ProxyTypes.with_auth (ProxyTypes.new Socks5 (lit "b.example") 1080) (lit "me") pw.
Definition demo_twins (h : nat -> Rotator.RandomState) : Routes (F := Rotator.F64t) :=
  match routes h (fun _ => 0) (fun _ => 42) demo_config
          (mkProxyListConfig [lit "me:one@b.example:1080"; lit "me:two@b.example:1080"] [] [] [] [] []) with
  | Ok r => r
  | Err _ => mkRoutes [] None None []
  end.
Definition demo_twin_down (pw : bytes) : list (list Ratings.UpstreamState) :=
  let groups := health_groups (demo_twins demo_hash) in
  let before := map (fun r => (Rotator.quarantine_now (demo_account pw) (from_secs 3) r).2) (store (demo_twins demo_hash)) in
  let w := (Health.save_offloaded Health.demo_to_string Health.demo_works
              (Health.snapshot groups 1000 (Health.demo_at 8) before) Health.demo_disk).2 in
  let '(_, rs) := Health.resume Health.demo_from_str groups true w 1015 (Health.demo_at 7) (store (demo_twins demo_rehash)) in
  map (fun r => map (fun e => Ratings.h_state (Rotator.uh_health e)) (Rotator.health r (from_secs 7))) rs.

Example same_label_confused :
  map (fun r => map password (Rotator.proxies r)) (store (demo_twins demo_hash)) = [[Some (lit "one"); Some (lit "two")]] /\
  map (fun r => bool_decide (NoDup (Health.labels r))) (store (demo_twins demo_hash)) = [false] /\
  demo_twin_down (lit "two") = [[Ratings.UQuarantined; Ratings.UQuarantined]] /\
  demo_twin_down (lit "one") = [[Ratings.Alive; Ratings.Alive]].
Proof. vm_compute. repeat split. Qed.

Lemma restart_resumes_witness :
  let '(res, rs1) := Health.resume Health.demo_from_str (health_groups (demo_built demo_rehash 2)) true demo_write.2 1015
    (Health.demo_at 7) (store (demo_built demo_rehash 2)) in
  Health.r_saved res = Some demo_picture /\ Health.warned res = false /\
  Health.total (Health.r_restored res) = length (List.filter Health.dead (Health.upstreams demo_picture)) /\
  forall g x, g ∈ demo_groups -> demo_later !! rotator g = Some x ->
    exists y, rs1 !! rotator g = Some y /\ Rotator.wf y /\
      Rotator.health y (Health.demo_at 7 (rotator g)) =
        map (Health.resumed_one (from_secs (quarantine_max_sec demo_config)) (from_secs (saturating_sub 1015 1000)))
          (Rotator.health x (Health.demo_at 8 (rotator g))).
Proof.
  apply (restart_resumes demo_config demo_hash demo_rehash (fun _ => 0) (fun _ => 2) (fun _ => 42) (fun _ => 42) demo_lists
    (demo_built demo_hash 0) (demo_built demo_rehash 2) demo_later Health.demo_to_string Health.demo_from_str 1000 1015
    (Health.demo_at 8) (Health.demo_at 7) Health.demo_works Health.demo_disk demo_write.2).
  - exact demo_config_typed.
  - reflexivity.
  - apply demo_ok. vm_compute. reflexivity.
  - apply demo_ok. vm_compute. reflexivity.
  - exact demo_evolved.
  - apply (bool_decide_unpack _). vm_compute. exact I.
  - intros i. vm_compute. congruence.
  - exact Health.demo_health_codec.
  - rewrite <- demo_picture_written. apply surjective_pairing.
Defined.
End Startup.
