(* ===== verification/RunServer.v ===== *)
(** The accept loop and its end (src/crates/resocks5/src/server/run_server.rs).

    A transition system over the clock: connections arrive, handlers end or panic, signals
    come, time passes, in any order. A handler is a task that holds a permit until it ends
    ([Handle] says what it does). Two things are taken from tokio's documentation: a
    [Signal] made once keeps what it has not delivered, and [ctrl_c()] sees only what comes
    while its future is polled. *)
From S2P Require Import Prelude Clients.

Module RunServer.

Definition SHUTDOWN_DRAIN_SEC : Z := 30.
Definition ACCEPT_BACKOFF : Z := 100 * 1000000.

(** ** Errors of a handler *)

Inductive IoErrorKind := ConnectionReset | ConnectionAborted | BrokenPipe | OtherKind.

(** The causes of an error, outermost first; [None] is not an I/O error. *)
Definition is_peer_disconnect (chain : list (option IoErrorKind)) : bool :=
  existsb (fun cause =>
    match cause with
    | Some ConnectionReset | Some ConnectionAborted | Some BrokenPipe => true
    | _ => false
    end) chain.

(** ** State *)

Record Config := mkConfig {
  max_concurrent_clients : nat;
  allowed_clients : option Clients.AllowedClients;
  client_protocol_timeout_sec : Z
}.

(** How a handler ends. *)
Inductive TaskEnd := Served | Failed (chain : list (option IoErrorKind)) | Panicked.

(** [ended]: finished and not joined yet. *)
Record Task := mkTask { id : nat; peer : option Clients.IpAddr; deadline : Z; ended : option TaskEnd }.

Inductive ShutdownSignal := CtrlC | Sigterm.

Inductive Stage :=
| Selecting
| Backoff (until : Z)
| Draining (until : Z)
| Down.

Inductive Line :=
| AcceptFailed
| Rejected (peer : option Clients.IpAddr)
| CapReached
| ClientDisconnect
| ConnectionError
| TaskPanicked
| Received (by_ : ShutdownSignal) (active : nat)
| ShutdownComplete.

Record State := mkState {
  now : Z; stage : Stage; permits : nat; tasks : list Task; accepted : nat; sigterm : bool; logged : list Line
}.

Definition set_stage (x : Stage) (s : State) : State :=
  mkState (now s) x (permits s) (tasks s) (accepted s) (sigterm s) (logged s).
Definition set_now (x : Z) (s : State) : State :=
  mkState x (stage s) (permits s) (tasks s) (accepted s) (sigterm s) (logged s).
Definition set_sigterm (x : bool) (s : State) : State :=
  mkState (now s) (stage s) (permits s) (tasks s) (accepted s) x (logged s).
Definition set_tasks (permits_ : nat) (x : list Task) (s : State) : State :=
  mkState (now s) (stage s) permits_ x (accepted s) (sigterm s) (logged s).
Definition log (l : list Line) (s : State) : State :=
  mkState (now s) (stage s) (permits s) (tasks s) (accepted s) (sigterm s) (logged s ++ l).

Definition is_running (t : Task) : bool := match ended t with None => true | Some _ => false end.

Section Server.
Variable cfg : Config.

Definition initial (t : Z) : State := mkState t Selecting (max_concurrent_clients cfg) [] 0 false [].

(** ** Joining *)

Definition report_finished_task (t : Task) : list Line :=
  match ended t with Some Panicked => [TaskPanicked] | _ => [] end.

(** [try_join_next] until there is nothing. *)
Definition reap (s : State) : State :=
  log (concat (map report_finished_task (tasks s))) (set_tasks (permits s) (List.filter is_running (tasks s)) s).

(** ** A connection *)

Definition ip_allowed (ip : option Clients.IpAddr) : bool :=
  match allowed_clients cfg with
  | None => true
  | Some rule => match ip with Some ip => Clients.matches rule ip | None => false end
  end.

Definition accept (ip : option Clients.IpAddr) (s : State) : State :=
  let k := accepted s in
  let s := mkState (now s) (stage s) (permits s) (tasks s) (S k) (sigterm s) (logged s) in
  if negb (ip_allowed ip) then log [Rejected ip] s
  else
    let client_deadline := now s + from_secs (client_protocol_timeout_sec cfg) in
    match permits s with
    | O => log [CapReached] s
    | S free => set_tasks free (tasks s ++ [mkTask k ip client_deadline None]) s
    end.

(** ** The end *)

(** Returning drops the set of tasks: what still runs is cancelled, its permit free. *)
Definition finish (s : State) : State :=
  set_stage Down (log [ShutdownComplete]
    (set_tasks (permits s + length (List.filter is_running (tasks s))) [] s)).

(** [join_next] over what has ended; over when there is nothing left. *)
Definition drain (s : State) : State :=
  let s := reap s in
  match tasks s with [] => finish s | _ => s end.

Definition shut_down (by_ : ShutdownSignal) (s : State) : State :=
  drain (set_stage (Draining (now s + from_secs SHUTDOWN_DRAIN_SEC)) (log [Received by_ (length (tasks s))] s)).

(** ** Events *)

Inductive Event :=
| Incoming (ip : option Clients.IpAddr)
| AcceptError
| Ends (k : nat) (e : TaskEnd)
| Signal (by_ : ShutdownSignal)
| Poll
| Elapse (dt : Z).

Definition end_task (k : nat) (e : TaskEnd) (s : State) : State :=
  match list_find (fun t => Is_true (is_running t && (id t =? k)%nat)) (tasks s) with
  | None => s
  | Some (i, t) =>
      log (match e with
           | Failed chain => [if is_peer_disconnect chain then ClientDisconnect else ConnectionError]
           | _ => []
           end)
        (set_tasks (S (permits s)) (<[i := mkTask (id t) (peer t) (deadline t) (Some e)]> (tasks s)) s)
  end.

(** The loop begins again: joins, then selects. *)
Definition again (s : State) : State := set_stage Selecting (reap s).

Definition step (e : Event) (s : State) : State :=
  match stage s with
  | Down => s
  | Selecting =>
      match e with
      | Incoming ip => again (accept ip s)
      | AcceptError => set_stage (Backoff (now s + ACCEPT_BACKOFF)) (log [AcceptFailed] s)
      | Ends k r => end_task k r s
      | Signal by_ => shut_down by_ s
      | Poll => if sigterm s then shut_down Sigterm s else s
      | Elapse dt => set_now (now s + Z.max dt 0) s
      end
  | Backoff until =>
      match e with
      | Ends k r => end_task k r s
      | Signal Sigterm => set_sigterm true s
      | Elapse dt =>
          let s := set_now (now s + Z.max dt 0) s in
          if until <=? now s then again s else s
      | _ => s
      end
  | Draining until =>
      match e with
      | Ends k r => drain (end_task k r s)
      | Elapse dt =>
          let s := set_now (now s + Z.max dt 0) s in
          if until <=? now s then finish s else s
      | _ => s
      end
  end.

Definition run (es : list Event) (s : State) : State := foldl (fun s e => step e s) s es.

(** ** What holds at every moment *)

Definition running (s : State) : list Task := List.filter is_running (tasks s).

Definition stage_ok (s : State) : Prop :=
  match stage s with
  | Selecting => True
  | Backoff until => now s < until <= now s + ACCEPT_BACKOFF
  | Draining until => now s < until /\ tasks s <> [] /\ Forall (fun t => is_running t = true) (tasks s)
  | Down => tasks s = []
  end.

Record inv (s : State) : Prop := mkInv {
  inv_permits : (permits s + length (running s) = max_concurrent_clients cfg)%nat;
  inv_peers : Forall (fun t => ip_allowed (peer t) = true) (tasks s);
  inv_ids : NoDup (map id (tasks s));
  inv_fresh : Forall (fun t => (id t < accepted s)%nat) (tasks s);
  inv_stage : stage_ok s
}.

(** The invariant apart from the stage. *)
Record core (s : State) : Prop := mkCore {
  core_permits : (permits s + length (running s) = max_concurrent_clients cfg)%nat;
  core_peers : Forall (fun t => ip_allowed (peer t) = true) (tasks s);
  core_ids : NoDup (map id (tasks s));
  core_fresh : Forall (fun t => (id t < accepted s)%nat) (tasks s)
}.

Lemma inv_core s : inv s <-> core s /\ stage_ok s.
Proof. split; [intros [] | intros [[] ?]]; by repeat split. Qed.

Lemma core_same s s' : permits s' = permits s -> tasks s' = tasks s -> accepted s' = accepted s -> core s -> core s'.
Proof. intros Hp Ht Ha []. split; unfold running; rewrite ?Hp, ?Ht, ?Ha; done. Qed.

Lemma filter_idemp {A} (f : A -> bool) l : List.filter f (List.filter f l) = List.filter f l.
Proof. induction l as [|x l IH]; [done|]. cbn. destruct (f x) eqn:E; cbn; [rewrite E; by f_equal | done]. Qed.

Lemma filter_sublist {A} (f : A -> bool) l : List.filter f l `sublist_of` l.
Proof. induction l as [|x l IH]; cbn; [done|]. destruct (f x); [by apply sublist_skip | by apply sublist_cons]. Qed.

Lemma map_filter_sublist {A B} (g : A -> B) (f : A -> bool) l : map g (List.filter f l) `sublist_of` map g l.
Proof. induction l as [|x l IH]; cbn; [done|]. destruct (f x); [by apply sublist_skip | by apply sublist_cons]. Qed.

Lemma Forall_sublist {A} (P : A -> Prop) l k : l `sublist_of` k -> Forall P k -> Forall P l.
Proof. rewrite !Forall_forall. intros Hs Hk x Hx. apply Hk. by eapply elem_of_sublist. Qed.

Lemma core_reap s : core s -> core (reap s).
Proof.
  intros []. pose proof (filter_sublist is_running (tasks s)) as Hs. split; unfold running, reap; cbn.
  - by rewrite filter_idemp.
  - by eapply Forall_sublist.
  - eapply sublist_NoDup; [exact core_ids0|]. apply map_filter_sublist.
  - by eapply Forall_sublist.
Qed.

Lemma reap_running s : Forall (fun t => is_running t = true) (tasks (reap s)).
Proof. apply Forall_forall. intros t. cbn. rewrite list_elem_of_In, filter_In. tauto. Qed.

Lemma core_finish s : core s -> core (finish s) /\ stage_ok (finish s).
Proof.
  intros []. split; [|done]. split; unfold running in *; cbn; [lia|constructor..].
Qed.

Lemma drain_ok s until : stage s = Draining until -> now s < until -> core s -> core (drain s) /\ stage_ok (drain s).
Proof.
  intros Hs Hn Hc. apply core_reap in Hc. unfold drain. destruct (tasks (reap s)) as [|t ts] eqn:E; [by apply core_finish|].
  split; [done|]. unfold stage_ok. cbn. rewrite Hs. split; [done|]. pose proof (reap_running s) as Hr. rewrite E in Hr. cbn in E. by rewrite E.
Qed.

Lemma core_accept ip s : core s -> core (accept ip s).
Proof.
  intros [Hp Hpe Hi Hf]. unfold accept. cbn zeta.
  assert (Hf' : Forall (fun t => (id t < S (accepted s))%nat) (tasks s)) by (eapply Forall_impl; [exact Hf|]; cbn; lia).
  destruct (ip_allowed ip) eqn:Ea; cbn [negb]; [|by split].
  cbn [permits]. destruct (permits s) as [|free] eqn:Efree; [split; cbn; by rewrite ?Efree|].
  split; unfold running in *; cbn.
  - rewrite List.filter_app, length_app. cbn. lia.
  - apply Forall_app. split; [done|]. by repeat constructor.
  - rewrite map_app. apply NoDup_app. split; [done|]. split; [|apply NoDup_singleton].
    intros k (t & -> & Ht)%list_elem_of_fmap. rewrite Forall_forall in Hf. specialize (Hf t Ht). cbn. rewrite list_elem_of_singleton. lia.
  - apply Forall_app. split; [done|]. repeat constructor.
Qed.

Lemma core_end k e s : core s -> core (end_task k e s) /\ stage (end_task k e s) = stage s /\ now (end_task k e s) = now s.
Proof.
  intros Hc. unfold end_task. destruct (list_find _ (tasks s)) as [[i t]|] eqn:E; [|done]. split; [|done].
  apply list_find_Some in E as (Hi & Hr & _). apply Is_true_true in Hr. apply andb_true_iff in Hr as [Hr _].
  rewrite insert_take_drop by (by eapply lookup_lt_Some). destruct Hc as [Hp Hpe Hid Hf].
  unfold running in Hp. rewrite <- (take_drop_middle _ _ _ Hi) in Hp, Hpe, Hid, Hf.
  rewrite List.filter_app, length_app in Hp. cbn in Hp. rewrite Hr in Hp. cbn in Hp.
  rewrite map_app in Hid. rewrite !Forall_app, !Forall_cons in *.
  split; unfold running; cbn.
  - rewrite List.filter_app, length_app. cbn. lia.
  - by rewrite Forall_app, Forall_cons.
  - by rewrite map_app.
  - by rewrite Forall_app, Forall_cons.
Qed.

Lemma core_shut_down by_ s : core s -> core (shut_down by_ s) /\ stage_ok (shut_down by_ s).
Proof.
  intros Hc. apply (drain_ok _ (now s + from_secs SHUTDOWN_DRAIN_SEC)); [done | cbn; unfold SHUTDOWN_DRAIN_SEC, from_secs, NANOS; lia|].
  by eapply core_same; [..|exact Hc].
Qed.

Lemma core_again s : core s -> core (again s) /\ stage_ok (again s).
Proof. intros Hc%core_reap. split; [|done]. by eapply core_same; [..|exact Hc]. Qed.

Lemma end_task_tasks k e s : tasks s <> [] -> tasks (end_task k e s) <> [].
Proof.
  unfold end_task. destruct (list_find _ _) as [[i t]|]; [|done]. cbn. intros Hn He. apply (f_equal length) in He.
  rewrite length_insert in He. by destruct (tasks s).
Qed.

Lemma step_inv e s : inv s -> inv (step e s).
Proof.
  rewrite !inv_core. intros [Hc Hs]. unfold step. unfold stage_ok in Hs. destruct (stage s) as [|u|u|] eqn:E.
  - destruct e as [ip| |k r|by_| |dt].
    + by apply core_again, core_accept.
    + split; [by eapply core_same; [..|exact Hc]|]. cbn. unfold ACCEPT_BACKOFF. lia.
    + destruct (core_end k r s Hc) as (H1 & H2 & _). split; [done|]. unfold stage_ok. by rewrite H2, E.
    + by apply core_shut_down.
    + destruct (sigterm s); [by apply core_shut_down|]. split; [done|]. unfold stage_ok. by rewrite E.
    + split; [by eapply core_same; [..|exact Hc]|]. unfold stage_ok. cbn. by rewrite E.
  - destruct e as [ip| |k r|[]| |dt]; try (split; [done|]; unfold stage_ok; by rewrite E).
    + destruct (core_end k r s Hc) as (H1 & H2 & H3). split; [done|]. unfold stage_ok. by rewrite H2, E, H3.
    + split; [by eapply core_same; [..|exact Hc]|]. unfold stage_ok. cbn. by rewrite E.
    + cbn zeta. cbn [now set_now]. destruct (u <=? now s + Z.max dt 0) eqn:El; zify_bools.
      * apply core_again. by eapply core_same; [..|exact Hc].
      * split; [by eapply core_same; [..|exact Hc]|]. unfold stage_ok. cbn. rewrite E. lia.
  - destruct e as [ip| |k r|by_| |dt]; try (split; [done|]; unfold stage_ok; by rewrite E).
    + destruct (core_end k r s Hc) as (H1 & H2 & H3). apply (drain_ok _ u); [congruence | rewrite H3; by apply Hs | done].
    + cbn zeta. cbn [now set_now]. destruct (u <=? now s + Z.max dt 0) eqn:El; zify_bools.
      * apply core_finish. by eapply core_same; [..|exact Hc].
      * split; [by eapply core_same; [..|exact Hc]|]. unfold stage_ok. cbn. rewrite E. split; [lia | apply Hs].
  - split; [done|]. unfold stage_ok. by rewrite E.
Qed.

Lemma run_inv es s : inv s -> inv (run es s).
Proof. unfold run. revert s. induction es as [|e es IH]; intros s Hi; [done|]. cbn. by apply IH, step_inv. Qed.

Lemma initial_inv t : inv (initial t).
Proof. split; unfold running; cbn; [lia | constructor | constructor | constructor | done]. Qed.

(** C12: At every moment every running handler holds one of the permits, so there are never
    more than configured, and a permit comes back however its handler ends; no handler runs
    for a peer the global rule does not let in; each connection has one handler at most;
    and nothing runs when the server is down. *)
Theorem server_limits t es :
  let s := run es (initial t) in
  (permits s + length (running s) = max_concurrent_clients cfg)%nat /\
  Forall (fun t => ip_allowed (peer t) = true) (tasks s) /\ NoDup (map id (tasks s)) /\
  (stage s = Down -> tasks s = [] /\ permits s = max_concurrent_clients cfg).
Proof.
  cbn zeta. destruct (run_inv es _ (initial_inv t)) as [Hp Hpe Hi _ Hs]. split; [done|]. split; [done|]. split; [done|].
  intros Hd. unfold stage_ok in Hs. rewrite Hd in Hs. split; [done|]. unfold running in Hp. rewrite Hs in Hp. cbn in Hp. lia.
Qed.

(** ** Shutting down *)

(** What the end may do: drop tasks, and get to its deadline. *)
Record ending (until : Z) (s s' : State) : Prop := mkEnding {
  en_accepted : accepted s' = accepted s;
  en_tasks : map id (tasks s') ⊆ map id (tasks s);
  en_now : now s <= now s';
  en_stage : stage s' = Draining until \/ stage s' = Down
}.

Lemma ending_trans u a b c : ending u a b -> ending u b c -> ending u a c.
Proof. intros [] []. split; [congruence | set_solver | lia | done]. Qed.

Lemma reap_ids s : map id (tasks (reap s)) ⊆ map id (tasks s).
Proof. cbn. apply sublist_subseteq, map_filter_sublist. Qed.

Lemma drain_ending u s : stage s = Draining u -> ending u s (drain s).
Proof.
  intros Hs. pose proof (reap_ids s) as Hr. unfold drain. destruct (tasks (reap s)) as [|t ts] eqn:E.
  - split; cbn; [done | set_solver | lia | by right].
  - split; [done | by rewrite E in * | cbn; lia | by left].
Qed.

Lemma end_task_ids k e s : map id (tasks (end_task k e s)) = map id (tasks s).
Proof.
  unfold end_task. destruct (list_find _ (tasks s)) as [[i t]|] eqn:E; [|done]. apply list_find_Some in E as (Hi & _ & _). cbn.
  rewrite list_fmap_insert. cbn. apply list_insert_id. by rewrite list_lookup_fmap, Hi.
Qed.

Lemma step_ending u e s : stage s = Draining u \/ stage s = Down -> ending u s (step e s).
Proof.
  intros Hst. unfold step. destruct Hst as [Hs|Hs]; rewrite Hs.
  - destruct e as [ip| |k r|by_| |dt]; try (split; [done | done | lia | by left]).
    + assert (He : ending u s (end_task k r s)).
      { split; [by unfold end_task; case_match; [case_match|] | by rewrite end_task_ids | |].
        - by unfold end_task; case_match; [case_match|].
        - left. by unfold end_task; case_match; [case_match|]. }
      eapply ending_trans; [exact He|]. apply drain_ending. by unfold end_task; case_match; [case_match|].
    + cbn zeta. cbn [now set_now]. destruct (u <=? _); split; cbn; [done | set_solver | lia | by right | done | done | lia | by left].
  - split; [done | done | lia | by right].
Qed.

Lemma run_ending u es : forall s, stage s = Draining u \/ stage s = Down -> ending u s (run es s).
Proof.
  unfold run. induction es as [|e es IH]; intros s Hs; [split; cbn; [done | done | lia | done]|]. cbn.
  pose proof (step_ending u e s Hs) as He. eapply ending_trans; [exact He|]. apply IH, He.
Qed.

(** C15: Once a signal is taken the server is on its way down: whatever happens after, no
    connection is accepted and no handler started; those that run may go on, but thirty
    seconds later, at the latest, the server is down, and it is down as soon as none is
    left. *)
Theorem shutdown_bounded t es by_ es' :
  let s := run es (initial t) in
  stage s = Selecting ->
  let s' := run es' (step (Signal by_) s) in
  accepted s' = accepted s /\ map id (tasks s') ⊆ map id (tasks s) /\
  (now s' < now s + from_secs SHUTDOWN_DRAIN_SEC \/ stage s' = Down) /\
  (running s' <> [] \/ stage s' = Down).
Proof.
  cbn zeta. intros Hs. set (s := run es (initial t)) in *. pose proof (run_inv es _ (initial_inv t)) as Hi. fold s in Hi.
  set (u := now s + from_secs SHUTDOWN_DRAIN_SEC).
  assert (He : ending u (set_stage (Draining u) (log [Received by_ (length (tasks s))] s)) (step (Signal by_) s))
    by (unfold step; rewrite Hs; by apply drain_ending).
  pose proof (run_inv es' _ (step_inv (Signal by_) s Hi)) as Hi'.
  pose proof (run_ending u es' _ (en_stage _ _ _ He)) as He'. pose proof (ending_trans _ _ _ _ He He') as [H1 H2 _ H4].
  set (s' := run es' (step (Signal by_) s)) in *. split; [done|]. split; [done|]. destruct Hi' as [_ _ _ _ Hst].
  destruct H4 as [H4|H4]; [|by auto]. unfold stage_ok in Hst. rewrite H4 in Hst. destruct Hst as (Hn & Ht & Hr). split; [by left|].
  left. unfold running. destruct (tasks s') as [|x xs]; [done|]. apply Forall_cons in Hr as [Hx _]. cbn. by rewrite Hx.
Qed.

(** Serving goes on after any connection and any failure to accept one. *)
Theorem serving_goes_on t es :
  let s := run es (initial t) in
  (stage s = Selecting -> forall ip, stage (step (Incoming ip) s) = Selecting) /\
  (forall u, stage s = Backoff u -> stage (step (Elapse ACCEPT_BACKOFF) s) = Selecting).
Proof.
  cbn zeta. set (s := run es (initial t)). destruct (run_inv es _ (initial_inv t)) as [_ _ _ _ Hst]. fold s in Hst. split.
  - intros Hs ip. unfold step. by rewrite Hs.
  - intros u Hs. unfold stage_ok in Hst. rewrite Hs in Hst. unfold step. rewrite Hs. cbn zeta. cbn [now set_now].
    rewrite (proj2 (Z.leb_le _ _)); [done|]. unfold ACCEPT_BACKOFF in *. lia.
Qed.

(** What comes while a failure to accept is slept off: a SIGTERM is seen after, a Ctrl+C is
    not. *)
Theorem signals_during_backoff s u : stage s = Backoff u ->
  step (Signal CtrlC) s = s /\
  step Poll (step (Elapse (u - now s)) (step (Signal Sigterm) s)) = shut_down Sigterm (again (set_now (Z.max u (now s)) (set_sigterm true s))).
Proof.
  intros Hs. unfold step at 1. rewrite Hs. split; [done|]. unfold step at 3. rewrite Hs. unfold step at 2. cbn. rewrite Hs. cbn.
  rewrite (proj2 (Z.leb_le _ _)) by lia. replace (now s + Z.max (u - now s) 0) with (Z.max u (now s)) by lia. done.
Qed.
End Server.

(** ** An example: two permits, three clients of which one is not let in *)

Definition demo_rule : Clients.AllowedClients := Clients.mk false [Clients.Loopback].
Definition demo_server : Config := mkConfig 2 (Some demo_rule) 30.
Definition localhost : Clients.IpAddr := Clients.V4 [127; 0; 0; 1].
Definition demo_events : list Event :=
  [Incoming (Some localhost); Incoming None; AcceptError; Signal CtrlC; Elapse ACCEPT_BACKOFF;
   Incoming (Some localhost); Incoming (Some localhost); Ends 0 Panicked].

Example demo_run :
  let s := run demo_server demo_events (initial demo_server 0) in
  (permits s, map id (running s), logged s, stage s) = (1%nat, [2%nat], [Rejected None; AcceptFailed; CapReached], Selecting).
Proof. vm_compute. reflexivity. Qed.

Lemma shutdown_bounded_witness :
  let s := run demo_server demo_events (initial demo_server 0) in
  let s' := run demo_server [Incoming (Some localhost); Elapse (from_secs 29); Elapse (from_secs 1)] (step demo_server (Signal Sigterm) s) in
  stage s = Selecting /\ accepted s' = accepted s /\ map id (tasks s') ⊆ map id (tasks s) /\
  (now s' < now s + from_secs SHUTDOWN_DRAIN_SEC \/ stage s' = Down) /\ (running s' <> [] \/ stage s' = Down).
Proof.
  cbn zeta. split; [vm_compute; reflexivity|]. apply (shutdown_bounded demo_server 0 demo_events Sigterm). vm_compute. reflexivity.
Defined.
End RunServer.
