(* ===== verification/Logger.v ===== *)
(** Logging (src/crates/resocks5/src/logger/, and the task that writes the lines out,
    src/crates/resocks5/src/server/bootstrap/log_drain.rs).

    - a message is built, and control characters escaped, only when its kind is enabled
      and the bounded channel has room;
    - a line goes to the file, to the console, or to both; from the first failure of the
      file on, to the console. *)
From S2P Require Import Prelude Text TextFmt HostPort ProxyTypes.

Module Logger.

(** ** What is logged *)

Record LogConfig := mkLogConfig {
  lifecycle : bool; cache_attempts : bool; cache_hits : bool; cache_writes : bool;
  proxy_failures : bool; banned_targets : bool; connection_errors : bool;
  client_disconnects : bool; attempts : bool; tunnels : bool
}.
Definition LogConfig_default : LogConfig := mkLogConfig true false false false true true true false false false.

Inductive ELog := Log (m : bytes) | Error (m : bytes).
Definition text (m : ELog) : bytes := match m with Log m | Error m => m end.

(** The methods of [Logger]. *)
Inductive Method :=
| MLifecycle | MCacheAttempt | MCacheHit | MCacheWrite | MProxyFailure | MBannedTarget
| MConnectionError | MClientDisconnect | MAttempt | MTunnel.

Definition enabled (cfg : LogConfig) (k : Method) : bool :=
  match k with
  | MLifecycle => lifecycle cfg
  | MCacheAttempt => cache_attempts cfg
  | MCacheHit => cache_hits cfg
  | MCacheWrite => cache_writes cfg
  | MProxyFailure => proxy_failures cfg
  | MBannedTarget => banned_targets cfg
  | MConnectionError => connection_errors cfg
  | MClientDisconnect => client_disconnects cfg
  | MAttempt => attempts cfg
  | MTunnel => tunnels cfg
  end.
Definition wrap (k : Method) : bytes -> ELog :=
  match k with
  | MLifecycle | MCacheAttempt | MCacheHit | MCacheWrite | MAttempt | MTunnel => Log
  | MProxyFailure | MBannedTarget | MConnectionError | MClientDisconnect => Error
  end.

(** ** Escaping *)

(** [char::is_control]: the category Cc. *)
Definition is_control (c : Z) : bool := (c <=? 31) || ((127 <=? c) && (c <=? 159)).

(** [char::escape_default] of a control character. *)
Definition escape_default (c : Z) : bytes :=
  if c =? 9 then lit "\t" else if c =? 13 then lit "\r" else if c =? 10 then lit "\n"
  else lit "\u{" ++ fmt_hex c ++ lit "}".

Definition escaped (message : bytes) : bytes :=
  match utf8_chars message with
  | None => message   (* not a [String] *)
  | Some cs =>
      if existsb (fun c => is_control c.1) cs
      then concat (map (fun c => if is_control c.1 then escape_default c.1 else c.2) cs)
      else message
  end.

(** ** The channel *)

Record Logger := mkLogger { cfg : LogConfig; capacity : nat; open : bool; queue : list ELog }.

Definition send (msg : unit -> bytes) (w : bytes -> ELog) (l : Logger) : Logger :=
  if open l && (length (queue l) <? capacity l)%nat
  then mkLogger (cfg l) (capacity l) (open l) (queue l ++ [w (escaped (msg tt))])
  else l.

Definition call (k : Method) (msg : unit -> bytes) (l : Logger) : Logger :=
  if enabled (cfg l) k then send msg (wrap k) l else l.

(** ** Writing *)

(** [file]: what it has, while it can be written to. *)
Record Sinks := mkSinks { file_open : bool; file : bytes; out : bytes; err : bytes; failures : nat }.

Definition line_of (now : bytes) (m : ELog) : bytes := now ++ lit ": " ++ text m ++ [LF].

(** [fails]: a write or flush that fails, with what has got into the file. *)
Definition write_line (also_console : bool) (now : bytes) (fails : option nat) (m : ELog) (s : Sinks) : Sinks :=
  let line := line_of now m in
  let s :=
    if file_open s then
      match fails with
      | None => mkSinks true (file s ++ line) (out s) (err s) (failures s)
      | Some n => mkSinks false (file s ++ take n line) (out s) (err s) (S (failures s))
      end
    else s in
  if negb (file_open s) || also_console then
    match m with
    | Log _ => mkSinks (file_open s) (file s) (out s ++ line) (err s) (failures s)
    | Error _ => mkSinks (file_open s) (file s) (out s) (err s ++ line) (failures s)
    end
  else s.

(** The file when the task begins. *)
Definition spawn_log_drain (enabled opens : bool) (content : bytes) : Sinks :=
  mkSinks (enabled && opens) content [] [] (if enabled && negb opens then 1 else 0).

(** What is received, with the time it is and how its write goes. *)
Definition drain (also_console : bool) (ms : list (bytes * option nat * ELog)) (s : Sinks) : Sinks :=
  foldl (fun s m => write_line also_console m.1.1 m.1.2 m.2 s) s ms.

Definition file_write_error_message (path e : bytes) : bytes :=
  lit "file logger: write to " ++ path ++ lit " failed: " ++ e ++ lit " " ++ map byte_of [226; 128; 148]
  ++ lit " falling back to console-only logging for the rest of this run".

(** ** Upstreams in messages *)

Definition family_label (host : bytes) : bytes := if is_ipv6 host then lit "V6" else lit "V4".

Definition print_cfg (p : ProxyConfig) : bytes :=
  lit "ip " ++ family_label (host p) ++ lit " - " ++ protocol_debug (protocol p) ++ lit "://" ++ host p ++ lit ":"
  ++ fmt_dec (port p).

(** Neither the user nor the password of an upstream is printed. *)
Lemma print_cfg_no_credentials p u w : print_cfg (with_auth p u w) = print_cfg p.
Proof. done. Qed.

(** ** Escaped text *)












(** ** Lines *)

(** What is received and the line a reader is to find of it: the time, the text, and an end
    of line. *)
Definition received_line (m : bytes * option nat * ELog) : bytes :=
  m.1.1 ++ lit ": " ++ match m.2 with Log text | Error text => text end ++ [LF].
Definition lines (ms : list (bytes * option nat * ELog)) : bytes := concat (map received_line ms).
Definition console (error : bool) (ms : list (bytes * option nat * ELog)) : bytes :=
  concat (map (fun m => if bool_decide (error = match m.2 with Error _ => true | Log _ => false end) then received_line m else []) ms).

Lemma console_cons e m ms : console e (m :: ms) =
  (if bool_decide (e = match m.2 with Error _ => true | Log _ => false end) then received_line m else []) ++ console e ms.
Proof. done. Qed.

Lemma lines_cons m ms : lines (m :: ms) = received_line m ++ lines ms.
Proof. done. Qed.

Lemma drain_cons also m ms s : drain also (m :: ms) s = drain also ms (write_line also m.1.1 m.1.2 m.2 s).
Proof. done. Qed.

(** Without a file everything goes to the console. *)
Lemma drain_console also ms : forall s, file_open s = false ->
  let s' := drain also ms s in
  file_open s' = false /\ file s' = file s /\ failures s' = failures s /\
  out s' = out s ++ console false ms /\ err s' = err s ++ console true ms.
Proof.
  induction ms as [|[[now fails] m] ms IH]; intros s Hs; cbn zeta; [cbn; by rewrite !app_nil_r|].
  rewrite drain_cons. cbn [fst snd]. unfold write_line. rewrite !Hs. cbn [negb orb].
  destruct m as [m|m]; (match goal with |- context [drain also ms ?x] => destruct (IH x) as (H1 & H2 & H3 & H4 & H5); [done|] end);
    rewrite H1, H2, H3, H4, H5, !console_cons; cbn; rewrite <- ?app_assoc; done.
Qed.

(** No line is lost once it is received: those before the first failure of the file are
    in the file, whole and in order, and the console has every later one, the failing one
    included, in order, each on its side; with [also_console] it has them all. The failure
    is reported once. *)
Theorem drained_lines also ms s : file_open s = true ->
  exists before after partial,
    ms = before ++ after /\ Forall (fun m => m.1.2 = None) before /\
    let s' := drain also ms s in
    file s' = file s ++ lines before ++ partial /\
    out s' = out s ++ console false (if also : bool then ms else after) /\
    err s' = err s ++ console true (if also then ms else after) /\
    match after with
    | [] => partial = [] /\ failures s' = failures s
    | m :: _ => m.1.2 <> None /\ partial `prefix_of` received_line m /\ failures s' = S (failures s)
    end.
Proof.
  revert s. induction ms as [|[[now fails] m] ms IH]; intros s Hs.
  { exists [], [], []. cbn zeta. destruct also; cbn; rewrite !app_nil_r; done. }
  destruct fails as [n|].
  - exists [], ((now, Some n, m) :: ms), (take n (line_of now m)). split; [done|]. split; [constructor|]. cbn zeta.
    rewrite drain_cons. cbn [fst snd]. unfold write_line. rewrite Hs. cbn [negb orb file_open].
    destruct m as [m|m]; (match goal with |- context [drain also ms ?x] => destruct (drain_console also ms x) as (H1 & H2 & H3 & H4 & H5); [done|] end);
      rewrite H2, H3, H4, H5; destruct also; rewrite !console_cons; cbn; rewrite <- ?app_assoc, ?app_nil_r;
      (split; [done|]; split; [done|]; split; [done|]; split; [done|]; split; [apply prefix_take | done]).
  - match goal with |- context [drain also (?x :: ms) s] => destruct (IH (write_line also now None m s)) as (before & after & partial & -> & Hb & Hf & Ho & He & Ha) end.
    { unfold write_line. rewrite Hs. cbn [negb orb file_open]. destruct also, m; done. }
    exists ((now, None, m) :: before), after, partial. split; [done|]. split; [by constructor|]. cbn zeta. rewrite drain_cons. cbn [fst snd].
    assert (Hw : file (write_line also now None m s) = file s ++ line_of now m /\ failures (write_line also now None m s) = failures s /\
      out (write_line also now None m s) = out s ++ (if also then console false [(now, None, m)] else []) /\
      err (write_line also now None m s) = err s ++ (if also then console true [(now, None, m)] else [])).
    { unfold write_line. rewrite Hs. cbn [negb orb file_open]. destruct also, m; cbn; rewrite ?app_nil_r; done. }
    destruct Hw as (W1 & W2 & W3 & W4). rewrite W2 in Ha. rewrite Hf, Ho, He, W1, W3, W4, lines_cons, <- !app_assoc. split; [done|].
    destruct also; cbn [app]; [|done]. rewrite !console_cons. cbn [console map concat]. rewrite <- !app_assoc. by repeat split.
Qed.

(** ** Histories *)

Inductive Step := Call (k : Method) (m : bytes) | Receive (now : bytes) (fails : option nat).

(** The queue, and what the writing task got out of it. *)
Definition log_step (also : bool) (σ : Logger * Sinks) (x : Step) : Logger * Sinks :=
  let '(l, s) := σ in
  match x with
  | Call k m => (call k (fun _ => m) l, s)
  | Receive now fails =>
      match queue l with
      | [] => σ
      | m :: q => (mkLogger (cfg l) (capacity l) (open l) q, write_line also now fails m s)
      end
  end.
Definition run (also : bool) (xs : list Step) (σ : Logger * Sinks) : Logger * Sinks := foldl (log_step also) σ xs.













(** ** An example: a client's line end, and a file that fails at the second line *)

Definition demo_logger : Logger := mkLogger LogConfig_default 1 true [].
Definition demo_steps : list Step :=
  [Call MProxyFailure (lit "a" ++ [LF] ++ lit "b"); Call MLifecycle (lit "dropped"); Receive (lit "12:00") None;
   Call MCacheHit (lit "off"); Call MLifecycle (lit "c"); Receive (lit "12:01") (Some 3%nat)].

Example demo_log :
  let s := (run false demo_steps (demo_logger, spawn_log_drain true true [])).2 in
  (file s, out s, err s, failures s) = (lit "12:00: a\nb" ++ [LF] ++ lit "12:", lit "12:01: c" ++ [LF], [], 1%nat).
Proof. vm_compute. reflexivity. Qed.


Lemma drained_lines_witness : exists before after partial,
  [(lit "1", None, Log (lit "x")); (lit "2", Some 1%nat, Log (lit "y"))] = before ++ after /\ Forall (fun m => m.1.2 = None) before /\
  file (drain false [(lit "1", None, Log (lit "x")); (lit "2", Some 1%nat, Log (lit "y"))] (spawn_log_drain true true []))
  = [] ++ lines before ++ partial.
Proof.
  destruct (drained_lines false [(lit "1", None, Log (lit "x")); (lit "2", Some 1%nat, Log (lit "y"))] (spawn_log_drain true true [])
    eq_refl) as (b & a & p & H1 & H2 & H3 & _). exists b, a, p. auto.
Defined.
End Logger.
