(* ===== verification/ConfigFiles.v ===== *)
(** The configuration files (src/crates/resocks5/src/config/load_or_init.rs and
    config/main/): what the server is configured with, read from three files that a first
    run creates, taking over what the files of older versions hold.

    - the records of the main file and their defaults ([default_main]);
    - reading or creating one file ([init_at]), and all three ([load_or_init]), over the
      system calls of [UsersFile], each failing as it may;
    - what the other components are given of the main file ([startup_config] and the rest).

    What [ktav] makes of a file is a parameter. *)
From S2P Require Import Prelude Text TextFmt ProxyTypes Errors Floats Rating Quarantine Ratings Sticky Rotator ChainPlan Clients Users UsersFile Alone Auth Pool Fragment Probes Health Startup RunServer Logger.

Module ConfigFiles.
Import UsersFile(File, mkFile, Fs, Ret, Exists, ReadFile, fs_bind, Disk, Decision, Works, data, mode, target, tmp, lock, PRIVATE_MODE,
                 LockError, WriteError, CommitError, write_atomic, from_file, locked).
Import Alone(exec, runs, written).
#[local] Existing Instance UsersFile.fs_mbind.

(** ** The main file *)

Record AuthConfig := mkAuthConfig { allow_anonymous : bool }.

Record FileLogConfig := mkFileLogConfig { log_to_file : bool; path : bytes; also_console : bool }.
Definition FileLogConfig_default : FileLogConfig := mkFileLogConfig false (lit "resocks5.log") true.

Record TlsFragmentConfig := mkTlsFragmentConfig { fragment : bool; fragment_size : nat; delay_ms : Z }.
Definition TlsFragmentConfig_default : TlsFragmentConfig := mkTlsFragmentConfig false 40 0.
Definition to_spec (c : TlsFragmentConfig) : Fragment.FragmentSpec :=
  Fragment.mkFragmentSpec (fragment c) (fragment_size c) (delay_ms c).

Record NetworkConfig (F : Type) := mkNetworkConfig {
  connect_timeout_sec : Z; handshake_timeout_sec : Z; tunnel_max_lifetime_sec : Z; tcp_keepalive_sec : Z;
  client_protocol_timeout_sec : Z; max_concurrent_clients : nat; max_upstream_attempts : nat;
  max_per_upstream : nat; tunnel_idle_timeout_sec : Z; max_concurrent_direct : nat;
  sand_half_life_sec : F; sand_fail_penalty : F; sand_max : F; sand_min_weight : F; sand_success_factor : F;
  quarantine_threshold : Z; quarantine_initial_sec : Z; quarantine_max_sec : Z;
  hedge_delay_ms : Z; health_save_sec : Z; recover_host_from_payload : bool
}.
Arguments mkNetworkConfig {F}.
Arguments connect_timeout_sec {F}.
Arguments handshake_timeout_sec {F}.
Arguments tunnel_max_lifetime_sec {F}.
Arguments tcp_keepalive_sec {F}.
Arguments client_protocol_timeout_sec {F}.
Arguments max_concurrent_clients {F}.
Arguments max_upstream_attempts {F}.
Arguments max_per_upstream {F}.
Arguments tunnel_idle_timeout_sec {F}.
Arguments max_concurrent_direct {F}.
Arguments sand_half_life_sec {F}.
Arguments sand_fail_penalty {F}.
Arguments sand_max {F}.
Arguments sand_min_weight {F}.
Arguments sand_success_factor {F}.
Arguments quarantine_threshold {F}.
Arguments quarantine_initial_sec {F}.
Arguments quarantine_max_sec {F}.
Arguments hedge_delay_ms {F}.
Arguments health_save_sec {F}.
Arguments recover_host_from_payload {F}.

Record MainConfig (F : Type) := mkMainConfig {
  port : Z; listen_host : bytes; banned_patterns : list bytes; auth : AuthConfig; log : Logger.LogConfig;
  pool : Pool.PoolConfig; tls_fragment : TlsFragmentConfig; network : NetworkConfig F; file_log : FileLogConfig;
  allowed_clients : bytes
}.
Arguments mkMainConfig {F}.
Arguments port {F}.
Arguments listen_host {F}.
Arguments banned_patterns {F}.
Arguments auth {F}.
Arguments log {F}.
Arguments pool {F}.
Arguments tls_fragment {F}.
Arguments network {F}.
Arguments file_log {F}.
Arguments allowed_clients {F}.

Section Main.
Context {F : Type} `{Float F}.

Definition NetworkConfig_default : NetworkConfig F :=
  mkNetworkConfig 10 10 1800 60 30 1024 10 8 30 256 (of_Z 30) (of_Z 1) (of_Z 8) (ratio 5 100) (ratio 5 10) 3 30 600 2000 30 true.

Definition default_main (port : Z) (banned_patterns : list bytes) : MainConfig F :=
  mkMainConfig port (lit "127.0.0.1") banned_patterns (mkAuthConfig true) Logger.LogConfig_default
    Pool.default_config TlsFragmentConfig_default NetworkConfig_default FileLogConfig_default (lit "*").

(** ** What the components are given of it *)

Definition rating_policy (n : NetworkConfig F) : Policy.RatingPolicy F :=
  Policy.mkRatingPolicy (sand_half_life_sec n) (sand_fail_penalty n) (sand_max n) (sand_min_weight n) (sand_success_factor n).

Definition startup_config (m : MainConfig F) : Startup.MainConfig F :=
  let n := network m in
  Startup.mkMainConfig (allow_anonymous (auth m)) (allowed_clients m) (rating_policy n)
    (connect_timeout_sec n) (handshake_timeout_sec n)
    (quarantine_threshold n) (quarantine_initial_sec n) (quarantine_max_sec n) (health_save_sec n).

Definition local_addr (m : MainConfig F) : bytes := listen_host m ++ lit ":" ++ fmt_dec (port m).
Definition proxy_pool (m : MainConfig F) (now : Z) : Pool.t := Pool.new (pool m) (max_per_upstream (network m)) now.
Definition server_config (m : MainConfig F) (rule : Clients.AllowedClients) : RunServer.Config :=
  RunServer.mkConfig (max_concurrent_clients (network m)) (Some rule) (client_protocol_timeout_sec (network m)).
End Main.

(** ** Reading or creating a file *)

Section Init.
Context {C E : Type} (to_string : C -> option bytes) (from_str : bytes -> option C).
Context (lock_error : LockError -> E) (read_error : E) (write_error : WriteError -> E).

(** [first]: what a first run begins with, or why that cannot be told. *)
Definition init_at (first : result E C) : Fs (result E C) :=
  let read := cfg ← from_file from_str; Ret (ok_or read_error cfg) in
  Exists (fun e =>
    if e then read
    else
      locked (fun e => Err (lock_error e))
        (Exists (fun e =>
          if e then read
          else
            match first with
            | Err e => Ret (Err e)
            | Ok cfg =>
                r ← write_atomic to_string cfg;
                Ret (match r with Ok _ => Ok cfg | Err e => Err (write_error e) end)
            end))).
End Init.

Inductive InitError := InitLock (e : LockError) | InitRead | InitMigrate | InitWrite (e : WriteError).

Record Configs (F : Type) := mkConfigs {
  main : MainConfig F; proxy_list : Startup.ProxyListConfig; users : list Users.User
}.
Arguments mkConfigs {F}.
Arguments main {F}.
Arguments proxy_list {F}.
Arguments users {F}.

Inductive LoadError := AtMain (e : InitError) | AtLists (e : InitError) | AtUsers (e : CommitError).

(** The directory: a disk per file, and the files of older versions: [None] where there is
    none, [Some None] where it cannot be read. *)
Record Dir := mkDir {
  main_disk : Disk; lists_disk : Disk; users_disk : Disk;
  old_main : option (option bytes); old_v4 : option (option bytes); old_v6 : option (option bytes)
}.

(** A routine run alone: its answer, if it lived to give one. *)
Definition alone {A} (ds : list Decision) (w : Disk) (p : Fs A) : option A * Disk :=
  match exec ds w p with (w', Ret a) => (Some a, w') | (w', _) => (None, w') end.

Section Load.
Context {F : Type} `{Float F}.
(** [ktav] on each kind of file, the main file of older versions included. *)
Context (main_to_string : MainConfig F -> option bytes) (main_from_str : bytes -> option (MainConfig F)).
Context (lists_to_string : Startup.ProxyListConfig -> option bytes) (lists_from_str : bytes -> option Startup.ProxyListConfig).
Context (users_to_string : list Users.User -> option bytes) (users_from_str : bytes -> option (list Users.User)).
Context (old_main_from_str : bytes -> option (Z * list bytes)).

Definition first_main (old : option (option bytes)) : option (MainConfig F) :=
  match old with
  | None => Some (default_main 20082 [])
  | Some text => text ← text; '(port, banned_patterns) ← old_main_from_str text; Some (default_main port banned_patterns)
  end.

Definition load_or_init_main_at (old : option (option bytes)) : Fs (result InitError (MainConfig F)) :=
  init_at main_to_string main_from_str InitLock InitRead InitWrite (ok_or InitMigrate (first_main old)).

Definition load_or_init_proxy_list_at (old_v4 old_v6 : option (option bytes)) : Fs (result InitError Startup.ProxyListConfig) :=
  init_at lists_to_string lists_from_str InitLock InitRead InitWrite (ok_or InitMigrate (Startup.migrate old_v4 old_v6)).

Definition load_or_init_users : Fs (result CommitError (list Users.User)) :=
  UsersFile.load_or_init_users_at users_to_string users_from_str.

(** What the calls on each of the files meet. *)
Definition load_or_init (ds : list Decision * list Decision * list Decision) (d : Dir)
    : option (result LoadError (Configs F)) * Dir :=
  let '(m, w1) := alone ds.1.1 (main_disk d) (load_or_init_main_at (old_main d)) in
  let d := mkDir w1 (lists_disk d) (users_disk d) (old_main d) (old_v4 d) (old_v6 d) in
  match m with
  | None => (None, d)
  | Some (Err e) => (Some (Err (AtMain e)), d)
  | Some (Ok main) =>
      let '(l, w2) := alone ds.1.2 (lists_disk d) (load_or_init_proxy_list_at (old_v4 d) (old_v6 d)) in
      let d := mkDir (main_disk d) w2 (users_disk d) (old_main d) (old_v4 d) (old_v6 d) in
      match l with
      | None => (None, d)
      | Some (Err e) => (Some (Err (AtLists e)), d)
      | Some (Ok proxy_list) =>
          let '(u, w3) := alone ds.2 (users_disk d) load_or_init_users in
          let d := mkDir (main_disk d) (lists_disk d) w3 (old_main d) (old_v4 d) (old_v6 d) in
          match u with
          | None => (None, d)
          | Some (Err e) => (Some (Err (AtUsers e)), d)
          | Some (Ok users) => (Some (Ok (mkConfigs main proxy_list users)), d)
          end
      end
  end.
End Load.

(** ** One file *)

Section InitSpec.
Context {C E : Type} (to_string : C -> option bytes) (from_str : bytes -> option C).
Context (lock_error : LockError -> E) (read_error : E) (write_error : WriteError -> E).
Local Abbreviation init_at := (init_at to_string from_str lock_error read_error write_error).

Lemma runs_acquire I Q w : (forall w', target w' = target w -> I w') -> (forall l w', target w' = target w -> Q l w') ->
  runs I Q UsersFile.acquire w.
Proof.
  intros HI HQ. assert (Hret : forall l w', target w' = target w -> runs I Q (Ret l) w').
  { intros l w' Ht. by apply Alone.runs_ret; [apply HI | apply HQ]. }
  assert (Hloop : forall deadline fuel w', target w' = target w -> runs I Q (UsersFile.acquire_loop fuel deadline) w').
  { intros deadline. induction fuel as [|fuel IH]; intros w' Ht; cbn [UsersFile.acquire_loop]; [by apply Hret|].
    Alone.one_call; [by apply HI|]. destruct (UsersFile.works d); cbn [negb]; [|intros [= <- <-]; by apply Hret].
    destruct (lock w'); intros [= <- <-].
    - Alone.one_call; [by apply HI|]. intros [= <- <-]. destruct (_ <=? _); [by apply Hret|].
      Alone.one_call; [by apply HI|]. intros [= <- <-]. Alone.one_call; [by apply HI|].
      destruct (_ <=? _); [|done]. intros [= <- <-]. by apply IH.
    - Alone.one_call; [by apply HI|]. intros [= <- <-]. by apply Hret. }
  unfold UsersFile.acquire, UsersFile.acquire_with_timeout. Alone.one_call; [by apply HI|].
  intros [= <- <-]. destruct (UsersFile.works d); cbn [negb]; [|by apply Hret].
  Alone.one_call; [by apply HI|]. intros [= <- <-]. by apply (Hloop _ UsersFile.LOCK_FUEL).
Qed.

(** The file is what it was, or a first run has put the whole of what it begins with where
    there was none. *)
Definition init_kept (first : result E C) (w w' : Disk) : Prop :=
  target w' = target w \/ (target w = None /\ exists c, first = Ok c /\ written to_string c None (target w')).

Definition init_post (first : result E C) (w : Disk) (r : result E C) (w' : Disk) : Prop :=
  match r with
  | Ok c =>
      match target w with
      | Some f => target w' = Some f /\ from_str (data f) = Some c
      | None => first = Ok c /\ written to_string c None (target w')
      end
  | Err e => target w' = target w \/ e = write_error UsersFile.SyncAfterReplaceFailed
  end.

Lemma runs_read first w w1 f : target w = Some f -> target w1 = target w ->
  runs (init_kept first w) (init_post first w) (cfg ← from_file from_str; Ret (ok_or read_error cfg)) w1.
Proof.
  intros Hf Ht. apply Alone.runs_bind, Alone.runs_from_file; [by left|..].
  - apply Alone.runs_ret; by left.
  - rewrite Ht, Hf. cbn. destruct (from_str (data f)) eqn:Ed; (apply Alone.runs_ret; [by left|]); cbn; [|by left].
    rewrite Hf, Ht. done.
Qed.

Lemma runs_init_at first w : runs (init_kept first w) (init_post first w) (init_at first) w.
Proof.
  unfold ConfigFiles.init_at. Alone.one_call; [by left|]. intros [= <- <-].
  destruct (target w) as [f|] eqn:Et.
  { rewrite bool_decide_eq_true_2 by done. by eapply runs_read. }
  rewrite bool_decide_eq_false_2 by (by intros []).
  apply Alone.runs_bind, runs_acquire; [by left|]. intros l w1 Ht1.
  destruct l as [|e]; [|by apply Alone.runs_ret; [left | left]].
  apply Alone.runs_bind. cbn [mbind UsersFile.fs_mbind].
  set (Q := fun r w' => runs (init_kept first w) (init_post first w) (UsersFile.Unlock (Ret r)) w').
  assert (HQ : forall r w', init_kept first w w' -> init_post first w r w' -> runs (init_kept first w) Q (Ret r) w').
  { intros r w' Hi Hp. apply Alone.runs_ret; [done|]. unfold Q. Alone.one_call; [done|].
    destruct (bool_decide _); intros [= <- <-]; by apply Alone.runs_ret. }
  Alone.one_call; [by left|]. intros [= <- <-]. rewrite bool_decide_eq_false_2 by (rewrite Ht1, Et; by intros []).
  destruct first as [c|e]; [|apply HQ; by left].
  apply Alone.runs_bind. eapply Alone.runs_weaken; [apply Alone.runs_write_atomic|..].
  - intros w' [Hk|Hk]; [left; congruence|]. right. rewrite Ht1, Et in Hk. eauto.
  - intros r w' Hk Hp. assert (Hi : init_kept (Ok c) w w').
    { destruct Hk as [Hk|Hk]; [left; congruence|]. right. rewrite Ht1, Et in Hk. eauto. }
    assert (Hp' : match r with Ok _ | Err UsersFile.SyncAfterReplaceFailed => written to_string c None (target w') | Err _ => target w' = None end).
    { unfold Alone.write_post in Hp. by rewrite Ht1, Et in Hp. }
    destruct r as [|e]; apply HQ; try done; cbn; rewrite Et; [done|].
    destruct e; try (by left); by right.
Qed.

(** A file that is there and can be read is all a run needs, and stays as it is. *)
Lemma init_again first w f c ds : target w = Some f -> from_str (data f) = Some c ->
  alone (Works :: Works :: ds) w (init_at first) = (Some (Ok c), w).
Proof.
  intros Hf Hc. unfold alone. cbn [Alone.exec]. unfold ConfigFiles.init_at at 1. cbn [UsersFile.call].
  rewrite Hf, bool_decide_eq_true_2 by done. cbn. rewrite Hf. cbn. rewrite Hc. cbn. by rewrite Alone.exec_ret.
Qed.

Lemma acquire_loop_S fuel deadline : UsersFile.acquire_loop (S fuel) deadline =
  UsersFile.TryLock (fun a =>
    match a with
    | UsersFile.Locked => UsersFile.WritePid (Ret (Ok tt))
    | UsersFile.Busy =>
        UsersFile.Now (fun now =>
          if deadline <=? now then Ret (Err UsersFile.TimedOut)
          else UsersFile.Sleep UsersFile.LOCK_POLL (UsersFile.acquire_loop fuel deadline))
    | UsersFile.LockFailed => Ret (Err UsersFile.FlockFailed)
    end).
Proof. done. Qed.

(** A first run in which every call works. *)
Lemma init_first c text w n : target w = None -> tmp w = None -> lock w = None -> to_string c = Some text ->
  let '(r, w') := alone (replicate (13 + n) Works) w (init_at (Ok c)) in
  r = Some (Ok c) /\ target w' = Some (mkFile PRIVATE_MODE text) /\ tmp w' = None /\ lock w' = None.
Proof.
  intros Ht Htmp Hl Hs. destruct w as [t tm l ck lg]. cbn in Ht, Htmp, Hl. subst. unfold alone.
  change (13 + n)%nat with (S (S (S (S (S (S (S (S (S (S (S (S (S n))))))))))))). cbn [replicate].
  unfold ConfigFiles.init_at, locked, UsersFile.acquire, UsersFile.acquire_with_timeout, write_atomic.
  rewrite Hs. change UsersFile.LOCK_FUEL with (S 1000).
  do 3 (rewrite Alone.exec_cons; cbn -[UsersFile.acquire_loop exec]).
  rewrite acquire_loop_S. do 10 (rewrite Alone.exec_cons; cbn -[UsersFile.acquire_loop exec]).
  rewrite Alone.exec_ret. done.
Qed.
End InitSpec.

Lemma alone_runs {A} I Q (p : Fs A) w ds r w' : runs I Q p w -> alone ds w p = (r, w') ->
  I w' /\ forall a, r = Some a -> Q a w'.
Proof.
  intros Hr. unfold alone. destruct (exec ds w p) as [w1 p1] eqn:He. destruct (Hr _ _ _ He) as [Hi Hq].
  destruct p1; intros [= <- <-]; (split; [done|]); try done. intros b [= <-]. by apply Hq.
Qed.

(** ** All of them *)

Section LoadSpec.
Context {F : Type} `{Float F}.
Context (main_to_string : MainConfig F -> option bytes) (main_from_str : bytes -> option (MainConfig F)).
Context (lists_to_string : Startup.ProxyListConfig -> option bytes) (lists_from_str : bytes -> option Startup.ProxyListConfig).
Context (users_to_string : list Users.User -> option bytes) (users_from_str : bytes -> option (list Users.User)).
Context (old_main_from_str : bytes -> option (Z * list bytes)).
Local Abbreviation load := (load_or_init main_to_string main_from_str lists_to_string lists_from_str
  users_to_string users_from_str old_main_from_str).

Lemma load_or_init_users_spec : load_or_init_users users_to_string users_from_str
  = init_at users_to_string users_from_str UsersFile.CommitLock UsersFile.CommitRead UsersFile.CommitWrite (Ok Users.UsersConfig_default).
Proof. done. Qed.

(** What a configuration is taken from: the file, or what a first run begins with. *)
Definition loaded {C} (from_str : bytes -> option C) (first : option C) (t : option File) (c : C) : Prop :=
  match t with Some f => from_str (data f) = Some c | None => first = Some c end.

(** What is written is read back. *)
Definition inverse {C} (to_string : C -> option bytes) (from_str : bytes -> option C) : Prop :=
  forall c text, to_string c = Some text -> from_str text = Some c.

(** The file of one configuration after a run. *)
Definition kept {C} (to_string : C -> option bytes) (first : option C) (w w' : Disk) : Prop :=
  target w' = target w \/ (target w = None /\ exists c, first = Some c /\ written to_string c None (target w')).

Lemma init_outcome {C E} to_string from_str (le : LockError -> E) re we (first : option C) me ds w r w' :
  alone ds w (init_at to_string from_str le re we (ok_or me first)) = (r, w') ->
  kept to_string first w w' /\
  forall c, r = Some (Ok c) -> loaded from_str first (target w) c /\
    (inverse to_string from_str -> exists f, target w' = Some f /\ from_str (data f) = Some c).
Proof.
  intros Ha. destruct (alone_runs _ _ _ _ _ _ _ (runs_init_at to_string from_str le re we _ w) Ha) as [Hk Hp].
  assert (Hok : forall c, ok_or me first = Ok c -> first = Some c) by (intros c; by destruct first; intros [= <-]).
  split; [destruct Hk as [Hk|(Ht & c & Hc & Hw)]; [by left | right; eauto]|].
  intros c Hr. specialize (Hp _ Hr). cbn in Hp. unfold loaded. destruct (target w) as [f|] eqn:Et.
  - destruct Hp as [Ht Hf]. split; [done|]. intros _. eauto.
  - destruct Hp as [Hc (f & Hf & Hs & _)]. split; [by apply Hok|]. intros Hinv. exists f. split; [done|]. by apply Hinv.
Qed.

Lemma kept_refl {C} ts (first : option C) w : kept ts first w w.
Proof. by left. Qed.

(** Every call that reads the file works. *)
Definition again (ds : list Decision * list Decision * list Decision) : list Decision * list Decision * list Decision :=
  (Works :: Works :: ds.1.1, Works :: Works :: ds.1.2, Works :: Works :: ds.2).

(** C8: Starting never harms a configuration: whatever fails, and wherever the process dies, each
    of the three files is what it was, byte for byte, or was not there and is now the
    whole of what a first run begins with, never a part of it, and readable by its owner
    alone. A start that succeeds goes by the files that were there and, for those that were
    not, by the defaults, with the port, the banned patterns and the lists of an older
    version where its files are there. The next start finds the same configuration and
    leaves the files as they are, even when the older version's files have changed. *)
Theorem config_files ds d r d' : inverse main_to_string main_from_str -> inverse lists_to_string lists_from_str ->
  inverse users_to_string users_from_str -> load ds d = (r, d') ->
  kept main_to_string (first_main old_main_from_str (old_main d)) (main_disk d) (main_disk d') /\
  kept lists_to_string (Startup.migrate (old_v4 d) (old_v6 d)) (lists_disk d) (lists_disk d') /\
  kept users_to_string (Some Users.UsersConfig_default) (users_disk d) (users_disk d') /\
  forall c, r = Some (Ok c) ->
    loaded main_from_str (first_main old_main_from_str (old_main d)) (target (main_disk d)) (main c) /\
    loaded lists_from_str (Startup.migrate (old_v4 d) (old_v6 d)) (target (lists_disk d)) (proxy_list c) /\
    loaded users_from_str (Some Users.UsersConfig_default) (target (users_disk d)) (users c) /\
    forall ds' o1 o2 o3, let next := mkDir (main_disk d') (lists_disk d') (users_disk d') o1 o2 o3 in
      load (again ds') next = (Some (Ok c), next).
Proof.
  intros Hm Hl Hu. unfold load_or_init. rewrite load_or_init_users_spec.
  destruct (alone ds.1.1 _ _) as [m w1] eqn:E1. apply init_outcome in E1 as [K1 L1].
  cbn [lists_disk users_disk old_main old_v4 old_v6 main_disk].
  destruct m as [[mc|]|]; try (intros [= <- <-]; split_and!; [done | apply kept_refl | apply kept_refl | done]).
  destruct (alone ds.1.2 _ _) as [l w2] eqn:E2. apply init_outcome in E2 as [K2 L2].
  cbn [lists_disk users_disk old_main old_v4 old_v6 main_disk].
  destruct l as [[lc|]|]; try (intros [= <- <-]; split_and!; [done | done | apply kept_refl | done]).
  destruct (alone ds.2 _ _) as [u w3] eqn:E3. apply (init_outcome _ _ _ _ _ (Some Users.UsersConfig_default) UsersFile.CommitRead) in E3 as [K3 L3].
  cbn [lists_disk users_disk old_main old_v4 old_v6 main_disk].
  destruct u as [[uc|]|]; try (intros [= <- <-]; split_and!; done).
  intros [= <- <-]. split_and!; [done..|]. intros c [= <-]. cbn [main proxy_list users].
  destruct (L1 _ eq_refl) as [H1 (f1 & T1 & R1)]; [done|]. destruct (L2 _ eq_refl) as [H2 (f2 & T2 & R2)]; [done|].
  destruct (L3 _ eq_refl) as [H3 (f3 & T3 & R3)]; [done|]. split_and!; [done..|].
  intros ds' o1 o2 o3. unfold again, load_or_init_main_at, load_or_init_proxy_list_at. cbn [fst snd main_disk lists_disk users_disk old_main old_v4 old_v6].
  rewrite (init_again _ _ _ _ _ _ _ f1 mc) by done. cbn [lists_disk old_v4 old_v6].
  rewrite (init_again _ _ _ _ _ _ _ f2 lc) by done. cbn [users_disk].
  by rewrite (init_again _ _ _ _ _ _ _ f3 uc) by done.
Qed.

(** A directory in which nothing is yet. *)
Definition fresh_disk (w : Disk) : Prop := target w = None /\ tmp w = None /\ lock w = None.

(** The first start of all: the defaults are written, each to a private file, and the server,
    which would listen on the loopback address only, does not start, for there is nothing to
    serve through. *)
Theorem first_start d t1 t2 t3 n : fresh_disk (main_disk d) -> fresh_disk (lists_disk d) -> fresh_disk (users_disk d) ->
  old_main d = None -> old_v4 d = None -> old_v6 d = None ->
  main_to_string (default_main 20082 []) = Some t1 ->
  lists_to_string Startup.ProxyListConfig_default = Some t2 -> users_to_string [] = Some t3 ->
  let works := replicate (13 + n) Works in
  exists c d', load (works, works, works) d = (Some (Ok c), d') /\
    target (main_disk d') = Some (mkFile PRIVATE_MODE t1) /\
    target (lists_disk d') = Some (mkFile PRIVATE_MODE t2) /\
    target (users_disk d') = Some (mkFile PRIVATE_MODE t3) /\
    local_addr (main c) = lit "127.0.0.1:20082" /\
    forall hasher clock seed secret parallelism,
      Startup.run_server_inner hasher clock seed (startup_config (main c)) (proxy_list c) (users c) (Some secret) parallelism
      = Err Startup.NoUpstreams.
Proof.
  intros (A1 & A2 & A3) (B1 & B2 & B3) (C1 & C2 & C3) O1 O2 O3 S1 S2 S3. cbn zeta.
  unfold load_or_init. rewrite load_or_init_users_spec. unfold load_or_init_main_at, load_or_init_proxy_list_at.
  rewrite O1, O2, O3. cbn [first_main ok_or Startup.migrate fst snd mbind option_bind].
  pose proof (init_first main_to_string main_from_str InitLock InitRead InitWrite _ _ _ n A1 A2 A3 S1) as P1.
  pose proof (init_first lists_to_string lists_from_str InitLock InitRead InitWrite _ _ _ n B1 B2 B3 S2) as P2.
  pose proof (init_first users_to_string users_from_str UsersFile.CommitLock UsersFile.CommitRead UsersFile.CommitWrite _ _ _ n C1 C2 C3 S3) as P3.
  destruct (alone _ (main_disk d) _) as [r1 w1]. destruct P1 as (-> & T1 & _). cbn [lists_disk users_disk old_v4 old_v6].
  unfold Startup.ProxyListConfig_default in P2.
  destruct (alone _ (lists_disk d) _) as [r2 w2]. destruct P2 as (-> & T2 & _). cbn [users_disk].
  unfold Users.UsersConfig_default.
  destruct (alone _ (users_disk d) _) as [r3 w3]. destruct P3 as (-> & T3 & _).
  eexists _, _. split; [reflexivity|]. cbn [main_disk lists_disk users_disk main proxy_list users]. split_and!; [done..|vm_compute; reflexivity|].
  intros. reflexivity.
Qed.
End LoadSpec.

#[local] Existing Instance Real.
#[local] Abbreviation R := Stdlib.Reals.Rdefinitions.R.

(** The defaults are the library's, and pass its checks with any number of gate levels. *)
Theorem default_policies port banned_patterns depth :
  let cfg := startup_config (F := R) (default_main port banned_patterns) in
  Startup.rating_policy cfg = Policy.default /\ Policy.validate (Startup.rating_policy cfg) = Ok tt /\
  Quarantine.validate (F := R) (Startup.quarantine_policy cfg depth) = Ok tt.
Proof.
  cbn zeta. split; [done|]. split; [exact Sand.default_validates|].
  unfold Quarantine.validate, Startup.quarantine_policy. cbn.
  assert (Hl : 0 < Probes.probe_lease (from_secs 10) (from_secs 10) depth).
  { unfold Probes.probe_lease, Probes.probe_deadline, Probes.dur_saturating_add, Probes.dur_saturating_mul, Probes.PROBE_LEASE_MARGIN.
    unfold DURATION_MAX, U64_MAX, U32_MAX, from_secs, NANOS. lia. }
  change (from_secs 30 =? 0) with false. change (from_secs 600 <? from_secs 30) with false.
  by rewrite (proj2 (Z.eqb_neq _ 0)) by lia.
Qed.

(** ** An example: the main file is there, the lists come from an older version *)

#[local] Existing Instance Ratings.demo_float.
#[local] Existing Instance Users.User_eq_dec.
#[local] Instance AuthConfig_eq_dec : EqDecision AuthConfig.
Proof. solve_decision. Defined.
#[local] Instance FileLogConfig_eq_dec : EqDecision FileLogConfig.
Proof. solve_decision. Defined.
#[local] Instance TlsFragmentConfig_eq_dec : EqDecision TlsFragmentConfig.
Proof. solve_decision. Defined.
#[local] Instance LogConfig_eq_dec : EqDecision Logger.LogConfig.
Proof. solve_decision. Defined.
#[local] Instance PoolConfig_eq_dec : EqDecision Pool.PoolConfig.
Proof. solve_decision. Defined.
#[local] Instance spec_float_eq_dec : EqDecision SpecFloat.spec_float.
Proof. solve_decision. Defined.
#[local] Instance NetworkConfig_eq_dec : EqDecision (NetworkConfig SpecFloat.spec_float).
Proof. solve_decision. Defined.
#[local] Instance MainConfig_eq_dec : EqDecision (MainConfig SpecFloat.spec_float).
Proof. solve_decision. Defined.
#[local] Instance ProxyListConfig_eq_dec : EqDecision Startup.ProxyListConfig.
Proof. solve_decision. Defined.

(** A format that knows one configuration. *)
Definition toy_write {C} `{EqDecision C} (c x : C) : option bytes := if decide (x = c) then Some (lit "x") else None.
Definition toy_read {C} (c : C) (b : bytes) : option C := if decide (b = lit "x") then Some c else None.
Lemma toy_inverse {C} `{EqDecision C} (c : C) : inverse (toy_write c) (toy_read c).
Proof. intros x text. unfold toy_write, toy_read. destruct (decide (x = c)) as [->|]; [|done]. by intros [= <-]. Qed.

Definition demo_main : MainConfig SpecFloat.spec_float := default_main 1080 [lit "ads"].
Definition demo_lists : Startup.ProxyListConfig := Startup.mkProxyListConfig [lit "1.2.3.4:1080"] [] [] [] [] [].
Definition demo_dir : Dir :=
  mkDir (UsersFile.mkDisk (Some (mkFile 420 (lit "x"))) None None 0 []) (UsersFile.mkDisk None None None 0 [])
    (UsersFile.mkDisk None None None 0 []) (Some (Some (lit "port: 1"))) (Some (Some (lit "# v4" ++ [LF] ++ lit " 1.2.3.4:1080 "))) None.
Definition demo_load (d : Dir) : option (result LoadError (Configs SpecFloat.spec_float)) * Dir :=
  let works := replicate 13 Works in
  load_or_init (toy_write demo_main) (toy_read demo_main) (toy_write demo_lists) (toy_read demo_lists)
    (toy_write []) (toy_read []) (fun _ => None) (works, works, works) d.

Example demo_loaded : (demo_load demo_dir).1 = Some (Ok (mkConfigs demo_main demo_lists []))
  /\ target (lists_disk (demo_load demo_dir).2) = Some (mkFile PRIVATE_MODE (lit "x")).
Proof. vm_compute. done. Qed.

Lemma config_files_witness :
  let later := (demo_load demo_dir).2 in
  let next := mkDir (main_disk later) (lists_disk later) (users_disk later) None None None in
  kept (toy_write demo_main) (first_main (fun _ => None) (old_main demo_dir)) (main_disk demo_dir) (main_disk later) /\
  demo_load next = (Some (Ok (mkConfigs demo_main demo_lists [])), next).
Proof.
  destruct (config_files (toy_write demo_main) (toy_read demo_main) (toy_write demo_lists) (toy_read demo_lists)
    (toy_write []) (toy_read []) (fun _ => None) (replicate 13 Works, replicate 13 Works, replicate 13 Works) demo_dir
    (demo_load demo_dir).1 (demo_load demo_dir).2 (toy_inverse _) (toy_inverse _) (toy_inverse _) (surjective_pairing _))
    as (H1 & _ & _ & H2).
  split; [exact H1|]. destruct (H2 _ (proj1 demo_loaded)) as (_ & _ & _ & H3).
  exact (H3 (replicate 11 Works, replicate 11 Works, replicate 11 Works) None None None).
Defined.
End ConfigFiles.
