(* ===== verification/Wrappers.v ===== *)
(** The layers of a connection (src/crates/resocks5-net/src/connect/stream.rs,
    connect/util/any_upstream.rs, session/progress.rs, and the transport of
    [dial_chain_over]): what is between a tunnel and the one socket under it.

    - [Stream]: the wrappers, and [AnyUpstream] over them; each call goes to the layer below
      ([poll_stream], [as_tcp], [set_nodelay]);
    - a TLS layer belongs to a library: a call on it makes any calls below, deciding each by
      the answers to those before ([Strategy]);
    - [plain], [https], [through_gates]: the layers each way of connecting builds.

    What is confirmed to the enclosing scope is what the socket took, once
    ([confirmed_once]), and every layer leads to the socket ([gate_layers]). *)
From S2P Require Import Prelude Text ProxyTypes Errors Fragment.

Module Wrappers.

(** ** Calls and answers *)

Inductive Op :=
| OWrite (buf : bytes) | OWriteVectored (bufs : list bytes) | OFlush | OShutdown | ORead (room : nat).

Inductive Answer := NotReady | Failed (e : IoError) | Took (n : nat) | Got (bs : bytes) | Fine.

(** What a call on a TLS layer does below it. *)
Inductive Strategy := Return (a : Answer) | Inner (o : Op) (k : Answer -> Strategy).

(** The socket's answers and the TLS layers' ways, still to come; what the socket took, in
    order; the scope's total, when there is a scope; the socket's option. *)
Record Net := mkNet {
  answers : list Answer; sessions : list Strategy; sent : bytes; scope : option Z; nodelay : bool
}.

(** ** Layers *)

Inductive Stream :=
| Tcp (id : nat)
| UpstreamStream (id : nat) (permit : option nat) (extra_permits : list nat)
| OverStream
| ProgressReportingWriter (inner : Stream)
| TlsStream (inner : Stream)
| Boxed (inner : Stream).

Inductive AnyUpstream :=
| Plain (id : nat) (permit : option nat) (extra_permits : list nat)
| AnyTls (inner : Stream)
| Direct (id : nat)
| Gate (inner : Stream).

Definition from_tcp (id : nat) : Stream := UpstreamStream id None [].
Definition attach_permit (p : nat) (s : Stream) : Stream :=
  match s with UpstreamStream id permit extra => UpstreamStream id permit (extra ++ [p]) | _ => s end.

Definition as_stream (u : AnyUpstream) : Stream :=
  match u with
  | Plain id permit extra => UpstreamStream id permit extra
  | AnyTls s => s
  | Direct id => Tcp id
  | Gate s => s
  end.

Fixpoint as_tcp (s : Stream) : option nat :=
  match s with
  | Tcp id | UpstreamStream id _ _ => Some id
  | OverStream => None
  | ProgressReportingWriter s | TlsStream s | Boxed s => as_tcp s
  end.
Definition upstream_as_tcp (u : AnyUpstream) : option nat := as_tcp (as_stream u).

(** [works]: the system call does. *)
Fixpoint set_nodelay (s : Stream) (works on : bool) (n : Net) : bool * Net :=
  match s with
  | Tcp _ | UpstreamStream _ _ _ =>
      (works, if works then mkNet (answers n) (sessions n) (sent n) (scope n) on else n)
  | OverStream => (true, n)
  | ProgressReportingWriter s | TlsStream s | Boxed s => set_nodelay s works on n
  end.

(** The permits a connection gives back when it is dropped. *)
Fixpoint permits (s : Stream) : list nat :=
  match s with
  | Tcp _ | OverStream => []
  | UpstreamStream _ permit extra => option_list permit ++ extra
  | ProgressReportingWriter s | TlsStream s | Boxed s => permits s
  end.

(** ** Polling *)

(** [FlushProgress::report_confirmed]. *)
Definition report_confirmed (k : nat) (n : Net) : Net :=
  mkNet (answers n) (sessions n) (sent n) ((fun t => Fragment.record t (Z.of_nat k)) <$> scope n) (nodelay n).

Definition took (n : Net) (rest : list Answer) (bs : bytes) : Net :=
  mkNet rest (sessions n) (sent n ++ bs) (scope n) (nodelay n).

(** The socket takes no more than it is given, and gives no more than there is room for. *)
Definition socket (o : Op) (n : Net) : Answer * Net :=
  match answers n with
  | [] => (NotReady, n)
  | a :: rest =>
      let taken (buf : bytes) k := (Took (Nat.min k (length buf)), took n rest (take k buf)) in
      match o, a with
      | OWrite buf, Took k => taken buf k
      | OWriteVectored bufs, Took k => taken (concat bufs) k
      | (OFlush | OShutdown), Fine => (Fine, took n rest [])
      | ORead room, Got bs => (Got (take room bs), took n rest [])
      | _, Failed e => (Failed e, took n rest [])
      | _, _ => (NotReady, took n rest [])
      end
  end.

(** [AsyncWrite::poll_write_vectored], where a layer does not have its own: the first
    buffer that holds anything. *)
Definition unvectored (o : Op) : Op :=
  match o with
  | OWriteVectored bufs => OWrite (default [] (list_find (fun b => b <> []) bufs ≫= fun x => Some x.2))
  | _ => o
  end.

Definition confirm (o : Op) (a : Answer) (n : Net) : Net :=
  match o, a with (OWrite _ | OWriteVectored _), Took k => report_confirmed k n | _, _ => n end.

Fixpoint drive (below : Op -> Net -> Answer * Net) (st : Strategy) (n : Net) : Answer * Net :=
  match st with
  | Return a => (a, n)
  | Inner o k => let '(a, n) := below o n in drive below (k a) n
  end.

Fixpoint poll_stream (s : Stream) (o : Op) (n : Net) : Answer * Net :=
  match s with
  | Tcp _ | UpstreamStream _ _ _ => socket o n
  | OverStream => socket (unvectored o) n
  | ProgressReportingWriter s => let '(a, n) := poll_stream s o n in (a, confirm o a n)
  | TlsStream s =>
      match sessions n with
      | [] => (NotReady, n)
      | st :: rest => drive (poll_stream s) st (mkNet (answers n) rest (sent n) (scope n) (nodelay n))
      end
  | Boxed s => poll_stream s o n
  end.

Definition poll_upstream (u : AnyUpstream) (o : Op) (n : Net) : Answer * Net :=
  poll_stream (as_stream u) (unvectored o) n.

(** ** What connecting builds *)

Definition plain (id : nat) (permit : option nat) : AnyUpstream := Plain id permit [].
Definition https (id : nat) (permit : option nat) : AnyUpstream :=
  AnyTls (TlsStream (ProgressReportingWriter (UpstreamStream id permit []))).

(** The tunnel a hop leaves. *)
Definition hop_stream (s : Stream) (node : ProxyConfig) : Stream :=
  match protocol node with Socks5 | Http => s | Https => Boxed (TlsStream s) end.
Definition hops (s : Stream) (nodes : list ProxyConfig) : Stream := foldl hop_stream s nodes.

(** Over a socket, with the permits of the nodes, outermost first. *)
Definition through_gates (id : nat) (permit : option nat) (inner_permits : list nat) (nodes : list ProxyConfig) : AnyUpstream :=
  let base := foldl (fun s p => attach_permit p s) (UpstreamStream id permit []) inner_permits in
  Gate (hops (Boxed (ProgressReportingWriter base)) nodes).

(** Over the caller's transport. *)
Definition over (nodes : list ProxyConfig) : AnyUpstream := Gate (hops (Boxed OverStream) nodes).

(** ** Theorems *)

(** The one layer that reports is on the transport; or there is none. *)
Fixpoint reports_at_base (s : Stream) : bool :=
  match s with
  | ProgressReportingWriter (Tcp _ | UpstreamStream _ _ _ | OverStream) => true
  | TlsStream s | Boxed s => reports_at_base s
  | _ => false
  end.
Fixpoint silent (s : Stream) : bool :=
  match s with ProgressReportingWriter _ => false | TlsStream s | Boxed s => silent s | _ => true end.

Definition in_u64 (t : Z) : Prop := 0 <= t < 2 ^ 64.

(** What a call may do to the network: [d] reaches the socket, and of it the scope hears. *)
Definition adds (reported : bool) (n n' : Net) : Prop :=
  exists d, sent n' = sent n ++ d /\
    scope n' = (fun t => if reported then (t + Z.of_nat (length d)) mod 2 ^ 64 else t) <$> scope n.

Definition counts (n : Net) : Prop := match scope n with Some t => in_u64 t | None => True end.

Lemma record_mod t k : in_u64 t -> Fragment.record t (Z.of_nat k) = (t + Z.of_nat k) mod 2 ^ 64.
Proof.
  unfold in_u64, Fragment.record, wrapping_add64. intros Ht. case_match eqn:E; [|done].
  apply Z.eqb_eq in E. rewrite E, Z.add_0_r, Z.mod_small; lia.
Qed.

Lemma adds_refl b n : counts n -> adds b n n.
Proof.
  intros Hc. exists []. split; [by rewrite app_nil_r|]. unfold counts, in_u64 in Hc. destruct (scope n) as [t|]; [|done]. cbn.
  destruct b; [|done]. by rewrite Z.add_0_r, Z.mod_small.
Qed.

Lemma adds_trans b n1 n2 n3 : adds b n1 n2 -> adds b n2 n3 -> adds b n1 n3.
Proof.
  intros (d & S1 & T1) (e & S2 & T2). exists (d ++ e). split; [by rewrite S2, S1, app_assoc|].
  rewrite T2, T1. destruct (scope n1) as [t|]; [|done]. cbn. destruct b; [|done].
  rewrite Zplus_mod_idemp_l, length_app. do 2 f_equal. lia.
Qed.

Lemma adds_counts b n n' : counts n -> adds b n n' -> counts n'.
Proof.
  unfold counts, in_u64. intros Hc (d & _ & ->). destruct (scope n) as [t|]; [|done]. cbn -[Z.pow]. destruct b; [|done].
  apply Z.mod_pos_bound. lia.
Qed.

(** The bytes that reach the socket in one call, and the call's answer. *)
Lemma socket_spec o n a n' : socket o n = (a, n') -> exists d, sent n' = sent n ++ d /\ scope n' = scope n /\
  match o, a with (OWrite _ | OWriteVectored _), Took k => length d = k | _, _ => d = [] end.
Proof.
  unfold socket. destruct (answers n) as [|a0 rest]; [intros [= <- <-]; exists []; rewrite app_nil_r; by destruct o|].
  destruct o as [buf|bufs| | |room], a0 as [|e|k|bs|]; intros [= <- <-]; cbn; first
    [ by exists [] | exists (take k buf); by rewrite length_take | exists (take k (concat bufs)); by rewrite length_take ].
Qed.

Lemma adds_socket o n : adds false n (socket o n).2.
Proof. destruct (socket_spec o n _ _ (surjective_pairing _)) as (d & H1 & H2 & _). exists d. split; [done|]. rewrite H2. by destruct (scope n). Qed.

(** The layer on the transport: what the socket takes is what is confirmed. *)
Lemma adds_confirm o o' n : counts n -> o' = o \/ o' = unvectored o ->
  adds true n (confirm o (socket o' n).1 (socket o' n).2).
Proof.
  intros Hc Ho. destruct (socket o' n) as [a n1] eqn:E. destruct (socket_spec _ _ _ _ E) as (d & H1 & H2 & H3). clear E.
  exists d. cbn [fst snd].
  assert (Hk : forall k, confirm o a n1 = report_confirmed k n1 -> length d = k ->
    sent (confirm o a n1) = sent n ++ d /\
    scope (confirm o a n1) = (fun t => (t + Z.of_nat (length d)) mod 2 ^ 64) <$> scope n).
  { intros k -> <-. unfold report_confirmed. cbn [sent scope]. split; [done|]. rewrite H2. unfold counts in Hc.
    destruct (scope n) as [t|]; [|done]. unfold fmap, option_fmap, option_map. f_equal. by apply record_mod. }
  assert (H0 : confirm o a n1 = n1 -> d = [] -> sent (confirm o a n1) = sent n ++ d /\
    scope (confirm o a n1) = (fun t => (t + Z.of_nat (length d)) mod 2 ^ 64) <$> scope n).
  { intros -> ->. rewrite H1, H2. split; [done|]. destruct (adds_refl true n Hc) as (e & He & Hs).
    assert (e = []) as -> by (apply (app_inv_head (sent n)); by rewrite app_nil_r). exact Hs. }
  destruct Ho as [-> | ->]; destruct o, a; cbn [unvectored] in H3; first [exact (H0 eq_refl H3) | exact (Hk _ eq_refl H3)].
Qed.

Lemma adds_drive b below st : (forall o n, counts n -> adds b n (below o n).2) ->
  forall n, counts n -> adds b n (drive below st n).2.
Proof.
  intros Hb. induction st as [a|o k IH]; intros n Hc; cbn [drive]; [by apply adds_refl|].
  specialize (Hb o n Hc). destruct (below o n) as [a n1]. eapply adds_trans; [exact Hb|]. apply IH. by eapply adds_counts.
Qed.

Lemma adds_poll (b : bool) s : (if b then reports_at_base s else silent s) = true ->
  forall o n, counts n -> adds b n (poll_stream s o n).2.
Proof.
  induction s as [id|id p ps| |s IH|s IH|s IH]; intros Hs o n Hc; cbn [poll_stream].
  - destruct b; [done|]. apply adds_socket.
  - destruct b; [done|]. apply adds_socket.
  - destruct b; [done|]. apply adds_socket.
  - destruct b; [|done]. destruct (poll_stream s o n) as [a n1] eqn:E.
    destruct s; try done; cbn [poll_stream] in E; cbn [snd].
    + pose proof (adds_confirm o o n Hc (or_introl eq_refl)) as Ha. by rewrite E in Ha.
    + pose proof (adds_confirm o o n Hc (or_introl eq_refl)) as Ha. by rewrite E in Ha.
    + pose proof (adds_confirm o (unvectored o) n Hc (or_intror eq_refl)) as Ha. by rewrite E in Ha.
  - assert (Hin : (if b then reports_at_base s else silent s) = true) by (by destruct b).
    destruct (sessions n) as [|st rest]; [by apply adds_refl|].
    exact (adds_drive b (poll_stream s) st (IH Hin) (mkNet (answers n) rest (sent n) (scope n) (nodelay n)) Hc).
  - apply IH; [by destruct b | done].
Qed.

Definition polls (u : AnyUpstream) (ops : list Op) (n : Net) : Net := foldl (fun n o => (poll_upstream u o n).2) n ops.

Lemma adds_polls (b : bool) u : (if b then reports_at_base (as_stream u) else silent (as_stream u)) = true ->
  forall ops n, counts n -> adds b n (polls u ops n).
Proof.
  intros Hs. induction ops as [|o ops IH]; intros n Hc; [by apply adds_refl|]. cbn [polls foldl].
  pose proof (adds_poll b _ Hs (unvectored o) n Hc) as H1. eapply adds_trans; [exact H1|]. apply IH. by eapply adds_counts.
Qed.

(** A property of the layers that a hop keeps. *)
Lemma hops_ind {A} (f : Stream -> A) : (forall s, f (Boxed (TlsStream s)) = f s) ->
  forall nodes s, f (hops s nodes) = f s.
Proof.
  intros Hf. induction nodes as [|node nodes IH]; intros s; [done|]. cbn. rewrite IH. unfold hop_stream.
  by destruct (protocol node).
Qed.

Lemma attached id permit ps : foldl (fun s p => attach_permit p s) (UpstreamStream id permit []) ps = UpstreamStream id permit ps.
Proof.
  change ps with ([] ++ ps) at 2. generalize (@nil nat). induction ps as [|p ps IH]; intros l; cbn; [by rewrite app_nil_r|].
  rewrite IH. by rewrite <- app_assoc.
Qed.

(** What is confirmed is the wire: whatever the TLS layers of a connection do, however many
    there are and however the socket answers, over TLS and through gates the scope hears of
    every byte the socket took, once, and of no other; a connection without such a layer
    confirms nothing. *)
Theorem confirmed_once id p ps nodes ops n : counts n ->
  adds false n (polls (plain id p) ops n) /\ adds false n (polls (Direct id) ops n) /\
  adds true n (polls (https id p) ops n) /\ adds true n (polls (through_gates id p ps nodes) ops n) /\
  adds false n (polls (over nodes) ops n).
Proof.
  intros Hc. split_and!; apply adds_polls; try done.
  - cbn. rewrite attached. by rewrite (hops_ind reports_at_base).
  - cbn. by rewrite (hops_ind silent).
Qed.

(** Through any number of layers the socket is reached, its option set, and every permit
    held; over a caller's transport there is none to reach. *)
Theorem gate_layers id p ps nodes works on n :
  upstream_as_tcp (through_gates id p ps nodes) = Some id /\ permits (as_stream (through_gates id p ps nodes)) = option_list p ++ ps /\
  set_nodelay (as_stream (through_gates id p ps nodes)) works on n = set_nodelay (Tcp id) works on n /\
  upstream_as_tcp (over nodes) = None /\ set_nodelay (as_stream (over nodes)) works on n = (true, n).
Proof.
  unfold upstream_as_tcp. cbn [through_gates over as_stream]. rewrite attached.
  rewrite !(hops_ind as_tcp), (hops_ind permits) by done.
  rewrite !(hops_ind (fun s => set_nodelay s works on n)) by done. done.
Qed.

(** A plain connection is the socket. *)
Theorem plain_transparent id p o n : (forall bufs, o <> OWriteVectored bufs) ->
  poll_upstream (plain id p) o n = socket o n /\ poll_upstream (Direct id) o n = socket o n.
Proof. intros Ho. by destruct o; try destruct (Ho bufs eq_refl). Qed.

(** ** An example: a write through a TLS layer, in two parts, over a gate *)

Definition demo_gate : ProxyConfig := mkProxyConfig Https (lit "g") 443 None None 1 true None.
Definition demo_strategy : Strategy :=
  Inner (OWrite (lit "abc")) (fun a => match a with Took 2 => Inner (OWrite (lit "c")) (fun _ => Return (Took 1)) | _ => Return NotReady end).
Example demo_confirmed :
  let n := mkNet [Took 2; Took 9] [demo_strategy] [] (Some 5) false in
  let '(a, n') := poll_upstream (through_gates 7 None [] [demo_gate]) (OWrite (lit "x")) n in
  (a, sent n', scope n') = (Took 1, lit "abc", Some 8).
Proof. vm_compute. done. Qed.
End Wrappers.
