(* ===== verification/Windows.v ===== *)
(** The atomic write of a configuration file on windows
    (src/crates/resocks5/src/config/users/users_file/platform_windows.rs, and the windows
    branches of users_file/mod.rs).

    [ReplaceFileW] belongs to the platform: what it documents of its failures is the class
    [ReplaceFileLaws]. A replacement that fails half way may lose the old file; the new
    content is then kept where no later write touches it ([windows_write],
    [recovery_preserved]). *)
From S2P Require Import Prelude Text Users UsersFile.

Module Windows.

(** Who may read a file: its owner, or whom some other list says. *)
Inductive Dacl := OwnerOnly | Other (n : nat).
Record WFile := mkWFile { dacl : Dacl; content : bytes }.
Record Dir := mkDir { target : option WFile; tmp : option WFile }.

Definition ERROR_LOCK_VIOLATION : Z := 33.
Definition ERROR_UNABLE_TO_MOVE_REPLACEMENT : Z := 1176.
Definition ERROR_UNABLE_TO_MOVE_REPLACEMENT_2 : Z := 1177.

(** An error of the system: what kind it is, and its code. *)
Record OsError := mkOsError { not_found : bool; raw_os_error : option Z }.

Definition is_lock_busy (e : OsError) : bool := bool_decide (raw_os_error e = Some ERROR_LOCK_VIOLATION).

Definition moved_code (code : Z) : bool :=
  (code =? ERROR_UNABLE_TO_MOVE_REPLACEMENT) || (code =? ERROR_UNABLE_TO_MOVE_REPLACEMENT_2).
Definition code_of (e : OsError) : Z := default 0 (raw_os_error e).

(** [ReplaceFileW] without a backup, in an environment [Env]. *)
Class ReplaceFile (Env : Type) := replace_file : Env -> Dir -> result OsError unit * Dir.

(** What it documents: the replaced file's attributes go to its replacement; the two codes
    leave the replacement under its name; any other failure changes nothing. *)
Class ReplaceFileLaws (Env : Type) `{ReplaceFile Env} := {
  replace_ok e d d' : replace_file e d = (Ok tt, d') ->
    exists old new, target d = Some old /\ tmp d = Some new /\
      d' = mkDir (Some (mkWFile (dacl old) (content new))) None;
  replace_not_found e d d' err : replace_file e d = (Err err, d') -> not_found err = true ->
    d' = d /\ (tmp d <> None -> target d = None);
  replace_moved e d d' err : replace_file e d = (Err err, d') -> not_found err = false ->
    moved_code (code_of err) = true -> content <$> tmp d' = content <$> tmp d;
  replace_failed e d d' err : replace_file e d = (Err err, d') -> not_found err = false ->
    moved_code (code_of err) = false -> d' = d
}.

Section Write.
Context {Env : Type} `{ReplaceFile Env}.

Inductive WriteError :=
| SerializeFailed | CreateFailed | WriteFailed | FlushFailed
| RenameFailed                        (* of a first write *)
| Undetermined (code : Z)             (* the new content is in the temporary file *)
| LeftIntact (code : Z).

(** [renames], [removes]: whether those calls work. *)
Definition commit (e : Env) (renames removes : bool) (d : Dir) : result WriteError unit * Dir :=
  match replace_file e d with
  | (Ok _, d) => (Ok tt, d)
  | (Err err, d) =>
      if not_found err then
        if renames then (Ok tt, mkDir (tmp d) None) else (Err RenameFailed, d)
      else
        let code := code_of err in
        if moved_code code then (Err (Undetermined code), d)
        else (Err (LeftIntact code), if removes then mkDir (target d) None else d)
  end.

(** Only where there is none. *)
Definition create_private_tmp (creates : bool) (d : Dir) : option Dir :=
  match tmp d with
  | Some _ => None
  | None => if creates then Some (mkDir (target d) (Some (mkWFile OwnerOnly []))) else None
  end.

(** What the calls of a write meet; [writes]: how much of the text is written when not all. *)
Record Calls := mkCalls { creates : bool; writes : option nat; syncs : bool; renames : bool; removes : bool; replaces : Env }.

Definition write_atomic {C} (to_string : C -> option bytes) (config : C) (k : Calls) (d : Dir)
    : result WriteError unit * Dir :=
  match to_string config with
  | None => (Err SerializeFailed, d)
  | Some text =>
      match create_private_tmp (creates k) d with
      | None => (Err CreateFailed, d)
      | Some d =>
          let written := match writes k with None => text | Some n => take n text end in
          let d := mkDir (target d) (Some (mkWFile OwnerOnly written)) in
          let write_result :=
            match writes k with
            | Some _ => Err WriteFailed
            | None => if syncs k then Ok tt else Err FlushFailed
            end in
          match write_result with
          | Err e => (Err e, if removes k then mkDir (target d) None else d)
          | Ok _ => commit (replaces k) (renames k) (removes k) d
          end
      end
  end.
End Write.
Arguments Calls : clear implicits.

(** ** Theorems *)

Section Laws.
Context {Env : Type} `{ReplaceFileLaws Env}.
Context {C : Type} (to_string : C -> option bytes).
Implicit Types (d : Dir) (k : Calls Env).

(** The temporary file, where there is one, was made by the owner for the owner. *)
Lemma create_private_tmp_spec b d d' : create_private_tmp b d = Some d' ->
  tmp d = None /\ d' = mkDir (target d) (Some (mkWFile OwnerOnly [])).
Proof. unfold create_private_tmp. destruct (tmp d); [done|]. destruct b; [|done]. by intros [= <-]. Qed.

(** What each outcome says of the files: a write that works has put the whole text in place
    with the access the file had, or for its owner alone; one whose outcome is undetermined
    has kept the whole text in the temporary file; any other has left the file as it
    was. *)
Theorem windows_write c k d r d' : write_atomic to_string c k d = (r, d') ->
  match r with
  | Ok _ => exists text, to_string c = Some text /\
      target d' = Some (mkWFile (default OwnerOnly (dacl <$> target d)) text) /\ tmp d' = None
  | Err (Undetermined _) => content <$> tmp d' = to_string c
  | Err _ => target d' = target d
  end.
Proof.
  unfold write_atomic. destruct (to_string c) as [text|]; [|by intros [= <- <-]].
  destruct (create_private_tmp (creates k) d) as [d1|] eqn:Ec; [|by intros [= <- <-]].
  apply create_private_tmp_spec in Ec as [_ ->]. cbn [target tmp].
  destruct (writes k); [intros [= <- <-]; by destruct (removes k)|].
  destruct (syncs k); [|intros [= <- <-]; by destruct (removes k)].
  set (d2 := mkDir (target d) _). unfold commit. destruct (replace_file (replaces k) d2) as [[[]|err] d3] eqn:Er.
  - intros [= <- <-]. apply replace_ok in Er as (old & new & Ho & Hn & ->). cbn in Ho, Hn. injection Hn as <-.
    exists text. by rewrite Ho.
  - destruct (not_found err) eqn:En.
    { destruct (replace_not_found _ _ _ _ Er En) as [-> Ht]. destruct (renames k); intros [= <- <-]; [|done].
      exists text. cbn in Ht. rewrite (Ht ltac:(done)). done. }
    destruct (moved_code (code_of err)) eqn:Em; intros [= <- <-].
    + by rewrite (replace_moved _ _ _ _ Er En Em).
    + rewrite (replace_failed _ _ _ _ Er En Em). by destruct (removes k).
Qed.

(** What an undetermined write kept is never written over: every later write is refused
    until someone looks. *)
Theorem recovery_preserved c k d f : tmp d = Some f -> to_string c <> None ->
  write_atomic to_string c k d = (Err CreateFailed, d).
Proof. intros Ht Hs. unfold write_atomic, create_private_tmp. rewrite Ht. by destruct (to_string c). Qed.

(** A first write whose rename fails leaves its temporary file behind, which no error told
    anyone to look at, and which refuses every later write as well. *)
Theorem first_write_stuck c k d d' : write_atomic to_string c k d = (Err RenameFailed, d') ->
  target d' = None /\ content <$> tmp d' = to_string c /\
  forall c' k', to_string c' <> None -> write_atomic to_string c' k' d' = (Err CreateFailed, d').
Proof.
  intros Hw. assert (Hd : exists f, tmp d' = Some f /\ target d' = None /\ to_string c = Some (content f)).
  { revert Hw. unfold write_atomic. destruct (to_string c) as [text|]; [|done].
    destruct (create_private_tmp (creates k) d) as [d1|] eqn:Ec; [|done].
    apply create_private_tmp_spec in Ec as [_ ->]. cbn [target tmp].
    destruct (writes k); [done|]. destruct (syncs k); [|done].
    set (d2 := mkDir (target d) _). unfold commit. destruct (replace_file (replaces k) d2) as [[[]|err] d3] eqn:Er; [done|].
    destruct (not_found err) eqn:En; [|by destruct (moved_code _)].
    destruct (replace_not_found _ _ _ _ Er En) as [-> Ht]. destruct (renames k); intros [= <-].
    exists (mkWFile OwnerOnly text). split; [done|]. split; [|done]. by apply Ht. }
  destruct Hd as (f & Hf & Ht & Hs). split; [done|]. split; [by rewrite Hf|].
  intros c' k' Hc. by eapply recovery_preserved.
Qed.
End Laws.

(** ** An example: a platform that fails with a given code *)

#[local] Instance demo_replace : ReplaceFile (option Z) := fun e d =>
  match target d, tmp d with
  | Some old, Some new =>
      match e with
      | None => (Ok tt, mkDir (Some (mkWFile (dacl old) (content new))) None)
      | Some code => (Err (mkOsError false (Some code)), if moved_code code then mkDir None (Some new) else d)
      end
  | _, _ => (Err (mkOsError true (Some 2)), d)
  end.
#[local] Instance demo_laws : ReplaceFileLaws (option Z).
Proof.
  split; intros e [t m]; unfold replace_file, demo_replace; cbn [target tmp]; intros d'.
  - destruct t as [old|], m as [new|]; try done. destruct e; [done|]. intros [= <-]. eauto.
  - intros err. destruct t as [old|], m as [new|]; [destruct e as [code|]; [|done]; by intros [= <- <-]|..]; by intros [= <- <-].
  - intros err. destruct t as [old|], m as [new|]; [destruct e as [code|]; [|done]|..]; intros [= <- <-]; try done.
    cbn. intros _ Hc. unfold code_of in Hc. cbn in Hc. by rewrite Hc.
  - intros err. destruct t as [old|], m as [new|]; [destruct e as [code|]; [|done]|..]; intros [= <- <-]; try done.
    cbn. intros _ Hc. unfold code_of in Hc. cbn in Hc. by rewrite Hc.
Qed.

Definition demo_calls (code : option Z) : Calls (option Z) := mkCalls true None true true true code.
Example demo_half_way :
  let d := mkDir (Some (mkWFile (Other 1) (lit "old"))) None in
  let '(r, d1) := write_atomic Some (lit "new") (demo_calls (Some 1176)) d in
  (r, d1, write_atomic Some (lit "newer") (demo_calls None) d1)
  = (Err (Undetermined 1176), mkDir None (Some (mkWFile OwnerOnly (lit "new"))),
     (Err CreateFailed, mkDir None (Some (mkWFile OwnerOnly (lit "new"))))).
Proof. vm_compute. done. Qed.
End Windows.
